(* ===== verification/_CoqProject ===== *)
-Q . S2P
Prelude.v
JsString.v
Effects.v
TraceLogic.v
Await.v
JsMap.v
Lib0.v
Json.v
JsonFacts.v
JsonSpec.v
Caps.v
MuxFrame.v
Mux.v
MuxFacts.v
MuxSpec.v
Gate.v
Epoch.v
Token.v
TokenSpec.v
TextMerge.v
TextMergeSpec.v
TextDiff.v
Provider.v
ProviderFacts.v
ProviderSim.v
ProviderSpec.v
BootstrapLog.v
BootstrapSpec.v
BootstrapReplay.v
CliSync.v
CliSyncSpec.v
LocalState.v
LocalSpec.v
Lineage.v
ConfigCategories.v
ConflictCopy.v
Vault.v
Limiter.v
BinarySync.v
BinarySyncSpec.v
BinaryUploads.v
YTypes.v
Reconcile.v
Canvas.v
CanvasSpec.v
CanvasDiff.v
CanvasApply.v
CanvasSnapshot.v
CanvasText.v
CanvasDocument.v
Structured.v
StructuredSpec.v
VaultIndex.v
VaultSync.v
VaultDemo.v
VaultSteps.v
VaultRuns.v
VaultDelete.v
ConfigSync.v
ConfigSyncSpec.v
NoteStream.v
