(* ===== verification/Prelude.v ===== *)
(** * The Realtime plugin: a verified model of its synchronization core

    Realtime keeps Obsidian vaults in step through a server.  This development
    models the parts of its TypeScript sources that decide what is sent, merged,
    overwritten and deleted, and proves what they promise.  File names are
    relative to the repository ([src/...] is the plugin, [packages/...] the SDK
    and the command line).

    ** How the parts interact

    A document (a note, a canvas, the vault index) has a transport, the
    provider, which reaches the server through a virtual socket of the
    multiplexer, once the compatibility gate of the server is open and with a
    token that names the document's epoch.  Content is reconciled three ways:
    text by the text merge, JSON by the structured merge, settings files and
    blobs by versions in the shared index, against what the local sync state
    remembers.  Vault events captured before the index has loaded are folded
    into a plan.  The command line syncs a folder without any of this, by
    snapshots and preconditions; the SDK streams text into a note.

    ** The files, in the order they build on each other

    - [Prelude], [JsString], [Effects], [JsMap]: record update, calls that may
      throw, strings, programs over a state with their weakest preconditions,
      JavaScript's maps and sets.
    - [TraceLogic], [Await]: programs whose every effect has to be warranted by
      the ones before it; programs among others, with what happens while they
      wait, and what holds whatever that is.
    - [Lib0]: the class of the npm encoding library, with its laws and an
      instance; clients are proved against the class.
    - [Json], [JsonFacts], [JsonSpec]: [src/structured/reconcile.ts]
      ([jsonEqual], [jsonContains], [mergeStructuredStartupResult]).  The merge
      is symmetric and keeps every one-sided change.
    - [Caps]: [src/caps.ts], [src/httpError.ts]; [checkServerCaps] is exact.
    - [MuxFrame], [Mux], [MuxFacts], [MuxSpec]: [src/sync/mux.ts].  [World] holds
      every connection and virtual socket; an event, or a client's callback at
      any depth, is a function on it.  The invariant, pacing, no stranded open,
      closing of lost channels and chunked transfers are proved for all runs.
    - [Gate]: [src/sync/compatibilityGate.ts]; [Epoch]: [src/documentEpoch.ts]
      and the epoch storage of [src/main.ts]; [Token], [TokenSpec]:
      [src/sync/clientToken.ts].  State machines whose events end the awaits.
    - [TextMerge], [TextMergeSpec]: [src/textMerge.ts]; [TextDiff]: [src/diff.ts].
    - [YTypes]: the class of Yjs's maps, arrays and texts, its laws and an
      instance; [Reconcile]: the other half of [src/structured/reconcile.ts],
      which writes a JSON value into them in place ([reconcileInto]) and reads
      it back ([toValue]).
    - [Canvas], [CanvasSpec], [CanvasDiff], [CanvasApply], [CanvasSnapshot],
      [CanvasText]: [src/structured/canvas.ts] and [canvasOperations.ts], a
      client of both.  [Canvas] has every operation; [CanvasSpec] proves the
      orders canonical, [CanvasDiff] what the difference of two canvases says,
      [CanvasApply] that applying it leads from one to the other,
      [CanvasSnapshot] what a snapshot may take out and bring back, and
      [CanvasText] the round trip of the file.  [CanvasDocument]:
      [src/CanvasDocument.ts], the canvas as the content of a document.
    - [Structured], [StructuredSpec]: [src/StructuredDocument.ts] with what it
      uses of [src/SyncedDoc.ts].  A document is its root, what it knows of its
      file, and its flags; startup, edits of the file and writes are programs.
      What a subclass adds is the class [Platform], with the surroundings.
      [StructuredSpec] proves that every change of the content and of the file
      is justified by what the program read, and that startup is retried until
      it succeeds; its examples run three ways in which an edit is lost.
    - [Provider], [ProviderFacts], [ProviderSim], [ProviderSpec]:
      [src/sync/RealtimeProvider.ts].  The reconnect loop is a program counter;
      [ProviderSim] states what each handler may do as a simulation class, from
      which the trace properties follow.
    - [BootstrapLog], [BootstrapSpec], [BootstrapReplay]:
      [src/bootstrapEvents.ts]; the plan refines the vault it was captured from.
    - [CliSync], [CliSyncSpec]: [packages/cli/src/sync.ts] with [kinds.ts],
      [attachmentFilter.ts] and the types of [config.ts]; [pull], [push], [status].
    - [LocalState], [LocalSpec]: [src/localSyncState.ts], refining a history of
      acknowledgments.
    - [Lineage]: [src/lineage.ts]; [ConfigCategories]:
      [src/configCategories.ts]; [ConflictCopy]: [src/conflictRecovery.ts];
      [Vault]: [src/vaultHelpers.ts] and the copies made through the vault.
    - [Limiter], [BinarySync], [BinarySyncSpec], [BinaryUploads]:
      [src/BinarySync.ts].  [Limiter] is its [TransferLimiter] as a machine;
      the rest are programs against a platform, of which [BinarySyncSpec] proves
      what their effects promise and [BinaryUploads] that no upload is stranded.
    - [VaultIndex], [VaultSync], [VaultDemo], [VaultSteps], [VaultRuns], [VaultDelete]:
      [src/VaultSync.ts] with [src/glob.ts], a client of binary sync, the local
      state, the event log and the trash.  [VaultIndex] has the index of paths,
      the registry of open documents, the queue of connections and every
      operation that does not wait; [VaultSync] the programs that do: remote
      deletes and renames, new and renamed files, the first sync with its
      replay, the trash, suspend and resume.  [VaultDemo] is a platform to run
      them on.  [VaultSteps] says what any operation may do to the state, as a
      step relation with an instance per operation, and [VaultRuns] proves from
      it what holds in every run: no stale path is published, no document is
      lost or opened twice, connections stay within their bound.  [VaultDelete]
      proves that a remote delete loses no version, and ends.
    - [ConfigSync], [ConfigSyncSpec]: [src/ConfigSync.ts], a client of the local
      state, the lineage, the conflict copies and the structured merge.  The
      class [Platform] is what it needs of the disk, the server and the runtime;
      the theorem holds for every instance, also one that fails and interferes
      at every await.
    - [NoteStream]: [packages/sdk/src/stream.ts].

    In each file the definitions carry the names of the source.  Theorems whose
    comment begins with C and a number are the claims; the others serve them.
    A claim with hypotheses is followed by a witness on a concrete run.

    ** Time, awaits, loops

    A method that awaits is cut at each await, into events ([Gate], [Token],
    [Provider], [Mux], [NoteStream]) or into calls of a platform that answers,
    fails and lets others act in between ([CliSync], [ConfigSync], [BinarySync],
    [VaultSync], [Structured]).  Time is a parameter of each step.  Loops are structural except: the burst and the
    chunking of [Mux], which run as often as there is budget or payload;
    [BootstrapLog.drain], one round per pending rename, after which only cycles
    are left; and the search for a free copy name, one round per existing file
    ([conflict_copy_path_free]).  In [ConfigSync] the number of rounds of that
    search, and the depth of the folder walk, is the platform's [fuel], since an
    adapter may claim every name to be taken.  In [BinarySync] it bounds how
    often a chain, a conflict or a drain goes on, since others may always give
    it more to do.  In [VaultSync] it bounds the rounds of a remote delete (each
    one copies a version no round before it saw, so it ends unless the path is
    written without end), and of a delete that is asked for again meanwhile.
    In [Structured] it bounds the rounds of [foldDiskEdit], each of which has
    seen the document change.
    Running out throws, and the claims cover that too.

    ** What is abstracted

    Strings are sequences of characters, and their lengths are counted in the
    unit the source counts where it matters (UTF-16 in [TextDiff], bytes in
    [NoteStream]).  JSON numbers are finite rationals, the member [__proto__] is
    not treated specially, and error and notice texts are shortened where they
    come from libraries.  Event listeners do not call back except in [Mux], where
    they do.  Yjs updates are opaque numbers in [Provider] and a text with
    surrogate pairs in [TextDiff].  Shared maps and arrays of Yjs have one
    parent each, which holds their content; texts with surrogate pairs are left
    out of what canvases show, as [applyStringToYText] may split them.  JSON
    text is what the runtime makes of a value, known to read back.  [CliSync] leaves directories implicit in
    paths.  [ConfigSync] runs one reconciliation at a time: those of other paths
    touch other entries, and a pass that was asked for runs later.  In
    [BinarySync] one program runs at a time too, but the steps the others do
    between their awaits may happen at every await of it; so it is in
    [VaultSync], where a remote delete started without being awaited begins when
    the transaction that started it is done.  In [Structured] the moves are
    what the document's other tasks, its peers and its bindings do, and the
    recordings of what the file holds, which are not awaited, are only noted.
    In [VaultSync] the synced documents answer
    through the platform, by number, and so does a binary entry taken back from
    the trash.  Hashes are a function of the platform.

    ** Not modelled

    The user interface, the editor bindings, the REST and OAuth clients, the
    plugin database and the Rust server, whose answers are arbitrary here.  Of the
    core, what is left of the vault index ([src/VaultSync.ts]: attachments of open
    notes, [waitForItem], the migration of old binary entries), the rest of
    [src/SyncedDoc.ts] (presence, recovery copies of read-only edits,
    hibernation) and the Markdown documents ([src/Document.ts]) would be next:
    they are clients of what is here. *)
From stdpp Require Export base gmap strings list fin_maps sorting.
From Stdlib Require Export ZArith Lia.

#[global] Open Scope Z_scope.

(** ** Record update

    [r <| f := v |>] is the record [r] with field [f] replaced, the way the
    source assigns one field of an object.  A record type joins by giving an
    [Eta] instance, its eta expansion. *)

Class Eta (R : Type) := eta : R → R.
#[global] Hint Mode Eta ! : typeclass_instances.

Class FieldSet {R T : Type} (proj : R → T) := field_set : (T → T) → R → R.
Arguments field_set {R T} proj {_} f r /.

Ltac solve_field_set :=
  match goal with
  | |- @FieldSet ?R ?T ?p =>
    let inst := constr:(ltac:(typeclasses eauto) : Eta R) in
    let body := eval hnf in inst in
    let body := eval pattern p in body in
    match body with
    | ?ctx _ => let upd := constr:(λ f : T → T, ctx (λ r, f (p r))) in
              let upd := eval cbv beta in upd in
              exact upd
    end
  end.

#[global] Hint Extern 1 (FieldSet _) => solve_field_set : typeclass_instances.

Declare Scope js_scope.
Delimit Scope js_scope with js.
#[global] Open Scope js_scope.
Notation "r <| f := v |>" := (field_set f (λ _, v) r)
  (at level 1, f at level 0, left associativity,
   format "r  <| f  :=  v |>") : js_scope.
Notation "r <| f ::= g |>" := (field_set f g r)
  (at level 1, f at level 0, left associativity,
   format "r  <| f  ::=  g |>") : js_scope.

(** ** Calls that may throw

    A JavaScript call returns a value or throws; [e] is what it throws. *)

Inductive throws (E A : Type) : Type :=
  | Returns (a : A)
  | Throws (e : E).
Arguments Returns {E A} a.
Arguments Throws {E A} e.

#[export] Instance throws_ret {E} : MRet (throws E) := λ A, Returns.
#[export] Instance throws_bind {E} : MBind (throws E) := λ A B f x,
  match x with Returns a => f a | Throws e => Throws e end.

(** ** Tactics *)

(** Case analysis on the scrutinee of a [match] or [if], recording the
    equation, repeatedly, and closing the impossible branches. *)
Ltac split_match :=
  match goal with
  | |- context [match ?x with _ => _ end] =>
    match x with
    | context [match _ with _ => _ end] => fail 1
    | _ => destruct x eqn:?
    end
  end; try discriminate; try congruence.

Ltac split_match_in H :=
  match type of H with
  | context [match ?x with _ => _ end] =>
    match x with
    | context [match _ with _ => _ end] => fail 1
    | _ => destruct x eqn:?
    end
  end; try discriminate; try congruence.

Ltac split_matches := repeat split_match.

(** Boolean tests of the source as propositions. *)
Ltac bools :=
  repeat match goal with
  | H : (_ && _)%bool = true |- _ => apply andb_true_iff in H; destruct H
  | H : (_ || _)%bool = false |- _ => apply orb_false_iff in H; destruct H
  | H : negb _ = true |- _ => apply negb_true_iff in H
  | H : negb _ = false |- _ => apply negb_false_iff in H
  | H : bool_decide _ = true |- _ => apply bool_decide_eq_true in H
  | H : bool_decide _ = false |- _ => apply bool_decide_eq_false in H
  | H : (_ <? _) = true |- _ => apply Z.ltb_lt in H
  | H : (_ <? _) = false |- _ => apply Z.ltb_ge in H
  | H : (_ <=? _) = true |- _ => apply Z.leb_le in H
  | H : (_ <=? _) = false |- _ => apply Z.leb_gt in H
  | H : (_ =? _) = true |- _ => apply Z.eqb_eq in H
  | H : (_ =? _) = false |- _ => apply Z.eqb_neq in H
  | H : is_true _ |- _ => unfold is_true in H
  end.

(** ** Folds

    The shape of every loop of the source that mutates state. *)

Lemma foldl_preserves {A B} (P : A → Prop) (f : A → B → A) (l : list B) (a : A) :
  (∀ a b, b ∈ l → P a → P (f a b)) → P a → P (foldl f a l).
Proof.
  revert a. induction l as [|b l IH]; intros a Hf Ha; simpl; [done|].
  apply IH.
  - intros a' b' Hb. apply Hf. by right.
  - apply Hf; [left|done].
Qed.

(** ** Lists *)

Section lists.
Context {A : Type}.
Implicit Types l k : list A.

(** [Array.prototype.length] *)
Definition zlength l : Z := Z.of_nat (length l).

Lemma zlength_nonneg l : 0 ≤ zlength l.
Proof. unfold zlength. lia. Qed.

Lemma zlength_app l k : zlength (l ++ k) = zlength l + zlength k.
Proof. unfold zlength. rewrite length_app. lia. Qed.

Lemma zlength_cons x l : zlength (x :: l) = 1 + zlength l.
Proof. unfold zlength. simpl length. lia. Qed.

Lemma zlength_nil : zlength (@nil A) = 0.
Proof. done. Qed.

(** [xs.slice(start, end)] for [0 <= start <= end] *)
Definition zslice (i j : Z) l : list A := take (Z.to_nat (j - i)) (drop (Z.to_nat i) l).

Lemma zslice_length i j l :
  0 ≤ i → i ≤ j → j ≤ zlength l → zlength (zslice i j l) = j - i.
Proof.
  intros. unfold zslice, zlength in *. rewrite length_take, length_drop. lia.
Qed.

Lemma zslice_full l : zslice 0 (zlength l) l = l.
Proof. unfold zslice, zlength. rewrite drop_0, take_ge; [done|lia]. Qed.

Lemma zslice_split (i j k : Z) l :
  0 ≤ i → i ≤ j → j ≤ k → zslice i k l = zslice i j l ++ zslice j k l.
Proof.
  intros. unfold zslice.
  replace (Z.to_nat (k - i)) with (Z.to_nat (j - i) + Z.to_nat (k - j))%nat by lia.
  rewrite <- take_take_drop. f_equal. rewrite drop_drop. do 2 f_equal. lia.
Qed.
End lists.

Create HintDb zlen.
#[export] Hint Rewrite @zlength_app @zlength_cons @zlength_nil : zlen.

Create HintDb js.
#[export] Hint Resolve zlength_nonneg : js.
