(* ===== verification/JsString.v ===== *)
(** The string methods the source uses, on strings as sequences of characters,
    with the lemmas that paths need. *)
From Stdlib Require Import String Ascii.
From S2P Require Import Prelude.
#[local] Open Scope Z_scope.

(** [s.split(sep)] for one character *)
Fixpoint split (sep : Ascii.ascii) (s : string) : list string :=
  match s with
  | EmptyString => [EmptyString]
  | String c s =>
    if decide (c = sep) then EmptyString :: split sep s
    else match split sep s with
         | [] => [String c EmptyString]
         | seg :: segs => String c seg :: segs
         end
  end.

(** [s.trim()] *)
Definition isSpace (c : Ascii.ascii) : bool :=
  let n := Ascii.N_of_ascii c in (n =? 32)%N || ((9 <=? n)%N && (n <=? 13)%N) || (n =? 160)%N.

Fixpoint trimStart (s : string) : string :=
  match s with String c s' => if isSpace c then trimStart s' else s | EmptyString => EmptyString end.

Definition trim (s : string) : string := String.rev (trimStart (String.rev (trimStart s))).

Definition startsWith (start s : string) : bool := String.prefix start s.

Definition endsWith (suffix s : string) : bool :=
  bool_decide (String.length suffix ≤ String.length s)%nat &&
  String.eqb (substring (String.length s - String.length suffix) (String.length suffix) s) suffix.

(** [s.includes(c)] for one character *)
Fixpoint includes (c : Ascii.ascii) (s : string) : bool :=
  match s with
  | EmptyString => false
  | String d s => bool_decide (c = d) || includes c s
  end.

(** [s.slice(0, n)] and [s.slice(n)] for [0 <= n] *)
Fixpoint sliceTo (n : nat) (s : string) : string :=
  match n, s with
  | S n, String c s => String c (sliceTo n s)
  | _, _ => EmptyString
  end.

Fixpoint sliceFrom (n : nat) (s : string) : string :=
  match n, s with
  | S n, String _ s => sliceFrom n s
  | _, _ => s
  end.

(** [s.lastIndexOf(c)] for one character, [None] for -1 *)
Fixpoint lastIndexOf (c : Ascii.ascii) (s : string) : option nat :=
  match s with
  | EmptyString => None
  | String d s =>
    match lastIndexOf c s with
    | Some n => Some (S n)
    | None => if bool_decide (c = d) then Some O else None
    end
  end.

(** ** Lemmas *)

#[local] Open Scope string_scope.

Lemma append_cons c s t : String c s +:+ t = String c (s +:+ t).
Proof. done. Qed.

Lemma append_nil_l s : "" +:+ s = s.
Proof. done. Qed.

Ltac string_simpl := simpl; rewrite ?append_cons, ?append_nil_l in *; simpl.

Lemma append_nil_r s : s +:+ "" = s.
Proof. induction s as [|c s IH]; string_simpl; [done|by rewrite IH]. Qed.

Lemma append_assoc s1 s2 s3 : (s1 +:+ s2) +:+ s3 = s1 +:+ (s2 +:+ s3).
Proof. induction s1 as [|c s1 IH]; string_simpl; [done|by rewrite IH]. Qed.

Lemma length_append s1 s2 : String.length (s1 +:+ s2) = (String.length s1 + String.length s2)%nat.
Proof. induction s1 as [|c s1 IH]; string_simpl; [done|]. by rewrite IH. Qed.

Lemma slice_split n s : sliceTo n s +:+ sliceFrom n s = s.
Proof. revert s. induction n as [|n IH]; intros [|c s]; string_simpl; [done..|]. by rewrite IH. Qed.

Lemma sliceTo_append s t : sliceTo (String.length s) (s +:+ t) = s.
Proof. induction s as [|c s IH]; string_simpl; [done|by rewrite IH]. Qed.

Lemma sliceFrom_append s t : sliceFrom (String.length s) (s +:+ t) = t.
Proof. induction s as [|c s IH]; string_simpl; done. Qed.

Lemma startsWith_append s t : startsWith s (s +:+ t) = true.
Proof.
  unfold startsWith. induction s as [|c s IH]; string_simpl; [by destruct t|].
  destruct (Ascii.ascii_dec c c); done.
Qed.

Lemma startsWith_inv s t : startsWith s t = true → ∃ r, t = s +:+ r.
Proof.
  unfold startsWith. revert t. induction s as [|c s IH]; intros [|d t]; string_simpl; try done; try (intros; by eexists).
  destruct (Ascii.ascii_dec c d) as [->|]; [|done]. intros [r ->]%IH. by exists r.
Qed.

Lemma includes_append c s t : includes c (s +:+ t) = includes c s || includes c t.
Proof. induction s as [|d s IH]; string_simpl; [done|]. by rewrite IH, orb_assoc. Qed.

Lemma lastIndexOf_None c s : lastIndexOf c s = None ↔ includes c s = false.
Proof.
  induction s as [|d s IH]; string_simpl; [done|].
  destruct (lastIndexOf c s), (includes c s), (bool_decide (c = d)); string_simpl; naive_solver.
Qed.

(** The last occurrence in a concatenation is in its second part, or, when
    there is none, in the first. *)
Lemma lastIndexOf_append c s t :
  lastIndexOf c (s +:+ t) =
    match lastIndexOf c t with
    | Some n => Some (String.length s + n)%nat
    | None => lastIndexOf c s
    end.
Proof.
  induction s as [|d s IH]; string_simpl; [by destruct (lastIndexOf c t)|].
  rewrite IH. by destruct (lastIndexOf c t).
Qed.

Lemma lastIndexOf_split c s n :
  lastIndexOf c s = Some n →
  ∃ r, sliceFrom n s = String c r ∧ includes c r = false ∧ String.length (sliceTo n s) = n.
Proof.
  revert n. induction s as [|d s IH]; intros n; string_simpl; [done|].
  destruct (lastIndexOf c s) as [m|] eqn:E.
  - intros [= <-]. destruct (IH m eq_refl) as (r & H1 & H2 & H3). exists r. simpl. by rewrite H3.
  - apply lastIndexOf_None in E. case_bool_decide as D; [|done]. intros [= <-]. subst. exists s. done.
Qed.

(** The segments of a path *)
Lemma split_app sep s t :
  split sep (s +:+ String sep t) = (split sep s ++ split sep t)%list.
Proof.
  induction s as [|c s IH]; string_simpl; [by rewrite decide_True|].
  rewrite IH. case_decide; [done|]. destruct (split sep s) as [|x l] eqn:E; [|done].
  destruct s; simpl in E; [done|]. case_decide; [done|]. by destruct (split sep s).
Qed.
