(* ===== verification/Effects.v ===== *)
(** Programs that read and change a state, and may throw: a throw keeps the
    state.  [wp E m Q s] reads: [m] run in [s] returns with [Q], or throws in a
    state with [E]. *)
From S2P Require Import Prelude.

Section eff.
Context {S Err : Type}.

Definition eff (A : Type) : Type := S → S * throws Err A.
#[export] Instance eff_ret : MRet eff := λ A a s, (s, Returns a).
#[export] Instance eff_bind : MBind eff := λ A B f m s,
  match m s with (s, Returns a) => f a s | (s, Throws e) => (s, Throws e) end.

Definition get {A} (f : S → A) : eff A := λ s, (s, Returns (f s)).
Definition update (f : S → S) : eff () := λ s, (f s, Returns ()).
Definition throw {A} (e : Err) : eff A := λ s, (s, Throws e).

(** [try { m } catch (e) { handler }] *)
Definition catch {A} (m : eff A) (handler : Err → eff A) : eff A := λ s,
  match m s with (s, Returns a) => (s, Returns a) | (s, Throws e) => handler e s end.

Definition attempt {A} (m : eff A) : eff (throws Err A) := λ s,
  let '(s, r) := m s in (s, Returns r).

(** [try { m } finally { f }], for an [f] that neither returns nor throws *)
Definition finally {A} (m : eff A) (f : S → S) : eff A := λ s,
  let '(s, r) := m s in (f s, r).

Fixpoint forEach {A} (f : A → eff ()) (l : list A) : eff () :=
  match l with [] => mret () | x :: l => f x ≫= λ _, forEach f l end.

(** ** Weakest preconditions *)

Definition wp {A} (E : S → Prop) (m : eff A) (Q : A → S → Prop) (s : S) : Prop :=
  match m s with (s', Returns a) => Q a s' | (s', Throws _) => E s' end.

Lemma wp_ret {A} E (a : A) Q s : Q a s → wp E (mret a) Q s.
Proof. done. Qed.

Lemma wp_bind {A B} E (m : eff A) (f : A → eff B) Q s : wp E m (λ a, wp E (f a) Q) s → wp E (m ≫= f) Q s.
Proof. unfold wp, mbind, eff_bind. destruct (m s) as [s' [a|e]]; auto. Qed.

Lemma wp_get {A} E (f : S → A) Q s : Q (f s) s → wp E (get f) Q s.
Proof. done. Qed.

Lemma wp_update E f Q s : Q () (f s) → wp E (update f) Q s.
Proof. done. Qed.

Lemma wp_throw {A} (E : S → Prop) e (Q : A → S → Prop) s : E s → wp E (throw e) Q s.
Proof. done. Qed.

Lemma wp_catch {A} E (m : eff A) h Q s :
  wp (λ s', ∀ e, wp E (h e) Q s') m Q s → wp E (catch m h) Q s.
Proof. unfold wp, catch. destruct (m s) as [s' [a|e]]; auto. intros H. apply H. Qed.

Lemma wp_attempt {A} E (m : eff A) Q s :
  wp (λ s', ∀ e, Q (Throws e) s') m (λ a, Q (Returns a)) s → wp E (attempt m) Q s.
Proof. unfold wp, attempt. destruct (m s) as [s' [a|e]]; auto. Qed.

Lemma wp_finally {A} (E : S → Prop) (m : eff A) f Q s :
  wp (λ s', E (f s')) m (λ a s', Q a (f s')) s → wp E (finally m f) Q s.
Proof. unfold wp, finally. destruct (m s) as [s' [a|e]]; auto. Qed.

Lemma wp_mono {A} E (m : eff A) (Q Q' : A → S → Prop) s :
  (∀ a s', Q a s' → Q' a s') → wp E m Q s → wp E m Q' s.
Proof. unfold wp. destruct (m s) as [s' [a|e]]; auto. Qed.

(** A loop keeps an invariant on the elements it is done with. *)
Lemma wp_forEach {A} (E : S → Prop) (I : list A → S → Prop) (f : A → eff ()) (l : list A) (s : S) :
  (∀ l1 x l2 s, l = l1 ++ x :: l2 → I l1 s → wp E (f x) (λ _, I (l1 ++ [x])) s) →
  I [] s → wp E (forEach f l) (λ _, I l) s.
Proof.
  intros Hf. assert (∀ l2 l1 s, l = l1 ++ l2 → I l1 s → wp E (forEach f l2) (λ _, I l) s) as H; [|by apply (H l [])].
  induction l2 as [|x l2 IH]; intros l1 s' Hl HI; simpl; [by rewrite app_nil_r in Hl; subst|].
  apply wp_bind. eapply wp_mono; [|by apply (Hf l1 x l2 s')].
  intros [] s'' HI'. apply (IH (l1 ++ [x])); [|done]. by rewrite <- (assoc_L (++)).
Qed.
End eff.
Arguments eff : clear implicits.
