(* ===== verification/TraceLogic.v ===== *)
(** Reasoning about programs that leave a trail of effects, each of which has
    to be warranted by what came before it.

    A client says what the effects of a state are, which need no warrant,
    what programs that only cause such effects leave alone, and what warrants
    the others.  [quietly m R] then says that [m] is such a program and what
    it lets one know, [safe m] that all effects of [m] are warranted. *)
From S2P Require Import Prelude Effects.

(** What the effects of a state are, which need no warrant, and what programs
    that only cause such effects leave alone *)
Class Traced (S Effect : Type) := {
  trail : S → list Effect;
  harmless : Effect → Prop;
  frame : S → S → Prop;
  frame_preorder :: PreOrder frame }.

(** The effects from the [mark]-th on are to be [warranted] by the ones
    between the mark and them. *)
Class Judged {S Effect} (T : Traced S Effect) := {
  mark : nat;
  warranted : list Effect → Effect → Prop;
  harmless_warranted pre e : harmless e → warranted pre e }.

Section logic.
Context {S Err Effect : Type} {T : Traced S Effect} {J : Judged T}.
Implicit Types (s : S) (e : Effect) (pre : list Effect).
Notation M := (eff S Err).

Definition trace s : list Effect := drop mark (trail s).

Definition all_warranted (l : list Effect) : Prop :=
  ∀ pre e post, l = pre ++ e :: post → warranted pre e.

Definition ok s : Prop := (mark ≤ length (trail s))%nat ∧ all_warranted (trace s).

Lemma all_warranted_snoc l e : all_warranted l → warranted l e → all_warranted (l ++ [e]).
Proof.
  intros Hl He pre e' post Ht. destruct post as [|p post _] using rev_ind; [by simplify_list_eq|].
  rewrite app_comm_cons, (assoc_L (++)) in Ht. apply app_inj_tail in Ht as [Ht _]. by eapply Hl.
Qed.

Lemma all_warranted_app l k : all_warranted l → Forall harmless k → all_warranted (l ++ k).
Proof.
  intros Hl. induction k as [|e k IH] using rev_ind; intros Hk; [by rewrite app_nil_r|].
  apply Forall_app in Hk as [Hk He]. rewrite (assoc_L (++)). apply all_warranted_snoc; [auto|].
  apply harmless_warranted. by inversion He.
Qed.

(** Steps that cause nothing that needs a warrant *)
Definition quiet s s' : Prop :=
  frame s s' ∧ ∃ l, trail s' = trail s ++ l ∧ Forall harmless l.

Lemma quiet_refl s : quiet s s.
Proof. split; [reflexivity|]. exists []. by rewrite app_nil_r. Qed.

Lemma quiet_trans s1 s2 s3 : quiet s1 s2 → quiet s2 s3 → quiet s1 s3.
Proof.
  intros (F1 & l1 & E1 & H1) (F2 & l2 & E2 & H2). split; [by transitivity s2|].
  exists (l1 ++ l2). rewrite E2, E1, <- (assoc_L (++)). by rewrite Forall_app.
Qed.

Lemma quiet_same s s' : frame s s' → trail s' = trail s → quiet s s'.
Proof. intros F E. split; [done|]. exists []. by rewrite app_nil_r. Qed.

Lemma quiet_snoc s s' e : frame s s' → trail s' = trail s ++ [e] → harmless e → quiet s s'.
Proof. intros F E H. split; [done|]. exists [e]. split; [done|]. by repeat constructor. Qed.

Lemma trace_app s s' l : (mark ≤ length (trail s))%nat → trail s' = trail s ++ l →
  trace s' = trace s ++ l.
Proof.
  intros H E. unfold trace. rewrite E, drop_app.
  by replace (mark - length (trail s))%nat with O by lia.
Qed.

(** Appending one warranted effect *)
Lemma ok_snoc s s' e : ok s → trail s' = trail s ++ [e] → warranted (trace s) e → ok s'.
Proof.
  intros [Hn Hs] E He. split; [rewrite E, length_app; lia|].
  rewrite (trace_app s s' [e]) by done. by apply all_warranted_snoc.
Qed.

Lemma ok_same s s' : ok s → trail s' = trail s → ok s'.
Proof. unfold ok, trace. by intros H ->. Qed.

Lemma ok_quiet s s' : ok s → quiet s s' → ok s'.
Proof.
  intros [Hn Hs] (_ & l & E & Hl). split; [rewrite E, length_app; lia|].
  rewrite (trace_app s s' l) by done. by apply all_warranted_app.
Qed.

Definition known e s : Prop := e ∈ trace s.

Lemma known_app e s s' l : ok s → trail s' = trail s ++ l → known e s → known e s'.
Proof. intros [Hn _] E H. unfold known. rewrite (trace_app s s' l) by done. apply elem_of_app. by left. Qed.

Lemma known_quiet e s s' : ok s → quiet s s' → known e s → known e s'.
Proof. intros Hs (_ & l & E & _). by apply (known_app e s s' l). Qed.

Lemma known_new e s s' : ok s → trail s' = trail s ++ [e] → known e s'.
Proof.
  intros [Hn _] E. unfold known. rewrite (trace_app s s' [e]) by done. apply elem_of_app. right. by left.
Qed.

(** [e1] comes before an occurrence of [e2]. *)
Definition before e1 e2 (l : list Effect) : Prop := ∃ l1 l2, l = l1 ++ e2 :: l2 ∧ e1 ∈ l1.

Lemma before_quiet e1 e2 s s' : ok s → quiet s s' → before e1 e2 (trace s) → before e1 e2 (trace s').
Proof.
  intros [Hn _] (_ & l & E & _) (l1 & l2 & E1 & H1). exists l1, (l2 ++ l).
  rewrite (trace_app s s' l), E1, <- (assoc_L (++)) by done. by split.
Qed.

Lemma before_new e1 e2 s s' : ok s → trail s' = trail s ++ [e2] → known e1 s → before e1 e2 (trace s').
Proof. intros [Hn _] E H. exists (trace s), []. by rewrite (trace_app s s' [e2]). Qed.

Lemma before_known e1 e2 s : before e1 e2 (trace s) → known e1 s ∧ known e2 s.
Proof. intros (l1 & l2 & E & H). unfold known. rewrite E. set_solver. Qed.

(** ** Programs that cause nothing that needs a warrant *)

Definition quietly {A} (m : M A) (R : A → S → Prop) s : Prop :=
  wp (quiet s) m (λ a s', quiet s s' ∧ R a s') s.

Lemma wp_quietly {A} (m : M A) R (E : S → Prop) (Q : A → S → Prop) s :
  quietly m R s → (∀ s', quiet s s' → E s') → (∀ a s', quiet s s' → R a s' → Q a s') → wp E m Q s.
Proof.
  unfold quietly, wp. destruct (m s) as [s' [a|err]]; intros H HE HQ; [|by apply HE].
  destruct H. by apply HQ.
Qed.

Lemma quietly_bind {A B} (m : M A) (f : A → M B) R R' s :
  quietly m R s → (∀ a s', quiet s s' → R a s' → quietly (f a) R' s') → quietly (m ≫= f) R' s.
Proof.
  intros Hm Hf. apply wp_bind. apply (wp_quietly _ _ _ _ _ Hm); [done|].
  intros a s' Hq HR. apply (wp_quietly _ _ _ _ _ (Hf a s' Hq HR)).
  - intros s'' Hq'. by eapply quiet_trans.
  - intros b s'' Hq' HR'. split; [by eapply quiet_trans|done].
Qed.

Lemma quietly_mono {A} (m : M A) (R R' : A → S → Prop) s :
  quietly m R s → (∀ a s', quiet s s' → R a s' → R' a s') → quietly m R' s.
Proof. intros Hm H. apply (wp_quietly _ _ _ _ _ Hm); [done|]. auto. Qed.

Lemma quietly_ret {A} (a : A) (R : A → S → Prop) s : R a s → quietly (mret a) R s.
Proof. split; [by apply quiet_refl|done]. Qed.

Lemma quietly_get {A} (f : S → A) (R : A → S → Prop) s : R (f s) s → quietly (get f) R s.
Proof. split; [by apply quiet_refl|done]. Qed.

(** A program that looks at the state first *)
Lemma quietly_look {A B} (f : S → A) (g : A → M B) R s : quietly (g (f s)) R s → quietly (get f ≫= g) R s.
Proof. done. Qed.

Lemma quietly_update f (R : () → S → Prop) s : quiet s (f s) → R () (f s) → quietly (update f) R s.
Proof. by split. Qed.

Lemma quietly_throw {A} err (R : A → S → Prop) s : quietly (throw err) R s.
Proof. by apply quiet_refl. Qed.

Lemma quietly_catch {A} (m : M A) h (R : A → S → Prop) s :
  quietly m R s → (∀ err s', quiet s s' → quietly (h err) R s') → quietly (catch m h) R s.
Proof.
  intros Hm Hh. apply wp_catch. apply (wp_quietly _ _ _ _ _ Hm); [|done].
  intros s' Hq err. apply (wp_quietly _ _ _ _ _ (Hh err s' Hq)).
  - intros s'' Hq'. by eapply quiet_trans.
  - intros b s'' Hq' HR'. split; [by eapply quiet_trans|done].
Qed.

Lemma quietly_attempt {A} (m : M A) R s :
  quietly m R s → quietly (attempt m) (λ r s', match r with Returns a => R a s' | Throws _ => True end) s.
Proof. intros Hm. apply wp_attempt. apply (wp_quietly _ _ _ _ _ Hm); by split. Qed.

Lemma quietly_finally {A} (m : M A) f (R : A → S → Prop) s :
  quietly m (λ a s', R a (f s')) s → (∀ s', quiet s' (f s')) → quietly (finally m f) R s.
Proof.
  intros Hm Hf. apply wp_finally. apply (wp_quietly _ _ _ _ _ Hm).
  - intros s' Hq. by eapply quiet_trans.
  - intros a s' Hq HR. split; [by eapply quiet_trans|done].
Qed.

(** ** Programs whose effects are all warranted *)

Definition safe {A} (m : M A) s : Prop := wp ok m (λ _, ok) s.

Lemma safe_ret {A} (a : A) s : ok s → safe (mret a) s.
Proof. done. Qed.

Lemma safe_get {A} (f : S → A) s : ok s → safe (get f) s.
Proof. done. Qed.

Lemma safe_throw {A} err s : ok s → safe (@throw S Err A err) s.
Proof. done. Qed.

Lemma safe_bind {A B} (m : M A) (f : A → M B) s :
  safe m s → (∀ a s', ok s' → safe (f a) s') → safe (m ≫= f) s.
Proof. intros Hm Hf. apply wp_bind. eapply wp_mono; [|exact Hm]. auto. Qed.

Lemma safe_quiet {A B} (m : M A) (f : A → M B) R s :
  ok s → quietly m R s → (∀ a s', ok s' → quiet s s' → R a s' → safe (f a) s') → safe (m ≫= f) s.
Proof.
  intros Hs Hm Hf. apply wp_bind. apply (wp_quietly _ _ _ _ _ Hm).
  - intros. by eapply ok_quiet.
  - intros a s' Hq HR. apply Hf; [by eapply ok_quiet|done..].
Qed.

Lemma safe_quietly {A} (m : M A) R s : ok s → quietly m R s → safe m s.
Proof.
  intros Hs Hm. apply (wp_quietly _ _ _ _ _ Hm); intros; by eapply ok_quiet.
Qed.

Lemma safe_look {A B} (f : S → A) (g : A → M B) s : safe (g (f s)) s → safe (get f ≫= g) s.
Proof. done. Qed.

Lemma safe_update f s : ok (f s) → safe (update f) s.
Proof. done. Qed.

Lemma safe_update_quiet f s : ok s → quiet s (f s) → safe (update f) s.
Proof. intros. apply safe_update. by eapply ok_quiet. Qed.

(** [void again; return stop;] *)
Lemma safe_stop {A} f (stop : A) s : ok s → quiet s (f s) → safe (update f ≫= λ _, mret stop) s.
Proof. intros. apply safe_bind; [by apply safe_update_quiet|]. intros. by apply safe_ret. Qed.

Lemma safe_catch {A} (m : M A) h s : safe m s → (∀ err s', ok s' → safe (h err) s') → safe (catch m h) s.
Proof.
  unfold safe. intros Hm Hh. apply wp_catch. unfold wp in *. destruct (m s) as [s' [a|err]]; [done|].
  intros e. by apply Hh.
Qed.

Lemma safe_attempt {A} (m : M A) s : safe m s → safe (attempt m) s.
Proof. unfold safe, wp, attempt. by destruct (m s) as [s' [a|err]]. Qed.

Lemma safe_finally {A} (m : M A) f s : safe m s → (∀ s', quiet s' (f s')) → safe (finally m f) s.
Proof.
  unfold safe, wp, finally. intros Hm Hf. destruct (m s) as [s' [a|err]]; by eapply ok_quiet.
Qed.
End logic.
