(* ===== verification/Await.v ===== *)
(** Programs of one JavaScript task among others.  While such a program
    waits, the world goes on: every call tells what happened meanwhile, as a
    list of moves of other tasks, of timers and of other machines, and these
    act on the state before the program sees the answer. *)
From S2P Require Import Prelude Effects TraceLogic.

(** An awaited call: the world after it, what happened meanwhile, the answer *)
Definition Call (W Move Err A : Type) : Type := W → W * list Move * throws Err A.

(** [settle] answers an [await] that asks the world nothing. *)
Class Host (S W Move : Type) := {
  worldOf : S → W;
  setWorld : W → S → S;
  settling : W → W * list Move;
  onMove : Move → S → S }.

Section await.
Context {S W Move Err : Type} `{H : Host S W Move}.
Notation M := (eff S Err).

Definition moves (l : list Move) (s : S) : S := foldl (λ s m, onMove m s) s l.

Definition call {A} (f : Call W Move Err A) : M A := λ s,
  let '(w, ms, r) := f (worldOf s) in (moves ms (setWorld w s), r).

Definition pause : M () := λ s,
  let '(w, ms) := settling (worldOf s) in (moves ms (setWorld w s), Returns ()).

(** [await] of a method of this object: one more turn before it goes on *)
Definition await {A} (m : M A) : M A := λ s,
  let '(s, r) := m s in (fst (pause s), r).

(** ** What holds whatever happens meanwhile *)

(** An invariant of the moves *)
Class Stable (I : S → Prop) : Prop := {
  stable_world w s : I s → I (setWorld w s);
  stable_move m s : I s → I (onMove m s) }.

Lemma stable_moves I ms s : Stable I → I s → I (moves ms s).
Proof. intros HI. apply foldl_preserves. intros s' m _. apply stable_move. Qed.

Lemma stable_pause I s : Stable I → I s → I (fst (pause s)).
Proof.
  intros HI Hs. unfold pause. destruct (settling (worldOf s)) as [w ms].
  by apply stable_moves, stable_world.
Qed.

Lemma stable_pausing I : Stable I → ∀ s, I s → wp I pause (λ _, I) s.
Proof.
  intros HI s Hs. pose proof (stable_pause I s HI Hs) as H'. unfold wp. unfold pause in *.
  by destruct (settling (worldOf s)).
Qed.

Lemma stable_call {A} I (f : Call W Move Err A) s : Stable I → I s → wp I (call f) (λ _, I) s.
Proof.
  intros HI Hs. unfold wp, call. destruct (f (worldOf s)) as [[w ms] [a|e]]; by apply stable_moves, stable_world.
Qed.

Lemma stable_await I {A} (m : M A) s : Stable I → wp I m (λ _, I) s → wp I (await m) (λ _, I) s.
Proof. unfold wp, await. intros HI. destruct (m s) as [s' [a|e]]; by apply stable_pause. Qed.

(** [m] keeps [I], whether it returns or throws, and has it at every turn. *)
Definition keeps (I : S → Prop) {A} (m : M A) : Prop := ∀ s, I s → wp I m (λ _, I) s.

Lemma keeps_ret I {A} (a : A) : keeps I (mret a).
Proof. by intros s. Qed.

Lemma keeps_get I {A} (f : S → A) : keeps I (get f).
Proof. by intros s. Qed.

Lemma keeps_throw I {A} (e : Err) : keeps I (throw e : M A).
Proof. by intros s. Qed.

Lemma keeps_update I f : (∀ s, I s → I (f s)) → keeps I (update f).
Proof. intros Hf s. apply Hf. Qed.

Lemma keeps_bind I {A B} (m : M A) (f : A → M B) : keeps I m → (∀ a, keeps I (f a)) → keeps I (m ≫= f).
Proof. intros Hm Hf s Hs. apply wp_bind. eapply wp_mono; [|by apply Hm]. intros a s' Hs'. by apply Hf. Qed.

Lemma keeps_catch I {A} (m : M A) h : keeps I m → (∀ e, keeps I (h e)) → keeps I (catch m h).
Proof.
  intros Hm Hh s Hs. apply wp_catch. specialize (Hm s Hs). unfold wp in *. destruct (m s) as [s' [a|e]]; [done|].
  intros e'. by apply Hh.
Qed.

Lemma keeps_attempt I {A} (m : M A) : keeps I m → keeps I (attempt m).
Proof. intros Hm s Hs. specialize (Hm s Hs). unfold wp, attempt in *. by destruct (m s) as [s' [a|e]]. Qed.

Lemma keeps_finally I J {A} (m : M A) f :
  keeps I m → (∀ s, I s → J (f s)) → ∀ s, I s → wp J (finally m f) (λ _, J) s.
Proof.
  intros Hm Hf s Hs. specialize (Hm s Hs). unfold wp, finally in *. destruct (m s) as [s' [a|e]]; by apply Hf.
Qed.

Lemma keeps_call I {A} (f : Call W Move Err A) : Stable I → keeps I (call f).
Proof. intros HI s. by apply stable_call. Qed.

Lemma keeps_pause I : Stable I → keeps I pause.
Proof. intros HI s. by apply stable_pausing. Qed.

Lemma keeps_await I {A} (m : M A) : Stable I → keeps I m → keeps I (await m).
Proof. intros HI Hm s Hs. apply stable_await; [done|by apply Hm]. Qed.

Lemma keeps_forEach I {A} (f : A → M ()) l : (∀ a, keeps I (f a)) → keeps I (forEach f l).
Proof. intros Hf. induction l as [|a l IH]; [apply keeps_ret|]. by apply keeps_bind. Qed.
End await.

(** Goes through a program that only looks, asks and waits. *)
Create HintDb waits.
Ltac waits_step :=
  match goal with
  | |- keeps _ (_ ≫= _) => apply keeps_bind; [|intros ?]
  | |- keeps _ (mret _) => apply keeps_ret
  | |- keeps _ (get _) => apply keeps_get
  | |- keeps _ (throw _) => apply keeps_throw
  | |- keeps _ (call _) => apply keeps_call, _
  | |- keeps _ pause => apply keeps_pause, _
  | |- keeps _ (await _) => apply keeps_await; [apply _|]
  | |- keeps _ (catch _ _) => apply keeps_catch; [|intros ?]
  | |- keeps _ (attempt _) => apply keeps_attempt
  | H : context [keeps _ _] |- keeps _ _ => apply H
  | |- keeps _ (match ?x with _ => _ end) => destruct x
  | |- keeps _ _ => solve [auto with waits nocore]
  end.
Ltac waiting := repeat waits_step.

(** ** Moves that cause nothing that needs a warrant *)

Class QuietHost {S W Move Effect} (H : Host S W Move) (T : Traced S Effect) : Prop := {
  quiet_world w s : quiet s (setWorld w s);
  quiet_move m s : quiet s (onMove m s) }.

Section quiet.
Context {S W Move Effect Err : Type} {H : Host S W Move} {T : Traced S Effect} `{!QuietHost H T}.
Context {J : Judged T}.
Notation M := (eff S Err).

#[local] Instance stable_quiet s : Stable (quiet s).
Proof.
  split; intros; (eapply quiet_trans; [done|]); [apply quiet_world|apply quiet_move].
Qed.

Lemma quiet_pause s : quiet s (fst (pause (Err := Err) s)).
Proof. apply stable_pause; [apply _|apply quiet_refl]. Qed.

Lemma quietly_pause s : quietly (Err := Err) pause (λ _ _, True) s.
Proof.
  unfold quietly. eapply wp_mono; [|apply (stable_pausing (quiet s) _ s (quiet_refl s))]. by split.
Qed.

Lemma quietly_call {A} (f : Call W Move Err A) s : quietly (call f) (λ _ _, True) s.
Proof.
  unfold quietly. eapply wp_mono; [|apply (stable_call (quiet s) f s _ (quiet_refl s))]. by split.
Qed.

Lemma wp_await_quiet {A} E (m : M A) Q s :
  wp (λ s', ∀ s'', quiet s' s'' → E s'') m (λ a s', ∀ s'', quiet s' s'' → Q a s'') s → wp E (await m) Q s.
Proof. unfold wp, await. destruct (m s) as [s' [a|e]]; intros H'; apply H', quiet_pause. Qed.

Lemma quietly_await {A} (m : M A) (R : A → S → Prop) s :
  quietly m R s → (∀ a s' s'', R a s' → quiet s' s'' → R a s'') → quietly (await m) R s.
Proof.
  intros Hm HR. apply wp_await_quiet. apply (wp_quietly _ _ _ _ _ Hm).
  - intros s' Hq s'' Hq'. by eapply quiet_trans.
  - intros a s' Hq HRa s'' Hq'. split; [by eapply quiet_trans|by eapply HR].
Qed.

Lemma safe_await {A} (m : M A) s : safe m s → safe (await m) s.
Proof.
  intros Hm. apply wp_await_quiet. unfold safe, wp in *.
  destruct (m s) as [s' [a|err]]; intros; by eapply ok_quiet.
Qed.

Lemma safe_call {A} (f : Call W Move Err A) s : ok s → safe (call f) s.
Proof. intros Hs. eapply safe_quietly; [done|apply quietly_call]. Qed.

Lemma safe_pause s : ok s → safe (Err := Err) pause s.
Proof. intros Hs. eapply safe_quietly; [done|apply quietly_pause]. Qed.
End quiet.
