(* ===== verification/JsMap.v ===== *)
(** JavaScript's [Map] and [Set]: finite maps that iterate in insertion order.
    [set] on a present key keeps its place, [delete] drops it, and a key set
    again after that goes to the end. *)
From S2P Require Import Prelude.

Definition jsmap (K V : Type) : Type := list (K * V).

Section ops.
Context {K V : Type} `{EqDecision K}.
Implicit Types (m : jsmap K V) (k : K) (v : V).

Fixpoint jm_get k m : option V :=
  match m with
  | [] => None
  | (k', v') :: m' => if decide (k = k') then Some v' else jm_get k m'
  end.

Definition jm_has k m : bool := bool_decide (is_Some (jm_get k m)).

Fixpoint jm_set k v m : jsmap K V :=
  match m with
  | [] => [(k, v)]
  | (k', v') :: m' => if decide (k = k') then (k', v) :: m' else (k', v') :: jm_set k v m'
  end.

Fixpoint jm_delete k m : jsmap K V :=
  match m with
  | [] => []
  | (k', v') :: m' => if decide (k = k') then jm_delete k m' else (k', v') :: jm_delete k m'
  end.

Definition jm_keys m : list K := map fst m.
Definition jm_values m : list V := map snd m.
Definition jm_size m : Z := zlength m.

Definition jm_wf m : Prop := NoDup (jm_keys m).

Lemma jm_get_set k k' v m :
  jm_get k' (jm_set k v m) = if decide (k' = k) then Some v else jm_get k' m.
Proof.
  induction m as [|[k1 v1] m IH]; simpl.
  - by repeat case_decide.
  - repeat (case_decide; simpl); subst; try done.
Qed.

Lemma jm_get_set_eq k v m : jm_get k (jm_set k v m) = Some v.
Proof. rewrite jm_get_set. by case_decide. Qed.

Lemma jm_get_set_ne k k' v m : k' ≠ k → jm_get k' (jm_set k v m) = jm_get k' m.
Proof. intros. rewrite jm_get_set. by case_decide. Qed.

Lemma jm_get_delete k k' m :
  jm_get k' (jm_delete k m) = if decide (k' = k) then None else jm_get k' m.
Proof.
  induction m as [|[k1 v1] m IH]; simpl.
  - by case_decide.
  - repeat (case_decide; simpl); subst; try done.
Qed.

Lemma jm_get_delete_eq k m : jm_get k (jm_delete k m) = None.
Proof. rewrite jm_get_delete. by case_decide. Qed.

Lemma jm_get_delete_ne k k' m : k' ≠ k → jm_get k' (jm_delete k m) = jm_get k' m.
Proof. intros. rewrite jm_get_delete. by case_decide. Qed.

Lemma jm_keys_get k m : k ∈ jm_keys m ↔ is_Some (jm_get k m).
Proof.
  induction m as [|[k1 v1] m IH]; simpl.
  - split; [by intros ?%elem_of_nil|by intros [??]].
  - rewrite elem_of_cons, IH. case_decide; subst; naive_solver.
Qed.

Lemma jm_has_get k m : jm_has k m = true ↔ is_Some (jm_get k m).
Proof. apply bool_decide_eq_true. Qed.

Lemma jm_get_none k m : jm_has k m = false ↔ jm_get k m = None.
Proof. unfold jm_has. rewrite bool_decide_eq_false. by rewrite eq_None_not_Some. Qed.

Lemma jm_keys_set_in k k' v m : k' ∈ jm_keys (jm_set k v m) ↔ k' = k ∨ k' ∈ jm_keys m.
Proof.
  rewrite !jm_keys_get, jm_get_set. case_decide; subst; naive_solver.
Qed.

Lemma jm_keys_delete_in k k' m : k' ∈ jm_keys (jm_delete k m) ↔ k' ≠ k ∧ k' ∈ jm_keys m.
Proof.
  rewrite !jm_keys_get, jm_get_delete. case_decide; subst; [|naive_solver].
  split; [by intros [??]|naive_solver].
Qed.

Lemma jm_wf_nil : jm_wf [].
Proof. constructor. Qed.

Lemma jm_wf_set k v m : jm_wf m → jm_wf (jm_set k v m).
Proof.
  unfold jm_wf. induction m as [|[k1 v1] m IH]; simpl.
  - intros _. constructor; [apply not_elem_of_nil|constructor].
  - intros [Hk Hm]%NoDup_cons. case_decide; simpl; constructor; try done; [|auto].
    rewrite jm_keys_set_in. naive_solver.
Qed.

Lemma jm_wf_delete k m : jm_wf m → jm_wf (jm_delete k m).
Proof.
  unfold jm_wf. induction m as [|[k1 v1] m IH]; simpl; [done|].
  intros [Hk Hm]%NoDup_cons. case_decide; simpl; [auto|].
  constructor; [|auto]. rewrite jm_keys_delete_in. naive_solver.
Qed.

Lemma jm_size_delete_le k m : jm_size (jm_delete k m) ≤ jm_size m.
Proof.
  unfold jm_size. induction m as [|[k1 v1] m IH]; simpl; [done|].
  case_decide; autorewrite with zlen; lia.
Qed.

Lemma jm_size_set_le k v m : jm_size (jm_set k v m) ≤ jm_size m + 1.
Proof.
  unfold jm_size. induction m as [|[k1 v1] m IH]; simpl; [done|].
  case_decide; autorewrite with zlen; lia.
Qed.

Lemma jm_size_nil m : jm_size m = 0 ↔ m = [].
Proof.
  split; [|by intros ->]. unfold jm_size. destruct m; [done|].
  autorewrite with zlen. pose proof (zlength_nonneg m). lia.
Qed.

Lemma jm_get_in k v m : jm_get k m = Some v → (k, v) ∈ m.
Proof.
  induction m as [|[k1 v1] m IH]; simpl; [done|].
  case_decide; intros; simplify_eq; [left|right; auto].
Qed.

Lemma jm_in_get k v m : jm_wf m → (k, v) ∈ m → jm_get k m = Some v.
Proof.
  unfold jm_wf. induction m as [|[k1 v1] m IH]; simpl; [by intros _ ?%elem_of_nil|].
  intros [Hk Hm]%NoDup_cons [[= -> ->]|Hin]%elem_of_cons.
  - by case_decide.
  - case_decide as Hd; [|auto]. subst. exfalso. apply Hk.
    apply jm_keys_get. rewrite (IH Hm Hin). eauto.
Qed.

Lemma jm_set_get_id k v m : jm_get k m = Some v → jm_set k v m = m.
Proof.
  induction m as [|[k1 v1] m IH]; simpl; [done|].
  case_decide; intros; simplify_eq; [done|]. f_equal. auto.
Qed.
End ops.

#[export] Hint Resolve jm_wf_nil jm_wf_set jm_wf_delete : js.
#[export] Hint Rewrite @jm_get_set_eq @jm_get_delete_eq : jsmap.

(** [Set] *)
Definition jsset (K : Type) : Type := list K.

Section set_ops.
Context {K : Type} `{EqDecision K}.
Implicit Types (s : jsset K) (k : K).

Definition js_mem k s : bool := bool_decide (k ∈ s).
Definition js_add k s : jsset K := if js_mem k s then s else s ++ [k].
Definition js_remove k s : jsset K := filter (λ x, x ≠ k) s.

Lemma js_mem_in k s : js_mem k s = true ↔ k ∈ s.
Proof. apply bool_decide_eq_true. Qed.

Lemma js_mem_not_in k s : js_mem k s = false ↔ k ∉ s.
Proof. apply bool_decide_eq_false. Qed.

Lemma js_add_in k k' s : k' ∈ js_add k s ↔ k' = k ∨ k' ∈ s.
Proof.
  unfold js_add. destruct (js_mem k s) eqn:E.
  - apply js_mem_in in E. naive_solver.
  - rewrite elem_of_app, list_elem_of_singleton. naive_solver.
Qed.

Lemma js_remove_in k k' s : k' ∈ js_remove k s ↔ k' ≠ k ∧ k' ∈ s.
Proof. unfold js_remove. by rewrite list_elem_of_filter. Qed.

Lemma js_add_nodup k s : NoDup s → NoDup (js_add k s).
Proof.
  intros. unfold js_add. destruct (js_mem k s) eqn:E; [done|].
  apply js_mem_not_in in E. apply NoDup_app. split; [done|]. split.
  - intros x Hx ->%list_elem_of_singleton. done.
  - apply NoDup_singleton.
Qed.

Lemma js_remove_nodup k s : NoDup s → NoDup (js_remove k s).
Proof. apply NoDup_filter. Qed.
End set_ops.

#[export] Hint Resolve js_add_nodup js_remove_nodup : js.
