(* ===== verification/Lib0.v ===== *)
(** The lib0 binary encoding (an npm package) as an interface: what the frame
    and message codecs of [src/sync/mux.ts] and [src/sync/RealtimeProvider.ts]
    rely on, and an instance (base-128 varints) that shows the laws can hold.

    An encoder is the bytes written so far, a decoder the bytes left to read. *)
From Stdlib Require Import Strings.Byte String.
From S2P Require Import Prelude.

Definition bytes : Type := list Byte.byte.

(** [Number.MAX_SAFE_INTEGER] *)
Definition max_safe_integer : Z := 2 ^ 53 - 1.

(** What a decoder throws at the end of its input or on an oversized integer. *)
Inductive decode_error : Type := DecodeError.

Class Lib0 := {
  writeVarUint : Z → bytes;
  writeVarString : string → bytes;
  readVarUint : bytes → throws decode_error (Z * bytes);
  readVarString : bytes → throws decode_error (string * bytes);
  hasContent : bytes → bool;
  readTailAsUint8Array : bytes → bytes;
}.

Class Lib0Laws `{Lib0} := {
  read_write_var_uint n rest :
    0 ≤ n ≤ max_safe_integer → readVarUint (writeVarUint n ++ rest) = Returns (n, rest);
  read_write_var_string s rest :
    Z.of_nat (String.length s) ≤ max_safe_integer →
    readVarString (writeVarString s ++ rest) = Returns (s, rest);
  read_var_uint_end : readVarUint [] = Throws DecodeError;
  has_content_iff d : hasContent d = true ↔ d ≠ [];
  read_tail d : readTailAsUint8Array d = d;
}.


Section laws.
Context `{Lib0Laws}.

Lemma read_write_var_uint_nil n :
  0 ≤ n ≤ max_safe_integer → readVarUint (writeVarUint n) = Returns (n, []).
Proof. intros. rewrite <- (app_nil_r (writeVarUint n)). auto using read_write_var_uint. Qed.

Lemma read_write_var_string_nil s :
  Z.of_nat (String.length s) ≤ max_safe_integer →
  readVarString (writeVarString s) = Returns (s, []).
Proof. intros. rewrite <- (app_nil_r (writeVarString s)). by apply read_write_var_string. Qed.

Lemma write_var_uint_content n :
  0 ≤ n ≤ max_safe_integer → hasContent (writeVarUint n) = true.
Proof.
  intros Hn. apply has_content_iff. intros He.
  pose proof (read_write_var_uint_nil n Hn) as Hr.
  rewrite He, read_var_uint_end in Hr. discriminate.
Qed.

Lemma has_content_nil : hasContent [] = false.
Proof. apply not_true_iff_false. rewrite has_content_iff. congruence. Qed.

Lemma has_content_cons b d : hasContent (b :: d) = true.
Proof. apply has_content_iff. discriminate. Qed.
End laws.

(** ** An instance: little-endian base 128, length-prefixed strings *)
Module Varint.

Definition byte_of (z : Z) : Byte.byte := default x00 (Byte.of_N (Z.to_N z)).
Definition byte_to (b : Byte.byte) : Z := Z.of_N (Byte.to_N b).

Lemma byte_to_of z : 0 ≤ z < 256 → byte_to (byte_of z) = z.
Proof.
  intros Hz. unfold byte_of, byte_to.
  destruct (Byte.of_N (Z.to_N z)) as [b|] eqn:E; simpl.
  - apply Byte.to_of_N in E. rewrite E. lia.
  - apply Byte.of_N_None_iff in E. lia.
Qed.

(** Eight groups of seven bits hold every safe integer. *)
Definition groups : nat := 8.

Fixpoint write (fuel : nat) (n : Z) : bytes :=
  match fuel with
  | O => []
  | S fuel' => if n <? 128 then [byte_of n]
               else byte_of (128 + n mod 128) :: write fuel' (n / 128)
  end.

Fixpoint read (fuel : nat) (mult acc : Z) (d : bytes) : throws decode_error (Z * bytes) :=
  match fuel, d with
  | S fuel', b :: d' =>
    let r := byte_to b in
    if r <? 128 then Returns (acc + r * mult, d')
    else read fuel' (mult * 128) (acc + (r - 128) * mult) d'
  | _, _ => Throws DecodeError
  end.

Lemma read_write fuel n mult acc rest :
  (0 < fuel)%nat → 0 ≤ n < 128 ^ Z.of_nat fuel →
  read fuel mult acc (write fuel n ++ rest) = Returns (acc + n * mult, rest).
Proof.
  revert n mult acc. induction fuel as [|fuel IH]; intros n mult acc Hf Hn; [lia|].
  simpl write. destruct (n <? 128) eqn:E; bools; simpl.
  - rewrite byte_to_of by lia. destruct (n <? 128) eqn:E'; bools; [done|lia].
  - pose proof (Z.mod_pos_bound n 128 ltac:(lia)).
    rewrite byte_to_of by lia. destruct (128 + n mod 128 <? 128) eqn:E'; bools; [lia|].
    rewrite IH.
    + do 2 f_equal.
      replace (n * mult) with ((128 * (n / 128) + n mod 128) * mult)
        by (rewrite <- Z.div_mod; lia).
      ring.
    + destruct fuel; [simpl in *; lia|lia].
    + rewrite Nat2Z.inj_succ, Z.pow_succ_r in Hn by lia.
      split; [apply Z.div_pos; lia|]. apply Z.div_lt_upper_bound; lia.
Qed.

Definition write_string (s : string) : bytes :=
  let l := list_byte_of_string s in write groups (zlength l) ++ l.

Definition read_string (d : bytes) : throws decode_error (string * bytes) :=
  match read groups 1 0 d with
  | Throws e => Throws e
  | Returns (n, d') =>
    if n <=? zlength d'
    then Returns (string_of_list_byte (take (Z.to_nat n) d'), drop (Z.to_nat n) d')
    else Throws DecodeError
  end.

#[export] Instance lib0 : Lib0 := {
  writeVarUint n := write groups n;
  writeVarString := write_string;
  readVarUint d := read groups 1 0 d;
  readVarString := read_string;
  hasContent d := negb (bool_decide (d = []));
  readTailAsUint8Array d := d;
}.

Lemma length_list_byte s : length (list_byte_of_string s) = String.length s.
Proof.
  unfold list_byte_of_string. rewrite length_map.
  induction s as [|a s IH]; simpl; [done|by rewrite IH].
Qed.

#[export] Instance lib0_laws : Lib0Laws.
Proof.
  split; cbn [writeVarUint writeVarString readVarUint readVarString hasContent readTailAsUint8Array lib0].
  - intros n rest Hn. rewrite read_write; [do 2 f_equal; lia|unfold groups; lia|].
    unfold max_safe_integer, groups in *. change (Z.of_nat 8) with 8. lia.
  - intros s rest Hs. unfold read_string, write_string.
    rewrite <- app_assoc, read_write.
    + rewrite Z.add_0_l, Z.mul_1_r.
      assert (zlength (list_byte_of_string s) ≤ zlength (list_byte_of_string s ++ rest)).
      { autorewrite with zlen. pose proof (zlength_nonneg rest). lia. }
      destruct (_ <=? _) eqn:E; bools; [|lia].
      unfold zlength. rewrite Nat2Z.id, take_app_length, drop_app_length.
      by rewrite string_of_list_byte_of_string.
    + unfold groups; lia.
    + unfold zlength. rewrite length_list_byte.
      unfold max_safe_integer, groups in *. change (Z.of_nat 8) with 8. lia.
  - done.
  - intros d. rewrite negb_true_iff. by rewrite bool_decide_eq_false.
  - done.
Qed.

End Varint.
