(* ===== verification/Json.v ===== *)
(** JSON values as the structured documents hold them, and the pure half of
    [structured/reconcile.ts]: deep equality, containment and the three-way
    startup merge. *)
From Stdlib Require Import String.
From Stdlib Require Import QArith.Qcanon.
From S2P Require Import Prelude JsMap.
#[local] Open Scope Z_scope.

(** A number is finite, so [===] on it is equality of rationals ([-0 === 0]).
    An object is an insertion-ordered map of its own properties together with
    its prototype: a literal's or parsed object's [Object.prototype], or none
    ([Object.create(null)]).  [JBuiltin n] is what reading the inherited
    property [n] of [Object.prototype] gives; no JSON text produces it. *)
Inductive proto := ObjectPrototype | NoPrototype.

Inductive JsonValue : Type :=
  | JNull
  | JBool (b : bool)
  | JNumber (n : Qc)
  | JString (s : string)
  | JArray (elements : list JsonValue)
  | JObject (p : proto) (fields : list (string * JsonValue))
  | JBuiltin (name : string).

Section json_ind.
Context (P : JsonValue → Prop).
Context (Hnull : P JNull) (Hbool : ∀ b, P (JBool b)) (Hnum : ∀ n, P (JNumber n))
  (Hstr : ∀ s, P (JString s)) (Harr : ∀ l, Forall P l → P (JArray l))
  (Hobj : ∀ p fs, Forall (λ f, P f.2) fs → P (JObject p fs)) (Hbi : ∀ n, P (JBuiltin n)).

Fixpoint json_ind' (v : JsonValue) : P v :=
  match v with
  | JNull => Hnull
  | JBool b => Hbool b
  | JNumber n => Hnum n
  | JString s => Hstr s
  | JArray l => Harr l ((fix go l : Forall P l :=
      match l with [] => Forall_nil_2 _ | x :: l => Forall_cons_2 _ _ _ (json_ind' x) (go l) end) l)
  | JObject p fs => Hobj p fs ((fix go fs : Forall (λ f, P f.2) fs :=
      match fs with [] => Forall_nil_2 _ | f :: fs => Forall_cons_2 _ _ _ (json_ind' f.2) (go fs) end) fs)
  | JBuiltin n => Hbi n
  end.
End json_ind.

(** The properties every ordinary object inherits. *)
Definition inherited : list string :=
  ["constructor"; "__defineGetter__"; "__defineSetter__"; "hasOwnProperty";
   "__lookupGetter__"; "__lookupSetter__"; "isPrototypeOf"; "propertyIsEnumerable";
   "toString"; "valueOf"; "__proto__"; "toLocaleString"]%string.

Definition inherits (p : proto) (key : string) : bool :=
  match p with ObjectPrototype => bool_decide (key ∈ inherited) | NoPrototype => false end.

(** [obj[key]], [None] exactly when [key in obj] is false *)
Definition jget (key : string) (p : proto) (fields : list (string * JsonValue)) : option JsonValue :=
  match jm_get key fields with
  | Some v => Some v
  | None => if inherits p key then Some (JBuiltin key) else None
  end.

Definition isRecord (v : JsonValue) : bool :=
  match v with JObject _ _ => true | _ => false end.

Definition isArray (v : JsonValue) : bool :=
  match v with JArray _ => true | _ => false end.

(** [jsonEqual]; the leading [left === right] decides scalars, and on objects
    only short-cuts an answer the comparison gives anyway ([jsonEqual_refl]). *)
Fixpoint jsonEqual (left right : JsonValue) {struct left} : bool :=
  match left, right with
  | JNull, JNull => true
  | JBool a, JBool b => bool_decide (a = b)
  | JNumber a, JNumber b => bool_decide (a = b)
  | JString a, JString b => bool_decide (a = b)
  | JBuiltin a, JBuiltin b => bool_decide (a = b)
  | JArray xs, JArray ys =>
    (zlength xs =? zlength ys) &&
    (fix every xs ys := match xs, ys with
       | x :: xs', y :: ys' => jsonEqual x y && every xs' ys'
       | [], _ => true
       | _ :: _, [] => false
       end) xs ys
  | JObject _ fs, JObject q gs =>
    (zlength fs =? zlength gs) &&
    (fix every fs := match fs with
       | [] => true
       | (key, v) :: fs' =>
         match jget key q gs with Some w => jsonEqual v w | None => false end && every fs'
       end) fs
  | _, _ => false
  end.

Fixpoint every2 (xs ys : list JsonValue) : bool :=
  match xs, ys with
  | x :: xs', y :: ys' => jsonEqual x y && every2 xs' ys'
  | [], _ => true
  | _ :: _, [] => false
  end.

Definition every_field (fs : list (string * JsonValue)) (q : proto) (gs : list (string * JsonValue)) : bool :=
  forallb (λ f, match jget f.1 q gs with Some w => jsonEqual f.2 w | None => false end) fs.

(** [jsonContains] *)
Fixpoint subsequence (index : nat) (outer inner : list JsonValue) : nat :=
  match outer with
  | [] => index
  | value :: outer' =>
    if (index =? length inner)%nat then index
    else match inner !! index with
         | Some x => subsequence (if jsonEqual value x then S index else index) outer' inner
         | None => index
         end
  end.

Fixpoint jsonContains (outer inner : JsonValue) {struct inner} : bool :=
  jsonEqual outer inner ||
  match outer, inner with
  | JArray xs, JArray ys => (subsequence 0 xs ys =? length ys)%nat
  | JObject p fs, JObject _ gs =>
    (fix every gs := match gs with
       | [] => true
       | (key, w) :: gs' =>
         match jget key p fs with Some v => jsonContains v w | None => false end && every gs'
       end) gs
  | _, _ => false
  end.

(** ** The three-way merge *)

Record StructuredMergeResult := mkMerge { value : JsonValue; conflicted : bool }.

(** What one key of the merged object becomes: a value or nothing, and
    whether it conflicts.  [child] merges below the key's local value. *)
Definition mergeKey (base remote : option JsonValue)
    (local : option (JsonValue * (JsonValue → JsonValue → StructuredMergeResult)))
    : option JsonValue * bool :=
  match local with
  | None =>
    match base, remote with
    | None, Some r => (Some r, false)
    | None, None => (None, false)
    | Some _, None => (None, false)
    | Some b, Some r => if negb (jsonEqual r b) then (Some r, true) else (None, false)
    end
  | Some (l, child) =>
    match remote with
    | None =>
      match base with
      | None => (Some l, false)
      | Some b => if negb (jsonEqual l b) then (Some l, true) else (None, false)
      end
    | Some r =>
      match base with
      | None =>
        if isRecord l && isRecord r then
          let c := child (JObject ObjectPrototype []) r in (Some (value c), conflicted c)
        else (Some l, negb (jsonEqual l r))
      | Some b => let c := child b r in (Some (value c), conflicted c)
      end
    end
  end.

(** [new Set([...Object.keys(base), ...Object.keys(local), ...Object.keys(remote)])] *)
Definition allKeys (base local remote : list string) : jsset string :=
  foldl (λ s k, js_add k s) [] (base ++ local ++ remote).

(** The loop over [keys], [merged] and [conflicted] its state; [merged] has no
    prototype and every key comes once, so [merged[key] = v] appends. *)
Definition mergeStep (key_result : string → option JsonValue * bool)
    (acc : list (string * JsonValue) * bool) (key : string) : list (string * JsonValue) * bool :=
  let '(merged, conf) := acc in
  let '(v, c) := key_result key in
  (match v with Some v => jm_set key v merged | None => merged end, conf || c).

Definition fieldsOf (v : JsonValue) : list (string * JsonValue) :=
  match v with JObject _ fs => fs | _ => [] end.

Definition protoOf (v : JsonValue) : proto :=
  match v with JObject p _ => p | _ => ObjectPrototype end.

(** The tests before the loop; the loop runs with [records]. *)
Definition mergeHead (baseline local remote : JsonValue) (records : StructuredMergeResult)
    : StructuredMergeResult :=
  if jsonEqual local baseline then mkMerge remote false
  else if jsonEqual remote baseline || jsonEqual local remote then mkMerge local false
  else if negb (isRecord local) || negb (isRecord remote) then mkMerge local true
  else records.

Fixpoint mergeStructuredStartupResult (local baseline remote : JsonValue) {struct local}
    : StructuredMergeResult :=
  mergeHead baseline local remote
    match local with
    | JObject p fs =>
      let children := (fix go fs := match fs with
        | [] => []
        | (k, v) :: fs' => (k, (v, λ b r, mergeStructuredStartupResult v b r)) :: go fs'
        end) fs in
      let localAt key :=
        match jm_get key children with
        | Some vc => Some vc
        | None => if inherits p key
                  then Some (JBuiltin key, λ b r, mergeHead b (JBuiltin key) r (mkMerge JNull false))
                  else None
        end in
      let '(merged, conf) :=
        foldl (mergeStep (λ key,
                 mergeKey (jget key (protoOf baseline) (fieldsOf baseline))
                          (jget key (protoOf remote) (fieldsOf remote)) (localAt key)))
          ([], false)
          (allKeys (map fst (fieldsOf baseline)) (map fst fs) (map fst (fieldsOf remote))) in
      mkMerge (JObject NoPrototype merged) conf
    | _ => mkMerge local true
    end.

(** The source's argument order. *)
Definition mergeStructuredStartup (baseline local remote : JsonValue) : JsonValue :=
  value (mergeStructuredStartupResult local baseline remote).

(** ** Text fields *)

Definition DEFAULT_TEXT_KEYS : list string :=
  ["text"; "label"; "filter"; "formula"; "query"; "name"; "description"]%string.

(** [length] counts UTF-16 code units, which this parameter gives *)
Definition shouldUseText (utf16_length : string → Z) (key : option string) (v : JsonValue)
    (textKeys : option (list string)) : bool :=
  match v with
  | JString s =>
    let keys := default DEFAULT_TEXT_KEYS textKeys in
    match key with
    | Some k => negb (bool_decide (k = ""%string)) && (bool_decide (k ∈ keys) || (256 <? utf16_length s))
    | None => false
    end
  | _ => false
  end.
