(* ===== verification/JsonFacts.v ===== *)
(** Facts about JSON equality, containment and the three-way merge, for values
    a JSON text can produce ([plain]). *)
From Stdlib Require Import String.
From Stdlib Require Import QArith.Qcanon.
From S2P Require Import Prelude JsMap Json.
#[local] Open Scope Z_scope.

(** A value parsed from JSON whose objects use no inherited property name as
    a key of their own. *)
Fixpoint plain (v : JsonValue) : bool :=
  match v with
  | JArray l => forallb plain l
  | JObject _ fs =>
    bool_decide (NoDup (map fst fs)) &&
    forallb (λ f, negb (bool_decide (f.1 ∈ inherited)) && plain f.2) fs
  | JBuiltin _ => false
  | _ => true
  end.

(** Equality of values up to the order of object keys. *)
Inductive same : JsonValue → JsonValue → Prop :=
  | same_null : same JNull JNull
  | same_bool b : same (JBool b) (JBool b)
  | same_number n : same (JNumber n) (JNumber n)
  | same_string s : same (JString s) (JString s)
  | same_builtin n : same (JBuiltin n) (JBuiltin n)
  | same_array xs ys : Forall2 same xs ys → same (JArray xs) (JArray ys)
  | same_object p q fs gs :
      (∀ k, option_Forall2 same (jm_get k fs) (jm_get k gs)) → same (JObject p fs) (JObject q gs).

Create HintDb json.
#[export] Hint Constructors same : json.

Lemma Forall_get {P : JsonValue → Prop} {fs : list (string * JsonValue)} k v :
  Forall (λ f, P f.2) fs → jm_get k fs = Some v → P v.
Proof. intros Hf Hg%jm_get_in. by eapply (proj1 (Forall_forall _ _) Hf (k, v)). Qed.

Lemma same_refl v : same v v.
Proof.
  induction v as [| | | |l IH|p fs IH|] using json_ind'; constructor.
  - induction IH; by constructor.
  - intros k. destruct (jm_get k fs) as [v|] eqn:E; constructor.
    by apply (Forall_get (P := λ v, same v v) k v IH).
Qed.

Lemma Forall2_sym_of (l k : list JsonValue) :
  Forall (λ v, ∀ w, same v w → same w v) l → Forall2 same l k → Forall2 same k l.
Proof.
  intros IH. revert k. induction IH as [|v l Hv _ IH]; inversion 1; subst; constructor; auto.
Qed.

Lemma Forall2_trans_of (l k h : list JsonValue) :
  Forall (λ u, ∀ v w, same u v → same v w → same u w) l →
  Forall2 same l k → Forall2 same k h → Forall2 same l h.
Proof.
  intros IH. revert k h. induction IH as [|u l Hu _ IH]; inversion 1; subst; inversion 1; subst; constructor; eauto.
Qed.

Lemma same_sym v w : same v w → same w v.
Proof.
  revert w. induction v as [| | | |l IH|p fs IH|] using json_ind'; inversion 1 as [| | | | |xs ys S|p' q' fs' gs' S];
    subst; constructor.
  - by apply Forall2_sym_of.
  - intros k. specialize (S k). inversion S as [x y S' E1 E2|]; constructor.
    by apply (Forall_get (P := λ v, ∀ w, same v w → same w v) k x IH (eq_sym E1)).
Qed.

Lemma same_trans u v w : same u v → same v w → same u w.
Proof.
  revert v w. induction u as [| | | |l IH|p fs IH|] using json_ind';
    inversion 1 as [| | | | |xs ys S|p' q' fs' gs' S]; subst;
    inversion 1 as [| | | | |xs2 ys2 S'|p2 q2 fs2 gs2 S']; subst; constructor.
  - by eapply Forall2_trans_of.
  - intros k. specialize (S k). specialize (S' k).
    inversion S as [u1 v1 S1 E1 E1'|E1 E1']; inversion S' as [v2 w1 S2 E2 E2'|E2 E2']; try congruence; constructor.
    assert (v1 = v2) as <- by congruence.
    by apply (Forall_get (P := λ u, ∀ v w, same u v → same v w → same u w) k u1 IH (eq_sym E1) v1).
Qed.

#[export] Instance same_equivalence : Equivalence same.
Proof. split; [exact same_refl|exact same_sym|exact same_trans]. Qed.

#[export] Hint Resolve same_refl same_sym : json.
#[export] Hint Immediate same_sym : json.

(** ** [plain] *)

Lemma plain_array l : plain (JArray l) = true ↔ Forall (λ v, plain v = true) l.
Proof. simpl. rewrite forallb_forall, Forall_forall. split; intros H x Hx; apply H; by apply list_elem_of_In. Qed.

Lemma plain_object p fs :
  plain (JObject p fs) = true ↔
  jm_wf fs ∧ Forall (λ f, f.1 ∉ inherited) fs ∧ Forall (λ f, plain f.2 = true) fs.
Proof.
  simpl. rewrite andb_true_iff, bool_decide_eq_true, forallb_forall.
  unfold jm_wf, jm_keys. split; [intros [? H]|intros (? & H1 & H2)]; (split; [done|]).
  - split; apply Forall_forall; intros x Hx%list_elem_of_In; specialize (H x Hx); bools; done.
  - intros x Hx%list_elem_of_In. rewrite (proj1 (Forall_forall _ _) H2 x Hx), andb_true_r.
    apply negb_true_iff, bool_decide_eq_false. by apply (proj1 (Forall_forall _ _) H1 x Hx).
Qed.

Lemma plain_get p fs k v : plain (JObject p fs) = true → jm_get k fs = Some v → plain v = true.
Proof. intros (_ & _ & H)%plain_object. by apply (Forall_get (P := λ v, plain v = true) k v). Qed.

Lemma plain_key p fs k v : plain (JObject p fs) = true → jm_get k fs = Some v → k ∉ inherited.
Proof. intros (_ & H & _)%plain_object Hg%jm_get_in. by apply (proj1 (Forall_forall _ _) H (k, v)). Qed.

Lemma inherits_false p k : k ∉ inherited → inherits p k = false.
Proof. intros. destruct p; [|done]. by apply bool_decide_eq_false. Qed.

Lemma jget_own k p fs : k ∉ inherited → jget k p fs = jm_get k fs.
Proof. intros Hk. unfold jget. rewrite inherits_false by done. by destruct (jm_get k fs). Qed.

(** ** [jsonEqual] decides [same] *)

Lemma jsonEqual_array xs ys :
  jsonEqual (JArray xs) (JArray ys) = (zlength xs =? zlength ys) && every2 xs ys.
Proof.
  reflexivity.
Qed.

Lemma jsonEqual_object p q fs gs :
  jsonEqual (JObject p fs) (JObject q gs) = (zlength fs =? zlength gs) && every_field fs q gs.
Proof.
  cbn [jsonEqual]. f_equal. induction fs as [|[k v] fs IH]; simpl; [done|]. by rewrite IH.
Qed.

Lemma every2_spec xs : Forall (λ x, ∀ y, plain x = true → plain y = true → jsonEqual x y = true ↔ same x y) xs →
  ∀ ys, Forall (λ v, plain v = true) xs → Forall (λ v, plain v = true) ys → zlength xs = zlength ys →
  every2 xs ys = true ↔ Forall2 same xs ys.
Proof.
  induction 1 as [|x xs Hx _ IH]; intros [|y ys] Hp Hq Hlen;
    autorewrite with zlen in Hlen; simpl.
  - split; [constructor|done].
  - pose proof (zlength_nonneg ys). lia.
  - pose proof (zlength_nonneg xs). lia.
  - apply Forall_cons in Hp as [Hp1 Hp]. apply Forall_cons in Hq as [Hq1 Hq].
    rewrite andb_true_iff, Hx, IH by (done || lia). split.
    + intros []; by constructor.
    + by inversion 1.
Qed.

Lemma every_field_spec fs q gs : every_field fs q gs = true ↔
  ∀ k v, (k, v) ∈ fs → ∃ w, jget k q gs = Some w ∧ jsonEqual v w = true.
Proof.
  unfold every_field. rewrite forallb_forall. split.
  - intros H k v Hin%list_elem_of_In. specialize (H _ Hin). simpl in H.
    destruct (jget k q gs); [eauto|done].
  - intros H [k v] Hin%list_elem_of_In. simpl. destruct (H k v Hin) as (w & -> & ->). done.
Qed.

Lemma keys_subset_full (fs gs : list (string * JsonValue)) :
  jm_wf fs → zlength fs = zlength gs →
  (∀ k, is_Some (jm_get k fs) → is_Some (jm_get k gs)) → ∀ k, is_Some (jm_get k gs) → is_Some (jm_get k fs).
Proof.
  unfold jm_wf, zlength. intros Hwf Hlen Hsub k Hk. apply jm_keys_get, list_elem_of_In.
  apply (NoDup_length_incl (l := jm_keys fs) (l' := jm_keys gs)).
  - by apply NoDup_ListNoDup.
  - unfold jm_keys. rewrite !length_map. lia.
  - intros x Hx%list_elem_of_In. apply list_elem_of_In, jm_keys_get, Hsub, jm_keys_get, Hx.
  - by apply list_elem_of_In, jm_keys_get.
Qed.

Lemma same_size (fs gs : list (string * JsonValue)) : jm_wf fs → jm_wf gs →
  (∀ k, option_Forall2 same (jm_get k fs) (jm_get k gs)) → zlength fs = zlength gs.
Proof.
  unfold jm_wf, zlength. intros Hf Hg H. f_equal.
  rewrite <- (length_map fst fs), <- (length_map fst gs). apply Permutation_length.
  apply NoDup_Permutation; [done|done|]. intros k. unfold jm_keys in *.
  pose proof (jm_keys_get k fs) as E1. pose proof (jm_keys_get k gs) as E2. unfold jm_keys in *.
  rewrite E1, E2. specialize (H k). inversion H; split; intros [? ?]; eauto; congruence.
Qed.

Lemma jsonEqual_same v w : plain v = true → plain w = true → jsonEqual v w = true ↔ same v w.
Proof.
  revert w. induction v as [| | | |xs IH|p fs IH|] using json_ind'; intros w Hv Hw.
  1-4, 7: destruct w; simpl; try (split; [discriminate|by inversion 1]);
    rewrite ?bool_decide_eq_true; split; intros; subst; try constructor; by inversion H.
  - destruct w as [| | | |ys| |]; try (split; [discriminate|by inversion 1]).
    rewrite plain_array in Hv, Hw. rewrite jsonEqual_array, andb_true_iff, Z.eqb_eq. split.
    + intros [Hl He]. constructor. by apply every2_spec.
    + inversion 1; subst.
      assert (zlength xs = zlength ys) as Hl by (unfold zlength; f_equal; by eapply Forall2_length).
      split; [done|]. by apply every2_spec.
  - destruct w as [| | | | |q gs|]; try (split; [discriminate|by inversion 1]).
    rewrite jsonEqual_object, andb_true_iff, Z.eqb_eq, every_field_spec.
    pose proof (proj1 (plain_object _ _) Hv) as (Hwf & Hk & Hp).
    pose proof (proj1 (plain_object _ _) Hw) as (Hwg & _ & _). split.
    + intros [Hl He]. constructor. intros k.
      assert (∀ k v, jm_get k fs = Some v → ∃ w, jm_get k gs = Some w ∧ same v w) as Hsub.
      { intros k' v' Hg. destruct (He k' v') as (w' & Hw' & Heq); [by apply jm_get_in|].
        rewrite jget_own in Hw' by (exact (plain_key p fs _ _ Hv Hg)). exists w'. split; [done|].
        apply (Forall_get (P := λ v, ∀ w, plain v = true → plain w = true → jsonEqual v w = true ↔ same v w) k' v' IH Hg);
          [exact (plain_get p fs _ _ Hv Hg)|by eapply (plain_get q gs)|done]. }
      destruct (jm_get k fs) as [v|] eqn:E.
      * destruct (Hsub k v E) as (w & -> & ?). by constructor.
      * destruct (jm_get k gs) as [w|] eqn:E'; [|constructor].
        exfalso. assert (is_Some (jm_get k fs)) as [? ?]; [|congruence].
        apply (keys_subset_full fs gs Hwf Hl); [|eauto]. intros k' [v' Hv']. destruct (Hsub k' v' Hv') as (? & ? & _). eauto.
    + inversion 1; subst. split; [by apply same_size|].
      intros k v Hin. assert (jm_get k fs = Some v) as Hg by (by apply jm_in_get).
      match goal with H : ∀ k, option_Forall2 _ _ _ |- _ => specialize (H k); rewrite Hg in H; inversion H as [? w Hs E1 E2|] end.
      exists w. rewrite jget_own by (exact (plain_key p fs _ _ Hv Hg)). split; [done|].
      apply (Forall_get (P := λ v, ∀ w, plain v = true → plain w = true → jsonEqual v w = true ↔ same v w) k v IH Hg);
        [exact (plain_get p fs _ _ Hv Hg)|by eapply (plain_get q gs)|done].
Qed.

Lemma jsonEqual_refl v : plain v = true → jsonEqual v v = true.
Proof. intros. by apply jsonEqual_same. Qed.

Lemma jsonEqual_false v w : plain v = true → plain w = true → jsonEqual v w = false ↔ ¬ same v w.
Proof. intros. rewrite <- jsonEqual_same by done. by rewrite not_true_iff_false. Qed.

(** ** The merge loop *)

Lemma allKeys_in k bs ls rs : k ∈ allKeys bs ls rs ↔ k ∈ bs ∨ k ∈ ls ∨ k ∈ rs.
Proof.
  unfold allKeys. rewrite <- !elem_of_app.
  assert (∀ l s, k ∈ foldl (λ s k, js_add k s) s l ↔ k ∈ s ∨ k ∈ l) as H.
  { induction l as [|x l IH]; intros s; simpl; [set_solver|]. rewrite IH, js_add_in. set_solver. }
  rewrite H. set_solver.
Qed.

Lemma allKeys_nodup bs ls rs : NoDup (allKeys bs ls rs).
Proof. unfold allKeys. apply foldl_preserves; [auto with js|constructor]. Qed.

Section merge_loop.
Context (f : string → option JsonValue * bool).

Lemma mergeStep_get keys : NoDup keys → ∀ m c,
  (∀ k, k ∈ keys → jm_get k m = None) →
  ∀ k, jm_get k (foldl (mergeStep f) (m, c) keys).1 =
       if bool_decide (k ∈ keys) then (f k).1 else jm_get k m.
Proof.
  induction 1 as [|x keys Hx Hnd IH]; intros m c Hm k; simpl; [done|].
  destruct (f x) as [v c'] eqn:E. rewrite IH.
  - destruct (decide (k = x)) as [->|Hne].
    + rewrite !bool_decide_eq_false_2, bool_decide_eq_true_2 by set_solver. rewrite E. simpl.
      destruct v; [by rewrite jm_get_set_eq|apply Hm; set_solver].
    + destruct (decide (k ∈ keys)); [rewrite !bool_decide_eq_true_2 by set_solver; done|].
      rewrite !bool_decide_eq_false_2 by set_solver. destruct v; [by rewrite jm_get_set_ne|done].
  - intros k' Hk'. destruct v; [rewrite jm_get_set_ne by set_solver|]; apply Hm; set_solver.
Qed.

Lemma mergeStep_conflicted keys : ∀ m c,
  (foldl (mergeStep f) (m, c) keys).2 = true ↔ c = true ∨ ∃ k, k ∈ keys ∧ (f k).2 = true.
Proof.
  induction keys as [|x keys IH]; intros m c; simpl.
  - split; [by left|]. intros [?|(k & ?%elem_of_nil & _)]; done.
  - destruct (f x) as [v c'] eqn:E. rewrite IH, orb_true_iff. split.
    + intros [[?|?]|(k & ? & ?)]; [by left| |]; right.
      * exists x. rewrite E. split; [left|done].
      * exists k. split; [by right|done].
    + intros [?|(k & [->|?]%elem_of_cons & Hk)]; [by left; left| |].
      * rewrite E in Hk. by left; right.
      * right. eauto.
Qed.

Lemma mergeStep_wf keys m c : jm_wf m → jm_wf (foldl (mergeStep f) (m, c) keys).1.
Proof.
  intros Hm. apply (foldl_preserves (λ a, jm_wf a.1)); [|done].
  intros [m' c'] k _ Hm'. unfold mergeStep. destruct (f k) as [[v|] ?]; simpl in *; auto with js.
Qed.
End merge_loop.

(** The merge of one key, the three sides given by what they hold there. *)
Definition mergeAt (base local remote : option JsonValue) : option JsonValue * bool :=
  mergeKey base remote ((λ l, (l, λ b r, mergeStructuredStartupResult l b r)) <$> local).

Lemma fieldsOf_key v k x : plain v = true → jm_get k (fieldsOf v) = Some x → k ∉ inherited ∧ plain x = true.
Proof.
  destruct v as [| | | | |p fs|]; simpl fieldsOf; try done. intros Hp Hg.
  split; [exact (plain_key p fs k x Hp Hg)|exact (plain_get p fs k x Hp Hg)].
Qed.

Lemma jget_fieldsOf v k : k ∉ inherited → jget k (protoOf v) (fieldsOf v) = jm_get k (fieldsOf v).
Proof. apply jget_own. Qed.

Section merge_object.
Context (p : proto) (fs : list (string * JsonValue)) (baseline remote : JsonValue).
Context (Hl : plain (JObject p fs) = true) (Hb : plain baseline = true) (Hr : plain remote = true).
Let local := JObject p fs.
Context (H1 : jsonEqual local baseline = false) (H2 : jsonEqual remote baseline = false)
  (H3 : jsonEqual local remote = false) (Hrec : isRecord remote = true).
Let res := mergeStructuredStartupResult local baseline remote.

Lemma children_get k (gs : list (string * JsonValue)) :
  jm_get k ((fix go fs := match fs with
        | [] => []
        | (k, v) :: fs' => (k, (v, λ b r, mergeStructuredStartupResult v b r)) :: go fs'
        end) gs) = (λ l, (l, λ b r, mergeStructuredStartupResult l b r)) <$> jm_get k gs.
Proof. induction gs as [|[k' v] gs IH]; simpl; [done|]. by case_decide. Qed.

Lemma merge_object :
  ∃ m, value res = JObject NoPrototype m ∧ jm_wf m ∧
  (∀ k, jm_get k m = (mergeAt (jm_get k (fieldsOf baseline)) (jm_get k fs) (jm_get k (fieldsOf remote))).1) ∧
  (conflicted res = true ↔
   ∃ k, (mergeAt (jm_get k (fieldsOf baseline)) (jm_get k fs) (jm_get k (fieldsOf remote))).2 = true).
Proof.
  subst res. unfold local in *. cbn [mergeStructuredStartupResult]. unfold mergeHead. rewrite H1, H2, H3, Hrec.
  cbn [isRecord negb orb].
  match goal with |- context [foldl (mergeStep ?F) _ ?K] => set (f := F); set (keys := K) end.
  destruct (foldl (mergeStep f) ([], false) keys) as [m c] eqn:E. simpl.
  assert (∀ k, k ∈ keys ↔ is_Some (jm_get k (fieldsOf baseline)) ∨ is_Some (jm_get k fs) ∨ is_Some (jm_get k (fieldsOf remote))) as Hkeys.
  { intros k. unfold keys. rewrite allKeys_in. unfold jm_keys in *.
    pose proof (jm_keys_get (V := JsonValue) k) as G. unfold jm_keys in G. by rewrite !G. }
  assert (∀ k, k ∈ keys → f k = mergeAt (jm_get k (fieldsOf baseline)) (jm_get k fs) (jm_get k (fieldsOf remote))) as Hf.
  { intros k Hk. assert (k ∉ inherited) as Hni.
    { apply Hkeys in Hk as [[x Hx]|[[x Hx]|[x Hx]]].
      - by apply (fieldsOf_key baseline k x).
      - by apply (fieldsOf_key (JObject p fs) k x).
      - by apply (fieldsOf_key remote k x). }
    unfold f, mergeAt. rewrite !jget_fieldsOf, children_get, inherits_false by done.
    by destruct (jm_get k fs). }
  assert (∀ k, k ∉ keys → mergeAt (jm_get k (fieldsOf baseline)) (jm_get k fs) (jm_get k (fieldsOf remote)) = (None, false)) as Hn.
  { intros k Hk. rewrite Hkeys in Hk.
    destruct (jm_get k (fieldsOf baseline)), (jm_get k fs), (jm_get k (fieldsOf remote)); naive_solver. }
  exists m. split; [done|]. split; [|split].
  - change (jm_wf (m, c).1). rewrite <- E. apply mergeStep_wf, jm_wf_nil.
  - intros k. change m with (m, c).1. rewrite <- E, mergeStep_get by (done || apply allKeys_nodup).
    case_bool_decide as Hk; [by rewrite Hf|by rewrite Hn].
  - change c with (m, c).2. rewrite <- E, mergeStep_conflicted. split.
    + intros [?|(k & Hk & Hc)]; [done|]. exists k. by rewrite <- Hf.
    + intros [k Hk]. right. exists k. destruct (decide (k ∈ keys)) as [Hin|Hout]; [|by rewrite Hn in Hk].
      by rewrite Hf.
Qed.
End merge_object.

Lemma merge_head l b r :
  jsonEqual l b = true ∧ mergeStructuredStartupResult l b r = mkMerge r false ∨
  jsonEqual l b = false ∧ (jsonEqual r b = true ∨ jsonEqual l r = true) ∧
    mergeStructuredStartupResult l b r = mkMerge l false ∨
  jsonEqual l b = false ∧ jsonEqual r b = false ∧ jsonEqual l r = false ∧
    (isRecord l = false ∨ isRecord r = false) ∧ mergeStructuredStartupResult l b r = mkMerge l true ∨
  jsonEqual l b = false ∧ jsonEqual r b = false ∧ jsonEqual l r = false ∧
    isRecord l = true ∧ isRecord r = true.
Proof.
  destruct (jsonEqual l b) eqn:E1, (jsonEqual r b) eqn:E2, (jsonEqual l r) eqn:E3,
    (isRecord l) eqn:E4, (isRecord r) eqn:E5;
  try (left; split; [done|]; destruct l; cbn [mergeStructuredStartupResult]; unfold mergeHead; rewrite E1; done);
  try (right; left; split; [done|]; split; [auto|]; destruct l; cbn [mergeStructuredStartupResult];
       unfold mergeHead; rewrite E1, ?E2, ?E3; done);
  try (right; right; left; do 4 (split; [auto|]); destruct l; try discriminate;
       cbn [mergeStructuredStartupResult]; unfold mergeHead; rewrite E1, E2, E3, ?E5; done).
  right; right; right. auto.
Qed.
