(* ===== verification/JsonSpec.v ===== *)
(** What the pure half of [structured/reconcile.ts] guarantees: equality up to
    key order, a containment order, and a three-way merge that is symmetric up
    to conflicts and keeps one-sided changes. *)
From Stdlib Require Import String.
From Stdlib Require Import QArith.Qcanon.
From S2P Require Import Prelude JsMap Json JsonFacts.
#[local] Open Scope Z_scope.

#[local] Notation merge b l r := (mergeStructuredStartupResult l b r).

Lemma same_get p q fs gs k : same (JObject p fs) (JObject q gs) → option_Forall2 same (jm_get k fs) (jm_get k gs).
Proof. by inversion 1. Qed.

Lemma same_fields v w k : same v w → option_Forall2 same (jm_get k (fieldsOf v)) (jm_get k (fieldsOf w)).
Proof. inversion 1; simpl; try constructor. done. Qed.

(** [mergeAt] on swapped sides, from the same fact about the children. *)
Lemma mergeAt_symmetric b l r :
  (∀ v, l = Some v → ∀ w b', r = Some w → (b' = JObject ObjectPrototype [] ∨ b = Some b') →
     conflicted (merge b' v w) = conflicted (merge b' w v) ∧
     (conflicted (merge b' v w) = false → same (value (merge b' v w)) (value (merge b' w v)))) →
  (∀ v, l = Some v → plain v = true) → (∀ v, r = Some v → plain v = true) → (∀ v, b = Some v → plain v = true) →
  (mergeAt b l r).2 = (mergeAt b r l).2 ∧
  ((mergeAt b l r).2 = false → option_Forall2 same (mergeAt b l r).1 (mergeAt b r l).1).
Proof.
  intros IH Pl Pr Pb. unfold mergeAt, mergeKey.
  destruct l as [l|], r as [r|], b as [b|]; simpl; try (split; [done|constructor; done]).
  - destruct (IH l eq_refl r b eq_refl (or_intror eq_refl)) as [-> H]. split; [done|]. intros. constructor. auto.
  - rewrite (andb_comm (isRecord r)). destruct (isRecord l && isRecord r) eqn:E; simpl.
    + destruct (IH l eq_refl r _ eq_refl (or_introl eq_refl)) as [-> H]. split; [done|]. intros. constructor. auto.
    + specialize (Pl l eq_refl). specialize (Pr r eq_refl).
      destruct (jsonEqual l r) eqn:E1.
      * apply jsonEqual_same in E1; [|done..]. assert (jsonEqual r l = true) as -> by (apply jsonEqual_same; auto with json).
        split; [done|]. intros _. by constructor.
      * apply jsonEqual_false in E1; [|done..]. assert (jsonEqual r l = false) as ->; [|done].
        apply jsonEqual_false; [done..|]. intros H. apply E1. by symmetry.
  - split_matches; (split; [done|]); intros; try done; by constructor.
  - split_matches; (split; [done|]); intros; try done; by constructor.
Qed.

Lemma jsonEqual_comm v w : plain v = true → plain w = true → jsonEqual v w = jsonEqual w v.
Proof.
  intros. apply eq_true_iff_eq. rewrite !jsonEqual_same by done. split; apply same_sym.
Qed.

(** The two merges agree on conflicting, and on the value when they do not. *)
Definition agree (x y : StructuredMergeResult) : Prop :=
  conflicted x = conflicted y ∧ (conflicted x = false → same (value x) (value y)).

Lemma agree_sym x y : agree x y → agree y x.
Proof. intros [E H]. split; [done|]. intros. symmetry. apply H. congruence. Qed.

Lemma merge_symmetric_head l b r : plain l = true → plain b = true → plain r = true →
  agree (merge b l r) (merge b r l) ∨
  jsonEqual l b = false ∧ jsonEqual r b = false ∧ jsonEqual l r = false ∧ isRecord l = true ∧ isRecord r = true.
Proof.
  intros Pl Pb Pr. pose proof (jsonEqual_comm l r Pl Pr) as C.
  destruct (merge_head l b r) as [[E H]|[(E1 & E2 & H)|[(E1 & E2 & E3 & E4 & H)|?]]]; [left|left|left|by right];
    rewrite H; unfold agree; simpl;
    destruct (merge_head r b l) as [[F G]|[(F1 & F2 & G)|[(F1 & F2 & F3 & F4 & G)|(F1 & F2 & F3 & F4 & F5)]]];
    rewrite ?G; simpl; try destruct E2 as [E2|E2]; try destruct F2 as [F2|F2];
    try destruct E4 as [E4|E4]; try destruct F4 as [F4|F4]; try congruence;
    (split; [done|]); intros ?; try discriminate; try reflexivity;
    repeat match goal with H : jsonEqual _ _ = true |- _ => apply jsonEqual_same in H; [|done..] end;
    try done; eauto using same_trans, same_sym.
Qed.

Lemma merge_symmetric_lemma l : ∀ b r, plain l = true → plain b = true → plain r = true →
  agree (merge b l r) (merge b r l).
Proof.
  induction l as [|?|?|?|xs _|p fs IH|?] using json_ind'; intros base r Pl Pb Pr; rename base into b0.
  1-5, 7: by destruct (merge_symmetric_head _ b0 r Pl Pb Pr) as [?|(_ & _ & _ & ? & _)].
  destruct (merge_symmetric_head _ b0 r Pl Pb Pr) as [?|(E1 & E2 & E3 & _ & E5)]; [done|].
  destruct r as [| | | | |q gs|]; try done.
  pose proof (jsonEqual_comm _ _ Pl Pr) as C. rewrite E3 in C. symmetry in C.
  destruct (merge_object p fs b0 (JObject q gs) Pl Pb Pr E1 E2 E3 eq_refl) as (m1 & V1 & _ & G1 & C1).
  destruct (merge_object q gs b0 (JObject p fs) Pr Pb Pl E2 E1 C eq_refl) as (m2 & V2 & _ & G2 & C2).
  assert (∀ k, let x := mergeAt (jm_get k (fieldsOf b0)) (jm_get k fs) (jm_get k gs) in
               let y := mergeAt (jm_get k (fieldsOf b0)) (jm_get k gs) (jm_get k fs) in
               x.2 = y.2 ∧ (x.2 = false → option_Forall2 same x.1 y.1)) as Hk.
  { intros k. simpl. apply mergeAt_symmetric.
    - intros v Hv w b' Hw Hb'.
      apply (Forall_get (P := λ l, ∀ b r, plain l = true → plain b = true → plain r = true →
               agree (merge b l r) (merge b r l)) k v IH Hv).
      + exact (plain_get p fs k v Pl Hv).
      + destruct Hb' as [->|Hb']; [done|]. exact (proj2 (fieldsOf_key b0 k b' Pb Hb')).
      + exact (plain_get q gs k w Pr Hw).
    - intros v Hv. exact (plain_get p fs k v Pl Hv).
    - intros v Hv. exact (plain_get q gs k v Pr Hv).
    - intros v Hv. exact (proj2 (fieldsOf_key b0 k v Pb Hv)). }
  split.
  - apply eq_true_iff_eq. rewrite C1, C2. split; intros [k Hc]; exists k; pose proof (proj1 (Hk k)) as E;
      simpl in *; congruence.
  - intros Hf. rewrite V1, V2. constructor. intros k. rewrite G1, G2. apply (Hk k).
    apply not_true_iff_false. intros Ht. rewrite (proj2 C1) in Hf by eauto. done.
Qed.

(** ** Containment *)

(** [ys] is a subsequence of [xs], up to key order. *)
Inductive subseq : list JsonValue → list JsonValue → Prop :=
  | subseq_nil xs : subseq xs []
  | subseq_skip x xs ys : subseq xs ys → subseq (x :: xs) ys
  | subseq_take x y xs ys : same x y → subseq xs ys → subseq (x :: xs) (y :: ys).

Inductive contains : JsonValue → JsonValue → Prop :=
  | contains_same v w : same v w → contains v w
  | contains_array xs ys : subseq xs ys → contains (JArray xs) (JArray ys)
  | contains_object p q fs gs :
      (∀ k w, jm_get k gs = Some w → ∃ v, jm_get k fs = Some v ∧ contains v w) →
      contains (JObject p fs) (JObject q gs).

#[export] Hint Constructors subseq contains : json.

Lemma subseq_tail x xs y ys : subseq (x :: xs) (y :: ys) → subseq xs ys.
Proof.
  revert x. induction xs as [|x' xs IH]; intros x H.
  - inversion H as [|? ? ? H'|? ? ? ? ? H']; subst; [inversion H'|done].
  - inversion H as [|? ? ? H'|? ? ? ? ? H']; subst; [|done]. apply subseq_skip. by eapply IH.
Qed.

(** Taking the first match is never worse: the greedy scan decides [subseq]. *)
Lemma subsequence_spec ys xs : Forall (λ v, plain v = true) xs → Forall (λ v, plain v = true) ys →
  ∀ i, (i ≤ length ys)%nat → (subsequence i xs ys =? length ys)%nat = true ↔ subseq xs (drop i ys).
Proof.
  intros Px Py. induction Px as [|x xs Hx Px IH]; intros i Hi; simpl.
  - rewrite Nat.eqb_eq. split; [intros ->; rewrite drop_ge by lia; constructor|].
    intros H. assert (drop i ys = []) as E by (by inversion H).
    apply (f_equal length) in E. rewrite length_drop in E. simpl in E. lia.
  - destruct (Nat.eqb_spec i (length ys)) as [->|Hne].
    { rewrite Nat.eqb_refl, drop_ge by lia. split; [constructor|done]. }
    destruct (lookup_lt_is_Some_2 ys i) as [y Hy]; [lia|]. rewrite Hy.
    pose proof (proj1 (Forall_forall _ _) Py y (list_elem_of_lookup_2 _ _ _ Hy)) as Hpy.
    rewrite (drop_S ys y i Hy). destruct (jsonEqual x y) eqn:E.
    + apply jsonEqual_same in E; [|done..]. rewrite IH by lia. split; [by constructor|apply subseq_tail].
    + apply jsonEqual_false in E; [|done..]. rewrite IH by lia. rewrite (drop_S ys y i Hy).
      split; [by constructor|]. by inversion 1.
Qed.

Lemma contains_array_spec xs ys : plain (JArray xs) = true → plain (JArray ys) = true →
  jsonContains (JArray xs) (JArray ys) = true ↔ jsonEqual (JArray xs) (JArray ys) = true ∨ subseq xs ys.
Proof.
  intros Px Py. rewrite plain_array in Px, Py. cbn [jsonContains]. rewrite orb_true_iff.
  by rewrite (subsequence_spec ys xs Px Py 0) by lia.
Qed.

Lemma jsonContains_object p q fs gs :
  jsonContains (JObject p fs) (JObject q gs) =
  jsonEqual (JObject p fs) (JObject q gs) ||
  forallb (λ g, match jget g.1 p fs with Some v => jsonContains v g.2 | None => false end) gs.
Proof. cbn [jsonContains]. f_equal. induction gs as [|[k w] gs IH]; simpl; [done|]. by rewrite IH. Qed.

Lemma jsonContains_contains w : ∀ v, plain v = true → plain w = true → jsonContains v w = true ↔ contains v w.
Proof.
  induction w as [| | | |ys _|q gs IH|] using json_ind'; intros v Pv Pw.
  1-4, 7: (assert (∀ u, jsonContains v u = jsonEqual v u || false → True) by done; 
    cbn [jsonContains]; split;
    [ rewrite orb_true_iff, jsonEqual_same by done; intros [?|?]; [by constructor|by destruct v]
    | inversion 1; subst; rewrite (proj2 (jsonEqual_same _ _ Pv Pw)) by done; done ]).
  - destruct v as [| | | |xs| |]; try (cbn [jsonContains]; rewrite orb_false_r, jsonEqual_same by done;
      split; [by constructor|by inversion 1]).
    rewrite contains_array_spec, jsonEqual_same by done. split; [intros []; by constructor|].
    inversion 1; subst; auto.
  - destruct v as [| | | | |p fs|]; try (cbn [jsonContains]; rewrite orb_false_r, jsonEqual_same by done;
      split; [by constructor|by inversion 1]).
    rewrite jsonContains_object, orb_true_iff, jsonEqual_same, forallb_forall by done.
    assert ((∀ g, In g gs → match jget g.1 p fs with Some v => jsonContains v g.2 | None => false end = true) ↔
            ∀ k w, jm_get k gs = Some w → ∃ v, jm_get k fs = Some v ∧ contains v w) as ->.
    { split.
      - intros H k w Hw. specialize (H (k, w)). simpl in H.
        rewrite jget_own in H by (exact (plain_key q gs k w Pw Hw)).
        pose proof (H (proj1 (list_elem_of_In _ _) (jm_get_in _ _ _ Hw))) as H'.
        destruct (jm_get k fs) as [v|] eqn:Ev; [|done]. exists v. split; [done|].
        apply (Forall_get (P := λ w, ∀ v, plain v = true → plain w = true → jsonContains v w = true ↔ contains v w) k w IH Hw);
          [exact (plain_get p fs k v Pv Ev)|exact (plain_get q gs k w Pw Hw)|done].
      - intros H [k w] Hin%list_elem_of_In. simpl.
        assert (jm_get k gs = Some w) as Hw by (apply jm_in_get; [by apply (plain_object q gs)|done]).
        rewrite jget_own by (exact (plain_key q gs k w Pw Hw)). destruct (H k w Hw) as (v & Ev & Hc). rewrite Ev.
        apply (Forall_get (P := λ w, ∀ v, plain v = true → plain w = true → jsonContains v w = true ↔ contains v w) k w IH Hw);
          [exact (plain_get p fs k v Pv Ev)|exact (plain_get q gs k w Pw Hw)|done]. }
    split; [intros []; by constructor|]. inversion 1; subst; auto.
Qed.

Lemma subseq_same xs ys zs : Forall2 same xs ys → subseq ys zs → subseq xs zs.
Proof.
  intros H. revert zs. induction H as [|x y xs ys Hxy H IH]; intros zs Hs; [done|].
  inversion Hs; subst; eauto using subseq_nil, subseq_skip. apply subseq_take; [by etransitivity|auto].
Qed.

Lemma subseq_refl xs ys : Forall2 same xs ys → subseq xs ys.
Proof. induction 1; auto with json. Qed.

Lemma subseq_trans xs ys zs : subseq xs ys → subseq ys zs → subseq xs zs.
Proof.
  intros H. revert zs. induction H as [xs|x xs ys H IH|x y xs ys Hxy H IH]; intros zs Hs.
  - inversion Hs. constructor.
  - apply subseq_skip. auto.
  - inversion Hs; subst; [constructor|apply subseq_skip; auto|apply subseq_take; [by etransitivity|auto]].
Qed.

Lemma subseq_length xs ys : subseq xs ys → (length ys ≤ length xs)%nat.
Proof. induction 1; simpl; lia. Qed.

Lemma subseq_full xs ys : subseq xs ys → (length xs ≤ length ys)%nat → Forall2 same xs ys.
Proof.
  induction 1 as [xs|x xs ys H IH|x y xs ys Hxy H IH]; simpl; intros Hl.
  - destruct xs; [constructor|simpl in Hl; lia].
  - apply subseq_length in H. lia.
  - constructor; [done|apply IH; lia].
Qed.

Lemma contains_array_inv u ys : contains u (JArray ys) → ∃ xs, u = JArray xs ∧ subseq xs ys.
Proof.
  inversion 1 as [? ? Hs|xs ? Hs|]; subst; [|by eauto]. inversion Hs; subst. eauto using subseq_refl.
Qed.

Lemma contains_object_inv u q gs : contains u (JObject q gs) →
  ∃ p fs, u = JObject p fs ∧ ∀ k w, jm_get k gs = Some w → ∃ v, jm_get k fs = Some v ∧ contains v w.
Proof.
  inversion 1 as [? ? Hs| |p ? fs ? Hs]; subst; [|by eauto].
  inversion Hs as [| | | | | |p ? fs ? Hf]; subst. exists p, fs. split; [done|]. intros k w Hw.
  specialize (Hf k). rewrite Hw in Hf. inversion Hf; subst. eauto using contains_same.
Qed.

Lemma contains_scalar_inv u w : (∀ ys, w ≠ JArray ys) → (∀ q gs, w ≠ JObject q gs) → contains u w → same u w.
Proof. intros Ha Ho. by inversion 1; subst; [|edestruct Ha|edestruct Ho]. Qed.

Lemma contains_trans w : ∀ u v, contains u v → contains v w → contains u w.
Proof.
  induction w as [| | | |zs _|r hs IH|] using json_ind'; intros u v Huv Hvw.
  1-4, 7: apply contains_scalar_inv in Hvw; [|done..]; inversion Hvw; subst;
    apply contains_scalar_inv in Huv; [|done..]; by apply contains_same.
  - destruct (contains_array_inv _ _ Hvw) as (ys & -> & Hs).
    destruct (contains_array_inv _ _ Huv) as (xs & -> & Hs'). apply contains_array. by eapply subseq_trans.
  - destruct (contains_object_inv _ _ _ Hvw) as (q & gs & -> & Hg).
    destruct (contains_object_inv _ _ _ Huv) as (p & fs & -> & Hf). apply contains_object. intros k w Hw.
    destruct (Hg k w Hw) as (v & Hv & Hc). destruct (Hf k v Hv) as (u & Hu & Hc').
    exists u. split; [done|].
    exact (Forall_get (P := λ w, ∀ u v, contains u v → contains v w → contains u w) k w IH Hw u v Hc' Hc).
Qed.

Lemma contains_antisym w : ∀ v, contains v w → contains w v → same v w.
Proof.
  induction w as [| | | |ys _|q gs IH|] using json_ind'; intros v Hvw Hwv.
  1-4, 7: by apply contains_scalar_inv in Hvw.
  - destruct (contains_array_inv _ _ Hvw) as (xs & -> & Hs).
    destruct (contains_array_inv _ _ Hwv) as (? & [= <-] & Hs'). constructor.
    apply subseq_full; [done|]. by apply subseq_length.
  - destruct (contains_object_inv _ _ _ Hvw) as (p & fs & -> & Hf).
    destruct (contains_object_inv _ _ _ Hwv) as (? & ? & [= <- <-] & Hg). constructor. intros k.
    destruct (jm_get k gs) as [w|] eqn:Ew.
    + destruct (Hf k w Ew) as (v & Hv & Hc). destruct (Hg k v Hv) as (w' & Hw' & Hc').
      rewrite Hv. constructor. assert (w' = w) as -> by congruence.
      exact (Forall_get (P := λ w, ∀ v, contains v w → contains w v → same v w) k w IH Ew v Hc Hc').
    + destruct (jm_get k fs) as [v|] eqn:Ev; [|constructor].
      destruct (Hg k v Ev) as (w & ? & _). congruence.
Qed.

(** ** One-sided changes *)

Lemma mergeAt_local_unchanged b l r : option_Forall2 same l b →
  (∀ v, l = Some v → plain v = true) → (∀ v, b = Some v → plain v = true) → (∀ v, r = Some v → plain v = true) →
  option_Forall2 same (mergeAt b l r).1 r.
Proof.
  intros Hs Pl Pb Pr. unfold mergeAt, mergeKey.
  destruct Hs as [l b Hs|]; simpl.
  - specialize (Pl _ eq_refl). specialize (Pb _ eq_refl).
    assert (jsonEqual l b = true) as E by (by apply jsonEqual_same).
    destruct r as [r|]; simpl; [|by rewrite E; constructor].
    destruct (merge_head l b r) as [[_ ->]|[[? _]|[[? _]|[? _]]]]; simpl; try congruence. by constructor.
  - destruct r; simpl; constructor. reflexivity.
Qed.

Lemma mergeAt_remote_unchanged b l r : option_Forall2 same r b →
  (∀ v, l = Some v → plain v = true) → (∀ v, b = Some v → plain v = true) → (∀ v, r = Some v → plain v = true) →
  option_Forall2 same (mergeAt b l r).1 l.
Proof.
  intros Hs Pl Pb Pr. unfold mergeAt, mergeKey.
  destruct Hs as [r b Hs|]; simpl.
  - specialize (Pr _ eq_refl). specialize (Pb _ eq_refl).
    assert (jsonEqual r b = true) as E by (by apply jsonEqual_same).
    destruct l as [l|]; simpl; [|by rewrite E; constructor]. specialize (Pl _ eq_refl).
    destruct (merge_head l b r) as [[E' ->]|[(_ & _ & ->)|[(_ & ? & _)|(_ & ? & _)]]]; simpl; try congruence;
      constructor; [|reflexivity].
    apply jsonEqual_same in E'; [|done..]. transitivity b; [done|by symmetry].
  - destruct l; simpl; constructor. reflexivity.
Qed.

Lemma mergeAt_conflict_real b l r : (mergeAt b l r).2 = true →
  (∀ v, l = Some v → plain v = true) → (∀ v, b = Some v → plain v = true) → (∀ v, r = Some v → plain v = true) →
  ¬ option_Forall2 same l b ∧ ¬ option_Forall2 same r b ∧ ¬ option_Forall2 same l r.
Proof.
  unfold mergeAt, mergeKey. intros Hc Pl Pb Pr.
  assert (∀ b l r, plain l = true → plain b = true → plain r = true → conflicted (merge b l r) = true →
            ¬ same l b ∧ ¬ same r b ∧ ¬ same l r) as Hm.
  { clear. intros b l r Pl Pb Pr Hc.
    destruct (merge_head l b r) as [[_ H]|[(_ & _ & H)|[(E1 & E2 & E3 & _)|(E1 & E2 & E3 & _)]]];
      try (rewrite H in Hc; discriminate); by rewrite <- !jsonEqual_false. }
  destruct l as [l|], r as [r|], b as [b|]; simpl in Hc; try discriminate;
    try specialize (Pl _ eq_refl); try specialize (Pr _ eq_refl); try specialize (Pb _ eq_refl).
  - destruct (Hm b l r Pl Pb Pr Hc) as (? & ? & ?). split_and!; by inversion 1.
  - destruct (isRecord l && isRecord r); simpl in Hc.
    + destruct (Hm (JObject ObjectPrototype []) l r Pl eq_refl Pr Hc) as (_ & _ & ?). split_and!; by inversion 1.
    + apply negb_true_iff, jsonEqual_false in Hc; [|done..]. split_and!; by inversion 1.
  - destruct (jsonEqual l b) eqn:E; [done|]. apply jsonEqual_false in E; [|done..]. split_and!; by inversion 1.
  - destruct (jsonEqual r b) eqn:E; [done|]. apply jsonEqual_false in E; [|done..]. split_and!; by inversion 1.
Qed.

(** ** The properties *)

(** on values parsed from JSON, [jsonEqual] answers true exactly for
    values equal up to the order of object keys, an equivalence relation. *)
Theorem jsonEqual_decides v w :
  plain v = true → plain w = true →
  (jsonEqual v w = true ↔ same v w) ∧ jsonEqual v v = true ∧ jsonEqual v w = jsonEqual w v ∧
  ∀ u, plain u = true → jsonEqual v w = true → jsonEqual w u = true → jsonEqual v u = true.
Proof.
  intros Pv Pw. split_and!; [by apply jsonEqual_same|by apply jsonEqual_refl|by apply jsonEqual_comm|].
  intros u Pu. rewrite !jsonEqual_same by done. apply same_trans.
Qed.

(** [jsonContains] is a partial order up to key order, and on arrays its
    greedy scan finds a subsequence whenever there is one. *)
Theorem jsonContains_order u v w :
  plain u = true → plain v = true → plain w = true →
  jsonContains u u = true ∧
  (jsonContains u v = true → jsonContains v w = true → jsonContains u w = true) ∧
  (jsonContains u v = true → jsonContains v u = true → jsonEqual u v = true) ∧
  (∀ xs ys, u = JArray xs → v = JArray ys → jsonContains u v = true ↔ subseq xs ys).
Proof.
  intros Pu Pv Pw. rewrite !jsonContains_contains, jsonEqual_same by done. split_and!.
  - by apply contains_same.
  - apply contains_trans.
  - intros. by apply contains_antisym.
  - intros xs ys -> ->. rewrite jsonContains_contains by done. split; [|by constructor].
    intros (? & [= <-] & ?)%contains_array_inv. done.
Qed.

(** merging is symmetric: swapping the local and the remote side
    reports a conflict in exactly the same cases, and without a conflict gives
    the same document. *)
Theorem merge_symmetric baseline local remote :
  plain baseline = true → plain local = true → plain remote = true →
  conflicted (mergeStructuredStartupResult local baseline remote) =
    conflicted (mergeStructuredStartupResult remote baseline local) ∧
  (conflicted (mergeStructuredStartupResult local baseline remote) = false →
   same (mergeStructuredStartup baseline local remote) (mergeStructuredStartup baseline remote local)).
Proof. intros. by apply merge_symmetric_lemma. Qed.


(** ** Examples *)

Module Sample.
#[local] Notation obj := (JObject ObjectPrototype).
Definition one : JsonValue := JNumber 1%Qc.
Definition two : JsonValue := JNumber 2%Qc.
Definition base : JsonValue := obj [("a", one); ("b", one); ("d", one)]%string.
Definition left : JsonValue := obj [("b", one); ("a", two); ("d", one); ("c", two)]%string.
Definition right : JsonValue := obj [("a", one); ("b", two)]%string.

Example merged_example :
  value (mergeStructuredStartupResult left base right) =
  JObject NoPrototype [("a", two); ("b", two); ("c", two)]%string.
Proof. vm_compute. reflexivity. Qed.

(** A deleted key whose name every object inherits comes back as the inherited
    function: [key in local] is true for it though [local] lost the key. *)
Theorem deleted_inherited_key_comes_back :
  mergeStructuredStartup
    (obj [("constructor", one)]%string) (obj []) (obj [("constructor", one); ("x", two)]%string) =
  JObject NoPrototype [("constructor", JBuiltin "constructor"); ("x", two)]%string.
Proof. vm_compute. reflexivity. Qed.

Lemma jsonEqual_decides_witness :
  jsonEqual left left = true ∧ (jsonEqual left base = true ↔ same left base).
Proof.
  split; [|apply (jsonEqual_decides left base); vm_compute; reflexivity].
  exact (proj1 (proj2 (jsonEqual_decides left base eq_refl eq_refl))).
Defined.

Lemma jsonContains_order_witness : jsonContains (JArray [one; two; one]) (JArray [one; one]) = true.
Proof.
  apply (proj2 (proj2 (proj2 (jsonContains_order (JArray [one; two; one]) (JArray [one; one]) JNull
    eq_refl eq_refl eq_refl))) _ _ eq_refl eq_refl).
  apply subseq_take; [constructor|]. apply subseq_skip. apply subseq_take; [constructor|constructor].
Defined.

Lemma merge_symmetric_witness :
  conflicted (mergeStructuredStartupResult left base right) = false ∧
  same (mergeStructuredStartup base left right) (mergeStructuredStartup base right left).
Proof.
  split; [vm_compute; reflexivity|].
  apply (merge_symmetric base left right); vm_compute; reflexivity.
Defined.

End Sample.
