(* ===== verification/Caps.v ===== *)
(** [src/caps.ts] and [src/httpError.ts]: the capability contract a server must
    advertise before the plugin talks to it. *)
From Stdlib Require Import String.
From S2P Require Import Prelude JsMap Json.
#[local] Open Scope Z_scope.

Inductive CapName := restApi | oauth | pluginDbSync | attachmentShim | documentEpoch | documentInvalidation.

#[export] Instance CapName_eq_dec : EqDecision CapName.
Proof. solve_decision. Defined.

Definition cap_name (c : CapName) : string :=
  match c with
  | restApi => "restApi" | oauth => "oauth" | pluginDbSync => "pluginDbSync"
  | attachmentShim => "attachmentShim" | documentEpoch => "documentEpoch"
  | documentInvalidation => "documentInvalidation"
  end%string.

Definition CAP_NAMES : list CapName :=
  [restApi; oauth; pluginDbSync; attachmentShim; documentEpoch; documentInvalidation].

Definition SYNC_FORMAT : string := "crsqlite-1"%string.

Definition REQUIRED_CAPS (c : CapName) : list string :=
  match c with
  | restApi => ["3"] | oauth => ["1"] | pluginDbSync => [SYNC_FORMAT]
  | attachmentShim => ["https://realtime.md/attachment-shim/v1"]
  | documentEpoch => ["1"] | documentInvalidation => ["1"]
  end%string.

Definition MANDATORY_CAPS : list CapName :=
  [restApi; oauth; pluginDbSync; attachmentShim; documentEpoch].

(** A value out of a parsed response; [None] is [undefined]. *)
Definition unknown : Type := option JsonValue.

(** [caps as Record<string, unknown>] once it is known to be a plain object *)
Definition capsObject (caps : unknown) : option (list (string * JsonValue)) :=
  match caps with
  | Some (JObject _ fs) => Some fs
  | _ => None
  end.

(** Parsed objects inherit from [Object.prototype]. *)
Definition capAt (name : string) (capsMap : list (string * JsonValue)) : option JsonValue :=
  jget name ObjectPrototype capsMap.

Definition accepts (name : CapName) (advertised : JsonValue) : bool :=
  match advertised with
  | JString s => bool_decide (s ∈ REQUIRED_CAPS name)
  | _ => false
  end.

Definition serverSupportsCapability (caps : unknown) (name : CapName) : bool :=
  match capsObject caps with
  | None => false
  | Some capsMap => match capAt (cap_name name) capsMap with Some v => accepts name v | None => false end
  end.

(** The messages of the results, their text left out. *)
Inductive CapsDetail :=
  | DidNotAdvertise
  | MissingCap (name : CapName)
  | NonStringCap (name : CapName)
  | CapMismatch (name : CapName) (advertised : string)
  | UnknownRequired (name : string)
  | UnsupportedRequired (name : CapName).

Inductive CompatReason := ServerIncompatible | ClientTooOld.

Inductive CompatibilityResult :=
  | Compatible
  | Incompatible (reason : CompatReason) (detail : CapsDetail).

Definition checkMandatory (capsMap : list (string * JsonValue)) (name : CapName)
    : option CompatibilityResult :=
  match capAt (cap_name name) capsMap with
  | None => Some (Incompatible ServerIncompatible (MissingCap name))
  | Some (JString advertised) =>
    if bool_decide (advertised ∈ REQUIRED_CAPS name) then None
    else Some (Incompatible ServerIncompatible (CapMismatch name advertised))
  | Some _ => Some (Incompatible ServerIncompatible (NonStringCap name))
  end.

Definition capNamed (s : string) : option CapName :=
  list_find (λ c, cap_name c = s) CAP_NAMES ≫= λ p, Some p.2.

Definition checkRequired (capsMap : list (string * JsonValue)) (name : JsonValue)
    : option CompatibilityResult :=
  match name with
  | JString s =>
    match capNamed s with
    | None => Some (Incompatible ClientTooOld (UnknownRequired s))
    | Some capName =>
      if serverSupportsCapability (Some (JObject ObjectPrototype capsMap)) capName then None
      else Some (Incompatible ServerIncompatible (UnsupportedRequired capName))
    end
  | _ => None
  end.

(** A [for] loop that returns at the first blocked element. *)
Fixpoint firstBlock {A} (f : A → option CompatibilityResult) (l : list A) : option CompatibilityResult :=
  match l with
  | [] => None
  | x :: l' => match f x with Some r => Some r | None => firstBlock f l' end
  end.

Definition checkServerCaps (caps requiredCaps : unknown) : CompatibilityResult :=
  match capsObject caps with
  | None => Incompatible ServerIncompatible DidNotAdvertise
  | Some capsMap =>
    match firstBlock (checkMandatory capsMap) MANDATORY_CAPS with
    | Some r => r
    | None =>
      match requiredCaps with
      | Some (JArray names) => default Compatible (firstBlock (checkRequired capsMap) names)
      | _ => Compatible
      end
    end
  end.

(** [httpError.ts] *)
Definition isServerUnavailableStatus (status : Z) : bool :=
  (status =? 408) || (status =? 429) || (status =? 502) || (status =? 503) || (status =? 504).

(** ** Facts *)

Lemma firstBlock_none {A} (f : A → option CompatibilityResult) l :
  firstBlock f l = None ↔ ∀ x, x ∈ l → f x = None.
Proof.
  induction l as [|x l IH]; simpl; [split; [by intros _ ? ?%elem_of_nil|done]|].
  destruct (f x) eqn:E.
  - split; [done|]. intros H. specialize (H x). rewrite E in H. apply H. left.
  - rewrite IH. split; [intros H y [->|?]%elem_of_cons; auto|]. intros H y Hy. apply H. by right.
Qed.

Lemma firstBlock_some {A} (f : A → option CompatibilityResult) l r :
  firstBlock f l = Some r → ∃ x, x ∈ l ∧ f x = Some r.
Proof.
  induction l as [|x l IH]; simpl; [done|]. destruct (f x) eqn:E; intros; simplify_eq.
  - exists x. split; [left|done].
  - destruct IH as (y & ? & ?); [done|]. exists y. split; [by right|done].
Qed.

Lemma firstBlock_ext {A} (f g : A → option CompatibilityResult) l :
  (∀ x, x ∈ l → f x = g x) → firstBlock f l = firstBlock g l.
Proof.
  induction l as [|x l IH]; simpl; [done|]. intros H.
  rewrite (H x), IH by (try left; intros; apply H; by right). done.
Qed.

Lemma capNamed_spec s c : capNamed s = Some c ↔ cap_name c = s.
Proof.
  split.
  - unfold capNamed. rewrite bind_Some. intros ([i c'] & (_ & ? & _)%list_find_Some & [= <-]). done.
  - intros <-. by destruct c.
Qed.

Lemma checkMandatory_none capsMap c :
  checkMandatory capsMap c = None ↔ serverSupportsCapability (Some (JObject ObjectPrototype capsMap)) c = true.
Proof.
  unfold checkMandatory, serverSupportsCapability, accepts. simpl.
  destruct (capAt (cap_name c) capsMap) as [[]|]; try done. case_bool_decide; done.
Qed.

(** A required name this client cannot satisfy. *)
Definition unknownName (v : JsonValue) : Prop := ∃ s, v = JString s ∧ ∀ c, cap_name c ≠ s.

(** a server is compatible exactly when it advertises an object whose
    mandatory capabilities, and whose own required ones, this client all knows
    in an accepted version; the client is told it is too old only when every
    mandatory capability matches and the server requires one it does not know;
    capabilities the client does not know and the server does not require
    never change the verdict. *)
Theorem checkServerCaps_correct caps requiredCaps :
  let required := match requiredCaps with Some (JArray names) => names | _ => [] end in
  (checkServerCaps caps requiredCaps = Compatible ↔
    capsObject caps ≠ None ∧
    (∀ c, c ∈ MANDATORY_CAPS → serverSupportsCapability caps c = true) ∧
    (∀ s, JString s ∈ required → ∃ c, cap_name c = s ∧ serverSupportsCapability caps c = true)) ∧
  (∀ d, checkServerCaps caps requiredCaps = Incompatible ClientTooOld d →
    (∀ c, c ∈ MANDATORY_CAPS → serverSupportsCapability caps c = true) ∧
    ∃ v, v ∈ required ∧ unknownName v) ∧
  (∀ caps', (∀ c, capsObject caps ≠ None ∧ capsObject caps' ≠ None ∧
               (capsObject caps ≫= capAt (cap_name c)) = (capsObject caps' ≫= capAt (cap_name c))) →
    checkServerCaps caps' requiredCaps = checkServerCaps caps requiredCaps).
Proof.
  cbv zeta. unfold checkServerCaps.
  assert (∀ caps c, serverSupportsCapability caps c =
            match capsObject caps with Some m => serverSupportsCapability (Some (JObject ObjectPrototype m)) c | None => false end)
    as Hs by (intros [[]|] c; done).
  destruct (capsObject caps) as [m|] eqn:Ec.
  2: { split; [split; [done|by intros []]|]. split; [done|]. intros caps' H. by destruct (H restApi). }
  setoid_rewrite (Hs caps). rewrite Ec.
  split; [|split].
  - transitivity (firstBlock (checkMandatory m) MANDATORY_CAPS = None ∧
      firstBlock (checkRequired m) (match requiredCaps with Some (JArray names) => names | _ => [] end) = None).
    + destruct (firstBlock (checkMandatory m) MANDATORY_CAPS) as [r|] eqn:Em.
      * split; [|by intros []]. intros ->. exfalso. apply firstBlock_some in Em as (c & _ & H).
        unfold checkMandatory in H. repeat split_match_in H.
      * assert (∀ names, default Compatible (firstBlock (checkRequired m) names) = Compatible ↔
                         firstBlock (checkRequired m) names = None) as Hd.
        { intros names. destruct (firstBlock (checkRequired m) names) as [r|] eqn:Er; simpl; [|done].
          split; [|done]. intros ->. exfalso. apply firstBlock_some in Er as (v & _ & H).
          unfold checkRequired in H. repeat split_match_in H. }
        destruct requiredCaps as [[]|]; simpl; rewrite ?Hd; tauto.
    + rewrite !firstBlock_none. setoid_rewrite checkMandatory_none.
      split; intros (H1 & H2); [split_and!; [done|done|]|destruct H2 as [H2 H3]; split; [done|]].
      * intros s Hin. specialize (H2 _ Hin). simpl in H2. destruct (capNamed s) as [c|] eqn:En; [|done].
        apply capNamed_spec in En. exists c. split; [done|]. by destruct (serverSupportsCapability _ c).
      * intros [] Hin; try done. destruct (H3 _ Hin) as (c & Hn & Hc). simpl.
        apply capNamed_spec in Hn. by rewrite Hn, Hc.
  - intros d H. destruct (firstBlock (checkMandatory m) MANDATORY_CAPS) as [r|] eqn:Em.
    { exfalso. subst r. apply firstBlock_some in Em as (c & _ & H). unfold checkMandatory in H. repeat split_match_in H. }
    split; [intros c Hc; apply checkMandatory_none; by eapply firstBlock_none|].
    destruct requiredCaps as [[| | | |names| |]|]; try done.
    destruct (firstBlock (checkRequired m) names) as [r|] eqn:Er; simpl in H; [|done]. subst r.
    apply firstBlock_some in Er as (v & Hv & Hr). exists v. split; [done|].
    unfold checkRequired in Hr. destruct v as [| | |s| | |]; try done. exists s. split; [done|]. intros c Hc.
    apply capNamed_spec in Hc. rewrite Hc in Hr. by split_match_in Hr.
  - intros caps' H. destruct (capsObject caps') as [m'|] eqn:Ec'; [|by destruct (H restApi) as (_ & ? & _)].
    simpl in H.
    assert (∀ c, capAt (cap_name c) m' = capAt (cap_name c) m) as Hc by (intros c; by destruct (H c) as (_ & _ & ->)).
    rewrite (firstBlock_ext (checkMandatory m') (checkMandatory m)).
    2: { intros c _. unfold checkMandatory. by rewrite Hc. }
    destruct (firstBlock (checkMandatory m) _); [done|].
    destruct requiredCaps as [[| | | |names| |]|]; try done.
    rewrite (firstBlock_ext (checkRequired m') (checkRequired m)); [done|].
    intros v _. unfold checkRequired, serverSupportsCapability. simpl.
    destruct v; try done. destruct (capNamed _); [|done]. by rewrite Hc.
Qed.
