(* ===== verification/MuxFrame.v ===== *)
(** The wire frames of [src/sync/mux.ts]: constants, encoders, [decodeFrame]. *)
From Stdlib Require Import String.
From S2P Require Import Prelude Lib0.

Definition FRAME_OPEN : Z := 1.
Definition FRAME_OPEN_OK : Z := 2.
Definition FRAME_OPEN_ERR : Z := 3.
Definition FRAME_DATA : Z := 4.
Definition FRAME_CLOSE : Z := 5.
Definition FRAME_PING : Z := 6.
Definition FRAME_PONG : Z := 7.
Definition FRAME_PART : Z := 8.
Definition FRAME_CHUNKED : Z := 9.

Definition CHUNK_BYTES : Z := 64 * 1024.
Definition MAX_MESSAGE_BYTES : Z := 64 * 1024 * 1024.

Definition OPEN_ERR_UNSPECIFIED : Z := 0.
Definition OPEN_ERR_REJECTED : Z := 1.
Definition OPEN_ERR_TOKEN : Z := 2.

Definition CONTROL_CHANNEL : Z := 0.

Inductive DecodedFrame : Type :=
  | FrameOpen (channelId : Z) (pathAndQuery : string)
  | FrameOpenOk (channelId : Z)
  | FrameOpenErr (channelId : Z) (reason : Z)
  | FrameData (channelId : Z) (payload : bytes)
  | FramePart (channelId : Z) (payload : bytes)
  | FrameClose (channelId : Z)
  | FramePing
  | FramePong
  | FrameChunked.

Section codec.
Context `{Lib0}.

Definition encodeOpen (channelId : Z) (pathAndQuery : string) : bytes :=
  writeVarUint FRAME_OPEN ++ writeVarUint channelId ++ writeVarString pathAndQuery.

(** A DATA frame, or with [final] false a PART frame that more follows. *)
Definition encodeData (channelId : Z) (payload : bytes) (final : bool) : bytes :=
  writeVarUint (if final then FRAME_DATA else FRAME_PART) ++ writeVarUint channelId ++ payload.

Definition encodeClose (channelId : Z) : bytes :=
  writeVarUint FRAME_CLOSE ++ writeVarUint channelId.

Definition encodePing : bytes := writeVarUint FRAME_PING ++ writeVarUint CONTROL_CHANNEL.
Definition encodePong : bytes := writeVarUint FRAME_PONG ++ writeVarUint CONTROL_CHANNEL.

(** The body of the [try]; [Returns None] is its [return null]. *)
Definition decodeFrame_body (buf : bytes) : throws decode_error (option DecodedFrame) :=
  '(type, dec) ← readVarUint buf;
  '(channelId, dec) ← readVarUint dec;
  if type =? FRAME_OPEN then
    '(path, _) ← readVarString dec; Returns (Some (FrameOpen channelId path))
  else if type =? FRAME_OPEN_OK then Returns (Some (FrameOpenOk channelId))
  else if type =? FRAME_OPEN_ERR then
    if hasContent dec
    then '(reason, _) ← readVarUint dec; Returns (Some (FrameOpenErr channelId reason))
    else Returns (Some (FrameOpenErr channelId OPEN_ERR_UNSPECIFIED))
  else if type =? FRAME_DATA then
    Returns (Some (FrameData channelId (readTailAsUint8Array dec)))
  else if type =? FRAME_PART then
    Returns (Some (FramePart channelId (readTailAsUint8Array dec)))
  else if type =? FRAME_CLOSE then Returns (Some (FrameClose channelId))
  else if type =? FRAME_PING then Returns (Some FramePing)
  else if type =? FRAME_PONG then Returns (Some FramePong)
  else if type =? FRAME_CHUNKED then
    Returns (if channelId =? CONTROL_CHANNEL then Some FrameChunked else None)
  else Returns None.

Definition decodeFrame (buf : bytes) : option DecodedFrame :=
  match decodeFrame_body buf with Returns f => f | Throws _ => None end.

(** Every frame of the protocol comment; the client has no encoder for the
    server's own. *)
Definition wire_frame (f : DecodedFrame) : bytes :=
  match f with
  | FrameOpen id path => encodeOpen id path
  | FrameOpenOk id => writeVarUint FRAME_OPEN_OK ++ writeVarUint id
  | FrameOpenErr id reason =>
      writeVarUint FRAME_OPEN_ERR ++ writeVarUint id ++
      (if reason =? OPEN_ERR_UNSPECIFIED then [] else writeVarUint reason)
  | FrameData id payload => encodeData id payload true
  | FramePart id payload => encodeData id payload false
  | FrameClose id => encodeClose id
  | FramePing => encodePing
  | FramePong => encodePong
  | FrameChunked => writeVarUint FRAME_CHUNKED ++ writeVarUint CONTROL_CHANNEL
  end.

(** The frames whose integers and strings the encoding can carry. *)
Definition encodable (f : DecodedFrame) : Prop :=
  let int n := 0 ≤ n ≤ max_safe_integer in
  match f with
  | FrameOpen id path => int id ∧ Z.of_nat (String.length path) ≤ max_safe_integer
  | FrameOpenErr id reason => int id ∧ int reason
  | FrameOpenOk id | FrameData id _ | FramePart id _ | FrameClose id => int id
  | FramePing | FramePong | FrameChunked => True
  end.
End codec.

Section codec_laws.
Context `{Lib0Laws}.

(** Reading a frame header back. *)
Lemma decode_header type channelId rest :
  0 ≤ type ≤ max_safe_integer → 0 ≤ channelId ≤ max_safe_integer →
  ∀ k : Z → Z → bytes → throws decode_error (option DecodedFrame),
  ('(t, dec) ← readVarUint (writeVarUint type ++ writeVarUint channelId ++ rest);
   '(c, dec) ← readVarUint dec; k t c dec) = k type channelId rest.
Proof. intros. rewrite read_write_var_uint by done. simpl. by rewrite read_write_var_uint. Qed.

Ltac header :=
  unfold decodeFrame, decodeFrame_body; rewrite decode_header; simpl;
  [|unfold max_safe_integer, CONTROL_CHANNEL, FRAME_OPEN, FRAME_OPEN_OK, FRAME_OPEN_ERR,
      FRAME_DATA, FRAME_PART, FRAME_CLOSE, FRAME_PING, FRAME_PONG, FRAME_CHUNKED in *; lia..].

(** Every frame the two sides exchange decodes to itself. *)
Lemma decode_wire_frame f : encodable f → decodeFrame (wire_frame f) = Some f.
Proof.
  intros Hf. destruct f; simpl in Hf; destruct_and?; simpl wire_frame;
    unfold encodeOpen, encodeData, encodeClose, encodePing, encodePong.
  - header. by rewrite read_write_var_string_nil.
  - rewrite <- (app_nil_r (writeVarUint channelId)). by header.
  - header. destruct (reason =? OPEN_ERR_UNSPECIFIED) eqn:E; bools.
    + rewrite has_content_nil. by subst.
    + rewrite write_var_uint_content by done. by rewrite read_write_var_uint_nil.
  - header. by rewrite read_tail.
  - header. by rewrite read_tail.
  - rewrite <- (app_nil_r (writeVarUint channelId)). by header.
  - rewrite <- (app_nil_r (writeVarUint CONTROL_CHANNEL)). by header.
  - rewrite <- (app_nil_r (writeVarUint CONTROL_CHANNEL)). by header.
  - rewrite <- (app_nil_r (writeVarUint CONTROL_CHANNEL)). by header.
Qed.

(** Distinct frames have distinct encodings. *)
Lemma wire_frame_inj f g :
  encodable f → encodable g → wire_frame f = wire_frame g → f = g.
Proof.
  intros Hf Hg E. apply decode_wire_frame in Hf, Hg. congruence.
Qed.
End codec_laws.
