(* ===== verification/Mux.v ===== *)
(** The shared-socket multiplexer of [src/sync/mux.ts]: [MuxConnection] shards,
    the connection pools, the virtual [MuxWebSocket]s and the events that drive
    them.

    Objects live in a store ([World]) under their identity, so that a callback
    that runs in the middle of an operation sees and changes the same objects.
    The client of a virtual socket (its [onopen], [onmessage], [onclose] and
    [onerror] handlers) is a parameter: it answers an event with any list of
    API calls, and those calls may deliver further events. *)
From Stdlib Require Import String.
From S2P Require Import Prelude JsMap Lib0 MuxFrame.

Definition HEARTBEAT_INTERVAL_MS : Z := 5000.
Definition HEARTBEAT_TIMEOUT_MS : Z := 12000.
Definition OPEN_RETRY_INITIAL_MS : Z := 1000.
Definition OPEN_RETRY_MAX_MS : Z := 10000.
Definition OPEN_BURST_SIZE : Z := 8.
Definition OPEN_PACE_INTERVAL_MS : Z := 100.
Definition OPEN_PACE_JITTER_MS : Z := 25.
Definition MAX_CHANNELS_PER_CONNECTION : Z := 512.
Definition CLOSE_CODE_TRANSPORT : Z := 1006.

Definition WS_CONNECTING : Z := 0.
Definition WS_OPEN : Z := 1.
Definition WS_CLOSING : Z := 2.
Definition WS_CLOSED : Z := 3.

(** ** State *)

(** The platform socket a connection holds: its identity and [readyState]. *)
Record WebSocket := mkWebSocket { wsId : nat; wsReady : Z }.

(** PART payloads of one channel awaiting the DATA frame that ends them. *)
Record Partial := mkPartial { parts : list bytes; partialBytes : Z }.

(** Timers hold the time they fire at. *)
Record MuxConnection := mkMuxConnection {
  url : string;
  ws : option WebSocket;
  channels : jsmap Z nat;
  pendingOpens : jsmap Z string;
  nextChannelId : Z;
  heartbeatTimer : option Z;
  openRetryTimer : option Z;
  openPaceTimer : option Z;
  openRetryMs : Z;
  openBlockedUntil : Z;
  openBurstRemaining : Z;
  lastActivity : Z;
  chunked : bool;
  partials : jsmap Z Partial;
}.

#[export] Instance eta_MuxConnection : Eta MuxConnection := λ k,
  mkMuxConnection (url k) (ws k) (channels k) (pendingOpens k) (nextChannelId k)
    (heartbeatTimer k) (openRetryTimer k) (openPaceTimer k) (openRetryMs k)
    (openBlockedUntil k) (openBurstRemaining k) (lastActivity k) (chunked k) (partials k).

Definition newMuxConnection (u : string) : MuxConnection :=
  {| url := u; ws := None; channels := []; pendingOpens := []; nextChannelId := 1;
     heartbeatTimer := None; openRetryTimer := None; openPaceTimer := None;
     openRetryMs := 0; openBlockedUntil := 0; openBurstRemaining := OPEN_BURST_SIZE;
     lastActivity := 0; chunked := false; partials := [] |}.

#[export] Instance MuxConnection_inhabited : Inhabited MuxConnection :=
  populate (newMuxConnection EmptyString).

(** A virtual socket: the connection and channel it was given, its state. *)
Record MuxWebSocket := mkMuxWebSocket { conn : nat; channelId : Z; readyState : Z }.

#[export] Instance eta_MuxWebSocket : Eta MuxWebSocket := λ s,
  mkMuxWebSocket (conn s) (channelId s) (readyState s).

#[export] Instance MuxWebSocket_inhabited : Inhabited MuxWebSocket :=
  populate (mkMuxWebSocket 0 0 WS_CONNECTING).

(** The module's globals and heap.  [sent] logs what went out on which real
    socket, [discarded] the real sockets that were detached and closed. *)
Record World := mkWorld {
  connectionPools : jsmap string (list nat);
  conns : gmap nat MuxConnection;
  sockets : gmap nat MuxWebSocket;
  nextConn : nat;
  nextSock : nat;
  nextWs : nat;
  now : Z;
  sent : list (nat * bytes);
  discarded : list nat;
}.

#[export] Instance eta_World : Eta World := λ w,
  mkWorld (connectionPools w) (conns w) (sockets w) (nextConn w) (nextSock w) (nextWs w)
    (now w) (sent w) (discarded w).

Definition emptyWorld (t : Z) : World := mkWorld [] ∅ ∅ 0 0 0 t [] [].

Definition getc (c : nat) (w : World) : MuxConnection := conns w !!! c.
Definition setc (c : nat) (f : MuxConnection → MuxConnection) (w : World) : World :=
  w <| conns ::= <[c := f (getc c w)]> |>.

Definition gets (s : nat) (w : World) : MuxWebSocket := sockets w !!! s.
Definition sets (s : nat) (f : MuxWebSocket → MuxWebSocket) (w : World) : World :=
  w <| sockets ::= <[s := f (gets s w)]> |>.

(** Events a virtual socket reports; an error carries the [reason] of its event. *)
Inductive SocketEvent : Type :=
  | EvOpen
  | EvMessage (data : bytes)
  | EvError (reason : option string)
  | EvClose (code : Z).

(** [SOCKET_ERROR_TOKEN_REJECTED] of [src/sync/RealtimeProvider.ts] *)
Definition SOCKET_ERROR_TOKEN_REJECTED : string := "token-rejected".

(** What the platform's [URL] gives for a socket URL. *)
Record URL := mkURL { protocol : string; host : string; pathname : string; search : string }.

Definition pathAndQuery (u : URL) : string := (pathname u +:+ search u)%string.
Definition muxUrl (u : URL) : string :=
  (protocol u +:+ "//" +:+ host u +:+ "/dmux?chunked=1")%string.

Section mux.
Context `{Lib0}.
(** [Math.floor(Math.random() * (OPEN_PACE_JITTER_MS + 1))] *)
Variable jitter : World → Z.
(** Whether the platform socket's [send] throws on this ping. *)
Variable pingThrows : World → bool.

Section operations.
(** What running a virtual socket's handler for an event does. *)
Variable dispatch : nat → SocketEvent → World → World.

(** *** Called by the connection on a virtual socket *)

Definition deliverOpen (s : nat) (w : World) : World :=
  if negb (readyState (gets s w) =? WS_CONNECTING) then w
  else dispatch s EvOpen (sets s (λ x, x <| readyState := WS_OPEN |>) w).

Definition deliverData (s : nat) (payload : bytes) (w : World) : World :=
  dispatch s (EvMessage payload) w.

Definition deliverError (s : nat) (reason : option string) (w : World) : World :=
  dispatch s (EvError reason) w.

Definition deliverClose (s : nat) (code : Z) (w : World) : World :=
  if readyState (gets s w) =? WS_CLOSED then w
  else dispatch s (EvClose code) (sets s (λ x, x <| readyState := WS_CLOSED |>) w).

(** [channel.deliverError(); channel.deliverClose(CLOSE_CODE_TRANSPORT)] *)
Definition failChannel (w : World) (s : nat) : World :=
  deliverClose s CLOSE_CODE_TRANSPORT (deliverError s None w).

(** *** The real socket *)

Definition isOpen (k : MuxConnection) : bool :=
  match ws k with Some x => wsReady x =? WS_OPEN | None => false end.

Definition isConnecting (k : MuxConnection) : bool :=
  match ws k with Some x => wsReady x =? WS_CONNECTING | None => false end.

Definition wsSend (c : nat) (buf : bytes) (w : World) : World :=
  match ws (getc c w) with
  | Some x => w <| sent ::= λ l, l ++ [(wsId x, buf)] |>
  | None => w
  end.

Definition discardSocket (x : WebSocket) (w : World) : World :=
  w <| discarded ::= λ l, l ++ [wsId x] |>.

Definition discardCurrent (x : option WebSocket) (w : World) : World :=
  match x with Some x => discardSocket x w | None => w end.

(** *** Timers *)

Definition clearOpenRetryTimer (k : MuxConnection) : MuxConnection :=
  k <| openRetryTimer := None |>.
Definition clearOpenPaceTimer (k : MuxConnection) : MuxConnection :=
  k <| openPaceTimer := None |>.
Definition stopHeartbeat (k : MuxConnection) : MuxConnection :=
  k <| heartbeatTimer := None |>.
Definition startHeartbeat (t : Z) (k : MuxConnection) : MuxConnection :=
  (stopHeartbeat k) <| heartbeatTimer := Some (t + HEARTBEAT_INTERVAL_MS) |>.

Definition scheduleOpenRetry (waitMs : Z) (c : nat) (w : World) : World :=
  match openRetryTimer (getc c w) with
  | Some _ => w
  | None => setc c (λ k, k <| openRetryTimer := Some (now w + waitMs) |>) w
  end.

Definition schedulePacedOpen (c : nat) (w : World) : World :=
  match openPaceTimer (getc c w) with
  | Some _ => w
  | None =>
    setc c (λ k, k <| openPaceTimer := Some (now w + (OPEN_PACE_INTERVAL_MS + jitter w)) |>) w
  end.

Definition backOffOpens (t : Z) (k : MuxConnection) : MuxConnection :=
  let ms := if openRetryMs k =? 0 then OPEN_RETRY_INITIAL_MS
            else Z.min (openRetryMs k * 2) OPEN_RETRY_MAX_MS in
  k <| openRetryMs := ms |> <| openBlockedUntil := t + ms |>.

Definition resetOpenBackoff (k : MuxConnection) : MuxConnection :=
  clearOpenRetryTimer (k <| openRetryMs := 0 |> <| openBlockedUntil := 0 |>).

(** *** Opening channels *)

Definition sendNextOpen (c : nat) (w : World) : World * bool :=
  if negb (isOpen (getc c w)) then (w, false)
  else match pendingOpens (getc c w) with
       | [] => (w, false)
       | (id, path) :: _ =>
         (wsSend c (encodeOpen id path)
            (setc c (λ k, k <| pendingOpens ::= jm_delete id |>) w), true)
       end.

(** [while (this.openBurstRemaining > 0 && this.sendNextOpen()) this.openBurstRemaining--] *)
Fixpoint burstLoop (fuel : nat) (c : nat) (w : World) : World :=
  match fuel with
  | O => w
  | S fuel' =>
    if 0 <? openBurstRemaining (getc c w) then
      let '(w', again) := sendNextOpen c w in
      if again then burstLoop fuel' c (setc c (λ k, k <| openBurstRemaining ::= Z.pred |>) w')
      else w'
    else w
  end.

Definition flushOpens (c : nat) (w : World) : World :=
  if negb (isOpen (getc c w)) then w
  else
    let waitMs := openBlockedUntil (getc c w) - now w in
    if 0 <? waitMs then scheduleOpenRetry waitMs c w
    else
      let w := setc c clearOpenRetryTimer w in
      match openPaceTimer (getc c w) with
      | Some _ => w
      | None =>
        let w := burstLoop (Z.to_nat (openBurstRemaining (getc c w))) c w in
        if 0 <? jm_size (pendingOpens (getc c w)) then schedulePacedOpen c w else w
      end.

(** *** Dropping the real socket *)

Definition release (c : nat) (w : World) : World :=
  let k := getc c w in
  if (0 <? jm_size (channels k)) || (0 <? jm_size (pendingOpens k)) then w
  else match jm_get (url k) (connectionPools w) with
       | None => w
       | Some pool =>
         (* [indexOf] then [splice]: the first occurrence goes *)
         let pool' := match list_find (λ d, d = c) pool with
                      | Some (i, _) => delete i pool
                      | None => pool
                      end in
         let w := w <| connectionPools ::= jm_set (url k) pool' |> in
         if zlength pool' =? 0 then w <| connectionPools ::= jm_delete (url k) |> else w
       end.

Definition teardown (c : nat) (w : World) : World :=
  let x := ws (getc c w) in
  let w := setc c (λ k, (clearOpenPaceTimer (resetOpenBackoff (stopHeartbeat k)))
                          <| partials := [] |> <| chunked := false |> <| ws := None |>) w in
  release c (discardCurrent x w).

Definition handleDown (c : nat) (w : World) : World :=
  let channels0 := jm_values (channels (getc c w)) in
  let x := ws (getc c w) in
  let w := setc c (λ k, (clearOpenPaceTimer (resetOpenBackoff (stopHeartbeat k)))
                          <| channels := [] |> <| pendingOpens := [] |> <| partials := [] |>
                          <| chunked := false |> <| ws := None |>) w in
  let w := discardCurrent x w in
  let w := foldl failChannel w channels0 in
  release c w.

Definition teardownIfIdle (c : nat) (w : World) : World :=
  let k := getc c w in
  if negb (jm_size (channels k) =? 0) || negb (jm_size (pendingOpens k) =? 0) then w
  else
    let waitMs := openBlockedUntil k - now w in
    if waitMs <=? 0 then teardown c w else scheduleOpenRetry waitMs c w.

Definition failOpenedChannels (c : nat) (w : World) : World :=
  let k := getc c w in
  let opened := filter (λ e, jm_has e.1 (pendingOpens k) = false) (channels k) in
  let w := setc c (λ k, k <| channels ::= λ m, foldl (λ m e, jm_delete e.1 m) m opened |>) w in
  foldl failChannel w (jm_values opened).

Definition ensureSocket (c : nat) (w : World) : World :=
  let closing := ws (getc c w) in
  let live := match closing with
              | Some x => (wsReady x =? WS_OPEN) || (wsReady x =? WS_CONNECTING)
              | None => false
              end in
  if live then w
  else
    let w := discardCurrent closing w in
    let x := mkWebSocket (nextWs w) WS_CONNECTING in
    let w := w <| nextWs ::= S |> in
    let w := setc c (λ k, k <| ws := Some x |> <| chunked := false |> <| partials := [] |>) w in
    match closing with Some _ => failOpenedChannels c w | None => w end.

(** *** Operations of a channel *)

Definition acquire (u : string) (w : World) : World * nat :=
  let w := match jm_get u (connectionPools w) with
           | Some _ => w
           | None => w <| connectionPools ::= jm_set u [] |>
           end in
  let pool := default [] (jm_get u (connectionPools w)) in
  match list_find (λ c, jm_size (channels (getc c w)) < MAX_CHANNELS_PER_CONNECTION) pool with
  | Some (_, c) => (w, c)
  | None =>
    let c := nextConn w in
    let w := w <| nextConn ::= S |> in
    let w := setc c (λ _, newMuxConnection u) w in
    (w <| connectionPools ::= jm_set u (pool ++ [c]) |>, c)
  end.

Definition register (s : nat) (c : nat) (w : World) : World * Z :=
  let id := nextChannelId (getc c w) in
  (setc c (λ k, k <| nextChannelId ::= Z.succ |> <| channels ::= jm_set id s |>) w, id).

Definition openChannel (id : Z) (path : string) (c : nat) (w : World) : World :=
  let w := setc c (λ k, k <| pendingOpens ::= jm_set id path |>) w in
  let w := ensureSocket c w in
  if isOpen (getc c w) then flushOpens c w else w.

(** The [for] loop of [sendData] from offset [start]. *)
Fixpoint sendChunks (fuel : nat) (id : Z) (payload : bytes) (start : Z) (c : nat) (w : World)
    : World :=
  match fuel with
  | O => w
  | S fuel' =>
    if start <? zlength payload then
      let stop := Z.min (start + CHUNK_BYTES) (zlength payload) in
      sendChunks fuel' id payload (start + CHUNK_BYTES) c
        (wsSend c (encodeData id (zslice start stop payload) (stop =? zlength payload)) w)
    else w
  end.

Definition chunkFuel (payload : bytes) : nat := Z.to_nat (zlength payload / CHUNK_BYTES + 1).

Definition sendData (id : Z) (payload : bytes) (c : nat) (w : World) : World :=
  if negb (isOpen (getc c w)) then w
  else if negb (chunked (getc c w)) || (zlength payload <=? CHUNK_BYTES)
       then wsSend c (encodeData id payload true) w
       else sendChunks (chunkFuel payload) id payload 0 c w.

Definition closeChannel (id : Z) (c : nat) (w : World) : World :=
  let w := setc c (λ k, k <| pendingOpens ::= jm_delete id |> <| channels ::= jm_delete id |>
                          <| partials ::= jm_delete id |>) w in
  let w := if isOpen (getc c w) then wsSend c (encodeClose id) w else w in
  if (jm_size (channels (getc c w)) =? 0) && (jm_size (pendingOpens (getc c w)) =? 0)
  then teardown c w else w.

(** *** [MuxWebSocket]'s own API *)

Definition newMuxWebSocket (u : URL) (w : World) : World :=
  let s := nextSock w in
  let w := w <| nextSock ::= S |> in
  let '(w, c) := acquire (muxUrl u) w in
  let '(w, id) := register s c w in
  let w := sets s (λ _, mkMuxWebSocket c id WS_CONNECTING) w in
  openChannel id (pathAndQuery u) c w.

Definition socketSend (s : nat) (data : bytes) (w : World) : World :=
  let x := gets s w in
  if negb (readyState x =? WS_OPEN) then w else sendData (channelId x) data (conn x) w.

Definition socketClose (s : nat) (w : World) : World :=
  let x := gets s w in
  if readyState x =? WS_CLOSED then w
  else closeChannel (channelId x) (conn x) (sets s (λ x, x <| readyState := WS_CLOSED |>) w).

(** *** Frames from the server *)

Definition receivePart (id : Z) (payload : bytes) (c : nat) (w : World) : World :=
  let k := getc c w in
  if negb (jm_has id (channels k)) then w
  else
    let p := default (mkPartial [] 0) (jm_get id (partials k)) in
    let p := mkPartial (parts p ++ [payload]) (partialBytes p + zlength payload) in
    if MAX_MESSAGE_BYTES <? partialBytes p then
      let w := setc c (λ k, k <| partials ::= jm_delete id |>) w in
      match jm_get id (channels k) with
      | Some s => socketClose s (deliverError s None w)
      | None => w
      end
    else setc c (λ k, k <| partials ::= jm_set id p |>) w.

Definition receiveData (id : Z) (payload : bytes) (c : nat) (w : World) : World :=
  let '(w, payload) :=
    match jm_get id (partials (getc c w)) with
    | Some p => (setc c (λ k, k <| partials ::= jm_delete id |>) w,
                 concat (parts p ++ [payload]))
    | None => (w, payload)
    end in
  match jm_get id (channels (getc c w)) with
  | Some s => deliverData s payload w
  | None => w
  end.

Definition receiveOpenOk (id : Z) (c : nat) (w : World) : World :=
  let w := if openBlockedUntil (getc c w) <=? now w
           then flushOpens c (setc c resetOpenBackoff w) else w in
  match jm_get id (channels (getc c w)) with
  | Some s => deliverOpen s w
  | None => w
  end.

Definition dropChannel (id : Z) (k : MuxConnection) : MuxConnection :=
  k <| channels ::= jm_delete id |> <| partials ::= jm_delete id |>.

Definition receiveOpenErr (id reason : Z) (c : nat) (w : World) : World :=
  let w := if (reason =? OPEN_ERR_REJECTED) || (reason =? OPEN_ERR_UNSPECIFIED)
           then setc c (backOffOpens (now w)) w else w in
  let channel := jm_get id (channels (getc c w)) in
  let w := setc c (dropChannel id) w in
  let w := match channel with
           | Some s =>
             deliverClose s CLOSE_CODE_TRANSPORT
               (deliverError s (if reason =? OPEN_ERR_TOKEN
                                then Some SOCKET_ERROR_TOKEN_REJECTED else None) w)
           | None => w
           end in
  teardownIfIdle c w.

Definition receiveClose (id : Z) (c : nat) (w : World) : World :=
  let channel := jm_get id (channels (getc c w)) in
  let w := setc c (dropChannel id) w in
  let w := match channel with Some s => deliverClose s CLOSE_CODE_TRANSPORT w | None => w end in
  teardownIfIdle c w.

Definition receive (buf : bytes) (c : nat) (w : World) : World :=
  let w := setc c (λ k, k <| lastActivity := now w |>) w in
  match decodeFrame buf with
  | None => w
  | Some FramePong | Some FramePing => w
  | Some FrameChunked => setc c (λ k, k <| chunked := true |>) w
  | Some (FramePart id payload) => receivePart id payload c w
  | Some (FrameData id payload) => receiveData id payload c w
  | Some (FrameOpenOk id) => receiveOpenOk id c w
  | Some (FrameOpenErr id reason) => receiveOpenErr id reason c w
  | Some (FrameClose id) => receiveClose id c w
  | Some (FrameOpen _ _) => w
  end.

(** *** Timer and socket callbacks *)

Definition paceTick (c : nat) (w : World) : World :=
  let w := setc c clearOpenPaceTimer w in
  if now w <? openBlockedUntil (getc c w) then flushOpens c w
  else
    let w := fst (sendNextOpen c w) in
    if 0 <? jm_size (pendingOpens (getc c w)) then schedulePacedOpen c w else w.

Definition retryTick (c : nat) (w : World) : World :=
  teardownIfIdle c (flushOpens c (setc c clearOpenRetryTimer w)).

Definition heartbeatTick (c : nat) (w : World) : World :=
  if negb (isOpen (getc c w)) then w
  else if HEARTBEAT_TIMEOUT_MS <? now w - lastActivity (getc c w) then handleDown c w
  else if pingThrows w then handleDown c w
  else wsSend c encodePing w.

(** [setInterval] fires again one period later while it stays armed. *)
Definition heartbeatFires (c : nat) (w : World) : World :=
  heartbeatTick c
    (setc c (λ k, k <| heartbeatTimer := Some (now w + HEARTBEAT_INTERVAL_MS) |>) w).

Definition wsOnOpen (c : nat) (w : World) : World :=
  flushOpens c (setc c (λ k, startHeartbeat (now w)
    (k <| lastActivity := now w |> <| openBurstRemaining := OPEN_BURST_SIZE |>)) w).

(** API calls a client makes. *)
Inductive Call : Type :=
  | CallNew (u : URL)
  | CallSend (s : nat) (data : bytes)
  | CallClose (s : nat).

Definition callSocket (w : World) (x : Call) : World :=
  match x with
  | CallNew u => newMuxWebSocket u w
  | CallSend s data => socketSend s data w
  | CallClose s => socketClose s w
  end.

(** What happens to the module from outside. *)
Inductive MuxEvent : Type :=
  | Elapse (ms : Z)                          (* time passes *)
  | WsReadyState (c id : nat) (r : Z)        (* the platform starts closing a socket *)
  | WsOnOpen (c id : nat)
  | WsOnMessage (c id : nat) (buf : bytes)
  | WsOnClose (c id : nat)
  | WsOnError (c id : nat)
  | PaceTimerFires (c : nat)
  | RetryTimerFires (c : nat)
  | HeartbeatFires (c : nat)
  | ClientCall (x : Call).

(** [this.ws === ws] for the socket the callback was attached to. *)
Definition isCurrent (c id : nat) (w : World) : bool :=
  match ws (getc c w) with Some x => Nat.eqb (wsId x) id | None => false end.

Definition due (t : option Z) (w : World) : bool :=
  match t with Some t => t <=? now w | None => false end.

Definition muxEvent (w : World) (e : MuxEvent) : World :=
  match e with
  | Elapse ms => w <| now ::= λ t, t + Z.max 0 ms |>
  | WsReadyState c id r =>
    if isCurrent c id w && ((r =? WS_CLOSING) || (r =? WS_CLOSED))
    then setc c (λ k, k <| ws := Some (mkWebSocket id r) |>) w else w
  | WsOnOpen c id =>
    (* the platform sets [readyState] and fires [open] in one task *)
    if isCurrent c id w && isConnecting (getc c w)
    then wsOnOpen c (setc c (λ k, k <| ws := Some (mkWebSocket id WS_OPEN) |>) w) else w
  | WsOnMessage c id buf => if isCurrent c id w then receive buf c w else w
  | WsOnClose c id | WsOnError c id => if isCurrent c id w then handleDown c w else w
  | PaceTimerFires c => if due (openPaceTimer (getc c w)) w then paceTick c w else w
  | RetryTimerFires c => if due (openRetryTimer (getc c w)) w then retryTick c w else w
  | HeartbeatFires c => if due (heartbeatTimer (getc c w)) w then heartbeatFires c w else w
  | ClientCall x => callSocket w x
  end.
End operations.

(** The client answers an event of one of its sockets with API calls; those
    calls run with its handlers in place, to any depth [n]. *)
Variable client : nat → SocketEvent → World → list Call.

Fixpoint handlers (n : nat) (s : nat) (e : SocketEvent) (w : World) : World :=
  match n with
  | O => w
  | S n' => foldl (callSocket (handlers n')) w (client s e w)
  end.

(** A run of the module from its load: events in order, callbacks nested up
    to [depth]. *)
Definition run (depth : nat) (t : Z) (events : list MuxEvent) : World :=
  foldl (muxEvent (handlers depth)) (emptyWorld t) events.
End mux.
