(* ===== verification/MuxFacts.v ===== *)
(** What the multiplexer of [Mux.v] guarantees: a world invariant that every
    operation and event preserves whatever the clients do in their callbacks,
    failed channels always close, and chunked payloads arrive whole. *)
From Stdlib Require Import String.
From S2P Require Import Prelude JsMap Lib0 MuxFrame Mux.

(** ** The invariant *)

Definition totalBytes (l : list bytes) : Z := zlength (concat l).

Definition partial_ok (p : Partial) : Prop :=
  partialBytes p = totalBytes (parts p) ∧ partialBytes p ≤ MAX_MESSAGE_BYTES.

Record conn_ok (k : MuxConnection) : Prop := {
  ok_channels_wf : jm_wf (channels k);
  ok_bound : jm_size (channels k) ≤ MAX_CHANNELS_PER_CONNECTION;
  ok_ids : ∀ id s, jm_get id (channels k) = Some s → id < nextChannelId k;
  ok_partials : ∀ id p, jm_get id (partials k) = Some p →
                  is_Some (jm_get id (channels k)) ∧ partial_ok p;
  ok_burst : 0 ≤ openBurstRemaining k ≤ OPEN_BURST_SIZE;
  ok_retry : openRetryMs k = 0 ∨ OPEN_RETRY_INITIAL_MS ≤ openRetryMs k ≤ OPEN_RETRY_MAX_MS;
}.

(** A connection that carries or awaits a channel. *)
Definition busy (k : MuxConnection) : Prop := channels k ≠ [] ∨ pendingOpens k ≠ [].

Record inv (w : World) : Prop := {
  inv_conn : ∀ c, conn_ok (getc c w);
  (* a busy shard stays published in its origin's pool *)
  inv_published : ∀ c, busy (getc c w) →
    ∃ pool, jm_get (url (getc c w)) (connectionPools w) = Some pool ∧ c ∈ pool;
  inv_pool : ∀ u pool, jm_get u (connectionPools w) = Some pool →
    NoDup pool ∧ pool ≠ [] ∧ ∀ c, c ∈ pool → url (getc c w) = u ∧ (c < nextConn w)%nat;
  (* a registered channel belongs to one socket, which is not closed *)
  inv_link : ∀ c id s, jm_get id (channels (getc c w)) = Some s →
    (s < nextSock w)%nat ∧ conn (gets s w) = c ∧ channelId (gets s w) = id ∧
    readyState (gets s w) ≠ WS_CLOSED;
}.

(** No connection routes frames to [s]. *)
Definition unregistered (s : nat) (w : World) : Prop :=
  ∀ c id, jm_get id (channels (getc c w)) ≠ Some s.

(** What any stretch of execution keeps of the sockets that existed before it. *)
Record evolves (w w' : World) : Prop := {
  ev_next : (nextSock w ≤ nextSock w')%nat;
  ev_closed : ∀ s, (s < nextSock w)%nat →
    readyState (gets s w) = WS_CLOSED → readyState (gets s w') = WS_CLOSED;
  ev_unregistered : ∀ s, (s < nextSock w)%nat → unregistered s w → unregistered s w';
}.

Definition good (w w' : World) : Prop := inv w' ∧ evolves w w'.
Definition safe (f : World → World) : Prop := ∀ w, inv w → good w (f w).

#[export] Instance evolves_preorder : PreOrder evolves.
Proof.
  split.
  - intros w. split; [done|done|done].
  - intros w1 w2 w3 [n1 c1 u1] [n2 c2 u2]. split; [lia| |].
    + intros s Hs Hc. apply c2; [lia|auto].
    + intros s Hs Hu. apply u2; [lia|auto].
Qed.

Lemma good_refl w : inv w → good w w.
Proof. by split. Qed.

Lemma good_trans w1 w2 w3 : good w1 w2 → good w2 w3 → good w1 w3.
Proof. intros [_ E1] [I2 E2]. split; [done|by etrans]. Qed.

Lemma good_inv w w' : good w w' → inv w'.
Proof. by intros []. Qed.

Lemma safe_then f w1 w2 : good w1 w2 → safe f → good w1 (f w2).
Proof. intros Hg Hf. eapply good_trans; [done|]. apply Hf. by eapply good_inv. Qed.

Lemma safe_foldl {B} (f : World → B → World) (l : list B) :
  (∀ b, b ∈ l → safe (λ w, f w b)) → safe (λ w, foldl f w l).
Proof.
  induction l as [|b l IH]; intros Hf w Hw; simpl; [by apply good_refl|].
  eapply good_trans; [apply Hf; [left|done]|].
  apply IH; [intros b' Hb'; apply Hf; by right|]. eapply good_inv, Hf; [left|done].
Qed.

Create HintDb mux.
#[export] Hint Resolve good_refl good_inv : mux.

(** ** Store lemmas *)

Lemma getc_setc_eq c f w : getc c (setc c f w) = f (getc c w).
Proof. unfold getc, setc. simpl. by rewrite lookup_total_insert_eq. Qed.

Lemma getc_setc_ne c d f w : d ≠ c → getc d (setc c f w) = getc d w.
Proof. intros. unfold getc, setc. simpl. by rewrite lookup_total_insert_ne. Qed.

Lemma gets_sets_eq s f w : gets s (sets s f w) = f (gets s w).
Proof. unfold gets, sets. simpl. by rewrite lookup_total_insert_eq. Qed.

Lemma gets_sets_ne s t f w : t ≠ s → gets t (sets s f w) = gets t w.
Proof. intros. unfold gets, sets. simpl. by rewrite lookup_total_insert_ne. Qed.

Lemma getc_sets c s f w : getc c (sets s f w) = getc c w.
Proof. done. Qed.

Lemma gets_setc s c f w : gets s (setc c f w) = gets s w.
Proof. done. Qed.

(** Updates of the logs, the clock and the real-socket counter. *)
Lemma good_same w w' :
  connectionPools w' = connectionPools w → conns w' = conns w → sockets w' = sockets w →
  nextConn w' = nextConn w → nextSock w' = nextSock w → inv w → good w w'.
Proof.
  intros Hp Hc Hs Hn1 Hn2 [I1 I2 I3 I4]. unfold good, getc, gets in *.
  split; split; unfold unregistered, getc, gets in *; rewrite ?Hp, ?Hc, ?Hs, ?Hn1, ?Hn2; eauto.
Qed.

(** Updates of the pools. *)
Lemma good_pools w w' pools :
  connectionPools w' = pools → conns w' = conns w → sockets w' = sockets w →
  nextConn w' = nextConn w → nextSock w' = nextSock w → inv w →
  (∀ c, busy (getc c w) → ∃ pool, jm_get (url (getc c w)) pools = Some pool ∧ c ∈ pool) →
  (∀ u pool, jm_get u pools = Some pool →
    NoDup pool ∧ pool ≠ [] ∧ ∀ c, c ∈ pool → url (getc c w) = u ∧ (c < nextConn w)%nat) →
  good w w'.
Proof.
  intros Hp Hc Hs Hn1 Hn2 [I1 I2 I3 I4] J2 J3. unfold good, getc, gets in *.
  split; split; unfold unregistered, getc, gets in *; rewrite ?Hp, ?Hc, ?Hs, ?Hn1, ?Hn2; eauto.
Qed.

(** *** Connections that only let go of things *)

Record shrinks (k k' : MuxConnection) : Prop := {
  sh_ok : conn_ok k';
  sh_url : url k' = url k;
  sh_channels : ∀ id s, jm_get id (channels k') = Some s → jm_get id (channels k) = Some s;
  sh_busy : busy k' → busy k;
}.

Lemma good_setc c f w : inv w → shrinks (getc c w) (f (getc c w)) → good w (setc c f w).
Proof.
  intros [I1 I2 I3 I4] [Hok Hurl Hch Hbusy].
  assert (Hg : ∀ d, getc d (setc c f w) = if decide (d = c) then f (getc c w) else getc d w).
  { intros d. case_decide; subst; [apply getc_setc_eq|by apply getc_setc_ne]. }
  assert (Hsub : ∀ d id s, jm_get id (channels (getc d (setc c f w))) = Some s →
                           jm_get id (channels (getc d w)) = Some s).
  { intros d id s. rewrite Hg. case_decide; subst; auto. }
  split; split.
  - intros d. rewrite Hg. by case_decide.
  - intros d. rewrite Hg. case_decide; subst; [rewrite Hurl|]; auto.
  - intros u pool Hu. destruct (I3 u pool Hu) as (Hn & Hne & Hin). split_and!; [done|done|].
    intros d Hd. rewrite Hg. case_decide; subst; [rewrite Hurl|]; auto.
  - intros d id s Hd. apply (I4 d id s). auto.
  - done.
  - done.
  - intros s _ Hu d id Hd. by apply (Hu d id), Hsub.
Qed.

Lemma jm_delete_nonempty {K V} `{EqDecision K} (k : K) (m : jsmap K V) :
  jm_delete k m ≠ [] → m ≠ [].
Proof. by destruct m. Qed.

Ltac shrink :=
  match goal with
  | Hw : inv ?w |- shrinks (getc ?c ?w) _ =>
    let k := fresh "k" in
    pose proof (inv_conn w Hw c) as []; set (k := getc c w) in *; clearbody k;
    split; [split|..]; unfold busy in *; simpl in *;
    eauto using jm_wf_delete, jm_delete_nonempty
  end.

(** *** Sockets *)

Lemma good_ready s r w :
  inv w → readyState (gets s w) ≠ WS_CLOSED → r ≠ WS_CLOSED →
  good w (sets s (λ x, x <| readyState := r |>) w).
Proof.
  intros [I1 I2 I3 I4] Hs Hr.
  split; split; try done.
  - intros c id t Ht. destruct (I4 c id t Ht) as (?&?&?&?).
    destruct (decide (t = s)) as [->|]; [rewrite gets_sets_eq|rewrite gets_sets_ne by done]; done.
  - intros t _ Ht. destruct (decide (t = s)) as [->|]; [done|by rewrite gets_sets_ne].
Qed.

Lemma good_close s w :
  inv w → unregistered s w → good w (sets s (λ x, x <| readyState := WS_CLOSED |>) w).
Proof.
  intros [I1 I2 I3 I4] Hs. split; split; try done.
  - intros c id t Ht. assert (t ≠ s) by (intros ->; by apply (Hs c id)).
    rewrite gets_sets_ne by done. eauto.
  - intros t _ Ht. destruct (decide (t = s)) as [->|];
      [by rewrite gets_sets_eq|by rewrite gets_sets_ne].
Qed.

(** A channel taken out of its connection is registered nowhere. *)
Lemma unregistered_setc c f id s w :
  inv w → shrinks (getc c w) (f (getc c w)) →
  jm_get id (channels (getc c w)) = Some s → jm_get id (channels (f (getc c w))) = None →
  unregistered s (setc c f w).
Proof.
  intros Hi [_ _ Hch _] Hid Hf d id' Hd.
  destruct (inv_link w Hi c id s Hid) as (_ & Hc & Hchan & _).
  destruct (decide (d = c)) as [->|Hdc].
  - rewrite getc_setc_eq in Hd.
    destruct (inv_link w Hi c id' s (Hch _ _ Hd)) as (_ & _ & Hchan' & _). congruence.
  - rewrite getc_setc_ne in Hd by done.
    destruct (inv_link w Hi d id' s Hd) as (_ & Hc' & _). congruence.
Qed.

Lemma jm_get_foldl_delete {K V W} `{EqDecision K} (l : list (K * W)) (m : jsmap K V) k :
  jm_get k (foldl (λ m e, jm_delete e.1 m) m l) =
  if decide (k ∈ map fst l) then None else jm_get k m.
Proof.
  revert m. induction l as [|[k1 w1] l IH]; intros m; cbn [foldl map fst].
  - case_decide as Hk; [by apply not_elem_of_nil in Hk|done].
  - rewrite IH, jm_get_delete. repeat case_decide; set_solver.
Qed.

Lemma jm_foldl_delete_size {K V W} `{EqDecision K} (l : list (K * W)) (m : jsmap K V) :
  jm_size (foldl (λ m e, jm_delete e.1 m) m l) ≤ jm_size m.
Proof.
  revert m. induction l as [|e l IH]; intros m; simpl; [done|].
  etrans; [apply IH|apply jm_size_delete_le].
Qed.

Lemma jm_foldl_delete_wf {K V W} `{EqDecision K} (l : list (K * W)) (m : jsmap K V) :
  jm_wf m → jm_wf (foldl (λ m e, jm_delete e.1 m) m l).
Proof. revert m. induction l; intros; simpl; eauto using jm_wf_delete. Qed.

Lemma size_delete_bound {V} id (m : jsmap Z V) n : jm_size m ≤ n → jm_size (jm_delete id m) ≤ n.
Proof. pose proof (jm_size_delete_le id m). lia. Qed.

Lemma get_delete_some {K V} `{EqDecision K} (k k' : K) (m : jsmap K V) v :
  jm_get k' (jm_delete k m) = Some v → jm_get k' m = Some v ∧ k' ≠ k.
Proof. rewrite jm_get_delete. by case_decide. Qed.

(** ** The operations keep the invariant *)

Section safety.
Context `{Lib0}.
Variable jitter : World → Z.
Variable dispatch : nat → SocketEvent → World → World.
Hypothesis dispatch_safe : ∀ s e, safe (dispatch s e).

Lemma wsSend_safe c buf : safe (wsSend c buf).
Proof. intros w Hw. unfold wsSend. destruct (ws _); by apply good_same || by apply good_refl. Qed.

Lemma discardCurrent_safe x : safe (discardCurrent x).
Proof. intros w Hw. destruct x; by apply good_same || by apply good_refl. Qed.

Lemma deliverOpen_safe s : safe (deliverOpen dispatch s).
Proof.
  intros w Hw. unfold deliverOpen. destruct (negb _) eqn:E; [by apply good_refl|]. bools.
  apply safe_then; [|apply dispatch_safe].
  apply good_ready; [done|rewrite E; discriminate|discriminate].
Qed.

(** A channel that is registered nowhere fails for good. *)
Lemma failChannel_good s w :
  inv w → (s < nextSock w)%nat → unregistered s w →
  good w (failChannel dispatch w s) ∧
  readyState (gets s (failChannel dispatch w s)) = WS_CLOSED.
Proof.
  intros Hw Hs Hu. unfold failChannel, deliverError, deliverClose.
  pose proof (dispatch_safe s (EvError None) w Hw) as [Hi He].
  set (w1 := dispatch _ _ w) in *. destruct (_ =? _) eqn:E; bools; [by split|].
  assert (Hu1 : unregistered s w1) by (by apply He).
  pose proof (good_close s w1 Hi Hu1) as Hg2. set (w2 := sets _ _ w1) in *.
  pose proof (dispatch_safe s (EvClose CLOSE_CODE_TRANSPORT) w2 (good_inv _ _ Hg2)) as Hg3.
  split.
  - eapply good_trans; [by split|]. by eapply good_trans.
  - apply Hg3; [|unfold w2; by rewrite gets_sets_eq].
    pose proof (ev_next _ _ He). pose proof (ev_next _ _ (proj2 Hg2)). lia.
Qed.

Lemma failChannels_good l w :
  inv w → (∀ s, s ∈ l → (s < nextSock w)%nat ∧ unregistered s w) →
  good w (foldl (failChannel dispatch) w l) ∧
  ∀ s, s ∈ l → readyState (gets s (foldl (failChannel dispatch) w l)) = WS_CLOSED.
Proof.
  revert w. induction l as [|s l IH]; intros w Hw Hl; simpl.
  { split; [by apply good_refl|by intros ? ?%elem_of_nil]. }
  destruct (Hl s ltac:(left)) as [Hs Hu].
  destruct (failChannel_good s w Hw Hs Hu) as [Hg Hc].
  pose proof (proj2 Hg) as He. set (w1 := failChannel dispatch w s) in *.
  destruct (IH w1 (good_inv _ _ Hg)) as [Hg' Hc'].
  { intros t Ht. destruct (Hl t ltac:(by right)) as [Ht1 Ht2].
    pose proof (ev_next _ _ He). split; [lia|by apply He]. }
  split; [by eapply good_trans|]. intros t [->|Ht]%elem_of_cons; [|by apply Hc'].
  apply Hg'; [|done]. pose proof (ev_next _ _ He). lia.
Qed.

Ltac via_setc := intros w Hw; apply good_setc; [done|]; shrink.

Lemma scheduleOpenRetry_safe ms c : safe (scheduleOpenRetry ms c).
Proof.
  intros w Hw. unfold scheduleOpenRetry. destruct (openRetryTimer _); [by apply good_refl|].
  apply good_setc; [done|]. shrink.
Qed.

Lemma schedulePacedOpen_safe c : safe (schedulePacedOpen jitter c).
Proof.
  intros w Hw. unfold schedulePacedOpen. destruct (openPaceTimer _); [by apply good_refl|].
  apply good_setc; [done|]. shrink.
Qed.

Lemma sendNextOpen_spec c w :
  inv w → good w (fst (sendNextOpen c w)) ∧
  openBurstRemaining (getc c (fst (sendNextOpen c w))) = openBurstRemaining (getc c w).
Proof.
  intros Hw. unfold sendNextOpen. destruct (negb _); [by split; [apply good_refl|]|].
  destruct (pendingOpens _) as [|[id path] rest] eqn:E; [by split; [apply good_refl|]|].
  simpl. split.
  - apply safe_then; [|apply wsSend_safe]. apply good_setc; [done|]. shrink.
    intros [|]; [by left|right]. rewrite E. discriminate.
  - unfold wsSend. rewrite getc_setc_eq. simpl.
    destruct (ws _); simpl; unfold getc; simpl; by rewrite lookup_total_insert_eq.
Qed.

Lemma burstLoop_safe n c : safe (burstLoop n c).
Proof.
  induction n as [|n IH]; intros w Hw; simpl; [by apply good_refl|].
  destruct (0 <? _) eqn:E; bools; [|by apply good_refl].
  destruct (sendNextOpen_spec c w Hw) as [Hg Hb].
  destruct (sendNextOpen c w) as [w' again]. simpl in *.
  destruct again; [|done]. apply safe_then; [|apply IH].
  eapply good_trans; [exact Hg|]. pose proof (good_inv _ _ Hg) as Hw'.
  apply good_setc; [done|]. shrink. lia.
Qed.

Lemma flushOpens_safe c : safe (flushOpens jitter c).
Proof.
  intros w Hw. unfold flushOpens. destruct (negb _); [by apply good_refl|].
  destruct (0 <? _ - _); [by apply scheduleOpenRetry_safe|].
  assert (Hg : good w (setc c clearOpenRetryTimer w)) by (apply good_setc; [done|shrink]).
  set (w1 := setc _ _ w) in *. destruct (openPaceTimer _); [done|].
  assert (Hg2 : good w (burstLoop (Z.to_nat (openBurstRemaining (getc c w1))) c w1))
    by (apply safe_then; [done|apply burstLoop_safe]).
  destruct (0 <? jm_size _); [|done]. apply safe_then; [done|apply schedulePacedOpen_safe].
Qed.

(** *** Letting go of the real socket *)

Lemma idle_not_busy k :
  ((0 <? jm_size (channels k)) || (0 <? jm_size (pendingOpens k)))%bool = false → ¬ busy k.
Proof.
  intros E. bools. pose proof (zlength_nonneg (channels k)).
  pose proof (zlength_nonneg (pendingOpens k)). unfold jm_size in *.
  intros [Hb|Hb]; apply Hb, jm_size_nil; unfold jm_size; lia.
Qed.

Lemma release_safe c : safe (release c).
Proof.
  intros w Hw. unfold release. destruct (_ || _)%bool eqn:E; [by apply good_refl|].
  apply idle_not_busy in E. destruct (jm_get _ _) as [pool|] eqn:Hp; [|by apply good_refl].
  pose proof Hw as [I1 I2 I3 I4]. destruct (I3 _ _ Hp) as (Hnd & Hne & Hin).
  set (pool' := match list_find (λ d, d = c) pool with Some (i, _) => _ | None => _ end).
  assert (Hsub : ∀ d, d ∈ pool' → d ∈ pool).
  { intros d. unfold pool'. destruct (list_find _ _) as [[i x]|]; [|done].
    rewrite list_elem_of_lookup. intros [j Hj]. apply list_elem_of_lookup.
    destruct (decide (j < i)%nat); [rewrite list_lookup_delete_lt in Hj by done
                                   |rewrite list_lookup_delete_ge in Hj by lia]; eauto. }
  assert (Hkeep : ∀ d, d ∈ pool → d ≠ c → d ∈ pool').
  { intros d Hd Hdc. unfold pool'. destruct (list_find _ _) as [[i x]|] eqn:Ef; [|done].
    apply list_find_Some in Ef as (Hx & -> & _). rewrite (delete_take_drop pool i).
    rewrite <- (take_drop_middle pool i c Hx) in Hd. set_solver. }
  assert (Hnd' : NoDup pool').
  { unfold pool'. destruct (list_find _ _) as [[i x]|]; [|done].
    eapply sublist_NoDup; [exact Hnd|]. apply sublist_delete. }
  assert (Hpub : ∀ d, busy (getc d w) → d ≠ c).
  { intros d Hd ->. done. }
  cbv zeta. destruct (zlength _ =? 0) eqn:Ez; bools.
  - assert (pool' = []) as Hnil.
    { destruct pool'; [done|]. autorewrite with zlen in Ez.
      pose proof (zlength_nonneg pool'). lia. }
    apply (good_pools w _ (jm_delete (url (getc c w))
             (jm_set (url (getc c w)) pool' (connectionPools w)))); try done.
    + intros d Hd. destruct (I2 d Hd) as (p & Hpd & Hdp). exists p. split; [|done].
      rewrite jm_get_delete, jm_get_set. case_decide as Hu; [|done].
      rewrite Hu, Hp in Hpd. injection Hpd as <-. specialize (Hkeep d Hdp (Hpub d Hd)).
      rewrite Hnil in Hkeep. by apply not_elem_of_nil in Hkeep.
    + intros u p. rewrite jm_get_delete, jm_get_set. repeat case_decide; try done. apply I3.
  - apply (good_pools w _ (jm_set (url (getc c w)) pool' (connectionPools w))); try done.
    + intros d Hd. destruct (I2 d Hd) as (p & Hpd & Hdp). rewrite jm_get_set.
      case_decide as Hu; [|eauto]. exists pool'. split; [done|].
      rewrite Hu, Hp in Hpd. injection Hpd as <-. auto.
    + intros u p. rewrite jm_get_set. case_decide as Hu; [|apply I3].
      intros [= <-]. subst u. split_and!; [done|by intros ->|auto].
Qed.

Lemma teardown_safe c : safe (teardown c).
Proof.
  intros w Hw. unfold teardown. apply safe_then; [|apply release_safe].
  apply safe_then; [|apply discardCurrent_safe]. apply good_setc; [done|]. shrink.
  intros ?? [=].
Qed.

Lemma teardownIfIdle_safe c : safe (teardownIfIdle c).
Proof.
  intros w Hw. unfold teardownIfIdle. destruct (_ || _)%bool; [by apply good_refl|].
  destruct (_ <=? _); [by apply teardown_safe|by apply scheduleOpenRetry_safe].
Qed.

(** A set of channels taken out of [c] at once and then failed. *)
Lemma fail_removed c f l w :
  inv w → shrinks (getc c w) (f (getc c w)) →
  (∀ s, s ∈ l → ∃ id, jm_get id (channels (getc c w)) = Some s ∧
                      jm_get id (channels (f (getc c w))) = None) →
  ∀ x, let w' := foldl (failChannel dispatch) (discardCurrent x (setc c f w)) l in
  good w w' ∧ ∀ s, s ∈ l → readyState (gets s w') = WS_CLOSED.
Proof.
  intros Hw Hsh Hl x.
  pose proof (good_setc c f w Hw Hsh) as Hg.
  pose proof (discardCurrent_safe x _ (good_inv _ _ Hg)) as Hg2.
  destruct (failChannels_good l _ (good_inv _ _ Hg2)) as [Hg3 Hc].
  { intros s (id & H1 & H2)%Hl.
    destruct (inv_link w Hw c id s H1) as (Hs & _).
    pose proof (ev_next _ _ (proj2 Hg)). pose proof (ev_next _ _ (proj2 Hg2)).
    split; [lia|]. apply Hg2; [lia|]. by eapply unregistered_setc. }
  split; [|done]. eapply good_trans; [exact Hg|]. by eapply good_trans.
Qed.

Lemma jm_values_get {K V} `{EqDecision K} (m : jsmap K V) v :
  jm_wf m → v ∈ jm_values m → ∃ k, jm_get k m = Some v.
Proof.
  intros Hm. unfold jm_values. rewrite list_elem_of_fmap. intros ([k v'] & -> & Hin).
  exists k. by apply jm_in_get.
Qed.

(** What [l] names sits in [c] and [f] takes it out. *)
Definition removes (c : nat) (f : MuxConnection → MuxConnection) (l : list nat) (w : World)
  : Prop :=
  shrinks (getc c w) (f (getc c w)) ∧
  ∀ s, s ∈ l → ∃ id, jm_get id (channels (getc c w)) = Some s ∧
                     jm_get id (channels (f (getc c w))) = None.

Definition downConn (k : MuxConnection) : MuxConnection :=
  (clearOpenPaceTimer (resetOpenBackoff (stopHeartbeat k)))
    <| channels := [] |> <| pendingOpens := [] |> <| partials := [] |>
    <| chunked := false |> <| ws := None |>.

Lemma down_removes c w : inv w → removes c downConn (jm_values (channels (getc c w))) w.
Proof.
  intros Hw. split.
  - unfold downConn. shrink; try done; [constructor|by intros [|]].
  - intros s Hs. destruct (jm_values_get _ s (ok_channels_wf _ (inv_conn w Hw c)) Hs) as [id Hid].
    exists id. by split.
Qed.

Lemma handleDown_spec c w :
  inv w → good w (handleDown dispatch c w) ∧
  ∀ s, s ∈ jm_values (channels (getc c w)) →
       readyState (gets s (handleDown dispatch c w)) = WS_CLOSED.
Proof.
  intros Hw. unfold handleDown. fold downConn. destruct (down_removes c w Hw) as [Hsh Hl].
  destruct (fail_removed c downConn _ w Hw Hsh Hl (ws (getc c w))) as [Hg Hc].
  set (w1 := foldl _ _ _) in *. pose proof (release_safe c w1 (good_inv _ _ Hg)) as Hg2.
  split; [by eapply good_trans|]. intros s Hs. apply Hg2; [|by apply Hc].
  destruct (Hl s Hs) as (id & Hid & _).
  destruct (inv_link w Hw c id s Hid) as (Hn & _). pose proof (ev_next _ _ (proj2 Hg)). lia.
Qed.

Lemma handleDown_safe c : safe (handleDown dispatch c).
Proof. intros w Hw. by apply handleDown_spec. Qed.

(** *** Opening *)

Definition openedOf (k : MuxConnection) : jsmap Z nat :=
  filter (λ e, jm_has e.1 (pendingOpens k) = false) (channels k).

Definition dropOpened (opened : jsmap Z nat) (k : MuxConnection) : MuxConnection :=
  k <| channels ::= λ m, foldl (λ m e, jm_delete e.1 m) m opened |>.

Lemma opened_removes c w :
  inv w → partials (getc c w) = [] →
  removes c (dropOpened (openedOf (getc c w))) (jm_values (openedOf (getc c w))) w.
Proof.
  intros Hw Hp. set (opened := openedOf (getc c w)). split.
  - unfold dropOpened. assert (Hget : ∀ id s,
      jm_get id (foldl (λ m e, jm_delete e.1 m) (channels (getc c w)) opened) = Some s →
      jm_get id (channels (getc c w)) = Some s).
    { intros id s. rewrite jm_get_foldl_delete. by case_decide. }
    pose proof (jm_foldl_delete_size opened (channels (getc c w))) as Hsize.
    pose proof (inv_conn w Hw c) as []. split; [split|..]; simpl; try done.
    + by apply jm_foldl_delete_wf.
    + lia.
    + eauto.
    + rewrite Hp. done.
    + intros [Hb|Hb]; [left|by right]. intros Hn. apply Hb. simpl. rewrite Hn.
      clear. induction opened; [done|by simpl].
  - intros s. unfold jm_values. rewrite list_elem_of_fmap. intros ([id s'] & -> & Hin). simpl.
    exists id. split.
    + apply jm_in_get; [apply (inv_conn w Hw c)|]. by apply list_elem_of_filter in Hin as [_ Hin].
    + rewrite jm_get_foldl_delete. case_decide as Hd; [done|].
      exfalso. apply Hd. apply list_elem_of_fmap. by exists (id, s').
Qed.

Lemma failOpenedChannels_safe c w :
  inv w → partials (getc c w) = [] → good w (failOpenedChannels dispatch c w).
Proof.
  intros Hw Hp. destruct (opened_removes c w Hw Hp) as [Hsh Hl].
  by destruct (fail_removed c _ _ w Hw Hsh Hl (@None WebSocket)) as [Hg _].
Qed.

Lemma ensureSocket_safe c : safe (ensureSocket dispatch c).
Proof.
  intros w Hw. unfold ensureSocket. set (live := match ws _ with Some _ => _ | None => _ end).
  destruct live; [by apply good_refl|]. cbv zeta.
  pose proof (discardCurrent_safe (ws (getc c w)) w Hw) as Hg1.
  set (w1 := discardCurrent _ w) in *.
  assert (Hg2 : good w1 (w1 <| nextWs ::= S |>)) by (apply good_same; try done; by eapply good_inv).
  set (w2 := w1 <| nextWs ::= S |>) in *. set (f := λ k : MuxConnection, _).
  assert (Hg3 : good w2 (setc c f w2)).
  { pose proof (good_inv _ _ Hg2) as Hw2. apply good_setc; [done|]. unfold f. clearbody w2. shrink.
    intros ?? [=]. }
  assert (Hg : good w (setc c f w2)) by (eapply good_trans; [|exact Hg3]; by eapply good_trans).
  destruct (ws (getc c w)); [|done]. eapply good_trans; [exact Hg|].
  apply failOpenedChannels_safe; [by eapply good_inv|]. by rewrite getc_setc_eq.
Qed.

Lemma openChannel_safe id path c w :
  inv w → busy (getc c w) → good w (openChannel jitter dispatch id path c w).
Proof.
  intros Hw Hb. unfold openChannel. set (f := λ k : MuxConnection, _).
  assert (Hg : good w (setc c f w)) by (apply good_setc; [done|]; unfold f; clear f; shrink).
  assert (Hg2 : good w (ensureSocket dispatch c (setc c f w)))
    by (apply safe_then; [done|apply ensureSocket_safe]).
  destruct (isOpen _); [|done]. apply safe_then; [done|apply flushOpens_safe].
Qed.

Definition published (c : nat) (w : World) : Prop :=
  ∃ pool, jm_get (url (getc c w)) (connectionPools w) = Some pool ∧ c ∈ pool.

Lemma in_pool_known w u d :
  inv w → let pool := default [] (jm_get u (connectionPools w)) in
  d ∈ pool → jm_get u (connectionPools w) = Some pool ∧
             url (getc d w) = u ∧ (d < nextConn w)%nat.
Proof.
  intros Hw. destruct (jm_get u (connectionPools w)) as [p|] eqn:E; simpl.
  - intros Hd. split; [done|]. by apply (inv_pool w Hw u p E).
  - by intros ?%not_elem_of_nil.
Qed.

(** A fresh connection appended to the pool of its origin. *)
Section new_connection.
Variables (w w' : World) (u : string).
Let pool := default [] (jm_get u (connectionPools w)).
Hypothesis Hw : inv w.
Hypothesis Hgetc : ∀ d, getc d w' =
  if decide (d = nextConn w) then newMuxConnection u else getc d w.
Hypothesis Hpools : ∀ v, jm_get v (connectionPools w') =
  if decide (v = u) then Some (pool ++ [nextConn w]) else jm_get v (connectionPools w).
Hypothesis Hnext : nextConn w' = S (nextConn w).
Hypothesis Hsock : nextSock w' = nextSock w.
Hypothesis Hgets : ∀ s, gets s w' = gets s w.

Lemma new_connection_pool v p : jm_get v (connectionPools w') = Some p →
  NoDup p ∧ p ≠ [] ∧ ∀ c, c ∈ p → url (getc c w') = v ∧ (c < nextConn w')%nat.
Proof.
  rewrite Hpools, Hnext. case_decide as Hv.
  - intros [= <-]. subst v. split_and!; [|by destruct pool|].
    + apply NoDup_app. split_and!; [| |apply NoDup_singleton].
      * unfold pool. destruct (jm_get u (connectionPools w)) eqn:E; simpl; [|constructor].
        by apply (inv_pool w Hw u _ E).
      * intros d Hd Heq%list_elem_of_singleton. apply (in_pool_known w u d Hw) in Hd as (_ & _ & ?). lia.
    + intros d. rewrite elem_of_app, list_elem_of_singleton, Hgetc. intros [Hd| ->].
      * apply (in_pool_known w u d Hw) in Hd as (_ & ? & ?). rewrite decide_False by lia. split; [done|lia].
      * rewrite decide_True by done. split; [done|lia].
  - intros Hp. destruct (inv_pool w Hw v p Hp) as (? & ? & Hlt). split_and!; [done|done|].
    intros d Hd. destruct (Hlt d Hd) as [Hu Hd']. rewrite Hgetc.
    rewrite decide_False by lia. split; [done|lia].
Qed.

Lemma good_new_connection : good w w'.
Proof.
  pose proof Hw as [I1 I2 I3 I4].
  assert (Hchan : ∀ d id s, jm_get id (channels (getc d w')) = Some s →
                            jm_get id (channels (getc d w)) = Some s).
  { intros d id s. rewrite Hgetc. by case_decide. }
  split; split.
  - intros d. rewrite Hgetc. case_decide; [|done].
    split; simpl; try done; [apply jm_wf_nil|by left].
  - intros d. rewrite Hgetc, Hpools. case_decide; [by intros [|]|]. intros Hb.
    destruct (I2 d Hb) as (p & Hp & Hin). case_decide as Hu; [|eauto].
    exists (pool ++ [nextConn w]). split; [done|]. apply elem_of_app. left.
    unfold pool. rewrite <- Hu, Hp. done.
  - apply new_connection_pool.
  - intros d id s Hd%Hchan. rewrite Hsock, Hgets. eauto.
  - by rewrite Hsock.
  - intros s _. by rewrite Hgets.
  - intros s _ Hu d id Hd. by apply (Hu d id), Hchan.
Qed.

Lemma published_new_connection : published (nextConn w) w'.
Proof.
  exists (pool ++ [nextConn w]). rewrite Hgetc, decide_True by done. simpl.
  rewrite Hpools, decide_True by done. split; [done|]. apply elem_of_app. right. left.
Qed.
End new_connection.

Lemma acquire_spec u w :
  inv w → let '(w', c) := acquire u w in
  good w w' ∧ published c w' ∧ jm_size (channels (getc c w')) < MAX_CHANNELS_PER_CONNECTION ∧
  url (getc c w') = u ∧ nextSock w' = nextSock w.
Proof.
  intros Hw. unfold acquire. set (w1 := match jm_get u (connectionPools w) with Some _ => w | None => _ end).
  assert (H1 : conns w1 = conns w ∧ nextConn w1 = nextConn w ∧ nextSock w1 = nextSock w ∧
               sockets w1 = sockets w ∧
               default [] (jm_get u (connectionPools w1)) =
               default [] (jm_get u (connectionPools w)) ∧
               ∀ v, v ≠ u → jm_get v (connectionPools w1) = jm_get v (connectionPools w)).
  { unfold w1. destruct (jm_get u (connectionPools w)) eqn:E; [by rewrite E|].
    split_and!; try done.
    - pose proof (jm_get_set_eq u [] (connectionPools w)) as Hu. simpl. by rewrite Hu.
    - intros v Hv. by apply jm_get_set_ne. }
  destruct H1 as (Hc & Hn & Hs & Hk & Hpool & Hother). rewrite Hpool.
  destruct (list_find _ _) as [[i c]|] eqn:Ef.
  - apply list_find_Some in Ef as (Hi & Hsz & _). apply list_elem_of_lookup_2 in Hi.
    destruct (in_pool_known w u c Hw Hi) as (Hp & Hu & _).
    assert (w1 = w) as -> by (unfold w1; by rewrite Hp).
    split_and!; [by apply good_refl| |done|done|done]. exists (default [] (jm_get u (connectionPools w))).
    by rewrite Hu.
  - cbv zeta. set (w3 := _ <| connectionPools ::= _ |>). rewrite Hn.
    assert (Hgetc : ∀ d, getc d w3 =
      if decide (d = nextConn w) then newMuxConnection u else getc d w).
    { intros d. unfold w3, getc, setc. simpl. rewrite Hn. case_decide; [subst d|].
      - by rewrite lookup_total_insert_eq.
      - rewrite lookup_total_insert_ne by done. by rewrite Hc. }
    assert (Hpools : ∀ v, jm_get v (connectionPools w3) =
      if decide (v = u) then Some (default [] (jm_get u (connectionPools w)) ++ [nextConn w])
      else jm_get v (connectionPools w)).
    { intros v. unfold w3. simpl. rewrite jm_get_set, Hn. case_decide; auto. }
    assert (Hnext : nextConn w3 = S (nextConn w)) by (unfold w3; simpl; by rewrite Hn).
    assert (Hgets : ∀ s, gets s w3 = gets s w)
      by (intros; unfold gets, w3; simpl; by rewrite Hk).
    split_and!; [by eapply good_new_connection|by eapply published_new_connection|..].
    + rewrite Hgetc, decide_True by done. by vm_compute.
    + by rewrite Hgetc, decide_True.
    + unfold w3. simpl. done.
Qed.

(** A socket registered on a connection with room. *)
Lemma register_spec c s w :
  inv w → published c w → (s < nextSock w)%nat → unregistered s w →
  jm_size (channels (getc c w)) < MAX_CHANNELS_PER_CONNECTION →
  let '(w', id) := register s c w in
  let w' := sets s (λ _, mkMuxWebSocket c id WS_CONNECTING) w' in
  inv w' ∧ busy (getc c w') ∧ nextSock w' = nextSock w ∧
  (∀ t, t ≠ s → gets t w' = gets t w ∧ (unregistered t w → unregistered t w')).
Proof.
  intros Hw Hpub Hs Hu Hroom. pose proof Hw as [I1 I2 I3 I4]. unfold register.
  set (id := nextChannelId (getc c w)). set (w' := sets _ _ _).
  assert (Hg : ∀ d, getc d w' = if decide (d = c)
    then (getc c w) <| nextChannelId ::= Z.succ |> <| channels ::= jm_set id s |>
    else getc d w).
  { intros d. unfold w'. rewrite getc_sets. case_decide; subst; [apply getc_setc_eq|].
    by apply getc_setc_ne. }
  assert (Hch : ∀ d id' t, jm_get id' (channels (getc d w')) = Some t →
    (d = c ∧ id' = id ∧ t = s) ∨ jm_get id' (channels (getc d w)) = Some t).
  { intros d id' t. rewrite Hg. case_decide as Hd; [|by right]. simpl.
    rewrite jm_get_set. case_decide; [|subst; by right]. intros [= <-]. by left. }
  assert (Ht : ∀ t, t ≠ s → gets t w' = gets t w ∧ (unregistered t w → unregistered t w')).
  { intros t Hne. split; [unfold w'; by rewrite gets_sets_ne|].
    intros Ht d id' [(_ & _ & ->)|Hd]%Hch; [done|by apply (Ht d id')]. }
  cbv zeta. split_and!; [split| |done|done].
  - intros d. rewrite Hg. case_decide; [|done]. destruct (I1 c). split; simpl; try done.
    + by apply jm_wf_set.
    + pose proof (jm_size_set_le id s (channels (getc c w))). lia.
    + intros id' t. rewrite jm_get_set. case_decide; [intros _; lia|].
      intros Hid'. pose proof (ok_ids0 _ _ Hid'). lia.
    + intros id' p Hp. destruct (ok_partials0 _ _ Hp). split; [|done].
      rewrite jm_get_set. by case_decide.
  - intros d. rewrite Hg. case_decide as Hd; [subst d; intros _; exact Hpub|apply I2].
  - intros u p Hp. destruct (I3 u p Hp) as (? & ? & Hin). split_and!; [done|done|].
    intros d Hd. rewrite Hg. case_decide; [subst d; simpl|]; auto.
  - intros d id' t [(-> & -> & ->)|Hd]%Hch.
    + split; [done|]. unfold w'. rewrite gets_sets_eq. split_and!; try done.
    + destruct (I4 d id' t Hd) as (Hlt & ?). split; [done|].
      assert (t ≠ s) as Hne by (intros ->; by apply (Hu d id')).
      by rewrite (proj1 (Ht t Hne)).
  - left. rewrite Hg, decide_True by done. simpl.
    destruct (channels (getc c w)) as [|[id0 s0] m]; simpl; [done|by case_decide].
Qed.

Lemma newMuxWebSocket_safe u : safe (newMuxWebSocket jitter dispatch u).
Proof.
  intros w Hw. unfold newMuxWebSocket. set (s := nextSock w). set (w1 := w <| nextSock ::= S |>).
  assert (Hw1 : inv w1).
  { destruct Hw as [I1 I2 I3 I4]. split; try done. intros c id t Ht.
    destruct (I4 c id t Ht). split; [simpl; lia|done]. }
  assert (Hs1 : unregistered s w1).
  { intros c id Hid. destruct (inv_link w Hw c id s Hid). unfold s in *. lia. }
  pose proof (acquire_spec (muxUrl u) w1 Hw1) as Ha.
  destruct (acquire (muxUrl u) w1) as [w2 c]. destruct Ha as (Hg2 & Hpub & Hroom & _ & Hn2).
  assert (Hs2 : (s < nextSock w2)%nat) by (rewrite Hn2; unfold s; simpl; lia).
  assert (Hu2 : unregistered s w2) by (apply Hg2; [unfold s; simpl; lia|done]).
  pose proof (register_spec c s w2 (good_inv _ _ Hg2) Hpub Hs2 Hu2 Hroom) as Hr.
  destruct (register s c w2) as [w3 id]. cbv zeta in Hr.
  set (w4 := sets s _ w3) in *. destruct Hr as (Hw4 & Hb & Hn4 & Hother).
  eapply good_trans; [|by apply openChannel_safe]. split; [done|].
  destruct Hg2 as [_ He2]. split.
  - rewrite Hn4, Hn2. simpl. lia.
  - intros t Ht Hc. assert (t ≠ s) as Hne by (unfold s; lia).
    destruct (Hother t Hne) as [-> _]. apply He2; [simpl; lia|done].
  - intros t Ht Hu. assert (t ≠ s) as Hne by (unfold s; lia).
    apply (Hother t Hne). apply He2; [simpl; lia|done].
Qed.

(** *** Sending and closing *)

Lemma sendChunks_safe n id payload start c : safe (sendChunks n id payload start c).
Proof.
  revert start. induction n as [|n IH]; intros start w Hw; simpl; [by apply good_refl|].
  destruct (start <? _); [|by apply good_refl].
  apply safe_then; [by apply wsSend_safe|apply IH].
Qed.

Lemma sendData_safe id payload c : safe (sendData id payload c).
Proof.
  intros w Hw. unfold sendData. destruct (negb _); [by apply good_refl|].
  destruct (_ || _)%bool; [by apply wsSend_safe|by apply sendChunks_safe].
Qed.

Lemma socketSend_safe s data : safe (socketSend s data).
Proof.
  intros w Hw. unfold socketSend. destruct (negb _); [by apply good_refl|by apply sendData_safe].
Qed.

Definition closeEntry (id : Z) (k : MuxConnection) : MuxConnection :=
  k <| pendingOpens ::= jm_delete id |> <| channels ::= jm_delete id |>
    <| partials ::= jm_delete id |>.

Lemma shrinks_closeEntry id c w : inv w → shrinks (getc c w) (closeEntry id (getc c w)).
Proof.
  intros Hw. unfold closeEntry. shrink.
  - by apply size_delete_bound.
  - intros id' s [Hs _]%get_delete_some. eauto.
  - intros id' p [Hp Hne]%get_delete_some. rewrite jm_get_delete_ne by done. eauto.
  - intros id' s [Hs _]%get_delete_some. done.
  - intros [Hb|Hb]; apply jm_delete_nonempty in Hb; auto.
Qed.

Lemma closeChannel_from id c w0 w :
  good w0 (setc c (closeEntry id) w) → good w0 (closeChannel id c w).
Proof.
  intros Hg. unfold closeChannel. fold (closeEntry id). set (w1 := setc _ _ w) in *.
  assert (Hg2 : good w0 (if isOpen (getc c w1) then wsSend c (encodeClose id) w1 else w1))
    by (destruct (isOpen _); [apply safe_then; [done|apply wsSend_safe]|done]).
  destruct (_ && _)%bool; [|done]. apply safe_then; [done|apply teardown_safe].
Qed.

(** Closing takes the socket out of its connection and marks it, at once. *)
Lemma socketClose_step s w :
  inv w → let c := conn (gets s w) in
  good w (setc c (closeEntry (channelId (gets s w)))
            (sets s (λ x, x <| readyState := WS_CLOSED |>) w)).
Proof.
  intros Hw c. set (id := channelId (gets s w)).
  pose proof (good_setc c (closeEntry id) w Hw (shrinks_closeEntry id c w Hw)) as Hg.
  set (w1 := setc c (closeEntry id) w) in *.
  assert (Hu : unregistered s w1).
  { intros d id' Hd. destruct (inv_link w1 (good_inv _ _ Hg) d id' s Hd) as (_ & Hc & Hi & _).
    change (gets s w1) with (gets s w) in *. subst d id'. unfold w1 in Hd.
    rewrite getc_setc_eq in Hd. simpl in Hd.
    pose proof (jm_get_delete_eq id (channels (getc c w))) as Hn. unfold c, id in *. congruence. }
  change (setc c (closeEntry id) (sets s (λ x, x <| readyState := WS_CLOSED |>) w))
    with (sets s (λ x, x <| readyState := WS_CLOSED |>) w1).
  eapply good_trans; [exact Hg|]. apply good_close; [by eapply good_inv|done].
Qed.

Lemma socketClose_safe s : safe (socketClose s).
Proof.
  intros w Hw. unfold socketClose. destruct (_ =? _) eqn:E; bools; [by apply good_refl|].
  apply closeChannel_from. by apply socketClose_step.
Qed.

Lemma callSocket_safe x : safe (λ w, callSocket jitter dispatch w x).
Proof.
  destruct x; [apply newMuxWebSocket_safe|apply socketSend_safe|apply socketClose_safe].
Qed.

(** *** Frames *)

Lemma partials_delete_good id c w :
  inv w → good w (setc c (λ k, k <| partials ::= jm_delete id |>) w).
Proof.
  intros Hw. apply good_setc; [done|]. shrink. intros id' q [Hq _]%get_delete_some. eauto.
Qed.

Lemma receivePart_safe id payload c : safe (receivePart dispatch id payload c).
Proof.
  intros w Hw. unfold receivePart. destruct (negb _) eqn:Eh; [by apply good_refl|]. bools.
  apply jm_has_get in Eh. cbv zeta.
  set (p := default _ _). assert (Hp : partial_ok p).
  { unfold p. destruct (jm_get id (partials _)) as [q|] eqn:E; simpl;
      [by eapply (ok_partials _ (inv_conn w Hw c))|by split]. }
  destruct (MAX_MESSAGE_BYTES <? _) eqn:Em; bools.
  - pose proof (partials_delete_good id c w Hw) as Hg.
    destruct (jm_get id (channels _)) as [s|]; [|done].
    apply safe_then; [|apply socketClose_safe]. apply safe_then; [done|apply dispatch_safe].
  - apply good_setc; [done|]. destruct Hp as [Hsum _]. shrink.
    intros id' q. rewrite jm_get_set. case_decide as Hid; [|eauto].
    intros [= <-]. subst id'. split; [done|]. split; simpl; [|done].
    unfold totalBytes in *. rewrite concat_app, zlength_app, Hsum. simpl. by rewrite app_nil_r.
Qed.

Lemma receiveData_safe id payload c : safe (receiveData dispatch id payload c).
Proof.
  intros w Hw. unfold receiveData.
  destruct (jm_get id (partials _)) as [p|].
  - pose proof (partials_delete_good id c w Hw) as Hg.
    destruct (jm_get id (channels _)) as [s|]; [|done].
    apply safe_then; [done|apply dispatch_safe].
  - destruct (jm_get id (channels _)); [by apply dispatch_safe|by apply good_refl].
Qed.

Lemma receiveOpenOk_safe id c : safe (receiveOpenOk jitter dispatch id c).
Proof.
  intros w Hw. unfold receiveOpenOk. set (w1 := if _ <=? _ then _ else w).
  assert (Hg : good w w1).
  { unfold w1. destruct (_ <=? _); [|by apply good_refl].
    apply safe_then; [|apply flushOpens_safe]. apply good_setc; [done|]. shrink. }
  destruct (jm_get id _); [|done]. apply safe_then; [done|by apply deliverOpen_safe].
Qed.

Lemma shrinks_drop id c w : inv w → shrinks (getc c w) (dropChannel id (getc c w)).
Proof.
  intros Hw. unfold dropChannel. shrink.
  - by apply size_delete_bound.
  - intros id' s [Hs _]%get_delete_some. eauto.
  - intros id' p [Hp Hne]%get_delete_some. rewrite jm_get_delete_ne by done. eauto.
  - intros id' s [Hs _]%get_delete_some. done.
  - intros [Hb|Hb]; [left; by eapply jm_delete_nonempty|by right].
Qed.

(** Dropping a channel leaves its socket registered nowhere. *)
Lemma drop_good id c s w :
  inv w → jm_get id (channels (getc c w)) = Some s →
  good w (setc c (dropChannel id) w) ∧ unregistered s (setc c (dropChannel id) w).
Proof.
  intros Hw Hid. pose proof (shrinks_drop id c w Hw) as Hsh.
  split; [by apply good_setc|]. eapply unregistered_setc; try done.
  simpl. apply jm_get_delete_eq.
Qed.

Lemma deliverClose_good s w :
  inv w → unregistered s w → good w (deliverClose dispatch s CLOSE_CODE_TRANSPORT w).
Proof.
  intros Hw Hu. unfold deliverClose. destruct (_ =? _); [by apply good_refl|].
  apply safe_then; [by apply good_close|apply dispatch_safe].
Qed.

Lemma backOff_good t c w : inv w → good w (setc c (backOffOpens t) w).
Proof.
  intros Hw. apply good_setc; [done|]. unfold backOffOpens. shrink. right.
  unfold OPEN_RETRY_INITIAL_MS, OPEN_RETRY_MAX_MS in *.
  destruct (openRetryMs _ =? 0) eqn:E; bools; lia.
Qed.

Lemma receiveOpenErr_safe id reason c : safe (receiveOpenErr dispatch id reason c).
Proof.
  intros w Hw. unfold receiveOpenErr. set (w1 := if (_ || _)%bool then _ else w).
  assert (Hg1 : good w w1).
  { unfold w1. destruct (_ || _)%bool; [|by apply good_refl]. by apply backOff_good. }
  pose proof (good_inv _ _ Hg1) as Hw1. cbv zeta. apply safe_then; [|apply teardownIfIdle_safe].
  destruct (jm_get id _) as [s|] eqn:E.
  - destruct (drop_good id c s w1 Hw1 E) as [Hg2 Hu]. set (w2 := setc _ _ w1) in *.
    set (r := if _ =? _ then _ else _).
    pose proof (dispatch_safe s (EvError r) w2 (good_inv _ _ Hg2)) as Hg3.
    assert (Hs : (s < nextSock w2)%nat) by exact (proj1 (inv_link w1 Hw1 c id s E)).
    eapply good_trans; [exact Hg1|]. eapply good_trans; [exact Hg2|].
    eapply good_trans; [exact Hg3|]. apply deliverClose_good; [by eapply good_inv|].
    by apply Hg3.
  - eapply good_trans; [exact Hg1|]. apply good_setc; [done|by apply shrinks_drop].
Qed.

Lemma receiveClose_safe id c : safe (receiveClose dispatch id c).
Proof.
  intros w Hw. unfold receiveClose. cbv zeta. apply safe_then; [|apply teardownIfIdle_safe].
  destruct (jm_get id _) as [s|] eqn:E.
  - destruct (drop_good id c s w Hw E) as [Hg Hu]. eapply good_trans; [exact Hg|].
    apply deliverClose_good; [by eapply good_inv|done].
  - apply good_setc; [done|by apply shrinks_drop].
Qed.

Lemma receive_safe buf c : safe (receive jitter dispatch buf c).
Proof.
  intros w Hw. unfold receive. cbv zeta.
  assert (Hg : good w (setc c (λ k, k <| lastActivity := now w |>) w))
    by (apply good_setc; [done|shrink]).
  set (w1 := setc _ _ w) in *. pose proof (good_inv _ _ Hg) as Hw1.
  destruct (decodeFrame buf) as [[]|]; try done; (eapply good_trans; [exact Hg|]).
  - by apply receiveOpenOk_safe.
  - by apply receiveOpenErr_safe.
  - by apply receiveData_safe.
  - by apply receivePart_safe.
  - by apply receiveClose_safe.
  - apply good_setc; [done|]. clearbody w1. shrink.
Qed.

(** *** Timers and events *)

Lemma paceTick_safe c : safe (paceTick jitter c).
Proof.
  intros w Hw. unfold paceTick. cbv zeta.
  assert (Hg : good w (setc c clearOpenPaceTimer w)) by (apply good_setc; [done|shrink]).
  set (w1 := setc _ _ w) in *.
  destruct (_ <? _); [apply safe_then; [done|apply flushOpens_safe]|].
  assert (Hg2 : good w (fst (sendNextOpen c w1))).
  { eapply good_trans; [exact Hg|]. apply sendNextOpen_spec. by eapply good_inv. }
  destruct (0 <? _); [|done]. apply safe_then; [done|apply schedulePacedOpen_safe].
Qed.

Lemma retryTick_safe c : safe (retryTick jitter c).
Proof.
  intros w Hw. unfold retryTick. apply safe_then; [|apply teardownIfIdle_safe].
  apply safe_then; [|apply flushOpens_safe]. apply good_setc; [done|]. shrink.
Qed.

Variable pingThrows : World → bool.

Lemma heartbeatFires_safe c : safe (heartbeatFires pingThrows dispatch c).
Proof.
  intros w Hw. unfold heartbeatFires, heartbeatTick.
  assert (Hg : good w (setc c (λ k, k <| heartbeatTimer :=
    Some (now w + HEARTBEAT_INTERVAL_MS) |>) w)) by (apply good_setc; [done|shrink]).
  set (w1 := setc _ _ w) in *.
  destruct (negb _); [done|]. destruct (_ <? _);
    [apply safe_then; [done|apply handleDown_safe]|].
  destruct (pingThrows _); apply safe_then; auto using handleDown_safe, wsSend_safe.
Qed.

Lemma wsOnOpen_safe c : safe (wsOnOpen jitter c).
Proof.
  intros w Hw. unfold wsOnOpen. apply safe_then; [|apply flushOpens_safe].
  apply good_setc; [done|]. unfold startHeartbeat. shrink. unfold OPEN_BURST_SIZE. lia.
Qed.

Lemma muxEvent_safe e : safe (λ w, muxEvent jitter pingThrows dispatch w e).
Proof.
  intros w Hw. destruct e; simpl.
  - by apply good_same.
  - destruct (_ && _)%bool; [|by apply good_refl]. apply good_setc; [done|]. shrink.
  - destruct (_ && _)%bool; [|by apply good_refl].
    apply safe_then; [|apply wsOnOpen_safe]. apply good_setc; [done|]. shrink.
  - destruct (isCurrent _ _ _); [by apply receive_safe|by apply good_refl].
  - destruct (isCurrent _ _ _); [by apply handleDown_safe|by apply good_refl].
  - destruct (isCurrent _ _ _); [by apply handleDown_safe|by apply good_refl].
  - destruct (due _ _); [by apply paceTick_safe|by apply good_refl].
  - destruct (due _ _); [by apply retryTick_safe|by apply good_refl].
  - destruct (due _ _); [by apply heartbeatFires_safe|by apply good_refl].
  - by apply callSocket_safe.
Qed.

(** *** No channel is stranded

    An open real socket is watched by the heartbeat, and one with OPEN frames
    to send has a timer armed that will send them. *)

Definition ok_armed (k : MuxConnection) : Prop :=
  isOpen k = true →
  heartbeatTimer k ≠ None ∧
  (pendingOpens k ≠ [] → openPaceTimer k ≠ None ∨ openRetryTimer k ≠ None).

Definition armed (w : World) : Prop := ∀ c, ok_armed (getc c w).

Definition arms (f : World → World) : Prop := ∀ w, inv w → armed w → armed (f w).

Lemma armed_setc c f w :
  (∀ d, d ≠ c → ok_armed (getc d w)) → ok_armed (f (getc c w)) → armed (setc c f w).
Proof.
  intros Hw Hf d. destruct (decide (d = c)) as [->|Hd].
  - by rewrite getc_setc_eq.
  - rewrite getc_setc_ne by done. by apply Hw.
Qed.

(** Changes that touch neither the socket nor the timers, and add no OPEN. *)
Lemma armed_setc_same c f w :
  armed w → ws (f (getc c w)) = ws (getc c w) →
  heartbeatTimer (f (getc c w)) = heartbeatTimer (getc c w) →
  openPaceTimer (f (getc c w)) = openPaceTimer (getc c w) →
  openRetryTimer (f (getc c w)) = openRetryTimer (getc c w) →
  (pendingOpens (f (getc c w)) ≠ [] → pendingOpens (getc c w) ≠ []) →
  armed (setc c f w).
Proof.
  intros Hw H1 H2 H3 H4 H5. apply armed_setc; [by intros|].
  unfold ok_armed, isOpen. rewrite H1, H2, H3, H4. intros Ho.
  destruct (Hw c Ho) as [? Hp]. split; [done|]. auto.
Qed.

Lemma armed_setc_closed c f w :
  (∀ d, d ≠ c → ok_armed (getc d w)) → isOpen (f (getc c w)) = false → armed (setc c f w).
Proof. intros Hw Hf. apply armed_setc; [done|]. unfold ok_armed. congruence. Qed.

Lemma wsSend_conns c buf w : conns (wsSend c buf w) = conns w.
Proof. unfold wsSend. by destruct (ws _). Qed.

Lemma getc_wsSend d c buf w : getc d (wsSend c buf w) = getc d w.
Proof. unfold getc. by rewrite wsSend_conns. Qed.

Lemma getc_discard d x w : getc d (discardCurrent x w) = getc d w.
Proof. by destruct x. Qed.

Lemma getc_release d c w : getc d (release c w) = getc d w.
Proof.
  unfold release. destruct (_ || _)%bool; [done|]. destruct (jm_get _ _); [|done].
  cbv zeta. by destruct (zlength _ =? 0).
Qed.

Lemma sendNextOpen_frame d c w : d ≠ c → getc d (fst (sendNextOpen c w)) = getc d w.
Proof.
  intros Hd. unfold sendNextOpen. destruct (negb _); [done|].
  destruct (pendingOpens _) as [|[??]]; [done|]. simpl.
  by rewrite getc_wsSend, getc_setc_ne.
Qed.

Lemma burstLoop_frame n d c w : d ≠ c → getc d (burstLoop n c w) = getc d w.
Proof.
  intros Hd. revert w. induction n as [|n IH]; intros w; simpl; [done|].
  destruct (0 <? _); [|done]. pose proof (sendNextOpen_frame d c w Hd) as Hf.
  destruct (sendNextOpen c w) as [w' []]; simpl in *; [|done].
  by rewrite IH, getc_setc_ne.
Qed.

Lemma sendNextOpen_keeps c w : let k := getc c w in let k' := getc c (fst (sendNextOpen c w)) in
  ws k' = ws k ∧ heartbeatTimer k' = heartbeatTimer k ∧ openPaceTimer k' = openPaceTimer k ∧
  openRetryTimer k' = openRetryTimer k.
Proof.
  unfold sendNextOpen. destruct (negb _); [done|].
  destruct (pendingOpens _) as [|[??]]; [done|]. simpl. by rewrite getc_wsSend, getc_setc_eq.
Qed.

Lemma burstLoop_keeps n c w : let k := getc c w in let k' := getc c (burstLoop n c w) in
  ws k' = ws k ∧ heartbeatTimer k' = heartbeatTimer k.
Proof.
  revert w. induction n as [|n IH]; intros w; simpl; [done|].
  destruct (0 <? _); [|done]. pose proof (sendNextOpen_keeps c w) as (H1 & H2 & _).
  destruct (sendNextOpen c w) as [w' []]; [|done]. cbn [fst] in *.
  destruct (IH (setc c (λ k, k <| openBurstRemaining ::= Z.pred |>) w')) as [H3 H4].
  rewrite getc_setc_eq in H3, H4. split; etrans; [exact H3|exact H1|exact H4|exact H2].
Qed.

Lemma no_pending k : (0 <? jm_size (pendingOpens k)) = false → pendingOpens k = [].
Proof.
  intros E. bools. apply jm_size_nil. pose proof (zlength_nonneg (pendingOpens k)).
  unfold jm_size in *. lia.
Qed.

(** With the heartbeat on, scheduling or having nothing to send arms [c]. *)
Lemma schedule_or_done c w :
  (∀ d, d ≠ c → ok_armed (getc d w)) →
  (isOpen (getc c w) = true → heartbeatTimer (getc c w) ≠ None) →
  armed (if 0 <? jm_size (pendingOpens (getc c w)) then schedulePacedOpen jitter c w else w).
Proof.
  intros Hw Hh. destruct (0 <? _) eqn:E.
  - unfold schedulePacedOpen. destruct (openPaceTimer (getc c w)) eqn:Ep.
    + intros d. destruct (decide (d = c)) as [->|]; [|by apply Hw].
      intros Ho. rewrite Ep. split; [auto|by left].
    + apply armed_setc; [done|]. intros Ho. simpl. split; [by apply Hh|by left].
  - apply no_pending in E. intros d. destruct (decide (d = c)) as [->|]; [|by apply Hw].
    intros Ho. rewrite E. split; [auto|done].
Qed.

(** Whatever was queued on [c] before it, [flushOpens] leaves [c] armed. *)
Lemma flushOpens_arms c w :
  (∀ d, d ≠ c → ok_armed (getc d w)) →
  (isOpen (getc c w) = true → heartbeatTimer (getc c w) ≠ None) →
  armed (flushOpens jitter c w).
Proof.
  intros Hw Hh. unfold flushOpens. destruct (negb _) eqn:Eo; bools.
  { intros d. destruct (decide (d = c)) as [->|]; [|by apply Hw]. unfold ok_armed. congruence. }
  destruct (0 <? _ - _).
  - unfold scheduleOpenRetry. destruct (openRetryTimer (getc c w)) eqn:Er.
    + intros d. destruct (decide (d = c)) as [->|]; [|by apply Hw].
      intros Ho. rewrite Er. split; [auto|by right].
    + apply armed_setc; [done|]. intros Ho. simpl. split; [by apply Hh|by right].
  - set (w1 := setc c clearOpenRetryTimer w).
    assert (Hw1 : ∀ d, d ≠ c → getc d w1 = getc d w)
      by (intros; unfold w1; by rewrite getc_setc_ne).
    assert (Hc1 : getc c w1 = clearOpenRetryTimer (getc c w))
      by (unfold w1; by rewrite getc_setc_eq).
    cbv zeta. destruct (openPaceTimer (getc c w1)) eqn:Ep.
    + intros d. destruct (decide (d = c)) as [->|]; [|rewrite Hw1; auto].
      intros Ho. rewrite Ep. split; [|by left]. rewrite Hc1. by apply Hh.
    + apply schedule_or_done.
      * intros d Hd. rewrite burstLoop_frame, Hw1 by done. auto.
      * destruct (burstLoop_keeps (Z.to_nat (openBurstRemaining (getc c w1))) c w1) as [H1 H2].
        intros _. rewrite H2, Hc1. by apply Hh.
Qed.

Lemma armed_ext w w' : (∀ d, getc d w' = getc d w) → armed w → armed w'.
Proof. intros He Hw d. rewrite He. apply Hw. Qed.

Hypothesis dispatch_arms : ∀ s e, arms (dispatch s e).

Lemma deliverClose_arms s w :
  inv w → unregistered s w → armed w → armed (deliverClose dispatch s CLOSE_CODE_TRANSPORT w).
Proof.
  intros Hw Hu Ha. unfold deliverClose. destruct (_ =? _); [done|].
  apply dispatch_arms; [|done]. eapply good_inv. by apply good_close.
Qed.

Lemma failChannels_arms l w :
  inv w → (∀ s, s ∈ l → (s < nextSock w)%nat ∧ unregistered s w) → armed w →
  armed (foldl (failChannel dispatch) w l).
Proof.
  revert w. induction l as [|s l IH]; intros w Hw Hl Ha; simpl; [done|].
  destruct (Hl s ltac:(left)) as [Hs Hu].
  destruct (failChannel_good s w Hw Hs Hu) as [Hg _]. apply IH; [by eapply good_inv| |].
  - intros t Ht. destruct (Hl t ltac:(by right)). destruct Hg as [_ []]. split; [lia|auto].
  - unfold failChannel. pose proof (dispatch_safe s (EvError None) w Hw) as [Hw1 He1].
    apply deliverClose_arms; [done|by apply He1|by apply dispatch_arms].
Qed.

Lemma fail_removed_arms c f l w x :
  inv w → removes c f l w → armed (setc c f w) →
  armed (foldl (failChannel dispatch) (discardCurrent x (setc c f w)) l).
Proof.
  intros Hw [Hsh Hl] Ha.
  pose proof (good_setc c f w Hw Hsh) as Hg.
  pose proof (discardCurrent_safe x _ (good_inv _ _ Hg)) as Hg2.
  apply failChannels_arms; [by eapply good_inv| |].
  - intros s (id & H1 & H2)%Hl. destruct (inv_link w Hw c id s H1) as (Hs & _).
    destruct Hg as [_ He], Hg2 as [_ He2]. pose proof (ev_next _ _ He). pose proof (ev_next _ _ He2).
    split; [lia|]. apply He2; [lia|]. by eapply unregistered_setc.
  - eapply armed_ext; [|exact Ha]. intros d. apply getc_discard.
Qed.

Lemma handleDown_arms c : arms (handleDown dispatch c).
Proof.
  intros w Hw Ha. unfold handleDown. eapply armed_ext; [intros d; apply getc_release|].
  apply fail_removed_arms; [done|by apply down_removes|].
  apply armed_setc_closed; [by intros|done].
Qed.

Lemma teardown_arms c : arms (teardown c).
Proof.
  intros w Hw Ha. unfold teardown. eapply armed_ext; [intros d; apply getc_release|].
  eapply armed_ext; [intros d; apply getc_discard|]. apply armed_setc_closed; [by intros|done].
Qed.

Lemma teardownIfIdle_arms c : arms (teardownIfIdle c).
Proof.
  intros w Hw Ha. unfold teardownIfIdle. destruct (_ || _)%bool eqn:E; [done|]. bools.
  destruct (_ <=? _); [by apply teardown_arms|].
  unfold scheduleOpenRetry. destruct (openRetryTimer _); [done|].
  apply armed_setc; [by intros|]. intros Ho. destruct (Ha c Ho). simpl. split; [done|by right].
Qed.

(** A connecting socket needs no timer, so adding an OPEN before it is fine. *)
Lemma ensureSocket_arms c w :
  inv w → (∀ d, d ≠ c → ok_armed (getc d w)) →
  (isOpen (getc c w) = true → heartbeatTimer (getc c w) ≠ None) →
  let w' := ensureSocket dispatch c w in
  armed w' ∨ (w' = w ∧ isOpen (getc c w) = true).
Proof.
  intros Hw Ha Hh. unfold ensureSocket. set (live := match ws _ with Some _ => _ | None => _ end).
  destruct live eqn:El.
  - destruct (isOpen (getc c w)) eqn:Eo; [by right|]. left.
    intros d. destruct (decide (d = c)) as [->|]; [|by apply Ha]. unfold ok_armed. congruence.
  - left. cbv zeta. pose proof (discardCurrent_safe (ws (getc c w)) w Hw) as Hg1.
    set (w2 := (discardCurrent _ w) <| nextWs ::= S |>). set (f := λ k : MuxConnection, _).
    assert (Hw2 : inv w2)
      by (eapply good_inv, (good_same (discardCurrent (ws (getc c w)) w)); try done; by eapply good_inv).
    assert (Hget : ∀ d, getc d w2 = getc d w) by (intros d; apply (getc_discard d (ws (getc c w)) w)).
    assert (Hg3 : good w2 (setc c f w2)).
    { apply good_setc; [done|]. unfold f. clear f. clearbody w2. shrink. intros ?? [=]. }
    assert (Ha3 : armed (setc c f w2)).
    { apply armed_setc_closed; [|done]. intros d Hd. rewrite Hget. by apply Ha. }
    destruct (ws (getc c w)); [|done]. set (w3 := setc c f w2) in *.
    assert (Hw3 : inv w3) by (by eapply good_inv).
    assert (Hp : partials (getc c w3) = []) by (unfold w3; by rewrite getc_setc_eq).
    apply (fail_removed_arms c _ _ w3 None Hw3 (opened_removes c w3 Hw3 Hp)).
    by apply armed_setc_same.
Qed.

Lemma openChannel_arms id path c w :
  inv w → busy (getc c w) → armed w → armed (openChannel jitter dispatch id path c w).
Proof.
  intros Hw Hb Ha. unfold openChannel. set (f := λ k : MuxConnection, _).
  assert (Hg : good w (setc c f w)) by (apply good_setc; [done|]; unfold f; clear f; shrink).
  assert (Hh : isOpen (getc c (setc c f w)) = true → heartbeatTimer (getc c (setc c f w)) ≠ None)
    by (rewrite getc_setc_eq; intros Ho; by apply (Ha c)).
  assert (Hd : ∀ d, d ≠ c → ok_armed (getc d (setc c f w)))
    by (intros d Hd; rewrite getc_setc_ne by done; apply Ha).
  pose proof (ensureSocket_arms c _ (good_inv _ _ Hg) Hd Hh) as He. cbv zeta in He |- *.
  destruct (isOpen (getc c (ensureSocket dispatch c (setc c f w)))) eqn:Eo.
  - destruct He as [He|[-> _]]; [|by apply flushOpens_arms].
    apply flushOpens_arms; [by intros|]. intros _. by apply (He c).
  - destruct He as [He|[He1 He2]]; [done|]. congruence.
Qed.

Lemma acquire_armed u w : inv w → armed w → armed (fst (acquire u w)).
Proof.
  intros Hw Ha. unfold acquire. set (w1 := match jm_get u (connectionPools w) with Some _ => w | None => _ end).
  assert (Hget : ∀ d, getc d w1 = getc d w) by (intros d; unfold w1; by destruct (jm_get _ _)).
  destruct (list_find _ _) as [[??]|]; simpl; [by eapply armed_ext|].
  apply (armed_ext (setc (nextConn w1) (λ _, newMuxConnection u) w1)); [done|].
  apply armed_setc_closed; [|done]. intros d _. rewrite Hget. apply Ha.
Qed.

Lemma newMuxWebSocket_arms u : arms (newMuxWebSocket jitter dispatch u).
Proof.
  intros w Hw Ha. unfold newMuxWebSocket. set (s := nextSock w). set (w1 := w <| nextSock ::= S |>).
  assert (Hw1 : inv w1).
  { destruct Hw as [I1 I2 I3 I4]. split; try done. intros c id t Ht.
    destruct (I4 c id t Ht). split; [simpl; lia|done]. }
  assert (Hs1 : unregistered s w1).
  { intros c id Hid. destruct (inv_link w Hw c id s Hid). unfold s in *. lia. }
  pose proof (acquire_spec (muxUrl u) w1 Hw1) as Hq. pose proof (acquire_armed (muxUrl u) w1 Hw1 Ha) as Ha2.
  destruct (acquire (muxUrl u) w1) as [w2 c]. cbn [fst] in Ha2.
  destruct Hq as (Hg2 & Hpub & Hroom & _ & Hn2).
  assert (Hs2 : (s < nextSock w2)%nat) by (rewrite Hn2; unfold s; simpl; lia).
  assert (Hu2 : unregistered s w2) by (apply Hg2; [unfold s; simpl; lia|done]).
  pose proof (register_spec c s w2 (good_inv _ _ Hg2) Hpub Hs2 Hu2 Hroom) as Hr.
  unfold register in *. cbv zeta in Hr. set (w4 := sets s _ _) in *. destruct Hr as (Hw4 & Hb & _).
  apply openChannel_arms; [done|done|].
  apply (armed_ext (setc c (λ k, k <| nextChannelId ::= Z.succ |>
    <| channels ::= jm_set (nextChannelId (getc c w2)) s |>) w2)); [done|].
  by apply armed_setc_same.
Qed.

Lemma conns_arms (f : World → World) : (∀ w, conns (f w) = conns w) → arms f.
Proof. intros Hf w _ Ha. eapply armed_ext; [|exact Ha]. intros d. unfold getc. by rewrite Hf. Qed.

Lemma sendChunks_conns n id payload start c w :
  conns (sendChunks n id payload start c w) = conns w.
Proof.
  revert start w. induction n as [|n IH]; intros start w; simpl; [done|].
  destruct (start <? _); [|done]. by rewrite IH, wsSend_conns.
Qed.

Lemma socketSend_conns s data w : conns (socketSend s data w) = conns w.
Proof.
  unfold socketSend, sendData. destruct (negb _); [done|]. destruct (negb _); [done|].
  destruct (_ || _)%bool; [apply wsSend_conns|apply sendChunks_conns].
Qed.

Lemma closeChannel_armed id c w :
  inv (setc c (closeEntry id) w) → armed w → armed (closeChannel id c w).
Proof.
  intros Hw Ha. unfold closeChannel. fold (closeEntry id).
  assert (Ha1 : armed (setc c (closeEntry id) w)).
  { apply armed_setc_same; try done. apply jm_delete_nonempty. }
  set (w1 := setc _ _ w) in *.
  set (w2 := if isOpen (getc c w1) then _ else w1).
  assert (Ha2 : armed w2).
  { unfold w2. destruct (isOpen _); [|done]. eapply armed_ext; [|exact Ha1].
    intros d. apply getc_wsSend. }
  assert (Hw2 : inv w2).
  { unfold w2. destruct (isOpen _); [|done]. eapply good_inv. by apply wsSend_safe. }
  destruct (_ && _)%bool; [by apply teardown_arms|done].
Qed.

Lemma socketClose_arms s : arms (socketClose s).
Proof.
  intros w Hw Ha. unfold socketClose. destruct (_ =? _) eqn:E; [done|].
  apply closeChannel_armed; [|done]. eapply good_inv. by apply socketClose_step.
Qed.

Lemma callSocket_arms x : arms (λ w, callSocket jitter dispatch w x).
Proof.
  destruct x; simpl; [apply newMuxWebSocket_arms| |apply socketClose_arms].
  apply conns_arms. intros w. apply socketSend_conns.
Qed.

(** *** Frames *)

Lemma receivePart_arms id payload c : arms (receivePart dispatch id payload c).
Proof.
  intros w Hw Ha. unfold receivePart. destruct (negb _); [done|]. cbv zeta.
  destruct (MAX_MESSAGE_BYTES <? _); [|by apply armed_setc_same].
  pose proof (partials_delete_good id c w Hw) as Hg. set (w1 := setc _ _ w) in *.
  assert (Ha1 : armed w1) by (by apply armed_setc_same).
  destruct (jm_get id (channels _)) as [s|]; [|done].
  apply socketClose_arms; [eapply good_inv, dispatch_safe|apply dispatch_arms]; eauto with mux.
Qed.

Lemma receiveData_arms id payload c : arms (receiveData dispatch id payload c).
Proof.
  intros w Hw Ha. unfold receiveData.
  destruct (jm_get id (partials _)) as [p|].
  - pose proof (partials_delete_good id c w Hw) as Hg. set (w1 := setc _ _ w) in *.
    assert (Ha1 : armed w1) by (by apply armed_setc_same).
    destruct (jm_get id (channels _)); [|done]. apply dispatch_arms; eauto with mux.
  - destruct (jm_get id (channels _)); [by apply dispatch_arms|done].
Qed.

Lemma deliverOpen_arms s : arms (deliverOpen dispatch s).
Proof.
  intros w Hw Ha. unfold deliverOpen. destruct (negb _) eqn:E; [done|]. bools.
  apply dispatch_arms; [|done]. eapply good_inv.
  apply good_ready; [done|rewrite E; discriminate|discriminate].
Qed.

Lemma receiveOpenOk_arms id c : arms (receiveOpenOk jitter dispatch id c).
Proof.
  intros w Hw Ha. unfold receiveOpenOk.
  assert (Hg : good w (setc c resetOpenBackoff w)) by (apply good_setc; [done|shrink]).
  set (w1 := if _ <=? _ then _ else w).
  assert (inv w1 ∧ armed w1) as [Hw1 Ha1].
  { unfold w1. destruct (_ <=? _); [|done]. split.
    - eapply good_inv, flushOpens_safe. by eapply good_inv.
    - apply flushOpens_arms.
      + intros d Hd. rewrite getc_setc_ne by done. apply Ha.
      + rewrite getc_setc_eq. intros Ho. by apply (Ha c). }
  destruct (jm_get id _); [|done]. by apply deliverOpen_arms.
Qed.

Lemma receiveOpenErr_arms id reason c : arms (receiveOpenErr dispatch id reason c).
Proof.
  intros w Hw Ha. unfold receiveOpenErr. set (w1 := if (_ || _)%bool then _ else w).
  assert (inv w1 ∧ armed w1) as [Hw1 Ha1].
  { unfold w1. destruct (_ || _)%bool; [|done]. split; [|by apply armed_setc_same].
    eapply good_inv. by apply backOff_good. }
  cbv zeta. assert (Ha2 : armed (setc c (dropChannel id) w1)) by (by apply armed_setc_same).
  destruct (jm_get id _) as [s|] eqn:E.
  - destruct (drop_good id c s w1 Hw1 E) as [Hg2 Hu]. set (w2 := setc _ _ w1) in *.
    set (r := if _ =? _ then _ else _).
    pose proof (dispatch_safe s (EvError r) w2 (good_inv _ _ Hg2)) as Hg3.
    assert (Hs : (s < nextSock w2)%nat) by exact (proj1 (inv_link w1 Hw1 c id s E)).
    assert (Hu3 : unregistered s (dispatch s (EvError r) w2)) by (by apply Hg3).
    apply teardownIfIdle_arms.
    + eapply good_inv, deliverClose_good; eauto with mux.
    + apply deliverClose_arms; [by eapply good_inv|done|].
      apply dispatch_arms; [by eapply good_inv|done].
  - apply teardownIfIdle_arms; [|done]. eapply good_inv, good_setc; [done|by apply shrinks_drop].
Qed.

Lemma receiveClose_arms id c : arms (receiveClose dispatch id c).
Proof.
  intros w Hw Ha. unfold receiveClose. cbv zeta.
  assert (Ha2 : armed (setc c (dropChannel id) w)) by (by apply armed_setc_same).
  destruct (jm_get id _) as [s|] eqn:E.
  - destruct (drop_good id c s w Hw E) as [Hg Hu]. apply teardownIfIdle_arms.
    + eapply good_inv, deliverClose_good; eauto with mux.
    + apply deliverClose_arms; eauto with mux.
  - apply teardownIfIdle_arms; [|done]. eapply good_inv, good_setc; [done|by apply shrinks_drop].
Qed.

Lemma receive_arms buf c : arms (receive jitter dispatch buf c).
Proof.
  intros w Hw Ha. unfold receive. cbv zeta.
  assert (Hg : good w (setc c (λ k, k <| lastActivity := now w |>) w))
    by (apply good_setc; [done|shrink]).
  assert (Ha1 : armed (setc c (λ k, k <| lastActivity := now w |>) w))
    by (by apply armed_setc_same).
  set (w1 := setc _ _ w) in *. pose proof (good_inv _ _ Hg) as Hw1.
  destruct (decodeFrame buf) as [[]|]; try done.
  - by apply receiveOpenOk_arms.
  - by apply receiveOpenErr_arms.
  - by apply receiveData_arms.
  - by apply receivePart_arms.
  - by apply receiveClose_arms.
  - by apply armed_setc_same.
Qed.

(** *** Timers and events *)

Lemma paceTick_arms c : arms (paceTick jitter c).
Proof.
  intros w Hw Ha. unfold paceTick. cbv zeta. set (w1 := setc c clearOpenPaceTimer w).
  assert (Hd : ∀ d, d ≠ c → getc d w1 = getc d w)
    by (intros; unfold w1; by rewrite getc_setc_ne).
  assert (Hc : getc c w1 = clearOpenPaceTimer (getc c w)) by (unfold w1; by rewrite getc_setc_eq).
  assert (Hh : isOpen (getc c w1) = true → heartbeatTimer (getc c w1) ≠ None)
    by (rewrite Hc; intros Ho; by apply (Ha c)).
  destruct (_ <? _).
  - apply flushOpens_arms; [|done]. intros d Hdc. rewrite Hd by done. apply Ha.
  - apply schedule_or_done.
    + intros d Hdc. rewrite sendNextOpen_frame, Hd by done. apply Ha.
    + destruct (sendNextOpen_keeps c w1) as (H1 & H2 & _). unfold isOpen. rewrite H1, H2. exact Hh.
Qed.

Lemma retryTick_arms c : arms (retryTick jitter c).
Proof.
  intros w Hw Ha. unfold retryTick. apply teardownIfIdle_arms.
  - eapply good_inv, flushOpens_safe. eapply good_inv, good_setc; [done|shrink].
  - apply flushOpens_arms.
    + intros d Hd. rewrite getc_setc_ne by done. apply Ha.
    + rewrite getc_setc_eq. intros Ho. by apply (Ha c).
Qed.

Lemma heartbeatFires_arms c : arms (heartbeatFires pingThrows dispatch c).
Proof.
  intros w Hw Ha. unfold heartbeatFires, heartbeatTick.
  assert (Hg : good w (setc c (λ k, k <| heartbeatTimer :=
    Some (now w + HEARTBEAT_INTERVAL_MS) |>) w)) by (apply good_setc; [done|shrink]).
  assert (Ha1 : armed (setc c (λ k, k <| heartbeatTimer :=
    Some (now w + HEARTBEAT_INTERVAL_MS) |>) w)).
  { apply armed_setc; [by intros|]. intros Ho. destruct (Ha c Ho). by split. }
  set (w1 := setc _ _ w) in *. pose proof (good_inv _ _ Hg) as Hw1.
  destruct (negb _); [done|]. destruct (_ <? _); [by apply handleDown_arms|].
  destruct (pingThrows _); [by apply handleDown_arms|].
  eapply armed_ext; [|exact Ha1]. intros d. apply getc_wsSend.
Qed.

Lemma wsOnOpen_arms c x w :
  armed w → armed (wsOnOpen jitter c (setc c (λ k, k <| ws := x |>) w)).
Proof.
  intros Ha. unfold wsOnOpen. apply flushOpens_arms.
  - intros d Hd. rewrite !getc_setc_ne by done. apply Ha.
  - rewrite getc_setc_eq. done.
Qed.

Lemma muxEvent_arms e : arms (λ w, muxEvent jitter pingThrows dispatch w e).
Proof.
  intros w Hw Ha. destruct e; simpl.
  - done.
  - destruct (_ && _)%bool eqn:E; [|done]. bools. apply armed_setc_closed; [by intros|].
    unfold isOpen. simpl. apply orb_true_iff in H1 as [Hr|Hr]; bools; by subst.
  - destruct (_ && _)%bool; [by apply wsOnOpen_arms|done].
  - destruct (isCurrent _ _ _); [by apply receive_arms|done].
  - destruct (isCurrent _ _ _); [by apply handleDown_arms|done].
  - destruct (isCurrent _ _ _); [by apply handleDown_arms|done].
  - destruct (due _ _); [by apply paceTick_arms|done].
  - destruct (due _ _); [by apply retryTick_arms|done].
  - destruct (due _ _); [by apply heartbeatFires_arms|done].
  - by apply callSocket_arms.
Qed.
End safety.
