(* ===== verification/MuxSpec.v ===== *)
(** The properties of the multiplexer: what holds in every state a run of
    [src/sync/mux.ts] reaches, and the transfer of chunked payloads. *)
From Stdlib Require Import String.
From S2P Require Import Prelude JsMap Lib0 MuxFrame Mux MuxFacts.

Section runs.
Context `{Lib0}.
Variable jitter : World → Z.
Variable client : nat → SocketEvent → World → list Call.

Lemma emptyWorld_inv t : inv (emptyWorld t).
Proof.
  split.
  - intros c. unfold getc. simpl. rewrite lookup_total_empty.
    split; simpl; try done; [apply jm_wf_nil|by left].
  - intros c. unfold getc. simpl. rewrite lookup_total_empty. by intros [|].
  - done.
  - intros c id s. unfold getc. simpl. by rewrite lookup_total_empty.
Qed.

Lemma emptyWorld_armed t : armed (emptyWorld t).
Proof. intros c. unfold getc. simpl. by rewrite lookup_total_empty. Qed.

Lemma handlers_safe n s e : safe (handlers jitter client n s e).
Proof.
  revert s e. induction n as [|n IH]; intros s e w Hw; simpl; [by apply good_refl|].
  apply safe_foldl; [|done]. intros x _. by apply (callSocket_safe jitter).
Qed.

Lemma handlers_arms n s e : arms (handlers jitter client n s e).
Proof.
  revert s e. induction n as [|n IH]; intros s e w Hw Ha; simpl; [done|].
  apply (foldl_preserves (λ w, inv w ∧ armed w)); [|done].
  intros w1 x _ [Hw1 Ha1]. split.
  - eapply good_inv, (callSocket_safe jitter _ (handlers_safe n)); done.
  - apply (callSocket_arms jitter _ (handlers_safe n) IH); done.
Qed.

Variable pingThrows : World → bool.

Lemma run_inv n t es :
  inv (run jitter pingThrows client n t es) ∧ armed (run jitter pingThrows client n t es).
Proof.
  unfold run. apply (foldl_preserves (λ w, inv w ∧ armed w)).
  - intros w e _ [Hw Ha]. split.
    + eapply good_inv, (muxEvent_safe jitter _ (handlers_safe n) pingThrows); done.
    + apply (muxEvent_arms jitter _ (handlers_safe n) pingThrows (handlers_arms n)); done.
  - split; [apply emptyWorld_inv|apply emptyWorld_armed].
Qed.

(** An event after which connection [c] has no usable real socket. *)
Inductive losesSocket (w : World) (c : nat) : MuxEvent → Prop :=
  | loses_close id : isCurrent c id w = true → losesSocket w c (WsOnClose c id)
  | loses_error id : isCurrent c id w = true → losesSocket w c (WsOnError c id)
  | loses_silent :
      due (heartbeatTimer (getc c w)) w = true → isOpen (getc c w) = true →
      HEARTBEAT_TIMEOUT_MS < now w - lastActivity (getc c w) →
      losesSocket w c (HeartbeatFires c).
End runs.

(** ** Chunked payloads *)

Section transfer.
Context `{Lib0Laws}.
Variable jitter : World → Z.
Variable dispatch : nat → SocketEvent → World → World.

(** The frames [sendData] writes for [payload]. *)
Fixpoint chunkFrames (fuel : nat) (id : Z) (payload : bytes) (start : Z) : list bytes :=
  match fuel with
  | O => []
  | S fuel' =>
    if start <? zlength payload then
      let stop := Z.min (start + CHUNK_BYTES) (zlength payload) in
      encodeData id (zslice start stop payload) (stop =? zlength payload)
        :: chunkFrames fuel' id payload (start + CHUNK_BYTES)
    else []
  end.

Lemma wsSend_open c x buf w :
  ws (getc c w) = Some x → wsSend c buf w = w <| sent ::= λ l, l ++ [(wsId x, buf)] |>.
Proof. intros Hx. unfold wsSend. by rewrite Hx. Qed.

Lemma sendChunks_sent n id payload start c x w :
  ws (getc c w) = Some x →
  sent (sendChunks n id payload start c w) =
    sent w ++ map (pair (wsId x)) (chunkFrames n id payload start).
Proof.
  revert start w. induction n as [|n IH]; intros start w Hx; simpl; [by rewrite app_nil_r|].
  destruct (start <? _); [|by rewrite app_nil_r].
  rewrite IH by (by rewrite getc_wsSend).
  rewrite (wsSend_open c x) by done. simpl. by rewrite <- app_assoc.
Qed.

(** The receiving connection holding the parts [ps] of a message on [id]. *)
Definition holding (c : nat) (id : Z) (ps : list bytes) (w : World) : World :=
  setc c (λ k, k <| lastActivity := now w |>
                 <| partials ::= λ m, match ps with
                                      | [] => m
                                      | _ => jm_set id (mkPartial ps (totalBytes ps)) m
                                      end |>) w.

Lemma setc_setc c f g w : setc c g (setc c f w) = setc c (λ k, g (f k)) w.
Proof.
  unfold setc at 1. rewrite getc_setc_eq. unfold setc. simpl. by rewrite insert_insert_eq.
Qed.

Lemma setc_ext c f g w : f (getc c w) = g (getc c w) → setc c f w = setc c g w.
Proof. intros Hfg. unfold setc. by rewrite Hfg. Qed.

Lemma jm_delete_none {K V} `{EqDecision K} (k : K) (m : jsmap K V) :
  jm_get k m = None → jm_delete k m = m.
Proof.
  induction m as [|[k1 v1] m IH]; simpl; [done|]. case_decide; [done|].
  intros Hk. f_equal. auto.
Qed.

Lemma jm_delete_set_none {K V} `{EqDecision K} (k : K) (v : V) (m : jsmap K V) :
  jm_get k m = None → jm_delete k (jm_set k v m) = m.
Proof.
  induction m as [|[k1 v1] m IH]; simpl.
  - intros _. by rewrite decide_True.
  - case_decide as Hk; [done|]. intros Hm. simpl. rewrite decide_False by done. f_equal. auto.
Qed.

Lemma jm_set_set {K V} `{EqDecision K} (k : K) (v v' : V) (m : jsmap K V) :
  jm_set k v (jm_set k v' m) = jm_set k v m.
Proof.
  induction m as [|[k1 v1] m IH]; simpl; [by rewrite decide_True|].
  case_decide as Hk; simpl; [by rewrite decide_True|].
  rewrite decide_False by done. by f_equal.
Qed.

Lemma totalBytes_snoc ps p : totalBytes (ps ++ [p]) = totalBytes ps + zlength p.
Proof. unfold totalBytes. rewrite concat_app, zlength_app. simpl. by rewrite app_nil_r. Qed.

Section receiver.
Variables (c : nat) (id : Z) (s : nat) (w : World).
Hypothesis Hid : 0 ≤ id ≤ max_safe_integer.
Hypothesis Hchannel : jm_get id (channels (getc c w)) = Some s.
Hypothesis Hfresh : jm_get id (partials (getc c w)) = None.

Lemma holding_idle : holding c id [] w = setc c (λ k, k <| lastActivity := now w |>) w.
Proof. done. Qed.

Lemma holding_channels ps : channels (getc c (holding c id ps w)) = channels (getc c w).
Proof. unfold holding. by rewrite getc_setc_eq. Qed.

Lemma holding_partial ps : jm_get id (partials (getc c (holding c id ps w))) =
  match ps with [] => None | _ => Some (mkPartial ps (totalBytes ps)) end.
Proof.
  unfold holding. rewrite getc_setc_eq. destruct ps as [|p ps]; [done|].
  simpl. apply jm_get_set_eq.
Qed.

(** The activity timestamp is already current on a holding connection. *)
Lemma holding_touch ps :
  setc c (λ k, k <| lastActivity := now (holding c id ps w) |>) (holding c id ps w) =
  holding c id ps w.
Proof. unfold holding. rewrite setc_setc. by apply setc_ext. Qed.

Lemma receive_part_step ps p :
  totalBytes (ps ++ [p]) ≤ MAX_MESSAGE_BYTES →
  receive jitter dispatch (encodeData id p false) c (holding c id ps w) =
  holding c id (ps ++ [p]) w.
Proof.
  intros Hmax. unfold receive. rewrite holding_touch.
  pose proof (decode_wire_frame (FramePart id p) Hid) as Hd. cbn [wire_frame] in Hd. rewrite Hd.
  unfold receivePart. rewrite holding_channels, holding_partial.
  assert (jm_has id (channels (getc c w)) = true) as ->
    by (apply jm_has_get; rewrite Hchannel; eauto).
  simpl negb. cbv iota zeta.
  assert (Heq : default (mkPartial [] 0)
    match ps with [] => None | _ => Some (mkPartial ps (totalBytes ps)) end =
    mkPartial ps (totalBytes ps)) by (by destruct ps).
  rewrite Heq. cbn [parts partialBytes]. rewrite <- totalBytes_snoc.
  destruct (MAX_MESSAGE_BYTES <? _) eqn:E; bools; [lia|].
  unfold holding. rewrite setc_setc. apply setc_ext.
  destruct ps as [|q ps]; [done|]. simpl. by rewrite jm_set_set.
Qed.

Lemma receive_data_step ps p :
  receive jitter dispatch (encodeData id p true) c (holding c id ps w) =
  dispatch s (EvMessage (concat (ps ++ [p]))) (holding c id [] w).
Proof.
  unfold receive. rewrite holding_touch.
  pose proof (decode_wire_frame (FrameData id p) Hid) as Hd. cbn [wire_frame] in Hd. rewrite Hd.
  unfold receiveData. rewrite holding_partial. destruct ps as [|q ps].
  - rewrite holding_channels, Hchannel. unfold deliverData. simpl. by rewrite app_nil_r.
  - rewrite getc_setc_eq. simpl channels. rewrite holding_channels, Hchannel.
    unfold deliverData. cbn [parts]. f_equal.
    unfold holding. rewrite setc_setc. apply setc_ext. simpl. by rewrite jm_delete_set_none.
Qed.

(** The frames from offset [start] on complete what the receiver holds. *)
Lemma receive_chunks n payload start ps :
  zlength payload ≤ MAX_MESSAGE_BYTES →
  0 ≤ start < zlength payload → concat ps = zslice 0 start payload →
  zlength payload ≤ start + Z.of_nat n * CHUNK_BYTES →
  foldl (λ w buf, receive jitter dispatch buf c w) (holding c id ps w)
    (chunkFrames n id payload start) =
  dispatch s (EvMessage payload) (holding c id [] w).
Proof.
  intros Hmax. revert start ps.
  induction n as [|n IH]; intros start ps Hstart Hps Hn; [lia|].
  simpl chunkFrames. destruct (start <? _) eqn:E; bools; [|lia]. simpl foldl.
  set (stop := Z.min _ _). assert (Hstop : start ≤ stop ≤ zlength payload)
    by (unfold stop, CHUNK_BYTES in *; lia).
  assert (Hcat : concat (ps ++ [zslice start stop payload]) = zslice 0 stop payload).
  { rewrite concat_app, Hps. simpl. rewrite app_nil_r. symmetry. apply zslice_split; lia. }
  destruct (stop =? zlength payload) eqn:Es; bools.
  - rewrite receive_data_step. unfold bytes in *. rewrite Hcat, Es, zslice_full.
    replace (chunkFrames n id payload (start + CHUNK_BYTES)) with (@nil bytes); [done|].
    destruct n; simpl; [done|]. destruct (_ <? _) eqn:E2; bools; [|done].
    unfold stop in Es. lia.
  - assert (stop = start + CHUNK_BYTES) as Hs by (unfold stop in *; lia).
    rewrite receive_part_step.
    + rewrite <- Hs. apply IH; [lia|done|]. rewrite Hs. lia.
    + unfold totalBytes, bytes in *. rewrite Hcat.
      rewrite zslice_length by lia. lia.
Qed.
End receiver.
End transfer.

(** ** Pacing *)

Section pacing.
Context `{Lib0}.
Variable jitter : World → Z.

Lemma sendNextOpen_count c w :
  let '(w', again) := sendNextOpen c w in
  zlength (sent w') = zlength (sent w) + (if again then 1 else 0) ∧
  openBurstRemaining (getc c w') = openBurstRemaining (getc c w).
Proof.
  unfold sendNextOpen. destruct (negb (isOpen (getc c w))) eqn:Eo; [split; [lia|done]|].
  destruct (pendingOpens (getc c w)) as [|[id path] rest]; [split; [lia|done]|].
  rewrite getc_wsSend, getc_setc_eq. split; [|done].
  unfold wsSend. rewrite getc_setc_eq. unfold isOpen in Eo. simpl.
  destruct (ws (getc c w)); [|done]. simpl. autorewrite with zlen. lia.
Qed.

Lemma burstLoop_count n c w :
  zlength (sent (burstLoop n c w)) + openBurstRemaining (getc c (burstLoop n c w)) =
  zlength (sent w) + openBurstRemaining (getc c w) ∧
  (0 ≤ openBurstRemaining (getc c w) → 0 ≤ openBurstRemaining (getc c (burstLoop n c w))).
Proof.
  revert w. induction n as [|n IH]; intros w; simpl; [done|].
  destruct (0 <? _) eqn:E; bools; [|done].
  pose proof (sendNextOpen_count c w) as Hc. destruct (sendNextOpen c w) as [w' []].
  - destruct Hc as [H1 H2]. destruct (IH (setc c (λ k, k <| openBurstRemaining ::= Z.pred |>) w'))
      as [IH1 IH2]. rewrite getc_setc_eq in IH1, IH2. cbn [openBurstRemaining field_set] in IH1, IH2.
    change (sent (setc _ _ w')) with (sent w') in IH1. split; [lia|]. intros. apply IH2. lia.
  - destruct Hc as [H1 H2]. rewrite H2. split; [lia|done].
Qed.

Lemma schedulePacedOpen_same c w :
  sent (schedulePacedOpen jitter c w) = sent w ∧
  openBurstRemaining (getc c (schedulePacedOpen jitter c w)) = openBurstRemaining (getc c w).
Proof.
  unfold schedulePacedOpen. destruct (openPaceTimer _); [done|]. by rewrite getc_setc_eq.
Qed.

Lemma flushOpens_count c w :
  zlength (sent (flushOpens jitter c w)) + openBurstRemaining (getc c (flushOpens jitter c w)) =
  zlength (sent w) + openBurstRemaining (getc c w) ∧
  (0 ≤ openBurstRemaining (getc c w) →
   0 ≤ openBurstRemaining (getc c (flushOpens jitter c w))) ∧
  (now w < openBlockedUntil (getc c w) → sent (flushOpens jitter c w) = sent w).
Proof.
  unfold flushOpens. destruct (negb _); [done|].
  destruct (0 <? _ - _) eqn:E; bools.
  - unfold scheduleOpenRetry. destruct (openRetryTimer _); [done|]. by rewrite getc_setc_eq.
  - cbv zeta. set (w1 := setc c clearOpenRetryTimer w).
    assert (H1 : openBurstRemaining (getc c w1) = openBurstRemaining (getc c w))
      by (unfold w1; by rewrite getc_setc_eq).
    assert (H2 : sent w1 = sent w) by done.
    destruct (openPaceTimer _); [rewrite H1, H2; split_and!; [done|done|lia]|].
    destruct (burstLoop_count (Z.to_nat (openBurstRemaining (getc c w1))) c w1) as [B1 B2].
    set (w2 := burstLoop _ c w1) in *. rewrite H1 in B1, B2. rewrite H2 in B1.
    destruct (0 <? jm_size _).
    + destruct (schedulePacedOpen_same c w2) as [-> ->]. split_and!; [done|done|lia].
    + split_and!; [done|done|lia].
Qed.
End pacing.

(** ** Properties of runs *)

(** C1: in every state that any sequence of platform events, server frames,
    timers and client calls reaches, with clients that call back into the
    module from their handlers to any depth: every shard carries at most 512
    channels, buffers at most one bounded partial message per live channel,
    keeps its burst and backoff counters in range, stays published in the pool
    of its origin while it is busy, and every registered channel belongs to
    exactly one virtual socket, which is not closed. *)
Theorem mux_invariant `{Lib0} jitter pingThrows client depth t events :
  inv (run jitter pingThrows client depth t events).
Proof. apply run_inv. Qed.

(** C28: no channel is stranded.  In every reachable state a shard whose real
    socket is open is watched by the heartbeat, and if it still has OPEN frames
    to send then its pace timer or its retry timer is armed. *)
Theorem no_open_is_stranded `{Lib0} jitter pingThrows client depth t events c :
  let k := getc c (run jitter pingThrows client depth t events) in
  isOpen k = true →
  heartbeatTimer k ≠ None ∧
  (pendingOpens k ≠ [] → openPaceTimer k ≠ None ∨ openRetryTimer k ≠ None).
Proof. intros k. apply run_inv. Qed.

(** C30: when the real socket closes, fails, or stays silent past the heartbeat
    timeout, every channel it carried ends up closed, whatever the handlers of
    the other channels do meanwhile. *)
Theorem lost_socket_closes_channels `{Lib0} jitter pingThrows client depth t events c e s :
  let w := run jitter pingThrows client depth t events in
  losesSocket w c e →
  s ∈ jm_values (channels (getc c w)) →
  readyState (gets s (muxEvent jitter pingThrows (handlers jitter client depth) w e)) = WS_CLOSED.
Proof.
  intros w He Hs. pose proof (proj1 (run_inv jitter client pingThrows depth t events)) as Hw.
  fold w in Hw. pose proof (handlers_safe jitter client depth) as Hsafe.
  destruct He as [id E|id E|Hdue Ho Hq]; simpl.
  - rewrite E. by apply (handleDown_spec jitter).
  - rewrite E. by apply (handleDown_spec jitter).
  - rewrite Hdue. unfold heartbeatFires, heartbeatTick. set (w1 := setc _ _ w).
    assert (Hc : getc c w1 = (getc c w) <| heartbeatTimer := Some (now w + HEARTBEAT_INTERVAL_MS) |>)
      by (unfold w1; by rewrite getc_setc_eq).
    assert (isOpen (getc c w1) = true) as -> by (by rewrite Hc). simpl negb. cbv iota.
    assert ((HEARTBEAT_TIMEOUT_MS <? now w1 - lastActivity (getc c w1)) = true) as ->.
    { rewrite Hc. by apply Z.ltb_lt. }
    apply (handleDown_spec jitter); [done| |by rewrite Hc].
    eapply good_inv, good_setc; [done|]. shrink.
Qed.

(** C29: a message sent on an open channel arrives whole.  The frames [sendData]
    writes for a payload within the protocol's limit (one DATA frame, or PART
    frames and a final DATA frame once the server allows chunks), received in
    order by a connection on which the channel is registered and idle, deliver
    exactly that payload to its socket, once, and leave nothing buffered. *)
Theorem chunked_transfer `{Lib0Laws} jitter dispatch id payload c x w c' s w' :
  ws (getc c w) = Some x → wsReady x = WS_OPEN →
  0 ≤ id ≤ max_safe_integer → zlength payload ≤ MAX_MESSAGE_BYTES →
  jm_get id (channels (getc c' w')) = Some s → jm_get id (partials (getc c' w')) = None →
  ∃ frames,
    sent (sendData id payload c w) = sent w ++ map (pair (wsId x)) frames ∧
    foldl (λ w buf, receive jitter dispatch buf c' w) w' frames =
    dispatch s (EvMessage payload) (setc c' (λ k, k <| lastActivity := now w' |>) w').
Proof.
  intros Hx Hopen Hid Hmax Hchannel Hfresh. unfold sendData.
  assert (isOpen (getc c w) = true) as -> by (unfold isOpen; rewrite Hx; by apply Z.eqb_eq).
  rewrite <- (holding_idle c' id w'). simpl negb. cbv iota.
  assert (Htouch : ∀ buf, receive jitter dispatch buf c' w' =
                          receive jitter dispatch buf c' (holding c' id [] w')).
  { intros buf. unfold receive. by rewrite holding_touch. }
  destruct (negb _ || _)%bool eqn:E.
  - exists [encodeData id payload true]. rewrite (wsSend_open c x) by done. split; [done|].
    simpl. rewrite Htouch. rewrite (receive_data_step jitter dispatch c' id s w') by done.
    simpl. by rewrite app_nil_r.
  - exists (chunkFrames (chunkFuel payload) id payload 0).
    rewrite (sendChunks_sent _ _ _ _ c x) by done. split; [done|].
    apply orb_false_iff in E as [_ E]. bools.
    assert (Hfuel : zlength payload ≤ 0 + Z.of_nat (chunkFuel payload) * CHUNK_BYTES).
    { unfold chunkFuel, CHUNK_BYTES in *.
      pose proof (Z.div_mod (zlength payload) (64 * 1024) ltac:(lia)).
      pose proof (Z.mod_pos_bound (zlength payload) (64 * 1024) ltac:(lia)).
      rewrite Z2Nat.id by (pose proof (Z.div_pos (zlength payload) (64 * 1024)); lia). lia. }
    rewrite <- (receive_chunks jitter dispatch c' id s w' Hid Hchannel Hfresh
      (chunkFuel payload) payload 0 []); try done; [|unfold CHUNK_BYTES in *; lia].
    destruct (chunkFrames _ _ _ _) as [|buf bufs] eqn:Ef; simpl; [|by rewrite Htouch].
    destruct (chunkFuel payload); [unfold CHUNK_BYTES in *; lia|]. simpl in Ef.
    destruct (0 <? zlength payload) eqn:E0; bools; [done|unfold CHUNK_BYTES in *; lia].
Qed.

(** the frame codec round-trips.  Every frame of the protocol decodes to
    itself, and [decodeFrame] gives a frame or null on any input, never an
    exception. *)
Theorem frame_roundtrip `{Lib0Laws} f :
  encodable f → decodeFrame (wire_frame f) = Some f.
Proof. apply decode_wire_frame. Qed.

(** OPENs are paced.  A flush spends one unit of the burst budget per OPEN
    it sends and never overspends; while the server's refusal blocks the shard
    it sends none; and a pace tick sends at most one. *)
Theorem opens_are_paced `{Lib0} jitter c w :
  0 ≤ openBurstRemaining (getc c w) →
  let w1 := flushOpens jitter c w in
  let w2 := paceTick jitter c w in
  zlength (sent w1) - zlength (sent w) =
    openBurstRemaining (getc c w) - openBurstRemaining (getc c w1) ∧
  0 ≤ openBurstRemaining (getc c w1) ∧
  (now w < openBlockedUntil (getc c w) → sent w1 = sent w ∧ sent w2 = sent w) ∧
  zlength (sent w2) ≤ zlength (sent w) + 1.
Proof.
  intros Hb w1 w2. destruct (flushOpens_count jitter c w) as (H1 & H2 & H3).
  fold w1 in H1, H2, H3. split_and!; [lia|auto| |].
  - intros Hblock. split; [auto|]. unfold w2, paceTick. cbv zeta.
    set (w3 := setc c clearOpenPaceTimer w).
    assert (Hb3 : openBlockedUntil (getc c w3) = openBlockedUntil (getc c w))
      by (unfold w3; by rewrite getc_setc_eq).
    rewrite Hb3. change (now w3) with (now w).
    destruct (now w <? _) eqn:E; bools; [|lia].
    destruct (flushOpens_count jitter c w3) as (_ & _ & Hs). rewrite Hs; [done|by rewrite Hb3].
  - unfold w2, paceTick. cbv zeta. set (w3 := setc c clearOpenPaceTimer w).
    destruct (now w3 <? _) eqn:E; bools.
    + destruct (flushOpens_count jitter c w3) as (_ & _ & Hs). rewrite Hs by done.
      change (sent w3) with (sent w). lia.
    + pose proof (sendNextOpen_count c w3) as Hc. destruct (sendNextOpen c w3) as [w4 again].
      destruct Hc as [Hc _]. change (sent w3) with (sent w) in Hc. cbn [fst].
      destruct (0 <? jm_size _); [destruct (schedulePacedOpen_same jitter c w4) as [-> _]|];
        destruct again; lia.
Qed.

(** ** Concrete runs *)

Module Sample.
Import Varint.

Definition sampleUrl : URL :=
  mkURL "wss:" "sync.example.com" "/d/doc/ws/doc" "?token=t"%string.

Definition noJitter (w : World) : Z := 0.
Definition pingOk (w : World) : bool := false.

(** A provider's reaction: close on error, dial again on close. *)
Definition redialing (s : nat) (e : SocketEvent) (w : World) : list Call :=
  match e with EvError _ => [CallClose s; CallNew sampleUrl] | _ => [] end.

Definition openTen : list MuxEvent :=
  replicate 10 (ClientCall (CallNew sampleUrl)) ++ [WsOnOpen 0 0].

(** Ten channels: eight OPENs go out in the burst, two wait for the pace timer. *)
Example openTen_sent :
  let w := run noJitter pingOk redialing 2 0 openTen in
  length (sent w) = 8%nat ∧ length (pendingOpens (getc 0 w)) = 2%nat ∧
  openPaceTimer (getc 0 w) = Some 100.
Proof. vm_compute. done. Qed.

(** When the socket drops, the ten sockets close and dial again.  The first
    [close] finds the failed connection empty and unpublishes it, so they share
    a fresh shard. *)
Example openTen_redial :
  let w := run noJitter pingOk redialing 2 0 (openTen ++ [WsOnClose 0 0]) in
  nextSock w = 20%nat ∧ readyState (gets 3 w) = WS_CLOSED ∧
  ws (getc 0 w) = None ∧ channels (getc 0 w) = [] ∧
  jm_size (channels (getc 1 w)) = 10 ∧ isConnecting (getc 1 w) = true.
Proof. vm_compute. done. Qed.

Lemma no_open_is_stranded_witness :
  let k := getc 0 (run noJitter pingOk redialing 2 0 openTen) in
  pendingOpens k ≠ [] ∧ (openPaceTimer k ≠ None ∨ openRetryTimer k ≠ None).
Proof.
  split; [vm_compute; discriminate|].
  apply (no_open_is_stranded noJitter pingOk redialing 2 0 openTen 0);
    [vm_compute; reflexivity|vm_compute; discriminate].
Defined.

Lemma lost_socket_closes_channels_witness :
  let w := run noJitter pingOk redialing 2 0 openTen in
  readyState (gets 3 (muxEvent noJitter pingOk (handlers noJitter redialing 2) w (WsOnClose 0 0)))
    = WS_CLOSED.
Proof.
  apply (lost_socket_closes_channels noJitter pingOk redialing 2 0 openTen 0).
  - apply loses_close. vm_compute. reflexivity.
  - apply list_elem_of_In. vm_compute. tauto.
Defined.

(** One channel on a socket whose server announced chunking. *)
Definition chunkedRun : World :=
  run noJitter pingOk redialing 2 0
    [ClientCall (CallNew sampleUrl); WsOnOpen 0 0; WsOnMessage 0 0 (wire_frame FrameChunked)].

Lemma chunked_transfer_witness :
  let payload := replicate 100000 Byte.x01 in
  ∃ frames,
    sent (sendData 1 payload 0 chunkedRun) = sent chunkedRun ++ map (pair 0%nat) frames ∧
    foldl (λ w buf, receive noJitter (λ _ _ w, w) buf 0 w) chunkedRun frames =
    setc 0 (λ k, k <| lastActivity := now chunkedRun |>) chunkedRun.
Proof.
  apply (chunked_transfer noJitter (λ _ _ w, w) 1 (replicate 100000 Byte.x01) 0
    (mkWebSocket 0 WS_OPEN) chunkedRun 0 0 chunkedRun).
  - vm_compute. reflexivity.
  - reflexivity.
  - vm_compute. split; discriminate.
  - unfold zlength. rewrite length_replicate. vm_compute. discriminate.
  - vm_compute. reflexivity.
  - vm_compute. reflexivity.
Defined.

Lemma frame_roundtrip_witness :
  decodeFrame (wire_frame (FrameOpen 300 "/d/doc/ws/doc?token=t"%string)) =
    Some (FrameOpen 300 "/d/doc/ws/doc?token=t"%string).
Proof.
  apply (frame_roundtrip (FrameOpen 300 "/d/doc/ws/doc?token=t"%string)).
  vm_compute. repeat split; discriminate.
Defined.

Lemma opens_are_paced_witness :
  let w := run noJitter pingOk redialing 2 0 openTen in
  zlength (sent (paceTick noJitter 0 w)) ≤ zlength (sent w) + 1.
Proof.
  refine (proj2 (proj2 (proj2 (opens_are_paced noJitter 0
    (run noJitter pingOk redialing 2 0 openTen) _)))).
  vm_compute. discriminate.
Defined.
End Sample.
