(* ===== verification/Gate.v ===== *)
(** [src/sync/compatibilityGate.ts]: the compatibility gate every connection
    of a vault shares, as a state machine.  [await] splits a method into the
    steps between which other callers run; the server check itself is outside
    code and settles with any outcome. *)
From Stdlib Require Import String.
From S2P Require Import Prelude.
#[local] Open Scope Z_scope.

Definition INCOMPATIBLE_RECHECK_MS : Z := 60000.
Definition UNREACHABLE_RECHECK_MS : Z := 3000.

(** What a check rejects with: a [CompatibilityError] or any other error. *)
Inductive GateError := CompatibilityError (detail : string) | OtherError (detail : string).

Definition isCompatibilityError (e : GateError) : bool :=
  match e with CompatibilityError _ => true | OtherError _ => false end.

(** [ConnectionGateClosedError] *)
Record ConnectionGateClosedError := mkClosed { reason : GateError; incompatible : bool }.
Definition gateClosed (reason : GateError) : ConnectionGateClosedError :=
  mkClosed reason (isCompatibilityError reason).

Record Failure := mkFailure { error : GateError; retryAt : Z }.

(** What [runCheck]'s closure captured. *)
Record Task := mkTask { taskGeneration : Z; taskServer : string }.

(** What a task still has to do: settle its check, then run its [finally]. *)
Inductive Phase := Checking | Finishing.

(** The class's fields, and the tasks in existence: a task is named by the
    order in which it was created, the value [inFlight] compares. *)
Record Gate := mkGate {
  generation : Z;
  verifiedGeneration : Z;
  inFlight : option nat;
  failure : option Failure;
  serverKey : string;
  created : nat;
  tasks : gmap nat (Task * Phase) }.
#[export] Instance eta_Gate : Eta Gate := λ g,
  mkGate (generation g) (verifiedGeneration g) (inFlight g) (failure g) (serverKey g)
    (created g) (tasks g).

(** What the constructor's callbacks and the clock answer. *)
Record Env := mkEnv { serverUrl : string; knownIncompatible : bool; now : Z }.

Definition newGate (url : string) : Gate := mkGate 0 (-1) None None url 0 ∅.

Definition invalidate (g : Gate) : Gate := g <| generation ::= λ n, n + 1 |>.

Definition followServer (e : Env) (g : Gate) : Gate :=
  if decide (serverUrl e = serverKey g) then g
  else let g := invalidate (g <| serverKey := serverUrl e |>) in
       (g <| failure := None |>) <| inFlight := None |>.

Definition isOpen (e : Env) (g : Gate) : Gate * bool :=
  let g := followServer e g in
  (g, (verifiedGeneration g =? generation g) && negb (knownIncompatible e)).

Definition blocksTraffic (e : Env) (g : Gate) : Gate * bool :=
  let g := followServer e g in
  (g, knownIncompatible e ||
      match failure g with Some f => isCompatibilityError (error f) | None => false end).

(** [runCheck] up to the call of [check()]; the result is the task *)
Definition runCheck (g : Gate) : Gate * nat :=
  let id := created g in
  let t := mkTask (generation g) (serverKey g) in
  (((g <| tasks ::= insert id (t, Checking) |>) <| created := S id |>) <| inFlight := Some id |>, id).

(** One round of [ensure]'s loop. *)
Inductive Round :=
  | Resolves
  | Rejects (e : ConnectionGateClosedError)
  | AwaitsFlight (id : nat)
  | AwaitsCheck (id : nat).

Definition ensureRound (e : Env) (g : Gate) : Gate * Round :=
  let '(g, open) := isOpen e g in
  if open then (g, Resolves)
  else match inFlight g with
       | Some id => (g, AwaitsFlight id)
       | None =>
         match failure g with
         | Some f => if now e <? retryAt f then (g, Rejects (gateClosed (error f)))
                     else let '(g, id) := runCheck g in (g, AwaitsCheck id)
         | None => let '(g, id) := runCheck g in (g, AwaitsCheck id)
         end
       end.

(** [verify] up to its [await], and after it *)
Definition verifyStart (e : Env) (g : Gate) : Gate * nat :=
  let g := followServer e g in
  match inFlight g with
  | Some id => (g, id)
  | None => runCheck ((g <| failure := None |>) <| verifiedGeneration := -1 |>)
  end.

Definition verifyEnd (g : Gate) : option GateError := error <$> failure g.

(** The body of the task once [check()] settled: [None] is success. *)
Definition checkSettled (e : Env) (t : Task) (outcome : option GateError) (g : Gate) : Gate :=
  if decide (taskServer t = serverKey g) then
    let rejected :=
      match outcome with
      | Some err => Some err
      | None => if knownIncompatible e
                then Some (CompatibilityError "server is known to be incompatible") else None
      end in
    match rejected with
    | None => (g <| failure := None |>) <| verifiedGeneration := taskGeneration t |>
    | Some err =>
      let wait := if isCompatibilityError err then INCOMPATIBLE_RECHECK_MS else UNREACHABLE_RECHECK_MS in
      (g <| failure := Some (mkFailure err (now e + wait)) |>) <| verifiedGeneration := -1 |>
    end
  else g.

Definition taskBody (e : Env) (id : nat) (outcome : option GateError) (g : Gate) : Gate :=
  match tasks g !! id with
  | Some (t, Checking) => (checkSettled e t outcome g) <| tasks ::= insert id (t, Finishing) |>
  | _ => g
  end.

(** [.finally(...)], after which whoever awaits the task resumes *)
Definition taskFinally (id : nat) (g : Gate) : Gate :=
  match tasks g !! id with
  | Some (_, Finishing) =>
    let g := g <| tasks ::= delete id |> in
    if decide (inFlight g = Some id) then g <| inFlight := None |> else g
  | _ => g
  end.

(** ** Runs *)

Inductive Event :=
  | CallIsOpen | CallBlocksTraffic | CallInvalidate | CallEnsure | CallVerify
  | CheckSettles (id : nat) (outcome : option GateError)
  | FinallyRuns (id : nat).

(** The gate with, for the specification only, the checks of this run that
    succeeded for the server of the moment, and how many tasks existed when the
    server last changed. *)
Record Traced := mkTraced { gate : Gate; proved : list Task; era : nat }.

Definition passes (e : Env) (id : nat) (outcome : option GateError) (g : Gate) : list Task :=
  match tasks g !! id, outcome with
  | Some (t, Checking), None => if decide (taskServer t = serverKey g) then
                      if knownIncompatible e then [] else [t]
                    else []
  | _, _ => []
  end.

Definition stepGate (ev : Event) (e : Env) (g : Gate) : Gate :=
  match ev with
  | CallIsOpen => (isOpen e g).1
  | CallBlocksTraffic => (blocksTraffic e g).1
  | CallInvalidate => invalidate g
  | CallEnsure => (ensureRound e g).1
  | CallVerify => (verifyStart e g).1
  | CheckSettles id outcome => taskBody e id outcome g
  | FinallyRuns id => taskFinally id g
  end.

Definition step (s : Traced) (x : Event * Env) : Traced :=
  let '(ev, e) := x in
  let g' := stepGate ev e (gate s) in
  mkTraced g'
    (match ev with
     | CheckSettles id outcome => passes e id outcome (gate s) ++ proved s
     | _ => proved s
     end)
    (if decide (serverKey g' = serverKey (gate s)) then era s else created (gate s)).

Definition run (url : string) (evs : list (Event * Env)) : Traced :=
  foldl step (mkTraced (newGate url) [] 0) evs.

(** ** The invariant *)

Definition live (g : Gate) (id : nat) (t : Task) : Prop := ∃ ph, tasks g !! id = Some (t, ph).

(** Everything but the verified generation. *)
Record tasks_ok (g : Gate) (pr : list Task) (er : nat) : Prop := mkTasksOk {
  ok_generation : 0 ≤ generation g;
  ok_created : ∀ id t, live g id t → (id < created g)%nat;
  ok_old : ∀ id t, live g id t → 0 ≤ taskGeneration t ≤ generation g;
  ok_current : ∀ id t, live g id t → taskGeneration t = generation g → taskServer t = serverKey g;
  ok_proved : ∀ t, t ∈ pr → 0 ≤ taskGeneration t ≤ generation g ∧
    (taskGeneration t = generation g → taskServer t = serverKey g);
  ok_flight : ∀ id, inFlight g = Some id → ∃ t, live g id t ∧ taskServer t = serverKey g;
  ok_single : ∀ id t, live g id t → (er ≤ id)%nat → inFlight g = Some id;
  ok_era : (er ≤ created g)%nat }.

Record inv (s : Traced) : Prop := mkInv {
  inv_tasks : tasks_ok (gate s) (proved s) (era s);
  inv_verified : verifiedGeneration (gate s) = -1 ∨
    ∃ t, t ∈ proved s ∧ taskGeneration t = verifiedGeneration (gate s) }.

Lemma inv_initial url : inv (mkTraced (newGate url) [] 0).
Proof.
  assert (∀ id t, ¬ live (newGate url) id t) as Hl by (intros id t [ph H]; unfold newGate in H; simpl in H; by rewrite lookup_empty in H).
  split; [split|]; simpl; try done; try (intros; by edestruct Hl); [|auto].
  intros t Ht. by apply elem_of_nil in Ht.
Qed.

Lemma tasks_ok_invalidate g pr er : tasks_ok g pr er → tasks_ok (invalidate g) pr er.
Proof.
  intros []; split; simpl; eauto; try lia.
  - intros id t Ht. destruct (ok_old0 id t Ht). lia.
  - intros id t Ht E. pose proof (ok_old0 id t Ht). simpl in E. lia.
  - intros t Ht. pose proof (ok_proved0 t Ht). split; lia.
Qed.

Lemma followServer_key e g : serverKey (followServer e g) = serverUrl e.
Proof. unfold followServer. by case_decide. Qed.

Lemma followServer_created e g : created (followServer e g) = created g.
Proof. unfold followServer. by case_decide. Qed.

Lemma followServer_verified e g : verifiedGeneration (followServer e g) = verifiedGeneration g.
Proof. unfold followServer. by case_decide. Qed.

(** The era after an operation on [g0] that led to [g]. *)
Definition eraOf (g0 g : Gate) (er : nat) : nat :=
  if decide (serverKey g = serverKey g0) then er else created g0.

Lemma tasks_ok_follow e g pr er :
  tasks_ok g pr er → tasks_ok (followServer e g) pr (eraOf g (followServer e g) er).
Proof.
  unfold followServer, eraOf. intros H. case_decide as E; [by case_decide|].
  destruct H. split; simpl; try lia; try done; rewrite ?decide_False by done; eauto.
  - intros id t Ht. pose proof (ok_old0 id t Ht). lia.
  - intros id t Ht Hg. pose proof (ok_old0 id t Ht). lia.
  - intros t Ht. pose proof (ok_proved0 t Ht). split; lia.
  - intros id t Ht Hle. pose proof (ok_created0 id t Ht). lia.
Qed.

Lemma tasks_ok_runCheck g pr er : inFlight g = None → tasks_ok g pr er → tasks_ok (runCheck g).1 pr er.
Proof.
  intros Hn []. assert (∀ id t, live (runCheck g).1 id t →
    live g id t ∨ id = created g ∧ t = mkTask (generation g) (serverKey g)) as Hl.
  { intros id t [ph H]. simpl in H. apply lookup_insert_Some in H as [[<- [= <- _]]|[_ H]]; [by right|left; by eexists]. }
  split; simpl; try lia; try done.
  - intros id t [H|[-> _]]%Hl; [|lia]. pose proof (ok_created0 id t H). lia.
  - intros id t [H|[_ ->]]%Hl; [by apply (ok_old0 id)|simpl; lia].
  - intros id t [H|[_ ->]]%Hl; [by apply (ok_current0 id)|done].
  - intros id [= <-]. exists (mkTask (generation g) (serverKey g)). split; [|done]. exists Checking. simpl.
    by rewrite lookup_insert_eq.
  - intros id t [H|[-> _]]%Hl Hle; [|done]. pose proof (ok_single0 id t H Hle). congruence.
Qed.

(** An operation that creates no task and drops only one that is gone from
    [inFlight] too. *)
Lemma tasks_ok_frame g g' pr pr' er :
  tasks_ok g pr er → generation g' = generation g → created g' = created g → serverKey g' = serverKey g →
  (∀ id t, live g' id t → live g id t ∧ (inFlight g = Some id → inFlight g' = Some id)) →
  (∀ id, inFlight g' = Some id → inFlight g = Some id ∧ ∀ t, live g id t → live g' id t) →
  (∀ t, t ∈ pr' → t ∈ pr ∨ ∃ id, live g id t) → tasks_ok g' pr' er.
Proof.
  intros [] Hg Hc Hs Hl Hf Hp.
  split; rewrite ?Hg, ?Hc, ?Hs; try done; try (intros id t [Ht ?]%Hl; eauto; fail).
  - intros t [?|[id Ht]]%Hp; [eauto|]. pose proof (ok_old0 id t Ht). split; [lia|eauto].
  - intros id [Hid Ht']%Hf. destruct (ok_flight0 id Hid) as (t & Ht & ?). eauto.
Qed.

Lemma checkSettled_frame e t o g : let g' := checkSettled e t o g in
  generation g' = generation g ∧ created g' = created g ∧ serverKey g' = serverKey g ∧
  tasks g' = tasks g ∧ inFlight g' = inFlight g.
Proof. unfold checkSettled. simpl. split_matches; done. Qed.

Lemma tasks_ok_taskBody e id o g pr er :
  tasks_ok g pr er → tasks_ok (taskBody e id o g) (passes e id o g ++ pr) er.
Proof.
  intros H. unfold taskBody, passes. destruct (tasks g !! id) as [[t []]|] eqn:E; [|done..].
  destruct (checkSettled_frame e t o g) as (Fg & Fc & Fs & Ft & Fi).
  assert (∀ id' t', live ((checkSettled e t o g) <| tasks ::= insert id (t, Finishing) |>) id' t' ↔ live g id' t') as Hl.
  { intros id' t'. unfold live. simpl. rewrite Ft. destruct (decide (id' = id)) as [->|Hne].
    - rewrite lookup_insert_eq, E. split; intros [ph [= -> _]]; eauto.
    - by rewrite lookup_insert_ne. }
  apply (tasks_ok_frame g _ pr); simpl; try done; rewrite ?Fi; try done.
  - intros id' t' Ht%Hl. done.
  - intros id' Hid. split; [done|]. intros t' Ht. by apply Hl.
  - intros t' [Ht|?]%elem_of_app; [|by left]. right. exists id, Checking. rewrite E.
    repeat split_match_in Ht; try by apply elem_of_nil in Ht.
    apply list_elem_of_singleton in Ht. congruence.
Qed.

Lemma tasks_ok_taskFinally id g pr er : tasks_ok g pr er → tasks_ok (taskFinally id g) pr er.
Proof.
  intros H. unfold taskFinally. destruct (tasks g !! id) as [[t []]|] eqn:E; [done| |done].
  case_decide as Hf; simpl in Hf; (apply (tasks_ok_frame g _ pr); simpl; try done; try (by left)).
  - intros id' t' [ph Ht]. simpl in Ht. apply lookup_delete_Some in Ht as [Hne Ht]. split; [by eexists|congruence].
  - intros id' t' [ph Ht]. simpl in Ht. apply lookup_delete_Some in Ht as [Hne Ht]. split; [by eexists|done].
  - intros id' Hid. split; [done|]. intros t' [ph Ht]. exists ph. simpl.
    rewrite lookup_delete_ne by congruence. done.
Qed.

(** ** Preservation *)

Lemma eraOf_trans g g' g'' er : created g' = created g → serverKey g'' = serverKey g' →
  eraOf g g'' er = eraOf g g' er.
Proof. unfold eraOf. intros _ ->. done. Qed.

Lemma runCheck_key g : serverKey (runCheck g).1 = serverKey g.
Proof. done. Qed.

Lemma runCheck_verified g : verifiedGeneration (runCheck g).1 = verifiedGeneration g.
Proof. done. Qed.

Lemma ensureRound_case e g : let g' := followServer e g in
  (ensureRound e g).1 = g' ∨ inFlight g' = None ∧ (ensureRound e g).1 = (runCheck g').1.
Proof. unfold ensureRound, isOpen. simpl. split_matches; simpl; auto. Qed.

Lemma tasks_ok_verify e g pr er :
  tasks_ok g pr er → tasks_ok (verifyStart e g).1 pr (eraOf g (verifyStart e g).1 er).
Proof.
  intros H. pose proof (tasks_ok_follow e g pr er H) as Hf. unfold verifyStart.
  destruct (inFlight (followServer e g)) eqn:E; [done|].
  unfold eraOf. rewrite runCheck_key. apply tasks_ok_runCheck; [done|].
  apply (tasks_ok_frame _ _ _ _ _ Hf); simpl; try done. by left.
Qed.

Lemma step_tasks_ok s x : inv s → tasks_ok (gate (step s x)) (proved (step s x)) (era (step s x)).
Proof.
  destruct x as [ev e]. intros [H _]. pose proof (tasks_ok_follow e _ _ _ H) as Hf.
  destruct ev as [| | | | |id o|id]; simpl.
  - done.
  - done.
  - rewrite decide_True by done. by apply tasks_ok_invalidate.
  - destruct (ensureRound_case e (gate s)) as [->|[Hn ->]]; [done|]. simpl.
    by apply tasks_ok_runCheck.
  - by apply tasks_ok_verify.
  - rewrite decide_True; [by apply tasks_ok_taskBody|].
    unfold taskBody. split_matches; simpl; try done. by apply checkSettled_frame.
  - rewrite decide_True; [by apply tasks_ok_taskFinally|]. unfold taskFinally. by split_matches.
Qed.

Lemma step_verified s ev e : let g' := gate (step s (ev, e)) in
  verifiedGeneration g' = verifiedGeneration (gate s) ∨ verifiedGeneration g' = -1 ∨
  ∃ id o t, ev = CheckSettles id o ∧ t ∈ passes e id o (gate s) ∧ taskGeneration t = verifiedGeneration g'.
Proof.
  destruct ev as [| | | | |id o|id]; simpl; rewrite ?followServer_verified; auto.
  - destruct (ensureRound_case e (gate s)) as [->|[Hn ->]]; simpl; rewrite followServer_verified; auto.
  - unfold verifyStart. split_match; simpl; rewrite ?followServer_verified; auto.
  - unfold taskBody, passes. destruct (tasks (gate s) !! id) as [[t []]|] eqn:E; auto.
    unfold checkSettled. simpl. case_decide; [|by left]. destruct o as [err|]; [right; left; done|].
    destruct (knownIncompatible e) eqn:Ek; [right; left; done|]. right; right.
    exists id, None, t. rewrite E, ?Ek, decide_True by done. split_and!; [done|left|done].
  - unfold taskFinally. split_matches; auto.
Qed.

Lemma step_inv s x : inv s → inv (step s x).
Proof.
  intros H. split; [by apply step_tasks_ok|]. destruct x as [ev e].
  destruct (step_verified s ev e) as [E|[E|(id & o & t & -> & Ht & E)]].
  - rewrite E. destruct (inv_verified s H) as [->|(t & Ht & Et)]; [by left|]. right. exists t. split; [|done].
    destruct ev; simpl; try done. apply elem_of_app. by right.
  - by left.
  - right. exists t. split; [|done]. simpl. apply elem_of_app. by left.
Qed.

Lemma gate_run_inv url evs : inv (run url evs).
Proof. apply (foldl_preserves inv); [|apply inv_initial]. intros s x _. apply step_inv. Qed.

(** ** Properties *)

(** C34: whatever the callers did before, the gate is open only when some
    check of this very server, started after the last invalidation (in the
    current generation), succeeded, and the server is not known to be
    incompatible. *)
Theorem open_gate_was_verified url evs e :
  let s := run url evs in
  (isOpen e (gate s)).2 = true →
  knownIncompatible e = false ∧
  ∃ t, t ∈ proved s ∧ taskGeneration t = generation (gate s) ∧ taskServer t = serverUrl e.
Proof.
  intros s. unfold isOpen. simpl. intros Ho. bools.
  assert (inv s) as [[] Hv] by apply gate_run_inv. clearbody s.
  split; [done|]. unfold followServer in *. case_decide as E; simpl in *.
  - destruct Hv as [Hv|(t & Ht & Hg)]; [lia|]. exists t. split; [done|]. rewrite E.
    split; [congruence|]. apply ok_proved0; [done|congruence].
  - exfalso. destruct Hv as [Hv|(t & Ht & Hg)]; [lia|]. destruct (ok_proved0 t Ht). lia.
Qed.

Lemma ensureRound_awaits e g id g' :
  ensureRound e g = (g', AwaitsCheck id) →
  inFlight g' = Some id ∧ serverKey g' = serverUrl e ∧
  tasks g' !! id = Some (mkTask (generation g') (serverKey g'), Checking).
Proof.
  unfold ensureRound, isOpen, runCheck. intros H.
  assert (g' = (runCheck (followServer e g)).1 ∧ id = created (followServer e g)) as [-> ->]
    by (repeat split_match_in H; simplify_eq; done).
  simpl. rewrite followServer_key, lookup_insert_eq. done.
Qed.

Lemma ensureRound_joins e g id g' :
  ensureRound e g = (g', AwaitsFlight id) → g' = followServer e g ∧ inFlight g' = Some id.
Proof. unfold ensureRound, isOpen, runCheck. intros H. repeat split_match_in H; simplify_eq; done. Qed.

(** A remembered failure no check is replacing. *)
Definition remembers (g : Gate) (f : Failure) : Prop :=
  0 ≤ generation g ∧ verifiedGeneration g = -1 ∧ inFlight g = None ∧ failure g = Some f.

Lemma ensureRound_remembers e g f : remembers g f → serverUrl e = serverKey g → now e < retryAt f →
  ensureRound e g = (g, Rejects (gateClosed (error f))).
Proof.
  intros (Hg & Hv & Hi & Hf) Hu Hn. unfold ensureRound, isOpen, followServer.
  rewrite decide_True, Hv by done. destruct (Z.eqb_spec (-1) (generation g)); [lia|].
  simpl. rewrite Hi, Hf. by rewrite (proj2 (Z.ltb_lt _ _) Hn).
Qed.


(** The calls documents make on their own, as opposed to an explicit recheck. *)
Definition routine (ev : Event) : bool :=
  match ev with CallIsOpen | CallBlocksTraffic | CallInvalidate | CallEnsure => true | _ => false end.

Lemma remembers_routine g f ev e : remembers g f → routine ev = true →
  serverUrl e = serverKey g → now e < retryAt f →
  remembers (stepGate ev e g) f ∧ serverKey (stepGate ev e g) = serverKey g ∧
  tasks (stepGate ev e g) = tasks g ∧ created (stepGate ev e g) = created g ∧
  (ensureRound e g).2 = Rejects (gateClosed (error f)).
Proof.
  intros Hm Hr Hu Hn. rewrite (ensureRound_remembers e g f) by done.
  assert (followServer e g = g) as Hfollow by (unfold followServer; by rewrite decide_True).
  destruct Hm as (Hg & Hv & Hi & Hf). unfold remembers.
  destruct ev; try done; simpl; rewrite ?Hfollow, ?(ensureRound_remembers e g f) by done;
    simpl; split_and!; try done; lia.
Qed.

(** a failed check is remembered for every document: until its recheck
    time, and as long as the server stays the same, any number of reconnect
    attempts, drops and probes start no further check, and each attempt is
    refused with the failure's own error. *)
Theorem remembered_failure_blocks evs : ∀ g f,
  remembers g f →
  Forall (λ x, routine x.1 = true ∧ serverUrl x.2 = serverKey g ∧ now x.2 < retryAt f) evs →
  let g' := foldl (λ g x, stepGate x.1 x.2 g) g evs in
  created g' = created g ∧ tasks g' = tasks g ∧
  ∀ e, serverUrl e = serverKey g → now e < retryAt f →
    (ensureRound e g').2 = Rejects (gateClosed (error f)).
Proof.
  induction evs as [|[ev e] evs IH]; intros g f Hr Hall; simpl.
  - split_and!; try done. intros e Hu Hn. by apply (remembers_routine g f CallIsOpen).
  - inversion Hall as [|? ? (H1 & H2 & H3) Hrest]; subst; simpl in *.
    destruct (remembers_routine g f ev e Hr H1 H2 H3) as (Hr' & Hs & Ht & Hc & _).
    destruct (IH (stepGate ev e g) f Hr') as (I1 & I2 & I3).
    { by rewrite Hs. }
    rewrite Hs in I3. split_and!; [congruence..|done].
Qed.

Module Sample.
Definition at_ (t : Z) : Env := mkEnv "https://sync" false t.
Definition evs : list (Event * Env) :=
  [(CallEnsure, at_ 0); (CallEnsure, at_ 1); (CheckSettles 0 None, at_ 5); (FinallyRuns 0, at_ 5)].

Lemma open_gate_was_verified_witness :
  ∃ t, t ∈ proved (run "https://sync" evs) ∧ taskGeneration t = 0 ∧ taskServer t = "https://sync"%string.
Proof. apply (open_gate_was_verified "https://sync" evs (at_ 9)). vm_compute. reflexivity. Defined.

Definition failed : Gate :=
  gate (run "https://sync" [(CallEnsure, at_ 0); (CheckSettles 0 (Some (OtherError "offline")), at_ 5); (FinallyRuns 0, at_ 5)]).

Lemma remembered_failure_blocks_witness :
  created (foldl (λ g x, stepGate x.1 x.2 g) failed [(CallEnsure, at_ 6); (CallInvalidate, at_ 7); (CallEnsure, at_ 3004)]) = 1%nat.
Proof.
  apply (remembered_failure_blocks [(CallEnsure, at_ 6); (CallInvalidate, at_ 7); (CallEnsure, at_ 3004)]
           failed (mkFailure (OtherError "offline") 3005)).
  - split_and!; vm_compute; congruence.
  - repeat constructor.
Defined.
End Sample.
