(* ===== verification/Epoch.v ===== *)
(** [src/documentEpoch.ts] and the epoch half of [src/main.ts]: the durable
    epoch of every document, the local stores named after it, and what moving
    it forward (a proposal) or back (a restored server) rebuilds. *)
From Stdlib Require Import String.
From Stdlib Require Import Decimal DecimalString DecimalZ.
From S2P Require Import Prelude Lib0.
#[local] Open Scope Z_scope.

(** [String(n)] of an integer *)
Definition numString (n : Z) : string := NilZero.string_of_int (Z.to_int n).

(** [Number(raw)] of a stored string, [None] when it is not an integer; all
    the code relies on is that it reads back what [String] wrote. *)
Class JsNumber := Number : string → option Z.
Class JsNumberLaws {J : JsNumber} : Prop := Number_numString : ∀ n, 0 ≤ n → Number (numString n) = Some n.
Arguments JsNumberLaws : clear implicits.

Definition isSafeInteger (n : Z) : bool := (- max_safe_integer <=? n) && (n <=? max_safe_integer).

(** The settings the keys are built from. *)
Record Settings := mkSettings {
  authServerId : string; authServerUrl : string; activeVaultId : string }.

(** [localStorage] where there is one, [fallbackEpochs] otherwise. *)
Record EpochStore := mkEpochStore {
  localStorage : option (gmap string string);
  fallbackEpochs : gmap string Z }.
#[export] Instance eta_EpochStore : Eta EpochStore := λ s,
  mkEpochStore (localStorage s) (fallbackEpochs s).

(** [settings.authServerId || settings.authServerUrl] *)
Definition serverName (p : Settings) : string :=
  if decide (authServerId p = "")%string then authServerUrl p else authServerId p.

Definition STORAGE_PREFIX : string := "realtime:document-epoch"%string.

Definition storageKey (p : Settings) (documentId : string) : string :=
  STORAGE_PREFIX +:+ ":" +:+ serverName p +:+ ":" +:+ documentId.

Inductive EpochError :=
  | InvalidEpoch (epoch : Z) (documentId : string)
  | MovesBackward (previous epoch : Z) (documentId : string).

Section epochs.
Context {J : JsNumber}.
Implicit Types (p : Settings) (s : EpochStore) (documentId : string) (epoch : Z).

Definition getDocumentEpoch p documentId s : Z :=
  let key := storageKey p documentId in
  let epoch := match localStorage s with
               | None => fallbackEpochs s !! key
               | Some items => match items !! key with None => Some 0 | Some raw => Number raw end
               end in
  match epoch with
  | Some n => if isSafeInteger n && (0 <=? n) then n else 0
  | None => 0
  end.

Definition putEpoch (key : string) epoch s : EpochStore :=
  match localStorage s with
  | None => s <| fallbackEpochs ::= insert key epoch |>
  | Some items => s <| localStorage := Some (<[key := numString epoch]> items) |>
  end.

Definition setDocumentEpoch p documentId epoch s : EpochStore * throws EpochError bool :=
  if negb (isSafeInteger epoch) || (epoch <? 0) then (s, Throws (InvalidEpoch epoch documentId))
  else
    let key := storageKey p documentId in
    let previous := getDocumentEpoch p documentId s in
    if epoch <? previous then (s, Throws (MovesBackward previous epoch documentId))
    else (putEpoch key epoch s, Returns (negb (previous =? epoch))).

Definition rewindStored p documentId epoch s : EpochStore * throws EpochError unit :=
  if negb (isSafeInteger epoch) || (epoch <? 0) then (s, Throws (InvalidEpoch epoch documentId))
  else (putEpoch (storageKey p documentId) epoch s, Returns tt).

(** [s.includes(sub)] *)
Fixpoint includes (sub str : string) : bool :=
  String.prefix sub str || match str with EmptyString => false | String _ str' => includes sub str' end.

Definition epochStoreBaseName p documentId : string :=
  let server := serverName p in
  if decide (documentId = activeVaultId p) then "realtime:index:" +:+ server +:+ ":" +:+ documentId
  else if includes "__plugindb__" documentId
  then "realtime:plugindb:" +:+ server +:+ ":" +:+ documentId
  else documentId.

Definition epochPersistenceName (baseName : string) epoch : string :=
  if decide (epoch = 0) then baseName else baseName +:+ ":epoch:" +:+ numString epoch.

(** ** The plugin's reactions ([main.ts]) *)

(** What [rebuildForEpoch] schedules. *)
Inductive Rebuild :=
  | RebuildPluginDb (documentId : string)
  | RebuildDocument (documentId : string) (rewound : bool)
  | RestartSync.

Definition rebuildForEpoch p documentId (rewound : bool) : Rebuild :=
  let vaultId := activeVaultId p in
  let vault := negb (bool_decide (vaultId = ""%string)) in
  if vault && String.prefix (vaultId +:+ "__plugindb__") documentId then RebuildPluginDb documentId
  else if vault && String.prefix (vaultId +:+ "__") documentId then RebuildDocument documentId rewound
  else RestartSync.

Definition acceptDocumentEpoch p (unloading : bool) documentId epoch s
    : EpochStore * throws EpochError (option Rebuild) :=
  let '(s, changed) := setDocumentEpoch p documentId epoch s in
  (s, match changed with
      | Throws e => Throws e
      | Returns changed =>
        Returns (if negb changed || unloading then None else Some (rebuildForEpoch p documentId false))
      end).

(** The stores [clearDocument] is called on, and the rebuild. *)
Definition rewindDocumentEpoch p (unloading : bool) documentId epoch s
    : EpochStore * throws EpochError (list string * option Rebuild) :=
  let previous := getDocumentEpoch p documentId s in
  if (previous <=? epoch) || unloading then (s, Returns ([], None))
  else
    let '(s, r) := rewindStored p documentId epoch s in
    (s, match r with
        | Throws e => Throws e
        | Returns _ =>
          let store := epochStoreBaseName p documentId in
          Returns
            (map (λ abandoned, epochPersistenceName store abandoned) (seqZ (epoch + 1) (previous - epoch)),
             Some (rebuildForEpoch p documentId true))
        end).

(** ** Facts *)

Context {JL : JsNumberLaws J}.

Lemma append_inj_l (a b c : string) : a +:+ b = a +:+ c → b = c.
Proof. induction a as [|x a IH]; simpl; [done|]. intros [= ?]. auto. Qed.

Lemma storageKey_inj p d d' : storageKey p d = storageKey p d' → d = d'.
Proof. unfold storageKey. intros E. repeat apply append_inj_l in E. done. Qed.

Lemma isSafeInteger_epoch epoch : negb (isSafeInteger epoch) || (epoch <? 0) = false ↔
  0 ≤ epoch ≤ max_safe_integer.
Proof. unfold isSafeInteger. rewrite orb_false_iff, negb_false_iff, andb_true_iff, !Z.leb_le, Z.ltb_ge. unfold max_safe_integer. lia. Qed.

Lemma getDocumentEpoch_range p d s : 0 ≤ getDocumentEpoch p d s ≤ max_safe_integer.
Proof.
  unfold getDocumentEpoch. cbv zeta.
  generalize (match localStorage s with None => fallbackEpochs s !! storageKey p d
    | Some items => match items !! storageKey p d with None => Some 0 | Some raw => Number raw end end).
  intros [n|]; [|unfold max_safe_integer; lia].
  destruct (isSafeInteger n && (0 <=? n)) eqn:E; unfold isSafeInteger, max_safe_integer in *; bools; lia.
Qed.

Lemma getDocumentEpoch_put p d d' epoch s : 0 ≤ epoch ≤ max_safe_integer →
  getDocumentEpoch p d' (putEpoch (storageKey p d) epoch s) =
  if decide (d' = d) then epoch else getDocumentEpoch p d' s.
Proof.
  intros He. assert (isSafeInteger epoch && (0 <=? epoch) = true) as Hs.
  { unfold isSafeInteger. rewrite !andb_true_iff, !Z.leb_le. unfold max_safe_integer in *. lia. }
  unfold getDocumentEpoch, putEpoch. destruct (localStorage s) as [items|] eqn:E; simpl.
  - case_decide as Hd; [subst; by rewrite lookup_insert_eq, Number_numString, Hs by lia|].
    rewrite ?E, lookup_insert_ne by (intros Hk; apply Hd; by apply (storageKey_inj p)). done.
  - rewrite ?E. case_decide as Hd; [subst; by rewrite lookup_insert_eq, Hs|].
    rewrite lookup_insert_ne by (intros Hk; apply Hd; by apply (storageKey_inj p)). done.
Qed.

Lemma numString_inj a b : 0 ≤ a → 0 ≤ b → numString a = numString b → a = b.
Proof. intros Ha Hb E. apply Number_numString in Ha, Hb. congruence. Qed.

Lemma append_self_nonempty (a b : string) : a = a +:+ b → b = ""%string.
Proof. induction a as [|x a IH]; simpl; [done|]. intros [= E]. auto. Qed.

Lemma epochPersistenceName_inj base a b : 0 ≤ a → 0 ≤ b →
  epochPersistenceName base a = epochPersistenceName base b → a = b.
Proof.
  unfold epochPersistenceName. intros Ha Hb E. repeat case_decide; subst; try done.
  - by apply append_self_nonempty in E.
  - symmetry in E. by apply append_self_nonempty in E.
  - repeat apply append_inj_l in E. by apply numString_inj.
Qed.

Lemma epoch_moves_forward_lemma p d epoch s :
  let '(s', r) := setDocumentEpoch p d epoch s in
  let previous := getDocumentEpoch p d s in
  (if decide (previous ≤ epoch ≤ max_safe_integer) then
     r = Returns (negb (previous =? epoch)) ∧ getDocumentEpoch p d s' = epoch
   else s' = s ∧ ∃ e, r = Throws e) ∧
  previous ≤ getDocumentEpoch p d s' ∧
  ∀ d', d' ≠ d → getDocumentEpoch p d' s' = getDocumentEpoch p d' s.
Proof.
  pose proof (getDocumentEpoch_range p d s) as Hr. unfold setDocumentEpoch.
  destruct (negb (isSafeInteger epoch) || (epoch <? 0)) eqn:Ev.
  { rewrite decide_False; [by eauto with lia|]. intros [Hle Hm].
    rewrite (proj2 (isSafeInteger_epoch epoch)) in Ev by lia. done. }
  apply isSafeInteger_epoch in Ev. destruct (Z.ltb_spec epoch (getDocumentEpoch p d s)).
  - rewrite decide_False by lia. eauto with lia.
  - rewrite decide_True by lia. rewrite getDocumentEpoch_put, decide_True by done.
    split_and!; try done. intros d' Hd. by rewrite getDocumentEpoch_put, decide_False.
Qed.

(** the durable epoch of a document only moves forward: [setDocumentEpoch]
    stores an epoch at or above the current one, reports whether it changed,
    reads back, and leaves every other document's epoch alone; anything else
    throws and stores nothing. *)
Theorem epoch_only_moves_forward p d epoch s :
  let '(s', r) := setDocumentEpoch p d epoch s in
  let previous := getDocumentEpoch p d s in
  (if decide (previous ≤ epoch ≤ max_safe_integer) then
     r = Returns (negb (previous =? epoch)) ∧ getDocumentEpoch p d s' = epoch
   else s' = s ∧ ∃ e, r = Throws e) ∧
  previous ≤ getDocumentEpoch p d s' ∧
  ∀ d', d' ≠ d → getDocumentEpoch p d' s' = getDocumentEpoch p d' s.
Proof. exact (epoch_moves_forward_lemma p d epoch s). Qed.

Lemma rewind_epochs p unloading d epoch s :
  let s' := (rewindDocumentEpoch p unloading d epoch s).1 in
  (∀ d', d' ≠ d → getDocumentEpoch p d' s' = getDocumentEpoch p d' s) ∧
  getDocumentEpoch p d s' ≤ getDocumentEpoch p d s.
Proof.
  unfold rewindDocumentEpoch, rewindStored.
  destruct (Z.leb_spec (getDocumentEpoch p d s) epoch); simpl; [done|].
  destruct unloading; simpl; [done|].
  destruct (negb (isSafeInteger epoch) || (epoch <? 0)) eqn:Ev; simpl; [done|].
  apply isSafeInteger_epoch in Ev. rewrite getDocumentEpoch_put, decide_True by done.
  split; [|lia]. intros d' Hd. by rewrite getDocumentEpoch_put, decide_False.
Qed.

Lemma rewind_lemma p d epoch s :
  0 ≤ epoch < getDocumentEpoch p d s →
  ∃ s' dropped,
    rewindDocumentEpoch p false d epoch s = (s', Returns (dropped, Some (rebuildForEpoch p d true))) ∧
    (∀ n, 0 ≤ n → epochPersistenceName (epochStoreBaseName p d) n ∈ dropped ↔
                  epoch < n ≤ getDocumentEpoch p d s) ∧
    ∀ d', getDocumentEpoch p d' s' = if decide (d' = d) then epoch else getDocumentEpoch p d' s.
Proof.
  intros He. pose proof (getDocumentEpoch_range p d s) as Hr.
  unfold rewindDocumentEpoch, rewindStored.
  rewrite (proj2 (isSafeInteger_epoch epoch)) by lia.
  destruct (Z.leb_spec (getDocumentEpoch p d s) epoch); [lia|]. simpl.
  eexists _, _. split; [done|]. split.
  - intros n Hn. rewrite list_elem_of_fmap. split.
    + intros (m & E & Hm). apply elem_of_seqZ in Hm. apply epochPersistenceName_inj in E; lia.
    + intros Hm. exists n. rewrite elem_of_seqZ. split; [done|lia].
  - intros d'. apply getDocumentEpoch_put. lia.
Qed.

(** C37: rewinding a document to an older epoch of the server drops the local
    stores of exactly the epochs above it (never the one it rebuilds from),
    stores the older epoch, schedules the rebuild, and touches no other
    document's epoch. *)
Theorem rewind_abandons_newer_epochs p d epoch s :
  0 ≤ epoch < getDocumentEpoch p d s →
  ∃ s' dropped,
    rewindDocumentEpoch p false d epoch s = (s', Returns (dropped, Some (rebuildForEpoch p d true))) ∧
    (∀ n, 0 ≤ n → epochPersistenceName (epochStoreBaseName p d) n ∈ dropped ↔
                  epoch < n ≤ getDocumentEpoch p d s) ∧
    ∀ d', getDocumentEpoch p d' s' = if decide (d' = d) then epoch else getDocumentEpoch p d' s.
Proof. exact (rewind_lemma p d epoch s). Qed.
End epochs.

(** Decimal spellings, as an instance for concrete runs. *)
Module Decimal.
#[export] Instance decimal_number : JsNumber := λ s, option_map Z.of_int (NilZero.int_of_string s).

#[export] Instance decimal_number_laws : JsNumberLaws decimal_number.
Proof.
  intros n Hn. unfold Number, decimal_number, numString. rewrite NilZero.isi.
  - simpl. by rewrite DecimalZ.of_to.
  - unfold Z.to_int. destruct n; try discriminate; try lia. intros [= E].
    by apply (DecimalPos.Unsigned.to_uint_nonnil p).
  - unfold Z.to_int. destruct n; try discriminate; lia.
Qed.

Definition plugin : Settings := mkSettings "srv" "https://sync" "vault".
Definition store0 : EpochStore := mkEpochStore (Some ∅) ∅.
Definition store3 : EpochStore := (setDocumentEpoch plugin "vault__doc" 3 store0).1.

Lemma rewind_abandons_newer_epochs_witness :
  ∃ s', getDocumentEpoch plugin "vault__doc" s' = 1 ∧
    rewindDocumentEpoch plugin false "vault__doc" 1 store3 =
    (s', Returns (["vault__doc:epoch:2"; "vault__doc:epoch:3"]%string, Some (RebuildDocument "vault__doc" true))).
Proof.
  destruct (rewind_abandons_newer_epochs plugin "vault__doc" 1 store3) as (s' & dr & E & _ & G).
  { vm_compute. split; congruence. }
  exists s'. split; [exact (G "vault__doc"%string)|].
  vm_compute in E. injection E as <- <-. vm_compute. reflexivity.
Defined.

Lemma epoch_only_moves_forward_witness :
  getDocumentEpoch plugin "vault__doc" store3 ≤
  getDocumentEpoch plugin "vault__doc" (setDocumentEpoch plugin "vault__doc" 5 store3).1.
Proof.
  pose proof (epoch_only_moves_forward plugin "vault__doc" 5 store3) as H.
  destruct (setDocumentEpoch plugin "vault__doc" 5 store3) as [s' r]. exact (proj1 (proj2 H)).
Defined.
End Decimal.
