(* ===== verification/Token.v ===== *)
(** [src/sync/clientToken.ts]: minting document tokens.  At most six requests
    are in flight for the whole process, failures of the server as a whole
    delay every document, and a token is only handed out for the epoch its
    caller was built for.  Each [await] of [getClientToken] ends a step; the
    auth server's answer is an event. *)
From Stdlib Require Import String.
From S2P Require Import Prelude Lib0 Caps Epoch.
#[local] Open Scope Z_scope.

Inductive Authorization := FullAccess | ReadOnly.

Record ClientToken := mkToken {
  url : string;
  baseUrl : string;
  docId : string;
  token : option string;
  authorization : option Authorization;
  epoch : option Z;
  epochPending : bool;
  expiresAt : option Z }.

Definition TOKEN_EXPIRY_MARGIN_MS : Z := 60000.
Definition TOKEN_RETRY_DELAY_MS : Z := 30000.
Definition SERVER_FAILURES_BEFORE_BACKOFF : Z := 3.
Definition MAX_CONCURRENT_TOKEN_REQUESTS : Z := 6.
Definition EPOCH_REGRESSION_GRACE_MS : Z := 10 * 60000.

Definition clientTokenExpired (t : ClientToken) (now : Z) : bool :=
  match expiresAt t with Some at_ => at_ - TOKEN_EXPIRY_MARGIN_MS <=? now | None => false end.

Inductive TokenError :=
  | NoActiveVault
  | DocumentEpochChangedError (documentId : string) (epoch : Z)
  | DocumentEpochPendingError (documentId : string) (localEpoch serverEpoch : Z)
  | HttpError (status : Z)
  | InvalidToken (documentId : string)
  | OtherFailure.

(** How far a call of [getClientToken] has come. *)
Inductive Phase :=
  | Queued             (* its [grant] is in [tokenRequestWaiters] *)
  | Granted            (* it holds a slot and is about to resume *)
  | Delaying           (* in [delay(waitMs)] *)
  | Minting.           (* in [plugin.auth.docToken] *)

#[export] Instance Phase_eq_dec : EqDecision Phase.
Proof. solve_decision. Defined.

Record Request := mkRequest { reqDoc : string; reqExpected : option Z; reqPhase : Phase }.
#[export] Instance eta_Request : Eta Request := λ r, mkRequest (reqDoc r) (reqExpected r) (reqPhase r).

(** The module's variables, the calls in progress by the order they were made,
    the durable epochs they use, and what they caused, oldest first. *)
Record Tokens := mkTokens {
  nextTokenAttemptAt : Z;
  consecutiveServerFailures : Z;
  activeTokenRequests : Z;
  tokenRequestWaiters : list nat;
  epochLagSince : gmap string Z;
  requests : gmap nat Request;
  calls : nat;
  epochs : EpochStore;
  settled : list (nat * throws TokenError ClientToken);
  rebuilds : list Rebuild;
(** for the specification: the server epochs tokens named, newest first, as
    document, time, and whether the epoch was behind this device's *)
named : list (string * Z * bool) }.
#[export] Instance eta_Tokens : Eta Tokens := λ s,
  mkTokens (nextTokenAttemptAt s) (consecutiveServerFailures s) (activeTokenRequests s)
    (tokenRequestWaiters s) (epochLagSince s) (requests s) (calls s) (epochs s) (settled s)
    (rebuilds s) (named s).

Record Env := mkEnv { now : Z; settings : Settings; unloading : bool }.

Definition initial (e : EpochStore) : Tokens := mkTokens 0 0 0 [] ∅ ∅ 0 e [] [] [].

Definition backsOffEveryDocument (error : TokenError) (s : Tokens) : Tokens * bool :=
  match error with
  | DocumentEpochChangedError _ _ | DocumentEpochPendingError _ _ _ => (s, false)
  | HttpError status =>
    if isServerUnavailableStatus status then (s, true)
    else if 500 <=? status then
      let s := s <| consecutiveServerFailures ::= λ n, n + 1 |> in
      (s, SERVER_FAILURES_BEFORE_BACKOFF <=? consecutiveServerFailures s)
    else (s, false)
  | _ => (s, true)
  end.

Definition setPhase (id : nat) (ph : Phase) (s : Tokens) : Tokens :=
  match requests s !! id with
  | Some r => s <| requests ::= insert id (r <| reqPhase := ph |>) |>
  | None => s
  end.

(** [grant] *)
Definition grant (id : nat) (s : Tokens) : Tokens :=
  setPhase id Granted (s <| activeTokenRequests ::= λ n, n + 1 |>).

(** [waitForTokenAttemptSlot] *)
Definition waitForTokenAttemptSlot (id : nat) (s : Tokens) : Tokens :=
  if activeTokenRequests s <? MAX_CONCURRENT_TOKEN_REQUESTS then grant id s
  else s <| tokenRequestWaiters ::= λ ws, ws ++ [id] |>.

(** The function [grant] resolves with; a call runs its [finally] once. *)
Definition release (s : Tokens) : Tokens :=
  let s := s <| activeTokenRequests ::= λ n, n - 1 |> in
  match tokenRequestWaiters s with
  | [] => s
  | w :: ws => grant w (s <| tokenRequestWaiters := ws |>)
  end.

Section minting.
Context {J : JsNumber}.

Definition staleEpoch (e : Env) (documentId : string) (expected : option Z) (s : Tokens) : option Z :=
  let localEpoch := getDocumentEpoch (settings e) documentId (epochs s) in
  match expected with
  | Some x => if localEpoch =? x then None else Some localEpoch
  | None => None
  end.

(** [getClientToken] up to its first [await] *)
Definition getClientToken (e : Env) (documentId : string) (expected : option Z) (s : Tokens) : Tokens :=
  let id := calls s in
  let s := s <| calls := S id |> in
  if decide (activeVaultId (settings e) = ""%string)
  then s <| settled ::= λ l, l ++ [(id, Throws NoActiveVault)] |>
  else match staleEpoch e documentId expected s with
       | Some stale => s <| settled ::= λ l, l ++ [(id, Throws (DocumentEpochChangedError documentId stale))] |>
       | None =>
         waitForTokenAttemptSlot id (s <| requests ::= insert id (mkRequest documentId expected Queued) |>)
       end.

(** It resumes with its slot: wait out the backoff, then mint. *)
Definition resume (e : Env) (id : nat) (s : Tokens) : Tokens :=
  match requests s !! id with
  | Some r => if decide (reqPhase r = Granted)
              then setPhase id (if 0 <? nextTokenAttemptAt s - now e then Delaying else Minting) s
              else s
  | None => s
  end.

Definition delayOver (id : nat) (s : Tokens) : Tokens :=
  match requests s !! id with
  | Some r => if decide (reqPhase r = Delaying) then setPhase id Minting s else s
  | None => s
  end.

(** From the epoch check to the end of the [try], for a token with a URL. *)
Definition checkEpoch (e : Env) (r : Request) (t : ClientToken) (s : Tokens)
    : Tokens * throws TokenError ClientToken :=
  let d := reqDoc r in
  let serverEpoch := default 0 (epoch t) in
  let localEpoch := getDocumentEpoch (settings e) d (epochs s) in
  let s := s <| named ::= cons (d, now e, serverEpoch <? localEpoch) |> in
  let s := if localEpoch <=? serverEpoch then s <| epochLagSince ::= delete d |> else s in
  if localEpoch <? serverEpoch then
    let '(es, accepted) := acceptDocumentEpoch (settings e) (unloading e) d serverEpoch (epochs s) in
    let s := s <| epochs := es |> in
    match accepted with
    | Throws _ => (s, Throws OtherFailure)
    | Returns rebuild => (s <| rebuilds ::= λ l, l ++ option_list rebuild |>,
                          Throws (DocumentEpochChangedError d serverEpoch))
    end
  else if serverEpoch <? localEpoch then
    let since := default (now e) (epochLagSince s !! d) in
    if EPOCH_REGRESSION_GRACE_MS <=? now e - since then
      let s := s <| epochLagSince ::= delete d |> in
      let '(es, rewound) := rewindDocumentEpoch (settings e) (unloading e) d serverEpoch (epochs s) in
      let s := s <| epochs := es |> in
      match rewound with
      | Throws _ => (s, Throws OtherFailure)
      | Returns (_, rebuild) => (s <| rebuilds ::= λ l, l ++ option_list rebuild |>,
                                 Throws (DocumentEpochChangedError d serverEpoch))
      end
    else (s <| epochLagSince ::= insert d since |>, Throws (DocumentEpochPendingError d localEpoch serverEpoch))
  else if epochPending t then (s, Throws (DocumentEpochPendingError d localEpoch serverEpoch))
  else match staleEpoch e d (reqExpected r) s with
       | Some stale => (s, Throws (DocumentEpochChangedError d stale))
       | None => (s, Returns t)
       end.

(** The [try] block after [docToken] settled; [None] is a null token. *)
Definition receiveToken (e : Env) (r : Request) (reply : throws TokenError (option ClientToken)) (s : Tokens)
    : Tokens * throws TokenError ClientToken :=
  match reply with
  | Throws err => (s, Throws err)
  | Returns t =>
    let s := (s <| nextTokenAttemptAt := 0 |>) <| consecutiveServerFailures := 0 |> in
    match t with
    | Some t => if decide (url t = ""%string) then (s, Throws (InvalidToken (reqDoc r))) else checkEpoch e r t s
    | None => (s, Throws (InvalidToken (reqDoc r)))
    end
  end.

(** The [catch] and [finally] blocks. *)
Definition finishRequest (e : Env) (id : nat) (result : throws TokenError ClientToken) (s : Tokens) : Tokens :=
  let s := match result with
           | Throws err =>
             let '(s, all) := backsOffEveryDocument err s in
             if all then s <| nextTokenAttemptAt := now e + TOKEN_RETRY_DELAY_MS |> else s
           | Returns _ => s
           end in
  release ((s <| requests ::= delete id |>) <| settled ::= λ l, l ++ [(id, result)] |>).

Definition docTokenSettles (e : Env) (id : nat) (reply : throws TokenError (option ClientToken)) (s : Tokens) : Tokens :=
  match requests s !! id with
  | Some r => if decide (reqPhase r = Minting)
              then let '(s, result) := receiveToken e r reply s in finishRequest e id result s
              else s
  | None => s
  end.

Inductive Event :=
  | Call (documentId : string) (expected : option Z)
  | Resume (id : nat)
  | DelayOver (id : nat)
  | DocTokenSettles (id : nat) (reply : throws TokenError (option ClientToken)).

Definition step (s : Tokens) (x : Event * Env) : Tokens :=
  let '(ev, e) := x in
  match ev with
  | Call d expected => getClientToken e d expected s
  | Resume id => resume e id s
  | DelayOver id => delayOver id s
  | DocTokenSettles id reply => docTokenSettles e id reply s
  end.

Definition run (es : EpochStore) (evs : list (Event * Env)) : Tokens := foldl step (initial es) evs.
End minting.
