(* ===== verification/TokenSpec.v ===== *)
(** What [clientToken.ts] guarantees in every reachable state. *)
From Stdlib Require Import String.
From S2P Require Import Prelude Lib0 Caps Epoch Token.
#[local] Open Scope Z_scope.

(** ** Slots *)

Record slots_ok (s : Tokens) : Prop := mkSlots {
  so_nodup : NoDup (tokenRequestWaiters s);
  so_queued : ∀ id, id ∈ tokenRequestWaiters s ↔ ∃ r, requests s !! id = Some r ∧ reqPhase r = Queued;
  so_count : activeTokenRequests s = Z.of_nat (size (requests s)) - zlength (tokenRequestWaiters s);
  so_range : 0 ≤ activeTokenRequests s ≤ MAX_CONCURRENT_TOKEN_REQUESTS;
  so_busy : tokenRequestWaiters s ≠ [] → activeTokenRequests s = MAX_CONCURRENT_TOKEN_REQUESTS;
  so_calls : ∀ id, is_Some (requests s !! id) → (id < calls s)%nat }.

(** The fields [slots_ok] reads. *)
Definition same_slots (s s' : Tokens) : Prop :=
  tokenRequestWaiters s' = tokenRequestWaiters s ∧ requests s' = requests s ∧
  activeTokenRequests s' = activeTokenRequests s ∧ calls s' = calls s.

Lemma slots_ok_same s s' : same_slots s s' → slots_ok s → slots_ok s'.
Proof. intros (Hw & Hr & Ha & Hc) []. split; rewrite ?Hw, ?Hr, ?Ha, ?Hc; done. Qed.

Lemma same_slots_refl s : same_slots s s.
Proof. done. Qed.

Lemma same_slots_trans s s' s'' : same_slots s s' → same_slots s' s'' → same_slots s s''.
Proof. unfold same_slots. naive_solver congruence. Qed.

(** Moving a call that holds a slot to another phase that holds one. *)
Lemma slots_ok_setPhase s id r ph : requests s !! id = Some r → reqPhase r ≠ Queued → ph ≠ Queued →
  slots_ok s → slots_ok (setPhase id ph s).
Proof.
  intros E Hr Hph []. unfold setPhase. rewrite E. split; simpl; try done.
  - intros id'. rewrite so_queued0. destruct (decide (id' = id)) as [->|Hne].
    + rewrite lookup_insert_eq, E. split; intros (r' & [= <-] & ?); done.
    + by rewrite lookup_insert_ne.
  - by rewrite map_size_insert_Some by eauto.
  - intros id'. destruct (decide (id' = id)) as [->|Hne]; [intros _; apply so_calls0; eauto|].
    rewrite lookup_insert_ne by done. apply so_calls0.
Qed.

Lemma slots_ok_enter s d expected : slots_ok s →
  slots_ok (waitForTokenAttemptSlot (calls s)
    ((s <| calls := S (calls s) |>) <| requests ::= insert (calls s) (mkRequest d expected Queued) |>)).
Proof.
  intros []. set (id := calls s).
  assert (requests s !! id = None) as Hn.
  { destruct (requests s !! id) eqn:E; [|done]. pose proof (so_calls0 id ltac:(eauto)). unfold id in *. lia. }
  assert (id ∉ tokenRequestWaiters s) as Hw by (rewrite so_queued0, Hn; naive_solver).
  assert (∀ id' r, is_Some (<[id := r]> (requests s) !! id') → (id' < S id)%nat) as Hc.
  { intros id' r. destruct (decide (id' = id)) as [->|Hne]; [lia|].
    rewrite lookup_insert_ne by done. intros Hs%so_calls0. unfold id. lia. }
  unfold waitForTokenAttemptSlot, MAX_CONCURRENT_TOKEN_REQUESTS in *. simpl.
  destruct (Z.ltb_spec (activeTokenRequests s) 6).
  - unfold grant, setPhase. simpl. rewrite lookup_insert_eq. simpl. rewrite insert_insert_eq.
    split; simpl; try done.
    + intros id'. rewrite so_queued0. destruct (decide (id' = id)) as [->|Hne].
      * rewrite Hn, lookup_insert_eq. naive_solver.
      * by rewrite lookup_insert_ne.
    + rewrite map_size_insert_None by done. lia.
    + unfold MAX_CONCURRENT_TOKEN_REQUESTS. lia.
    + intros Hne. pose proof (so_busy0 Hne). lia.
    + intros id'. apply Hc.
  - split; simpl; try done.
    + apply NoDup_app. split_and!; [done| |apply NoDup_singleton].
      intros x Hx ->%list_elem_of_singleton. done.
    + intros id'. rewrite elem_of_app, list_elem_of_singleton, so_queued0.
      destruct (decide (id' = id)) as [->|Hne].
      * rewrite lookup_insert_eq. split; [intros _; by eexists|by right].
      * rewrite lookup_insert_ne by done. naive_solver.
    + rewrite map_size_insert_None by done. autorewrite with zlen. lia.
    + unfold MAX_CONCURRENT_TOKEN_REQUESTS. lia.
    + intros id'. apply Hc.
Qed.

(** A call that held a slot is over: its slot goes to the first waiter. *)
Lemma slots_ok_release s id r : requests s !! id = Some r → reqPhase r ≠ Queued →
  slots_ok s → slots_ok (release (s <| requests ::= delete id |>)).
Proof.
  intros E Hr [].
  assert (id ∉ tokenRequestWaiters s) as Hw by (rewrite so_queued0, E; naive_solver).
  assert (∀ id', is_Some (delete id (requests s) !! id') → (id' < calls s)%nat) as Hc.
  { intros id'. rewrite lookup_delete_is_Some. intros [_ ?]. auto. }
  assert (Z.of_nat (size (delete id (requests s))) = Z.of_nat (size (requests s)) - 1) as Hsz.
  { rewrite map_size_delete_Some by eauto. assert (size (requests s) ≠ 0%nat); [|lia].
    intros H0%map_size_empty_inv. rewrite H0 in E. by rewrite lookup_empty in E. }
  assert (1 ≤ activeTokenRequests s) as Hpos.
  { destruct (tokenRequestWaiters s); [|rewrite so_busy0; done].
    rewrite zlength_nil in so_count0. lia. }
  assert (∀ id', (∃ r', delete id (requests s) !! id' = Some r' ∧ reqPhase r' = Queued) ↔ id' ∈ tokenRequestWaiters s) as Hq.
  { intros id'. rewrite so_queued0. destruct (decide (id' = id)) as [->|Hne].
    - rewrite lookup_delete_eq, E. naive_solver.
    - by rewrite lookup_delete_ne. }
  unfold release. simpl. destruct (tokenRequestWaiters s) as [|w ws] eqn:Ews.
  - split; simpl; rewrite ?Ews; try done; try lia; intros id'; by rewrite Hq.
  - destruct (proj2 (Hq w)) as (rw & Erw & Hrw); [left|].
    apply NoDup_cons in so_nodup0 as [Hwn Hnd].
    unfold grant, setPhase. simpl. rewrite Erw. autorewrite with zlen in so_count0.
    split; simpl; try done.
    + intros id'. destruct (decide (id' = w)) as [->|Hne].
      * rewrite lookup_insert_eq. naive_solver.
      * rewrite lookup_insert_ne, Hq, elem_of_cons by done. naive_solver.
    + rewrite map_size_insert_Some by eauto. lia.
    + lia.
    + intros _. rewrite so_busy0 by done. lia.
    + intros id'. destruct (decide (id' = w)) as [->|Hne]; [intros _; apply Hc; eauto|].
      rewrite lookup_insert_ne by done. apply Hc.
Qed.

Section spec.
Context {J : JsNumber} {JL : JsNumberLaws J}.

Lemma checkEpoch_slots e r t s : same_slots s (checkEpoch e r t s).1.
Proof.
  unfold checkEpoch. cbv zeta.
  repeat match goal with
  | |- context [match ?x with _ => _ end] =>
    match x with context [match _ with _ => _ end] => fail 1 | _ => destruct x end
  end; done.
Qed.

Lemma receiveToken_slots e r reply s : same_slots s (receiveToken e r reply s).1.
Proof.
  unfold receiveToken. destruct reply as [[t|]|]; try done. case_decide; [done|].
  eapply same_slots_trans; [|apply checkEpoch_slots]. done.
Qed.

Lemma backsOff_slots err s : same_slots s (backsOffEveryDocument err s).1.
Proof. unfold backsOffEveryDocument. destruct err; try done. by repeat case_match. Qed.

Lemma docTokenSettles_slots e id reply s : slots_ok s → slots_ok (docTokenSettles e id reply s).
Proof.
  intros H. unfold docTokenSettles. destruct (requests s !! id) as [r|] eqn:E; [|done].
  case_decide as Hph; [|done].
  destruct (receiveToken e r reply s) as [s1 result] eqn:E1.
  pose proof (receiveToken_slots e r reply s) as S1. rewrite E1 in S1. simpl in S1.
  assert (∃ s2, same_slots s1 s2 ∧
    finishRequest e id result s1 = release ((s2 <| requests ::= delete id |>) <| settled ::= λ l, l ++ [(id, result)] |>))
    as (s2 & S2 & Heq).
  { unfold finishRequest. destruct result as [t|err]; [by exists s1|].
    pose proof (backsOff_slots err s1). destruct (backsOffEveryDocument err s1) as [s2 all]. simpl in *.
    destruct all; [|by exists s2]. exists (s2 <| nextTokenAttemptAt := now e + TOKEN_RETRY_DELAY_MS |>). done. }
  rewrite Heq. clear Heq.
  assert (same_slots s s2) as S by (by eapply same_slots_trans).
  set (s3 := s2 <| settled ::= λ l, l ++ [(id, result)] |>).
  change (slots_ok (release (s3 <| requests ::= delete id |>))).
  apply slots_ok_release with r; [|by rewrite Hph|by eapply slots_ok_same].
  destruct S as (_ & Hr & _). by rewrite <- E, <- Hr.
Qed.

Lemma step_slots s x : slots_ok s → slots_ok (step s x).
Proof.
  destruct x as [[d expected|id|id|id reply] e]; intros H; simpl.
  - unfold getClientToken.
    assert (∀ r, slots_ok ((s <| calls := S (calls s) |>) <| settled ::= λ l, l ++ [(calls s, r)] |>)) as Hc.
    { intros r. destruct H. split; simpl; try done. intros id Hid%so_calls0. lia. }
    case_decide; [apply Hc|].
    assert (staleEpoch e d expected (s <| calls := S (calls s) |>) = staleEpoch e d expected s) as -> by done.
    destruct (staleEpoch e d expected s); [apply Hc|]. by apply slots_ok_enter.
  - unfold resume. destruct (requests s !! id) as [r|] eqn:E; [|done]. case_decide as Hg; [|done].
    apply slots_ok_setPhase with r; [done|congruence|by case_match|done].
  - unfold delayOver. destruct (requests s !! id) as [r|] eqn:E; [|done]. case_decide as Hg; [|done].
    by apply slots_ok_setPhase with r; [|congruence|..].
  - by apply docTokenSettles_slots.
Qed.

Lemma run_slots es evs : slots_ok (run es evs).
Proof.
  apply (foldl_preserves slots_ok); [intros; by apply step_slots|].
  split; simpl; try done.
  - constructor.
  - intros id. rewrite lookup_empty. split; [by intros ?%elem_of_nil|naive_solver].
  - intros id [? H]. by rewrite lookup_empty in H.
Qed.

(** in every reachable state at most six token requests hold a slot;
    the slots in use are exactly the calls that are not queued, so none is ever
    leaked; and a call only waits while all six are in use. *)
Theorem token_slots es evs :
  let s := run es evs in
  0 ≤ activeTokenRequests s ≤ MAX_CONCURRENT_TOKEN_REQUESTS ∧
  NoDup (tokenRequestWaiters s) ∧
  (∀ id, id ∈ tokenRequestWaiters s ↔ ∃ r, requests s !! id = Some r ∧ reqPhase r = Queued) ∧
  activeTokenRequests s = Z.of_nat (size (requests s)) - zlength (tokenRequestWaiters s) ∧
  (tokenRequestWaiters s ≠ [] → activeTokenRequests s = MAX_CONCURRENT_TOKEN_REQUESTS).
Proof.
  intros s. assert (slots_ok s) as [] by apply run_slots. split_and!; auto; apply so_range0.
Qed.

(** ** Epochs *)

Lemma checkEpoch_settled e r t s : settled (checkEpoch e r t s).1 = settled s.
Proof.
  unfold checkEpoch. cbv zeta.
  destruct (getDocumentEpoch (settings e) (reqDoc r) (epochs s) <=? default 0 (epoch t)); by repeat case_match; simplify_eq.
Qed.

(** What a token's epoch leads to, for a token with a URL. *)
Lemma checkEpoch_returns e r t s s' t' : checkEpoch e r t s = (s', Returns t') →
  t' = t ∧ epochPending t = false ∧ epochs s' = epochs s ∧
  default 0 (epoch t) = getDocumentEpoch (settings e) (reqDoc r) (epochs s) ∧
  ∀ x, reqExpected r = Some x → x = default 0 (epoch t).
Proof.
  unfold checkEpoch, staleEpoch. cbv zeta. set (server := default 0 (epoch t)).
  intros H. destruct (Z.ltb_spec (getDocumentEpoch (settings e) (reqDoc r) (epochs s)) server).
  { repeat split_match_in H; simplify_eq. }
  destruct (Z.ltb_spec server (getDocumentEpoch (settings e) (reqDoc r) (epochs s))).
  { repeat split_match_in H; simplify_eq. }
  assert (server = getDocumentEpoch (settings e) (reqDoc r) (epochs s)) as E by lia.
  rewrite (proj2 (Z.leb_le _ _)) in H by lia. simpl in H.
  destruct (epochPending t) eqn:Ep; [done|].
  destruct (reqExpected r) as [x|] eqn:Ex; simpl in H.
  - destruct (Z.eqb_spec (getDocumentEpoch (settings e) (reqDoc r) (epochs s)) x) as [Hx|]; simplify_eq.
    split_and!; try done. intros x' [= <-]. congruence.
  - simplify_eq. by split_and!.
Qed.

(** What happens to the epoch store while one token is looked at. *)
Lemma checkEpoch_epochs e r t s : let s' := (checkEpoch e r t s).1 in
  let d := reqDoc r in let server := default 0 (epoch t) in
  let get d s := getDocumentEpoch (settings e) d (epochs s) in
  (∀ d', d' ≠ d → get d' s' = get d' s) ∧
  (get d s' < get d s →
     server < get d s ∧
     EPOCH_REGRESSION_GRACE_MS <= now e - default (now e) (epochLagSince s !! d)) ∧
  (get d s < server ≤ max_safe_integer →
     get d s' = server ∧ (checkEpoch e r t s).2 = Throws (DocumentEpochChangedError d server)).
Proof.
  unfold checkEpoch. cbv zeta. set (server := default 0 (epoch t)). set (d := reqDoc r).
  pose proof (getDocumentEpoch_range (settings e) d (epochs s)) as Hr.
  destruct (Z.ltb_spec (getDocumentEpoch (settings e) d (epochs s)) server) as [Hlt|Hge].
  - rewrite (proj2 (Z.leb_le _ _)) by lia. simpl. unfold acceptDocumentEpoch.
    pose proof (epoch_moves_forward_lemma (settings e) d server (epochs s)) as Hf.
    destruct (setDocumentEpoch (settings e) d server (epochs s)) as [es ch]. destruct Hf as (Hd & Hle & Ho).
    destruct ch as [ch|err]; simpl; split_and!; intros; try done; try lia; try (by apply Ho).
    + case_decide; [split; [apply Hd|done]|lia].
    + case_decide; [by destruct Hd|lia].
  - destruct (Z.ltb_spec server (getDocumentEpoch (settings e) d (epochs s))) as [Hlt|Heq].
    + assert ((getDocumentEpoch (settings e) d (epochs s) <=? server) = false) as -> by (apply Z.leb_gt; lia). simpl.
      destruct (Z.leb_spec EPOCH_REGRESSION_GRACE_MS (now e - default (now e) (epochLagSince s !! d))); simpl in *.
      * destruct (rewind_epochs (settings e) (unloading e) d server (epochs s)) as [Ho Hle].
        destruct (rewindDocumentEpoch (settings e) (unloading e) d server (epochs s)) as [es [[dr rb]|err]];
          simpl in *; split_and!; intros; try done; try lia; by apply Ho.
      * split_and!; intros; try done; lia.
    + assert ((getDocumentEpoch (settings e) d (epochs s) <=? server) = true) as -> by (apply Z.leb_le; lia).
      destruct (epochPending t); [|destruct (staleEpoch _ _ _ _)]; simpl; split_and!; intros; try done; lia.
Qed.

Lemma finishRequest_epochs e id result s :
  epochs (finishRequest e id result s) = epochs s ∧ named (finishRequest e id result s) = named s ∧
  epochLagSince (finishRequest e id result s) = epochLagSince s ∧
  settled (finishRequest e id result s) = settled s ++ [(id, result)].
Proof.
  assert (∀ s, let s' := release s in epochs s' = epochs s ∧ named s' = named s ∧
            epochLagSince s' = epochLagSince s ∧ settled s' = settled s) as Hr.
  { intros s1. unfold release, grant, setPhase. simpl. by repeat case_match. }
  assert (∀ err s, let s' := (backsOffEveryDocument err s).1 in epochs s' = epochs s ∧ named s' = named s ∧
            epochLagSince s' = epochLagSince s ∧ settled s' = settled s) as Hb.
  { intros err s1. unfold backsOffEveryDocument. destruct err; try done. by repeat case_match. }
  unfold finishRequest. destruct result as [t|err].
  - match goal with |- context [release ?x] => destruct (Hr x) as (-> & -> & -> & ->) end. done.
  - pose proof (Hb err s) as Hs. destruct (backsOffEveryDocument err s) as [s1 []]; simpl in Hs; destruct Hs as (<- & <- & <- & <-);
      match goal with |- context [release ?x] => destruct (Hr x) as (-> & -> & -> & ->) end; done.
Qed.

Lemma docTokenSettles_minting e id reply s r :
  requests s !! id = Some r → reqPhase r = Minting →
  let '(s1, result) := receiveToken e r reply s in
  docTokenSettles e id reply s = finishRequest e id result s1.
Proof.
  intros E Hp. unfold docTokenSettles. rewrite E, decide_True by done. by destruct (receiveToken e r reply s).
Qed.

(** C16: a token is handed to its caller only for the epoch the device
    stores for the document at that moment, which is also the one the caller
    was built for, and never while that epoch is pending; and a token naming a
    later epoch moves the device to it and fails the call. *)
Theorem token_matches_epoch e id s r reply :
  requests s !! id = Some r → reqPhase r = Minting →
  let s' := docTokenSettles e id reply s in
  let local := getDocumentEpoch (settings e) (reqDoc r) (epochs s) in
  ∃ result, settled s' = settled s ++ [(id, result)] ∧
  (∀ t, result = Returns t →
     reply = Returns (Some t) ∧ url t ≠ ""%string ∧ epochPending t = false ∧ default 0 (epoch t) = local ∧
     (∀ x, reqExpected r = Some x → x = local) ∧
     getDocumentEpoch (settings e) (reqDoc r) (epochs s') = local) ∧
  (∀ t, reply = Returns (Some t) → url t ≠ ""%string → local < default 0 (epoch t) ≤ max_safe_integer →
     result = Throws (DocumentEpochChangedError (reqDoc r) (default 0 (epoch t))) ∧
     getDocumentEpoch (settings e) (reqDoc r) (epochs s') = default 0 (epoch t)).
Proof.
  intros E Hp. cbv zeta. pose proof (docTokenSettles_minting e id reply s r E Hp) as Hd.
  destruct (receiveToken e r reply s) as [s1 result] eqn:Er. rewrite Hd.
  destruct (finishRequest_epochs e id result s1) as (-> & _ & _ & ->).
  assert (settled s1 = settled s ∧
    (∀ t, result = Returns t → reply = Returns (Some t) ∧ url t ≠ ""%string ∧
       ∃ s0, epochs s0 = epochs s ∧ checkEpoch e r t s0 = (s1, Returns t)) ∧
    (∀ t, reply = Returns (Some t) → url t ≠ ""%string →
       ∃ s0, epochs s0 = epochs s ∧ checkEpoch e r t s0 = (s1, result))) as (-> & Hret & Hchk).
  { unfold receiveToken in Er. destruct reply as [[t|]|err]; simplify_eq; [|by split_and!; intros; simplify_eq..].
    case_decide as Hu; [simplify_eq; by split_and!; intros; simplify_eq|].
    pose proof (checkEpoch_settled e r t ((s <| nextTokenAttemptAt := 0 |>) <| consecutiveServerFailures := 0 |>)) as Hs.
    rewrite Er in Hs. split_and!; [done| |].
    - intros t' ->. destruct (checkEpoch_returns _ _ _ _ _ _ Er) as (-> & _). split_and!; [done..|].
      eexists. split; [|exact Er]. done.
    - intros t' [= <-] _. eexists. split; [|exact Er]. done. }
  exists result. split_and!; [done| |].
  - intros t ->. destruct (Hret t eq_refl) as (Hr & Hu & s0 & E0 & Hc).
    destruct (checkEpoch_returns _ _ _ _ _ _ Hc) as (_ & Hpe & He & Hl & Hx). rewrite E0 in *.
    split_and!; try done; [intros x Hx'; rewrite (Hx x Hx'); congruence|congruence].
  - intros t Hr Hu Hlt. destruct (Hchk t Hr Hu) as (s0 & E0 & Hc).
    destruct (checkEpoch_epochs e r t s0) as (_ & _ & H3). rewrite Hc, E0 in H3. simpl in H3.
    destruct (H3 Hlt) as [? ?]. done.
Qed.

(** ** The grace period of an epoch that went back *)

Definition namesOf (d : string) (s : Tokens) : list (string * Z * bool) :=
  filter (λ x, x.1.1 = d) (named s).

(** Since [t], and at least once, every token of [d] named an epoch behind. *)
Definition lagging_since (d : string) (t : Z) (l : list (string * Z * bool)) : Prop :=
  ∃ recent older, l = recent ++ (d, t, true) :: older ∧ Forall (λ x, x.2 = true) recent.

Definition lag_ok (s : Tokens) : Prop :=
  ∀ d t, epochLagSince s !! d = Some t → lagging_since d t (namesOf d s).

Lemma lagging_since_cons d t l x : x.2 = true → lagging_since d t l → lagging_since d t (x :: l).
Proof. intros Hx (rc & o & -> & H). exists (x :: rc), o. split; [done|by constructor]. Qed.

(** What looking at a token does to the log and to the lag records. *)
Lemma checkEpoch_lag e r t s : let s' := (checkEpoch e r t s).1 in
  let d := reqDoc r in
  let lag := default 0 (epoch t) <? getDocumentEpoch (settings e) d (epochs s) in
  named s' = (d, now e, lag) :: named s ∧
  (epochLagSince s' = delete d (epochLagSince s) ∨
   lag = true ∧ epochLagSince s' = <[d := default (now e) (epochLagSince s !! d)]> (epochLagSince s)).
Proof.
  unfold checkEpoch. cbv zeta. set (server := default 0 (epoch t)). set (d := reqDoc r).
  destruct (Z.ltb_spec (getDocumentEpoch (settings e) d (epochs s)) server) as [Hlt|Hge].
  - assert ((getDocumentEpoch (settings e) d (epochs s) <=? server) = true) as -> by (apply Z.leb_le; lia). simpl.
    repeat case_match; simpl; auto.
  - destruct (Z.ltb_spec server (getDocumentEpoch (settings e) d (epochs s))) as [Hlt|Heq].
    + assert ((getDocumentEpoch (settings e) d (epochs s) <=? server) = false) as -> by (apply Z.leb_gt; lia). simpl.
      repeat case_match; simpl; auto.
    + assert ((getDocumentEpoch (settings e) d (epochs s) <=? server) = true) as -> by (apply Z.leb_le; lia). simpl.
      repeat case_match; simpl; auto.
Qed.

Lemma checkEpoch_lag_ok e r t s : lag_ok s → lag_ok (checkEpoch e r t s).1.
Proof.
  intros H d t0. destruct (checkEpoch_lag e r t s) as (Hn & He). unfold namesOf. rewrite Hn.
  destruct He as [->|(Hlag & ->)].
  - intros [Hne Ht]%lookup_delete_Some. rewrite filter_cons_False by (simpl; congruence). by apply H.
  - rewrite Hlag. intros [[<- Ht]|[Hne Ht]]%lookup_insert_Some.
    + rewrite filter_cons_True by done. destruct (epochLagSince s !! reqDoc r) as [t1|] eqn:E; simpl in Ht; subst t0.
      * apply lagging_since_cons; [done|]. by apply H.
      * exists [], (namesOf (reqDoc r) s). split; [done|constructor].
    + rewrite filter_cons_False by (simpl; congruence). by apply H.
Qed.

Lemma lag_ok_same s s' : epochLagSince s' = epochLagSince s → named s' = named s → lag_ok s → lag_ok s'.
Proof. unfold lag_ok, namesOf. intros -> ->. done. Qed.

Lemma docTokenSettles_case e id reply s :
  docTokenSettles e id reply s = s ∨
  (∃ result s1, epochs s1 = epochs s ∧ epochLagSince s1 = epochLagSince s ∧ named s1 = named s ∧
     docTokenSettles e id reply s = finishRequest e id result s1) ∨
  ∃ r t s1, epochs s1 = epochs s ∧ epochLagSince s1 = epochLagSince s ∧ named s1 = named s ∧
     docTokenSettles e id reply s = finishRequest e id (checkEpoch e r t s1).2 (checkEpoch e r t s1).1.
Proof.
  unfold docTokenSettles. destruct (requests s !! id) as [r|]; [|by left]. case_decide; [|by left]. right.
  unfold receiveToken. destruct reply as [[t|]|err]; [case_decide|..]; [left|right|left|left].
  1,3,4: by eexists _, _; split_and!; [| | |reflexivity].
  eexists r, t, _. split_and!; [| | |by rewrite (surjective_pairing (checkEpoch _ _ _ _))]; done.
Qed.

(** Every other step leaves epochs and lag records alone. *)
Lemma step_frame s ev e : (∀ id reply, ev ≠ DocTokenSettles id reply) →
  epochs (step s (ev, e)) = epochs s ∧ epochLagSince (step s (ev, e)) = epochLagSince s ∧
  named (step s (ev, e)) = named s.
Proof.
  intros Hev. destruct ev as [d x|id|id|id reply]; [..|by edestruct Hev]; simpl;
    unfold getClientToken, waitForTokenAttemptSlot, grant, resume, delayOver, setPhase; simpl;
    by repeat case_match.
Qed.

Lemma step_lag s x : lag_ok s → lag_ok (step s x).
Proof.
  destruct x as [ev e]. intros H. destruct ev as [d x|id|id|id reply].
  1-3: by (apply (lag_ok_same s); [apply step_frame..|]).
  simpl. destruct (docTokenSettles_case e id reply s) as [->|[(res & s1 & _ & E1 & E2 & ->)|(r & t & s1 & _ & E1 & E2 & ->)]]; [done| |].
  - destruct (finishRequest_epochs e id res s1) as (_ & F2 & F3 & _). apply (lag_ok_same s); [congruence..|done].
  - match goal with |- lag_ok (finishRequest e id ?res ?s2) =>
      destruct (finishRequest_epochs e id res s2) as (_ & F2 & F3 & _) end.
    eapply lag_ok_same; [exact F3|exact F2|]. apply checkEpoch_lag_ok. by apply (lag_ok_same s).
Qed.

Lemma run_lag es evs : lag_ok (run es evs).
Proof. apply (foldl_preserves lag_ok); [intros; by apply step_lag|].
  intros d t H. simpl in H. by rewrite lookup_empty in H.
Qed.

(** C38: a step moves a document's stored epoch back only after tokens have
    named an older epoch, without one that did not in between, for at least
    the ten minutes of grace: a server still activating an epoch this device
    accepted is waited for. *)
Theorem epoch_rewound_only_after_grace es evs ev e d :
  let s := run es evs in
  let s' := step s (ev, e) in
  getDocumentEpoch (settings e) d (epochs s') < getDocumentEpoch (settings e) d (epochs s) →
  ∃ t, lagging_since d t (namesOf d s') ∧ EPOCH_REGRESSION_GRACE_MS ≤ now e - t.
Proof.
  cbv zeta. pose proof (run_lag es evs) as Hlag. revert Hlag. generalize (run es evs). intros s Hlag.
  destruct ev as [d0 x|id|id|id reply].
  1-3: match goal with |- context [step ?s0 (?ev, ?e0)] =>
    rewrite (proj1 (step_frame s0 ev e0 ltac:(done))) end; lia.
  simpl. destruct (docTokenSettles_case e id reply s) as [->|[(res & s1 & E0 & E1 & E2 & ->)|(r & t & s1 & E0 & E1 & E2 & ->)]]; [lia| |].
  - destruct (finishRequest_epochs e id res s1) as (-> & _). rewrite E0. lia.
  - match goal with |- context [finishRequest e id ?res ?s2] =>
      destruct (finishRequest_epochs e id res s2) as (-> & F2 & _) end.
    destruct (checkEpoch_epochs e r t s1) as (Ho & Hle & _). rewrite E0 in *.
    destruct (checkEpoch_lag e r t s1) as (Hn & _). rewrite E0 in Hn.
    destruct (decide (d = reqDoc r)) as [->|Hne]; [|rewrite Ho by done; lia].
    intros [Hs Hg]%Hle. unfold namesOf. rewrite F2, Hn, filter_cons_True, E2 by done.
    rewrite (proj2 (Z.ltb_lt _ _) Hs), E1 in *.
    destruct (epochLagSince s !! reqDoc r) as [t0|] eqn:El; simpl in Hg.
    + exists t0. split; [|done]. apply lagging_since_cons; [done|]. by apply Hlag.
    + unfold EPOCH_REGRESSION_GRACE_MS in Hg. lia.
Qed.
End spec.

Module Sample.
Import Epoch.Decimal.
Definition doc : string := "vault__doc"%string.
Definition at_ (t : Z) : Env := mkEnv t plugin false.
Definition tok (n : Z) : ClientToken := mkToken "wss://h/d" "https://h" doc None None (Some n) false None.

Definition minting : Tokens := run store3 [(Call doc (Some 3), at_ 0); (Resume 0, at_ 0)].

Lemma token_matches_epoch_witness :
  ∃ result, settled (docTokenSettles (at_ 5) 0 (Returns (Some (tok 4))) minting) = [(0%nat, result)] ∧
  result = Throws (DocumentEpochChangedError doc 4).
Proof.
  destruct (token_matches_epoch (at_ 5) 0 minting (mkRequest doc (Some 3) Minting) (Returns (Some (tok 4))))
    as (result & Hs & _ & H); [vm_compute; reflexivity|reflexivity|].
  exists result. split; [exact Hs|]. apply (H (tok 4) eq_refl); [discriminate|].
  vm_compute. split; congruence.
Defined.

(** Two lagging replies eleven minutes apart. *)
Definition lagged : list (Event * Env) :=
  [(Call doc (Some 3), at_ 0); (Resume 0, at_ 0); (DocTokenSettles 0 (Returns (Some (tok 1))), at_ 0);
   (Call doc (Some 3), at_ 660000); (Resume 1, at_ 660000)].

Lemma epoch_rewound_only_after_grace_witness :
  ∃ t, lagging_since doc t (namesOf doc (step (run store3 lagged) (DocTokenSettles 1 (Returns (Some (tok 1))), at_ 660000))) ∧
    EPOCH_REGRESSION_GRACE_MS ≤ 660000 - t.
Proof. apply (epoch_rewound_only_after_grace store3 lagged). vm_compute. reflexivity. Defined.
End Sample.
