(* ===== verification/TextMerge.v ===== *)
(** [src/textMerge.ts]: the line-oriented three-way merge, and the two-way
    merge of texts without shared history.  [diffArrays] of the [diff] package
    is a parameter; all the merge relies on is that it is an edit script from
    the first array to the second. *)
From Stdlib Require Import String.
From S2P Require Import Prelude.
#[local] Open Scope Z_scope.

(** A text is its sequence of UTF-16 code units. *)
Definition text : Type := list Z.
Definition NL : Z := 10.
Definition CR : Z := 13.

(** [text.match(/[^\n]*\n|[^\n]+$/g) ?? []] *)
Fixpoint lines (t : text) : list text :=
  match t with
  | [] => []
  | c :: t' =>
    if c =? NL then [c] :: lines t'
    else match lines t' with
         | [] => [[c]]
         | l :: ls => (c :: l) :: ls
         end
  end.

Record ArrayChange := mkChange { added : bool; removed : bool; changeValue : list text }.

Class Diff := diffArrays : list text → list text → list ArrayChange.

(** What the package documents: the parts not added spell the old array, those
    not removed the new one, no part is both and none is empty. *)
Class DiffLaws (D : Diff) : Prop := {
  diff_old base next :
    concat (map changeValue (filter (λ c, added c = false) (diffArrays base next))) = base;
  diff_new base next :
    concat (map changeValue (filter (λ c, removed c = false) (diffArrays base next))) = next;
  diff_one base next c : c ∈ diffArrays base next → added c && removed c = false;
  diff_parts base next c : c ∈ diffArrays base next → changeValue c ≠ [] }.

Record TextEdit := mkEdit { start : Z; end_ : Z; replacement : list text }.
#[export] Instance eta_TextEdit : Eta TextEdit := λ e, mkEdit (start e) (end_ e) (replacement e).

#[export] Instance TextEdit_eq_dec : EqDecision TextEdit.
Proof. solve_decision. Defined.

Inductive TextMergeResult := Merged (content : text) | Conflict.

Record EditState := mkES { result : list TextEdit; baseOffset : Z; pending : option TextEdit }.

Definition flush (s : EditState) : EditState :=
  match pending s with
  | None => s
  | Some p => mkES (result s ++ [p]) (baseOffset s) None
  end.

(** The loop body of [edits]. *)
Definition editStep (s : EditState) (c : ArrayChange) : EditState :=
  if negb (added c) && negb (removed c) then
    let s := flush s in mkES (result s) (baseOffset s + zlength (changeValue c)) (pending s)
  else
    let p := default (mkEdit (baseOffset s) (baseOffset s) []) (pending s) in
    if removed c then
      let o := baseOffset s + zlength (changeValue c) in
      mkES (result s) o (Some (p <| end_ := o |>))
    else mkES (result s) (baseOffset s) (Some (p <| replacement ::= λ r, r ++ changeValue c |>)).

Definition sameEdit (left right : TextEdit) : bool :=
  (start left =? start right) && (end_ left =? end_ right) &&
  (zlength (replacement left) =? zlength (replacement right)) &&
  forallb (λ p, bool_decide (p.1 = p.2)) (zip (replacement left) (replacement right)).

Definition overlaps (left right : TextEdit) : bool :=
  let leftInsertion := start left =? end_ left in
  let rightInsertion := start right =? end_ right in
  if leftInsertion && rightInsertion then start left =? start right
  else if leftInsertion then (start right <=? start left) && (start left <=? end_ right)
  else if rightInsertion then (start left <=? start right) && (start right <=? end_ left)
  else (start left <? end_ right) && (start right <? end_ left).

(** [Array.prototype.sort]: stable, by a comparator. *)
Section sort.
Context {A : Type} (le : A → A → bool).
Fixpoint insertSorted (x : A) (l : list A) : list A :=
  match l with
  | [] => [x]
  | y :: l' => if le x y then x :: l else y :: insertSorted x l'
  end.
Definition stableSort (l : list A) : list A := foldr insertSorted [] l.
End sort.

(** [left.start - right.start || left.end - right.end] is at most 0 *)
Definition editLe (left right : TextEdit) : bool :=
  (start left <? start right) || ((start left =? start right) && (end_ left <=? end_ right)).

(** The nested loops over [local] and [remote]: the indices of the remote
    edits that duplicate a local one, or [None] for a conflict. *)
Fixpoint matchRemote (localEdit : TextEdit) (index : nat) (remote : list TextEdit) (dup : list nat)
    : option (list nat) :=
  match remote with
  | [] => Some dup
  | r :: remote' =>
    if sameEdit localEdit r then matchRemote localEdit (S index) remote' (index :: dup)
    else if overlaps localEdit r then None
    else matchRemote localEdit (S index) remote' dup
  end.

Fixpoint matchLocal (local remote : list TextEdit) (dup : list nat) : option (list nat) :=
  match local with
  | [] => Some dup
  | l :: local' => matchRemote l 0 remote dup ≫= matchLocal local' remote
  end.

(** [remote.filter((_edit, index) => !duplicateRemote.has(index))] *)
Fixpoint dropDuplicates (index : nat) (remote : list TextEdit) (dup : list nat) : list TextEdit :=
  match remote with
  | [] => []
  | r :: remote' =>
    let rest := dropDuplicates (S index) remote' dup in
    if bool_decide (index ∈ dup) then rest else r :: rest
  end.

(** The output loop, from [offset]. *)
Fixpoint patchFrom (base : list text) (offset : Z) (combined : list TextEdit) : list text :=
  match combined with
  | [] => zslice offset (zlength base) base
  | e :: rest => zslice offset (start e) base ++ replacement e ++ patchFrom base (end_ e) rest
  end.

Section merge.
Context {D : Diff}.

Definition edits (base next : list text) : list TextEdit :=
  result (flush (foldl editStep (mkES [] 0 None) (diffArrays base next))).

Definition mergeText (baseText localText remoteText : text) : TextMergeResult :=
  if decide (localText = remoteText) then Merged localText
  else if decide (localText = baseText) then Merged remoteText
  else if decide (remoteText = baseText) then Merged localText
  else
    let base := lines baseText in
    let local := edits base (lines localText) in
    let remote := edits base (lines remoteText) in
    match matchLocal local remote [] with
    | None => Conflict
    | Some dup =>
      let combined := stableSort editLe (local ++ dropDuplicates 0 remote dup) in
      Merged (concat (patchFrom base 0 combined))
    end.
End merge.

(** ** Without a baseline *)

(** [line.replace(/\r?\n$/, "")] *)
Definition stripEol (l : text) : text :=
  match rev l with
  | c :: r => if c =? NL then match r with
                | c' :: r' => if c' =? CR then rev r' else rev r
                | [] => []
                end
              else l
  | [] => l
  end.

(** White space and line terminators, what [trim] removes *)
Definition isSpace (c : Z) : bool :=
  bool_decide (c ∈ [9; 10; 11; 12; 13; 32; 160; 5760; 8232; 8233; 8239; 8287; 12288; 65279])
  || ((8192 <=? c) && (c <=? 8202)).

(** [line.trim().length > 0] *)
Definition nonBlank (l : text) : bool := existsb (λ c, negb (isSpace c)) l.

Definition contentLines (t : text) : list text := filter (λ l, nonBlank l = true) (map stripEol (lines t)).

(** The scan of [containsLines], as the index it reaches. *)
Fixpoint scanLines (index : nat) (outer needles : list text) : nat :=
  match outer with
  | [] => index
  | line :: outer' =>
    if (index =? length needles)%nat then index
    else match needles !! index with
         | Some n => scanLines (if decide (line = n) then S index else index) outer' needles
         | None => index
         end
  end.

Definition containsLines (outer inner : text) : bool :=
  let needles := contentLines inner in
  (scanLines 0 (contentLines outer) needles =? length needles)%nat.

Definition mergeWithoutBaseline (localText remoteText : text) (allowLocalSuperset : bool) : TextMergeResult :=
  if decide (localText = remoteText) then Merged localText
  else if containsLines remoteText localText then Merged remoteText
  else if allowLocalSuperset && containsLines localText remoteText then Merged localText
  else Conflict.
