(* ===== verification/TextMergeSpec.v ===== *)
(** What [textMerge.ts] guarantees. *)
From Stdlib Require Import String.
From S2P Require Import Prelude TextMerge.
#[local] Open Scope Z_scope.

(** ** Lines *)

Lemma lines_concat t : concat (lines t) = t.
Proof.
  induction t as [|c t IH]; [done|]. simpl. destruct (c =? NL); simpl; [by rewrite IH|].
  destruct (lines t) as [|l ls] eqn:E; simpl in *; by rewrite <- IH.
Qed.

(** ** Edit scripts *)

(** The edits are within [o..n], in order, and apart. *)
Fixpoint apart (o n : Z) (es : list TextEdit) : Prop :=
  match es with
  | [] => o ≤ n
  | e :: r => o ≤ start e ∧ start e ≤ end_ e ∧ end_ e ≤ n ∧
      (∀ e', e' ∈ r → end_ e < start e') ∧ apart (end_ e) n r
  end.

Fixpoint patchTo (base : list text) (o k : Z) (es : list TextEdit) : list text :=
  match es with
  | [] => zslice o k base
  | e :: r => zslice o (start e) base ++ replacement e ++ patchTo base (end_ e) k r
  end.

Lemma patchFrom_patchTo base o es : patchFrom base o es = patchTo base o (zlength base) es.
Proof. revert o. induction es as [|e es IH]; intros o; simpl; [done|]. by rewrite IH. Qed.

Lemma patchTo_snoc base o k es p :
  patchTo base o k (es ++ [p]) = patchTo base o (start p) es ++ replacement p ++ zslice (end_ p) k base.
Proof. revert o. induction es as [|e es IH]; intros o; simpl; [done|]. by rewrite IH, <- !app_assoc. Qed.

Lemma apart_le o n es : apart o n es → o ≤ n.
Proof.
  revert o. induction es as [|e es IH]; intros o; simpl; [done|].
  intros (? & ? & ? & _ & ?%IH). lia.
Qed.

Lemma apart_weaken o n n' es : n ≤ n' → apart o n es → apart o n' es.
Proof.
  revert o. induction es as [|e es IH]; intros o Hn; simpl; [lia|].
  intros (? & ? & ? & ? & ?). split_and!; try done; [lia|auto].
Qed.

Lemma apart_snoc o m es p : apart o (start p) es → (∀ e, e ∈ es → end_ e < start p) →
  start p ≤ end_ p → end_ p ≤ m → apart o m (es ++ [p]).
Proof.
  revert o. induction es as [|e es IH]; intros o; simpl.
  - intros. split_and!; try lia. intros e' ?%elem_of_nil. done.
  - intros (? & ? & ? & Hall & Hr) Hlt ? ?.
    assert (end_ e < start p) by (apply Hlt; left).
    split_and!; try lia.
    + intros e' [?|He%list_elem_of_singleton]%elem_of_app; [auto|]. by subst e'.
    + apply IH; auto. intros e' ?. apply Hlt. by right.
Qed.

Lemma patchTo_extend base o k k' es : 0 ≤ o → apart o k es → k ≤ k' →
  patchTo base o k' es = patchTo base o k es ++ zslice k k' base.
Proof.
  revert o. induction es as [|e es IH]; intros o Ho; simpl.
  - intros. by apply zslice_split.
  - intros (? & ? & ? & _ & Ha) Hk. rewrite (IH (end_ e)) by (done || lia). by rewrite <- !app_assoc.
Qed.

Lemma zslice_empty {A} i (l : list A) : zslice i i l = [].
Proof. unfold zslice. by rewrite Z.sub_diag, take_0. Qed.

Lemma zslice_middle {A} (a b c : list A) :
  zslice (zlength a) (zlength a + zlength b) (a ++ b ++ c) = b.
Proof.
  unfold zslice, zlength. rewrite Nat2Z.id, drop_app_length.
  replace (Z.to_nat _) with (length b) by lia. apply take_app_length.
Qed.

Section edits.
Context {D : Diff} {DL : DiffLaws D}.

Definition oldPart (cs : list ArrayChange) : list text := concat (map changeValue (filter (λ c, added c = false) cs)).
Definition newPart (cs : list ArrayChange) : list text := concat (map changeValue (filter (λ c, removed c = false) cs)).

(** The loop has read the old lines [old], having produced the new ones [new]. *)
Record edits_inv (base old new : list text) (s : EditState) : Prop := mkEI {
  ei_offset : baseOffset s = zlength old;
  ei_apart : apart 0 (match pending s with Some p => start p | None => baseOffset s end) (result s);
  ei_gap : ∀ p, pending s = Some p → ∀ e, e ∈ result s → end_ e < start p;
  ei_last : pending s = None → ∀ e, e ∈ result s → end_ e < baseOffset s;
  ei_pending : ∀ p, pending s = Some p → 0 ≤ start p ∧ start p ≤ end_ p ∧ end_ p = baseOffset s;
  ei_patch : patchTo base 0 (baseOffset s) (result s ++ option_list (pending s)) = new }.

Lemma flush_inv base old new s : edits_inv base old new s →
  let s' := flush s in pending s' = None ∧ baseOffset s' = baseOffset s ∧
  apart 0 (baseOffset s) (result s') ∧ patchTo base 0 (baseOffset s) (result s') = new ∧
  (∀ e, e ∈ result s' → end_ e ≤ baseOffset s).
Proof.
  intros [Ho Ha Hg Hl Hp Hpatch]. unfold flush. destruct (pending s) as [p|] eqn:E; simpl in *.
  - destruct (Hp p eq_refl) as (? & ? & ?). split_and!; try done.
    + apply apart_snoc; try done; [auto|lia].
    + intros e [He|He%list_elem_of_singleton]%elem_of_app; [|subst; lia].
      pose proof (Hg p eq_refl e He). lia.
  - rewrite app_nil_r in Hpatch. split_and!; try done. intros e He. pose proof (Hl eq_refl e He). lia.
Qed.

Lemma edits_inv_unchanged old new v rest s : v ≠ [] → edits_inv (old ++ v ++ rest) old new s →
  edits_inv (old ++ v ++ rest) (old ++ v) (new ++ v) (editStep s (mkChange false false v)).
Proof.
  intros Hv H. assert (0 < zlength v) as Hpos.
  { destruct v; [done|]. autorewrite with zlen. pose proof (zlength_nonneg v). lia. }
  destruct (flush_inv _ _ _ _ H) as (Hp & Hb & Ha & Hpatch & Hle).
  unfold editStep. simpl. rewrite Hp, Hb. split; simpl; try done.
  - rewrite (ei_offset _ _ _ _ H). autorewrite with zlen. lia.
  - apply (apart_weaken _ (baseOffset s)); [lia|done].
  - intros _ e He. pose proof (Hle e He). lia.
  - rewrite app_nil_r, (patchTo_extend _ _ (baseOffset s)), Hpatch by (done || lia).
    by rewrite (ei_offset _ _ _ _ H), zslice_middle.
Qed.

Lemma edits_inv_pending base old new s : edits_inv base old new s →
  let p := default (mkEdit (baseOffset s) (baseOffset s) []) (pending s) in
  apart 0 (start p) (result s) ∧ (∀ e, e ∈ result s → end_ e < start p) ∧
  0 ≤ start p ≤ end_ p ∧ end_ p = baseOffset s ∧
  patchTo base 0 (start p) (result s) ++ replacement p = new.
Proof.
  intros [Ho Ha Hg Hl Hp Hpatch]. destruct (pending s) as [p|]; simpl in *.
  - destruct (Hp p eq_refl) as (? & ? & He). split_and!; try done; [by apply Hg|].
    by rewrite patchTo_snoc, He, zslice_empty, app_nil_r in Hpatch.
  - rewrite !app_nil_r in *. pose proof (zlength_nonneg old). split_and!; try done; try lia. by apply Hl.
Qed.

Lemma edits_inv_removed old new v rest s : edits_inv (old ++ v ++ rest) old new s →
  edits_inv (old ++ v ++ rest) (old ++ v) new (editStep s (mkChange false true v)).
Proof.
  intros H. destruct (edits_inv_pending _ _ _ _ H) as (Ha & Hlt & Hr & He & Hpatch).
  unfold editStep. simpl in *. set (p := default _ _) in *.
  assert (baseOffset s + zlength v = zlength (old ++ v)) as Ho
    by (rewrite (ei_offset _ _ _ _ H); autorewrite with zlen; lia).
  pose proof (zlength_nonneg v). split; simpl; try done.
  - by intros p' [= <-].
  - intros p' [= <-]. simpl. lia.
  - rewrite patchTo_snoc. simpl. by rewrite zslice_empty, app_nil_r.
Qed.

Lemma edits_inv_added base old new v s : edits_inv base old new s →
  edits_inv base old (new ++ v) (editStep s (mkChange true false v)).
Proof.
  intros H. destruct (edits_inv_pending _ _ _ _ H) as (Ha & Hlt & Hr & He & Hpatch).
  unfold editStep. simpl in *. set (p := default _ _) in *. split; simpl; try done.
  - apply H.
  - by intros p' [= <-].
  - intros p' [= <-]. simpl. lia.
  - rewrite patchTo_snoc. simpl. rewrite He, zslice_empty, app_nil_r, <- Hpatch. by rewrite <- !app_assoc.
Qed.

Lemma edits_inv_fold base cs : ∀ old new s rest,
  (∀ c, c ∈ cs → added c && removed c = false ∧ changeValue c ≠ []) →
  base = old ++ oldPart cs ++ rest → edits_inv base old new s →
  edits_inv base (old ++ oldPart cs) (new ++ newPart cs) (foldl editStep s cs).
Proof.
  induction cs as [|[[] [] v] cs IH]; intros old new s rest Hcs Hb H; simpl.
  - by rewrite !app_nil_r.
  - by destruct (Hcs (mkChange true true v)); [left|].
  - unfold oldPart, newPart in *. simpl in *. rewrite (app_assoc new).
    eapply IH; [intros; apply Hcs; by right|exact Hb|by apply edits_inv_added].
  - unfold oldPart, newPart in *. simpl in *. rewrite <- app_assoc in Hb. rewrite (app_assoc old).
    eapply IH; [intros; apply Hcs; by right| |]; [by rewrite <- app_assoc|]. subst base. by apply edits_inv_removed.
  - unfold oldPart, newPart in *. simpl in *. rewrite <- app_assoc in Hb. rewrite (app_assoc old), (app_assoc new).
    eapply IH; [intros; apply Hcs; by right| |]; [by rewrite <- app_assoc|]. subst base.
    apply edits_inv_unchanged; [|done]. by apply (Hcs (mkChange false false v)); left.
Qed.

(** [edits] turns the difference into edits that are in order and apart, and
    that rebuild the new text from the base. *)
Lemma edits_correct base next :
  apart 0 (zlength base) (edits base next) ∧ patchFrom base 0 (edits base next) = next.
Proof.
  assert (edits_inv base [] [] (mkES [] 0 None)) as H0.
  { split; simpl; try done. intros _ e He. by apply elem_of_nil in He. }
  assert (edits_inv base base next (foldl editStep (mkES [] 0 None) (diffArrays base next))) as H.
  { pose proof (edits_inv_fold base (diffArrays base next) [] [] (mkES [] 0 None) []) as Hf.
    unfold oldPart, newPart in Hf. rewrite diff_old, diff_new, app_nil_r in Hf. apply Hf; [|done..].
    intros c Hc. split; [by eapply diff_one|by eapply diff_parts]. }
  destruct (flush_inv _ _ _ _ H) as (_ & _ & Ha & Hpatch & _).
  rewrite (ei_offset _ _ _ _ H) in Ha, Hpatch. split; [done|by rewrite patchFrom_patchTo].
Qed.
End edits.

(** ** Matching the two sides *)

Lemma sameEdit_eq l r : sameEdit l r = true ↔ l = r.
Proof.
  unfold sameEdit. split.
  - intros H. bools. destruct l as [ls le lr], r as [rs re rr]; simpl in *.
    assert (lr = rr) as ->; [|congruence].
    unfold zlength in *. apply Nat2Z.inj in H1. revert rr H1 H0.
    induction lr as [|x lr IH]; intros [|y rr]; simpl; try done. intros [= Hl] Hz. bools. f_equal; auto.
  - intros <-. rewrite !Z.eqb_refl. simpl. induction (replacement l) as [|x xs IH]; simpl; [done|].
    by rewrite bool_decide_eq_true_2.
Qed.

Lemma overlaps_sym l r : overlaps l r = overlaps r l.
Proof.
  unfold overlaps. destruct (start l =? end_ l), (start r =? end_ r); simpl; try done.
  - by rewrite Z.eqb_sym.
  - by rewrite andb_comm.
Qed.

Definition compatible (l r : TextEdit) : Prop := l = r ∨ overlaps l r = false.

Lemma matchRemote_spec l remote : ∀ i dup,
  match matchRemote l i remote dup with
  | Some dup' => (∀ r, r ∈ remote → compatible l r) ∧
      ∀ k, k ∈ dup' ↔ k ∈ dup ∨ ∃ j, k = (i + j)%nat ∧ remote !! j = Some l
  | None => ∃ r, r ∈ remote ∧ ¬ compatible l r
  end.
Proof.
  induction remote as [|r remote IH]; intros i dup; simpl.
  - split; [intros r Hr; by apply elem_of_nil in Hr|]. intros k. split; [by left|].
    intros [?|(j & _ & Hj)]; [done|]. by rewrite lookup_nil in Hj.
  - destruct (sameEdit l r) eqn:Es.
    + apply sameEdit_eq in Es as <-. specialize (IH (S i) (i :: dup)).
      destruct (matchRemote l (S i) remote (i :: dup)) as [dup'|].
      * destruct IH as [Hc Hk]. split; [intros r [->|?]%elem_of_cons; [by left|auto]|].
        intros k. rewrite Hk, elem_of_cons. split.
        -- intros [[->|?]|(j & -> & Hj)]; [|by left|]; right; [exists 0%nat|exists (S j)]; (split; [lia|done]).
        -- intros [?|([|j] & -> & Hj)]; [by left; right|left; left; lia|right; exists j; split; [lia|done]].
      * destruct IH as (r & ? & ?). exists r. split; [by right|done].
    + destruct (overlaps l r) eqn:Eo.
      * exists r. split; [left|]. intros [->|?]; [|congruence].
        assert (sameEdit r r = true) by (by apply sameEdit_eq). congruence.
      * specialize (IH (S i) dup). destruct (matchRemote l (S i) remote dup) as [dup'|].
        -- destruct IH as [Hc Hk]. split; [intros r' [->|?]%elem_of_cons; [by right|auto]|].
           intros k. rewrite Hk. split.
           ++ intros [?|(j & -> & Hj)]; [by left|]. right. exists (S j). split; [lia|done].
           ++ intros [?|([|j] & -> & Hj)]; [by left| |].
              ** simpl in Hj. simplify_eq. assert (sameEdit l l = true) by (by apply sameEdit_eq). congruence.
              ** right. exists j. split; [lia|done].
        -- destruct IH as (r' & ? & ?). exists r'. split; [by right|done].
Qed.

Lemma matchLocal_spec local remote : ∀ dup,
  match matchLocal local remote dup with
  | Some dup' => (∀ l r, l ∈ local → r ∈ remote → compatible l r) ∧
      ∀ k, k ∈ dup' ↔ k ∈ dup ∨ ∃ r, remote !! k = Some r ∧ r ∈ local
  | None => ∃ l r, l ∈ local ∧ r ∈ remote ∧ ¬ compatible l r
  end.
Proof.
  induction local as [|l local IH]; intros dup; simpl.
  - split; [intros l r Hl; by apply elem_of_nil in Hl|]. intros k. split; [by left|].
    intros [?|(r & _ & Hr)]; [done|]. by apply elem_of_nil in Hr.
  - pose proof (matchRemote_spec l remote 0 dup) as Hm.
    destruct (matchRemote l 0 remote dup) as [dup1|]; simpl.
    + destruct Hm as [Hc Hk]. specialize (IH dup1). destruct (matchLocal local remote dup1) as [dup2|].
      * destruct IH as [Hc' Hk']. split; [intros l' r [->|?]%elem_of_cons ?; auto|].
        intros k. rewrite Hk', Hk. split.
        -- intros [[?|(j & -> & Hj)]|(r & Hr & ?)]; [by left| |]; right; [exists l|exists r];
             (split; [done|]); [left|by right].
        -- intros [?|(r & Hr & [->|?]%elem_of_cons)]; [by left; left|left; right; by exists k|right; by exists r].
      * destruct IH as (l' & r & ? & ? & ?). exists l', r. split_and!; try done. by right.
    + destruct Hm as (r & ? & ?). exists l, r. split_and!; try done. left.
Qed.

Lemma dropDuplicates_spec (remote local : list TextEdit) dup : ∀ i,
  (∀ j r, remote !! j = Some r → (i + j)%nat ∈ dup ↔ r ∈ local) →
  dropDuplicates i remote dup = filter (λ r, r ∉ local) remote.
Proof.
  induction remote as [|r remote IH]; intros i H; simpl; [done|].
  rewrite IH by (intros j r' Hj; rewrite <- (H (S j) r' Hj); by rewrite Nat.add_succ_r).
  specialize (H 0%nat r eq_refl). rewrite Nat.add_0_r in H.
  rewrite filter_cons. case_bool_decide; case_decide; naive_solver.
Qed.

(** ** The combined edits *)

Lemma insertSorted_perm {A} (le : A → A → bool) x l : insertSorted le x l ≡ₚ x :: l.
Proof. induction l as [|y l IH]; simpl; [done|]. destruct (le x y); [done|]. rewrite IH. apply Permutation_swap. Qed.

Lemma stableSort_perm {A} (le : A → A → bool) l : stableSort le l ≡ₚ l.
Proof. induction l as [|x l IH]; simpl; [done|]. by rewrite insertSorted_perm, IH. Qed.

Lemma stableSort_sorted {A} (le : A → A → bool) l :
  (∀ x y, le x y = true ∨ le y x = true) → Sorted (λ x y, le x y = true) (stableSort le l).
Proof.
  intros Htot. induction l as [|x l IH]; simpl; [constructor|].
  induction IH as [|y k Hs IH Hd]; simpl; [repeat constructor|].
  destruct (le x y) eqn:E; [repeat (constructor; try done)|].
  constructor; [done|]. destruct (Htot x y); [congruence|].
  destruct Hd as [|z k Hz]; simpl; [by constructor|]. destruct (le x z); by constructor.
Qed.

(** Edits of both sides, none twice, any two apart. *)
Record union (o n : Z) (local remote combined : list TextEdit) : Prop := mkUnion {
  un_in : ∀ e, e ∈ combined ↔ e ∈ local ∨ e ∈ remote;
  un_apart : StronglySorted (λ a b, start a < start b ∧ end_ a ≤ start b) combined;
  un_range : ∀ e, e ∈ combined → o ≤ start e ∧ start e ≤ end_ e ∧ end_ e ≤ n }.

Lemma apart_range o n es e : apart o n es → e ∈ es → o ≤ start e ∧ start e ≤ end_ e ∧ end_ e ≤ n.
Proof.
  revert o. induction es as [|e' es IH]; intros o; simpl; [by intros _ ?%elem_of_nil|].
  intros (? & ? & ? & _ & Ha) [->|He]%elem_of_cons; [done|]. destruct (IH _ Ha He) as (? & ? & ?). lia.
Qed.

Lemma apart_pair o n es a b : apart o n es → a ∈ es → b ∈ es →
  a = b ∨ end_ a < start b ∨ end_ b < start a.
Proof.
  revert o. induction es as [|e es IH]; intros o; simpl; [by intros _ ?%elem_of_nil|].
  intros (? & ? & ? & Hlt & Ha) [->|Hain]%elem_of_cons [->|Hbin]%elem_of_cons; eauto.
Qed.

Lemma apart_nodup o n es : apart o n es → NoDup es.
Proof.
  revert o. induction es as [|e es IH]; intros o; simpl; [constructor|].
  intros (? & ? & ? & Hlt & Ha). constructor; [|by eapply IH]. intros Hin. pose proof (Hlt e Hin). lia.
Qed.

Lemma compatible_apart a b : compatible a b → start a ≤ end_ a → start b ≤ end_ b →
  a = b ∨ (start a < start b ∧ end_ a ≤ start b) ∨ (start b < start a ∧ end_ b ≤ start a).
Proof.
  intros [->|H]; [by left|]. intros. right. unfold overlaps in H.
  destruct (Z.eqb_spec (start a) (end_ a)), (Z.eqb_spec (start b) (end_ b)); simpl in H.
  - apply Z.eqb_neq in H. lia.
  - apply andb_false_iff in H as [H|H]; [apply Z.leb_gt in H|apply Z.leb_gt in H]; lia.
  - apply andb_false_iff in H as [H|H]; apply Z.leb_gt in H; lia.
  - apply andb_false_iff in H as [H|H]; apply Z.ltb_ge in H; lia.
Qed.

Lemma combined_union o n local remote :
  apart o n local → apart o n remote → (∀ l r, l ∈ local → r ∈ remote → compatible l r) →
  union o n local remote (stableSort editLe (local ++ filter (λ r, r ∉ local) remote)).
Proof.
  intros Hl Hr Hc. set (all := local ++ filter (λ r, r ∉ local) remote).
  assert (∀ e, e ∈ stableSort editLe all ↔ e ∈ local ∨ e ∈ remote) as Hin.
  { intros e. rewrite (stableSort_perm editLe all). unfold all. rewrite elem_of_app, list_elem_of_filter.
    destruct (decide (e ∈ local)); naive_solver. }
  assert (NoDup (stableSort editLe all)) as Hnd.
  { rewrite (stableSort_perm editLe all). apply NoDup_app. split_and!; [by eapply apart_nodup| |].
    - intros x Hx [Hn _]%list_elem_of_filter. done.
    - apply NoDup_filter. by eapply apart_nodup. }
  assert (∀ a, a ∈ stableSort editLe all → o ≤ start a ∧ start a ≤ end_ a ∧ end_ a ≤ n) as Hrange.
  { intros a [Ha|Ha]%Hin; [exact (apart_range _ _ _ _ Hl Ha)|exact (apart_range _ _ _ _ Hr Ha)]. }
  assert (∀ a b, a ∈ stableSort editLe all → b ∈ stableSort editLe all →
    a = b ∨ (start a < start b ∧ end_ a ≤ start b) ∨ (start b < start a ∧ end_ b ≤ start a)) as Hpair.
  { intros a b Ha Hb. destruct (Hrange a Ha) as (? & ? & ?), (Hrange b Hb) as (? & ? & ?).
    apply Hin in Ha as [Ha|Ha], Hb as [Hb|Hb].
    - destruct (apart_pair _ _ _ _ _ Hl Ha Hb); [by left|lia].
    - apply compatible_apart; auto.
    - destruct (compatible_apart b a (Hc b a Hb Ha)) as [->|?]; [done|done|by left|lia].
    - destruct (apart_pair _ _ _ _ _ Hr Ha Hb); [by left|lia]. }
  split; [done| |done].
  assert (StronglySorted (λ x y, editLe x y = true) (stableSort editLe all)) as Hs.
  { apply Sorted_StronglySorted.
    - intros x y z. unfold editLe. intros. bools. repeat (rewrite ?orb_true_iff, ?andb_true_iff, ?Z.ltb_lt, ?Z.eqb_eq, ?Z.leb_le in * ). lia.
    - apply stableSort_sorted. intros x y. unfold editLe.
      rewrite !orb_true_iff, !andb_true_iff, !Z.ltb_lt, !Z.eqb_eq, !Z.leb_le. lia. }
  clear Hin Hrange. induction Hs as [|a l Hs IH Hall]; [constructor|].
  apply NoDup_cons in Hnd as [Ha Hnd]. constructor.
  - apply IH; [done|]. intros x y ??. apply Hpair; by right.
  - apply Forall_forall. intros b Hb. rewrite Forall_forall in Hall.
    pose proof (Hall b Hb) as Hle. unfold editLe in Hle.
    rewrite orb_true_iff, andb_true_iff, Z.ltb_lt, Z.eqb_eq, Z.leb_le in Hle.
    destruct (Hpair a b) as [->|[?|?]]; [left|by right|done|done|lia].
Qed.

#[local] Instance starts_antisymm : AntiSymm (=) (λ a b : TextEdit, start a < start b).
Proof. intros a b ??. lia. Qed.

Lemma starts_unique (l k : list TextEdit) :
  StronglySorted (λ a b, start a < start b) l → StronglySorted (λ a b, start a < start b) k →
  (∀ e, e ∈ l ↔ e ∈ k) → l = k.
Proof.
  assert (∀ l, StronglySorted (λ a b, start a < start b) l → NoDup l) as Hnd.
  { intros h. induction 1 as [|a h Hl IH Hall]; constructor; [|done].
    intros Hx. rewrite Forall_forall in Hall. pose proof (Hall a Hx). simpl in *. lia. }
  intros Hl Hk Hin. apply (StronglySorted_unique (λ a b, start a < start b)); try done.
  apply NoDup_Permutation; auto.
Qed.

Lemma union_sorted o n local remote combined : union o n local remote combined →
  StronglySorted (λ a b, start a < start b) combined.
Proof.
  intros [_ Hs _]. induction Hs as [|a l Hs IH Hall]; constructor; [done|].
  eapply Forall_impl; [done|]. by intros x [??].
Qed.

Lemma apart_sorted o n es : apart o n es → StronglySorted (λ a b, start a < start b) es.
Proof.
  revert o. induction es as [|e es IH]; intros o; simpl; [constructor|].
  intros (? & ? & ? & Hlt & Hr). constructor; [by eapply IH|]. apply Forall_forall. intros b Hb.
  pose proof (Hlt b Hb). lia.
Qed.

(** The edits of one side are those of the union that belong to it. *)
Lemma union_side o n local remote combined (side : list TextEdit) :
  union o n local remote combined → apart o n side → (∀ e, e ∈ side → e ∈ combined) →
  side = filter (λ e, e ∈ side) combined.
Proof.
  intros Hu Ha Hin. apply union_sorted in Hu as S2. apply apart_sorted in Ha as S1.
  apply starts_unique; [done| |].
  - clear -S2. induction S2 as [|a l Hs IH Hall]; [constructor|]. rewrite filter_cons. case_decide; [|done].
    constructor; [done|]. apply Forall_forall. intros x [_ Hx]%list_elem_of_filter.
    by apply (proj1 (Forall_forall _ _) Hall).
  - intros e. rewrite list_elem_of_filter. naive_solver.
Qed.

(** ** The properties *)

Section spec.
Context {D : Diff} {DL : DiffLaws D}.

Lemma mergeText_case b l r :
  (l = r ∧ mergeText b l r = Merged l) ∨ (l ≠ r ∧ l = b ∧ mergeText b l r = Merged r) ∨
  (l ≠ r ∧ r = b ∧ mergeText b l r = Merged l) ∨
  (l ≠ r ∧ l ≠ b ∧ r ≠ b ∧
   let base := lines b in let L := edits base (lines l) in let R := edits base (lines r) in
   ((∃ e f, e ∈ L ∧ f ∈ R ∧ ¬ compatible e f) ∧ mergeText b l r = Conflict ∨
    (∀ e f, e ∈ L → f ∈ R → compatible e f) ∧
    ∃ E, union 0 (zlength base) L R E ∧ mergeText b l r = Merged (concat (patchFrom base 0 E)))).
Proof.
  unfold mergeText. destruct (decide (l = r)) as [->|Hlr]; [by left|right].
  destruct (decide (l = b)) as [->|Hlb]; [by left|right].
  destruct (decide (r = b)) as [->|Hrb]; [by left|right]. split_and!; try done. simpl.
  set (L := edits _ (lines l)). set (R := edits _ (lines r)).
  pose proof (matchLocal_spec L R []) as Hm. destruct (matchLocal L R []) as [dup|]; [right|by left].
  destruct Hm as [Hc Hk]. split; [done|]. eexists. split; [|done].
  rewrite (dropDuplicates_spec R L).
  - apply combined_union; [by apply edits_correct..|done].
  - intros j e Hj. simpl. rewrite Hk. split; [|by eauto]. intros [Hn|(e' & ? & ?)]; [by apply elem_of_nil in Hn|congruence].
Qed.

(** C15: a merge applies the edits of both sides and nothing else: when the
    three texts differ and the merge succeeds, its lines are the base's lines
    with one list of edits applied, whose edits are exactly the two sides'
    (shared ones once), are in order and disjoint, and of which each side's
    part alone turns the base into that side's text. *)
Theorem merge_applies_both baseText localText remoteText content :
  mergeText baseText localText remoteText = Merged content →
  (localText = remoteText ∨ remoteText = baseText) ∧ content = localText ∨
  localText = baseText ∧ content = remoteText ∨
  ∃ L R E : list TextEdit,
    let base := lines baseText in
    union 0 (zlength base) L R E ∧
    (∀ e f, e ∈ L → f ∈ R → e = f ∨ overlaps e f = false) ∧
    localText = concat (patchFrom base 0 (filter (λ e, e ∈ L) E)) ∧
    remoteText = concat (patchFrom base 0 (filter (λ e, e ∈ R) E)) ∧
    content = concat (patchFrom base 0 E).
Proof.
  intros Hm. destruct (mergeText_case baseText localText remoteText)
    as [[? E]|[(_ & ? & E)|[(_ & ? & E)|(_ & _ & _ & [[_ E]|[Hc (C & Hu & E)]])]]];
    rewrite E in Hm; simplify_eq; [by left; auto|by right; left|by left; auto|].
  right; right. set (base := lines baseText) in *.
  pose proof (edits_correct base (lines localText)) as [La Lp].
  pose proof (edits_correct base (lines remoteText)) as [Ra Rp].
  exists (edits base (lines localText)), (edits base (lines remoteText)), C.
  rewrite <- (union_side _ _ _ _ _ _ Hu La), <- (union_side _ _ _ _ _ _ Hu Ra)
    by (intros e He; apply (un_in _ _ _ _ _ Hu); auto).
  cbv zeta. rewrite Lp, Rp, !lines_concat. by split_and!.
Qed.

(** C35: the merge does not care which side is local: swapping the sides
    gives the same text or the same conflict, and it conflicts exactly when
    the texts all differ and two different edits of the sides overlap. *)
Theorem merge_sides_symmetric baseText localText remoteText :
  mergeText baseText localText remoteText = mergeText baseText remoteText localText ∧
  (mergeText baseText localText remoteText = Conflict ↔
   localText ≠ remoteText ∧ localText ≠ baseText ∧ remoteText ≠ baseText ∧
   ∃ e f, e ∈ edits (lines baseText) (lines localText) ∧ f ∈ edits (lines baseText) (lines remoteText) ∧
     e ≠ f ∧ overlaps e f = true).
Proof.
  assert (∀ e f, ¬ compatible e f ↔ e ≠ f ∧ overlaps e f = true) as Hn.
  { intros e f. unfold compatible. destruct (overlaps e f); naive_solver. }
  assert (∀ e f, compatible e f → compatible f e) as Hs.
  { intros e f [->|?]; [by left|]. right. by rewrite overlaps_sym. }
  split.
  - destruct (mergeText_case baseText localText remoteText)
      as [[? E]|[(? & ? & E)|[(? & ? & E)|(? & ? & ? & [[(e & f & ? & ? & Hc) E]|[Hc (C & Hu & E)]])]]]; rewrite E;
      destruct (mergeText_case baseText remoteText localText)
      as [[? F]|[(? & ? & F)|[(? & ? & F)|(? & ? & ? & [[(e' & f' & ? & ? & Hc') F]|[Hc' (C' & Hu' & F)]])]]]; rewrite F;
      try congruence; subst; try done.
    + exfalso. apply Hc, Hs. by apply Hc'.
    + exfalso. apply Hc', Hs. by apply Hc.
    + do 2 f_equal. f_equal. apply starts_unique; [by eapply union_sorted..|].
      intros e. rewrite (un_in _ _ _ _ _ Hu), (un_in _ _ _ _ _ Hu'). tauto.
  - destruct (mergeText_case baseText localText remoteText)
      as [[? E]|[(? & ? & E)|[(? & ? & E)|(? & ? & ? & [[(e & f & ? & ? & Hc) E]|[Hc (C & Hu & E)]])]]]; rewrite E.
    1-3: by split; [|intros (? & ? & ? & _)].
    + split; [intros _|done]. split_and!; try done. exists e, f. by rewrite <- Hn.
    + split; [done|]. intros (_ & _ & _ & e & f & He & Hf & Hx). exfalso. apply Hn in Hx. by apply Hx, Hc.
Qed.
End spec.

(** ** Without a baseline *)

Lemma scanLines_spec needles outer : ∀ i, (i ≤ length needles)%nat →
  (scanLines i outer needles =? length needles)%nat = true ↔ sublist (drop i needles) outer.
Proof.
  induction outer as [|line outer IH]; intros i Hi; simpl.
  - rewrite Nat.eqb_eq. split; [intros ->; rewrite drop_ge by lia; constructor|].
    intros H%sublist_nil_r. apply (f_equal length) in H. rewrite length_drop in H. simpl in H. lia.
  - destruct (Nat.eqb_spec i (length needles)) as [->|Hne].
    { rewrite Nat.eqb_refl, drop_ge by lia. split; [intros; apply sublist_nil_l|done]. }
    destruct (lookup_lt_is_Some_2 needles i) as [n Hn]; [lia|]. rewrite Hn, (drop_S needles n i Hn).
    case_decide as Hl.
    + subst. rewrite IH by lia. split; [by constructor|].
      intros Hs. apply sublist_cons_l in Hs as (k1 & k2 & Hk & Hs).
      destruct k1; simplify_eq/=; [done|]. apply sublist_inserts_l. by apply sublist_cons.
    + rewrite IH by lia. rewrite (drop_S needles n i Hn). split; [by constructor|].
      intros Hs. inversion Hs; subst; done.
Qed.

Lemma containsLines_sublist outer inner :
  containsLines outer inner = true ↔ sublist (contentLines inner) (contentLines outer).
Proof. unfold containsLines. by rewrite scanLines_spec by lia. Qed.

(** without a baseline the merge drops no content: it succeeds only
    with one of the two texts, whose non-blank lines contain the other's in
    order (the local text only when that is allowed), and it conflicts only
    when no allowed side contains the other. *)
Theorem two_way_merge_drops_nothing localText remoteText allow :
  match mergeWithoutBaseline localText remoteText allow with
  | Merged content =>
    (content = remoteText ∨ content = localText ∧ (allow = true ∨ localText = remoteText)) ∧
    sublist (contentLines localText) (contentLines content) ∧
    sublist (contentLines remoteText) (contentLines content)
  | Conflict =>
    ¬ sublist (contentLines localText) (contentLines remoteText) ∧
    (allow = true → ¬ sublist (contentLines remoteText) (contentLines localText))
  end.
Proof.
  unfold mergeWithoutBaseline. case_decide as E; [subst; by auto|].
  destruct (containsLines remoteText localText) eqn:H1; [apply containsLines_sublist in H1; by auto|].
  assert (¬ sublist (contentLines localText) (contentLines remoteText)) as N1
    by (rewrite <- containsLines_sublist; by rewrite H1).
  destruct allow; simpl; [|by split].
  destruct (containsLines localText remoteText) eqn:H2; [apply containsLines_sublist in H2; by auto|].
  split; [done|]. intros _. rewrite <- containsLines_sublist. by rewrite H2.
Qed.

(** ** A concrete difference: what is between the common prefix and suffix *)

Module TrimDiff.
Fixpoint trim (b n : list text) : list text * list text * list text :=
  match b, n with
  | x :: b', y :: n' =>
    if decide (x = y) then let '(p, br, nr) := trim b' n' in (x :: p, br, nr) else ([], b, n)
  | _, _ => ([], b, n)
  end.

Lemma trim_spec b n : let '(p, br, nr) := trim b n in b = p ++ br ∧ n = p ++ nr.
Proof.
  revert n. induction b as [|x b IH]; intros [|y n]; simpl; try done.
  case_decide; [|done]. specialize (IH n). destruct (trim b n) as [[p br] nr]. simpl. naive_solver.
Qed.

Definition part (a r : bool) (v : list text) : list ArrayChange :=
  match v with [] => [] | _ => [mkChange a r v] end.

#[export] Instance diff : Diff := λ base next,
  let '(p, br, nr) := trim base next in
  let '(s, bm, nm) := trim (rev br) (rev nr) in
  part false false p ++ part false true (rev bm) ++ part true false (rev nm) ++ part false false (rev s).

Lemma part_concat (sel : ArrayChange → bool) a r v :
  concat (map changeValue (filter (λ c, sel c = false) (part a r v))) =
  if sel (mkChange a r v) then [] else v.
Proof.
  destruct v as [|x v]; simpl; [by destruct (sel _)|]. rewrite filter_cons.
  destruct (sel (mkChange a r (x :: v))) eqn:E; case_decide; try done. simpl. by rewrite app_nil_r.
Qed.

#[export] Instance diff_laws : DiffLaws diff.
Proof.
  split; intros base next; [| |intros c..]; unfold diffArrays, diff;
    pose proof (trim_spec base next) as H; destruct (trim base next) as [[p br] nr]; destruct H as [-> ->];
    pose proof (trim_spec (rev br) (rev nr)) as H; destruct (trim (rev br) (rev nr)) as [[s bm] nm];
    destruct H as [Hb Hn]; apply (f_equal (@rev _)) in Hb, Hn; rewrite rev_involutive, rev_app_distr in Hb, Hn; subst br nr.
  - rewrite !filter_app, !map_app, !concat_app.
    rewrite (part_concat added false false p), (part_concat added false true (rev bm)),
      (part_concat added true false (rev nm)), (part_concat added false false (rev s)). done.
  - rewrite !filter_app, !map_app, !concat_app.
    rewrite (part_concat removed false false p), (part_concat removed false true (rev bm)),
      (part_concat removed true false (rev nm)), (part_concat removed false false (rev s)). done.
  - unfold part. rewrite !elem_of_app. intros [H|[H|[H|H]]];
      (match type of H with _ ∈ match ?v with _ => _ end => destruct v end;
       [by apply elem_of_nil in H|apply list_elem_of_singleton in H; by subst]).
  - unfold part. rewrite !elem_of_app. intros [H|[H|[H|H]]];
      (match type of H with _ ∈ match ?v with _ => _ end => destruct v end;
       [by apply elem_of_nil in H|apply list_elem_of_singleton in H; by subst]).
Qed.

(** "a\nb\nc\n" with the first line changed, and with the last line changed *)
Definition base : text := [97; 10; 98; 10; 99; 10].
Definition local : text := [65; 10; 98; 10; 99; 10].
Definition remote : text := [97; 10; 98; 10; 67; 10].

Example merged_both : mergeText base local remote = Merged [65; 10; 98; 10; 67; 10].
Proof. vm_compute. reflexivity. Qed.

Lemma merge_applies_both_witness :
  (local = remote ∨ remote = base) ∧ [65; 10; 98; 10; 67; 10] = local ∨
  local = base ∧ [65; 10; 98; 10; 67; 10] = remote ∨
  ∃ L R E : list TextEdit,
    union 0 (zlength (lines base)) L R E ∧ [65; 10; 98; 10; 67; 10] = concat (patchFrom (lines base) 0 E).
Proof.
  destruct (merge_applies_both base local remote [65; 10; 98; 10; 67; 10]) as [H|[H|(L & R & E & Hu & _ & _ & _ & Hc)]].
  - vm_compute. reflexivity.
  - by left.
  - by right; left.
  - right; right. by exists L, R, E.
Defined.

Lemma merge_sides_symmetric_witness : mergeText base local remote = mergeText base remote local.
Proof. apply (merge_sides_symmetric base local remote). Defined.
End TrimDiff.
