(* ===== verification/TextDiff.v ===== *)
(** [src/diff.ts] and the text half of [structured/reconcile.ts]: rewriting a
    [Y.Text] by one deletion and one insertion around the common prefix and
    suffix.  [Y.Text] is third-party: an interface whose operations are only
    known to splice UTF-16 text at positions outside surrogate pairs. *)
From Stdlib Require Import String.
From S2P Require Import Prelude.
#[local] Open Scope Z_scope.

(** UTF-16 code units *)
Notation utf16 := (list Z).

Definition isHighSurrogate (code : Z) : bool := (55296 <=? code) && (code <=? 56319).
Definition isLowSurrogate (code : Z) : bool := (56320 <=? code) && (code <=? 57343).

Definition highAt (t : utf16) (i : nat) : bool := match t !! i with Some c => isHighSurrogate c | None => false end.
Definition lowAt (t : utf16) (i : nat) : bool := match t !! i with Some c => isLowSurrogate c | None => false end.

(** Position [i] is not inside a surrogate pair. *)
Definition aligned (t : utf16) (i : nat) : Prop :=
  ∀ j, i = S j → highAt t j = true → lowAt t i = true → False.

Class YText (Y : Type) := {
  ytoString : Y → utf16;
  ydelete : nat → nat → Y → Y;
  yinsert : nat → utf16 → Y → Y }.

Class YTextLaws (Y : Type) `{YText Y} : Prop := {
  ydelete_spec i n y : (0 < n)%nat → (i + n ≤ length (ytoString y))%nat →
    aligned (ytoString y) i → aligned (ytoString y) (i + n) →
    ytoString (ydelete i n y) = take i (ytoString y) ++ drop (i + n) (ytoString y);
  yinsert_spec i s y : s ≠ [] → (i ≤ length (ytoString y))%nat → aligned (ytoString y) i →
    ytoString (yinsert i s y) = take i (ytoString y) ++ s ++ drop i (ytoString y) }.

(** How often the prefix loop runs; on the reversed rests, the suffix loop. *)
Fixpoint commonPrefix (old new : utf16) : nat :=
  match old, new with
  | a :: old', b :: new' => if a =? b then S (commonPrefix old' new') else 0%nat
  | _, _ => 0%nat
  end.

(** [start], [endOld], [endNew] when the edit is made. *)
Definition changedRegion (old new : utf16) : nat * nat * nat :=
  let start := commonPrefix old new in
  let start := match start with S j => if highAt old j then j else start | O => start end in
  let k := commonPrefix (rev (drop start old)) (rev (drop start new)) in
  let endOld := (length old - k)%nat in
  let endNew := (length new - k)%nat in
  if (endOld <? length old)%nat && lowAt old endOld then (start, S endOld, S endNew)
  else (start, endOld, endNew).

(** [s.slice(i, j)] *)
Definition slice (i j : nat) (t : utf16) : utf16 := take (j - i) (drop i t).

Section apply.
Context {Y : Type} `{YText Y}.

(** The one deletion and insertion both functions end with. *)
Definition replaceRegion (y : Y) (new : utf16) (region : nat * nat * nat) : Y :=
  let '(start, endOld, endNew) := region in
  let y := if (0 <? endOld - start)%nat then ydelete start (endOld - start) y else y in
  match slice start endNew new with
  | [] => y
  | s => yinsert start s y
  end.

Definition applyTextToYText (y : Y) (newText : utf16) : Y :=
  let oldText := ytoString y in
  if decide (oldText = newText) then y
  else replaceRegion y newText (changedRegion oldText newText).

(** [applyStringToYText] of [reconcile.ts], which has no surrogate guards. *)
Definition plainRegion (old new : utf16) : nat * nat * nat :=
  let prefix := commonPrefix old new in
  let k := commonPrefix (rev (drop prefix old)) (rev (drop prefix new)) in
  (prefix, length old - k, length new - k)%nat.

Definition applyStringToYText (y : Y) (next : utf16) : Y :=
  let old := ytoString y in
  if decide (old = next) then y
  else replaceRegion y next (plainRegion old next).
End apply.

(** ** Facts *)

(** No lone surrogates. *)
Definition wellFormed (t : utf16) : Prop :=
  (∀ j, highAt t j = true → lowAt t (S j) = true) ∧
  (∀ j, lowAt t j = true → ∃ i, j = S i ∧ highAt t i = true).

Lemma high_not_low c : isHighSurrogate c = true → isLowSurrogate c = false.
Proof. unfold isHighSurrogate, isLowSurrogate. intros. bools. apply andb_false_iff. left. apply Z.leb_gt. lia. Qed.

Lemma highAt_lowAt t i : highAt t i = true → lowAt t i = false.
Proof. unfold highAt, lowAt. destruct (t !! i); [apply high_not_low|done]. Qed.

Lemma commonPrefix_take old new : take (commonPrefix old new) old = take (commonPrefix old new) new.
Proof.
  revert new. induction old as [|a old IH]; intros [|b new]; simpl; try done.
  destruct (Z.eqb_spec a b); simpl; [|done]. subst. by rewrite IH.
Qed.

Lemma commonPrefix_le old new : (commonPrefix old new ≤ length old)%nat ∧ (commonPrefix old new ≤ length new)%nat.
Proof.
  revert new. induction old as [|a old IH]; intros [|b new]; simpl; try lia.
  destruct (a =? b); simpl; [|lia]. specialize (IH new). lia.
Qed.

Lemma take_rev_drop (t : list Z) k : (k ≤ length t)%nat → rev (take k (rev t)) = drop (length t - k) t.
Proof.
  intros Hk. rewrite <- (rev_involutive t) at 3. rewrite <- (take_drop k (rev t)) at 2.
  rewrite rev_app_distr, drop_app_length'; [done|]. rewrite length_rev, length_drop, length_rev. done.
Qed.

Lemma take_eq_lookup (a b : list Z) n i : take n a = take n b → (i < n)%nat → a !! i = b !! i.
Proof. intros E Hi. rewrite <- (lookup_take_lt a n i Hi), <- (lookup_take_lt b n i Hi). by rewrite E. Qed.

Record region_ok (old new : utf16) (start endOld endNew : nat) : Prop := mkRegion {
  rg_start : (start ≤ endOld ≤ length old)%nat;
  rg_startN : (start ≤ endNew ≤ length new)%nat;
  rg_prefix : take start old = take start new;
  rg_suffix : drop endOld old = drop endNew new }.

(** The suffix loop, from any common prefix. *)
Lemma suffix_region old new start :
  take start old = take start new → (start ≤ length old)%nat → (start ≤ length new)%nat →
  let k := commonPrefix (rev (drop start old)) (rev (drop start new)) in
  region_ok old new start (length old - k) (length new - k) ∧ (k ≤ length old - start)%nat ∧ (k ≤ length new - start)%nat.
Proof.
  intros Hp Ho Hn. simpl. set (k := commonPrefix _ _).
  destruct (commonPrefix_le (rev (drop start old)) (rev (drop start new))) as [K1 K2]. fold k in K1, K2.
  rewrite !length_rev, !length_drop in *.
  split; [split; [lia|lia|done|]|lia].
  pose proof (commonPrefix_take (rev (drop start old)) (rev (drop start new))) as Hk. fold k in Hk.
  apply (f_equal (@rev _)) in Hk. rewrite !take_rev_drop in Hk by (rewrite length_drop; lia).
  rewrite !length_drop, !drop_drop in Hk.
  replace (start + (length old - start - k))%nat with (length old - k)%nat in Hk by lia.
  by replace (start + (length new - start - k))%nat with (length new - k)%nat in Hk by lia.
Qed.

Lemma slice_glue (new : list Z) i j : (i ≤ j ≤ length new)%nat → take i new ++ slice i j new ++ drop j new = new.
Proof.
  intros. unfold slice. rewrite <- (take_drop i new) at 4. f_equal.
  rewrite <- (take_drop (j - i) (drop i new)) at 2. f_equal. rewrite drop_drop. f_equal. lia.
Qed.

Lemma changedRegion_ok old new :
  let '(start, endOld, endNew) := changedRegion old new in
  region_ok old new start endOld endNew ∧
  aligned old start ∧ aligned new start ∧ aligned old endOld ∧ aligned new endNew ∧
  (∀ j, start = S j → highAt old j = true → highAt old start = true) ∧
  (commonPrefix old new ≤ S start)%nat.
Proof.
  unfold changedRegion. set (p := commonPrefix old new).
  destruct (commonPrefix_le old new) as [P1 P2]. fold p in P1, P2.
  pose proof (commonPrefix_take old new) as Hp. fold p in Hp.
  set (start := match p with S j => if highAt old j then j else p | O => p end).
  assert ((start ≤ p)%nat ∧ (p ≤ S start)%nat ∧
    ((start = p ∧ ∀ j, p = S j → highAt old j = false) ∨ p = S start ∧ highAt old start = true)) as (S1 & S2 & Sc).
  { unfold start. destruct p as [|j] eqn:Ep; [split_and!; [lia|lia|]; left; split; [done|lia]|].
    destruct (highAt old j) eqn:Eh; [split_and!; [lia|lia|by right]|].
    split_and!; [lia|lia|left; split; [done|]]. by intros j' [= <-]. }
  clearbody start.
  assert (take start old = take start new) as Hs.
  { pose proof (f_equal (take start) Hp) as E. by rewrite !take_take, Nat.min_l in E by lia. }
  destruct (suffix_region old new start Hs ltac:(lia) ltac:(lia)) as (Hr & Hk & Hkn).
  set (k := commonPrefix (rev (drop start old)) (rev (drop start new))) in *.
  assert (∀ i, (i < p)%nat → old !! i = new !! i) as Heq by (intros i Hi; by apply (take_eq_lookup old new p)).
  assert (∀ t, (∀ i, (i < p)%nat → t !! i = old !! i) → aligned t start) as Hal.
  { intros t Ht j Hj Hh Hl. destruct Sc as [[Es Hc]|[Es Hc]].
    - assert (highAt t j = highAt old j) as E by (unfold highAt; by rewrite Ht by lia).
      rewrite E, (Hc j) in Hh by lia. done.
    - assert (lowAt t start = lowAt old start) as E by (unfold lowAt; by rewrite Ht by lia).
      rewrite E, highAt_lowAt in Hl; done. }
  assert (aligned old start) as A1 by (by apply Hal).
  assert (aligned new start) as A2 by (apply Hal; intros; by rewrite Heq).
  assert (∀ j, start = S j → highAt old j = true → highAt old start = true) as A3.
  { intros j Hj Hh. destruct Sc as [[Es Hc]|[_ Hc]]; [rewrite (Hc j) in Hh by lia; done|done]. }
  assert (∀ i, (length old - k ≤ i)%nat → old !! i = new !! (i - (length old - k) + (length new - k))%nat) as Hsuf.
  { intros i Hi. pose proof (rg_suffix _ _ _ _ _ Hr) as E.
    transitivity (drop (length old - k) old !! (i - (length old - k))%nat).
    - rewrite lookup_drop. f_equal. lia.
    - rewrite E, lookup_drop. f_equal. lia. }
  destruct ((length old - k <? length old)%nat && lowAt old (length old - k)) eqn:Ec.
  - apply andb_true_iff in Ec as [Ec1%Nat.ltb_lt Ec2]. split_and!; try done.
    + destruct Hr as [? ? ? Hd]. split; [lia|lia|done|].
      apply (f_equal (drop 1)) in Hd. rewrite !drop_drop in Hd.
      by rewrite !Nat.add_1_r in Hd.
    + intros j [= <-] Hh. rewrite highAt_lowAt in Ec2; done.
    + intros j [= <-] Hh. assert (highAt new (length new - k) = highAt old (length old - k)) as E.
      { unfold highAt. rewrite (Hsuf (length old - k)%nat) by lia. by rewrite Nat.sub_diag. }
      rewrite E in Hh. rewrite highAt_lowAt in Ec2; done.
  - apply andb_false_iff in Ec. split_and!; try done.
    + intros j Hj Hh Hl. destruct Ec as [Ec|Ec]; [|congruence]. apply Nat.ltb_ge in Ec.
      unfold lowAt in Hl. rewrite lookup_ge_None_2 in Hl by lia. done.
    + intros j Hj Hh Hl. destruct Ec as [Ec|Ec].
      * apply Nat.ltb_ge in Ec. unfold lowAt in Hl. rewrite lookup_ge_None_2 in Hl by lia. done.
      * assert (lowAt new (length new - k) = lowAt old (length old - k)) as E; [|congruence].
        unfold lowAt. rewrite (Hsuf (length old - k)%nat) by lia. by rewrite Nat.sub_diag.
Qed.

Section spec.
Context {Y : Type} `{YTextLaws Y}.

(** Replacing a changed region that splits no pair gives the new text. *)
Lemma replaceRegion_correct y new start endOld endNew :
  region_ok (ytoString y) new start endOld endNew →
  aligned (ytoString y) start → aligned (ytoString y) endOld →
  aligned (take start (ytoString y) ++ drop endOld (ytoString y)) start →
  ytoString (replaceRegion y new (start, endOld, endNew)) = new.
Proof.
  intros [Ho Hn Hp Hs] A1 A2 A3. unfold replaceRegion.
  set (y1 := if (0 <? endOld - start)%nat then ydelete start (endOld - start) y else y).
  assert (ytoString y1 = take start (ytoString y) ++ drop endOld (ytoString y)) as E.
  { unfold y1. destruct (Nat.ltb_spec 0 (endOld - start)).
    - rewrite ydelete_spec; rewrite <- ?Nat.le_add_sub by lia; done || lia.
    - replace endOld with start by lia. by rewrite take_drop. }
  assert (length (take start (ytoString y)) = start) as Hl by (rewrite length_take; lia).
  destruct (slice start endNew new) as [|c s] eqn:Es.
  - rewrite E, Hp, Hs. rewrite <- (slice_glue new start endNew) at 3 by lia. by rewrite Es.
  - rewrite yinsert_spec; [|done|rewrite E, length_app; lia|by rewrite E].
    rewrite E. rewrite take_app_length', drop_app_length' by done.
    rewrite <- Es, Hp, Hs. by apply slice_glue.
Qed.

Lemma aligned_spliced old start endOld : wellFormed old → (start ≤ length old)%nat → aligned old start →
  (∀ j, start = S j → highAt old j = true → highAt old start = true) →
  aligned (take start old ++ drop endOld old) start.
Proof.
  intros [W1 W2] Hle A1 A3 j -> Hh _.
  assert (highAt old j = true) as Hj.
  { unfold highAt in *. rewrite lookup_app_l in Hh by (rewrite length_take; lia).
    by rewrite lookup_take_lt in Hh by lia. }
  pose proof (A3 j eq_refl Hj) as Hs. apply highAt_lowAt in Hs. rewrite (W1 j Hj) in Hs. done.
Qed.

(** C36: [applyTextToYText] leaves the text equal to the new one, whatever the
    document type does to split surrogate pairs: the one deletion and the one
    insertion it makes start and end outside surrogate pairs, and keep all of
    the common prefix but at most one code unit. *)
Theorem applyTextToYText_correct y newText :
  wellFormed (ytoString y) →
  ytoString (applyTextToYText y newText) = newText ∧
  let '(start, endOld, endNew) := changedRegion (ytoString y) newText in
  (commonPrefix (ytoString y) newText ≤ S start)%nat ∧
  aligned (ytoString y) start ∧ aligned (ytoString y) endOld ∧
  aligned newText start ∧ aligned newText endNew.
Proof.
  intros Hw. pose proof (changedRegion_ok (ytoString y) newText) as Hc.
  unfold applyTextToYText. destruct (changedRegion (ytoString y) newText) as [[start endOld] endNew].
  destruct Hc as (Hr & A1 & A2 & A3 & A4 & Hh & Hp). split; [|done].
  case_decide; [done|]. apply replaceRegion_correct; try done.
  apply aligned_spliced; try done. destruct Hr. lia.
Qed.

(** [applyStringToYText], which has no surrogate guards, leaves the text
    equal to the new one when the old text has no surrogates at all. *)
Theorem applyStringToYText_correct y next :
  (∀ i, highAt (ytoString y) i = false) →
  ytoString (applyStringToYText y next) = next.
Proof.
  intros Hb. unfold applyStringToYText, plainRegion. case_decide; [done|].
  set (p := commonPrefix _ next). destruct (commonPrefix_le (ytoString y) next) as [P1 P2]. fold p in P1, P2.
  destruct (suffix_region (ytoString y) next p (commonPrefix_take _ _) P1 P2) as [Hr _].
  assert (∀ i, aligned (ytoString y) i) as Ha by (intros i j -> Hh; by rewrite Hb in Hh).
  apply replaceRegion_correct; auto. intros j -> Hh _.
  unfold highAt in Hh. rewrite lookup_app_l in Hh by (rewrite length_take; lia).
  rewrite lookup_take_lt in Hh by lia. pose proof (Hb j) as Hj. unfold highAt in Hj. congruence.
Qed.
End spec.

(** A text type that, as Yjs does, turns both halves of a split pair into
    U+FFFD. *)
Module Replacing.
Definition pairAt (t : utf16) (i : nat) : bool :=
  match i with S j => highAt t j && lowAt t i | O => false end.

(** Both halves of the pair around [i], if it is inside one, replaced. *)
Definition split (i : nat) (t : utf16) : utf16 :=
  if pairAt t i then <[pred i := 65533]> (<[i := 65533]> t) else t.

#[export] Instance replacing : YText utf16 := {
  ytoString t := t;
  ydelete i n t := let t := split (i + n) (split i t) in take i t ++ drop (i + n) t;
  yinsert i s t := let t := split i t in take i t ++ s ++ drop i t }.

Lemma split_aligned i t : aligned t i → split i t = t.
Proof.
  intros Ha. unfold split, pairAt. destruct i as [|j]; [done|].
  destruct (highAt t j) eqn:E1; [|done]. destruct (lowAt t (S j)) eqn:E2; [|done]. by destruct (Ha j).
Qed.

#[export] Instance replacing_laws : YTextLaws utf16.
Proof.
  split; simpl; intros.
  - by rewrite (split_aligned i), split_aligned.
  - by rewrite split_aligned.
Qed.

(** "a" and an emoji, and the same with another emoji of the same high half *)
Definition grin : utf16 := [97; 55357; 56832].
Definition joy : utf16 := [97; 55357; 56834].

Lemma grin_wellFormed : wellFormed grin.
Proof.
  split.
  - intros [|[|[|j]]]; try done. 
  - intros [|[|[|j]]]; try done. intros _. by exists 1%nat.
Qed.

Lemma applyTextToYText_correct_witness : ytoString (applyTextToYText grin joy) = joy.
Proof. apply (applyTextToYText_correct grin joy). exact grin_wellFormed. Defined.

Lemma applyStringToYText_correct_witness : ytoString (applyStringToYText [97; 98; 99] [97; 120; 99]) = [97; 120; 99].
Proof. apply applyStringToYText_correct. intros [|[|[|[|i]]]]; reflexivity. Defined.

(** Without the guards an emoji edit corrupts the text. *)
Example applyStringToYText_splits_pairs :
  ytoString (applyStringToYText grin joy) = [97; 65533; 56834] ∧
  ytoString (applyTextToYText grin joy) = joy.
Proof. split; vm_compute; reflexivity. Qed.
End Replacing.
