(* ===== verification/Provider.v ===== *)
(** [src/sync/RealtimeProvider.ts]: one document's transport.  The reconnect
    loop is an explicit program counter (every [await] ends a step), sockets
    and timers report by events, and everything the provider does to the
    outside is appended to a log.  Yjs, its sync and awareness protocols, the
    gate and the socket factory are outside: events carry their answers, and
    listeners run after the operation that emits. *)
From Stdlib Require Import String QArith.
From stdpp Require Import pretty.
From S2P Require Import Prelude Token.
#[local] Open Scope Z_scope.

Definition SOCKET_RETRIES_PER_TOKEN : nat := 3.
Definition RECONNECT_INITIAL_MS : Z := 500.
Definition TOKEN_RETRY_MS : Z := 3000.
Definition MAX_TOKEN_RETRY_MS : Z := 60000.
Definition EPOCH_PENDING_RETRY_MS : Z := 2000.
Definition MAX_RECONNECT_MS : Z := 5000.
Definition HEARTBEAT_MS : Z := 2000.
Definition IDLE_HEARTBEAT_MS : Z := 30000.
Definition RESPONSE_TIMEOUT_MS : Z := 10000.
Definition CONNECT_TIMEOUT_MS : Z := 60000.
Definition HANDSHAKE_TIMEOUT_MS : Z := 10000.
Definition EPOCH_FLUSH_TIMEOUT_MS : Z := 10000.

Inductive SyncStatus := Offline | Connecting | Error | Handshaking | Connected.

#[export] Instance SyncStatus_eq_dec : EqDecision SyncStatus.
Proof. solve_decision. Defined.

(** ** What goes out and comes in

    An update carries its number among this provider's local changes, and a
    step 2 (the document's answer to the server's state vector) the number of
    local changes made before it: both for the specification only. *)

Inductive OutMessage :=
  | OSyncStep1
  | OSyncStep2 (made : Z)
  | OUpdate (n : Z)
  | OAwareness
  | OSyncStatus (version : Z)
  | OEpochAcknowledgement (epoch : Z).

(** A decoded message. [SStep1 b]: [b] tells whether the answer holds structs
    the server lacks.  A JSON payload is [None] when it is not of the expected
    shape; [MInvalid] is a message that fails to decode or to apply,
    with the error's text. *)
Inductive SyncMessage := SStep1 (structs : bool) | SStep2 | SUpdate.

Inductive InMessage :=
  | MSync (m : SyncMessage)
  | MAwareness
  | MQueryAwareness
  | MSyncStatus (version : Z)
  | MEpochProposal (epoch : option Z)
  | MDocumentInvalidated (documentId : option string)
  | MOther (messageType : Z)
  | MInvalid (error : string).

Inductive Effect :=
  | Sent (socket : nat) (m : OutMessage)
  | SocketOpened (socket : nat)
  | SocketClosed (socket : nat)
  | MintedToken
  | EmitStatus (s : SyncStatus)
  | EmitSynced (b : bool)
  | EmitLocalChanges (b : bool)
  | EmitInvalidated (documentId : string)
  | GateInvalidated
  | EpochAccepted (epoch : Z)
  | ReadOnlyUpdate
  | Slept (ms : Q).

(** ** State *)

Inductive ReadyState := RConnecting | ROpen | RClosed.

#[export] Instance ReadyState_eq_dec : EqDecision ReadyState.
Proof. solve_decision. Defined.

(** A socket the factory made: its state and whether the provider's handlers
    are still attached. *)
Record Socket := mkSocket { readyState : ReadyState; attached : bool; socketLifecycle : Z }.
#[export] Instance eta_Socket : Eta Socket := λ s, mkSocket (readyState s) (attached s) (socketLifecycle s).

(** Where [runCompleteLoop] waits. *)
Inductive Pc :=
  | PGate                                      (* connectionGate.ensure() *)
  | PToken                                     (* tokenSource() *)
  | PTokenReady (t : ClientToken)              (* a cached token, resolved *)
  | PAttempt (attempt : nat) (t : ClientToken) (* attemptConnection(...) *)
  | PAttempted (attempt : nat) (t : ClientToken) (connected : bool)
  | PSleep (next : option (nat * ClientToken)) (* sleep(...); then the next attempt, or the loop *)
  | PWoken (next : option (nat * ClientToken))
  | PFinally.                                  (* the loop returned *)

Record Task := mkTask { taskLifecycle : Z; pc : Pc }.
#[export] Instance eta_Task : Eta Task := λ t, mkTask (taskLifecycle t) (pc t).

(** An armed handshake timer: the socket it would fail, its lifecycle, and why. *)
Record HandshakeTimer := mkHT { htSocket : nat; htLifecycle : Z; htReason : string }.

Record Provider := mkProvider {
  documentId : string;
  hasGate : bool;
  status : SyncStatus;
  clientToken : option ClientToken;
  lastConnectionError : option string;
  socket : option nat;
  connectTask : option nat;
  connectTaskLifecycle : Z;
  completeAttempt : option nat;
  lifecycle : Z;
  shouldConnect : bool;
  destroyed : bool;
  retries : nat;
  tokenFailures : nat;
  gateFailures : nat;
  tokenRejected : bool;
  tokenRejections : nat;
  localVersion : Z;
  acknowledgedVersion : Z;
  readOnlyDivergence : bool;
  receivedServerSyncStep1 : bool;
  heartbeatTimer : option Z;
  responseTimer : bool;
  handshakeTimer : option HandshakeTimer;
  retryTimer : option nat;
  wakeRetry : option nat;
  cancelRetry : option nat;
  pendingEpoch : option Z;
  epochFlushTimer : bool;
(** the platform's side *)
sockets : gmap nat Socket;
nextSocket : nat;
tasks : gmap nat Task;
nextTask : nat;
queuedConnects : nat;
log : list Effect }.
#[export] Instance eta_Provider : Eta Provider := λ p,
  mkProvider (documentId p) (hasGate p) (status p) (clientToken p) (lastConnectionError p) (socket p)
    (connectTask p) (connectTaskLifecycle p) (completeAttempt p) (lifecycle p) (shouldConnect p)
    (destroyed p) (retries p) (tokenFailures p) (gateFailures p) (tokenRejected p) (tokenRejections p)
    (localVersion p) (acknowledgedVersion p) (readOnlyDivergence p) (receivedServerSyncStep1 p)
    (heartbeatTimer p) (responseTimer p) (handshakeTimer p) (retryTimer p) (wakeRetry p) (cancelRetry p)
    (pendingEpoch p) (epochFlushTimer p) (sockets p) (nextSocket p) (tasks p) (nextTask p)
    (queuedConnects p) (log p).

(** What the outside answers while one event is handled. *)
Record Env := mkEnv {
  now : Z;
  gateOpen : bool;             (* connectionGate.isOpen() *)
  gateBlocks : bool;           (* connectionGate.blocksTraffic() *)
  hasPresence : bool;          (* awareness.getLocalState() !== null *)
  monitored : bool;            (* socket.livenessMonitored *)
  factoryFails : bool;         (* the socket factory throws *)
  epochRefused : bool }.       (* the epoch proposal handler throws *)

Definition newProvider (documentId : string) (hasGate : bool) : Provider :=
  mkProvider documentId hasGate Offline None None None None (-1) None 0 false false 0 0 0 false 0
    0 (-1) false false None false None None None None None false ∅ 0 ∅ 0 0 [].

Definition record (f : Effect) (p : Provider) : Provider := p <| log ::= λ l, l ++ [f] |>.

Definition awaitingAcknowledgement (p : Provider) : bool := acknowledgedVersion p <? localVersion p.

Definition hasLocalChanges (p : Provider) : bool := readOnlyDivergence p || awaitingAcknowledgement p.

Definition canContinue (lc : Z) (p : Provider) : bool :=
  shouldConnect p && negb (destroyed p) && (lifecycle p =? lc).

Definition readOnly (p : Provider) : bool :=
  match clientToken p with
  | Some t => match authorization t with Some ReadOnly => true | _ => false end
  | None => false
  end.

Definition blocks (e : Env) (p : Provider) : bool := hasGate p && gateBlocks e.

Definition setStatus (st : SyncStatus) (p : Provider) : Provider :=
  if decide (status p = st) then p
  else
    let wasSynced := bool_decide (status p = Connected) in
    let p := p <| status := st |> in
    let p := if decide (st = Connected) then p <| lastConnectionError := None |> else p in
    let p := record (EmitStatus st) p in
    let isSynced := bool_decide (st = Connected) in
    if eqb wasSynced isSynced then p else record (EmitSynced isSynced) p.

(** Resolve the promise the current attempt's task awaits. *)
Definition settleAttempt (connected : bool) (p : Provider) : Provider :=
  match completeAttempt p with
  | None => p
  | Some id =>
    let p := p <| completeAttempt := None |> in
    match tasks p !! id with
    | Some t => match pc t with
                | PAttempt n tok => p <| tasks ::= insert id (t <| pc := PAttempted n tok connected |>) |>
                | _ => p
                end
    | None => p
    end
  end.

Definition clearSocketTimers (p : Provider) : Provider :=
  ((p <| heartbeatTimer := None |>) <| responseTimer := false |>) <| handshakeTimer := None |>.

Definition clearHandshakeTimeout (p : Provider) : Provider := p <| handshakeTimer := None |>.
Definition clearResponseTimeout (p : Provider) : Provider := p <| responseTimer := false |>.

Definition clearEpochHandoff (p : Provider) : Provider :=
  (p <| epochFlushTimer := false |>) <| pendingEpoch := None |>.

(** [detachSocket] and [socket.close()] *)
Definition closeAndDetach (s : nat) (p : Provider) : Provider :=
  record (SocketClosed s)
    (p <| sockets ::= alter (λ k, (k <| attached := false |>) <| readyState := RClosed |>) s |>).

Definition queueConnect (p : Provider) : Provider := p <| queuedConnects ::= S |>.

Definition failSocket (e : Env) (s : nat) (lc : Z) (reason : string) (p : Provider) : Provider :=
  if decide (socket p = Some s) then
    let p := if bool_decide (status p = Connected) && negb (blocks e p) && hasGate p
             then record GateInvalidated p else p in
    let p := (p <| lastConnectionError := Some reason |>) <| socket := None |> in
    let p := closeAndDetach s (clearEpochHandoff p) in
    let p := clearSocketTimers p in
    let p := if canContinue lc p then setStatus Error p else p in
    let p := settleAttempt false p in
    if bool_decide (connectTask p = None) && canContinue lc p then queueConnect p else p
  else p.

Definition closeSocket (p : Provider) : Provider :=
  let s := socket p in
  let p := settleAttempt false (clearSocketTimers (clearEpochHandoff (p <| socket := None |>))) in
  match s with
  | None => p
  | Some s => closeAndDetach s p
  end.

Definition isOpenSocket (s : nat) (p : Provider) : bool :=
  match sockets p !! s with Some k => bool_decide (readyState k = ROpen) | None => false end.

(** [send]: the result tells whether the message was written *)
Definition send (e : Env) (m : OutMessage) (p : Provider) : Provider * bool :=
  match socket p with
  | None => (p, false)
  | Some s =>
    if negb (isOpenSocket s p) then (p, false)
    else if blocks e p then (failSocket e s (lifecycle p) "server is incompatible" p, false)
    else (record (Sent s m) p, true)
  end.

Definition sendSyncStep1 (e : Env) (p : Provider) : Provider := (send e OSyncStep1 p).1.

Definition broadcastAwareness (e : Env) (p : Provider) : Provider :=
  if hasPresence e then (send e OAwareness p).1 else p.

Definition checkSync (e : Env) (p : Provider) : Provider :=
  if receivedServerSyncStep1 p then
    let '(p, sent) := send e (OSyncStatus (localVersion p)) p in
    if sent then p <| responseTimer := true |> else p
  else p.

Definition resetHeartbeat (e : Env) (p : Provider) : Provider :=
  let p := p <| heartbeatTimer := None |> in
  let idle := receivedServerSyncStep1 p && negb (awaitingAcknowledgement p) in
  if idle && bool_decide (is_Some (socket p)) && monitored e then p
  else p <| heartbeatTimer := Some (if idle then IDLE_HEARTBEAT_MS else HEARTBEAT_MS) |>.

Definition incrementLocalVersion (p : Provider) : Provider :=
  let wasPending := hasLocalChanges p in
  let p := p <| localVersion ::= λ n, n + 1 |> in
  if wasPending then p else record (EmitLocalChanges true) p.

(** [documentUpdateListener] for a change that is not the provider's own *)
Definition documentUpdated (e : Env) (p : Provider) : Provider :=
  if destroyed p then p
  else if readOnly p then record ReadOnlyUpdate p
  else
    let p := (send e (OUpdate (localVersion p + 1)) p).1 in
    checkSync e (incrementLocalVersion p).

(** [awarenessUpdateListener], told whether the change names this client *)
Definition awarenessUpdated (e : Env) (own : bool) (p : Provider) : Provider :=
  if destroyed p || negb own then p else (send e OAwareness p).1.

(** ** Epoch handoff *)

Definition finishEpochHandoff (e : Env) (p : Provider) : Provider :=
  let epoch := pendingEpoch p in
  let p := clearEpochHandoff p in
  match epoch, socket p with
  | Some epoch, Some s =>
    if epochRefused e then failSocket e s (lifecycle p) "epoch proposal rejected" p
    else (send e (OEpochAcknowledgement epoch) (record (EpochAccepted epoch) p)).1
  | _, _ => p
  end.

Definition acknowledgeVersion (e : Env) (version : Z) (p : Provider) : Provider :=
  let wasPending := hasLocalChanges p in
  let p := if readOnly p then p else p <| readOnlyDivergence := false |> in
  let p := p <| acknowledgedVersion ::= Z.max version |> in
  let p := if wasPending && negb (hasLocalChanges p) then record (EmitLocalChanges false) p else p in
  if bool_decide (is_Some (pendingEpoch p)) && negb (hasLocalChanges p) then finishEpochHandoff e p else p.

Definition noteReadOnlyDivergence (structs : bool) (p : Provider) : Provider :=
  if structs then
    let wasPending := hasLocalChanges p in
    let p := p <| readOnlyDivergence := true |> in
    if wasPending then p else record (EmitLocalChanges true) p
  else p.

(** ** Messages *)

Definition receiveSyncMessage (e : Env) (m : SyncMessage) (p : Provider) : Provider :=
  match m with
  | SStep1 structs =>
    let p := (send e (OSyncStep2 (localVersion p)) p).1 in
    let p := p <| receivedServerSyncStep1 := true |> in
    let p := if readOnly p then noteReadOnlyDivergence structs p else p in
    checkSync e p
  | SStep2 => settleAttempt true (setStatus Connected (clearHandshakeTimeout p))
  | SUpdate => p
  end.

Definition receiveEpochProposal (e : Env) (epoch : Z) (p : Provider) : Provider :=
  let p := p <| pendingEpoch := Some epoch |> in
  if negb (hasLocalChanges p) || readOnly p then finishEpochHandoff e p
  else (checkSync e p) <| epochFlushTimer := true |>.

Definition receiveMessage (e : Env) (m : InMessage) (p : Provider) : throws string Provider :=
  match m with
  | MSync m => Returns (receiveSyncMessage e m p)
  | MAwareness => Returns p
  | MQueryAwareness => Returns (broadcastAwareness e p)
  | MSyncStatus version => Returns (acknowledgeVersion e version p)
  | MEpochProposal (Some epoch) =>
    if Epoch.isSafeInteger epoch && (0 <=? epoch) then Returns (receiveEpochProposal e epoch p)
    else Throws "invalid document epoch proposal"%string
  | MEpochProposal None => Throws "invalid document epoch proposal"%string
  | MDocumentInvalidated (Some id) =>
    if decide (id = ""%string) then Throws "invalid document invalidation"%string
    else Returns (record (EmitInvalidated id) p)
  | MDocumentInvalidated None => Throws "invalid document invalidation"%string
  | MInvalid error => Throws error
  | MOther _ => Returns p
  end.

(** ** The reconnect loop *)

Definition setPc (id : nat) (c : Pc) (p : Provider) : Provider :=
  p <| tasks ::= alter (λ t, t <| pc := c |>) id |>.

(** [sleep], ending the task's step *)
Definition sleep (id : nat) (lc : Z) (ms : Q) (wakeable : bool) (next : option (nat * ClientToken)) (p : Provider) : Provider :=
  if canContinue lc p then
    let p := setPc id (PSleep next) (record (Slept ms) p) in
    ((p <| wakeRetry := if wakeable then Some id else None |>) <| cancelRetry := Some id |>) <| retryTimer := Some id |>
  else setPc id (PWoken next) p.

(** [finish] of the sleep of task [id] *)
Definition finishSleep (id : nat) (p : Provider) : Provider :=
  let p := ((p <| retryTimer := None |>) <| wakeRetry := None |>) <| cancelRetry := None |> in
  match tasks p !! id with
  | Some t => match pc t with
              | PSleep next => setPc id (PWoken next) p
              | _ => p
              end
  | None => p
  end.

Definition backoff (base : Z) (n : nat) : Q := inject_Z (Z.min MAX_TOKEN_RETRY_MS (base * 2 ^ Z.of_nat n)).

Definition reconnectDelay (p : Provider) : Q :=
  let d := (inject_Z RECONNECT_INITIAL_MS * Qpower (11 # 10) (Z.of_nat (retries p)))%Q in
  if Qle_bool d (inject_Z MAX_RECONNECT_MS) then d else inject_Z MAX_RECONNECT_MS.

Definition returnLoop (id : nat) (p : Provider) : Provider := setPc id PFinally p.

(** [ensureClientToken] up to its [await] *)
Definition ensureClientToken (e : Env) (id : nat) (p : Provider) : Provider :=
  let p := match clientToken p with
           | Some t => if clientTokenExpired t (now e) then p <| clientToken := None |> else p
           | None => p
           end in
  match clientToken p with
  | Some t => setPc id (PTokenReady t) p
  | None => setPc id PToken (record MintedToken p)
  end.

(** The head of the [while] loop. *)
Definition loopHead (e : Env) (id : nat) (lc : Z) (p : Provider) : Provider :=
  if canContinue lc p && negb (bool_decide (status p = Connected)) then
    if hasGate p then setPc id PGate p else ensureClientToken e id p
  else returnLoop id p.

(** [attemptConnection]; the task then awaits it. *)
Definition attemptConnection (e : Env) (id : nat) (lc : Z) (attempt : nat) (t : ClientToken) (p : Provider) : Provider :=
  let p := setStatus Connecting (closeSocket p) in
  if factoryFails e then setPc id (PAttempted attempt t false) (setStatus Error p)
  else
    let s := nextSocket p in
    let p := (p <| nextSocket := S s |>) <| sockets ::= insert s (mkSocket RConnecting true lc) |> in
    let p := record (SocketOpened s) p in
    if canContinue lc p then
      let p := (p <| socket := Some s |>) <| receivedServerSyncStep1 := false |> in
      let p := setPc id (PAttempt attempt t) (p <| completeAttempt := Some id |>) in
      p <| handshakeTimer := Some (mkHT s lc "connect timeout") |>
    else setPc id (PAttempted attempt t false) (closeAndDetach s p).

(** After the [for] loop over attempts. *)
Definition afterAttempts (e : Env) (id : nat) (lc : Z) (p : Provider) : Provider :=
  let p := p <| clientToken := None |> in
  if tokenRejected p then
    let p := p <| tokenRejections ::= S |> in
    if (1 <? tokenRejections p)%nat
    then sleep id lc (backoff TOKEN_RETRY_MS (tokenRejections p - 2)) true None p
    else loopHead e id lc p
  else loopHead e id lc p.

(** One round of the [for] loop, up to its [await]. *)
Definition attemptRound (e : Env) (id : nat) (lc : Z) (attempt : nat) (t : ClientToken) (p : Provider) : Provider :=
  if (attempt <? SOCKET_RETRIES_PER_TOKEN)%nat then
    if hasGate p && negb (gateOpen e) then loopHead e id lc p
    else attemptConnection e id lc attempt t (p <| tokenRejected := false |>)
  else afterAttempts e id lc p.

(** After [await this.attemptConnection(token, lifecycle)]. *)
Definition attemptDone (e : Env) (id : nat) (lc : Z) (attempt : nat) (t : ClientToken) (connected : bool) (p : Provider) : Provider :=
  if negb (canContinue lc p) || connected then
    let p := if connected then (p <| retries := 0%nat |>) <| tokenRejections := 0%nat |> else p in
    returnLoop id p
  else
    let p := p <| retries ::= S |> in
    if tokenRejected p then afterAttempts e id lc p
    else sleep id lc (reconnectDelay p) true (Some (attempt, t)) p.

Definition tokenReceived (e : Env) (id : nat) (lc : Z) (t : ClientToken) (p : Provider) : Provider :=
  let p := p <| tokenFailures := 0%nat |> in
  if canContinue lc p then attemptRound e id lc 0 t p else returnLoop id p.

(** The errors a token mint can end in, with their message. *)
Inductive MintErrorKind := EpochPending | HttpRefusal | OtherMintError.
Record MintError := mkMintError { kind : MintErrorKind; message : string }.

Definition tokenFailed (id : nat) (lc : Z) (err : MintError) (p : Provider) : Provider :=
  if canContinue lc p then
    let p := (setStatus Error p) <| retries ::= S |> in
    let p := p <| lastConnectionError := Some (message err) |> in
    match kind err with
    | EpochPending => sleep id lc (inject_Z EPOCH_PENDING_RETRY_MS) true None p
    | _ =>
      let delay := backoff TOKEN_RETRY_MS (tokenFailures p) in
      let p := p <| tokenFailures ::= S |> in
      sleep id lc delay (match kind err with HttpRefusal => false | _ => true end) None p
    end
  else returnLoop id p.

Definition invalidToken (p : Provider) : MintError :=
  let quote := String (Ascii.ascii_of_nat 34) EmptyString in
  mkMintError OtherMintError ("invalid document token for " ++ quote ++ documentId p ++ quote)%string.

(** [await this.tokenSource()] settled, in [ensureClientToken] *)
Definition tokenSettles (e : Env) (id : nat) (lc : Z) (reply : throws MintError (option ClientToken)) (p : Provider) : Provider :=
  match reply with
  | Throws err => tokenFailed id lc err p
  | Returns None => tokenFailed id lc (invalidToken p) p
  | Returns (Some t) =>
    if bool_decide (docId t = documentId p) && negb (bool_decide (url t = ""%string))
    then tokenReceived e id lc t (p <| clientToken := Some t |>)
    else tokenFailed id lc (invalidToken p) p
  end.

(** [await this.connectionGate.ensure()] settled, or threw a message *)
Definition gateSettles (e : Env) (id : nat) (lc : Z) (reply : throws string ()) (p : Provider) : Provider :=
  match reply with
  | Returns _ =>
    let p := p <| gateFailures := 0%nat |> in
    if canContinue lc p then ensureClientToken e id p else returnLoop id p
  | Throws error =>
    if canContinue lc p then
      let p := (setStatus Error p) <| lastConnectionError := Some error |> in
      let delay := backoff TOKEN_RETRY_MS (gateFailures p) in
      sleep id lc delay true None (p <| gateFailures ::= S |>)
    else returnLoop id p
  end.

(** A task whose [await] is over resumes. *)
Definition resumeTask (e : Env) (id : nat) (p : Provider) : Provider :=
  match tasks p !! id with
  | None => p
  | Some t =>
    let lc := taskLifecycle t in
    match pc t with
    | PTokenReady tok => tokenReceived e id lc tok p
    | PAttempted n tok connected => attemptDone e id lc n tok connected p
    | PWoken None => loopHead e id lc p
    | PWoken (Some (n, tok)) => if canContinue lc p then attemptRound e id lc (S n) tok p else returnLoop id p
    | PFinally =>
      let p := p <| tasks ::= delete id |> in
      let p := if decide (connectTask p = Some id) then p <| connectTask := None |> else p in
      if shouldConnect p && negb (destroyed p) && negb (bool_decide (status p = Connected)) && (lifecycle p =? lc)
      then queueConnect p else p
    | PGate | PToken | PAttempt _ _ | PSleep _ => p
    end
  end.

(** ** The public operations *)

Definition connect (e : Env) (p : Provider) : Provider :=
  if destroyed p || bool_decide (status p = Connected) then p
  else
    let p := p <| shouldConnect := true |> in
    let p := match wakeRetry p with Some id => finishSleep id p | None => p end in
    if bool_decide (is_Some (connectTask p)) && (connectTaskLifecycle p =? lifecycle p) then p
    else
      let id := nextTask p in
      let lc := lifecycle p in
      let p := (p <| nextTask := S id |>) <| tasks ::= insert id (mkTask lc PFinally) |> in
      let p := loopHead e id lc (setStatus Connecting p) in
      (p <| connectTask := Some id |>) <| connectTaskLifecycle := lc |>.

Definition cancelSleep (p : Provider) : Provider :=
  match cancelRetry p with Some id => finishSleep id p | None => p end.

Definition disconnect (p : Provider) : Provider :=
  if destroyed p then p
  else
    let p := (p <| shouldConnect := false |>) <| lifecycle ::= λ n, n + 1 |> in
    setStatus Offline (closeSocket (cancelSleep p)).

Definition destroy (p : Provider) : Provider :=
  if destroyed p then p
  else
    let p := ((p <| destroyed := true |>) <| shouldConnect := false |>) <| lifecycle ::= λ n, n + 1 |> in
    setStatus Offline (closeSocket (cancelSleep p)).

(** ** Events *)

Definition isCurrentSocket (s : nat) (lc : Z) (p : Provider) : bool :=
  bool_decide (socket p = Some s) && canContinue lc p.

Definition onOpen (e : Env) (s : nat) (lc : Z) (p : Provider) : Provider :=
  if isCurrentSocket s lc p then
    let p := sendSyncStep1 e (setStatus Handshaking p) in
    let p := resetHeartbeat e (broadcastAwareness e p) in
    p <| handshakeTimer := Some (mkHT s lc "handshake timeout") |>
  else p.

Definition onMessage (e : Env) (s : nat) (lc : Z) (m : InMessage) (p : Provider) : Provider :=
  if isCurrentSocket s lc p then
    if blocks e p then failSocket e s lc "server is incompatible" p
    else match receiveMessage e m p with
         | Returns p => resetHeartbeat e (clearResponseTimeout p)
         | Throws error => failSocket e s lc ("invalid message: " ++ error)%string p
         end
  else p.

Definition onError (e : Env) (s : nat) (lc : Z) (rejected : bool) (p : Provider) : Provider :=
  let p := if rejected && isCurrentSocket s lc p then p <| tokenRejected := true |> else p in
  failSocket e s lc (if rejected then "token rejected" else "socket error") p.

(** The close event's [code] and [reason], each [None] when not a number, a string. *)
Definition closeDetail (code : option Z) (reason : option string) : string :=
  match code with
  | Some code =>
    "socket closed (" ++ pretty code ++
      match reason with
      | Some reason => if decide (reason = "") then "" else ": " ++ reason
      | None => ""
      end ++ ")"
  | None => "socket closed"
  end%string.

Definition onClose (e : Env) (s : nat) (lc : Z) (code : option Z) (reason : option string) (p : Provider) : Provider :=
  failSocket e s lc (closeDetail code reason) p.

Definition handshakeTimeout (e : Env) (p : Provider) : Provider :=
  match handshakeTimer p with
  | Some t =>
    let p := clearHandshakeTimeout p in
    if decide (status p = Connected) then p else failSocket e (htSocket t) (htLifecycle t) (htReason t) p
  | None => p
  end.

Definition heartbeatFires (e : Env) (p : Provider) : Provider :=
  match heartbeatTimer p with
  | Some _ =>
    let p := p <| heartbeatTimer := None |> in
    if receivedServerSyncStep1 p then checkSync e p else sendSyncStep1 e p
  | None => p
  end.

(** The timer keeps [responseTimer] set; failing the socket clears it. *)
Definition responseTimeout (e : Env) (p : Provider) : Provider :=
  if responseTimer p then
    match socket p with
    | Some s => failSocket e s (lifecycle p) "heartbeat timeout" p
    | None => p
    end
  else p.

Inductive Event :=
  | CallConnect | CallDisconnect | CallDestroy
  | RunQueuedConnect
  | DocumentUpdated
  | AwarenessUpdated (own : bool)
  | SocketOpens (s : nat)
  | SocketMessage (s : nat) (m : InMessage)
  | SocketErrors (s : nat) (rejected : bool)
  | SocketCloses (s : nat) (code : option Z) (reason : option string)
  | SocketDies (s : nat)                (* leaves the open state; its close event comes later *)
  | GateSettles (id : nat) (reply : throws string ())
  | TokenSettles (id : nat) (reply : throws MintError (option ClientToken))
  | Resume (id : nat)
  | RetryFires | HandshakeFires | HeartbeatFires | ResponseFires | EpochFlushFires.

(** A socket's event reaches the provider while its handlers are attached;
    messages only arrive on an open one, as the platform has it. *)
Definition onSocket (s : nat) (f : Z → Provider → Provider) (p : Provider) : Provider :=
  match sockets p !! s with
  | Some k => if attached k then f (socketLifecycle k) p else p
  | None => p
  end.

Definition setReady (s : nat) (r : ReadyState) (p : Provider) : Provider :=
  p <| sockets ::= alter (λ k, k <| readyState := r |>) s |>.

Definition handle (ev : Event) (e : Env) (p : Provider) : Provider :=
  match ev with
  | CallConnect => connect e p
  | CallDisconnect => disconnect p
  | CallDestroy => destroy p
  | RunQueuedConnect =>
    match queuedConnects p with
    | O => p
    | S n => connect e (p <| queuedConnects := n |>)
    end
  | DocumentUpdated => documentUpdated e p
  | AwarenessUpdated own => awarenessUpdated e own p
  | SocketOpens s =>
    match sockets p !! s with
    | Some k => if decide (readyState k = RConnecting)
                then onSocket s (onOpen e s) (setReady s ROpen p) else p
    | None => p
    end
  | SocketMessage s m => if isOpenSocket s p then onSocket s (λ lc, onMessage e s lc m) p else p
  | SocketErrors s rejected => onSocket s (λ lc, onError e s lc rejected) p
  | SocketCloses s code reason => onSocket s (λ lc, onClose e s lc code reason) (setReady s RClosed p)
  | SocketDies s => setReady s RClosed p
  | GateSettles id reply =>
    match tasks p !! id with
    | Some t => match pc t with PGate => gateSettles e id (taskLifecycle t) reply p | _ => p end
    | None => p
    end
  | TokenSettles id reply =>
    match tasks p !! id with
    | Some t => match pc t with PToken => tokenSettles e id (taskLifecycle t) reply p | _ => p end
    | None => p
    end
  | Resume id => resumeTask e id p
  | RetryFires => match retryTimer p with Some id => finishSleep id p | None => p end
  | HandshakeFires => handshakeTimeout e p
  | HeartbeatFires => heartbeatFires e p
  | ResponseFires => responseTimeout e p
  | EpochFlushFires => if epochFlushTimer p then finishEpochHandoff e p else p
  end.

Definition run (documentId : string) (gated : bool) (evs : list (Event * Env)) : Provider :=
  foldl (λ p x, handle x.1 x.2 p) (newProvider documentId gated) evs.
