(* ===== verification/ProviderFacts.v ===== *)
(** The provider's invariant and its preservation by every operation. *)
From Stdlib Require Import String QArith.
From S2P Require Import Prelude Token Provider.
#[local] Open Scope Z_scope.

(** What a task waits for is armed. *)
Definition backed (p : Provider) (id : nat) (t : Task) : Prop :=
  match pc t with
  | PSleep _ => retryTimer p = Some id ∧ canContinue (taskLifecycle t) p = true
  | PAttempt _ _ =>
    completeAttempt p = Some id ∧ canContinue (taskLifecycle t) p = true ∧ status p ≠ Connected ∧
    ∃ s why, socket p = Some s ∧ handshakeTimer p = Some (mkHT s (lifecycle p) why)
  | _ => True
  end.

(** The invariant; [r] is the task whose step is running, whose own program
    counter is not up to date. *)
Record inv (r : option nat) (p : Provider) : Prop := mkInv {
  i_fresh : ∀ id t, tasks p !! id = Some t → (id < nextTask p)%nat ∧ taskLifecycle t ≤ lifecycle p;
  i_current : ∀ id t, tasks p !! id = Some t → taskLifecycle t = lifecycle p → connectTask p = Some id;
  i_task : ∀ id, connectTask p = Some id → ∃ t, tasks p !! id = Some t ∧ taskLifecycle t = connectTaskLifecycle p;
  i_taskLifecycle : shouldConnect p = true → is_Some (connectTask p) → connectTaskLifecycle p = lifecycle p;
  i_backed : ∀ id t, r ≠ Some id → tasks p !! id = Some t → backed p id t;
  i_retry : ∀ id, retryTimer p = Some id → r ≠ Some id ∧ ∃ t next, tasks p !! id = Some t ∧ pc t = PSleep next;
  i_cancel : cancelRetry p = retryTimer p;
  i_wake : wakeRetry p = None ∨ wakeRetry p = retryTimer p;
  i_attempt : ∀ id, completeAttempt p = Some id → r ≠ Some id ∧ ∃ t n tok, tasks p !! id = Some t ∧ pc t = PAttempt n tok;
  i_socket : ∀ s, socket p = Some s → canContinue (lifecycle p) p = true ∧
    ∃ k, sockets p !! s = Some k ∧ attached k = true ∧ socketLifecycle k = lifecycle p;
  i_handshake : ∀ t, handshakeTimer p = Some t → socket p = Some (htSocket t) → htLifecycle t = lifecycle p;
  i_attached : ∀ s k, sockets p !! s = Some k → (s < nextSocket p)%nat ∧ (attached k = true → socket p = Some s);
  i_connected : status p = Connected → completeAttempt p = None ∧
    ∃ s k, socket p = Some s ∧ sockets p !! s = Some k ∧ readyState k ≠ RConnecting;
  i_wanted : shouldConnect p = true → status p ≠ Connected → is_Some (connectTask p) ∨ (0 < queuedConnects p)%nat;
  i_epoch : is_Some (pendingEpoch p) → is_Some (socket p) ∧ epochFlushTimer p = true;
  i_destroyed : destroyed p = true → shouldConnect p = false }.

Lemma canContinue_iff lc p : canContinue lc p = true ↔ shouldConnect p = true ∧ destroyed p = false ∧ lifecycle p = lc.
Proof. unfold canContinue. rewrite !andb_true_iff, negb_true_iff, Z.eqb_eq. tauto. Qed.

(** The fields the invariant reads, apart from the tasks' counters. *)
Definition same_core (p p' : Provider) : Prop :=
  tasks p' = tasks p ∧ nextTask p' = nextTask p ∧ lifecycle p' = lifecycle p ∧ connectTask p' = connectTask p ∧
  connectTaskLifecycle p' = connectTaskLifecycle p ∧ shouldConnect p' = shouldConnect p ∧ destroyed p' = destroyed p ∧
  retryTimer p' = retryTimer p ∧ cancelRetry p' = cancelRetry p ∧ wakeRetry p' = wakeRetry p ∧
  completeAttempt p' = completeAttempt p ∧ socket p' = socket p ∧ sockets p' = sockets p ∧
  nextSocket p' = nextSocket p ∧ status p' = status p ∧ handshakeTimer p' = handshakeTimer p ∧
  queuedConnects p' = queuedConnects p ∧ hasGate p' = hasGate p.

Definition same_epoch (p p' : Provider) : Prop :=
  (is_Some (pendingEpoch p') → is_Some (pendingEpoch p)) ∧
  (epochFlushTimer p = true → epochFlushTimer p' = true).

Lemma inv_same r p p' : same_core p p' → same_epoch p p' → inv r p → inv r p'.
Proof.
  intros (E1 & E2 & E3 & E4 & E5 & E6 & E7 & E8 & E9 & E10 & E11 & E12 & E13 & E14 & E15 & E16 & E17 & _) (P & F) [].
  assert (∀ lc, canContinue lc p' = canContinue lc p) as Ec by (intros; unfold canContinue; by rewrite E3, E6, E7).
  split; rewrite ?E1, ?E2, ?E3, ?E4, ?E5, ?E6, ?E7, ?E8, ?E9, ?E10, ?E11, ?E12, ?E13, ?E14, ?E15, ?E16, ?E17; auto.
  - intros id t Hr Ht. specialize (i_backed0 id t Hr Ht). unfold backed in *.
    rewrite ?Ec, ?E8, ?E11, ?E15, ?E12, ?E16, ?E3. done.
  - intros s Hs. rewrite Ec. auto.
  - intros Hp%P. destruct (i_epoch0 Hp). split; [done|auto].
Qed.

Lemma same_core_refl p : same_core p p.
Proof. by unfold same_core. Qed.

Lemma same_core_trans p p' p'' : same_core p p' → same_core p' p'' → same_core p p''.
Proof. unfold same_core. intuition congruence. Qed.

Lemma record_inv r f p : inv r p → inv r (record f p).
Proof. apply inv_same; done. Qed.

(** ** Losing the socket *)

(** [p'] is [p] without its socket: its timers are off and the attempt that
    waited for it has failed. *)
Record dropped (p p' : Provider) : Prop := mkDropped {
  d_alive : lifecycle p' = lifecycle p ∧ shouldConnect p' = shouldConnect p ∧ destroyed p' = destroyed p ∨
    lifecycle p < lifecycle p' ∧ shouldConnect p' = false ∧ retryTimer p = None;
  d_connectTask : connectTask p' = connectTask p;
  d_connectTaskLifecycle : connectTaskLifecycle p' = connectTaskLifecycle p;
  d_nextTask : nextTask p' = nextTask p;
  d_nextSocket : nextSocket p' = nextSocket p;
  d_retry : retryTimer p' = retryTimer p;
  d_cancel : cancelRetry p' = cancelRetry p;
  d_wake : wakeRetry p' = wakeRetry p;
  d_socket : socket p' = None;
  d_attempt : completeAttempt p' = None;
  d_epoch : pendingEpoch p' = None;
  d_handshake : handshakeTimer p' = None;
  d_status : status p' ≠ Connected;
  d_tasks : ∀ id, tasks p' !! id = tasks p !! id ∨
    ∃ t n tok, completeAttempt p = Some id ∧ tasks p !! id = Some t ∧ pc t = PAttempt n tok ∧
      tasks p' !! id = Some (t <| pc := PAttempted n tok false |>);
  d_settled : ∀ id t n tok, completeAttempt p = Some id → tasks p !! id = Some t → pc t = PAttempt n tok →
      tasks p' !! id = Some (t <| pc := PAttempted n tok false |>);
  d_sockets : ∀ s k', sockets p' !! s = Some k' → ∃ k, sockets p !! s = Some k ∧
    (attached k' = true → attached k = true ∧ socket p ≠ Some s);
  d_wanted : shouldConnect p' = true → is_Some (connectTask p) ∨ (0 < queuedConnects p')%nat }.

Lemma dropped_task p p' id t' : dropped p p' → tasks p' !! id = Some t' →
  ∃ t, tasks p !! id = Some t ∧ taskLifecycle t' = taskLifecycle t ∧
    (t' = t ∨ ∃ n tok, pc t' = PAttempted n tok false ∧ completeAttempt p = Some id).
Proof.
  intros H Ht. destruct (d_tasks _ _ H id) as [E|(t & n & tok & Hc & Hp & Hpc & E)]; rewrite E in Ht.
  - exists t'. auto.
  - simplify_eq. exists t. split_and!; try done. right. by exists n, tok.
Qed.

Lemma dropped_task_back p p' id t : dropped p p' → tasks p !! id = Some t →
  ∃ t', tasks p' !! id = Some t' ∧ taskLifecycle t' = taskLifecycle t ∧
    (pc t' = pc t ∨ completeAttempt p = Some id).
Proof.
  intros H Ht. destruct (d_tasks _ _ H id) as [E|(t0 & n & tok & Hc & Hp & Hpc & E)]; rewrite E.
  - exists t. auto.
  - simplify_eq. eexists. split_and!; [done|done|by right].
Qed.

Lemma inv_dropped r p p' : dropped p p' → inv r p → inv r p'.
Proof.
  intros H []. pose proof H as [E1 E4 E5 E6 E7 E8 E9 E10 E11 E12 E13 E13' E14 Ht Hs' Hk Hw].
  assert (lifecycle p ≤ lifecycle p') as Hle by (destruct E1 as [(? & _)|(? & _)]; lia).
  split; rewrite ?E4, ?E5, ?E6, ?E7, ?E8, ?E9, ?E10, ?E11, ?E12, ?E13, ?E13'; try done; auto.
  - intros id t' Hid. destruct (dropped_task _ _ _ _ H Hid) as (t & Hp & -> & _).
    destruct (i_fresh0 id t Hp). split; [done|lia].
  - intros id t' Hid. destruct (dropped_task _ _ _ _ H Hid) as (t & Hp & -> & _).
    destruct (i_fresh0 id t Hp). destruct E1 as [(-> & _)|(? & _)]; [eauto|lia].
  - intros id Hid. destruct (i_task0 id Hid) as (t & Hp & <-).
    destruct (dropped_task_back _ _ _ _ H Hp) as (t' & ? & ? & _). eauto.
  - destruct E1 as [(-> & -> & _)|(_ & -> & _)]; done.
  - intros id t' Hr Hid. destruct (dropped_task _ _ _ _ H Hid) as (t & Hp & El & [->|(n & tok & Hpc & Hc)]).
    + pose proof (i_backed0 id t Hr Hp) as Hb. unfold backed in *. destruct (pc t) as [| | |n tok| | | |] eqn:Epc; try done.
      * destruct Hb as (Hc & _). rewrite (Hs' id t n tok Hc Hp Epc) in Hid.
        apply (f_equal (fmap pc)) in Hid. simpl in Hid. congruence.
      * rewrite E8. destruct E1 as [(H1 & H2 & H3)|(_ & _ & H1)]; [|destruct Hb; congruence].
        unfold canContinue. by rewrite H1, H2, H3.
    + unfold backed. by rewrite Hpc.
  - intros id Hid. destruct (i_retry0 id Hid) as (Hr & t & next & Hp & Hpc). split; [done|].
    destruct (Ht id) as [E|(t0 & n & tok & _ & Hp' & Hpc' & _)]; [rewrite E; eauto|].
    assert (t0 = t) as -> by congruence. congruence.
  - intros s k' Hk'. destruct (Hk s k' Hk') as (k & Hsk & Ha). destruct (i_attached0 s k Hsk) as [Hlt Hat].
    split; [done|]. intros Hatt. destruct (Ha Hatt) as [Hka Hne]. specialize (Hat Hka). done.
  - destruct E1 as [(_ & -> & ->)|(_ & -> & _)]; done.
Qed.

Definition settledTasks (b : bool) (p : Provider) : gmap nat Task :=
  match completeAttempt p with
  | Some id => match tasks p !! id with
               | Some t => match pc t with
                           | PAttempt n tok => <[id := t <| pc := PAttempted n tok b |>]> (tasks p)
                           | _ => tasks p
                           end
               | None => tasks p
               end
  | None => tasks p
  end.

Lemma settleAttempt_eq b p :
  settleAttempt b p = (p <| completeAttempt := None |>) <| tasks := settledTasks b p |>.
Proof.
  unfold settleAttempt, settledTasks. destruct (completeAttempt p) as [id|] eqn:E; simpl.
  - destruct (tasks p !! id) as [t|]; [|done]. by destruct (pc t).
  - destruct p; simpl in *. by subst.
Qed.

Lemma settledTasks_lookup b p id : settledTasks b p !! id = tasks p !! id ∨
  ∃ t n tok, completeAttempt p = Some id ∧ tasks p !! id = Some t ∧ pc t = PAttempt n tok ∧
    settledTasks b p !! id = Some (t <| pc := PAttempted n tok b |>).
Proof.
  unfold settledTasks. destruct (completeAttempt p) as [id'|]; [|by left].
  destruct (tasks p !! id') as [t|] eqn:E; [|by left]. destruct (pc t) eqn:Ep; try by left.
  destruct (decide (id = id')) as [->|Hne].
  - right. eexists t, _, _. split_and!; [done..|]. by rewrite lookup_insert_eq.
  - left. by rewrite lookup_insert_ne.
Qed.

Lemma settledTasks_settled b p id t n tok : completeAttempt p = Some id → tasks p !! id = Some t →
  pc t = PAttempt n tok → settledTasks b p !! id = Some (t <| pc := PAttempted n tok b |>).
Proof. unfold settledTasks. intros -> -> ->. by rewrite lookup_insert_eq. Qed.

Lemma alter_detach_lookup (m : gmap nat Socket) o s k' :
  (match o with None => m | Some i => alter (λ k, (k <| attached := false |>) <| readyState := RClosed |>) i m end) !! s = Some k' →
  ∃ k, m !! s = Some k ∧ (attached k' = true → attached k = true ∧ o ≠ Some s).
Proof.
  destruct o as [i|]; [|intros; by exists k'].
  destruct (decide (s = i)) as [->|Hne].
  - rewrite lookup_alter_eq. intros (k & Hk & ->)%fmap_Some. exists k. split; [done|]. done.
  - rewrite lookup_alter_ne by done. intros. exists k'. split; [done|]. intros. split; [done|congruence].
Qed.

Lemma setStatus_fields st p : let p' := setStatus st p in
  same_core (p <| status := st |>) p' ∧ pendingEpoch p' = pendingEpoch p ∧
  epochFlushTimer p' = epochFlushTimer p ∧ heartbeatTimer p' = heartbeatTimer p ∧ responseTimer p' = responseTimer p ∧
  receivedServerSyncStep1 p' = receivedServerSyncStep1 p ∧ awaitingAcknowledgement p' = awaitingAcknowledgement p.
Proof.
  unfold setStatus. simpl. case_decide as E; [rewrite <- E; by destruct p|].
  case_decide; destruct (eqb _ _); done.
Qed.

Definition detachCurrent (p : Provider) : gmap nat Socket :=
  match socket p with
  | None => sockets p
  | Some i => alter (λ k, (k <| attached := false |>) <| readyState := RClosed |>) i (sockets p)
  end.

Lemma closeSocket_fields p : let q := closeSocket p in
  lifecycle q = lifecycle p ∧ shouldConnect q = shouldConnect p ∧ destroyed q = destroyed p ∧
  connectTask q = connectTask p ∧ connectTaskLifecycle q = connectTaskLifecycle p ∧ nextTask q = nextTask p ∧
  nextSocket q = nextSocket p ∧ retryTimer q = retryTimer p ∧ cancelRetry q = cancelRetry p ∧ wakeRetry q = wakeRetry p ∧
  socket q = None ∧ completeAttempt q = None ∧ pendingEpoch q = None ∧ handshakeTimer q = None ∧
  queuedConnects q = queuedConnects p ∧ hasGate q = hasGate p ∧
  tasks q = settledTasks false p ∧ sockets q = detachCurrent p.
Proof.
  unfold closeSocket, detachCurrent. rewrite settleAttempt_eq. destruct (socket p); simpl; split_and!; done.
Qed.

Lemma closeSocket_dropped st p : st ≠ Connected →
  (shouldConnect p = true → is_Some (connectTask p) ∨ (0 < queuedConnects p)%nat) →
  dropped p (setStatus st (closeSocket p)).
Proof.
  intros Hst Hw.
  destruct (setStatus_fields st (closeSocket p)) as ((E1 & E2 & E3 & E4 & E5 & E6 & E7 & E8 & E9 & E10 & E11 & E12 & E13 & E14 & E15 & E16 & E17 & _) & F1 & _).
  destruct (closeSocket_fields p) as (Q1 & Q2 & Q3 & Q4 & Q5 & Q6 & Q7 & Q8 & Q9 & Q10 & Q11 & Q12 & Q13 & Q14 & Q15 & _ & Q16 & Q17).
  simpl in *. split; try congruence.
  - left. split_and!; congruence.
  - intros id. rewrite E1, Q16. apply settledTasks_lookup.
  - intros id t n tok ???. rewrite E1, Q16. by apply settledTasks_settled.
  - intros s k'. rewrite E13, Q17. intros Hk. by apply alter_detach_lookup.
  - rewrite E17, Q15, E6, Q2. done.
Qed.

Lemma failSocket_dropped r e s reason p : inv r p → socket p = Some s →
  dropped p (failSocket e s (lifecycle p) reason p).
Proof.
  intros H Hs. destruct (i_socket _ _ H s Hs) as (Hc & _). unfold failSocket. rewrite decide_True by done.
  match goal with |- context [clearSocketTimers (closeAndDetach s (clearEpochHandoff ?q))] =>
    set (q0 := q); set (q1 := clearSocketTimers (closeAndDetach s (clearEpochHandoff q0))) end.
  assert (lifecycle q1 = lifecycle p ∧ shouldConnect q1 = shouldConnect p ∧ destroyed q1 = destroyed p ∧
    connectTask q1 = connectTask p ∧ connectTaskLifecycle q1 = connectTaskLifecycle p ∧ nextTask q1 = nextTask p ∧
    nextSocket q1 = nextSocket p ∧ retryTimer q1 = retryTimer p ∧ cancelRetry q1 = cancelRetry p ∧ wakeRetry q1 = wakeRetry p ∧
    socket q1 = None ∧ completeAttempt q1 = completeAttempt p ∧ pendingEpoch q1 = None ∧ handshakeTimer q1 = None ∧
    tasks q1 = tasks p ∧
    sockets q1 = alter (λ k, (k <| attached := false |>) <| readyState := RClosed |>) s (sockets p)) as Q.
  { unfold q1, q0. destruct (bool_decide _ && _ && _); split_and!; done. }
  clearbody q1. destruct Q as (Q1 & Q2 & Q3 & Q4 & Q5 & Q6 & Q7 & Q8 & Q9 & Q10 & Q11 & Q12 & Q13 & Q14 & Q15 & Q16).
  assert (∀ lc, canContinue lc q1 = canContinue lc p) as Ec by (intros; unfold canContinue; by rewrite Q1, Q2, Q3).
  rewrite Ec, Hc. rewrite settleAttempt_eq.
  destruct (setStatus_fields Error q1) as ((E1 & E2 & E3 & E4 & E5 & E6 & E7 & E8 & E9 & E10 & E11 & E12 & E13 & E14 & E15 & E16 & E17 & _) & F1 & _).
  set (q2 := setStatus Error q1) in *. clearbody q2. simpl in *.
  assert (settledTasks false q2 = settledTasks false p) as Et by (unfold settledTasks; by rewrite E11, Q12, E1, Q15).
  match goal with |- context [canContinue ?a ?b] => assert (canContinue a b = true) as -> end.
  { rewrite <- Hc. unfold canContinue. simpl. by rewrite E6, E7, E3, Q1, Q2, Q3. }
  rewrite andb_true_r, Et. unfold queueConnect.
  destruct (bool_decide (connectTask q2 = None)) eqn:Eq; bools; split; simpl; try congruence.
  all: try (intros id; apply settledTasks_lookup).
  all: try (intros id t n tok ???; by apply settledTasks_settled).
  all: try (intros i k'; rewrite E13, Q16; intros Hk; rewrite Hs; by apply (alter_detach_lookup (sockets p) (Some s))).
  all: try (left; split_and!; congruence).
  all: try (intros _; right; lia).
  intros _. left. rewrite <- Q4, <- E4. by apply not_eq_None_Some.
Qed.

Lemma failSocket_inv r e s lc reason p :
  (socket p = Some s → lc = lifecycle p) → inv r p → inv r (failSocket e s lc reason p).
Proof.
  intros Hlc H. destruct (decide (socket p = Some s)) as [Hs|Hs].
  - rewrite (Hlc Hs). eapply inv_dropped; [by eapply failSocket_dropped|done].
  - unfold failSocket. by rewrite decide_False.
Qed.

Lemma failSocket_socket r e s reason p : inv r p → socket p = Some s →
  socket (failSocket e s (lifecycle p) reason p) = None.
Proof. intros. by apply (failSocket_dropped r e s reason p). Qed.

(** ** Writing *)

(** [send] writes, or leaves everything as it is, or loses the socket. *)
Inductive send_case (e : Env) (m : OutMessage) (p : Provider) : Provider * bool → Prop :=
  | SendWrites s : socket p = Some s → isOpenSocket s p = true → blocks e p = false →
      send_case e m p (record (Sent s m) p, true)
  | SendIdle : (∀ s, socket p = Some s → isOpenSocket s p = false) → send_case e m p (p, false)
  | SendBlocked s : socket p = Some s → blocks e p = true →
      send_case e m p (failSocket e s (lifecycle p) "server is incompatible" p, false).

Lemma send_cases e m p : send_case e m p (send e m p).
Proof.
  unfold send. destruct (socket p) as [s|] eqn:E; [|by apply SendIdle; rewrite E].
  destruct (isOpenSocket s p) eqn:Eo; simpl.
  - destruct (blocks e p) eqn:Eb; [by eapply SendBlocked|by apply SendWrites].
  - apply SendIdle. intros s' Hs. congruence.
Qed.

Lemma send_inv r e m p : inv r p → inv r (send e m p).1.
Proof.
  intros H. destruct (send_cases e m p) as [s|Hs|s]; simpl; [by apply record_inv|done|].
  by apply failSocket_inv.
Qed.

Lemma checkSync_inv r e p : inv r p → inv r (checkSync e p).
Proof.
  intros H. unfold checkSync. destruct (receivedServerSyncStep1 p); [|done].
  pose proof (send_inv r e (OSyncStatus (localVersion p)) p H) as Hs.
  destruct (send e (OSyncStatus (localVersion p)) p) as [p' []]; simpl in Hs; [|done].
  by apply (inv_same r p').
Qed.

Lemma resetHeartbeat_inv r e p : inv r p → inv r (resetHeartbeat e p).
Proof. apply inv_same; unfold resetHeartbeat; by case_match. Qed.

Lemma broadcastAwareness_inv r e p : inv r p → inv r (broadcastAwareness e p).
Proof. intros. unfold broadcastAwareness. destruct (hasPresence e); [by apply send_inv|done]. Qed.

Lemma incrementLocalVersion_inv r p : inv r p → inv r (incrementLocalVersion p).
Proof. apply inv_same; unfold incrementLocalVersion; by case_match. Qed.

Lemma documentUpdated_inv r e p : inv r p → inv r (documentUpdated e p).
Proof.
  intros. unfold documentUpdated. destruct (destroyed p); [done|].
  destruct (readOnly p); [by apply record_inv|].
  by apply checkSync_inv, incrementLocalVersion_inv, send_inv.
Qed.

Lemma awarenessUpdated_inv r e own p : inv r p → inv r (awarenessUpdated e own p).
Proof. intros. unfold awarenessUpdated. case_match; [done|by apply send_inv]. Qed.

(** ** Epochs and messages *)

Lemma clearEpochHandoff_inv r p : inv r p → inv r (clearEpochHandoff p).
Proof.
  intros []. split; try done. simpl. by intros [? ?].
Qed.

Lemma finishEpochHandoff_inv r e p : inv r p → inv r (finishEpochHandoff e p).
Proof.
  intros H. apply clearEpochHandoff_inv in H. unfold finishEpochHandoff.
  set (q := clearEpochHandoff p) in *. clearbody q.
  destruct (pendingEpoch p) as [epoch|]; [|done]. destruct (socket q) as [s|]; [|done].
  destruct (epochRefused e); [by apply failSocket_inv|]. by apply send_inv, record_inv.
Qed.

Lemma acknowledgeVersion_inv r e v p : inv r p → inv r (acknowledgeVersion e v p).
Proof.
  intros H. unfold acknowledgeVersion.
  match goal with |- inv _ (if ?c then finishEpochHandoff _ ?q else _) =>
    assert (inv r q) as Hq; [|destruct c; [by apply finishEpochHandoff_inv|done]] end.
  apply (inv_same r p); [..|done]; destruct (readOnly p); by case_match.
Qed.

Lemma failSocket_flush e s lc reason p : socket p = Some s →
  failSocket e s lc reason (p <| epochFlushTimer := true |>) = failSocket e s lc reason p.
Proof.
  intros Hs. unfold failSocket. change (socket (p <| epochFlushTimer := true |>)) with (socket p).
  rewrite Hs, !decide_True by done.
  change (status (p <| epochFlushTimer := true |>)) with (status p).
  change (blocks e (p <| epochFlushTimer := true |>)) with (blocks e p).
  change (hasGate (p <| epochFlushTimer := true |>)) with (hasGate p).
  by destruct (bool_decide (status p = Connected) && negb (blocks e p) && hasGate p).
Qed.

Lemma receiveEpochProposal_inv r e epoch p : is_Some (socket p) → inv r p → inv r (receiveEpochProposal e epoch p).
Proof.
  intros Hs H. unfold receiveEpochProposal.
  set (p1 := p <| pendingEpoch := Some epoch |>). set (q := p1 <| epochFlushTimer := true |>).
  assert (inv r q) as Hq by (destruct H; by split).
  case_match.
  - change (finishEpochHandoff e p1) with (finishEpochHandoff e q). by apply finishEpochHandoff_inv.
  - unfold checkSync. destruct (receivedServerSyncStep1 p1); [|done].
    destruct (send_cases e (OSyncStatus (localVersion p1)) p1) as [s ? ? ?|?|s Hsk ?]; simpl.
    + by apply (inv_same r q).
    + done.
    + rewrite <- failSocket_flush by done. fold q. change (lifecycle p) with (lifecycle q).
      apply (inv_same r (failSocket e s (lifecycle q) "server is incompatible" q)); [done|done|].
      by apply failSocket_inv.
Qed.

Lemma noteReadOnlyDivergence_inv r b p : inv r p → inv r (noteReadOnlyDivergence b p).
Proof. intros. unfold noteReadOnlyDivergence. destruct b; [|done]. apply (inv_same r p); [by case_match..|done]. Qed.

(** The server's step 2: the attempt has succeeded. *)
Lemma connected_inv r p s k : socket p = Some s → sockets p !! s = Some k → readyState k ≠ RConnecting →
  inv r p → inv r (settleAttempt true (setStatus Connected (clearHandshakeTimeout p))).
Proof.
  intros Hs Hk Hr H. rewrite settleAttempt_eq.
  destruct (setStatus_fields Connected (clearHandshakeTimeout p)) as
    ((E1 & E2 & E3 & E4 & E5 & E6 & E7 & E8 & E9 & E10 & E11 & E12 & E13 & E14 & E15 & E16 & E17 & _) & F1 & F2 & _).
  set (q := setStatus Connected (clearHandshakeTimeout p)) in *. clearbody q. simpl in *.
  assert (settledTasks true q = settledTasks true p) as Et by (unfold settledTasks; by rewrite E11, E1).
  assert (∀ lc, canContinue lc q = canContinue lc p) as Ec by (intros; unfold canContinue; by rewrite E3, E6, E7).
  assert (∀ id t', settledTasks true p !! id = Some t' → ∃ t, tasks p !! id = Some t ∧ taskLifecycle t' = taskLifecycle t ∧
    (t' = t ∧ (∀ n tok, pc t = PAttempt n tok → completeAttempt p ≠ Some id) ∨ ∃ n tok, pc t' = PAttempted n tok true)) as Htask.
  { intros id t' Ht. destruct (settledTasks_lookup true p id) as [E|(t & n & tok & Hc & Hp & Hpc & E)].
    - rewrite E in Ht. exists t'. split_and!; try done. left. split; [done|]. intros n tok Hpc Hc.
      rewrite (settledTasks_settled true p id t' n tok Hc Ht Hpc) in E. rewrite Ht in E.
      apply (f_equal (fmap pc)) in E. simpl in E. congruence.
    - rewrite E in Ht. simplify_eq. exists t. split_and!; try done. right. by exists n, tok. }
  assert (∀ id t, tasks p !! id = Some t → ∃ t', settledTasks true p !! id = Some t' ∧ taskLifecycle t' = taskLifecycle t ∧
    (pc t' = pc t ∨ ∃ n tok, pc t = PAttempt n tok)) as Hback.
  { intros id t Ht. destruct (settledTasks_lookup true p id) as [E|(t0 & n & tok & Hc & Hp & Hpc & E)]; rewrite E.
    - exists t. auto.
    - simplify_eq. eexists. split_and!; [done|done|right; by exists n, tok]. }
  destruct H.
  split; simpl; rewrite ?Et, ?Ec, ?E2, ?E3, ?E4, ?E5, ?E6, ?E7, ?E8, ?E9, ?E10, ?E12, ?E13, ?E14, ?E15, ?E16, ?F1, ?F2; try done; auto.
  - intros id t' (t & Hp & -> & _)%Htask. eauto.
  - intros id t' (t & Hp & -> & _)%Htask. eauto.
  - intros id Hid. destruct (i_task0 id Hid) as (t & Hp & <-). destruct (Hback id t Hp) as (t' & ? & ? & _). eauto.
  - intros id t' Hid (t & Hp & El & [[-> Hn]|(n & tok & Hpc)])%Htask; unfold backed; [|by rewrite Hpc].
    pose proof (i_backed0 id t Hid Hp) as Hb. unfold backed in Hb. simpl. destruct (pc t) as [| | |n tok| | | |] eqn:Epc; try done.
    destruct Hb as (Hc & _). by destruct (Hn n tok eq_refl).
  - intros id Hid. destruct (i_retry0 id Hid) as (Hid' & t & next & Hp & Hpc). split; [done|].
    destruct (Hback id t Hp) as (t' & ? & _ & [Hpc'|(? & ? & ?)]); [|congruence]. exists t', next. split; [done|congruence].
  - split; [done|]. exists s, k. done.
Qed.

(** ** Events *)

Definition keeps (p p' : Provider) : Prop :=
  lifecycle p' = lifecycle p ∧ ∀ s, socket p' = Some s → socket p = Some s.

Lemma keeps_refl p : keeps p p.
Proof. done. Qed.

Lemma keeps_trans p p' p'' : keeps p p' → keeps p' p'' → keeps p p''.
Proof. intros [E1 H1] [E2 H2]. split; [congruence|auto]. Qed.

Lemma setStatus_keeps st p : keeps p (setStatus st p).
Proof.
  destruct (setStatus_fields st p) as ((_ & _ & E3 & _ & _ & _ & _ & _ & _ & _ & _ & E12 & _) & _).
  simpl in *. split; [done|by rewrite E12].
Qed.

Lemma failSocket_keeps e s lc reason p : keeps p (failSocket e s lc reason p).
Proof.
  unfold failSocket. case_decide; [|done].
  match goal with |- context [clearSocketTimers (closeAndDetach s (clearEpochHandoff ?q))] =>
    set (q1 := clearSocketTimers (closeAndDetach s (clearEpochHandoff q))) end.
  assert (lifecycle q1 = lifecycle p ∧ socket q1 = None) as [E1 E2].
  { unfold q1. by destruct (bool_decide _ && _ && _). }
  clearbody q1. rewrite settleAttempt_eq.
  assert (keeps q1 (if canContinue lc q1 then setStatus Error q1 else q1)) as [K1 K2]
    by (destruct (canContinue lc q1); [apply setStatus_keeps|done]).
  set (q2 := if canContinue lc q1 then _ else _) in *. clearbody q2.
  destruct (_ && _); (split; simpl; [congruence|]); intros s' Hs'%K2; congruence.
Qed.

Lemma failSocket_none e s lc reason p : socket p = Some s → socket (failSocket e s lc reason p) = None.
Proof.
  intros Hs. unfold failSocket. rewrite decide_True by done.
  match goal with |- context [clearSocketTimers (closeAndDetach s (clearEpochHandoff ?q))] =>
    set (q1 := clearSocketTimers (closeAndDetach s (clearEpochHandoff q))) end.
  assert (socket q1 = None) as E2 by (unfold q1; by destruct (bool_decide _ && _ && _)).
  clearbody q1. rewrite settleAttempt_eq.
  assert (socket (if canContinue lc q1 then setStatus Error q1 else q1) = None) as E3.
  { destruct (canContinue lc q1); [|done].
    destruct (setStatus_fields Error q1) as ((_ & _ & _ & _ & _ & _ & _ & _ & _ & _ & _ & E12 & _) & _).
    simpl in *. congruence. }
  by destruct (_ && _).
Qed.

Lemma send_keeps e m p : keeps p (send e m p).1.
Proof. destruct (send_cases e m p); simpl; [done|done|apply failSocket_keeps]. Qed.

Lemma resetHeartbeat_keeps e p : keeps p (resetHeartbeat e p).
Proof. unfold resetHeartbeat. by case_match. Qed.

Lemma broadcastAwareness_keeps e p : keeps p (broadcastAwareness e p).
Proof. unfold broadcastAwareness. destruct (hasPresence e); [apply send_keeps|done]. Qed.

Lemma setStatus_inv r st p : st ≠ Connected → (status p ≠ Connected ∨ is_Some (connectTask p)) →
  inv r p → inv r (setStatus st p).
Proof.
  intros Hst Hp H. destruct (setStatus_fields st p) as (Hc & F1 & F2 & _).
  apply (inv_same r (p <| status := st |>)); [done|split; simpl; [by rewrite F1|by rewrite F2]|].
  destruct H. split; try done; auto.
  - intros id t Hr Ht. pose proof (i_backed0 id t Hr Ht) as Hb.
    unfold backed in *. simpl. destruct (pc t); try done. destruct Hb as (? & ? & _ & ?). done.
  - simpl. destruct Hp; [auto|by left].
Qed.

Lemma setReady_inv r s st p : st ≠ RConnecting → inv r p → inv r (setReady s st p).
Proof.
  intros Hst []. split; try done; simpl.
  - intros s' Hs'. destruct (i_socket0 s' Hs') as (Hc & k & Hk & Ha & El). split; [done|].
    destruct (decide (s' = s)) as [->|Hne].
    + rewrite lookup_alter_eq, Hk. eexists. split_and!; [done|done|done].
    + rewrite lookup_alter_ne by done. eauto.
  - intros s' k'. destruct (decide (s' = s)) as [->|Hne].
    + rewrite lookup_alter_eq. intros (k & Hk & ->)%fmap_Some. by destruct (i_attached0 s k Hk).
    + rewrite lookup_alter_ne by done. auto.
  - intros Hcn. destruct (i_connected0 Hcn) as (Hc & s' & k & Hs' & Hk & Hr). split; [done|]. exists s'.
    destruct (decide (s' = s)) as [->|Hne].
    + rewrite lookup_alter_eq, Hk. eexists. split_and!; [done|done|done].
    + rewrite lookup_alter_ne by done. eauto.
Qed.

Lemma setHandshake_inv r s why p : (∀ s', socket p = Some s' → s' = s) → inv r p →
  inv r (p <| handshakeTimer := Some (mkHT s (lifecycle p) why) |>).
Proof.
  intros Hs []. split; try done; simpl.
  - intros id t Hr Ht. pose proof (i_backed0 id t Hr Ht) as Hb. unfold backed in *. destruct (pc t); try done.
    destruct Hb as (? & ? & ? & s' & ? & Hs' & _). assert (s' = s) as -> by auto. split_and!; try done. by exists s, why.
  - by intros t [= <-].
Qed.

Lemma isCurrentSocket_iff s lc p : isCurrentSocket s lc p = true ↔ socket p = Some s ∧ canContinue lc p = true.
Proof. unfold isCurrentSocket. by rewrite andb_true_iff, bool_decide_eq_true. Qed.

Lemma onOpen_inv r e s lc p : (socket p = Some s → status p ≠ Connected) → inv r p → inv r (onOpen e s lc p).
Proof.
  intros Hst H. unfold onOpen. destruct (isCurrentSocket s lc p) eqn:Ec; [|done].
  apply isCurrentSocket_iff in Ec as [Hs Hc]. apply canContinue_iff in Hc as (_ & _ & Hl). specialize (Hst Hs).
  set (q := resetHeartbeat e (broadcastAwareness e (sendSyncStep1 e (setStatus Handshaking p)))).
  assert (keeps p q) as [K1 K2].
  { eapply keeps_trans; [apply (setStatus_keeps Handshaking)|].
    eapply keeps_trans; [apply send_keeps|]. eapply keeps_trans; [apply broadcastAwareness_keeps|].
    apply resetHeartbeat_keeps. }
  assert (inv r q) as Hq by (by apply resetHeartbeat_inv, broadcastAwareness_inv, send_inv, setStatus_inv; [|left|]).
  clearbody q. rewrite <- Hl, <- K1. apply setHandshake_inv; [|done].
  intros s' Hs'%K2. congruence.
Qed.

Lemma receiveSyncMessage_inv r e m p s : socket p = Some s → isOpenSocket s p = true → inv r p →
  inv r (receiveSyncMessage e m p).
Proof.
  intros Hs Ho H. destruct m as [structs| |]; simpl; [| |done].
  - apply checkSync_inv. pose proof (send_inv r e (OSyncStep2 (localVersion p)) p H) as Hi.
    set (q := (send e (OSyncStep2 (localVersion p)) p).1) in *. clearbody q.
    assert (inv r (q <| receivedServerSyncStep1 := true |>)) as Hi' by (by apply (inv_same r q)).
    case_match; [by apply noteReadOnlyDivergence_inv|done].
  - unfold isOpenSocket in Ho. destruct (sockets p !! s) as [k|] eqn:Ek; [|done].
    apply bool_decide_eq_true in Ho. apply (connected_inv r p s k); try done. by rewrite Ho.
Qed.

Lemma receiveMessage_inv r e m p p' s : socket p = Some s → isOpenSocket s p = true → inv r p →
  receiveMessage e m p = Returns p' → inv r p'.
Proof.
  intros Hs Ho H. destruct m as [m| | |v|[epoch|]|[id|]| |]; simpl; intros E; simplify_eq; try done.
  - by apply (receiveSyncMessage_inv r e m p s).
  - by apply broadcastAwareness_inv.
  - by apply acknowledgeVersion_inv.
  - case_match; simplify_eq. apply receiveEpochProposal_inv; [by eexists|done].
  - case_decide; simplify_eq. by apply record_inv.
Qed.

Lemma onMessage_inv r e s lc m p : isOpenSocket s p = true → inv r p → inv r (onMessage e s lc m p).
Proof.
  intros Ho H. unfold onMessage. destruct (isCurrentSocket s lc p) eqn:Ec; [|done].
  apply isCurrentSocket_iff in Ec as [Hs Hc]. apply canContinue_iff in Hc as (_ & _ & Hl).
  destruct (blocks e p); [by apply failSocket_inv|].
  destruct (receiveMessage e m p) as [p'|err] eqn:Er; [|by apply failSocket_inv].
  apply resetHeartbeat_inv. apply (inv_same r p'); [done|done|]. by eapply receiveMessage_inv.
Qed.

Lemma onError_inv r e s lc b p : (socket p = Some s → lc = lifecycle p) → inv r p → inv r (onError e s lc b p).
Proof.
  intros Hl H. unfold onError. apply failSocket_inv; [by case_match|].
  case_match; [|done]. by apply (inv_same r p).
Qed.

Lemma clearHandshake_inv r p :
  (status p = Connected ∨ ∀ t, handshakeTimer p = Some t → socket p ≠ Some (htSocket t)) →
  inv r p → inv r (clearHandshakeTimeout p).
Proof.
  intros Hc []. split; try done; simpl.
  intros id t Hr Ht. pose proof (i_backed0 id t Hr Ht) as Hb. unfold backed in *. destruct (pc t); try done.
  destruct Hb as (? & ? & ? & s' & ? & Hs' & Hh). destruct Hc as [?|Hc]; [done|]. by destruct (Hc _ Hh).
Qed.

Lemma failSocket_handshake e s lc reason h p : socket p = Some s →
  failSocket e s lc reason (p <| handshakeTimer := h |>) = failSocket e s lc reason p.
Proof.
  intros Hs. unfold failSocket. change (socket (p <| handshakeTimer := h |>)) with (socket p).
  rewrite Hs, !decide_True by done.
  change (status (p <| handshakeTimer := h |>)) with (status p).
  change (blocks e (p <| handshakeTimer := h |>)) with (blocks e p).
  change (hasGate (p <| handshakeTimer := h |>)) with (hasGate p).
  by destruct (bool_decide (status p = Connected) && negb (blocks e p) && hasGate p).
Qed.

Lemma handshakeTimeout_inv r e p : inv r p → inv r (handshakeTimeout e p).
Proof.
  intros H. unfold handshakeTimeout. destruct (handshakeTimer p) as [t|] eqn:Et; [|done].
  case_decide as Hst; [by apply clearHandshake_inv; [left|]|].
  destruct (decide (socket p = Some (htSocket t))) as [Hs|Hs].
  - unfold clearHandshakeTimeout. rewrite failSocket_handshake by done.
    apply failSocket_inv; [|done]. intros _. by apply (i_handshake _ _ H).
  - apply failSocket_inv; [done|]. apply clearHandshake_inv; [right; congruence|done].
Qed.

Lemma heartbeatFires_inv r e p : inv r p → inv r (heartbeatFires e p).
Proof.
  intros H. unfold heartbeatFires. destruct (heartbeatTimer p); [|done].
  assert (inv r (p <| heartbeatTimer := None |>)) by (by apply (inv_same r p)).
  case_match; [by apply checkSync_inv|by apply send_inv].
Qed.

Lemma responseTimeout_inv r e p : inv r p → inv r (responseTimeout e p).
Proof.
  intros H. unfold responseTimeout. destruct (responseTimer p); [|done].
  destruct (socket p) eqn:Es; [|done]. by apply failSocket_inv.
Qed.

(** ** Task steps

    A step that ends puts the running task's counter up to date. *)

Lemma alter_task (m : gmap nat Task) c id id' t' : alter (λ t, t <| pc := c |>) id m !! id' = Some t' →
  ∃ t, m !! id' = Some t ∧ taskLifecycle t' = taskLifecycle t ∧ (id = id' ∧ pc t' = c ∨ id ≠ id' ∧ t' = t).
Proof.
  destruct (decide (id = id')) as [->|Hne].
  - rewrite lookup_alter_eq. intros (t & Ht & ->)%fmap_Some. exists t. auto.
  - rewrite lookup_alter_ne by done. intros. exists t'. auto.
Qed.

Lemma alter_task_back (m : gmap nat Task) c id id' t : m !! id' = Some t →
  ∃ t', alter (λ t, t <| pc := c |>) id m !! id' = Some t' ∧ taskLifecycle t' = taskLifecycle t ∧
    (id = id' ∧ pc t' = c ∨ id ≠ id' ∧ t' = t).
Proof.
  intros Ht. destruct (decide (id = id')) as [->|Hne].
  - rewrite lookup_alter_eq, Ht. eexists. split; [done|]. auto.
  - rewrite lookup_alter_ne by done. exists t. auto.
Qed.

(** The step of task [id] ends at [c], with what [c] waits for armed. *)
Lemma setPc_inv id c p :
  (∀ t, tasks p !! id = Some t → backed p id (t <| pc := c |>)) →
  inv (Some id) p → inv None (setPc id c p).
Proof.
  intros Hb []. split; try done; simpl.
  - intros id' t' (t & Ht & -> & _)%alter_task. eauto.
  - intros id' t' (t & Ht & -> & _)%alter_task. eauto.
  - intros id' Hid. destruct (i_task0 id' Hid) as (t & Ht & <-).
    destruct (alter_task_back _ c id id' t Ht) as (t' & ? & ? & _). eauto.
  - intros id' t' _ (t & Ht & El & [[-> Hpc]|[Hne ->]])%alter_task.
    + specialize (Hb t Ht). unfold backed in *. simpl in *. by rewrite Hpc, El.
    + apply i_backed0; [congruence|done].
  - intros id' Hid. split; [done|]. destruct (i_retry0 id' Hid) as (Hne & t & next & Ht & Hpc).
    destruct (alter_task_back _ c id id' t Ht) as (t' & ? & ? & [[-> ?]|[? ->]]); [done|eauto].
  - intros id' Hid. split; [done|]. destruct (i_attempt0 id' Hid) as (Hne & t & n & tok & Ht & Hpc).
    destruct (alter_task_back _ c id id' t Ht) as (t' & ? & ? & [[-> ?]|[? ->]]); [done|]. by exists t, n, tok.
Qed.

(** A waiting task is resumed: nothing it waited for is still armed. *)
Lemma running_inv id t p : tasks p !! id = Some t → retryTimer p ≠ Some id → completeAttempt p ≠ Some id →
  inv None p → inv (Some id) p.
Proof.
  intros Ht Hr Ha []. split; try done; eauto.
  - intros id' Hid. split; [congruence|]. by apply i_retry0.
  - intros id' Hid. split; [congruence|]. by apply i_attempt0.
Qed.

Lemma idle_pc p id t : inv None p → tasks p !! id = Some t →
  (∀ next, pc t ≠ PSleep next) → (∀ n tok, pc t ≠ PAttempt n tok) → inv (Some id) p.
Proof.
  intros H Ht Hs Ha. apply (running_inv id t); [done|..|done].
  - intros Hr. destruct (i_retry _ _ H id Hr) as (_ & t' & next & ? & ?). simplify_eq. by destruct (Hs next).
  - intros Hc. destruct (i_attempt _ _ H id Hc) as (_ & t' & n & tok & ? & ?). simplify_eq. by destruct (Ha n tok).
Qed.

Section Step.
Context (e : Env) (id : nat) (lc : Z).

(** Task [id] of lifecycle [lc] is running. *)
Definition running (p : Provider) : Prop :=
  inv (Some id) p ∧ ∃ t, tasks p !! id = Some t ∧ taskLifecycle t = lc.

Lemma running_same p p' : same_core p p' → same_epoch p p' → running p → running p'.
Proof.
  intros Hc He [Hi Ht]. split; [by apply (inv_same _ p)|].
  destruct Hc as (-> & _). done.
Qed.

Lemma running_current p : running p → canContinue lc p = true → connectTask p = Some id ∧ lifecycle p = lc.
Proof.
  intros [Hi (t & Ht & El)] (_ & _ & Hl)%canContinue_iff. split; [|done].
  apply (i_current _ _ Hi id t Ht). congruence.
Qed.

Lemma running_setStatus st p : st ≠ Connected → canContinue lc p = true → running p →
  running (setStatus st p) ∧ canContinue lc (setStatus st p) = true.
Proof.
  intros Hst Hc Hr. destruct (running_current p Hr Hc) as [Ht _].
  destruct (setStatus_fields st p) as ((E1 & _ & E3 & _ & _ & E6 & E7 & _) & _). simpl in *.
  destruct Hr as [Hi Hex]. split; [split|].
  - apply setStatus_inv; [done| |done]. right. rewrite Ht. by eexists.
  - by rewrite E1.
  - unfold canContinue in *. by rewrite E3, E6, E7.
Qed.

(** While the running task may continue, no sleep is armed. *)
Lemma running_awake p : running p → canContinue lc p = true → retryTimer p = None.
Proof.
  intros Hr Hc. destruct (running_current p Hr Hc) as [Ht Hl]. destruct Hr as [Hi _].
  destruct (retryTimer p) as [id'|] eqn:E; [|done].
  destruct (i_retry _ _ Hi id' E) as (Hne & t' & next & Ht' & Hpc).
  pose proof (i_backed _ _ Hi id' t' Hne Ht') as Hb. unfold backed in Hb. rewrite Hpc in Hb.
  destruct Hb as [_ (_ & _ & Hl')%canContinue_iff].
  pose proof (i_current _ _ Hi id' t' Ht' (eq_sym Hl')). congruence.
Qed.

Lemma sleep_inv ms w next p : running p → inv None (sleep id lc ms w next p).
Proof.
  intros Hr. unfold sleep. destruct (canContinue lc p) eqn:Ec.
  - pose proof (running_awake p Hr Ec) as Hn. destruct (running_current p Hr Ec) as [Ht Hl].
    destruct Hr as [Hi (t & Htask & El)].
    assert (inv (Some id) (record (Slept ms) p)) as [] by (by apply record_inv).
    split; simpl in *; try done.
    + intros id' t' (t0 & Ht0 & -> & _)%alter_task. eauto.
    + intros id' t' (t0 & Ht0 & -> & _)%alter_task. eauto.
    + intros id' Hid. destruct (i_task0 id' Hid) as (t0 & Ht0 & <-).
      destruct (alter_task_back _ (PSleep next) id id' t0 Ht0) as (t' & ? & ? & _). eauto.
    + intros id' t' _ (t0 & Ht0 & El0 & [[-> Hpc]|[Hne ->]])%alter_task.
      * unfold backed. rewrite Hpc. split; [done|]. simplify_eq. rewrite El0. done.
      * assert (Some id ≠ Some id') as Hne' by congruence.
        pose proof (i_backed0 id' t0 Hne' Ht0) as Hb. unfold backed in *. simpl in *.
        destruct (pc t0); try done. destruct Hb. congruence.
    + intros id' [= <-]. split; [done|].
      destruct (alter_task_back _ (PSleep next) id id t Htask) as (t' & ? & ? & [[_ ?]|[? _]]); [|done]. eauto.
    + destruct w; [by right|by left].
    + intros id' Hid. split; [done|]. destruct (i_attempt0 id' Hid) as (Hne & t0 & n & tok & Ht0 & Hpc).
      destruct (alter_task_back _ (PSleep next) id id' t0 Ht0) as (t' & ? & ? & [[-> ?]|[? ->]]); [done|]. by exists t0, n, tok.
  - apply setPc_inv; [done|apply Hr].
Qed.

Lemma returnLoop_inv p : running p → inv None (returnLoop id p).
Proof. intros [Hi _]. by apply setPc_inv. Qed.

Lemma ensureClientToken_inv p : running p → inv None (ensureClientToken e id p).
Proof.
  intros [Hi _]. unfold ensureClientToken.
  match goal with |- inv _ (match clientToken ?q with _ => _ end) => set (p1 := q) end.
  assert (inv (Some id) p1) as H1 by (unfold p1; repeat case_match; (done || by apply (inv_same _ p))).
  clearbody p1. destruct (clientToken p1); apply setPc_inv; try done. by apply record_inv.
Qed.

Lemma loopHead_inv p : running p → inv None (loopHead e id lc p).
Proof.
  intros Hr. unfold loopHead. case_match; [|by apply returnLoop_inv].
  destruct (hasGate p); [|by apply ensureClientToken_inv]. apply setPc_inv; [done|apply Hr].
Qed.

Lemma afterAttempts_inv p : running p → inv None (afterAttempts e id lc p).
Proof.
  intros Hr. unfold afterAttempts.
  assert (∀ p', same_core p p' → same_epoch p p' → running p') as Hs by (intros; by apply (running_same p)).
  destruct (tokenRejected _); [case_match; [apply sleep_inv|apply loopHead_inv]|apply loopHead_inv]; by apply Hs.
Qed.

(** The running task opens socket [nextSocket] and waits for it. *)
Definition withSocket (attempt : nat) (tok : ClientToken) (p : Provider) : Provider :=
  let s := nextSocket p in
  let p := (p <| nextSocket := S s |>) <| sockets ::= insert s (mkSocket RConnecting true lc) |> in
  let p := record (SocketOpened s) p in
  let p := (p <| socket := Some s |>) <| receivedServerSyncStep1 := false |> in
  let p := setPc id (PAttempt attempt tok) (p <| completeAttempt := Some id |>) in
  p <| handshakeTimer := Some (mkHT s lc "connect timeout") |>.

Lemma withSocket_inv attempt tok p : running p → canContinue lc p = true → status p ≠ Connected →
  socket p = None → completeAttempt p = None → inv None (withSocket attempt tok p).
Proof.
  intros Hr Hc Hst Hs Ha. destruct (running_current p Hr Hc) as [Hct Hl].
  pose proof (running_awake p Hr Hc) as Hn.
  destruct Hr as [Hi (t & Htask & El)]. destruct Hi. unfold withSocket. split; simpl; try done.
  - intros id' t' (t0 & Ht0 & -> & _)%alter_task. eauto.
  - intros id' t' (t0 & Ht0 & -> & _)%alter_task. eauto.
  - intros id' Hid. destruct (i_task0 id' Hid) as (t0 & Ht0 & <-).
    destruct (alter_task_back _ (PAttempt attempt tok) id id' t0 Ht0) as (t' & ? & ? & _). eauto.
  - intros id' t' _ (t0 & Ht0 & El0 & [[-> Hpc]|[Hne ->]])%alter_task.
    + unfold backed. rewrite Hpc. simplify_eq. split; [done|]. rewrite El0. split; [done|]. split; [done|].
      exists (nextSocket p), "connect timeout"%string. split; [done|]. simpl. by rewrite Hl.
    + assert (Some id ≠ Some id') as Hne' by congruence.
      pose proof (i_backed0 id' t0 Hne' Ht0) as Hb. unfold backed in *. simpl.
      destruct (pc t0); try done. destruct Hb. congruence.
  - congruence.
  - intros id' [= <-]. split; [done|].
    destruct (alter_task_back _ (PAttempt attempt tok) id id t Htask) as (t' & ? & ? & [[_ ?]|[? _]]); [|done]. by exists t', attempt, tok.
  - intros s [= <-]. split; [by rewrite <- Hl in Hc|]. rewrite lookup_insert_eq, Hl. eexists. by split.
  - intros h [= <-] _. by rewrite Hl.
  - intros s k. destruct (decide (s = nextSocket p)) as [->|Hne].
    + rewrite lookup_insert_eq. intros [= <-]. split; [lia|done].
    + rewrite lookup_insert_ne by done. intros Hk. destruct (i_attached0 s k Hk) as [Hlt Hat].
      split; [lia|]. intros Hatt. specialize (Hat Hatt). congruence.
  - intros Hp. split; [by eexists|]. by destruct (i_epoch0 Hp).
Qed.

Lemma attemptConnection_inv attempt tok p : running p → canContinue lc p = true →
  inv None (attemptConnection e id lc attempt tok p).
Proof.
  intros Hr Hc. destruct (running_current p Hr Hc) as [Hct Hl]. destruct Hr as [Hi (t & Htask & El)].
  assert (dropped p (setStatus Connecting (closeSocket p))) as Hd.
  { apply closeSocket_dropped; [done|]. intros _. left. rewrite Hct. by eexists. }
  unfold attemptConnection. set (q := setStatus Connecting (closeSocket p)) in *.
  assert (canContinue lc q = true) as Hcq.
  { unfold q. destruct (setStatus_fields Connecting (closeSocket p)) as ((_ & _ & E3 & _ & _ & E6 & E7 & _) & _).
    destruct (closeSocket_fields p) as (Q1 & Q2 & Q3 & _). simpl in *.
    unfold canContinue in *. by rewrite E3, E6, E7, Q1, Q2, Q3. }
  assert (running q) as Hq.
  { split; [by apply (inv_dropped _ p)|]. destruct (dropped_task_back _ _ _ _ Hd Htask) as (t' & ? & ? & _).
    exists t'. split; [done|congruence]. }
  destruct Hd as [_ _ _ _ _ _ _ _ Hs Ha _ _ Hst _ _ _ _]. clearbody q.
  destruct (factoryFails e).
  - destruct (running_setStatus Error q) as [[Hi' _] _]; [done..|]. by apply setPc_inv.
  - match goal with |- context [canContinue lc ?x] => change (canContinue lc x) with (canContinue lc q) end.
    rewrite Hcq. by apply withSocket_inv.
Qed.

Lemma attemptRound_inv attempt tok p : running p → canContinue lc p = true →
  inv None (attemptRound e id lc attempt tok p).
Proof.
  intros Hr Hc. unfold attemptRound. case_match; [|by apply afterAttempts_inv].
  case_match; [by apply loopHead_inv|]. apply attemptConnection_inv; [by apply (running_same p)|done].
Qed.

Lemma attemptDone_inv attempt tok connected p : running p → inv None (attemptDone e id lc attempt tok connected p).
Proof.
  intros Hr. unfold attemptDone. destruct connected.
  - rewrite orb_true_r. apply returnLoop_inv. by apply (running_same p).
  - rewrite orb_false_r. destruct (canContinue lc p) eqn:Hc; cbn [negb]; cbv zeta; [|by apply returnLoop_inv].
    assert (running (p <| retries ::= S |>)) by (by apply (running_same p)).
    destruct (tokenRejected _); [by apply afterAttempts_inv|by apply sleep_inv].
Qed.

Lemma tokenReceived_inv tok p : running p → inv None (tokenReceived e id lc tok p).
Proof.
  intros Hr. unfold tokenReceived. assert (running (p <| tokenFailures := 0%nat |>)) by (by apply (running_same p)).
  case_match; [by apply attemptRound_inv|by apply returnLoop_inv].
Qed.

Lemma tokenFailed_inv err p : running p → inv None (tokenFailed id lc err p).
Proof.
  intros Hr. unfold tokenFailed. destruct (canContinue lc p) eqn:Hc; [|by apply returnLoop_inv].
  destruct (running_setStatus Error p) as [Hq _]; [done..|].
  set (q := setStatus Error p) in *. clearbody q.
  destruct (kind err); apply sleep_inv; by apply (running_same q).
Qed.

Lemma tokenSettles_inv reply p : running p → inv None (tokenSettles e id lc reply p).
Proof.
  intros Hr. unfold tokenSettles. destruct reply as [[tok|]|err]; try by apply tokenFailed_inv.
  case_match; [|by apply tokenFailed_inv]. apply tokenReceived_inv. by apply (running_same p).
Qed.

Lemma gateSettles_inv reply p : running p → inv None (gateSettles e id lc reply p).
Proof.
  intros Hr. unfold gateSettles. destruct reply.
  - assert (running (p <| gateFailures := 0%nat |>)) by (by apply (running_same p)).
    case_match; [by apply ensureClientToken_inv|by apply returnLoop_inv].
  - destruct (canContinue lc p) eqn:Hc; [|by apply returnLoop_inv].
    destruct (running_setStatus Error p) as [Hq _]; [done..|].
    set (q := setStatus Error p) in *. clearbody q. apply sleep_inv. by apply (running_same q).
Qed.
End Step.

Lemma running_idle p id t : inv None p → tasks p !! id = Some t →
  (∀ next, pc t ≠ PSleep next) → (∀ n tok, pc t ≠ PAttempt n tok) → running id (taskLifecycle t) p.
Proof. intros. split; [by eapply idle_pc|]. by exists t. Qed.

(** A task that is over is dropped; the current one may only go when nothing
    is wanted, or a connect is queued. *)
Definition dropTask (id : nat) (p : Provider) : Provider :=
  let p := p <| tasks ::= delete id |> in
  if decide (connectTask p = Some id) then p <| connectTask := None |> else p.

Lemma dropTask_inv id t p (n : nat) : inv None p → tasks p !! id = Some t → pc t = PFinally →
  (connectTask p = Some id → shouldConnect p = true → status p ≠ Connected → 0 < queuedConnects p + n)%nat →
  inv None ((dropTask id p) <| queuedConnects ::= λ m, m + n |>)%nat.
Proof.
  intros [] Ht Hpc Hq.
  assert (∀ id' t', delete id (tasks p) !! id' = Some t' → id' ≠ id ∧ tasks p !! id' = Some t') as Hdel.
  { intros id' t'. rewrite lookup_delete_Some. naive_solver. }
  assert (∀ id' t', tasks p !! id' = Some t' → pc t' ≠ PFinally → delete id (tasks p) !! id' = Some t') as Hdel'.
  { intros id' t' ??. rewrite lookup_delete_ne; [done|congruence]. }
  unfold dropTask. simpl. destruct (decide (connectTask p = Some id)) as [Hct|Hct].
  all: split; simpl; try done.
  all: try solve [intros id' t' [? ?]%Hdel; eauto | intros id' t' _ [? ?]%Hdel; by apply i_backed0].
  - intros id' t' [Hne ?]%Hdel ?. destruct Hne. specialize (i_current0 id' t'). naive_solver congruence.
  - intros id' Hid. destruct (i_retry0 id' Hid) as (Hne & t0 & next & Ht0 & Hpc0). split; [done|].
    exists t0, next. split; [apply Hdel'; congruence|done].
  - intros id' Hid. destruct (i_attempt0 id' Hid) as (Hne & t0 & m & tok & Ht0 & Hpc0). split; [done|].
    exists t0, m, tok. split; [apply Hdel'; congruence|done].
  - intros ??. right. auto.
  - intros id' Hid. destruct (i_task0 id' Hid) as (t0 & Ht0 & El). exists t0. split; [|done].
    rewrite lookup_delete_ne; [done|congruence].
  - intros id' Hid. destruct (i_retry0 id' Hid) as (Hne & t0 & next & Ht0 & Hpc0). split; [done|].
    exists t0, next. split; [apply Hdel'; congruence|done].
  - intros id' Hid. destruct (i_attempt0 id' Hid) as (Hne & t0 & m & tok & Ht0 & Hpc0). split; [done|].
    exists t0, m, tok. split; [apply Hdel'; congruence|done].
  - intros Hw Hst. destruct (i_wanted0 Hw Hst) as [?|?]; [by left|right; lia].
Qed.

(** The [finally] of a returned loop: a loop that was still wanted starts again. *)
Lemma finally_inv e id t p : inv None p → tasks p !! id = Some t → pc t = PFinally → inv None (resumeTask e id p).
Proof.
  intros H Ht Hpc. unfold resumeTask. rewrite Ht, Hpc. pose proof H as [].
  assert (connectTask p = Some id → shouldConnect p = true → lifecycle p = taskLifecycle t) as Hl.
  { intros Hc Hw. destruct (i_task0 id Hc) as (t' & Ht' & El). simplify_eq.
    rewrite El. symmetry. apply i_taskLifecycle0; [done|by eexists]. }
  set (q := dropTask id p).
  change (inv None (if shouldConnect q && negb (destroyed q) && negb (bool_decide (status q = Connected)) &&
    (lifecycle q =? taskLifecycle t) then queueConnect q else q)).
  assert (shouldConnect q = shouldConnect p ∧ destroyed q = destroyed p ∧ status q = status p ∧
    lifecycle q = lifecycle p ∧ queuedConnects q = queuedConnects p) as (-> & -> & -> & -> & E5)
    by (unfold q, dropTask; case_match; done).
  destruct (_ && _) eqn:Ec.
  - apply (inv_same _ (q <| queuedConnects ::= λ m, m + 1 |>)%nat).
    + unfold same_core, queueConnect. simpl. split_and!; (done || lia).
    + done.
    + apply (dropTask_inv id t p 1); try done. intros. lia.
  - apply (inv_same _ (q <| queuedConnects ::= λ m, m + 0 |>)%nat).
    + unfold same_core, queueConnect. simpl. split_and!; (done || lia).
    + done.
    + apply (dropTask_inv id t p 0); try done. intros Hc Hw Hst. rewrite (Hl Hc Hw), Hw in Ec.
      destruct (destroyed p) eqn:Ed; [by rewrite i_destroyed0 in Hw|].
      rewrite Z.eqb_refl, bool_decide_eq_false_2 in Ec by done. done.
Qed.

Lemma resumeTask_inv e id p : inv None p → inv None (resumeTask e id p).
Proof.
  intros H. destruct (tasks p !! id) as [t|] eqn:Ht; [|by unfold resumeTask; rewrite Ht].
  destruct (pc t) as [| |tok|n tok|n tok b|next|[[n tok]|]|] eqn:Hpc; [..|by eapply finally_inv].
  all: unfold resumeTask; rewrite Ht, Hpc; try done.
  all: assert (running id (taskLifecycle t) p) as Hr by (apply running_idle; [done|done|congruence|congruence]).
  - by apply tokenReceived_inv.
  - by apply attemptDone_inv.
  - destruct (canContinue _ _) eqn:Hc; [by apply attemptRound_inv|by apply (returnLoop_inv id (taskLifecycle t))].
  - by apply loopHead_inv.
Qed.

(** ** The public operations *)

Lemma finishSleep_inv id p : inv None p → retryTimer p = Some id →
  let q := finishSleep id p in
  inv None q ∧ retryTimer q = None ∧ cancelRetry q = None ∧ wakeRetry q = None ∧ lifecycle q = lifecycle p ∧
  shouldConnect q = shouldConnect p ∧ destroyed q = destroyed p ∧ status q = status p ∧ socket q = socket p ∧
  connectTask q = connectTask p ∧ connectTaskLifecycle q = connectTaskLifecycle p ∧
  completeAttempt q = completeAttempt p.
Proof.
  intros H Hr. destruct (i_retry _ _ H id Hr) as (_ & t & next & Ht & Hpc). unfold finishSleep. cbv zeta.
  change (tasks (((p <| retryTimer := None |>) <| wakeRetry := None |>) <| cancelRetry := None |>)) with (tasks p).
  rewrite Ht, Hpc. split; [|done]. apply setPc_inv; [done|]. destruct H. split; simpl; try done; auto.
  - intros id' t' Hne Ht'. assert (None ≠ Some id') as Hn by done. pose proof (i_backed0 id' t' Hn Ht') as Hb.
    unfold backed in *. simpl. destruct (pc t'); try done. destruct Hb. congruence.
  - intros id' Hid. destruct (i_attempt0 id' Hid) as (_ & t' & n & tok & Ht' & Hpc').
    split; [congruence|]. by exists t', n, tok.
Qed.

(** Ending the lifecycle with nothing asleep. *)
Lemma stop_inv d p : inv None p → retryTimer p = None → (d = false → destroyed p = false) →
  inv None (setStatus Offline (closeSocket (((p <| destroyed := d |>) <| shouldConnect := false |>) <| lifecycle ::= λ n, n + 1 |>))).
Proof.
  intros H Hr Hd. apply (inv_dropped None p); [|done].
  set (p1 := ((p <| destroyed := d |>) <| shouldConnect := false |>) <| lifecycle ::= λ n, n + 1 |>).
  assert (dropped p1 (setStatus Offline (closeSocket p1))) as [] by (by apply closeSocket_dropped).
  split; try done. right. destruct d_alive0 as [(-> & -> & _)|(? & -> & _)]; split_and!; try done; unfold p1 in *; simpl in *; lia.
Qed.

Lemma cancelSleep_inv p : inv None p → inv None (cancelSleep p) ∧ retryTimer (cancelSleep p) = None ∧
  destroyed (cancelSleep p) = destroyed p ∧ shouldConnect (cancelSleep p) = shouldConnect p.
Proof.
  intros H. unfold cancelSleep. pose proof (i_cancel _ _ H) as Hc. destruct (cancelRetry p) as [id|].
  - destruct (finishSleep_inv id p H (eq_sym Hc)) as (? & ? & _ & _ & _ & ? & ? & _). done.
  - done.
Qed.

Lemma finishSleep_set d w l id p :
  finishSleep id (((p <| destroyed := d |>) <| shouldConnect := w |>) <| lifecycle := l |>) =
  (((finishSleep id p) <| destroyed := d |>) <| shouldConnect := w |>) <| lifecycle := l |>.
Proof. unfold finishSleep. simpl. destruct (tasks p !! id) as [t|]; [|done]. by destruct (pc t). Qed.

Lemma cancelSleep_set d w l p :
  cancelSleep (((p <| destroyed := d |>) <| shouldConnect := w |>) <| lifecycle := l |>) =
  (((cancelSleep p) <| destroyed := d |>) <| shouldConnect := w |>) <| lifecycle := l |>.
Proof.
  unfold cancelSleep.
  change (cancelRetry (((p <| destroyed := d |>) <| shouldConnect := w |>) <| lifecycle := l |>)) with (cancelRetry p).
  destruct (cancelRetry p) as [id|]; [apply finishSleep_set|done].
Qed.

Lemma finishSleep_lifecycle id p : lifecycle (finishSleep id p) = lifecycle p.
Proof. unfold finishSleep. simpl. destruct (tasks p !! id) as [t|]; [|done]. by destruct (pc t). Qed.

Lemma cancelSleep_lifecycle p : lifecycle (cancelSleep p) = lifecycle p.
Proof. unfold cancelSleep. destruct (cancelRetry p); [apply finishSleep_lifecycle|done]. Qed.

Lemma end_lifecycle_inv d p : inv None p → (d = false → destroyed p = false) →
  inv None (setStatus Offline (closeSocket (cancelSleep
    (((p <| destroyed := d |>) <| shouldConnect := false |>) <| lifecycle ::= λ n, n + 1 |>)))).
Proof.
  intros H Hd. destruct (cancelSleep_inv p H) as (Hi & Hr & Ed & _).
  change (((p <| destroyed := d |>) <| shouldConnect := false |>) <| lifecycle ::= λ n, n + 1 |>)
    with (((p <| destroyed := d |>) <| shouldConnect := false |>) <| lifecycle := lifecycle p + 1 |>).
  rewrite cancelSleep_set, <- cancelSleep_lifecycle. apply (stop_inv d); [done..|]. by rewrite Ed.
Qed.

Lemma disconnect_inv p : inv None p → inv None (disconnect p).
Proof.
  intros H. unfold disconnect. destruct (destroyed p) eqn:Ed; [done|]. cbv zeta.
  pose proof (end_lifecycle_inv false p H (λ _, Ed)) as Hi.
  assert ((p <| destroyed := false |>) = p) as E by (destruct p; simpl in *; by subst). by rewrite E in Hi.
Qed.

Lemma destroy_inv p : inv None p → inv None (destroy p).
Proof. intros H. unfold destroy. destruct (destroyed p) eqn:Ed; [done|]. by apply (end_lifecycle_inv true p H). Qed.

Definition started (id : nat) (p : Provider) : Provider :=
  (p <| connectTask := Some id |>) <| connectTaskLifecycle := lifecycle p |>.

Lemma setStatus_set st c l p : setStatus st ((p <| connectTask := c |>) <| connectTaskLifecycle := l |>) =
  ((setStatus st p) <| connectTask := c |>) <| connectTaskLifecycle := l |>.
Proof.
  unfold setStatus.
  change (status ((p <| connectTask := c |>) <| connectTaskLifecycle := l |>)) with (status p).
  destruct (decide (status p = st)); [done|].
  destruct (decide (st = Connected)); by destruct (eqb _ _).
Qed.

Lemma loopHead_set e id lc c l p : loopHead e id lc ((p <| connectTask := c |>) <| connectTaskLifecycle := l |>) =
  ((loopHead e id lc p) <| connectTask := c |>) <| connectTaskLifecycle := l |>.
Proof.
  set (q := (p <| connectTask := c |>) <| connectTaskLifecycle := l |>). unfold loopHead.
  change (canContinue lc q) with (canContinue lc p). change (status q) with (status p). change (hasGate q) with (hasGate p).
  destruct (_ && _); [|done]. destruct (hasGate p); [done|].
  unfold ensureClientToken. change (clientToken q) with (clientToken p).
  destruct (clientToken p) as [t|] eqn:Et; [destruct (clientTokenExpired t (now e))|].
  - done.
  - change (clientToken q) with (clientToken p). by rewrite Et.
  - change (clientToken q) with (clientToken p). by rewrite Et.
Qed.

(** A new loop begins, once no other can be current. *)
Lemma newTask_inv p : inv None (p <| queuedConnects ::= S |>) → destroyed p = false →
  (is_Some (connectTask p) → connectTaskLifecycle p ≠ lifecycle p) →
  running (nextTask p) (lifecycle p) (started (nextTask p)
    (((p <| shouldConnect := true |>) <| nextTask := S (nextTask p) |>)
      <| tasks ::= insert (nextTask p) (mkTask (lifecycle p) PFinally) |>)).
Proof.
  intros [] Hd Hc. simpl in *. split; [|eexists; split; [apply lookup_insert_eq|done]].
  assert (∀ lc, canContinue lc p = true → canContinue lc (p <| shouldConnect := true |>) = true) as Hcc.
  { intros lc. rewrite !canContinue_iff. simpl. tauto. }
  assert (∀ id t, tasks p !! id = Some t → id ≠ nextTask p) as Hne.
  { intros id t Ht. destruct (i_fresh0 id t Ht). lia. }
  split; unfold started; simpl; try done.
  - intros id t [[<- <-]|[Hn Ht]]%lookup_insert_Some; simpl; [lia|]. destruct (i_fresh0 id t Ht). lia.
  - intros id t [[<- <-]|[Hn Ht]]%lookup_insert_Some El; [done|].
    pose proof (i_current0 id t Ht El) as Hct. destruct (i_task0 id Hct) as (t' & Ht' & El'). simplify_eq.
    destruct Hc; [by eexists|congruence].
  - intros id [= <-]. rewrite lookup_insert_eq. by eexists.
  - intros id t Hr [[<- <-]|[Hn Ht]]%lookup_insert_Some; [done|].
    pose proof (i_backed0 id t ltac:(done) Ht) as Hb. unfold backed in *. simpl.
    destruct (pc t); try done; [destruct Hb as (? & ?%Hcc & ?)|destruct Hb as (? & ?%Hcc)]; done.
  - intros id Hid. destruct (i_retry0 id Hid) as (_ & t & next & Ht & Hpc).
    pose proof (Hne id t Ht). split; [congruence|]. exists t, next. by rewrite lookup_insert_ne.
  - intros id Hid. destruct (i_attempt0 id Hid) as (_ & t & n & tok & Ht & Hpc).
    pose proof (Hne id t Ht). split; [congruence|]. exists t, n, tok. by rewrite lookup_insert_ne.
  - intros s Hs. destruct (i_socket0 s Hs) as (?%Hcc & ?). done.
  - intros _ _. left. by eexists.
  - congruence.
Qed.

Lemma finishSleep_queued id p :
  finishSleep id (p <| queuedConnects ::= S |>) = (finishSleep id p) <| queuedConnects ::= S |>.
Proof. unfold finishSleep. simpl. destruct (tasks p !! id) as [t|]; [|done]. by destruct (pc t). Qed.

(** A connect that was queued is no longer, and does what it was queued for. *)
Lemma connect_inv_queued e p : inv None (p <| queuedConnects ::= S |>) → inv None (connect e p).
Proof.
  intros H. unfold connect. destruct (destroyed p) eqn:Ed.
  { cbn [orb]. destruct H. split; try done. simpl in *. intros Hw. by rewrite i_destroyed0 in Hw. }
  destruct (bool_decide (status p = Connected)) eqn:Est.
  { cbn [orb]. revert H. apply bool_decide_eq_true in Est. intros []. by split. }
  apply bool_decide_eq_false in Est. cbn [orb]. cbv zeta.
  change (wakeRetry (p <| shouldConnect := true |>)) with (wakeRetry p).
  (* the state with the sleeping task woken, before it is wanted *)
  set (w := match wakeRetry p with Some id => finishSleep id p | None => p end).
  assert (inv None (w <| queuedConnects ::= S |>) ∧ lifecycle w = lifecycle p ∧ destroyed w = false ∧ status w = status p) as (Hw & El & Edw & Estw).
  { unfold w. destruct (wakeRetry p) as [id|] eqn:Ew; [|done].
    destruct (i_wake _ _ H) as [?|Hr]; [simpl in *; congruence|]. simpl in Hr. rewrite Ew in Hr.
    destruct (finishSleep_inv id _ H (eq_sym Hr)) as (Hi & _ & _ & _ & ? & _ & ? & ? & _).
    rewrite finishSleep_queued in *. simpl in *. split_and!; congruence || done. }
  assert (match wakeRetry p with Some id => finishSleep id (p <| shouldConnect := true |>) | None => p <| shouldConnect := true |> end
    = w <| shouldConnect := true |>) as ->.
  { unfold w. destruct (wakeRetry p) as [id|]; [|done].
    unfold finishSleep. simpl. destruct (tasks p !! id) as [t|]; [|done]. by destruct (pc t). }
  clearbody w. clear H. 
  change (connectTask (w <| shouldConnect := true |>)) with (connectTask w).
  change (connectTaskLifecycle (w <| shouldConnect := true |>)) with (connectTaskLifecycle w).
  change (lifecycle (w <| shouldConnect := true |>)) with (lifecycle w).
  change (nextTask (w <| shouldConnect := true |>)) with (nextTask w).
  destruct (_ && _) eqn:Ec.
  - apply andb_true_iff in Ec as [Hct%bool_decide_eq_true Hl%Z.eqb_eq].
    assert (∀ lc, canContinue lc w = true → canContinue lc (w <| shouldConnect := true |>) = true) as Hcc.
    { intros lc. rewrite !canContinue_iff. simpl. tauto. }
    destruct Hw. split; simpl; try done; auto.
    + intros id t Hr Ht. pose proof (i_backed0 id t Hr Ht) as Hb. unfold backed in *. simpl.
      destruct (pc t); try done; [destruct Hb as (? & ?%Hcc & ?)|destruct Hb as (? & ?%Hcc)]; done.
    + intros s Hs. destruct (i_socket0 s Hs) as (?%Hcc & ?). done.
    + congruence.
  - assert (is_Some (connectTask w) → connectTaskLifecycle w ≠ lifecycle w) as Hc.
    { intros Hs Hl. rewrite Hl, Z.eqb_refl, bool_decide_eq_true_2 in Ec by done. done. }
    pose proof (newTask_inv w Hw Edw Hc) as Hn. unfold started in Hn.
    rewrite <- loopHead_set, <- setStatus_set. apply loopHead_inv.
    apply running_setStatus; [done| |exact Hn]. apply canContinue_iff. simpl. done.
Qed.

Lemma connect_inv e p : inv None p → inv None (connect e p).
Proof.
  intros H. apply connect_inv_queued. destruct H. split; try done. simpl. intros Hw Hst.
  destruct (i_wanted0 Hw Hst); [by left|right; lia].
Qed.

(** ** Every event *)

Lemma onSocket_inv s f p : (∀ k, sockets p !! s = Some k → attached k = true →
    (socket p = Some s → socketLifecycle k = lifecycle p) → inv None (f (socketLifecycle k) p)) →
  inv None p → inv None (onSocket s f p).
Proof.
  intros Hf H. unfold onSocket. destruct (sockets p !! s) as [k|] eqn:Ek; [|done].
  destruct (attached k) eqn:Ea; [|done]. apply Hf; [done..|]. intros Hs.
  destruct (i_socket _ _ H s Hs) as (_ & k' & Hk' & _ & ?). congruence.
Qed.

Lemma handle_inv ev e p : inv None p → inv None (handle ev e p).
Proof.
  intros H. destruct ev as [| | | | |own|s|s m|s b|s code reason|s|id reply|id reply|id| | | | |]; simpl.
  - by apply connect_inv.
  - by apply disconnect_inv.
  - by apply destroy_inv.
  - destruct (queuedConnects p) as [|n] eqn:Eq; [done|].
    apply connect_inv_queued, (inv_same _ p); [|done|done]. unfold same_core. simpl. by rewrite Eq.
  - by apply documentUpdated_inv.
  - by apply awarenessUpdated_inv.
  - destruct (sockets p !! s) as [k|] eqn:Ek; [|done]. case_decide as Hk; [|done].
    apply onSocket_inv; [|by apply setReady_inv]. intros k' Hk' Ha Hl. apply onOpen_inv; [|by apply setReady_inv].
    intros Hs Hst. destruct (i_connected _ _ H Hst) as (_ & s' & k0 & Hs' & Hk0 & Hr). simpl in Hs. congruence.
  - destruct (isOpenSocket s p) eqn:Eo; [|done]. apply onSocket_inv; [|done]. intros. by apply onMessage_inv.
  - apply onSocket_inv; [|done]. intros. by apply onError_inv.
  - apply onSocket_inv; [|by apply setReady_inv]. intros. apply failSocket_inv; [done|by apply setReady_inv].
  - by apply setReady_inv.
  - destruct (tasks p !! id) as [t|] eqn:Et; [|done]. destruct (pc t) eqn:Ep; try done.
    apply gateSettles_inv, running_idle; try done; congruence.
  - destruct (tasks p !! id) as [t|] eqn:Et; [|done]. destruct (pc t) eqn:Ep; try done.
    apply tokenSettles_inv, running_idle; try done; congruence.
  - by apply resumeTask_inv.
  - destruct (retryTimer p) as [id|] eqn:Er; [|done]. by apply (finishSleep_inv id p).
  - by apply handshakeTimeout_inv.
  - by apply heartbeatFires_inv.
  - by apply responseTimeout_inv.
  - destruct (epochFlushTimer p); [by apply finishEpochHandoff_inv|done].
Qed.

Lemma newProvider_inv documentId gated : inv None (newProvider documentId gated).
Proof. split; try done; simpl; [by left|by intros [? ?]]. Qed.

Lemma provider_run_inv documentId gated evs : inv None (Provider.run documentId gated evs).
Proof.
  unfold Provider.run. generalize (newProvider_inv documentId gated).
  generalize (newProvider documentId gated). induction evs as [|[ev e] evs IH]; intros p Hp; [done|].
  apply IH. by apply handle_inv.
Qed.
