(* ===== verification/ProviderSim.v ===== *)
(** A relation between the provider's states that its primitive steps respect
    is respected by every event.  What the provider writes is proved through
    it, once per relation instead of once per operation. *)
From Stdlib Require Import String QArith Qpower.
From S2P Require Import Prelude Token Provider ProviderFacts.
#[local] Open Scope Z_scope.

(** The fields that what is written depends on. *)
Definition same_io (p p' : Provider) : Prop :=
  log p' = log p ∧ hasGate p' = hasGate p ∧ localVersion p' = localVersion p ∧
  receivedServerSyncStep1 p' = receivedServerSyncStep1 p ∧ socket p' = socket p ∧ sockets p' = sockets p.

(** Effects that touch neither the server nor a timer. *)
Definition quiet (f : Effect) : bool :=
  match f with Sent _ _ | SocketOpened _ | Slept _ | EpochAccepted _ => false | _ => true end.

(** Messages whose content is not tied to the state. *)
Definition plain (m : OutMessage) : bool :=
  match m with OSyncStep1 | OAwareness => true | _ => false end.

Definition delay_ok (ms : Q) : Prop := (500 <= ms)%Q ∧ (ms <= 60000)%Q.

Definition opening (lc : Z) (p : Provider) : Provider :=
  let s := nextSocket p in
  let p := (p <| nextSocket := S s |>) <| sockets ::= insert s (mkSocket RConnecting true lc) |> in
  ((record (SocketOpened s) p) <| socket := Some s |>) <| receivedServerSyncStep1 := false |>.

Lemma withSocket_io id lc attempt t q : same_io (opening lc q) (withSocket id lc attempt t q).
Proof. by split_and!. Qed.

(** The branch of [attemptConnection] that goes on with its new socket. *)
Lemma opened_eq id lc attempt t q : canContinue lc q = true →
  (let s := nextSocket q in
   let p := (q <| nextSocket := S s |>) <| sockets ::= insert s (mkSocket RConnecting true lc) |> in
   let p := record (SocketOpened s) p in
   if canContinue lc p then
     let p := (p <| socket := Some s |>) <| receivedServerSyncStep1 := false |> in
     let p := setPc id (PAttempt attempt t) (p <| completeAttempt := Some id |>) in
     p <| handshakeTimer := Some (mkHT s lc "connect timeout") |>
   else setPc id (PAttempted attempt t false) (closeAndDetach s p)) = withSocket id lc attempt t q.
Proof.
  intros Hc. cbv zeta.
  match goal with |- (if ?c then _ else _) = _ => change c with (canContinue lc q) end. by rewrite Hc.
Qed.

Class Simulation (e : Env) (acc : Z → Prop) (R : Provider → Provider → Prop) : Prop := mkSimulation {
  sim_pre : PreOrder R;
  sim_silent p p' : same_io p p' → R p p';
  sim_quiet p f : quiet f = true → R p (record f p);
  sim_slept p ms : delay_ok ms → R p (record (Slept ms) p);
  sim_accepted p n : acc n → R p (record (EpochAccepted n) p);
  sim_acknowledged p s n : acc n → socket p = Some s → blocks e p = false →
    R p (record (Sent s (OEpochAcknowledgement n)) (record (EpochAccepted n) p));
  sim_send p s m : plain m = true → socket p = Some s → blocks e p = false → R p (record (Sent s m) p);
  sim_status p s : socket p = Some s → isOpenSocket s p = true → blocks e p = false →
    receivedServerSyncStep1 p = true → R p (record (Sent s (OSyncStatus (localVersion p))) p);
  sim_step1 p s : socket p = Some s → isOpenSocket s p = true → blocks e p = false →
    R p ((record (Sent s (OSyncStep2 (localVersion p))) p) <| receivedServerSyncStep1 := true |>);
  sim_update p s : socket p = Some s → isOpenSocket s p = true → blocks e p = false →
    R p ((record (Sent s (OUpdate (localVersion p + 1))) p) <| localVersion ::= λ n, n + 1 |>);
  sim_bump p : (∀ s, socket p = Some s → isOpenSocket s p = false) → R p (p <| localVersion ::= λ n, n + 1 |>);
  sim_drop p : R p (p <| socket := None |>);
  sim_detach p s : R p (p <| sockets ::= alter (λ k, (k <| attached := false |>) <| readyState := RClosed |>) s |>);
  sim_close p s : R p (setReady s RClosed p);
  sim_opens p s k : sockets p !! s = Some k → readyState k = RConnecting → R p (setReady s ROpen p);
  sim_open p lc : hasGate p && negb (gateOpen e) = false → socket p = None → R p (opening lc p) }.
#[global] Hint Mode Simulation - - ! : typeclass_instances.

Section Simulation.
Context {e : Env} {acc : Z → Prop} {R : Provider → Provider → Prop} {Hsim : Simulation e acc R}.

#[local] Instance R_pre : PreOrder R := sim_pre.

Lemma R_trans p1 p2 p3 : R p1 p2 → R p2 p3 → R p1 p3.
Proof. apply transitivity. Qed.

Lemma R_refl p : R p p.
Proof. reflexivity. Qed.

Lemma setStatus_sim st p : R p (setStatus st p).
Proof.
  unfold setStatus. case_decide; [apply R_refl|].
  match goal with |- context [record (EmitStatus st) ?q] => set (q0 := q) end.
  apply (R_trans _ q0); [apply sim_silent; unfold q0; by case_decide|].
  apply (R_trans _ (record (EmitStatus st) q0)); [by apply sim_quiet|].
  case_match; [apply R_refl|by apply sim_quiet].
Qed.

Lemma settleAttempt_sim b p : R p (settleAttempt b p).
Proof. rewrite settleAttempt_eq. by apply sim_silent. Qed.

Lemma closeAndDetach_sim s p : R p (closeAndDetach s p).
Proof. unfold closeAndDetach. eapply R_trans; [apply sim_detach|by apply sim_quiet]. Qed.

Lemma failSocket_sim s lc reason p : R p (failSocket e s lc reason p).
Proof.
  unfold failSocket. case_decide; [|apply R_refl].
  set (p1 := if bool_decide (status p = Connected) && _ && _ then record GateInvalidated p else p).
  apply (R_trans _ p1); [unfold p1; case_match; [by apply sim_quiet|apply R_refl]|]. clearbody p1.
  set (p2 := (p1 <| lastConnectionError := Some reason |>) <| socket := None |>).
  apply (R_trans _ p2).
  { apply (R_trans _ (p1 <| lastConnectionError := Some reason |>)); [by apply sim_silent|].
    by apply (sim_drop (p1 <| lastConnectionError := Some reason |>)). }
  clearbody p2.
  apply (R_trans _ (clearEpochHandoff p2)); [by apply sim_silent|].
  apply (R_trans _ (closeAndDetach s (clearEpochHandoff p2))); [apply closeAndDetach_sim|].
  set (p3 := closeAndDetach s (clearEpochHandoff p2)). clearbody p3.
  apply (R_trans _ (clearSocketTimers p3)); [by apply sim_silent|].
  set (p4 := clearSocketTimers p3). clearbody p4.
  set (p5 := if canContinue lc p4 then setStatus Error p4 else p4).
  apply (R_trans _ p5); [unfold p5; case_match; [apply setStatus_sim|apply R_refl]|]. clearbody p5.
  apply (R_trans _ (settleAttempt false p5)); [apply settleAttempt_sim|].
  case_match; [by apply sim_silent|apply R_refl].
Qed.

Lemma closeSocket_sim p : R p (closeSocket p).
Proof.
  unfold closeSocket.
  set (q := settleAttempt false (clearSocketTimers (clearEpochHandoff (p <| socket := None |>)))).
  assert (R p q) as Hq.
  { apply (R_trans _ (p <| socket := None |>)); [apply sim_drop|]. unfold q.
    apply (R_trans _ (clearSocketTimers (clearEpochHandoff (p <| socket := None |>)))); [by apply sim_silent|].
    apply settleAttempt_sim. }
  destruct (socket p) as [s|]; [|done]. by eapply R_trans; [|apply closeAndDetach_sim].
Qed.

Lemma send_sim m p : plain m = true → R p (send e m p).1.
Proof.
  intros Hm. destruct (send_cases e m p); simpl; [by apply sim_send|apply R_refl|apply failSocket_sim].
Qed.

Lemma checkSync_sim p : R p (checkSync e p).
Proof.
  unfold checkSync. destruct (receivedServerSyncStep1 p) eqn:Er; [|apply R_refl].
  destruct (send_cases e (OSyncStatus (localVersion p)) p) as [s Hs Ho Hb| |].
  - eapply R_trans; [by apply (sim_status p s)|by apply sim_silent].
  - apply R_refl.
  - apply failSocket_sim.
Qed.

Lemma resetHeartbeat_sim p : R p (resetHeartbeat e p).
Proof. apply sim_silent. unfold resetHeartbeat. by case_match. Qed.

Lemma broadcastAwareness_sim p : R p (broadcastAwareness e p).
Proof. unfold broadcastAwareness. destruct (hasPresence e); [by apply send_sim|apply R_refl]. Qed.

(** What follows a local change's update. *)
Lemma incremented_sim p : R (p <| localVersion ::= λ n, n + 1 |>) (incrementLocalVersion p).
Proof. unfold incrementLocalVersion. case_match; [apply R_refl|by apply sim_quiet]. Qed.

Lemma documentUpdated_sim p : R p (documentUpdated e p).
Proof.
  unfold documentUpdated. destruct (destroyed p); [apply R_refl|].
  destruct (readOnly p); [by apply sim_quiet|]. eapply R_trans; [|apply checkSync_sim].
  eapply R_trans; [|apply incremented_sim].
  destruct (send_cases e (OUpdate (localVersion p + 1)) p) as [s Hs Ho Hb|Hs|s Hs Hb]; simpl.
  - by apply sim_update.
  - by apply sim_bump.
  - eapply R_trans; [apply failSocket_sim|]. apply sim_bump.
    intros s' Hs'. exfalso. revert Hs'. rewrite failSocket_none; [done|done].
Qed.

Lemma awarenessUpdated_sim own p : R p (awarenessUpdated e own p).
Proof. unfold awarenessUpdated. case_match; [apply R_refl|by apply send_sim]. Qed.

Lemma finishEpochHandoff_sim p : (∀ n, pendingEpoch p = Some n → acc n) → R p (finishEpochHandoff e p).
Proof.
  intros Ha. unfold finishEpochHandoff.
  apply (R_trans _ (clearEpochHandoff p)); [by apply sim_silent|].
  set (q := clearEpochHandoff p). clearbody q.
  destruct (pendingEpoch p) as [n|]; [|apply R_refl]. specialize (Ha n eq_refl).
  destruct (socket q) as [s|]; [|apply R_refl].
  destruct (epochRefused e); [apply failSocket_sim|].
  destruct (send_cases e (OEpochAcknowledgement n) (record (EpochAccepted n) q)) as [s' Hs' Ho Hb|?|s' Hs' Hb]; simpl.
  - by apply sim_acknowledged.
  - by apply sim_accepted.
  - eapply R_trans; [by apply (sim_accepted q n)|apply failSocket_sim].
Qed.

Lemma acknowledgeVersion_sim v p :
  (∀ n, pendingEpoch p = Some n → localVersion p ≤ Z.max v (acknowledgedVersion p) →
    readOnlyDivergence p && readOnly p = false → acc n) →
  R p (acknowledgeVersion e v p).
Proof.
  intros Ha. unfold acknowledgeVersion.
  set (q1 := (if readOnly p then p else p <| readOnlyDivergence := false |>) <| acknowledgedVersion ::= Z.max v |>).
  assert (R p q1) as H1 by (apply sim_silent; unfold q1; by case_match).
  assert (pendingEpoch q1 = pendingEpoch p) as E1 by (unfold q1; by case_match).
  assert (hasLocalChanges q1 = false → localVersion p ≤ Z.max v (acknowledgedVersion p) ∧
    readOnlyDivergence p && readOnly p = false) as E2.
  { unfold q1, hasLocalChanges, awaitingAcknowledgement.
    destruct (readOnly p); simpl; intros Hq; [apply orb_false_iff in Hq as [? Hq]|]; apply Z.ltb_ge in Hq;
    rewrite ?andb_true_r, ?andb_false_r; split; done || lia. }
  clearbody q1.
  set (q2 := if hasLocalChanges p && negb (hasLocalChanges q1) then record (EmitLocalChanges false) q1 else q1).
  assert (R q1 q2) as H2 by (unfold q2; case_match; [by apply sim_quiet|apply R_refl]).
  assert (pendingEpoch q2 = pendingEpoch q1 ∧ hasLocalChanges q2 = hasLocalChanges q1) as [E3 E4] by (unfold q2; by case_match).
  clearbody q2. apply (R_trans _ q1); [done|]. apply (R_trans _ q2); [done|].
  destruct (bool_decide (is_Some (pendingEpoch q2)) && _) eqn:Ec; [|apply R_refl].
  apply andb_true_iff in Ec as [_ Ec%negb_true_iff]. rewrite E4 in Ec. destruct (E2 Ec). apply finishEpochHandoff_sim. intros n Hn. apply Ha; congruence || done.
Qed.

Lemma noteReadOnlyDivergence_sim b p : R p (noteReadOnlyDivergence b p).
Proof.
  unfold noteReadOnlyDivergence. destruct b; [|apply R_refl].
  eapply R_trans; [by apply (sim_silent p (p <| readOnlyDivergence := true |>))|].
  case_match; [apply R_refl|by apply sim_quiet].
Qed.

Lemma receiveSyncMessage_sim m p s : socket p = Some s → isOpenSocket s p = true → blocks e p = false →
  R p (receiveSyncMessage e m p).
Proof.
  intros Hs Ho Hb. destruct m as [structs| |]; simpl; [| |apply R_refl].
  - eapply R_trans; [by apply (sim_step1 p s)|]. eapply R_trans; [|apply checkSync_sim].
    unfold send. rewrite Hs, Ho, Hb. simpl.
    case_match; [apply noteReadOnlyDivergence_sim|apply R_refl].
  - eapply R_trans; [by apply (sim_silent p (clearHandshakeTimeout p))|].
    eapply R_trans; [apply setStatus_sim|apply settleAttempt_sim].
Qed.

Lemma receiveEpochProposal_sim n p : (hasLocalChanges p = false ∨ readOnly p = true → acc n) →
  R p (receiveEpochProposal e n p).
Proof.
  intros Ha. unfold receiveEpochProposal. set (q := p <| pendingEpoch := Some n |>).
  apply (R_trans _ q); [by apply sim_silent|].
  change (hasLocalChanges q) with (hasLocalChanges p). change (readOnly q) with (readOnly p).
  destruct (_ || _) eqn:Ec.
  - apply finishEpochHandoff_sim. intros n' [= <-]. apply Ha.
    apply orb_true_iff in Ec as [?%negb_true_iff|?]; auto.
  - eapply R_trans; [apply checkSync_sim|by apply sim_silent].
Qed.

Lemma receiveMessage_sim m p p' s : socket p = Some s → isOpenSocket s p = true → blocks e p = false →
  (∀ n, m = MEpochProposal (Some n) → hasLocalChanges p = false ∨ readOnly p = true → acc n) →
  (∀ v n, m = MSyncStatus v → pendingEpoch p = Some n → localVersion p ≤ Z.max v (acknowledgedVersion p) →
    readOnlyDivergence p && readOnly p = false → acc n) →
  receiveMessage e m p = Returns p' → R p p'.
Proof.
  intros Hs Ho Hb H1 H2. destruct m as [m| | |v|[n|]|[id|]| |]; simpl; intros E; simplify_eq; try apply R_refl.
  - by apply (receiveSyncMessage_sim m p s).
  - apply broadcastAwareness_sim.
  - apply acknowledgeVersion_sim. eauto.
  - case_match; simplify_eq. apply receiveEpochProposal_sim. eauto.
  - case_decide; simplify_eq. by apply sim_quiet.
Qed.

(** ** The reconnect loop *)

Lemma setPc_sim id c p : R p (setPc id c p).
Proof. by apply sim_silent. Qed.

Lemma sleep_sim id lc ms w next p : delay_ok ms → R p (sleep id lc ms w next p).
Proof.
  intros Hms. unfold sleep. case_match; [|apply setPc_sim].
  eapply R_trans; [by apply (sim_slept p ms)|by apply sim_silent].
Qed.

Lemma finishSleep_sim id p : R p (finishSleep id p).
Proof.
  apply sim_silent. unfold finishSleep. simpl. destruct (tasks p !! id) as [t|]; [|done]. by destruct (pc t).
Qed.

Lemma ensureClientToken_sim id p : R p (ensureClientToken e id p).
Proof.
  unfold ensureClientToken.
  match goal with |- R _ (match clientToken ?q with _ => _ end) => set (p1 := q) end.
  assert (R p p1) as H1 by (apply sim_silent; unfold p1; by repeat case_match).
  clearbody p1. destruct (clientToken p1); [by eapply R_trans; [|apply setPc_sim]|].
  eapply R_trans; [exact H1|]. eapply R_trans; [by apply (sim_quiet p1 MintedToken)|apply setPc_sim].
Qed.

Lemma loopHead_sim id lc p : R p (loopHead e id lc p).
Proof.
  unfold loopHead. case_match; [|apply setPc_sim]. destruct (hasGate p); [apply setPc_sim|apply ensureClientToken_sim].
Qed.

Lemma backoff_delay_ok n : delay_ok (backoff TOKEN_RETRY_MS n).
Proof.
  unfold backoff, delay_ok, TOKEN_RETRY_MS, MAX_TOKEN_RETRY_MS.
  assert (1 ≤ 2 ^ Z.of_nat n) by (pose proof (Z.pow_pos_nonneg 2 (Z.of_nat n)); lia).
  change 500%Q with (inject_Z 500). change 60000%Q with (inject_Z 60000).
  rewrite <- !Zle_Qle. lia.
Qed.

Lemma reconnect_delay_ok p : delay_ok (reconnectDelay p).
Proof.
  unfold reconnectDelay, delay_ok, RECONNECT_INITIAL_MS, MAX_RECONNECT_MS.
  set (q := Qpower (11 # 10) (Z.of_nat (retries p))).
  assert (1 <= q)%Q as Hq by (apply Qpower_1_le; [done|lia]).
  assert (500 <= 500 * q)%Q as H5 by (apply (Qmult_le_l 1 q 500) in Hq; [exact Hq|done]).
  change (inject_Z 500) with 500%Q. change (inject_Z 5000) with 5000%Q.
  destruct (Qle_bool (500 * q) 5000) eqn:E.
  - apply Qle_bool_iff in E. split; [done|]. by eapply Qle_trans; [exact E|discriminate].
  - split; discriminate.
Qed.

Lemma afterAttempts_sim id lc p : R p (afterAttempts e id lc p).
Proof.
  unfold afterAttempts.
  apply (R_trans _ (p <| clientToken := None |>)); [by apply sim_silent|].
  set (q := p <| clientToken := None |>). clearbody q.
  destruct (tokenRejected q); [|apply loopHead_sim].
  apply (R_trans _ (q <| tokenRejections ::= S |>)); [by apply sim_silent|].
  case_match; [apply sleep_sim, backoff_delay_ok|apply loopHead_sim].
Qed.

Lemma attemptConnection_sim id lc attempt t p : canContinue lc p = true →
  hasGate p && negb (gateOpen e) = false → R p (attemptConnection e id lc attempt t p).
Proof.
  intros Hc Hg. unfold attemptConnection. set (q := setStatus Connecting (closeSocket p)).
  assert (R p q) as Hq by (eapply R_trans; [apply closeSocket_sim|apply setStatus_sim]).
  assert (canContinue lc q = true ∧ hasGate q = hasGate p ∧ socket q = None) as (Hcq & Hgq & Hsq).
  { unfold q. destruct (setStatus_fields Connecting (closeSocket p)) as
      ((_ & _ & E3 & _ & _ & E6 & E7 & _ & _ & _ & _ & E12 & _ & _ & _ & _ & _ & E18) & _).
    destruct (closeSocket_fields p) as (Q1 & Q2 & Q3 & _ & _ & _ & _ & _ & _ & _ & Q11 & _ & _ & _ & _ & Q16 & _).
    simpl in *. unfold canContinue in *. rewrite E3, E6, E7, Q1, Q2, Q3. split_and!; congruence. }
  clearbody q. eapply R_trans; [exact Hq|].
  destruct (factoryFails e); [eapply R_trans; [apply setStatus_sim|apply setPc_sim]|].
  rewrite opened_eq by done. eapply R_trans; [apply (sim_open q lc); [by rewrite Hgq|done]|].
  apply sim_silent, withSocket_io.
Qed.

Lemma attemptRound_sim id lc attempt t p : canContinue lc p = true → R p (attemptRound e id lc attempt t p).
Proof.
  intros Hc. unfold attemptRound. case_match; [|apply afterAttempts_sim].
  destruct (_ && _) eqn:Hg; [apply loopHead_sim|].
  eapply R_trans; [by apply (sim_silent p (p <| tokenRejected := false |>))|]. by apply attemptConnection_sim.
Qed.

Lemma attemptDone_sim id lc attempt t connected p : R p (attemptDone e id lc attempt t connected p).
Proof.
  unfold attemptDone. case_match.
  - case_match; by apply sim_silent.
  - eapply R_trans; [by apply (sim_silent p (p <| retries ::= S |>))|].
    case_match; [apply afterAttempts_sim|apply sleep_sim, reconnect_delay_ok].
Qed.

Lemma tokenReceived_sim id lc t p : R p (tokenReceived e id lc t p).
Proof.
  unfold tokenReceived. eapply R_trans; [by apply (sim_silent p (p <| tokenFailures := 0%nat |>))|].
  case_match; [by apply attemptRound_sim|apply setPc_sim].
Qed.

Lemma tokenFailed_sim id lc err p : R p (tokenFailed id lc err p).
Proof.
  unfold tokenFailed. case_match; [|apply setPc_sim].
  eapply R_trans; [apply (setStatus_sim Error)|]. set (q := setStatus Error p). clearbody q.
  set (q1 := (q <| retries ::= S |>) <| lastConnectionError := Some (message err) |>).
  apply (R_trans _ q1); [by apply sim_silent|].
  assert (R q1 (q1 <| tokenFailures ::= S |>)) by (by apply sim_silent).
  destruct (kind err); [by apply sleep_sim| |];
    (eapply R_trans; [eassumption|apply sleep_sim, backoff_delay_ok]).
Qed.

Lemma tokenSettles_sim id lc reply p : R p (tokenSettles e id lc reply p).
Proof.
  unfold tokenSettles. destruct reply as [[t|]|err]; try apply tokenFailed_sim.
  case_match; [|apply tokenFailed_sim].
  eapply R_trans; [by apply (sim_silent p (p <| clientToken := Some t |>))|apply tokenReceived_sim].
Qed.

Lemma gateSettles_sim id lc reply p : R p (gateSettles e id lc reply p).
Proof.
  unfold gateSettles. destruct reply.
  - eapply R_trans; [by apply (sim_silent p (p <| gateFailures := 0%nat |>))|].
    case_match; [apply ensureClientToken_sim|apply setPc_sim].
  - case_match; [|apply setPc_sim]. eapply R_trans; [apply (setStatus_sim Error)|].
    set (q := setStatus Error p). clearbody q. eapply R_trans; [|apply sleep_sim, backoff_delay_ok].
    by apply sim_silent.
Qed.

Lemma resumeTask_sim id p : R p (resumeTask e id p).
Proof.
  unfold resumeTask. destruct (tasks p !! id) as [t|]; [|apply R_refl].
  destruct (pc t) as [| |tok|n tok|n tok b|next|[[n tok]|]|]; try apply R_refl.
  - apply tokenReceived_sim.
  - apply attemptDone_sim.
  - case_match; [by apply attemptRound_sim|apply setPc_sim].
  - apply loopHead_sim.
  - apply sim_silent. case_decide; by case_match.
Qed.

(** ** Public operations and events *)

Lemma connect_sim p : R p (connect e p).
Proof.
  unfold connect. case_match; [apply R_refl|].
  eapply R_trans; [by apply (sim_silent p (p <| shouldConnect := true |>))|].
  set (q := p <| shouldConnect := true |>). clearbody q.
  set (w := match wakeRetry q with Some id => finishSleep id q | None => q end).
  assert (R q w) as Hw by (unfold w; case_match; [apply finishSleep_sim|apply R_refl]). clearbody w.
  eapply R_trans; [exact Hw|]. case_match; [apply R_refl|].
  set (w1 := (w <| nextTask := S (nextTask w) |>) <| tasks ::= insert (nextTask w) (mkTask (lifecycle w) PFinally) |>).
  apply (R_trans _ w1); [by apply sim_silent|].
  apply (R_trans _ (loopHead e (nextTask w) (lifecycle w) (setStatus Connecting w1))).
  { eapply R_trans; [apply (setStatus_sim Connecting)|apply loopHead_sim]. }
  by apply sim_silent.
Qed.

Lemma cancelSleep_sim p : R p (cancelSleep p).
Proof. unfold cancelSleep. case_match; [apply finishSleep_sim|apply R_refl]. Qed.

Lemma closed_sim p : R p (setStatus Offline (closeSocket (cancelSleep p))).
Proof.
  eapply R_trans; [apply cancelSleep_sim|]. eapply R_trans; [apply closeSocket_sim|apply setStatus_sim].
Qed.

Lemma disconnect_sim p : R p (disconnect p).
Proof.
  unfold disconnect. case_match; [apply R_refl|]. eapply R_trans; [|apply closed_sim]. by apply sim_silent.
Qed.

Lemma destroy_sim p : R p (destroy p).
Proof.
  unfold destroy. case_match; [apply R_refl|]. eapply R_trans; [|apply closed_sim]. by apply sim_silent.
Qed.

Lemma onOpen_sim s lc p : R p (onOpen e s lc p).
Proof.
  unfold onOpen. case_match; [|apply R_refl].
  eapply R_trans; [apply (setStatus_sim Handshaking)|].
  eapply R_trans; [by apply (send_sim OSyncStep1)|].
  eapply R_trans; [apply broadcastAwareness_sim|].
  eapply R_trans; [apply resetHeartbeat_sim|]. by apply sim_silent.
Qed.

Lemma onMessage_sim s lc m p : isOpenSocket s p = true →
  (∀ n, m = MEpochProposal (Some n) → hasLocalChanges p = false ∨ readOnly p = true → acc n) →
  (∀ v n, m = MSyncStatus v → pendingEpoch p = Some n → localVersion p ≤ Z.max v (acknowledgedVersion p) →
    readOnlyDivergence p && readOnly p = false → acc n) →
  R p (onMessage e s lc m p).
Proof.
  intros Ho H1 H2. unfold onMessage. destruct (isCurrentSocket s lc p) eqn:Ec; [|apply R_refl].
  apply isCurrentSocket_iff in Ec as [Hs _].
  destruct (blocks e p) eqn:Hb; [apply failSocket_sim|].
  destruct (receiveMessage e m p) as [p'|err] eqn:Er; [|apply failSocket_sim].
  eapply R_trans; [by eapply (receiveMessage_sim m p p' s)|].
  eapply R_trans; [by apply (sim_silent p' (clearResponseTimeout p'))|apply resetHeartbeat_sim].
Qed.

Lemma onError_sim s lc b p : R p (onError e s lc b p).
Proof. unfold onError. eapply R_trans; [|apply failSocket_sim]. apply sim_silent. by case_match. Qed.

Lemma handshakeTimeout_sim p : R p (handshakeTimeout e p).
Proof.
  unfold handshakeTimeout. destruct (handshakeTimer p); [|apply R_refl].
  apply (R_trans _ (clearHandshakeTimeout p)); [by apply sim_silent|].
  case_decide; [apply R_refl|apply failSocket_sim].
Qed.

Lemma heartbeatFires_sim p : R p (heartbeatFires e p).
Proof.
  unfold heartbeatFires. destruct (heartbeatTimer p); [|apply R_refl].
  apply (R_trans _ (p <| heartbeatTimer := None |>)); [by apply sim_silent|].
  case_match; [apply checkSync_sim|by apply (send_sim OSyncStep1)].
Qed.

Lemma responseTimeout_sim p : R p (responseTimeout e p).
Proof.
  unfold responseTimeout. destruct (responseTimer p); [|apply R_refl].
  destruct (socket p); [apply failSocket_sim|apply R_refl].
Qed.

(** The events at which epoch [n] may be accepted. *)
Definition may_accept (ev : Event) (p : Provider) (n : Z) : Prop :=
  match ev with
  | SocketMessage _ (MEpochProposal (Some n')) => n = n' ∧ (hasLocalChanges p = false ∨ readOnly p = true)
  | SocketMessage _ (MSyncStatus v) =>
    pendingEpoch p = Some n ∧ localVersion p ≤ Z.max v (acknowledgedVersion p) ∧
    readOnlyDivergence p && readOnly p = false
  | EpochFlushFires => pendingEpoch p = Some n ∧ epochFlushTimer p = true
  | _ => False
  end.

Lemma onSocket_sim s f p : (∀ lc, R p (f lc p)) → R p (onSocket s f p).
Proof. intros Hf. unfold onSocket. destruct (sockets p !! s); [|apply R_refl]. case_match; [done|apply R_refl]. Qed.

Lemma handle_sim ev p : (∀ n, may_accept ev p n → acc n) → R p (handle ev e p).
Proof.
  intros Ha. destruct ev as [| | | | |own|s|s m|s b|s code reason|s|id reply|id reply|id| | | | |]; simpl in *.
  - apply connect_sim.
  - apply disconnect_sim.
  - apply destroy_sim.
  - case_match; [apply R_refl|]. eapply R_trans; [|apply connect_sim]. by apply sim_silent.
  - apply documentUpdated_sim.
  - apply awarenessUpdated_sim.
  - destruct (sockets p !! s) as [k|] eqn:Ek; [|apply R_refl]. case_decide; [|apply R_refl].
    eapply R_trans; [by eapply sim_opens|]. apply onSocket_sim. intros. apply onOpen_sim.
  - destruct (isOpenSocket s p) eqn:Ho; [|apply R_refl]. apply onSocket_sim. intros lc.
    apply onMessage_sim; [done|..].
    + intros n ->. simpl in Ha. auto.
    + intros v n ->. simpl in Ha. auto.
  - apply onSocket_sim. intros. apply onError_sim.
  - eapply R_trans; [apply (sim_close p s)|]. apply onSocket_sim. intros. apply failSocket_sim.
  - apply sim_close.
  - destruct (tasks p !! id) as [t|]; [|apply R_refl]. destruct (pc t); try apply R_refl. apply gateSettles_sim.
  - destruct (tasks p !! id) as [t|]; [|apply R_refl]. destruct (pc t); try apply R_refl. apply tokenSettles_sim.
  - apply resumeTask_sim.
  - case_match; [apply finishSleep_sim|apply R_refl].
  - apply handshakeTimeout_sim.
  - apply heartbeatFires_sim.
  - apply responseTimeout_sim.
  - destruct (epochFlushTimer p) eqn:Ef; [|apply R_refl]. apply finishEpochHandoff_sim. auto.
Qed.
End Simulation.
