(* ===== verification/ProviderSpec.v ===== *)
(** What the document transport guarantees: it never stops trying while a
    connection is wanted, it holds one socket, it writes and connects only
    when the gate allows, and a probe the server answers covers every local
    change up to its version. *)
From Stdlib Require Import String QArith.
From S2P Require Import Prelude Token Provider ProviderFacts ProviderSim.
#[local] Open Scope Z_scope.

(** ** The log only grows, and by what the event allows *)

(** What one event may add to the log. *)
Definition effect_ok (e : Env) (acc : Z → Prop) (gated : bool) (f : Effect) : Prop :=
  match f with
  | Sent s (OEpochAcknowledgement n) => acc n ∧ gated && gateBlocks e = false
  | Sent _ _ => gated && gateBlocks e = false
  | SocketOpened _ => gated && negb (gateOpen e) = false
  | EpochAccepted n => acc n
  | Slept ms => delay_ok ms
  | _ => True
  end.

Definition extends (e : Env) (acc : Z → Prop) (p p' : Provider) : Prop :=
  hasGate p' = hasGate p ∧ ∃ new, log p' = log p ++ new ∧ Forall (effect_ok e acc (hasGate p)) new.

#[local] Instance extends_pre e acc : PreOrder (extends e acc).
Proof.
  split.
  - intros p. split; [done|]. exists []. by rewrite app_nil_r.
  - intros p1 p2 p3 (E1 & n1 & L1 & F1) (E2 & n2 & L2 & F2). split; [congruence|].
    exists (n1 ++ n2). rewrite L2, L1, (assoc_L (++)). split; [done|]. rewrite E1 in F2. by apply Forall_app.
Qed.

Lemma extends_one e acc p p' f : log p' = log p ++ [f] → hasGate p' = hasGate p →
  effect_ok e acc (hasGate p) f → extends e acc p p'.
Proof. intros Hl Hg Hf. split; [done|]. exists [f]. split; [done|by constructor]. Qed.

Lemma extends_none e acc p p' : log p' = log p → hasGate p' = hasGate p → extends e acc p p'.
Proof. intros Hl Hg. split; [done|]. exists []. by rewrite app_nil_r. Qed.

#[local] Instance extends_simulation e acc : Simulation e acc (extends e acc).
Proof.
  split.
  - apply _.
  - intros p p' (? & ? & _). by apply extends_none.
  - intros p f Hf. apply (extends_one _ _ _ _ f); [done..|]. by destruct f.
  - intros p ms ?. by apply (extends_one _ _ _ _ (Slept ms)).
  - intros p n ?. by apply (extends_one _ _ _ _ (EpochAccepted n)).
  - intros p s n Ha Hs Hb. split; [done|]. exists [EpochAccepted n; Sent s (OEpochAcknowledgement n)]. simpl.
    rewrite <- (assoc_L (++)). split; [done|]. by repeat constructor.
  - intros p s m Hm Hs Hb. apply (extends_one _ _ _ _ (Sent s m)); [done..|]. by destruct m.
  - intros p s Hs Ho Hb Hr. by apply (extends_one _ _ _ _ (Sent s (OSyncStatus (localVersion p)))).
  - intros p s Hs Ho Hb. by apply (extends_one _ _ _ _ (Sent s (OSyncStep2 (localVersion p)))).
  - intros p s Hs Ho Hb. by apply (extends_one _ _ _ _ (Sent s (OUpdate (localVersion p + 1)))).
  - intros. by apply extends_none.
  - intros. by apply extends_none.
  - intros. by apply extends_none.
  - intros. by apply extends_none.
  - intros. by apply extends_none.
  - intros p lc Hg Hs. by apply (extends_one _ _ _ _ (SocketOpened (nextSocket p))).
Qed.

Lemma handle_extends ev e p : extends e (may_accept ev p) p (handle ev e p).
Proof. by apply handle_sim. Qed.

Lemma provider_run_snoc documentId gated evs ev e :
  run documentId gated (evs ++ [(ev, e)]) = handle ev e (run documentId gated evs).
Proof. unfold run. by rewrite foldl_app. Qed.

Lemma run_hasGate documentId gated evs : hasGate (run documentId gated evs) = gated.
Proof.
  induction evs as [|[ev e] evs IH] using rev_ind; [done|].
  rewrite provider_run_snoc. destruct (handle_extends ev e (run documentId gated evs)) as [-> _]. done.
Qed.

(** while one event is handled, the provider writes to the server and
    opens sockets only if its connection gate allows it: a message only when
    the gate does not block traffic, a socket only when the gate is open.  The
    log of what was done before is left as it is. *)
Theorem gate_guards_traffic documentId gated evs ev e :
  let p := run documentId gated evs in
  ∃ new, log (handle ev e p) = log p ++ new ∧
    (∀ s m, Sent s m ∈ new → gated && gateBlocks e = false) ∧
    (∀ s, SocketOpened s ∈ new → gated && negb (gateOpen e) = false).
Proof.
  intros p. destruct (handle_extends ev e p) as (_ & new & Hl & Hf).
  assert (hasGate p = gated) as Eg by apply run_hasGate. rewrite Eg in Hf.
  exists new. split; [done|]. rewrite Forall_forall in Hf. split.
  - intros s m Hin. specialize (Hf _ Hin). destruct m; simpl in Hf; tauto.
  - intros s Hin. apply (Hf _ Hin).
Qed.

(** an epoch proposal is accepted, and its acknowledgement sent, only by
    an event that may: the proposal itself when no local change is
    unconfirmed or the connection is read-only, the server's confirmation of
    the last local change, or the flush timeout of a proposal still pending. *)
Theorem epoch_accepted_when_flushed documentId gated evs ev e :
  let p := run documentId gated evs in
  ∃ new, log (handle ev e p) = log p ++ new ∧
    ∀ n, EpochAccepted n ∈ new ∨ (∃ s, Sent s (OEpochAcknowledgement n) ∈ new) → may_accept ev p n.
Proof.
  intros p. destruct (handle_extends ev e p) as (_ & new & Hl & Hf).
  exists new. split; [done|]. rewrite Forall_forall in Hf.
  intros n [Hin|[s Hin]]; apply (Hf _ Hin).
Qed.

(** Every wait between connection attempts lasts at least half a second
    and at most a minute, whatever failed and how often. *)
Theorem retry_waits_bounded documentId gated evs ms :
  Slept ms ∈ log (run documentId gated evs) → (500 <= ms)%Q ∧ (ms <= 60000)%Q.
Proof.
  induction evs as [|[ev e] evs IH] using rev_ind; [by intros ?%elem_of_nil|].
  rewrite provider_run_snoc. destruct (handle_extends ev e (run documentId gated evs)) as (_ & new & -> & Hf).
  rewrite elem_of_app. intros [?|Hin]; [auto|]. rewrite Forall_forall in Hf. apply (Hf _ Hin).
Qed.

(** ** Probes *)

(** Everything up to local change [v] was written to socket [s]: the step 2
    of some version, and the update of each later change. *)
Definition covered (s : nat) (v : Z) (l : list Effect) : Prop :=
  ∃ w, Sent s (OSyncStep2 w) ∈ l ∧ ∀ k, w < k ≤ v → Sent s (OUpdate k) ∈ l.

Definition probes_covered (l : list Effect) : Prop :=
  ∀ l1 s v l2, l = l1 ++ Sent s (OSyncStatus v) :: l2 → covered s v l1.

Definition probe_inv (p : Provider) : Prop :=
  probes_covered (log p) ∧ ∀ s k, socket p = Some s → sockets p !! s = Some k → receivedServerSyncStep1 p = true →
    readyState k ≠ RConnecting ∧ (readyState k = ROpen → covered s (localVersion p) (log p)).

Lemma covered_mono s v l l' : covered s v l → covered s v (l ++ l').
Proof. intros (w & Hw & Hu). exists w. setoid_rewrite elem_of_app. auto. Qed.

Lemma snoc_split {A} (l : list A) x l1 y l2 : l ++ [x] = l1 ++ y :: l2 →
  l = l1 ∧ x = y ∧ l2 = [] ∨ ∃ l2', l2 = l2' ++ [x] ∧ l = l1 ++ y :: l2'.
Proof.
  destruct (exists_last (l := y :: l2)) as (l2' & z & E); [done|].
  intros H. rewrite E, (assoc_L (++)) in H. apply app_inj_tail in H as [-> ->].
  destruct l2' as [|y' l2']; simplify_eq/=; [left; by rewrite app_nil_r|right; by exists l2'].
Qed.

Lemma probes_covered_snoc l f : probes_covered l →
  (∀ s v, f = Sent s (OSyncStatus v) → covered s v l) → probes_covered (l ++ [f]).
Proof.
  intros Hl Hf l1 s v l2 [(-> & -> & _)|(l2' & _ & ->)]%snoc_split; [by apply Hf|]. by eapply Hl.
Qed.

Lemma probe_inv_record p f : (∀ s v, f = Sent s (OSyncStatus v) → covered s v (log p)) →
  probe_inv p → probe_inv (record f p).
Proof.
  intros Hf [Hl Hs]. split; [by apply probes_covered_snoc|].
  intros s k H1 H2 H3. destruct (Hs s k H1 H2 H3) as [? Hc]. split; [done|].
  intros Ho. by apply covered_mono, Hc.
Qed.

Lemma open_covered p s : probe_inv p → socket p = Some s → isOpenSocket s p = true → receivedServerSyncStep1 p = true →
  covered s (localVersion p) (log p).
Proof.
  intros [_ H] Hs Ho Hr. unfold isOpenSocket in Ho. destruct (sockets p !! s) as [k|] eqn:Ek; [|done].
  apply bool_decide_eq_true in Ho. by apply (H s k).
Qed.

Lemma isOpenSocket_state s p : isOpenSocket s p = true ↔ ∃ k, sockets p !! s = Some k ∧ readyState k = ROpen.
Proof.
  unfold isOpenSocket. destruct (sockets p !! s) as [k|]; [rewrite bool_decide_eq_true|]; naive_solver.
Qed.

#[local] Instance probe_simulation e acc : Simulation e acc (λ p p', probe_inv p → probe_inv p').
Proof.
  split.
  - split; [by intros p|]. intros p1 p2 p3 H1 H2 H. auto.
  - intros p p' (E1 & E2 & E3 & E4 & E5 & E6). unfold probe_inv. by rewrite E1, E3, E4, E5, E6.
  - intros p f Hf. apply probe_inv_record. by intros s v ->.
  - intros p ms _. by apply probe_inv_record.
  - intros p n _. by apply probe_inv_record.
  - intros p s n _ _ _ H. by apply probe_inv_record; [|apply probe_inv_record].
  - intros p s m Hm _ _. apply probe_inv_record. by intros ? ? [= -> ->].
  - intros p s Hs Ho _ Hr H. apply probe_inv_record; [|done]. intros s' v [= <- <-]. by apply open_covered.
  - intros p s Hs Ho _ H. split; [by apply probes_covered_snoc; [apply H|]|]. simpl. rewrite Hs.
    intros s' k [= <-] Hk _. apply isOpenSocket_state in Ho as (k' & Hk' & Ho). simplify_eq. split; [by rewrite Ho|].
    intros _. exists (localVersion p). split; [|lia]. apply elem_of_app. right. by left.
  - intros p s Hs Ho _ H. split; [by apply probes_covered_snoc; [apply H|]|]. simpl. rewrite Hs.
    intros s' k [= <-] Hk Hr. pose proof (open_covered p s H Hs Ho Hr) as (w & Hw & Hu).
    apply isOpenSocket_state in Ho as (k' & Hk' & Ho). simplify_eq. split; [by rewrite Ho|].
    intros _. exists w. split; [by apply elem_of_app; left|]. intros n Hn. apply elem_of_app.
    destruct (decide (n = localVersion p + 1)) as [->|]; [right; by left|left; apply Hu; lia].
  - intros p Ho [H1 H2]. split; [done|]. simpl. intros s k Hs Hk Hr. destruct (H2 s k Hs Hk Hr) as [? _].
    split; [done|]. intros Hop. specialize (Ho s Hs). unfold isOpenSocket in Ho. rewrite Hk in Ho.
    by apply bool_decide_eq_false in Ho.
  - intros p [H1 H2]. by split.
  - intros p s [H1 H2]. split; [done|]. simpl. intros s' k Hs Hk Hr.
    destruct (decide (s' = s)) as [->|Hne].
    + rewrite lookup_alter_eq in Hk. apply fmap_Some in Hk as (k' & _ & ->). done.
    + rewrite lookup_alter_ne in Hk by done. by apply H2.
  - intros p s [H1 H2]. split; [done|]. simpl. intros s' k Hs Hk Hr.
    destruct (decide (s' = s)) as [->|Hne].
    + rewrite lookup_alter_eq in Hk. apply fmap_Some in Hk as (k' & _ & ->). done.
    + rewrite lookup_alter_ne in Hk by done. by apply H2.
  - intros p s k0 Hk0 Hst [H1 H2]. split; [done|]. simpl. intros s' k Hs Hk Hr.
    destruct (decide (s' = s)) as [->|Hne].
    + by destruct (H2 s k0 Hs Hk0 Hr).
    + rewrite lookup_alter_ne in Hk by done. by apply H2.
  - intros p lc _ _ [H1 H2]. split; [by apply probes_covered_snoc|done].
Qed.

(** C31: whenever the provider asks the server to confirm version [v], it has
    written on that same socket, before the probe, the document's step 2 and
    every later local change up to [v].  The server answers in order, so a
    confirmation means the changes have reached it. *)
Theorem probe_covers_changes documentId gated evs l1 s v l2 :
  log (run documentId gated evs) = l1 ++ Sent s (OSyncStatus v) :: l2 →
  ∃ w, Sent s (OSyncStep2 w) ∈ l1 ∧ ∀ k, w < k ≤ v → Sent s (OUpdate k) ∈ l1.
Proof.
  intros Hl. assert (probe_inv (run documentId gated evs)) as [H _]; [|by apply (H l1 s v l2)].
  clear Hl. unfold run. assert (probe_inv (newProvider documentId gated)) as Hn.
  { split; [|done]. intros l3 s' v' l4 Hl. by destruct l3. }
  revert Hn. generalize (newProvider documentId gated).
  induction evs as [|[ev e] evs IH]; intros p Hp; [done|]. apply IH.
  by apply (handle_sim (e := e) (acc := λ _, True) (R := λ p p', probe_inv p → probe_inv p')).
Qed.

(** ** The connection *)

(** What ends the wait of a task. *)
Definition wait_armed (p : Provider) (id : nat) (t : Task) : Prop :=
  match pc t with
  | PSleep next => retryTimer p = Some id
  | PAttempt n tok => ∃ s why, socket p = Some s ∧ handshakeTimer p = Some (mkHT s (lifecycle p) why)
  | _ => True
  end.

(** C13: while a connection is wanted and not established, the provider is
    never stranded: a connect is queued, or one task of this lifecycle runs
    the loop, it is the only one, and what it waits for is armed: the retry
    timer while it sleeps, the handshake timer of its own socket while it
    tries one. *)
Theorem wanted_connection_in_progress documentId gated evs :
  let p := run documentId gated evs in
  shouldConnect p = true → status p ≠ Connected →
  (0 < queuedConnects p)%nat ∨
  ∃ id t, connectTask p = Some id ∧ tasks p !! id = Some t ∧ taskLifecycle t = lifecycle p ∧ wait_armed p id t ∧
    ∀ id' t', tasks p !! id' = Some t' → taskLifecycle t' = lifecycle p → id' = id.
Proof.
  intros p Hw Hst. pose proof (provider_run_inv documentId gated evs) as H. fold p in H. clearbody p.
  destruct (i_wanted _ _ H Hw Hst) as [[id Hid]|?]; [right|by left].
  destruct (i_task _ _ H id Hid) as (t & Ht & El). exists id, t.
  split; [done|]. split; [done|]. split; [by rewrite El; apply (i_taskLifecycle _ _ H); [|eexists]|]. split.
  - pose proof (i_backed _ _ H id t ltac:(done) Ht) as Hb. unfold backed, wait_armed in *. destruct (pc t); try done.
    + by destruct Hb as (_ & _ & _ & ?).
    + by destruct Hb.
  - intros id' t' Ht' El'. pose proof (i_current _ _ H id' t' Ht' El'). congruence.
Qed.

(** A wait that is armed ends: the retry timer wakes the sleeping task to
    its next attempt, and the handshake timer fails the attempt it bounds. *)
Theorem armed_waits_end documentId gated evs id t e :
  let p := run documentId gated evs in
  tasks p !! id = Some t →
  match pc t with
  | PSleep next => tasks (handle RetryFires e p) !! id = Some (t <| pc := PWoken next |>)
  | PAttempt n tok => tasks (handle HandshakeFires e p) !! id = Some (t <| pc := PAttempted n tok false |>)
  | _ => True
  end.
Proof.
  intros p Ht. pose proof (provider_run_inv documentId gated evs) as H. fold p in H. clearbody p.
  pose proof (i_backed _ _ H id t ltac:(done) Ht) as Hb. unfold backed in Hb.
  destruct (pc t) as [| | |n tok| |next| |] eqn:Ep; try done.
  - destruct Hb as (Hc & _ & Hst & s & why & Hs & Hh). simpl. unfold handshakeTimeout. rewrite Hh. simpl.
    rewrite decide_False by done. unfold clearHandshakeTimeout. rewrite failSocket_handshake by done.
    by apply (d_settled _ _ (failSocket_dropped None e s why p H Hs)).
  - destruct Hb as [Hr _]. simpl. rewrite Hr. unfold finishSleep. simpl. rewrite Ht, Ep. simpl.
    by rewrite lookup_alter_eq, Ht.
Qed.

(** C32: at most one socket still has the provider's handlers, the current one;
    it was opened by this lifecycle, and none is left once the connection is
    not wanted or the provider is destroyed. *)
Theorem one_live_socket documentId gated evs s k :
  let p := run documentId gated evs in
  sockets p !! s = Some k → attached k = true →
  socket p = Some s ∧ socketLifecycle k = lifecycle p ∧ shouldConnect p = true ∧ destroyed p = false.
Proof.
  intros p Hk Ha. pose proof (provider_run_inv documentId gated evs) as H. fold p in H. clearbody p.
  destruct (i_attached _ _ H s k Hk) as [_ Hs]. specialize (Hs Ha).
  destruct (i_socket _ _ H s Hs) as ((? & ? & _)%canContinue_iff & k' & ? & _ & ?). by simplify_eq.
Qed.

(** ** Witnesses *)

Module ProviderRun.
Definition doc : string := "v1-d1".
Definition tok : ClientToken := mkToken "wss://h/d" "https://h" doc None None (Some 1) false None.
Definition env : Env := mkEnv 0 true false true true false false.

(** Connect, mint a token, open socket 0. *)
Definition opening : list (Event * Env) :=
  map (λ ev, (ev, env)) [CallConnect; TokenSettles 0 (Returns (Some tok))].

(** The handshake, two local changes, and the server's confirmation. *)
Definition synced : list (Event * Env) :=
  opening ++ map (λ ev, (ev, env))
    [SocketOpens 0; SocketMessage 0 (MSync (SStep1 true)); SocketMessage 0 (MSync SStep2);
     DocumentUpdated; DocumentUpdated; SocketMessage 0 (MSyncStatus 2)].

(** The token cannot be minted: the loop sleeps. *)
Definition sleeping : list (Event * Env) :=
  map (λ ev, (ev, env)) [CallConnect; TokenSettles 0 (Throws (mkMintError HttpRefusal "403"))].
End ProviderRun.
Import ProviderRun.

Example synced_run :
  status (run doc false synced) = Connected ∧ hasLocalChanges (run doc false synced) = false ∧
  Sent 0 (OUpdate 2) ∈ log (run doc false synced).
Proof. split_and!; [reflexivity..|]. vm_compute. repeat constructor. Qed.

Lemma wanted_connection_in_progress_witness :
  let p := run doc false opening in
  (0 < queuedConnects p)%nat ∨
  ∃ id t, connectTask p = Some id ∧ tasks p !! id = Some t ∧ taskLifecycle t = lifecycle p ∧ wait_armed p id t ∧
    ∀ id' t', tasks p !! id' = Some t' → taskLifecycle t' = lifecycle p → id' = id.
Proof.
  apply (wanted_connection_in_progress doc false opening); [reflexivity|vm_compute; discriminate].
Defined.

Lemma retry_waits_bounded_witness : (500 <= 3000)%Q ∧ (3000 <= 60000)%Q.
Proof. apply (retry_waits_bounded doc false sleeping). vm_compute. repeat constructor. Defined.

Lemma probe_covers_changes_witness :
  let l := log (run doc false synced) in
  ∃ w, Sent 0 (OSyncStep2 w) ∈ take (length l - 2) l ∧
    ∀ k, w < k ≤ 2 → Sent 0 (OUpdate k) ∈ take (length l - 2) l.
Proof.
  apply (probe_covers_changes doc false synced _ 0%nat 2 [EmitLocalChanges false]).
  vm_compute. reflexivity.
Defined.

Lemma armed_waits_end_witness :
  tasks (handle HandshakeFires env (run doc false opening)) !! 0%nat = Some (mkTask 0 (PAttempted 0 tok false)).
Proof.
  apply (armed_waits_end doc false opening 0%nat (mkTask 0 (PAttempt 0 tok)) env). vm_compute. reflexivity.
Defined.

Lemma one_live_socket_witness :
  let p := run doc false synced in
  socket p = Some 0%nat ∧ 0 = lifecycle p ∧ shouldConnect p = true ∧ destroyed p = false.
Proof.
  apply (one_live_socket doc false synced 0%nat (mkSocket ROpen true 0)); [vm_compute; reflexivity|reflexivity].
Defined.
