(* ===== verification/BootstrapLog.v ===== *)
(** [src/bootstrapEvents.ts]: the vault events captured before the initial
    sync, folded into one entry per current path, and the plan that replays
    their net effect. *)
From Stdlib Require Import String.
From S2P Require Import Prelude JsMap.

(** A [TAbstractFile] is a reference to an object of the platform, whose
    [path] is always its current one. *)
Definition TAbstractFile : Type := nat.

Record CapturedPath := mkCaptured { origin : option string; file : TAbstractFile; modified : bool }.
#[export] Instance eta_CapturedPath : Eta CapturedPath := λ e, mkCaptured (origin e) (file e) (modified e).

Inductive BootstrapReplayStep :=
  | RDelete (path : string)
  | RRename (from : string) (file : TAbstractFile)
  | RCreate (file : TAbstractFile)
  | RModify (file : TAbstractFile).

Record BootstrapEventLog := mkLog {
  current : jsmap string CapturedPath;
  movedFrom : jsmap string string;
  deleted : jsset string }.
#[export] Instance eta_Log : Eta BootstrapEventLog := λ l, mkLog (current l) (movedFrom l) (deleted l).

Definition newLog : BootstrapEventLog := mkLog [] [] [].

Definition isEmpty (l : BootstrapEventLog) : bool :=
  (jm_size (current l) =? 0) && (zlength (deleted l) =? 0).

Definition originOf (path : string) (l : BootstrapEventLog) : option string :=
  match jm_get path (current l) with Some entry => origin entry | None => Some path end.

Definition create (path : string) (f : TAbstractFile) (l : BootstrapEventLog) : BootstrapEventLog :=
  let replaces := js_mem path (deleted l) in
  let l := l <| deleted ::= js_remove path |> in
  l <| current ::= jm_set path (mkCaptured (if replaces then Some path else None) f replaces) |>.

Definition modify (path : string) (f : TAbstractFile) (l : BootstrapEventLog) : BootstrapEventLog :=
  match jm_get path (current l) with
  | Some entry => l <| current ::= jm_set path ((entry <| modified := true |>) <| file := f |>) |>
  | None => l <| current ::= jm_set path (mkCaptured (Some path) f true) |>
  end.

Definition delete (path : string) (l : BootstrapEventLog) : BootstrapEventLog :=
  let from := originOf path l in
  let l := l <| current ::= jm_delete path |> in
  match from with
  | None => l
  | Some from => (l <| movedFrom ::= jm_delete from |>) <| deleted ::= js_add from |>
  end.

Definition rename (oldPath newPath : string) (f : TAbstractFile) (l : BootstrapEventLog) : BootstrapEventLog :=
  let entry := jm_get oldPath (current l) in
  let from := match entry with Some e => origin e | None => Some oldPath end in
  let l := l <| current ::= jm_delete oldPath |> in
  let l := l <| current ::= jm_set newPath
             (mkCaptured from f (match entry with Some e => modified e | None => false end)) |> in
  match from with
  | None => l
  | Some from =>
    if decide (from = newPath) then l <| movedFrom ::= jm_delete from |>
    else l <| movedFrom ::= jm_set from newPath |>
  end.

Definition removed (path : string) (l : BootstrapEventLog) : bool :=
  negb (jm_has path (current l)) && (js_mem path (deleted l) || jm_has path (movedFrom l)).

(** An origin is a path, so never the empty string. *)
Definition renamedFrom (path : string) (l : BootstrapEventLog) : option string :=
  match jm_get path (current l) with
  | Some entry =>
    match origin entry with
    | Some from => if decide (from = ""%string) then None else if decide (from = path) then None else Some from
    | None => None
    end
  | None => None
  end.

(** ** The plan *)

Record PendingRename := mkPending { from : string; to : string; pfile : TAbstractFile }.
#[export] Instance PendingRename_eq_dec : EqDecision PendingRename.
Proof. solve_decision. Defined.

Definition pendingOf (l : BootstrapEventLog) : list PendingRename :=
  omap (λ '(path, entry),
    match origin entry with
    | Some from => if decide (from = path) then None else Some (mkPending from path (file entry))
    | None => None
    end) (current l).

Definition vacating (pending : list PendingRename) : list string := map from pending.

Definition isReady (pending : list PendingRename) (r : PendingRename) : bool :=
  negb (js_mem (to r) (vacating pending)).

(** The [while] loop: the renames it plans, and those left that only swap. *)
Fixpoint drain (fuel : nat) (pending : list PendingRename) : list BootstrapReplayStep * list PendingRename :=
  match fuel, pending with
  | _, [] => ([], [])
  | O, _ => ([], pending)
  | S fuel, _ =>
    let ready := filter (λ r, isReady pending r) pending in
    match ready with
    | [] => ([], pending)
    | _ =>
      let '(steps, stuck) := drain fuel (filter (λ r, r ∉ ready) pending) in
      (map (λ r, RRename (from r) (pfile r)) ready ++ steps, stuck)
    end
  end.

(** The final loop over the current paths. *)
Definition settle (x : string * CapturedPath) : option BootstrapReplayStep :=
  let '(path, entry) := x in
  match origin entry with
  | None => Some (RCreate (file entry))
  | Some from => if bool_decide (from = path) && modified entry then Some (RModify (file entry)) else None
  end.

Definition plan (l : BootstrapEventLog) : list BootstrapReplayStep :=
  let pending := pendingOf l in
  let '(renames, stuck) := drain (length pending) pending in
  map RDelete (deleted l) ++ renames ++ omap settle (current l) ++ map (λ r, RModify (pfile r)) stuck.

(** ** The captured events *)

Inductive VaultEvent :=
  | Created (path : string) (f : TAbstractFile)
  | Modified (path : string) (f : TAbstractFile)
  | Deleted (path : string)
  | Renamed (oldPath newPath : string) (f : TAbstractFile).

Definition capture (ev : VaultEvent) (l : BootstrapEventLog) : BootstrapEventLog :=
  match ev with
  | Created path f => create path f l
  | Modified path f => modify path f l
  | Deleted path => delete path l
  | Renamed oldPath newPath f => rename oldPath newPath f l
  end.
