(* ===== verification/BootstrapSpec.v ===== *)
(** What the captured log is for: it knows, for every path, which document the
    file there continues, and its plan turns the index of before the window
    into the vault of after it. *)
From Stdlib Require Import String.
From S2P Require Import Prelude JsMap BootstrapLog.

(** ** The vault

    What the events mean: which file is at each path and the document it
    continues ([None]: a new one), and the documents whose file was deleted.
    Documents are named by their path when the window opened. *)

Record Vault := mkVault { files : gmap string (TAbstractFile * option string); gone : gset string }.

Definition opened (files0 : gmap string TAbstractFile) : Vault :=
  mkVault (map_imap (λ p f, Some (f, Some p)) files0) ∅.

(** A file created where a document was deleted continues it. *)
Inductive vault_step (v : Vault) : VaultEvent → Vault → Prop :=
  | vault_create p f : files v !! p = None →
      vault_step v (Created p f)
        (mkVault (<[p := (f, if decide (p ∈ gone v) then Some p else None)]> (files v)) (gone v ∖ {[p]}))
  | vault_modify p f o : files v !! p = Some (f, o) → vault_step v (Modified p f) v
  | vault_delete p f o : files v !! p = Some (f, o) →
      vault_step v (Deleted p) (mkVault (base.delete p (files v)) (from_option (λ d, {[d]}) ∅ o ∪ gone v))
  | vault_rename p q f o : files v !! p = Some (f, o) → files v !! q = None →
      vault_step v (Renamed p q f) (mkVault (<[q := (f, o)]> (base.delete p (files v))) (gone v)).

Inductive vault_run (v : Vault) : list VaultEvent → Vault → Prop :=
  | vault_nil : vault_run v [] v
  | vault_snoc evs ev v1 v2 : vault_run v evs v1 → vault_step v1 ev v2 → vault_run v (evs ++ [ev]) v2.

Definition captured (evs : list VaultEvent) : BootstrapEventLog := foldl (λ l ev, capture ev l) newLog evs.

(** Every document of before the window is deleted or at exactly one path. *)
Record docs_ok (v0 : gset string) (v : Vault) : Prop := {
  docs_place d : d ∈ v0 → d ∉ gone v → ∃ p f, files v !! p = Some (f, Some d);
  docs_once d p q f g : files v !! p = Some (f, Some d) → files v !! q = Some (g, Some d) → p = q;
  docs_known d p f : files v !! p = Some (f, Some d) → d ∈ v0 ∧ d ∉ gone v;
  docs_gone d : d ∈ gone v → d ∈ v0 }.

Lemma opened_ok files0 : docs_ok (dom files0) (opened files0).
Proof.
  split; simpl; [..|set_solver].
  - intros d Hd _. apply elem_of_dom in Hd as [f Hf]. exists d, f. by rewrite map_lookup_imap, Hf.
  - intros d p q f g. rewrite !map_lookup_imap. intros Hp Hq.
    destruct (files0 !! p) as [f1|]; simplify_eq/=. by destruct (files0 !! q) as [f2|]; simplify_eq/=.
  - intros d p f. rewrite map_lookup_imap. intros Hp. destruct (files0 !! p) as [f1|] eqn:E; simplify_eq/=.
    split; [by apply elem_of_dom|set_solver].
Qed.

Lemma vault_step_ok v0 v ev v' : docs_ok v0 v → vault_step v ev v' → docs_ok v0 v'.
Proof.
  intros [H1 H2 H3 H4] [p f Hp|p f o Hp|p f o Hp|p q f o Hp Hq]; [..|]; [| |split; simpl|split; simpl].
  - split; simpl.
    + intros d Hd Hg. destruct (decide (d = p)) as [->|Hne].
      * destruct (decide (p ∈ gone v)) as [Hin|Hout].
        { exists p, f. by rewrite lookup_insert_eq. }
        destruct (H1 p Hd Hout) as (p' & f' & Hp'). exists p', f'.
        rewrite lookup_insert_ne; [done|congruence].
      * destruct (H1 d Hd) as (p' & f' & Hp'); [set_solver|]. exists p', f'.
        rewrite lookup_insert_ne; [done|congruence].
    + intros d p1 p2 f1 f2 [[<- E1]|[N1 L1]]%lookup_insert_Some [[<- E2]|[N2 L2]]%lookup_insert_Some; [done|..|by eapply H2].
      * destruct (decide (p ∈ gone v)); simplify_eq. destruct (H3 d p2 f2 L2). done.
      * destruct (decide (p ∈ gone v)); simplify_eq. destruct (H3 d p1 f1 L1). done.
    + intros d p1 f1 [[<- E1]|[N1 L1]]%lookup_insert_Some.
      * destruct (decide (p ∈ gone v)); simplify_eq. split; [auto|set_solver].
      * destruct (H3 d p1 f1 L1). split; [done|set_solver].
    + set_solver.
  - done.
  - intros d Hd Hg. destruct (H1 d Hd) as (p' & f' & Hp'); [set_solver|]. exists p', f'.
    destruct (decide (p' = p)) as [->|Hne]; [|by rewrite lookup_delete_ne].
    simplify_eq. simpl in Hg. set_solver.
  - intros d p1 p2 f1 f2 [_ L1]%lookup_delete_Some [_ L2]%lookup_delete_Some. by eapply H2.
  - intros d p1 f1 [N1 L1]%lookup_delete_Some. destruct (H3 d p1 f1 L1) as [? Hg]. split; [done|].
    intros [Hin|?]%elem_of_union; [|done]. destruct o as [o|]; simpl in Hin; [|set_solver].
    apply elem_of_singleton in Hin as ->. by destruct N1; apply (H2 o p p1 f f1).
  - intros d [Hin|?]%elem_of_union; [|auto]. destruct o as [o|]; simpl in Hin; [|set_solver].
    apply elem_of_singleton in Hin as ->. by destruct (H3 o p f Hp).
  - intros d Hd Hg. destruct (H1 d Hd Hg) as (p' & f' & Hp'). destruct (decide (p' = p)) as [->|Hne].
    + simplify_eq. exists q, f. by rewrite lookup_insert_eq.
    + exists p', f'. rewrite lookup_insert_ne by congruence. by rewrite lookup_delete_ne.
  - intros d p1 p2 f1 f2 [[<- E1]|[N1 [M1 L1]%lookup_delete_Some]]%lookup_insert_Some
      [[<- E2]|[N2 [M2 L2]%lookup_delete_Some]]%lookup_insert_Some; simplify_eq; [done|..|by eapply H2].
    + by destruct M2; eapply H2.
    + by destruct M1; eapply H2.
  - intros d p1 f1 [[<- E1]|[N1 [M1 L1]%lookup_delete_Some]]%lookup_insert_Some; simplify_eq; eauto.
  - done.
Qed.

(** ** The log represents the vault *)

Definition has_left (v : Vault) (l : BootstrapEventLog) (p : string) : Prop :=
  p ∈ gone v ∨ is_Some (jm_get p (movedFrom l)).

Record represents (files0 : gmap string TAbstractFile) (l : BootstrapEventLog) (v : Vault) : Prop := {
  rep_wf : jm_wf (current l);
  rep_nodup : NoDup (deleted l);
  rep_deleted d : d ∈ deleted l ↔ d ∈ gone v;
  rep_some p e : jm_get p (current l) = Some e → files v !! p = Some (file e, origin e);
  rep_left p : jm_get p (current l) = None → has_left v l p → files v !! p = None;
  rep_none p : jm_get p (current l) = None → ¬ has_left v l p → files v !! p = (λ f, (f, Some p)) <$> files0 !! p;
  rep_moved d p : jm_get d (movedFrom l) = Some p ↔ p ≠ d ∧ ∃ f, files v !! p = Some (f, Some d) }.

Lemma newLog_represents files0 : represents files0 newLog (opened files0).
Proof.
  split; simpl; try done.
  - constructor.
  - constructor.
  - set_solver.
  - intros p _ [Hin|[? ?]]; [set_solver|done].
  - intros p _ _. by rewrite map_lookup_imap; destruct (files0 !! p).
  - intros d p. split; [done|]. intros (Hne & f & Hf). rewrite map_lookup_imap in Hf.
    destruct (files0 !! p); simplify_eq/=.
Qed.

Section capture.
Context {files0 : gmap string TAbstractFile} {l : BootstrapEventLog} {v : Vault}.
Context (Hrep : represents files0 l v) (Hdocs : docs_ok (dom files0) v).

Lemma originOf_spec p f o : files v !! p = Some (f, o) → originOf p l = o.
Proof using All.
  intros Hp. unfold originOf. destruct (jm_get p (current l)) as [e|] eqn:E.
  - apply (rep_some _ _ _ Hrep) in E. by simplify_eq.
  - assert (¬ has_left v l p) as Hl by (intros Hl; by rewrite (rep_left _ _ _ Hrep p E Hl) in Hp).
    rewrite (rep_none _ _ _ Hrep p E Hl) in Hp. destruct (files0 !! p); by simplify_eq/=.
Qed.

(** The document of a path another document's file occupies has left. *)
Lemma occupied_left p f o : files v !! p = Some (f, o) → o ≠ Some p → files0 !! p = None ∨ has_left v l p.
Proof using All.
  intros Hp Ho. destruct (files0 !! p) eqn:E0; [right|by left].
  destruct (decide (p ∈ gone v)) as [?|Hg]; [by left|right].
  destruct (docs_place _ _ Hdocs p) as (q & g & Hq); [by apply elem_of_dom|done|].
  exists q. apply (rep_moved _ _ _ Hrep). split; [|by exists g]. intros ->. congruence.
Qed.

Lemma free_current p : files v !! p = None → jm_get p (current l) = None.
Proof using All.
  intros Hp. destruct (jm_get p (current l)) as [e|] eqn:E; [|done].
  apply (rep_some _ _ _ Hrep) in E. congruence.
Qed.

Lemma create_represents p f : files v !! p = None →
  represents files0 (create p f l) (mkVault (<[p := (f, if decide (p ∈ gone v) then Some p else None)]> (files v)) (gone v ∖ {[p]})).
Proof using All.
  intros Hp. pose proof (free_current p Hp) as Hc. destruct Hrep as [R1 R2 R3 R4 R5 R6 R7].
  assert (js_mem p (deleted l) = bool_decide (p ∈ gone v)) as Em.
  { unfold js_mem. apply bool_decide_ext, R3. }
  unfold create. split; simpl.
  - by apply jm_wf_set.
  - by apply js_remove_nodup.
  - intros d. rewrite js_remove_in, R3. set_solver.
  - intros q e. rewrite jm_get_set. destruct (decide (q = p)) as [->|Hne].
    + intros [= <-]. rewrite lookup_insert_eq. simpl. rewrite Em. by case_decide; case_bool_decide.
    + rewrite lookup_insert_ne by done. apply R4.
  - intros q. rewrite jm_get_set. destruct (decide (q = p)); [done|]. rewrite lookup_insert_ne by done.
    intros Hq Hl. apply R5; [done|]. destruct Hl as [Hl|?]; [left; simpl in Hl; set_solver|by right].
  - intros q. rewrite jm_get_set. destruct (decide (q = p)); [done|]. rewrite lookup_insert_ne by done.
    intros Hq Hl. apply R6; [done|]. intros [?|?]; apply Hl; [left; simpl; set_solver|by right].
  - intros d q. rewrite R7. destruct (decide (q = p)) as [->|Hne].
    + rewrite lookup_insert_eq. split; [intros (_ & g & Hg); congruence|].
      intros (Hne & g & Hg). case_decide; simplify_eq.
    + by rewrite lookup_insert_ne.
Qed.

Lemma modify_represents p f o : files v !! p = Some (f, o) → represents files0 (modify p f l) v.
Proof using All.
  intros Hp. pose proof (originOf_spec p f o Hp) as Ho. unfold originOf in Ho.
  destruct Hrep as [R1 R2 R3 R4 R5 R6 R7]. unfold modify.
  destruct (jm_get p (current l)) as [e|] eqn:E.
  all: split; simpl; try done; [by apply jm_wf_set|..].
  all: intros q; rewrite jm_get_set; case_decide; [|by auto]; subst q; try done.
  - intros e' [= <-]. by rewrite Hp, <- Ho.
  - intros e' [= <-]. by rewrite Hp, <- Ho.
Qed.

Lemma delete_represents p f o : files v !! p = Some (f, o) →
  represents files0 (delete p l) (mkVault (base.delete p (files v)) (from_option (λ d, {[d]}) ∅ o ∪ gone v)).
Proof using All.
  intros Hp. pose proof (originOf_spec p f o Hp) as Ho. pose proof (occupied_left p f o Hp) as Hleft.
  unfold delete. rewrite Ho. destruct Hrep as [R1 R2 R3 R4 R5 R6 R7], Hdocs as [D1 D2 D3 D4].
  assert (∀ d, o = Some d → d ≠ p → jm_get d (movedFrom l) = Some p) as Hm.
  { intros d -> Hne. apply R7. split; [done|by exists f]. }
  destruct o as [d|]; simpl; split; simpl.
  - by apply jm_wf_delete.
  - by apply js_add_nodup.
  - intros d'. rewrite js_add_in, R3. set_solver.
  - intros q e. rewrite jm_get_delete. case_decide; [done|]. rewrite lookup_delete_ne by done. apply R4.
  - intros q. rewrite jm_get_delete. case_decide as Hq; [intros _ _; subst; by rewrite lookup_delete_eq|].
    rewrite lookup_delete_ne by done. intros Hc Hl. apply R5; [done|].
    destruct (decide (q = d)) as [->|Hne]; [right; by rewrite (Hm d)|].
    destruct Hl as [Hl|Hl]; simpl in Hl; [left; set_solver|right]. by rewrite jm_get_delete_ne in Hl.
  - intros q. rewrite jm_get_delete. case_decide as Hq.
    + subst q. intros _ Hl. rewrite lookup_delete_eq.
      destruct (decide (d = p)) as [->|Hne]; [destruct Hl; left; simpl; set_solver|].
      destruct Hleft as [->|[Hg|Hg]]; [congruence|done|..]; destruct Hl; [left; simpl; set_solver|right].
      simpl. by rewrite jm_get_delete_ne.
    + rewrite lookup_delete_ne by done. intros Hc Hl. apply R6; [done|]. intros [Hg|Hg]; apply Hl.
      * left. simpl. set_solver.
      * destruct (decide (q = d)) as [->|Hne]; [left; simpl; set_solver|right; simpl; by rewrite jm_get_delete_ne].
  - intros d' q. rewrite jm_get_delete. case_decide as Hd; [subst d'|].
    + split; [done|]. intros (_ & g & [Hqp Hq]%lookup_delete_Some). by destruct Hqp; eapply D2.
    + rewrite R7. split; intros (Hne & g & Hg); (split; [done|]); exists g.
      * rewrite lookup_delete_ne; [done|]. intros ->. congruence.
      * by apply lookup_delete_Some in Hg as [_ ?].
  - by apply jm_wf_delete.
  - done.
  - intros d'. rewrite R3. set_solver.
  - intros q e. rewrite jm_get_delete. case_decide; [done|]. rewrite lookup_delete_ne by done. apply R4.
  - intros q. rewrite jm_get_delete. case_decide as Hq; [intros _ _; subst; by rewrite lookup_delete_eq|].
    rewrite lookup_delete_ne by done. intros Hc Hl. apply R5; [done|].
    destruct Hl as [Hl|Hl]; simpl in Hl; [left; set_solver|by right].
  - intros q. rewrite jm_get_delete. case_decide as Hq.
    + subst q. intros _ Hl. rewrite lookup_delete_eq.
      destruct Hleft as [->|[Hg|Hg]]; [done|done|..]; destruct Hl; [left; simpl; set_solver|by right].
    + rewrite lookup_delete_ne by done. intros Hc Hl. apply R6; [done|]. intros [Hg|Hg]; apply Hl.
      * left. simpl. set_solver.
      * by right.
  - intros d' q. rewrite R7. split; intros (Hne & g & Hg); (split; [done|]); exists g.
    + rewrite lookup_delete_ne; [done|]. intros ->. congruence.
    + by apply lookup_delete_Some in Hg as [_ ?].
Qed.

Lemma rename_represents p q f o : files v !! p = Some (f, o) → files v !! q = None →
  represents files0 (rename p q f l) (mkVault (<[q := (f, o)]> (base.delete p (files v))) (gone v)).
Proof using All.
  intros Hp Hq. pose proof (originOf_spec p f o Hp) as Ho. pose proof (occupied_left p f o Hp) as Hleft.
  assert (p ≠ q) as Hpq by congruence. unfold originOf in Ho. unfold rename.
  set (m := match jm_get p (current l) with Some e => modified e | None => false end).
  assert (match jm_get p (current l) with Some e => origin e | None => Some p end = o) as -> by done.
  destruct Hrep as [R1 R2 R3 R4 R5 R6 R7], Hdocs as [D1 D2 D3 D4].
  assert (∀ d, o = Some d → d ≠ p → jm_get d (movedFrom l) = Some p) as Hm.
  { intros d -> Hne. apply R7. split; [done|by exists f]. }
  set (mf := match o with
             | None => movedFrom l
             | Some d => if decide (d = q) then jm_delete d (movedFrom l) else jm_set d q (movedFrom l)
             end).
  assert (∀ d, jm_get d mf = if decide (o = Some d) then (if decide (d = q) then None else Some q) else jm_get d (movedFrom l)) as Hmf.
  { intros d. unfold mf. destruct o as [d'|]; [|done]. destruct (decide (d' = q)).
    - rewrite jm_get_delete. repeat case_decide; simplify_eq; done.
    - rewrite jm_get_set. repeat case_decide; simplify_eq; done. }
  match goal with |- represents _ ?l' ?v' =>
    assert (current l' = jm_set q (mkCaptured o f m) (jm_delete p (current l)) ∧ movedFrom l' = mf ∧
      deleted l' = deleted l) as (Ec & Em & Ed) by (unfold mf; destruct o; [case_decide|]; done);
    set (l2 := l') in * end.
  clearbody l2.
  assert (∀ x, has_left (mkVault (<[q := (f, o)]> (base.delete p (files v))) (gone v)) l2 x ↔
    x ∈ gone v ∨ is_Some (jm_get x mf)) as Hleft' by (intros x; unfold has_left; by rewrite Em).
  split; rewrite ?Ec, ?Em, ?Ed; simpl; try done.
  - by apply jm_wf_set, jm_wf_delete.
  - intros x e. rewrite jm_get_set, jm_get_delete. destruct (decide (x = q)) as [->|Hxq].
    + intros [= <-]. by rewrite lookup_insert_eq.
    + rewrite lookup_insert_ne by done. destruct (decide (x = p)); [done|]. rewrite lookup_delete_ne by done. apply R4.
  - intros x. rewrite jm_get_set, jm_get_delete, Hleft'. destruct (decide (x = q)) as [->|Hxq]; [done|].
    rewrite lookup_insert_ne by done. destruct (decide (x = p)) as [->|Hxp]; [by rewrite lookup_delete_eq|].
    rewrite lookup_delete_ne by done. intros Hc Hl. apply R5; [done|]. destruct Hl as [?|Hl]; [by left|right].
    rewrite Hmf in Hl. destruct (decide (o = Some x)) as [->|]; [by rewrite (Hm x)|done].
  - intros x. rewrite jm_get_set, jm_get_delete, Hleft'. destruct (decide (x = q)) as [->|Hxq]; [done|].
    rewrite lookup_insert_ne by done. destruct (decide (x = p)) as [->|Hxp].
    + rewrite lookup_delete_eq. intros _ Hl. destruct (decide (o = Some p)) as [->|Hne].
      { destruct Hl. right. rewrite Hmf, !decide_True, decide_False by done. done. }
      destruct (Hleft Hne) as [->|[?|?]]; [done|destruct Hl; by left|].
      destruct Hl. right. by rewrite Hmf, decide_False.
    + rewrite lookup_delete_ne by done. intros Hc Hl. apply R6; [done|]. intros [?|Hg]; apply Hl; [by left|right].
      rewrite Hmf. destruct (decide (o = Some x)); [|done]. by rewrite decide_False.
  - intros d x. rewrite Hmf. destruct (decide (o = Some d)) as [->|Hd].
    + destruct (decide (x = q)) as [->|Hxq].
      * rewrite lookup_insert_eq. destruct (decide (d = q)) as [->|]; [naive_solver|].
        split; [intros _; split; [done|by exists f]|done].
      * rewrite lookup_insert_ne by done. split; [by case_decide; intros; simplify_eq|].
        intros (_ & g & [Hxp Hx]%lookup_delete_Some). destruct Hxp. by eapply D2.
    + rewrite R7. destruct (decide (x = q)) as [->|Hxq].
      * rewrite lookup_insert_eq. split; intros (? & g & Hg); congruence.
      * rewrite lookup_insert_ne by done. destruct (decide (x = p)) as [->|Hxp].
        { rewrite lookup_delete_eq. split; intros (? & g & Hg); congruence. }
        by rewrite lookup_delete_ne.
Qed.

Lemma capture_represents ev v' : vault_step v ev v' → represents files0 (capture ev l) v'.
Proof using All.
  intros [p f Hp|p f o Hp|p f o Hp|p q f o Hp Hq]; simpl.
  - by apply create_represents.
  - by eapply modify_represents.
  - by eapply delete_represents.
  - by apply rename_represents.
Qed.
End capture.

Lemma captured_represents files0 evs v : vault_run (opened files0) evs v →
  represents files0 (captured evs) v ∧ docs_ok (dom files0) v.
Proof.
  intros H. induction H as [|evs ev v1 v2 Hrun [IH1 IH2] Hstep].
  - split; [apply newLog_represents|apply opened_ok].
  - unfold captured. rewrite foldl_app. simpl. split; [by eapply capture_represents|by eapply vault_step_ok].
Qed.

(** The captured log never restores what the user removed: it reports a
    path as removed exactly when a file was there when the window opened and
    none is there now. *)
Theorem removed_exact files0 evs v p : vault_run (opened files0) evs v →
  removed p (captured evs) = true ↔ is_Some (files0 !! p) ∧ files v !! p = None.
Proof.
  intros [[_ _ R3 R4 R5 R6 R7] [D1 D2 D3 D4]]%captured_represents.
  unfold removed. set (l := captured evs) in *. clearbody l.
  rewrite andb_true_iff, negb_true_iff, orb_true_iff, js_mem_in, jm_has_get, jm_get_none, R3. split.
  - intros [Hc Hl]. split; [|by apply R5; [|destruct Hl; [left|right]]].
    apply elem_of_dom. destruct Hl as [?|[q Hq]]; [by apply D4|].
    apply R7 in Hq as (_ & f & Hf). by destruct (D3 p q f Hf).
  - intros [[f Hf] Hp]. assert (jm_get p (current l) = None) as Hc.
    { destruct (jm_get p (current l)) as [e|] eqn:E; [|done]. apply R4 in E. congruence. }
    split; [done|]. destruct (decide (p ∈ gone v)); [by left|right].
    destruct (jm_get p (movedFrom l)) eqn:E; [done|]. exfalso.
    rewrite R6, Hf in Hp; [done|done|]. intros [?|[? ?]]; congruence.
Qed.
