(* ===== verification/BootstrapReplay.v ===== *)
(** Replaying the plan of [BootstrapLog]: on an index that lists what was in
    the vault when the window opened, every step finds its path as it needs
    it, and the index ends listing what the vault holds now. *)
From Stdlib Require Import String.
From S2P Require Import Prelude JsMap BootstrapLog BootstrapSpec.

(** The index: the document at each path ([None]: one created by the replay). *)
Notation Index := (gmap string (option string)).

Section replay.
(** [TAbstractFile.path] *)
Context (pathOf : TAbstractFile → option string).

(** One step, or [None] when its path is not as the step needs it: a deleted,
    moved or modified document present, the target of a move or a new
    document free. *)
Definition replay_step (idx : Index) (s : BootstrapReplayStep) : option Index :=
  match s with
  | RDelete p => match idx !! p with Some _ => Some (base.delete p idx) | None => None end
  | RRename p f =>
    match idx !! p, pathOf f with
    | Some d, Some q => if decide (idx !! q = None) then Some (<[q := d]> (base.delete p idx)) else None
    | _, _ => None
    end
  | RCreate f =>
    match pathOf f with
    | Some q => if decide (idx !! q = None) then Some (<[q := None]> idx) else None
    | None => None
    end
  | RModify f =>
    match pathOf f with
    | Some q => match idx !! q with Some _ => Some idx | None => None end
    | None => None
    end
  end.

Fixpoint replay (steps : list BootstrapReplayStep) (idx : Index) : option Index :=
  match steps with
  | [] => Some idx
  | s :: steps => match replay_step idx s with Some idx => replay steps idx | None => None end
  end.

Lemma replay_app s1 s2 idx idx1 : replay s1 idx = Some idx1 → replay (s1 ++ s2) idx = replay s2 idx1.
Proof.
  revert idx. induction s1 as [|s s1 IH]; intros idx; simpl; [by intros [= ->]|].
  destruct (replay_step idx s); [apply IH|done].
Qed.

Context {v : Vault} {v0 : gset string} (Hdocs : docs_ok v0 v).
Context (Hpath : ∀ p f o, files v !! p = Some (f, o) → pathOf f = Some p).

(** The index once the deletes and some renames are done and [pend] are left. *)
Definition expected (pend : list PendingRename) (p : string) : option (option string) :=
  if decide (p ∈ map from pend) then Some (Some p)
  else if decide (p ∈ map to pend) then None
  else match files v !! p with Some (_, Some d) => Some (Some d) | _ => None end.

(** The renames left are moves of the vault, with every move onto a path that
    one of them is still to vacate. *)
Record pend_ok (pend : list PendingRename) : Prop := {
  pend_moves r : r ∈ pend → files v !! to r = Some (pfile r, Some (from r)) ∧ from r ≠ to r;
  pend_closed p f d : files v !! p = Some (f, Some d) → d ≠ p → p ∈ map from pend → mkPending d p f ∈ pend }.

Lemma in_from pend p : p ∈ map from pend ↔ ∃ r, p = from r ∧ r ∈ pend.
Proof. apply (list_elem_of_fmap from). Qed.

Lemma in_to pend p : p ∈ map to pend ↔ ∃ r, p = to r ∧ r ∈ pend.
Proof. apply (list_elem_of_fmap to). Qed.

Lemma pend_ext pend pend' : (∀ r, r ∈ pend ↔ r ∈ pend') →
  (pend_ok pend → pend_ok pend') ∧ ∀ p, expected pend p = expected pend' p.
Proof.
  intros He. assert (∀ p, p ∈ map from pend ↔ p ∈ map from pend') as Hf.
  { intros p. rewrite !in_from. by setoid_rewrite He. }
  assert (∀ p, p ∈ map to pend ↔ p ∈ map to pend') as Ht.
  { intros p. rewrite !in_to. by setoid_rewrite He. }
  split.
  - intros [H1 H2]. split; [intros r; rewrite <- He; apply H1|]. intros p f d. rewrite <- Hf, <- He. apply H2.
  - intros p. unfold expected. by rewrite !(decide_ext _ _ _ _ (Hf p)), !(decide_ext _ _ _ _ (Ht p)).
Qed.

Lemma same_from pend r r' : pend_ok pend → r ∈ pend → r' ∈ pend → from r = from r' → r = r'.
Proof using Hdocs.
  intros Hok Hr Hr' Hf. destruct (pend_moves _ Hok r Hr) as [H1 _], (pend_moves _ Hok r' Hr') as [H2 _].
  assert (to r = to r') as Ht by (rewrite <- Hf in H2; by eapply (docs_once _ _ Hdocs)).
  destruct r, r'; simpl in *. congruence.
Qed.

Lemma same_to pend r r' : pend_ok pend → r ∈ pend → r' ∈ pend → to r = to r' → r = r'.
Proof.
  intros Hok Hr Hr' Ht. destruct (pend_moves _ Hok r Hr) as [H1 _], (pend_moves _ Hok r' Hr') as [H2 _].
  destruct r, r'; simpl in *. congruence.
Qed.

Lemma expected_from pend r : r ∈ pend → expected pend (from r) = Some (Some (from r)).
Proof. intros Hr. unfold expected. rewrite decide_True; [done|]. apply in_from. by exists r. Qed.

Lemma rename_one pend r (idx : Index) : pend_ok pend → r ∈ pend → isReady pend r = true →
  (∀ p, idx !! p = expected pend p) →
  ∃ idx', replay_step idx (RRename (from r) (pfile r)) = Some idx' ∧
    pend_ok (filter (λ x, x ≠ r) pend) ∧ ∀ p, idx' !! p = expected (filter (λ x, x ≠ r) pend) p.
Proof using All.
  intros Hok Hr Hready Hidx. apply negb_true_iff, js_mem_not_in in Hready. fold (map from pend) in Hready.
  destruct (pend_moves _ Hok r Hr) as [Hto Hne].
  assert (to r ∈ map to pend) as Hin by (apply in_to; by exists r).
  simpl. rewrite Hidx, (expected_from pend r Hr), (Hpath _ _ _ Hto).
  rewrite decide_True by (rewrite Hidx; unfold expected; by rewrite decide_False, decide_True).
  eexists. split; [done|]. split.
  - split; [intros x [_ Hx]%list_elem_of_filter; by apply (pend_moves _ Hok)|].
    intros p f d Hp Hd (x & -> & [Hxr Hx]%list_elem_of_filter)%in_from. apply list_elem_of_filter.
    assert (from x ∈ map from pend) as Hfx by (apply in_from; by exists x).
    split; [|by apply (pend_closed _ Hok)]. intros <-. done.
  - intros p. destruct (decide (p = to r)) as [->|Hpt].
    + rewrite lookup_insert_eq. unfold expected. rewrite decide_False, decide_False, Hto; [done|..].
      * intros (x & Hx & [Hxr ?]%list_elem_of_filter)%in_to. destruct Hxr. by eapply same_to.
      * intros (x & Hx & [Hxr ?]%list_elem_of_filter)%in_from. apply Hready, in_from. by exists x.
    + rewrite lookup_insert_ne by done. destruct (decide (p = from r)) as [->|Hpf].
      * rewrite lookup_delete_eq. unfold expected. rewrite decide_False.
        2:{ intros (x & Hx & [Hxr ?]%list_elem_of_filter)%in_from. destruct Hxr. by eapply same_from. }
        destruct (decide (from r ∈ map to _)) as [|Hnt]; [done|].
        destruct (files v !! from r) as [[f [d|]]|] eqn:Ef; [|done..]. exfalso.
        destruct (decide (d = from r)) as [->|Hd]; [by apply Hne, (docs_once _ _ Hdocs (from r) _ _ f (pfile r))|].
        apply Hnt, in_to. exists (mkPending d (from r) f). split; [done|]. apply list_elem_of_filter.
        split; [intros E; apply (f_equal to) in E; simpl in E; congruence|].
        apply (pend_closed _ Hok); [done..|]. apply in_from. by exists r.
      * rewrite lookup_delete_ne, Hidx by done. unfold expected.
        rewrite !(decide_ext (p ∈ map from (filter _ pend)) (p ∈ map from pend)).
        2:{ rewrite !in_from. split; intros (x & -> & Hx); exists x; (split; [done|]);
            [by apply list_elem_of_filter in Hx as []|apply list_elem_of_filter; split; congruence]. }
        rewrite !(decide_ext (p ∈ map to (filter _ pend)) (p ∈ map to pend)); [done|].
        rewrite !in_to. split; intros (x & -> & Hx); exists x; (split; [done|]);
          [by apply list_elem_of_filter in Hx as []|apply list_elem_of_filter; split; congruence].
Qed.

Lemma rename_batch rs pend (idx : Index) : NoDup rs → (∀ r, r ∈ rs → r ∈ pend ∧ isReady pend r = true) →
  pend_ok pend → (∀ p, idx !! p = expected pend p) →
  ∃ idx', replay (map (λ r, RRename (from r) (pfile r)) rs) idx = Some idx' ∧
    pend_ok (filter (λ x, x ∉ rs) pend) ∧ ∀ p, idx' !! p = expected (filter (λ x, x ∉ rs) pend) p.
Proof using All.
  revert pend idx. induction rs as [|r rs IH]; intros pend idx Hnd Hrs Hok Hidx; cbn [map replay].
  - assert (∀ r, r ∈ pend ↔ r ∈ filter (λ x, x ∉ []) pend) as He.
    { intros r. rewrite list_elem_of_filter. set_solver. }
    destruct (pend_ext _ _ He) as [H1 H2]. exists idx. split; [done|]. split; [auto|]. intros p. by rewrite <- H2.
  - apply NoDup_cons in Hnd as [Hr Hnd]. destruct (Hrs r) as [Hin Hready]; [by left|].
    destruct (rename_one pend r idx Hok Hin Hready Hidx) as (idx1 & -> & Hok1 & Hidx1).
    destruct (IH (filter (λ x, x ≠ r) pend) idx1 Hnd) as (idx' & E & Hok' & Hidx'); [|done..|].
    { intros x Hx. destruct (Hrs x) as [Hxin Hxr]; [by right|]. split.
      - apply list_elem_of_filter. split; [congruence|done].
      - unfold isReady in *. apply negb_true_iff, js_mem_not_in in Hxr. apply negb_true_iff, js_mem_not_in.
        intros (y & Hy & [_ ?]%list_elem_of_filter)%in_from. apply Hxr, in_from. by exists y. }
    assert (∀ x, x ∈ filter (λ x, x ∉ rs) (filter (λ x, x ≠ r) pend) ↔ x ∈ filter (λ x, x ∉ r :: rs) pend) as He.
    { intros x. rewrite !list_elem_of_filter, not_elem_of_cons. tauto. }
    destruct (pend_ext _ _ He) as [H1 H2]. exists idx'. split; [done|]. split; [auto|].
    intros p. by rewrite Hidx', H2.
Qed.

(** The loop ends: each round with a free target does some of the renames. *)
Lemma drain_spec fuel pend (idx : Index) : (length pend ≤ fuel)%nat → NoDup pend →
  pend_ok pend → (∀ p, idx !! p = expected pend p) →
  let '(steps, stuck) := drain fuel pend in
  ∃ idx', replay steps idx = Some idx' ∧ pend_ok stuck ∧ NoDup stuck ∧ stuck ⊆ pend ∧
    (∀ p, idx' !! p = expected stuck p) ∧ ∀ r, r ∈ stuck → to r ∈ map from stuck.
Proof using All.
  revert pend idx. induction fuel as [|fuel IH]; intros pend idx Hlen Hnd Hok Hidx.
  { destruct pend; [|simpl in Hlen; lia]. exists idx. set_solver. }
  destruct pend as [|r0 pend0] eqn:Ep; [exists idx; set_solver|]. rewrite <- Ep in *. clear Ep r0 pend0.
  assert (drain (S fuel) pend =
    match filter (λ r, isReady pend r) pend with
    | [] => ([], pend)
    | ready => let '(steps, stuck) := drain fuel (filter (λ r, r ∉ ready) pend) in
               (map (λ r, RRename (from r) (pfile r)) ready ++ steps, stuck)
    end) as -> by (destruct pend; [reflexivity|cbn [drain]; cbv zeta; by destruct (filter _ _)]).
  destruct (filter (λ r, isReady pend r) pend) as [|r0 ready0] eqn:Er.
  - exists idx. split_and!; try done. intros r Hr. apply js_mem_in.
    destruct (js_mem (to r) (map from pend)) eqn:Em; [done|]. exfalso.
    assert (r ∈ filter (λ r, isReady pend r) pend) as Hin; [|rewrite Er in Hin; by apply elem_of_nil in Hin].
    apply list_elem_of_filter. split; [|done]. unfold isReady, vacating. by rewrite Em.
  - set (ready := r0 :: ready0) in *.
    assert (∀ r, r ∈ ready → r ∈ pend ∧ isReady pend r = true) as Hrs.
    { intros r. rewrite <- Er. rewrite list_elem_of_filter. intros [Hr ?]. split; [done|]. by apply Is_true_true in Hr. }
    assert (NoDup ready) as Hndr by (rewrite <- Er; by apply NoDup_filter).
    destruct (rename_batch ready pend idx Hndr Hrs Hok Hidx) as (idx1 & E1 & Hok1 & Hidx1).
    set (rest := filter (λ r, r ∉ ready) pend) in *.
    assert (length rest < length pend)%nat as Hlt.
    { assert (r0 ∈ ready) as Hr0 by (unfold ready; by left).
      apply (length_filter_lt _ _ r0); [by destruct (Hrs r0 Hr0)|]. by intros Hn. }
    pose proof (IH rest idx1 ltac:(lia) (NoDup_filter _ _ Hnd) Hok1 Hidx1) as IH1.
    cbv zeta. fold rest. destruct (drain fuel rest) as [steps stuck].
    destruct IH1 as (idx' & E' & ? & ? & Hsub & ? & ?). exists idx'. split; [by rewrite (replay_app _ _ _ _ E1)|].
    split_and!; try done. intros r Hr%Hsub. by apply list_elem_of_filter in Hr as [_ ?].
Qed.

(** Renames left over swap paths among themselves. *)
Lemma stuck_swap pend p : pend_ok pend → NoDup pend → (∀ r, r ∈ pend → to r ∈ map from pend) →
  p ∈ map from pend → p ∈ map to pend.
Proof using All.
  intros Hok Hnd Hsub Hp.
  assert (NoDup (map to pend)) as Ht.
  { apply (NoDup_fmap_2_strong to); [|done]. intros x y ???. by eapply same_to. }
  assert (map to pend ⊆+ map from pend) as Hs.
  { apply NoDup_submseteq; [done|]. intros q (r & -> & Hr)%in_to. auto. }
  rewrite (submseteq_length_Permutation _ _ Hs); [done|]. by rewrite !length_map.
Qed.

Lemma settle_all (c : jsmap string CapturedPath) (idx : Index) : jm_wf c →
  (∀ p e, (p, e) ∈ c → pathOf (file e) = Some p ∧
    match origin e with None => idx !! p = None | Some d => is_Some (idx !! p) end) →
  ∃ idx', replay (omap settle c) idx = Some idx' ∧
    ∀ p, idx' !! p = match jm_get p c with
                     | Some e => match origin e with None => Some None | Some _ => idx !! p end
                     | None => idx !! p
                     end.
Proof.
  unfold jm_wf. revert idx. induction c as [|[p e] c IH]; intros idx Hwf Hc; [by exists idx|].
  apply NoDup_cons in Hwf as [Hp Hwf]. destruct (Hc p e) as [Hf Ho]; [by left|].
  assert (jm_get p c = None) as Hpc.
  { destruct (jm_get p c) eqn:E; [|done]. destruct Hp. by apply jm_keys_get. }
  simpl. destruct (origin e) as [d|] eqn:Eo.
  - destruct (IH idx Hwf) as (idx' & E' & H'); [intros; apply Hc; by right|].
    assert (∃ idx', replay (match (if bool_decide (d = p) && modified e then Some (RModify (file e)) else None) with
      Some s => s :: omap settle c | None => omap settle c end) idx = Some idx' ∧ ∀ q, idx' !! q = match jm_get q c with
                     | Some e => match origin e with None => Some None | Some _ => idx !! q end
                     | None => idx !! q end) as (idx1 & E1 & H1).
    { exists idx'. split; [|done]. destruct (_ && _); [|done]. simpl. rewrite Hf. by destruct Ho as [? ->]. }
    exists idx1. split; [exact E1|]. intros q. rewrite H1. destruct (decide (q = p)) as [->|]; [by rewrite Hpc, Eo|done].
  - destruct (IH (<[p := None]> idx) Hwf) as (idx' & E' & H').
    { intros q e' Hq. assert (q ≠ p) by (intros ->; apply Hp, (list_elem_of_fmap fst); by exists (p, e')).
      destruct (Hc q e') as [? Hq']; [by right|]. split; [done|]. by rewrite lookup_insert_ne. }
    exists idx'. split; [simpl; by rewrite Hf, Ho, decide_True|]. intros q. rewrite H'. destruct (decide (q = p)) as [->|].
    + by rewrite Hpc, Eo, lookup_insert_eq.
    + by rewrite lookup_insert_ne.
Qed.

Lemma modify_all (rs : list PendingRename) (idx : Index) :
  (∀ r, r ∈ rs → ∃ q, pathOf (pfile r) = Some q ∧ is_Some (idx !! q)) →
  replay (map (λ r, RModify (pfile r)) rs) idx = Some idx.
Proof.
  induction rs as [|r rs IH]; intros Hr; [done|]. simpl.
  destruct (Hr r) as (q & -> & [? ->]); [by left|]. apply IH. intros; apply Hr. by right.
Qed.

Lemma delete_all (ds : list string) (idx : Index) : NoDup ds → (∀ d, d ∈ ds → is_Some (idx !! d)) →
  ∃ idx', replay (map RDelete ds) idx = Some idx' ∧ ∀ p, idx' !! p = if decide (p ∈ ds) then None else idx !! p.
Proof.
  revert idx. induction ds as [|d ds IH]; intros idx Hnd Hd; [by exists idx|].
  apply NoDup_cons in Hnd as [Hn Hnd]. destruct (Hd d) as [x Hx]; [by left|].
  destruct (IH (base.delete d idx) Hnd) as (idx' & E & H').
  { intros d' Hd'. rewrite lookup_delete_ne by congruence. apply Hd. by right. }
  exists idx'. split; [simpl; by rewrite Hx|]. intros p. rewrite H'.
  destruct (decide (p = d)) as [->|Hne].
  - rewrite lookup_delete_eq. rewrite (decide_True (P := d ∈ d :: ds)) by (by left). by case_decide.
  - rewrite lookup_delete_ne by done. by rewrite (decide_ext (p ∈ d :: ds) (p ∈ ds)) by (rewrite elem_of_cons; naive_solver).
Qed.
End replay.

Lemma in_pendingOf l r : jm_wf (current l) →
  r ∈ pendingOf l ↔ ∃ e, jm_get (to r) (current l) = Some e ∧ origin e = Some (from r) ∧ pfile r = file e ∧ from r ≠ to r.
Proof.
  intros Hwf. unfold pendingOf. rewrite list_elem_of_omap. split.
  - intros ([p e] & Hin & Hr). destruct (origin e) as [d|] eqn:Eo; [|done].
    case_decide; simplify_eq/=. exists e. by rewrite (jm_in_get p e).
  - intros (e & Hin%jm_get_in & Ho & Hf & Hne). exists (to r, e). split; [done|].
    rewrite Ho, decide_False by done. destruct r; simpl in *. congruence.
Qed.

Lemma pendingOf_nodup l : jm_wf (current l) → NoDup (pendingOf l).
Proof.
  unfold jm_wf, pendingOf. induction (current l) as [|[p e] c IH]; simpl; [constructor|].
  intros [Hp Hc]%NoDup_cons. specialize (IH Hc).
  destruct (origin e) as [d|]; [|done]. case_decide; [done|]. constructor; [|done].
  intros ([p' e'] & Hin & He)%list_elem_of_omap. destruct (origin e'); [|done]. case_decide; simplify_eq/=.
  apply Hp, (list_elem_of_fmap fst). by exists (p, e').
Qed.

Section plan.
Context {files0 : gmap string TAbstractFile} {l : BootstrapEventLog} {v : Vault}.
Context (Hrep : represents files0 l v) (Hdocs : docs_ok (dom files0) v).

Lemma pendingOf_moves r : r ∈ pendingOf l ↔ files v !! to r = Some (pfile r, Some (from r)) ∧ from r ≠ to r.
Proof using All.
  rewrite (in_pendingOf l r (rep_wf _ _ _ Hrep)). split.
  - intros (e & He%(rep_some _ _ _ Hrep) & Ho & Hf & Hne). by rewrite He, Ho, Hf.
  - intros [Hv Hne]. destruct (jm_get (to r) (current l)) as [e|] eqn:E.
    + pose proof (rep_some _ _ _ Hrep _ _ E). simplify_eq. by exists e.
    + exfalso. pose proof (originOf_spec Hrep Hdocs _ _ _ Hv) as Ho. unfold originOf in Ho. rewrite E in Ho. congruence.
Qed.

Lemma pendingOf_ok : pend_ok (v := v) (pendingOf l).
Proof using All.
  split; [intros r; apply pendingOf_moves|]. intros p f d Hp Hd _. by apply pendingOf_moves.
Qed.

(** With the deletes done, the index is as the renames expect it. *)
Lemma deleted_expected (idx : Index) :
  (∀ p, idx !! p = if decide (p ∈ deleted l) then None else (λ _, Some p) <$> files0 !! p) →
  ∀ p, idx !! p = expected (v := v) (pendingOf l) p.
Proof using All.
  intros Hidx p. rewrite Hidx. rewrite (decide_ext (p ∈ deleted l) (p ∈ gone v)) by apply (rep_deleted _ _ _ Hrep).
  unfold expected.
  assert (∀ d q f, files v !! q = Some (f, Some d) → files0 !! d ≠ None ∧ d ∉ gone v) as Hk.
  { intros d q f Hq. destruct (docs_known _ _ Hdocs d q f Hq) as [[? Hd]%elem_of_dom ?]. split; [congruence|done]. }
  destruct (decide (p ∈ map from _)) as [(r & -> & [Hv _]%pendingOf_moves)%in_from|Hf].
  { destruct (Hk _ _ _ Hv) as [Hd Hg]. rewrite decide_False by done. by destruct (files0 !! from r). }
  assert (∀ q f, files v !! q = Some (f, Some p) → q = p) as Honly.
  { intros q f Hq. destruct (decide (q = p)); [done|]. destruct Hf. apply in_from.
    exists (mkPending p q f). split; [done|]. by apply pendingOf_moves. }
  assert (p ∉ gone v → is_Some (files0 !! p) → ∃ f, files v !! p = Some (f, Some p)) as Hhere.
  { intros Hg Hp. destruct (docs_place _ _ Hdocs p) as (q & f & Hq); [by apply elem_of_dom|done|].
    rewrite (Honly q f Hq) in Hq. by exists f. }
  destruct (decide (p ∈ map to _)) as [(r & -> & [Hv Hne]%pendingOf_moves)%in_to|Ht].
  - case_decide as Hg; [done|]. destruct (files0 !! to r) eqn:E0; [|done].
    destruct Hhere as [f Hf']; [done|done|]. congruence.
  - destruct (files v !! p) as [[f [d|]]|] eqn:Ev.
    + assert (d = p) as ->.
      { destruct (decide (d = p)); [done|]. destruct Ht. apply in_to.
        exists (mkPending d p f). split; [done|]. by apply pendingOf_moves. }
      destruct (Hk _ _ _ Ev) as [Hd Hg]. rewrite decide_False by done. by destruct (files0 !! p).
    + case_decide as Hg; [done|]. destruct (files0 !! p) eqn:E0; [|done].
      destruct Hhere as [f' Hf']; [done|done|]. congruence.
    + case_decide as Hg; [done|]. destruct (files0 !! p) eqn:E0; [|done].
      destruct Hhere as [f' Hf']; [done|done|]. congruence.
Qed.
End plan.

(** C7: the plan of the captured log reproduces the window.  Replayed on the
    index of before the window, every step is applicable when its turn comes
    (a rename's target has been vacated, a new file's path is free), and the
    index ends with an entry for exactly the paths of the vault.  Each entry
    is the document the file there continues, except that files that swapped
    paths keep the documents in place and have their content applied. *)
Theorem plan_reproduces_vault files0 evs v pathOf :
  vault_run (opened files0) evs v → (∀ p f o, files v !! p = Some (f, o) → pathOf f = Some p) →
  ∃ idx, replay pathOf (plan (captured evs)) (map_imap (λ p _, Some (Some p)) files0) = Some idx ∧
    (∀ p, is_Some (idx !! p) ↔ is_Some (files v !! p)) ∧
    ∀ p f o, files v !! p = Some (f, o) →
      idx !! p = Some o ∨ RModify f ∈ plan (captured evs) ∧ ∃ d q, o = Some d ∧ d ≠ p ∧ idx !! p = Some (Some q).
Proof.
  intros Hrun Hpath. destruct (captured_represents _ _ _ Hrun) as [Hrep Hdocs].
  set (l := captured evs) in *. clearbody l. set (idx0 := map_imap _ files0).
  assert (∀ p, idx0 !! p = (λ _, Some p) <$> files0 !! p) as H0.
  { intros p. unfold idx0. rewrite map_lookup_imap. by destruct (files0 !! p). }
  destruct (delete_all pathOf (deleted l) idx0) as (idx1 & E1 & H1); [apply (rep_nodup _ _ _ Hrep)|..].
  { intros d Hd%(rep_deleted _ _ _ Hrep)%(docs_gone _ _ Hdocs)%elem_of_dom. rewrite H0. by destruct Hd as [? ->]. }
  assert (∀ p, idx1 !! p = expected (v := v) (pendingOf l) p) as H1'.
  { apply (deleted_expected Hrep Hdocs). intros p. by rewrite H1, H0. }
  pose proof (drain_spec pathOf Hdocs Hpath _ _ idx1 (Nat.le_refl _)
    (pendingOf_nodup l (rep_wf _ _ _ Hrep)) (pendingOf_ok Hrep Hdocs) H1') as H2.
  unfold plan. destruct (drain _ _) as [renames stuck]. destruct H2 as (idx2 & E2 & Hok & Hnd & Hsub & H2 & Hst).
  assert (∀ p, p ∈ map from stuck → p ∈ map to stuck) as Hft by (intros p; by apply (stuck_swap pathOf Hdocs Hpath)).
  assert (∀ p, p ∈ map to stuck → ∃ r, p = to r ∧ r ∈ stuck ∧ files v !! p = Some (pfile r, Some (from r)) ∧
    idx2 !! p = Some (Some p)) as Hstuck.
  { intros p (r & -> & Hr)%in_to. exists r. destruct (pend_moves _ Hok r Hr) as [Hv _]. split_and!; try done.
    rewrite H2. unfold expected. by rewrite decide_True by (by apply Hst). }
  destruct (settle_all pathOf (current l) idx2) as (idx3 & E3 & H3); [apply (rep_wf _ _ _ Hrep)|..].
  { intros p e Hin%jm_in_get; [|apply (rep_wf _ _ _ Hrep)]. apply (rep_some _ _ _ Hrep) in Hin.
    split; [by eapply Hpath|].
    destruct (decide (p ∈ map to stuck)) as [(r & _ & _ & Hv & Hi)%Hstuck|Hn].
    - simplify_eq. destruct (origin e); by simplify_eq.
    - rewrite H2. unfold expected. rewrite decide_False, decide_False, Hin by auto. by destruct (origin e). }
  assert (∀ p f o, files v !! p = Some (f, o) → idx3 !! p = Some o ∨
    (∃ r, r ∈ stuck ∧ pfile r = f) ∧ ∃ d q, o = Some d ∧ d ≠ p ∧ idx3 !! p = Some (Some q)) as H3'.
  { intros p f o Hv. rewrite H3. pose proof (originOf_spec Hrep Hdocs _ _ _ Hv) as Ho. unfold originOf in Ho.
    destruct (decide (p ∈ map to stuck)) as [(r & -> & Hr & Hv' & Hi)%Hstuck|Hn].
    - rewrite Hv in Hv'. injection Hv' as -> Hv'. rewrite Hv' in Ho. right. split; [by exists r|].
      destruct (pend_moves _ Hok r Hr) as [_ Hne]. exists (from r), (to r). split; [done|]. split; [done|].
      destruct (jm_get _ _) as [e|]; [|done]. by rewrite Ho.
    - left. assert (∀ d, o = Some d → idx2 !! p = Some (Some d)) as Hd.
      { intros d ->. rewrite H2. unfold expected. by rewrite decide_False, decide_False, Hv by auto. }
      destruct (jm_get p (current l)) as [e|]; [rewrite Ho; destruct o; auto|]. subst o. auto. }
  exists idx3. split.
  { rewrite (replay_app _ _ _ _ _ E1), (replay_app _ _ _ _ _ E2), (replay_app _ _ _ _ _ E3).
    apply modify_all. intros r Hr. exists (to r). destruct (pend_moves _ Hok r Hr) as [Hv _].
    split; [by eapply Hpath|]. destruct (H3' _ _ _ Hv) as [->|(_ & d & q & _ & _ & ->)]; by eexists. }
  split.
  - intros p. split; [|intros [[f o] Hv]; destruct (H3' _ _ _ Hv) as [->|(_ & d & q & _ & _ & ->)]; by eexists].
    intros [x Hx]. rewrite H3 in Hx. destruct (jm_get p (current l)) as [e|] eqn:Ee.
    { rewrite (rep_some _ _ _ Hrep _ _ Ee). by eexists. }
    rewrite H2 in Hx. unfold expected in Hx.
    destruct (decide (p ∈ map from stuck)) as [(r & _ & _ & -> & _)%Hft%Hstuck|]; [by eexists|].
    destruct (decide (p ∈ map to stuck)); [done|]. destruct (files v !! p); [by eexists|done].
  - intros p f o Hv. destruct (H3' _ _ _ Hv) as [?|[(r & Hr & <-) ?]]; [by left|right]. split; [|done].
    rewrite !elem_of_app. right. right. right. apply (list_elem_of_fmap (λ r, RModify (pfile r))). by exists r.
Qed.

(** ** Witnesses

    [a] moves to [c], [b] is deleted and written anew, and [d] is new. *)

Module BootstrapRun.
Definition files0 : gmap string TAbstractFile := {["a" := 1%nat; "b" := 2%nat]}.
Definition evs : list VaultEvent :=
  [Renamed "a" "c" 1%nat; Deleted "b"; Created "b" 3%nat; Created "d" 4%nat].
Definition pathOf (f : TAbstractFile) : option string :=
  match f with 1%nat => Some "c" | 3%nat => Some "b" | 4%nat => Some "d" | _ => None end%string.
Definition v1 : Vault :=
  mkVault (<["c" := (1%nat, Some "a")]> (base.delete "a" (files (opened files0)))) (gone (opened files0)).
Definition v2 : Vault := mkVault (base.delete "b" (files v1)) ({["b"]} ∪ gone v1).
Definition v3 : Vault :=
  mkVault (<["b" := (3%nat, if decide ("b" ∈ gone v2) then Some "b" else None)]> (files v2)) (gone v2 ∖ {["b"]}).
Definition v4 : Vault :=
  mkVault (<["d" := (4%nat, if decide ("d" ∈ gone v3) then Some "d" else None)]> (files v3)) (gone v3 ∖ {["d"]}).

Lemma run_evs : vault_run (opened files0) evs v4.
Proof.
  apply (vault_snoc _ [Renamed "a" "c" 1%nat; Deleted "b"; Created "b" 3%nat] _ v3).
  - apply (vault_snoc _ [Renamed "a" "c" 1%nat; Deleted "b"] _ v2).
    + apply (vault_snoc _ [Renamed "a" "c" 1%nat] _ v1).
      * apply (vault_snoc _ [] _ (opened files0)); [constructor|]. by apply vault_rename.
      * by apply (vault_delete v1 "b" 2%nat (Some "b"%string)).
    + by apply vault_create.
  - by apply vault_create.
Qed.

Example run_plan : plan (captured evs) = [RRename "a" 1%nat; RModify 3%nat; RCreate 4%nat].
Proof. reflexivity. Qed.

Lemma removed_exact_witness :
  removed "a" (captured evs) = true ↔ is_Some (files0 !! "a") ∧ files v4 !! "a" = None.
Proof. apply (removed_exact files0 evs v4 "a"). exact run_evs. Defined.

Lemma plan_reproduces_vault_witness :
  ∃ idx, replay pathOf (plan (captured evs)) (map_imap (λ p _, Some (Some p)) files0) = Some idx ∧
    (∀ p, is_Some (idx !! p) ↔ is_Some (files v4 !! p)) ∧
    ∀ p f o, files v4 !! p = Some (f, o) →
      idx !! p = Some o ∨ RModify f ∈ plan (captured evs) ∧ ∃ d q, o = Some d ∧ d ≠ p ∧ idx !! p = Some (Some q).
Proof.
  apply (plan_reproduces_vault files0 evs v4 pathOf); [exact run_evs|].
  intros p f o Hp. assert (map_Forall (λ p x, pathOf x.1 = Some p) (files v4)) as H.
  { apply (bool_decide_unpack _). vm_compute. exact I. }
  exact (H p (f, o) Hp).
Defined.
End BootstrapRun.
