(* ===== verification/CliSync.v ===== *)
(** [packages/cli/src/sync.ts], with [kinds.ts] and [attachmentFilter.ts]: the
    command line's three-way sync of a folder with a vault.

    The vault's resources, the hash, UTF-8 and JSON codecs and the glob matcher
    are parameters; the vault answers as it likes, from a state of its own that
    others may change between two calls.  The folder is a map from relative
    paths to regular files and symbolic links, its directories implicit in the
    paths. *)
From Stdlib Require Import String Ascii.
From S2P Require Import Prelude Effects JsString JsMap Json.
#[local] Open Scope Z_scope.

Inductive FileKind := Note | Canvas | Base | Attachment.
#[export] Instance FileKind_eq_dec : EqDecision FileKind.
Proof. solve_decision. Defined.

Notation bytes := (list Byte.byte).

Record SyncFileState := mkFileState {
  skind : FileKind; shash : string; ssize : Z; smtimeMs : Z; sguid : option string }.

Record AttachmentSyncSettings := mkAttachmentSync { enabled : bool; includeGlobs : list string }.

(** The part of the configuration that sync reads and writes. *)
Record RtmdConfig := mkRtmd {
  attachmentSync : option AttachmentSyncSettings;
  sync : option (jsmap string SyncFileState) }.

(** ** Paths *)

Definition isExcluded (relPath : string) : bool :=
  existsb (fun seg => String.prefix "."%string seg) (split "/"%char relPath).

(** ** The snapshot, a plain object: a name every object inherits reads as a
    value without the fields of an entry. *)

Definition snapGet (path : string) (files : jsmap string SyncFileState) : option (option SyncFileState) :=
  match jm_get path files with
  | Some s => Some (Some s)
  | None => if inherits ObjectPrototype path then Some None else None
  end.

(** [snap?.hash] *)
Definition snapHash (snap : option (option SyncFileState)) : option string := shash <$> mjoin snap.

Section sync.
(** The platform *)
Context {text J R : Type}.
Context (hashBytes : bytes → string) (utf8 : text → bytes) (fromUtf8 : bytes → text).
Context (parseJson : text → option J) (stringify stringifyTabbed : J → text).
Context (toLowerCase : string → string) (isMatch : string → string → bool).
Context (afterWrite : Z → Z).

Inductive Err := ConflictError | CliError (message : string) | OtherError.

(** ** The vault's resources *)

Record Listed := mkListed { lpath : string; lguid : string }.
Record Structured := mkStructured {
  s_list : R → R * throws Err (list Listed);
  s_read : string → R → R * throws Err (J * option string * string);  (* value, valueHash, guid *)
  s_replace : string → J → option string → R → R * throws Err string; (* If-Match; guid *)
  s_create : string → J → R → R * throws Err string;
  s_delete : string → R → R * throws Err () }.

Record VaultHandle := mkVaultHandle {
  notes_list : R → R * throws Err (list Listed);
  notes_read : string → R → R * throws Err (text * string);
  notes_replace : string → text → option string → R → R * throws Err string; (* expectedContentHash *)
  notes_create : string → text → R → R * throws Err string;
  notes_delete : string → R → R * throws Err ();
  attachments_list : R → R * throws Err (list (string * string));            (* path, hash *)
  attachments_read : string → R → R * throws Err bytes;
  attachments_upload : string → bytes → option string → bool → R → R * throws Err (); (* If-Match, If-None-Match *)
  attachments_delete : string → R → R * throws Err ();
  canvases : Structured;
  bases : Structured }.

Inductive FsEntry := File (content : bytes) (mtimeMs : Z) | SymbolicLink.

Record LocalEntry := mkLocal { kind : FileKind; size : Z; mtimeMs : Z; hash : string }.
Record RemoteEntry := mkRemote { rkind : FileKind; rhash : option string; rguid : option string }.
Record RemoteContent := mkContent { chash : string; cbytes : bytes; cguid : option string; cvalueHash : option string }.
Record RemotePrecondition := mkPre { contentHash : option string; valueHash : option string; absent : bool }.

Inductive Action := ActUpdate | ActCreate | ActDelete.
Record SyncReport := mkReport { applied : list (Action * string); conflicts : list (string * string) }.

(** Requests that change the vault, and what was listed and fetched: for the
    specification. *)
Inductive Request :=
  | Listing (entries : jsmap string RemoteEntry)
  | Fetched (path : string) (content : RemoteContent)
  | ReplaceNote (path : string) (expectedContentHash : option string)
  | CreateNote (path : string)
  | ReplaceStructured (path : string) (ifMatch : option string)
  | CreateStructured (path : string)
  | Upload (path : string) (ifMatch : option string) (ifNoneMatch : bool)
  | Delete (path : string).

Record State := mkState {
  fs : jsmap string FsEntry;
  clock : Z;
  remote : R;
  files : jsmap string SyncFileState;      (* config.sync.files *)
  report : SyncReport;
  requests : list Request;
  saved : option (jsmap string SyncFileState) }. (* the last writeRtmd *)
#[export] Instance eta_State : Eta State := λ s,
  mkState (fs s) (clock s) (remote s) (files s) (report s) (requests s) (saved s).

(** ** Effects *)

Notation M := (eff State Err).

Definition call {A} (f : R → R * throws Err A) : M A := λ s,
  let '(r, res) := f (remote s) in (s <| remote := r |>, res).
Definition request (r : Request) : M () := update (λ s, s <| requests ::= λ l, l ++ [r] |>).

(** ** Hashes *)

Definition hashText (t : text) : string := hashBytes (utf8 t).

Definition normalizeStructured (t : text) : text :=
  match parseJson t with Some v => stringify v | None => t end.

Definition hashLocalContent (k : FileKind) (b : bytes) : string :=
  match k with
  | Canvas | Base => hashText (normalizeStructured (fromUtf8 b))
  | _ => hashBytes b
  end.

(** ** Kinds and filters *)

Definition kindForPath (relPath : string) : FileKind :=
  let lower := toLowerCase relPath in
  if endsWith ".md" lower then Note
  else if endsWith ".canvas" lower then Canvas
  else if endsWith ".base" lower then Base
  else Attachment.

Definition attachmentsEnabled (config : RtmdConfig) : bool :=
  match attachmentSync config with Some a => enabled a | None => true end.

Definition shouldSyncFile (config : RtmdConfig) (path : string) (k : FileKind) : bool :=
  match k with
  | Attachment =>
    if negb (attachmentsEnabled config) then false
    else
      let globs := match attachmentSync config with Some a => includeGlobs a | None => [] end in
      match globs with [] => true | _ => existsb (isMatch path) globs end
  | _ => true
  end.

Definition filteredSnapshot (config : RtmdConfig) (snapshot : jsmap string SyncFileState) : jsmap string SyncFileState :=
  filter (λ x, shouldSyncFile config x.1 (skind x.2)) snapshot.

Definition forgetIgnoredAttachments (config : RtmdConfig) (snapshot : jsmap string SyncFileState) : jsmap string SyncFileState :=
  foldl (λ m x, if shouldSyncFile config x.1 (skind x.2) then m else jm_delete x.1 m) snapshot snapshot.

(** ** The local scan *)

Definition scanEntry (config : option RtmdConfig) (snapshot : jsmap string SyncFileState) (rel : string) (e : FsEntry) : option LocalEntry :=
  if isExcluded rel then None
  else match e with
       | SymbolicLink => None
       | File content mtime =>
         let k := kindForPath rel in
         if match config with Some c => negb (shouldSyncFile c rel k) | None => false end then None
         else
           let fresh := hashLocalContent k content in
           let h := match snapGet rel snapshot with
                    | Some (Some s) => if (ssize s =? zlength content) && (smtimeMs s =? mtime) then shash s else fresh
                    | _ => fresh
                    end in
           Some (mkLocal k (zlength content) mtime h)
       end.

Definition scanLocal (dir : jsmap string FsEntry) (snapshot : jsmap string SyncFileState) (config : option RtmdConfig) : jsmap string LocalEntry :=
  foldl (λ out x, match scanEntry config snapshot x.1 x.2 with Some l => jm_set x.1 l out | None => out end) [] dir.

(** ** The remote listing and contents *)

Definition listRemote (vault : VaultHandle) (config : option RtmdConfig) : M (jsmap string RemoteEntry) :=
  notes ← call (notes_list vault);
  attachments ← (if match config with Some c => negb (attachmentsEnabled c) | None => false end
                 then mret [] else call (attachments_list vault));
  canvas ← call (s_list (canvases vault));
  base ← call (s_list (bases vault));
  let out := foldl (λ out n, jm_set (lpath n) (mkRemote Note None (Some (lguid n))) out) [] notes in
  let out := foldl (λ out a,
    if match config with Some c => shouldSyncFile c a.1 Attachment | None => true end
    then jm_set a.1 (mkRemote Attachment (Some a.2) None) out else out) out attachments in
  let out := foldl (λ out c, jm_set (lpath c) (mkRemote Canvas None (Some (lguid c))) out) out canvas in
  let out := foldl (λ out b, jm_set (lpath b) (mkRemote Base None (Some (lguid b))) out) out base in
  request (Listing out) ≫= λ _, mret out.

Definition fetchStructured (resource : Structured) (relPath : string) : M RemoteContent :=
  res ← call (s_read resource relPath);
  let '(value, vhash, guid) := res in
  mret (mkContent (hashText (stringify value)) (utf8 (stringifyTabbed value)) (Some guid) vhash).

(** [stringifyTabbed] ends with the newline the source appends. *)
Definition fetchRemote (vault : VaultHandle) (k : FileKind) (relPath : string) : M RemoteContent :=
  content ← match k with
    | Note =>
      note ← call (notes_read vault relPath);
      mret (mkContent (hashText note.1) (utf8 note.1) (Some note.2) None)
    | Canvas => fetchStructured (canvases vault) relPath
    | Base => fetchStructured (bases vault) relPath
    | Attachment =>
      b ← call (attachments_read vault relPath);
      mret (mkContent (hashBytes b) b None None)
    end;
  request (Fetched relPath content) ≫= λ _, mret content.

(** ** Status *)

Inductive ChangeSide := Added | Modified | Deleted.
Record StatusEntry := mkStatus { path : string; stkind : option FileKind; onLocal : option ChangeSide; onRemote : option ChangeSide }.

Definition classifyPath (local : jsmap string LocalEntry) (snapshot : jsmap string SyncFileState) (rem : jsmap string RemoteEntry) (p : string) : StatusEntry :=
  let l := jm_get p local in
  let s := snapGet p snapshot in
  let r := jm_get p rem in
  mkStatus p
    (match l with
     | Some l => Some (kind l)
     | None => match mjoin s with Some s => Some (skind s) | None => rkind <$> r end
     end)
    (match l, s with
     | Some _, None => Some Added
     | None, Some _ => Some Deleted
     | Some l, Some _ => if decide (Some (hash l) = snapHash s) then None else Some Modified
     | None, None => None
     end)
    (match r, s with
     | Some _, None => Some Added
     | None, Some _ => Some Deleted
     | Some r, Some _ =>
       match rhash r with
       | Some h => if decide (Some h = snapHash s) then None else Some Modified
       | None => None
       end
     | None, None => None
     end).

(** [[...paths].sort()] *)
Definition classifyStatus (local : jsmap string LocalEntry) (snapshot : jsmap string SyncFileState) (rem : jsmap string RemoteEntry) : list StatusEntry :=
  let paths := foldl (λ s p, js_add p s) [] (jm_keys local ++ jm_keys snapshot ++ jm_keys rem) in
  filter (λ e, is_Some (onLocal e) ∨ is_Some (onRemote e))
    (map (classifyPath local snapshot rem) (merge_sort String.le paths)).

(** ** Pull and push *)

Definition conflict (p reason : string) : M () :=
  update (λ s, s <| report := mkReport (applied (report s)) (conflicts (report s) ++ [(p, reason)]) |>).
Definition apply (a : Action) (p : string) : M () :=
  update (λ s, s <| report := mkReport (applied (report s) ++ [(a, p)]) (conflicts (report s)) |>).

(** [fs.statSync] of what is not a regular file of the folder throws here. *)
Definition recordLocal (relPath : string) (k : FileKind) (h : string) (guid : option string) : M () :=
  entry ← get (λ s, jm_get relPath (fs s));
  match entry with
  | Some (File content mtime) =>
    let guid := match guid with Some EmptyString => None | _ => guid end in
    update (λ s, s <| files ::= jm_set relPath (mkFileState k h (zlength content) mtime guid) |>)
  | _ => throw OtherError
  end.

Definition writeFile (relPath : string) (content : bytes) : M () :=
  update (λ s, (s <| fs ::= jm_set relPath (File content (clock s)) |>) <| clock ::= afterWrite |>).

Definition differs (l : LocalEntry) (snap : option (option SyncFileState)) : bool :=
  negb (bool_decide (snapHash snap = Some (hash l))).

(** One round of pull's loop over the remote listing. *)
Definition pullPath (vault : VaultHandle) (theirs : bool) (local : jsmap string LocalEntry) (x : string * RemoteEntry) : M () :=
  let '(relPath, r) := x in
  if isExcluded relPath then mret () else
  snapshot ← get files;
  let snap := snapGet relPath snapshot in
  let l := jm_get relPath local in
  if bool_decide (is_Some snap) && bool_decide (is_Some (rhash r)) && bool_decide (rhash r = snapHash snap) then mret () else
  content ← fetchRemote vault (rkind r) relPath;
  let remoteChanged := bool_decide (snap = None) || negb (bool_decide (Some (chash content) = snapHash snap)) in
  if negb remoteChanged then mret () else
  let localChanged := match snap, l with
                      | Some _, Some l => differs l snap
                      | Some _, None => true
                      | None, _ => bool_decide (is_Some l)
                      end in
  if match l with Some l => bool_decide (hash l = chash content) | None => false end
  then recordLocal relPath (rkind r) (chash content) (cguid content)
  else if localChanged && negb theirs
  then conflict relPath "modified locally and remotely (use --theirs to overwrite)"
  else
    entry ← get (λ s, jm_get relPath (fs s));
    match entry with
    | Some SymbolicLink => conflict relPath "local path is a symlink; refusing to overwrite"
    | _ =>
      writeFile relPath (cbytes content) ≫= λ _,
      recordLocal relPath (rkind r) (chash content) (cguid content) ≫= λ _,
      apply (if snap then ActUpdate else ActCreate) relPath
    end.

(** One round of the loop over the snapshot's own keys. *)
Definition pullDeleted (theirs : bool) (local : jsmap string LocalEntry) (rem : jsmap string RemoteEntry) (relPath : string) : M () :=
  if jm_has relPath rem then mret () else
  snapshot ← get files;
  let l := jm_get relPath local in
  if match l with Some l => differs l (snapGet relPath snapshot) && negb theirs | None => false end
  then conflict relPath "deleted remotely but modified locally (use --theirs to delete)"
  else
    (if l then update (λ s, s <| fs ::= jm_delete relPath |>) else mret ()) ≫= λ _,
    update (λ s, s <| files ::= jm_delete relPath |>) ≫= λ _,
    apply ActDelete relPath.

Definition begin (config : RtmdConfig) : M () :=
  update (λ s, (s <| files := forgetIgnoredAttachments config (default [] (sync config)) |>) <| report := mkReport [] [] |>).

Definition finish : M SyncReport :=
  update (λ s, s <| saved := Some (files s) |>) ≫= λ _, get report.

Definition pull (config : RtmdConfig) (vault : VaultHandle) (theirs : bool) : M SyncReport :=
  begin config ≫= λ _,
  local ← get (λ s, scanLocal (fs s) (files s) (Some config));
  rem ← listRemote vault (Some config);
  forEach (pullPath vault theirs local) rem ≫= λ _,
  keys ← get (λ s, jm_keys (files s));
  forEach (pullDeleted theirs local rem) keys ≫= λ _,
  finish.

Definition uploadLocal (vault : VaultHandle) (k : FileKind) (relPath : string) (b : bytes) (exists_ : bool) (pre : RemotePrecondition) : M (option string) :=
  let structured (resource : Structured) : M (option string) :=
    match parseJson (fromUtf8 b) with
    | None => throw (CliError (relPath ++ ": invalid JSON"))
    | Some value =>
      if exists_
      then request (ReplaceStructured relPath (valueHash pre)) ≫= λ _,
           guid ← call (s_replace resource relPath value (valueHash pre)); mret (Some guid)
      else request (CreateStructured relPath) ≫= λ _,
           guid ← call (s_create resource relPath value); mret (Some guid)
    end in
  match k with
  | Note =>
    if exists_
    then request (ReplaceNote relPath (contentHash pre)) ≫= λ _,
         guid ← call (notes_replace vault relPath (fromUtf8 b) (contentHash pre)); mret (Some guid)
    else request (CreateNote relPath) ≫= λ _,
         guid ← call (notes_create vault relPath (fromUtf8 b)); mret (Some guid)
  | Canvas => structured (canvases vault)
  | Base => structured (bases vault)
  | Attachment =>
    request (Upload relPath (contentHash pre) (absent pre)) ≫= λ _,
    call (attachments_upload vault relPath b (contentHash pre) (absent pre)) ≫= λ _, mret None
  end.

Definition deleteRemote (vault : VaultHandle) (k : FileKind) (relPath : string) : M () :=
  request (Delete relPath) ≫= λ _,
  match k with
  | Note => call (notes_delete vault relPath)
  | Canvas => call (s_delete (canvases vault) relPath)
  | Base => call (s_delete (bases vault) relPath)
  | Attachment => call (attachments_delete vault relPath)
  end.

(** [try { ... } catch]: a conflict is the handler's, any other error goes on. *)
Definition catchConflict {A} (m : M A) (onConflict : M ()) (k : A → M ()) : M () := λ s,
  match m s with
  | (s, Returns a) => k a s
  | (s, Throws ConflictError) => onConflict s
  | (s, Throws e) => (s, Throws e)
  end.

(** The checks before an upload; [None] when the path is done with. *)
Definition pushCheck (vault : VaultHandle) (force : bool) (relPath : string) (l : LocalEntry)
    (snap : option (option SyncFileState)) (r : option RemoteEntry) : M (option RemotePrecondition) :=
  match r with
  | Some r =>
    if force then mret (Some (mkPre None None false)) else
    fetched ← (match rhash r with
               | None => content ← fetchRemote vault (rkind r) relPath; mret (Some content)
               | Some _ => mret None
               end);
    let remoteHash := match rhash r with Some h => Some h | None => chash <$> fetched end in
    if bool_decide (remoteHash = Some (hash l))
    then recordLocal relPath (kind l) (hash l) (rguid r) ≫= λ _, mret None
    else if bool_decide (snap = None) || negb (bool_decide (remoteHash = snapHash snap))
    then conflict relPath "modified remotely too (use --force to overwrite)" ≫= λ _, mret None
    else mret (Some (mkPre remoteHash (fetched ≫= cvalueHash) false))
  | None =>
    if bool_decide (is_Some snap) && negb force
    then conflict relPath "deleted remotely but modified locally (use --force to re-create)" ≫= λ _, mret None
    else mret (Some (mkPre None None (negb force)))
  end.

(** One round of push's loop over the local files. *)
Definition pushPath (vault : VaultHandle) (force : bool) (rem : jsmap string RemoteEntry) (x : string * LocalEntry) : M () :=
  let '(relPath, l) := x in
  snapshot ← get files;
  let snap := snapGet relPath snapshot in
  let r := jm_get relPath rem in
  if bool_decide (is_Some snap) && negb (differs l snap) then mret () else
  check ← pushCheck vault force relPath l snap r;
  match check with
  | None => mret ()
  | Some pre =>
    entry ← get (λ s, jm_get relPath (fs s));
    match entry with
    | Some (File content _) =>
      catchConflict (uploadLocal vault (kind l) relPath content (bool_decide (is_Some r)) pre)
        (conflict relPath ((if r then "modified" else "created") ++ " remotely during push (" ++
           (if force then "pull, then push again" else "use --force to overwrite") ++ ")"))
        (λ guid, recordLocal relPath (kind l) (hash l) guid ≫= λ _,
                 apply (if r then ActUpdate else ActCreate) relPath)
    | _ => throw OtherError
    end
  end.

(** One round of the loop over the snapshot's own keys: remote deletion. *)
Definition pushDeleted (vault : VaultHandle) (force : bool) (local : jsmap string LocalEntry) (rem : jsmap string RemoteEntry) (relPath : string) : M () :=
  if jm_has relPath local then mret () else
  snapshot ← get files;
  match jm_get relPath snapshot with
  | None => mret ()
  | Some snap =>
    let forget := update (λ s, s <| files ::= jm_delete relPath |>) in
    match jm_get relPath rem with
    | None => forget
    | Some r =>
      changed ← (if force then mret false
                 else h ← (match rhash r with
                           | Some h => mret h
                           | None => content ← fetchRemote vault (rkind r) relPath; mret (chash content)
                           end);
                      mret (negb (bool_decide (h = shash snap))));
      if changed : bool
      then conflict relPath "deleted locally but modified remotely (use --force to delete)"
      else deleteRemote vault (skind snap) relPath ≫= λ _, apply ActDelete relPath ≫= λ _, forget
    end
  end.

Definition push (config : RtmdConfig) (vault : VaultHandle) (force : bool) : M SyncReport :=
  begin config ≫= λ _,
  local ← get (λ s, scanLocal (fs s) (files s) (Some config));
  rem ← listRemote vault (Some config);
  forEach (pushPath vault force rem) local ≫= λ _,
  keys ← get (λ s, jm_keys (files s));
  forEach (pushDeleted vault force local rem) keys ≫= λ _,
  finish.
End sync.
