(* ===== verification/CliSyncSpec.v ===== *)
(** What the command line's sync promises: [pull] overwrites or deletes only
    local files it finds as the last sync left them, [push] changes only
    remote content it has seen to be as the last sync left it, and [status] is
    empty exactly when nothing differs. *)
From Stdlib Require Import String Ascii.
From S2P Require Import Prelude Effects JsMap Json CliSync.
#[local] Open Scope Z_scope.

(** ** Reasoning about effects *)

Section wp.
Context {text J R : Type}.
Notation State := (State (R := R)).

Lemma wp_call {A} (E : State → Prop) (f : R → R * throws Err A) (Q : A → State → Prop) (s : State) :
  (∀ r a, f (remote s) = (r, Returns a) → Q a (s <| remote := r |>)) → (∀ r, E (s <| remote := r |>)) →
  wp E (call f) Q s.
Proof. intros HQ HE. unfold wp, call. destruct (f (remote s)) as [r [a|e]] eqn:Ef; auto. Qed.

Lemma wp_recordLocal (E : State → Prop) p k h g (Q : () → State → Prop) (s : State) :
  (∀ st, Q () (s <| files ::= jm_set p st |>)) → E s → wp E (recordLocal p k h g) Q s.
Proof.
  intros HQ HE. unfold recordLocal. apply wp_bind, wp_get.
  destruct (jm_get p (fs s)) as [[c m|]|]; [apply wp_update, HQ|done|done].
Qed.
End wp.

Section spec.
Context {text J R : Type}.
Context (hashBytes : bytes → string) (utf8 : text → bytes) (fromUtf8 : bytes → text).
Context (parseJson : text → option J) (stringify stringifyTabbed : J → text).
Context (toLowerCase : string → string) (isMatch : string → string → bool).
Context (afterWrite : Z → Z).
Context (vault : VaultHandle (text := text) (J := J) (R := R)) (config : RtmdConfig).

Notation State := (State (R := R)).
Notation fetchRemote := (fetchRemote hashBytes utf8 stringify stringifyTabbed).
Notation kindForPath := (kindForPath toLowerCase).
Notation shouldSyncFile := (shouldSyncFile isMatch).
Notation scanLocal := (scanLocal hashBytes utf8 fromUtf8 parseJson stringify toLowerCase isMatch).
Notation scanEntry := (scanEntry hashBytes utf8 fromUtf8 parseJson stringify toLowerCase isMatch).
Notation listRemote := (listRemote isMatch).

(** The server routes a path to a resource by its extension, as
    [kindForPath] does. *)
Record routed : Prop := {
  routed_notes r r' l n : notes_list vault r = (r', Returns l) → n ∈ l → kindForPath (lpath n) = Note;
  routed_attachments r r' l a : attachments_list vault r = (r', Returns l) → a ∈ l → kindForPath a.1 = Attachment;
  routed_canvases r r' l n : s_list (canvases vault) r = (r', Returns l) → n ∈ l → kindForPath (lpath n) = Canvas;
  routed_bases r r' l n : s_list (bases vault) r = (r', Returns l) → n ∈ l → kindForPath (lpath n) = Base }.
Context (Hrouted : routed).

(** ** The scan and the listing *)

Lemma scanLocal_get dir snapshot p : jm_wf dir →
  jm_get p (scanLocal dir snapshot (Some config)) = jm_get p dir ≫= scanEntry (Some config) snapshot p.
Proof using Type.
  unfold CliSync.scanLocal, jm_wf. generalize (scanEntry (Some config) snapshot). intros g.
  assert (∀ out, NoDup (jm_keys dir) → jm_get p (foldl (λ out x, match g x.1 x.2 with Some l => jm_set x.1 l out | None => out end) out dir) =
    match jm_get p dir ≫= g p with Some l => Some l | None => jm_get p out end) as H.
  { induction dir as [|[q e] dir IH]; intros out Hwf; simpl; [done|].
    apply NoDup_cons in Hwf as [Hq Hwf]. rewrite IH by done. destruct (decide (p = q)) as [->|Hne]; simpl.
    - destruct (jm_get q dir) eqn:E; [destruct Hq; by apply jm_keys_get|]. simpl.
      destruct (g q e); [by rewrite jm_get_set_eq|done].
    - destruct (jm_get p dir ≫= g p); [done|]. destruct (g q e); [by rewrite jm_get_set_ne|done]. }
  intros Hwf. rewrite H by done. by destruct (jm_get p dir ≫= g p).
Qed.

Lemma scanLocal_wf dir snapshot : jm_wf (scanLocal dir snapshot (Some config)).
Proof using Type.
  unfold CliSync.scanLocal. apply (foldl_preserves (λ m, jm_wf m)); [|constructor].
  intros m x _ Hm. case_match; [by apply jm_wf_set|done].
Qed.

Definition listing_ok (rem : jsmap string RemoteEntry) : Prop :=
  ∀ p r, jm_get p rem = Some r → rkind r = kindForPath p ∧ shouldSyncFile config p (rkind r) = true ∧
    (rhash r = None ∨ rkind r = Attachment).

Lemma listing_ok_set p r rem : rkind r = kindForPath p ∧ shouldSyncFile config p (rkind r) = true ∧
    (rhash r = None ∨ rkind r = Attachment) →
  listing_ok rem → listing_ok (jm_set p r rem).
Proof using Type.
  intros Hr Hl q r'. rewrite jm_get_set. case_decide; [intros; by simplify_eq|apply Hl].
Qed.

Lemma listing_ok_fold {A} (g : A → string * RemoteEntry) (keep : A → bool) (l : list A) rem :
  (∀ x, x ∈ l → keep x = true → rkind (g x).2 = kindForPath (g x).1 ∧
    shouldSyncFile config (g x).1 (rkind (g x).2) = true ∧ (rhash (g x).2 = None ∨ rkind (g x).2 = Attachment)) →
  jm_wf rem ∧ listing_ok rem →
  let rem' := foldl (λ out x, if keep x then jm_set (g x).1 (g x).2 out else out) rem l in jm_wf rem' ∧ listing_ok rem'.
Proof using Type.
  intros Hg. cbv zeta. apply (foldl_preserves (λ m, jm_wf m ∧ listing_ok m)). intros m x Hx [Hwf Hm].
  destruct (keep x) eqn:Ek; [|done]. split; [by apply jm_wf_set|]. apply listing_ok_set; auto.
Qed.

Lemma listRemote_ok s (E : State → Prop) (Q : jsmap string RemoteEntry → State → Prop) :
  (∀ rem r, jm_wf rem → listing_ok rem → Q rem ((s <| remote := r |>) <| requests ::= λ l, l ++ [Listing rem] |>)) →
  (∀ r, E (s <| remote := r |>)) →
  wp E (listRemote vault (Some config)) Q s.
Proof using Hrouted.
  intros HQ HE. unfold CliSync.listRemote. destruct Hrouted as [Hn Ha Hc Hb].
  apply wp_bind, wp_call; [intros r1 notes E1|done]. apply wp_bind.
  assert (∀ (Q' : list (string * string) → State → Prop) s',
    (∀ r atts, (∀ a, a ∈ atts → kindForPath a.1 = Attachment) → Q' atts (s' <| remote := r |>)) →
    (∀ r, E (s' <| remote := r |>)) →
    wp E (if negb (attachmentsEnabled config) then mret [] else call (attachments_list vault)) Q' s') as Hatt.
  { intros Q' s' HQ' HE'. destruct (negb _).
    - apply wp_ret. assert (Q' [] (s' <| remote := remote s' |>)) as Hq by (apply HQ'; by intros a ?%elem_of_nil).
      by destruct s'.
    - apply wp_call; [intros r a Hr; apply HQ'; intros x Hx; by eapply Ha|done]. }
  apply Hatt; [intros r2 atts H2|intros r; apply (HE r)].
  apply wp_bind, wp_call; [intros r3 cs E3|intros r; apply (HE r)].
  apply wp_bind, wp_call; [intros r4 bs E4|intros r; apply (HE r)].
  apply wp_bind, wp_update, wp_ret. match goal with |- Q ?rem _ => cut (jm_wf rem ∧ listing_ok rem); [intros []; by apply (HQ rem r4)|] end.
  apply (listing_ok_fold (λ n, (lpath n, mkRemote Base None (Some (lguid n)))) (λ _, true)).
  { intros n Hin _. simpl. split_and!; [symmetry; by eapply Hb|done|by left]. }
  apply (listing_ok_fold (λ n, (lpath n, mkRemote Canvas None (Some (lguid n)))) (λ _, true)).
  { intros n Hin _. simpl. split_and!; [symmetry; by eapply Hc|done|by left]. }
  apply (listing_ok_fold (λ a, (a.1, mkRemote Attachment (Some a.2) None)) (λ a, shouldSyncFile config a.1 Attachment)).
  { intros a Hin Hs. simpl. split_and!; [symmetry; by apply H2|done|by right]. }
  apply (listing_ok_fold (λ n, (lpath n, mkRemote Note None (Some (lguid n)))) (λ _, true)).
  { intros n Hin _. simpl. split_and!; [symmetry; by eapply Hn|done|by left]. }
  split; [constructor|done].
Qed.

Lemma wp_fetchRemote E k p Q s :
  (∀ c s', fs s' = fs s → files s' = files s → requests s' = requests s ++ [Fetched p c] → Q c s') →
  (∀ s', fs s' = fs s → files s' = files s → requests s' = requests s → E s') →
  wp E (fetchRemote vault k p) Q s.
Proof using Type.
  intros HQ HE. unfold CliSync.fetchRemote, fetchStructured. apply wp_bind.
  assert (∀ c r, wp E (request (Fetched p c) ≫= λ _, mret c) Q (s <| remote := r |>)) as Hreq.
  { intros c r. apply wp_bind, wp_update, wp_ret. by apply HQ. }
  destruct k; (apply wp_bind, wp_call; [intros r a _|intros r; by apply HE]); try apply wp_ret, Hreq.
  all: destruct a as [[value version] guid]; apply wp_ret, Hreq.
Qed.

(** ** Pull *)

Section pull.
Context (s0 : State) (Hfs : jm_wf (fs s0)).
Notation snapshot := (forgetIgnoredAttachments isMatch config (default [] (sync config))).
Notation local := (scanLocal (fs s0) snapshot (Some config)).

(** The scan found the file as the last sync recorded it. *)
Definition as_synced (p : string) : Prop :=
  ∃ l st, jm_get p local = Some l ∧ jm_get p snapshot = Some st ∧ hash l = shash st.

Definition kept (s : State) : Prop :=
  ∀ p e, jm_get p (fs s0) = Some e → jm_get p (fs s) = Some e ∨ as_synced p.

(** What pull leaves alone until it reaches a path. *)
Definition pull_inv (done : list (string * RemoteEntry)) (s : State) : Prop :=
  kept s ∧ ∀ p, p ∉ jm_keys done → jm_get p (files s) = jm_get p snapshot ∧ jm_get p (fs s) = jm_get p (fs s0).

Lemma pull_inv_same done s s' : fs s' = fs s → files s' = files s → pull_inv done s → pull_inv done s'.
Proof using Type. intros E1 E2. unfold pull_inv, kept. by rewrite E1, E2. Qed.

Lemma pull_inv_step done p r s s' : pull_inv done s →
  (∀ q, q ≠ p → jm_get q (files s') = jm_get q (files s) ∧ jm_get q (fs s') = jm_get q (fs s)) →
  (jm_get p (fs s') = jm_get p (fs s) ∨ as_synced p ∨ jm_get p (fs s0) = None) →
  pull_inv (done ++ [(p, r)]) s'.
Proof using Type.
  intros [Hk Hd] Hq Hp. split.
  - intros q e Hqe. destruct (decide (q = p)) as [->|Hne].
    + destruct Hp as [->|[?|?]]; [by apply Hk|by right|congruence].
    + destruct (Hq q Hne) as [_ ->]. by apply Hk.
  - intros q Hin. unfold jm_keys in Hin. rewrite map_app, not_elem_of_app in Hin. simpl in Hin.
    destruct Hin as [Hin Hne]. rewrite list_elem_of_singleton in Hne.
    destruct (Hq q Hne) as [-> ->]. by apply Hd.
Qed.

Lemma snapHash_own p h : snapHash (snapGet p snapshot) = Some h → ∃ st, jm_get p snapshot = Some st ∧ shash st = h.
Proof using Type.
  unfold snapHash, snapGet. destruct (jm_get p snapshot) as [st|]; [intros [= <-]; by exists st|]. by case_match.
Qed.

(** A path without a scanned file that the vault may write has none. *)
Lemma no_local p r rem : listing_ok rem → jm_get p rem = Some r → isExcluded p = false →
  jm_get p local = None → jm_get p (fs s0) = None ∨ jm_get p (fs s0) = Some SymbolicLink.
Proof using Hfs.
  intros Hl Hr He. rewrite scanLocal_get by done. destruct (jm_get p (fs s0)) as [[c m|]|]; [|by right|by left].
  simpl. unfold CliSync.scanEntry. rewrite He. destruct (Hl p r Hr) as (<- & -> & _). done.
Qed.

Lemma pullPath_ok rem done p r s : listing_ok rem → jm_get p rem = Some r → p ∉ jm_keys done → pull_inv done s →
  wp kept (pullPath hashBytes utf8 stringify stringifyTabbed afterWrite vault false local (p, r))
    (λ _, pull_inv (done ++ [(p, r)])) s.
Proof using Hfs.
  intros Hl Hr Hp Hi. unfold pullPath.
  assert (∀ s', fs s' = fs s → files s' = files s → pull_inv (done ++ [(p, r)]) s') as Hsame.
  { intros s' E1 E2. apply (pull_inv_step _ _ _ s); [done|by rewrite E1, E2|left; by rewrite E1]. }
  destruct (isExcluded p) eqn:He; [by apply wp_ret, Hsame|]. apply wp_bind, wp_get.
  destruct (proj2 Hi p Hp) as [Ef Efs].
  assert (snapGet p (files s) = snapGet p snapshot) as Es by (unfold snapGet; by rewrite Ef). rewrite Es.
  case_match; [by apply wp_ret, Hsame|]. apply wp_bind, wp_fetchRemote.
  2: { intros s' E1 E2 _. exact (proj1 (pull_inv_same done _ _ E1 E2 Hi)). }
  intros content s1 E1 E2 _. cbv zeta. case_match; [by apply wp_ret, Hsame|].
  destruct (match jm_get p local with Some l => bool_decide (hash l = chash content) | None => false end) eqn:Eh.
  { apply wp_recordLocal; [|exact (proj1 (pull_inv_same done _ _ E1 E2 Hi))]. intros st.
    apply (pull_inv_step _ _ _ s); [done| |left; simpl; by rewrite E1].
    intros q Hq. simpl. by rewrite jm_get_set_ne, E1, E2 by done. }
  clear Eh. destruct (_ && negb false) eqn:Ec; [by apply wp_update, Hsame|].
  rewrite andb_true_r in Ec. apply wp_bind, wp_get. rewrite E1, Efs.
  assert (as_synced p ∨ jm_get p (fs s0) = None ∨ jm_get p (fs s0) = Some SymbolicLink) as Hok.
  { destruct (snapGet p snapshot) as [snap|] eqn:Esn; destruct (jm_get p local) as [l|] eqn:El; try done.
    - left. unfold differs in Ec. apply negb_false_iff, bool_decide_eq_true in Ec. rewrite <- Esn in Ec.
      destruct (snapHash_own _ _ Ec) as (st & Hst & Hh). by exists l, st.
    - right. by apply (no_local p r rem). }
  assert (jm_get p (fs s0) ≠ Some SymbolicLink → wp kept
    (writeFile afterWrite p (cbytes content) ≫= λ _, recordLocal p (rkind r) (chash content) (cguid content) ≫= λ _,
      apply (if snapGet p snapshot then ActUpdate else ActCreate) p) (λ _, pull_inv (done ++ [(p, r)])) s1) as Hw.
  { intros Hne. assert (∀ s', fs s' = jm_set p (File (cbytes content) (clock s1)) (fs s1) →
      (∀ q, q ≠ p → jm_get q (files s') = jm_get q (files s1)) → pull_inv (done ++ [(p, r)]) s') as Hset.
    { intros s' F1 F2. apply (pull_inv_step _ _ _ s); [done| |right; naive_solver].
      intros q Hq. rewrite F1, F2, jm_get_set_ne, E1, E2 by done. done. }
    apply wp_bind, wp_update, wp_bind, wp_recordLocal.
    - intros st. apply wp_update, Hset; [done|]. intros q Hq. simpl. by rewrite jm_get_set_ne.
    - by refine (proj1 (Hset _ _ _)). }
  destruct (jm_get p (fs s0)) as [[c m|]|] eqn:E0; [by apply Hw|by apply wp_update, Hsame|by apply Hw].
Qed.

Definition deleted_inv (rem : jsmap string RemoteEntry) (s : State) : Prop :=
  kept s ∧ ∀ p, jm_get p rem = None → jm_get p (files s) = jm_get p snapshot ∨ jm_get p (files s) = None.

Lemma pullDeleted_ok rem p s : deleted_inv rem s → wp kept (pullDeleted false local rem p) (λ _, deleted_inv rem) s.
Proof using Type.
  intros [Hk Hd]. unfold pullDeleted. destruct (jm_has p rem) eqn:Eh; [by apply wp_ret|].
  apply jm_get_none in Eh. apply wp_bind, wp_get.
  destruct (match jm_get p local with Some l => _ | None => false end) eqn:Ec; [by apply wp_update|].
  assert (∀ s', fs s' = fs s ∨ fs s' = jm_delete p (fs s) ∧ as_synced p → files s' = jm_delete p (files s) →
    deleted_inv rem s') as Hdel.
  { intros s' Hfs' Ef. split.
    - intros q e Hq. destruct Hfs' as [->|[-> Ha]]; [by apply Hk|].
      rewrite jm_get_delete. destruct (decide (q = p)) as [->|]; [by right|by apply Hk].
    - intros q Hq. rewrite Ef, jm_get_delete. destruct (decide (q = p)); [by right|by apply Hd]. }
  apply wp_bind. destruct (jm_get p local) as [l|] eqn:El.
  - apply wp_update, wp_bind, wp_update, wp_update, Hdel; [right; split; [done|]|done].
    rewrite andb_true_r in Ec. apply negb_false_iff, bool_decide_eq_true in Ec.
    unfold snapHash, snapGet in Ec. destruct (jm_get p (files s)) as [st|] eqn:Ef; [|by case_match].
    destruct (Hd p Eh) as [Hs|Hs]; [|congruence]. rewrite Ef in Hs. injection Ec as Ec. by exists l, st.
  - apply wp_ret, wp_bind, wp_update, wp_update, Hdel; [by left|done].
Qed.

Notation pull := (pull hashBytes utf8 fromUtf8 parseJson stringify stringifyTabbed toLowerCase isMatch afterWrite).

Lemma pull_ok : wp kept (pull config vault false) (λ _, kept) s0.
Proof using Hrouted Hfs.
  unfold CliSync.pull. apply wp_bind, wp_update, wp_bind, wp_get. simpl. apply wp_bind, listRemote_ok.
  2: { intros r p e Hp. by left. }
  intros rem r Hwf Hl. apply wp_bind.
  assert (∀ s, pull_inv rem s → deleted_inv rem s) as Hinv.
  { intros s [Hk Hd]. split; [done|]. intros p Hp. left. apply Hd.
    rewrite jm_keys_get, Hp. by intros [? ?]. }
  eapply wp_mono; [|apply (wp_forEach kept pull_inv)].
  - intros [] s1 H1%Hinv. apply wp_bind, wp_get, wp_bind.
    eapply wp_mono; [|apply (wp_forEach kept (λ _, deleted_inv rem)); [|exact H1]].
    + intros [] s2 H2. apply wp_bind, wp_update, wp_get. apply H2.
    + intros l1 p l2 s2 _ H2. by apply pullDeleted_ok.
  - intros l1 [p x] l2 s1 -> H1. apply (pullPath_ok _ _ _ _ _ Hl); [|..|done].
    + apply jm_in_get; [done|]. apply elem_of_app. right. by left.
    + unfold jm_wf, jm_keys in Hwf. rewrite map_app in Hwf. apply NoDup_app in Hwf as (_ & Hd & _).
      intros Hin. apply (Hd p Hin). by left.
  - split; [intros p e Hp; by left|done].
Qed.
End pull.

(** ** Push *)

Section push.
Context (s0 : State) (Hfs : jm_wf (fs s0)).
Notation snapshot := (forgetIgnoredAttachments isMatch config (default [] (sync config))).
Notation local := (scanLocal (fs s0) snapshot (Some config)).

(** The requests a push that is not forced may make, among those it made. *)
Definition fair (new : list Request) (q : Request) : Prop :=
  match q with
  | Listing _ | Fetched _ _ => True
  | ReplaceNote p expected => ∃ st, jm_get p snapshot = Some st ∧ expected = Some (shash st)
  | ReplaceStructured p version => ∃ st c, jm_get p snapshot = Some st ∧ Fetched p c ∈ new ∧
      chash c = shash st ∧ version = cvalueHash c
  | Upload p expected fresh => (∃ st, jm_get p snapshot = Some st ∧ expected = Some (shash st)) ∨
      jm_get p snapshot = None ∧ expected = None ∧ fresh = true
  | CreateNote p | CreateStructured p => jm_get p snapshot = None
  | Delete p => jm_get p local = None ∧ ∃ st, jm_get p snapshot = Some st ∧
      ((∃ c, Fetched p c ∈ new ∧ chash c = shash st) ∨
       ∃ rem r, Listing rem ∈ new ∧ jm_get p rem = Some r ∧ rhash r = Some (shash st))
  end.

Definition all_fair (s : State) : Prop :=
  ∃ new, requests s = requests s0 ++ new ∧ ∀ q, q ∈ new → fair new q.

(** The log of a push that has the listing [rem]. *)
Definition log_ok (rem : jsmap string RemoteEntry) (s : State) (new : list Request) : Prop :=
  requests s = requests s0 ++ new ∧ Listing rem ∈ new ∧ ∀ q, q ∈ new → fair new q.

Lemma fair_mono new more q : fair new q → fair (new ++ more) q.
Proof using Type.
  assert (∀ x, x ∈ new → x ∈ new ++ more) as Hm by (intros; apply elem_of_app; by left).
  destruct q; simpl; naive_solver.
Qed.

Lemma log_ok_add rem s s' new more : log_ok rem s new → requests s' = requests s ++ more →
  (∀ q, q ∈ more → fair (new ++ more) q) → log_ok rem s' (new ++ more).
Proof using Type.
  intros (E & Hl & Hf) E' Hm. split_and!.
  - by rewrite E', E, (assoc_L (++)).
  - by apply elem_of_app; left.
  - intros q [Hq|Hq]%elem_of_app; [by apply fair_mono, Hf|by apply Hm].
Qed.

Lemma log_ok_fair rem s new : log_ok rem s new → all_fair s.
Proof using Type. intros (? & _ & ?). by exists new. Qed.

(** The snapshot entries of the paths still to come. *)
Definition push_inv (rem : jsmap string RemoteEntry) (done : list (string * LocalEntry)) (s : State) : Prop :=
  (∃ new, log_ok rem s new) ∧ ∀ p, p ∉ jm_keys done → jm_get p (files s) = jm_get p snapshot.

Lemma push_inv_step rem done p l s s' : push_inv rem done s → (∃ new, log_ok rem s' new) →
  (∀ q, q ≠ p → jm_get q (files s') = jm_get q (files s)) → push_inv rem (done ++ [(p, l)]) s'.
Proof using Type.
  intros [_ Hd] Hn Hq. split; [done|]. intros q Hin. unfold jm_keys in Hin.
  rewrite map_app, not_elem_of_app in Hin. simpl in Hin. destruct Hin as [Hin Hne].
  rewrite list_elem_of_singleton in Hne. rewrite Hq by done. by apply Hd.
Qed.

(** What the checks established before an upload. *)
Definition checked (new : list Request) (p : string) (k : FileKind) (exists_ : bool) (pre : RemotePrecondition) : Prop :=
  if exists_ then
    ∃ st, jm_get p snapshot = Some st ∧ contentHash pre = Some (shash st) ∧
      (k = Canvas ∨ k = Base → ∃ c, Fetched p c ∈ new ∧ chash c = shash st ∧ valueHash pre = cvalueHash c)
  else jm_get p snapshot = None ∧ contentHash pre = None ∧ absent pre = true.

Lemma uploadLocal_ok rem k p b exists_ pre s new : log_ok rem s new → checked new p k exists_ pre →
  let after s' := files s' = files s ∧ ∃ new', log_ok rem s' new' in
  wp after (uploadLocal fromUtf8 parseJson vault k p b exists_ pre) (λ _, after) s.
Proof using Type.
  intros Hlog Hc after.
  assert (∀ q r, fair (new ++ [q]) q → after ((s <| requests ::= λ l, l ++ [q] |>) <| remote := r |>)) as Hq.
  { intros q r Hf. split; [done|]. exists (new ++ [q]). eapply log_ok_add; [done..|].
    by intros q' ->%list_elem_of_singleton. }
  assert (∀ {A} q (f : R → R * throws Err A) (g : A → option string), fair (new ++ [q]) q →
    wp after (request q ≫= λ _, call f ≫= λ a, mret (g a)) (λ _, after) s) as Hcall.
  { intros A q f g Hf. apply wp_bind, wp_update, wp_bind, wp_call; [intros r a _; by apply wp_ret, Hq|intros r; by apply Hq]. }
  assert (after s) as Hs by (split; [done|by exists new]).
  unfold uploadLocal. destruct k.
  - destruct exists_; apply Hcall; simpl; [destruct Hc as (st & ? & ? & _); by exists st|by destruct Hc].
  - destruct (parseJson _); [|done]. destruct exists_; apply Hcall; simpl; [|by destruct Hc].
    destruct Hc as (st & ? & _ & (c & ? & ? & ?)); [by left|]. exists st, c. split_and!; try done. by apply elem_of_app; left.
  - destruct (parseJson _); [|done]. destruct exists_; apply Hcall; simpl; [|by destruct Hc].
    destruct Hc as (st & ? & _ & (c & ? & ? & ?)); [by right|]. exists st, c. split_and!; try done. by apply elem_of_app; left.
  - apply (Hcall unit _ _ (λ _, None)). simpl. destruct exists_; [left|by right].
    destruct Hc as (st & ? & ? & _); by exists st.
Qed.

Lemma snapGet_none p : snapGet p snapshot = None → jm_get p snapshot = None.
Proof using Type. unfold snapGet. by destruct (jm_get p snapshot). Qed.

Lemma pushCheck_ok rem done p l s new E Q : listing_ok rem → kind l = kindForPath p →
  push_inv rem done s → log_ok rem s new →
  (∀ s', files s' = files s → (∃ new', log_ok rem s' new') → E s') →
  (∀ s', (∃ new', log_ok rem s' new') → (∀ q, q ≠ p → jm_get q (files s') = jm_get q (files s)) → Q None s') →
  (∀ pre s' new', log_ok rem s' new' → files s' = files s →
    checked new' p (kind l) (bool_decide (is_Some (jm_get p rem))) pre → Q (Some pre) s') →
  wp E (pushCheck hashBytes utf8 stringify stringifyTabbed vault false p l (snapGet p snapshot) (jm_get p rem)) Q s.
Proof using Type.
  intros Hl Hk Hi Hlog HE HQ1 HQ2. unfold pushCheck.
  destruct (jm_get p rem) as [r|] eqn:Er.
  - destruct (Hl p r Er) as (Hrk & _ & Hrh). apply wp_bind.
    match goal with |- wp _ ?m ?Q' s => cut (∀ f s' new', log_ok rem s' new' → files s' = files s →
      (match f with None => rhash r ≠ None | Some c => rhash r = None ∧ Fetched p c ∈ new' end) → Q' f s') end.
    { intros H. destruct (rhash r) as [h|] eqn:Eh; [by apply wp_ret, (H None s new)|].
      apply wp_bind, wp_fetchRemote.
      - intros c s' _ F1 F2. apply wp_ret, (H (Some c) s' (new ++ [Fetched p c])); [|done|].
        + eapply log_ok_add; [done..|]. by intros q ->%list_elem_of_singleton.
        + split; [done|]. apply elem_of_app. right. by left.
      - intros s' _ F1 F2. apply HE; [done|]. exists new. by destruct Hlog as (E1 & ?); split; [rewrite F2|]. }
    intros f s1 new1 Hlog1 Ef Hf. cbv beta zeta.
    set (h := match rhash r with Some h => Some h | None => chash <$> f end).
    destruct (bool_decide (h = Some (hash l))).
    { apply wp_bind, wp_recordLocal; [intros st; apply wp_ret, HQ1; [by exists new1|]|by apply HE; [|exists new1]].
      intros q Hq. simpl. by rewrite jm_get_set_ne, Ef. }
    destruct (bool_decide (snapGet p snapshot = None) || _) eqn:Ec.
    { apply wp_bind, wp_update, wp_ret, HQ1; [by exists new1|intros; simpl; by rewrite Ef]. }
    apply orb_false_iff in Ec as [Ec1 Ec2%negb_false_iff]. apply bool_decide_eq_true in Ec2.
    apply wp_ret, (HQ2 _ s1 new1); [done..|]. simpl.
    assert (∃ h', h = Some h') as [h' Eh'].
    { unfold h. destruct (rhash r) as [x|]; [by exists x|]. destruct f as [c|]; [by exists (chash c)|done]. }
    rewrite Eh' in Ec2. symmetry in Ec2. destruct (snapHash_own _ _ Ec2) as (st & Hst & Hh). subst h'.
    exists st. split; [done|]. split; [done|]. intros Hkind. rewrite Hk, <- Hrk in Hkind.
    destruct f as [c|]; [|by destruct Hrh as [?|Hat]; [|rewrite Hat in Hkind; destruct Hkind]].
    destruct Hf as [Ehash Hf]. exists c. split; [done|]. unfold h in Eh'. rewrite Ehash in Eh'. simpl in Eh'. by simplify_eq.
  - destruct (bool_decide (is_Some (snapGet p snapshot)) && negb false) eqn:Ec.
    + apply wp_bind, wp_update, wp_ret, HQ1; [by exists new|done].
    + rewrite andb_true_r in Ec. apply bool_decide_eq_false in Ec. apply wp_ret, (HQ2 _ s new); [done..|].
      split; [|done]. apply snapGet_none. by apply eq_None_not_Some.
Qed.

Lemma wp_catchConflict {A} P E (m : eff State Err A) h (k : A → eff State Err ()) Q s :
  wp P m (λ _, P) s → (∀ a s', P s' → wp E (k a) Q s') → (∀ s', P s' → wp E h Q s') → (∀ s', P s' → E s') →
  wp E (catchConflict m h k) Q s.
Proof using Type.
  intros Hm Hk Hh HE. unfold wp in Hm |- *. unfold catchConflict.
  destruct (m s) as [s' [a|[]]]; [by apply Hk|by apply Hh|by apply HE|by apply HE].
Qed.

Lemma scanned p l : jm_get p local = Some l → kind l = kindForPath p ∧ ∃ c m, jm_get p (fs s0) = Some (File c m).
Proof using Hfs.
  rewrite scanLocal_get by done. destruct (jm_get p (fs s0)) as [[c m|]|]; simpl; [|unfold CliSync.scanEntry; by case_match|done].
  unfold CliSync.scanEntry. repeat case_match; intros; simplify_eq/=; eauto.
Qed.

Notation pushPath := (pushPath hashBytes utf8 fromUtf8 parseJson stringify stringifyTabbed vault false).

Lemma pushPath_ok rem done p l s : listing_ok rem → jm_get p local = Some l → p ∉ jm_keys done → push_inv rem done s →
  wp all_fair (pushPath rem (p, l)) (λ _, push_inv rem (done ++ [(p, l)])) s.
Proof using Hfs.
  intros Hl Hp Hd Hi. destruct (scanned p l Hp) as [Hk _]. destruct (proj1 Hi) as [new Hlog]. unfold CliSync.pushPath.
  apply wp_bind, wp_get. cbv beta zeta.
  assert (snapGet p (files s) = snapGet p snapshot) as -> by (unfold snapGet; by rewrite (proj2 Hi p Hd)).
  assert (∀ s', (∃ new', log_ok rem s' new') → (∀ q, q ≠ p → jm_get q (files s') = jm_get q (files s)) →
    push_inv rem (done ++ [(p, l)]) s') as Hstep by (intros; by eapply push_inv_step).
  case_match; [apply wp_ret, Hstep; [by exists new|done]|]. apply wp_bind.
  apply (pushCheck_ok rem done p l s new); try done.
  - intros s' _ [new' H']. by eapply log_ok_fair.
  - intros pre s' new' Hlog' Hf Hc. apply wp_bind, wp_get.
    destruct (jm_get p (fs s')) as [[content m|]|]; [|by eapply log_ok_fair..].
    eapply wp_catchConflict; [by eapply uploadLocal_ok|..]; simpl.
    + intros guid s2 [F2 Hl2]. apply wp_bind, wp_recordLocal.
      * intros st. apply wp_update, Hstep; [done|]. intros q Hq. simpl. by rewrite jm_get_set_ne, F2, Hf.
      * destruct Hl2 as [n2 Hl2]. by eapply log_ok_fair.
    + intros s2 [F2 Hl2]. apply wp_update, Hstep; [done|]. intros q Hq. simpl. by rewrite F2, Hf.
    + intros s2 [_ [n2 Hl2]]. by eapply log_ok_fair.
Qed.

Definition push_deleted_inv (rem : jsmap string RemoteEntry) (s : State) : Prop :=
  (∃ new, log_ok rem s new) ∧
  ∀ p, jm_get p local = None → jm_get p (files s) = jm_get p snapshot ∨ jm_get p (files s) = None.

Lemma pushDeleted_ok rem p s : push_deleted_inv rem s →
  wp all_fair (pushDeleted hashBytes utf8 stringify stringifyTabbed vault false local rem p) (λ _, push_deleted_inv rem) s.
Proof using Type.
  intros [[new Hlog] Hd]. unfold pushDeleted.
  destruct (jm_has p local) eqn:Eh; [by apply wp_ret; split; [exists new|]|]. apply jm_get_none in Eh.
  apply wp_bind, wp_get. destruct (jm_get p (files s)) as [snap|] eqn:Es; [|by apply wp_ret; split; [exists new|]].
  assert (jm_get p snapshot = Some snap) as Hs by (destruct (Hd p Eh); congruence).
  assert (∀ s', (∃ new, log_ok rem s' new) → files s' = jm_delete p (files s) → push_deleted_inv rem s') as Hdel.
  { intros s' Hn Ef. split; [done|]. intros q Hq. rewrite Ef, jm_get_delete.
    destruct (decide (q = p)); [by right|by apply Hd]. }
  destruct (jm_get p rem) as [r|] eqn:Er; [|by apply wp_update, Hdel; [exists new|]].
  apply wp_bind.
  match goal with |- wp _ ?m ?Q' s => cut (∀ h s' new', log_ok rem s' new' → files s' = files s →
    (rhash r = Some h ∨ ∃ c, Fetched p c ∈ new' ∧ chash c = h) → Q' (negb (bool_decide (h = shash snap))) s') end.
  { intros H. apply wp_bind. destruct (rhash r) as [h|] eqn:Erh; [apply wp_ret, wp_ret, (H h s new); auto|].
    apply wp_bind, wp_fetchRemote.
    - intros c s' _ F1 F2. apply wp_ret, wp_ret, (H (chash c) s' (new ++ [Fetched p c])); [|done|].
      + eapply log_ok_add; [done..|]. by intros q ->%list_elem_of_singleton.
      + right. exists c. split; [|done]. apply elem_of_app. right. by left.
    - intros s' _ F1 F2. exists new. destruct Hlog as (E1 & _ & ?). by split; [rewrite F2|]. }
  intros h s1 new1 Hlog1 F1 Hh. cbv beta. destruct (negb _) eqn:Ec.
  { apply wp_update. split; [by exists new1|]. intros q Hq. simpl. rewrite F1. by apply Hd. }
  apply negb_false_iff, bool_decide_eq_true in Ec. subst h. unfold deleteRemote.
  apply wp_bind, wp_bind, wp_update.
  assert (∀ r', ∃ new', log_ok rem ((s1 <| requests ::= λ l, l ++ [Delete p] |>) <| remote := r' |>) new') as Hreq.
  { intros r'. exists (new1 ++ [Delete p]). eapply log_ok_add; [done..|]. intros q ->%list_elem_of_singleton.
    simpl. split; [done|]. exists snap. split; [done|]. setoid_rewrite elem_of_app.
    destruct Hh as [Hh|(c & ? & ?)]; [right; exists rem, r|left; exists c]; (split; [by left|done]) || idtac.
    split; [left; by apply Hlog1|done]. }
  assert (∀ (f : R → R * throws Err ()), wp all_fair (call f)
    (λ _, wp all_fair (apply ActDelete p ≫= λ _, update (λ s, s <| files ::= jm_delete p |>)) (λ _, push_deleted_inv rem))
    (s1 <| requests ::= λ l, l ++ [Delete p] |>)) as Hcall.
  { intros f. apply wp_call.
    - intros r' [] _. apply wp_bind, wp_update, wp_update, Hdel; [apply Hreq|simpl; by rewrite F1].
    - intros r'. destruct (Hreq r') as [n Hn]. by eapply log_ok_fair. }
  destruct (skind snap); apply Hcall.
Qed.

Notation push := (push hashBytes utf8 fromUtf8 parseJson stringify stringifyTabbed toLowerCase isMatch).

Lemma push_ok : wp all_fair (push config vault false) (λ _, all_fair) s0.
Proof using Hrouted Hfs.
  unfold CliSync.push. apply wp_bind, wp_update, wp_bind, wp_get. simpl. apply wp_bind, listRemote_ok.
  2: { intros r. exists []. simpl. rewrite app_nil_r. split; [done|]. by intros q ?%elem_of_nil. }
  intros rem r Hwf Hl. apply wp_bind.
  eapply wp_mono; [|apply (wp_forEach all_fair (push_inv rem))].
  - intros [] s1 [Hn Hd]. apply wp_bind, wp_get, wp_bind.
    eapply wp_mono; [|apply (wp_forEach all_fair (λ _, push_deleted_inv rem))].
    + intros [] s2 [[n Hn2] _]. apply wp_bind, wp_update, wp_get. by eapply log_ok_fair.
    + intros l1 p l2 s2 _ H2. by apply pushDeleted_ok.
    + split; [done|]. intros p Hp. left. apply Hd. rewrite jm_keys_get, Hp. by intros [? ?].
  - intros l1 [p x] l2 s1 Hsplit H1. pose proof (scanLocal_wf (fs s0) snapshot) as Hlwf.
    apply pushPath_ok; [done|..|done].
    + apply jm_in_get; [done|]. rewrite Hsplit. apply elem_of_app. right. by left.
    + unfold jm_wf, jm_keys in Hlwf. rewrite Hsplit, map_app in Hlwf. apply NoDup_app in Hlwf as (_ & Hd & _).
      intros Hin. apply (Hd p Hin). by left.
  - split; [|done]. exists [Listing rem]. split_and!; [done|by left|by intros q ->%list_elem_of_singleton].
Qed.
End push.
End spec.


(** C33: a [push] without [--force] changes remote content only as the last sync
    recorded it, whatever the vault answers: a replace or an upload names that
    version for the server to refuse any other, a new file is made only where
    the snapshot knows none, and a deletion is of a file gone locally whose
    remote content was seen to be the recorded one. *)
Theorem push_replaces_only_synced {text J R : Type} hashBytes utf8 fromUtf8 parseJson stringify stringifyTabbed
    toLowerCase isMatch (vault : VaultHandle (text := text) (J := J) (R := R)) config s0 :
  routed toLowerCase vault → jm_wf (fs s0) →
  let snapshot := forgetIgnoredAttachments isMatch config (default [] (sync config)) in
  let local := scanLocal hashBytes utf8 fromUtf8 parseJson stringify toLowerCase isMatch (fs s0) snapshot (Some config) in
  ∃ new, requests (push hashBytes utf8 fromUtf8 parseJson stringify stringifyTabbed toLowerCase isMatch
                     config vault false s0).1 = requests s0 ++ new ∧
    ∀ q, q ∈ new →
      match q with
      | Listing _ | Fetched _ _ => True
      | ReplaceNote p expected => ∃ st, jm_get p snapshot = Some st ∧ expected = Some (shash st)
      | ReplaceStructured p version => ∃ st c, jm_get p snapshot = Some st ∧ Fetched p c ∈ new ∧
          chash c = shash st ∧ version = cvalueHash c
      | Upload p expected fresh => (∃ st, jm_get p snapshot = Some st ∧ expected = Some (shash st)) ∨
          jm_get p snapshot = None ∧ expected = None ∧ fresh = true
      | CreateNote p | CreateStructured p => jm_get p snapshot = None
      | Delete p => jm_get p local = None ∧ ∃ st, jm_get p snapshot = Some st ∧
          ((∃ c, Fetched p c ∈ new ∧ chash c = shash st) ∨
           ∃ rem r, Listing rem ∈ new ∧ jm_get p rem = Some r ∧ rhash r = Some (shash st))
      end.
Proof.
  intros Hr Hfs snapshot local.
  pose proof (push_ok hashBytes utf8 fromUtf8 parseJson stringify stringifyTabbed toLowerCase isMatch
    vault config Hr s0 Hfs) as H.
  unfold wp in H. destruct (push _ _ _ _ _ _ _ _ _ _ _ s0) as [s1 [a|err]]; exact H.
Qed.

(** ** Status *)

(** The two sides of one path agree with the snapshot. *)
Definition in_sync (l : option LocalEntry) (st : option SyncFileState) (r : option RemoteEntry) : Prop :=
  match l, st with Some l, Some st => hash l = shash st | None, None => True | _, _ => False end ∧
  match r, st with Some r, Some st => ∀ h, rhash r = Some h → h = shash st | None, None => True | _, _ => False end.

Lemma foldl_js_add (l : list string) s p : p ∈ foldl (λ s p, js_add p s) s l ↔ p ∈ s ∨ p ∈ l.
Proof.
  revert s. induction l as [|q l IH]; intros s; simpl; [split; [by left|by intros [?|?%elem_of_nil]]|]. rewrite IH, js_add_in, elem_of_cons. naive_solver.
Qed.

Lemma merge_sort_in (l : list string) p : p ∈ merge_sort String.le l ↔ p ∈ l.
Proof. by rewrite merge_sort_Permutation. Qed.

Lemma classifyPath_clean local snapshot rem p :
  (p ∈ jm_keys local ∨ p ∈ jm_keys snapshot ∨ p ∈ jm_keys rem) →
  (onLocal (classifyPath local snapshot rem p) = None ∧ onRemote (classifyPath local snapshot rem p) = None ↔
   in_sync (jm_get p local) (jm_get p snapshot) (jm_get p rem)).
Proof.
  rewrite !jm_keys_get. intros Hin. unfold classifyPath, in_sync, snapHash, snapGet. simpl.
  destruct (jm_get p local) as [l|]; destruct (jm_get p snapshot) as [st|]; destruct (jm_get p rem) as [[k [h|] g]|];
    simpl; repeat first [case_decide | case_match]; split; intros [Hl Hr]; try done;
    try specialize (Hr _ eq_refl); try (exfalso; congruence); try (split; [|intros ??]; congruence); try (destruct Hin as [[]|[[]|[]]]; done).
Qed.

(** [status] reports nothing exactly when, at every path, the folder and
    the vault's listing both agree with the snapshot: the path is known to all
    or to none, the local hash is the recorded one, and so is the remote hash
    where the listing has one. *)
Theorem status_clean local snapshot rem :
  classifyStatus local snapshot rem = [] ↔
  ∀ p, in_sync (jm_get p local) (jm_get p snapshot) (jm_get p rem).
Proof.
  set (known p := p ∈ jm_keys local ∨ p ∈ jm_keys snapshot ∨ p ∈ jm_keys rem).
  assert (∀ p, p ∈ merge_sort String.le (foldl (λ s p, js_add p s) [] (jm_keys local ++ jm_keys snapshot ++ jm_keys rem)) ↔ known p) as Hk.
  { intros p. rewrite merge_sort_in, foldl_js_add, !elem_of_app. unfold known. split; [|by right]. intros [?%elem_of_nil|?]; done. }
  unfold classifyStatus. set (paths := merge_sort _ _) in *. split.
  - intros He p. destruct (decide (p ∈ paths)) as [Hp|Hp].
    + apply Hk in Hp as Hkn. apply (classifyPath_clean _ _ _ _ Hkn).
      assert (classifyPath local snapshot rem p ∉ filter (λ e, is_Some (onLocal e) ∨ is_Some (onRemote e))
        (map (classifyPath local snapshot rem) paths)) as Hn by (rewrite He; apply not_elem_of_nil).
      rewrite list_elem_of_filter in Hn. rewrite !eq_None_not_Some.
      assert (classifyPath local snapshot rem p ∈ map (classifyPath local snapshot rem) paths)
        by (apply (list_elem_of_fmap (classifyPath local snapshot rem)); by exists p). tauto.
    + rewrite Hk in Hp. unfold known in Hp. rewrite !jm_keys_get in Hp.
      destruct (jm_get p local), (jm_get p snapshot), (jm_get p rem); try (by split); destruct Hp; eauto.
  - intros H. apply elem_of_nil_inv. intros e [Hs (p & -> & Hp)%(list_elem_of_fmap (classifyPath local snapshot rem))]%list_elem_of_filter.
    apply Hk in Hp. destruct (proj2 (classifyPath_clean _ _ _ _ Hp) (H p)) as [E1 E2]. rewrite E1, E2 in Hs. by destruct Hs as [[? ?]|[? ?]].
Qed.

(** ** Witnesses

    One note, edited in the folder and in the vault since the last sync. *)

Module SyncRun.
Definition text : Type := bytes.
Definition hashBytes (b : bytes) : string := string_of_list_byte b.
Definition resource (listed : list Listed) : Structured (J := text) (R := ()) :=
  mkStructured (λ r, (r, Returns listed)) (λ _ r, (r, Throws OtherError)) (λ _ _ _ r, (r, Throws OtherError))
    (λ _ _ r, (r, Throws OtherError)) (λ _ r, (r, Throws OtherError)).
Definition vault : VaultHandle (text := text) (J := text) (R := ()) :=
  mkVaultHandle
    (λ r, (r, Returns [mkListed "a.md" "g1"])) (λ _ r, (r, Returns ([Byte.x62], "g1"%string)))
    (λ _ _ _ r, (r, Throws ConflictError)) (λ _ _ r, (r, Returns "g2"%string)) (λ _ r, (r, Returns ()))
    (λ r, (r, Returns [])) (λ _ r, (r, Throws OtherError)) (λ _ _ _ _ r, (r, Returns ())) (λ _ r, (r, Returns ()))
    (resource []) (resource []).
Definition config : RtmdConfig :=
  mkRtmd None (Some [("a.md", mkFileState Note "a" 1 10 None); ("b.md", mkFileState Note "b" 1 10 None)])%string.
Definition start : State (R := ()) :=
  mkState [("a.md", File [Byte.x63] 20); ("c.md", File [Byte.x63] 20)]%string 30 () [] (mkReport [] []) [] None.

Lemma vault_routed : routed (λ p, p) vault.
Proof.
  split; simpl; intros r r' l n [= <- <-] Hin; try by apply elem_of_nil in Hin.
  apply list_elem_of_singleton in Hin as ->. reflexivity.
Qed.

Definition pulled : State (R := ()) :=
  (pull hashBytes (λ b, b) (λ b, b) (λ _, None) (λ b, b) (λ b, b) (λ p, p) (λ _ _, false) (λ t, t + 1) config vault false start).1.

Example pulled_conflict :
  map fst (conflicts (report pulled)) = ["a.md"%string] ∧ map snd (applied (report pulled)) = ["b.md"%string].
Proof. split; reflexivity. Qed.


Lemma push_replaces_only_synced_witness :
  ∃ new, requests (push hashBytes (λ b, b) (λ b, b) (λ _, None) (λ b, b) (λ b, b) (λ p, p) (λ _ _, false)
                     config vault false start).1 = new ∧
    ∀ p, CreateNote p ∈ new → jm_get p (forgetIgnoredAttachments (λ _ _, false) config (default [] (sync config))) = None.
Proof.
  destruct (push_replaces_only_synced hashBytes (λ b, b) (λ b, b) (λ _, None) (λ b, b) (λ b, b) (λ p, p) (λ _ _, false)
    vault config start) as (new & E & H).
  - exact vault_routed.
  - apply (bool_decide_unpack _). vm_compute. exact I.
  - exists new. split; [exact E|]. intros p Hp. exact (H (CreateNote p) Hp).
Defined.
End SyncRun.
