(* ===== verification/LocalState.v ===== *)
(** [src/localSyncState.ts]: what this device last reconciled for each path,
    kept in a Yjs map of a device-local document.

    The map is a finite map here; an entry written before entries were objects
    is still the bare kind.  The fields of an entry that may be left out are
    options, and [identity], [replacedIdentity] and [publishedFrom], which may
    also be null, are options of options.  The key order of [entries] is not
    kept, and [updates] counts the Yjs updates the writes emit. *)
From Stdlib Require Import String.
From S2P Require Import Prelude.
#[local] Open Scope Z_scope.

Inductive MaterializedKind := KText | KCanvas | KBase | KBinary | KConfig.
#[export] Instance MaterializedKind_eq_dec : EqDecision MaterializedKind.
Proof. solve_decision. Defined.

Record LocalPathState := mkPath {
  kind : MaterializedKind;
  identity : option (option string);
  fingerprint : option string;
  candidate : option bool;
  candidateFingerprint : option string;
  diskFingerprint : option string;
  replacedIdentity : option (option string);
  publishedFrom : option (option string) }.
#[export] Instance LocalPathState_eq_dec : EqDecision LocalPathState.
Proof. solve_decision. Defined.
#[export] Instance eta_LocalPathState : Eta LocalPathState := λ r,
  mkPath (kind r) (identity r) (fingerprint r) (candidate r) (candidateFingerprint r)
    (diskFingerprint r) (replacedIdentity r) (publishedFrom r).

(** [{ kind }] *)
Definition kindOnly (k : MaterializedKind) : LocalPathState :=
  mkPath k None None None None None None None.

Record LocalSyncState := mkLocal {
  paths : gmap string (MaterializedKind + LocalPathState);
  indexEpoch : option Z;
  updates : nat }.
#[export] Instance eta_LocalSyncState : Eta LocalSyncState := λ r,
  mkLocal (paths r) (indexEpoch r) (updates r).

(** A string that passes a truth test *)
Definition truthy (s : option string) : option string :=
  match s with Some EmptyString => None | _ => s end.

Lemma truthy_Some s x : truthy s = Some x → s = Some x.
Proof. destruct s as [[]|]; simpl; congruence. Qed.

Lemma truthy_nonempty s : (∀ x, s = Some x → x ≠ ""%string) → truthy s = s.
Proof. destruct s as [[|]|]; simpl; try done. intros H. by destruct (H ""%string). Qed.

Definition identityIs (current : option LocalPathState) (i : option string) : bool :=
  bool_decide ((current ≫= identity) = Some i).

Definition carriedDiskFingerprint (current : option LocalPathState) (i : option string) : option string :=
  if identityIs current i then truthy (current ≫= diskFingerprint) else None.

Definition carriedPublishedFrom (current : option LocalPathState) (i : option string) :
    option (option string) :=
  if identityIs current i then current ≫= publishedFrom else None.

(** [this.paths.set] and [this.paths.delete] *)
Definition set_ (path : string) (v : LocalPathState) (s : LocalSyncState) : LocalSyncState :=
  s <| paths ::= <[path := inr v]> |> <| updates ::= S |>.

Definition delete_ (path : string) (s : LocalSyncState) : LocalSyncState :=
  match paths s !! path with
  | Some _ => s <| paths ::= delete path |> <| updates ::= S |>
  | None => s
  end.

Definition adoptIndexEpoch (epoch : Z) (s : LocalSyncState) : LocalSyncState * bool :=
  let rewound := match indexEpoch s with Some recorded => epoch <? recorded | None => false end in
  let s := if rewound then s <| paths := ∅ |> else s in
  (s <| indexEpoch := Some epoch |> <| updates ::= S |>, rewound).

Definition has (path : string) (s : LocalSyncState) : bool :=
  bool_decide (is_Some (paths s !! path)).

Definition asState (v : MaterializedKind + LocalPathState) : LocalPathState :=
  match v with inl k => kindOnly k | inr v => v end.

Definition entries (s : LocalSyncState) : gmap string LocalPathState := asState <$> paths s.

Definition get (path : string) (s : LocalSyncState) : option LocalPathState :=
  asState <$> paths s !! path.

Definition mark (path : string) (k : MaterializedKind) (s : LocalSyncState) : LocalSyncState :=
  let current := get path s in
  if bool_decide (kind <$> current = Some k) then s
  else set_ path (match current with Some c => c <| kind := k |> | None => kindOnly k end) s.

Definition beginCandidate (path : string) (k : MaterializedKind) (i : option string)
    (fp : option string) (s : LocalSyncState) : LocalSyncState :=
  let current := get path s in
  let pendingFingerprint :=
    match fp with Some f => Some f | None => current ≫= candidateFingerprint end in
  if bool_decide (kind <$> current = Some k) && identityIs current i &&
     bool_decide ((current ≫= candidate) = Some true) &&
     bool_decide ((current ≫= candidateFingerprint) = pendingFingerprint)
  then s
  else set_ path
    (mkPath k (Some i) (truthy (current ≫= fingerprint)) (Some true) (truthy pendingFingerprint)
       (carriedDiskFingerprint current i) None None) s.

Definition migrateLegacyIdentity (path : string) (k : MaterializedKind) (i : string)
    (s : LocalSyncState) : LocalSyncState :=
  match get path s with
  | Some c =>
    match identity c with
    | None => set_ path (c <| kind := k |> <| identity := Some (Some i) |> <| candidate := Some false |>) s
    | Some _ => s
    end
  | None => s
  end.

Definition commit (path : string) (k : MaterializedKind) (i : string) (s : LocalSyncState) : LocalSyncState :=
  let current := get path s in
  let fp := if identityIs current (Some i) then current ≫= fingerprint else None in
  set_ path
    (mkPath k (Some (Some i)) (truthy fp) (Some (default false (current ≫= candidate)))
       (truthy (current ≫= candidateFingerprint)) (carriedDiskFingerprint current (Some i)) None None) s.

Definition markSynced (path : string) (k : MaterializedKind) (i fp : string) (reconciled : bool)
    (s : LocalSyncState) : LocalSyncState :=
  let current := get path s in
  let cand := bool_decide ((current ≫= candidate) = Some true) && negb reconciled &&
    bool_decide ((current ≫= candidateFingerprint) ≠ Some fp) in
  let next := mkPath k (Some (Some i)) (Some fp) (Some cand)
    (if cand then truthy (current ≫= candidateFingerprint) else None)
    (carriedDiskFingerprint current (Some i)) None (carriedPublishedFrom current (Some i)) in
  if bool_decide (current = Some next) then s else set_ path next s.

Definition markPublished (path : string) (k : MaterializedKind) (i : string) (replaced : option string)
    (s : LocalSyncState) : LocalSyncState :=
  let current := get path s in
  set_ path
    (mkPath k (Some (Some i)) (Some i) (Some false) None (carriedDiskFingerprint current (Some i))
       (Some replaced) (Some replaced)) s.

Definition markDisk (path : string) (k : MaterializedKind) (i fp : string) (s : LocalSyncState) : LocalSyncState :=
  match get path s with
  | Some c =>
    if negb (identityIs (Some c) (Some i)) || bool_decide (diskFingerprint c = Some fp) then s
    else set_ path (c <| kind := k |> <| diskFingerprint := Some fp |>) s
  | None => s
  end.

Definition diskFingerprintOf (path i : string) (s : LocalSyncState) : option string :=
  if identityIs (get path s) (Some i) then get path s ≫= diskFingerprint else None.

Definition candidateIdentity (path : string) (k : MaterializedKind) (s : LocalSyncState) : option string :=
  match get path s with
  | Some c =>
    if bool_decide (kind c = k) && default false (candidate c)
    then truthy (mjoin (identity c)) else None
  | None => None
  end.

Definition hasIdentityConflict (path i : string) (s : LocalSyncState) : bool :=
  match get path s ≫= identity with
  | Some j => bool_decide (j ≠ Some i)
  | None => false
  end.

Definition acknowledgedFingerprint (path i : string) (s : LocalSyncState) : option string :=
  match get path s with
  | Some c =>
    if negb (identityIs (Some c) (Some i)) || default false (candidate c) then None
    else fingerprint c
  | None => None
  end.

Definition remove (path : string) (s : LocalSyncState) : LocalSyncState := delete_ path s.

Definition move (from to : string) (k : MaterializedKind) (s : LocalSyncState) : LocalSyncState :=
  let current := get from s in
  set_ to
    (match current with
     | Some c => c <| kind := k |>
     | None => (kindOnly k) <| identity := Some None |> <| candidate := Some true |>
     end) (delete_ from s).

(** ** Runs: the calls the sync engines make, in their order *)

Inductive Op :=
  | AdoptIndexEpoch (epoch : Z)
  | Mark (path : string) (k : MaterializedKind)
  | BeginCandidate (path : string) (k : MaterializedKind) (i fp : option string)
  | MigrateLegacyIdentity (path : string) (k : MaterializedKind) (i : string)
  | Commit (path : string) (k : MaterializedKind) (i : string)
  | MarkSynced (path : string) (k : MaterializedKind) (i fp : string) (reconciled : bool)
  | MarkPublished (path : string) (k : MaterializedKind) (i : string) (replaced : option string)
  | MarkDisk (path : string) (k : MaterializedKind) (i fp : string)
  | Remove (path : string)
  | Move (from to : string) (k : MaterializedKind).

Definition step (s : LocalSyncState) (op : Op) : LocalSyncState :=
  match op with
  | AdoptIndexEpoch e => fst (adoptIndexEpoch e s)
  | Mark p k => mark p k s
  | BeginCandidate p k i fp => beginCandidate p k i fp s
  | MigrateLegacyIdentity p k i => migrateLegacyIdentity p k i s
  | Commit p k i => commit p k i s
  | MarkSynced p k i fp r => markSynced p k i fp r s
  | MarkPublished p k i r => markPublished p k i r s
  | MarkDisk p k i fp => markDisk p k i fp s
  | Remove p => remove p s
  | Move f t k => move f t k s
  end.

Definition run (s : LocalSyncState) (ops : list Op) : LocalSyncState := foldl step s ops.

(** A state whose entries were all written before entries were objects, in
    which a new device's, empty one is included *)
Definition legacy (kinds : gmap string MaterializedKind) (epoch : option Z) : LocalSyncState :=
  mkLocal (inl <$> kinds) epoch 0.
