(* ===== verification/LocalSpec.v ===== *)
(** What the local sync state promises: it reports a hash as acknowledged, or
    as the hash of the file on disk, only for the document it was recorded
    for, and a pending local edit hides the acknowledged one.

    The specification [History] keeps, for the file now at a path, the last
    acknowledgment, every disk report, what each publish replaced and the
    pending edit. *)
From Stdlib Require Import String.
From S2P Require Import Prelude LocalState.
#[local] Open Scope Z_scope.

Record History := mkHistory {
  acked : gmap string (string * string);               (* identity, hash *)
  disk : gmap string (gmap string string);             (* by identity *)
  replaces : gmap string (gmap string (option string)); (* by identity *)
  pending : gmap string (option string);
  epoch : option Z }.
#[export] Instance eta_History : Eta History := λ r,
  mkHistory (acked r) (disk r) (replaces r) (pending r) (epoch r).

Definition moved {A} (from to : string) (m : gmap string A) : gmap string A :=
  partial_alter (λ _, m !! from) to (delete from m).

Definition recorded {A} (p i : string) (x : A) (m : gmap string (gmap string A)) :
    gmap string (gmap string A) :=
  <[p := <[i := x]> (default ∅ (m !! p))]> m.

(** What the history remembers under [i] for the file at [p] *)
Definition known {A} (m : gmap string (gmap string A)) (p i : string) : option A :=
  m !! p ≫= λ byIdentity, byIdentity !! i.

Definition forget (p : string) (h : History) : History :=
  h <| acked ::= delete p |> <| disk ::= delete p |> <| replaces ::= delete p |>
    <| pending ::= delete p |>.

Definition record (h : History) (op : Op) : History :=
  match op with
  | AdoptIndexEpoch e =>
    match epoch h with
    | Some seen => if e <? seen then mkHistory ∅ ∅ ∅ ∅ (Some e) else h <| epoch := Some e |>
    | None => h <| epoch := Some e |>
    end
  | BeginCandidate p _ _ fp =>
    h <| pending ::= <[p := truthy (match fp with Some f => Some f | None => mjoin (pending h !! p) end)]> |>
  | Commit p _ i =>
    h <| acked ::= partial_alter (λ a, if decide (fst <$> a = Some i) then a else None) p |>
  | MarkSynced p _ i fp reconciled =>
    h <| acked ::= <[p := (i, fp)]> |>
      <| pending ::= partial_alter (λ c,
           if reconciled || bool_decide (c = Some (Some fp)) then None else c) p |>
  | MarkPublished p _ i r =>
    h <| acked ::= <[p := (i, i)]> |> <| replaces ::= recorded p i r |> <| pending ::= delete p |>
  | MarkDisk p _ i fp => h <| disk ::= recorded p i fp |>
  | Remove p => forget p h
  | Move f t _ =>
    h <| acked ::= moved f t |> <| disk ::= moved f t |> <| replaces ::= moved f t |>
      <| pending ::= moved f t |>
  | Mark _ _ | MigrateLegacyIdentity _ _ _ => h
  end.

(** ** The local state agrees with the history *)

(** An optional field only says what the history holds for the entry's own
    identity. *)
Definition backed {A} (c : LocalPathState) (field : option A) (holds : string → A → Prop) : Prop :=
  ∀ x, field = Some x → ∃ i, identity c = Some (Some i) ∧ holds i x.

Record entry_agrees (h : History) (p : string) (c : LocalPathState) : Prop := {
  ea_legacy : identity c = None → c = kindOnly (kind c);
  ea_pending : mjoin (pending h !! p) = candidateFingerprint c;
  ea_truthy : truthy (candidateFingerprint c) = candidateFingerprint c;
  ea_candidate : is_Some (pending h !! p) → candidate c = Some true;
  ea_acked : candidate c ≠ Some true → backed c (fingerprint c) (λ i f, acked h !! p = Some (i, f));
  ea_disk : backed c (diskFingerprint c) (λ i f, known (disk h) p i = Some f);
  ea_from : backed c (publishedFrom c) (λ i r, known (replaces h) p i = Some r);
  ea_replaced : backed c (replacedIdentity c) (λ i r, known (replaces h) p i = Some r) }.

Definition agrees_at (h : History) (p : string) (v : option LocalPathState) : Prop :=
  match v with Some c => entry_agrees h p c | None => pending h !! p = None end.

Definition agrees (s : LocalSyncState) (h : History) : Prop :=
  indexEpoch s = epoch h ∧ ∀ p, agrees_at h p (get p s).

(** What a history holds for one path, the view two histories may share *)
Definition view (h : History) (p : string) :=
  (acked h !! p, disk h !! p, replaces h !! p, pending h !! p).

Lemma agrees_at_view h h' p q v :
  view h p = view h' q → agrees_at h p v → agrees_at h' q v.
Proof.
  unfold view. intros E. injection E as Ea Ed Er Ep. destruct v as [c|]; simpl; [|congruence].
  intros []. split; unfold known in *; try rewrite <- Ea; try rewrite <- Ed; try rewrite <- Er;
    try rewrite <- Ep; done.
Qed.

Lemma get_set p q v s : get q (set_ p v s) = if decide (q = p) then Some v else get q s.
Proof.
  unfold get, set_. simpl. case_decide as E; [subst; by rewrite lookup_insert_eq|].
  by rewrite lookup_insert_ne.
Qed.

Lemma get_delete p q s : get q (delete_ p s) = if decide (q = p) then None else get q s.
Proof.
  unfold get, delete_. destruct (paths s !! p) eqn:E; simpl.
  - case_decide as D; [subst; by rewrite lookup_delete_eq|]. by rewrite lookup_delete_ne.
  - case_decide as D; [subst; by rewrite E|done].
Qed.

Lemma epoch_set p v s : indexEpoch (set_ p v s) = indexEpoch s.
Proof. done. Qed.

Lemma epoch_delete p s : indexEpoch (delete_ p s) = indexEpoch s.
Proof. unfold delete_. by destruct (paths s !! p). Qed.

(** A write at one path, with the history changed at that path at most *)
Lemma agrees_set s h h' p v :
  agrees s h → epoch h' = epoch h → (∀ q, q ≠ p → view h q = view h' q) →
  entry_agrees h' p v → agrees (set_ p v s) h'.
Proof.
  intros [He Ha] Eh Hv Hp. split; [by rewrite epoch_set, Eh|].
  intros q. rewrite get_set. case_decide as E; [by subst|].
  by apply (agrees_at_view h _ q); [apply Hv|].
Qed.

(** No write, and a history in which the path says the same *)
Lemma agrees_same s h h' p :
  agrees s h → epoch h' = epoch h → (∀ q, q ≠ p → view h q = view h' q) →
  agrees_at h' p (get p s) → agrees s h'.
Proof.
  intros [He Ha] Eh Hv Hp. split; [by rewrite Eh|].
  intros q. destruct (decide (q = p)) as [->|E]; [done|].
  by apply (agrees_at_view h _ q); [apply Hv|].
Qed.

Ltac other_paths :=
  intros ? ?; simpl; unfold view, recorded; simpl;
  repeat first [rewrite lookup_insert_ne by done | rewrite lookup_partial_alter_ne by done
               | rewrite lookup_delete_ne by done]; reflexivity.

Lemma identityIs_spec current i :
  identityIs current i = true ↔ ∃ c, current = Some c ∧ identity c = Some i.
Proof.
  unfold identityIs. rewrite bool_decide_eq_true. destruct current as [c|]; simpl; [|naive_solver].
  split; [|naive_solver]. eauto.
Qed.

Lemma truthy_idem s : truthy (truthy s) = truthy s.
Proof. by destruct s as [[]|]. Qed.

Lemma known_recorded {A} p i (x : A) m : known (recorded p i x m) p i = Some x.
Proof. unfold known, recorded. rewrite lookup_insert_eq. simpl. by rewrite lookup_insert_eq. Qed.

Lemma known_recorded_ne {A} p i j (x : A) m : i ≠ j → known (recorded p i x m) p j = known m p j.
Proof.
  intros. unfold known, recorded. rewrite lookup_insert_eq. simpl.
  rewrite lookup_insert_ne by done. destruct (m !! p); simpl; [done|]. by rewrite lookup_empty.
Qed.

(** What an entry carries over to the same identity is still backed *)
Lemma carriedDisk_backed h p v i d :
  agrees_at h p v → carriedDiskFingerprint v i = Some d →
  ∃ j, i = Some j ∧ known (disk h) p j = Some d.
Proof.
  unfold carriedDiskFingerprint. intros Ha H. destruct (identityIs v i) eqn:E; [|done].
  apply identityIs_spec in E as (c & -> & Hi). apply truthy_Some in H. simpl in H.
  destruct (ea_disk _ _ _ Ha _ H) as (j & Hj & Hk). exists j. split; [congruence|done].
Qed.

Lemma carriedFrom_backed h p v i r :
  agrees_at h p v → carriedPublishedFrom v i = Some r →
  ∃ j, i = Some j ∧ known (replaces h) p j = Some r.
Proof.
  unfold carriedPublishedFrom. intros Ha H. destruct (identityIs v i) eqn:E; [|done].
  apply identityIs_spec in E as (c & -> & Hi). simpl in H.
  destruct (ea_from _ _ _ Ha _ H) as (j & Hj & Hk). exists j. split; [congruence|done].
Qed.

Lemma agrees_at_pending h p v :
  agrees_at h p v → mjoin (pending h !! p) = v ≫= candidateFingerprint ∧
  truthy (v ≫= candidateFingerprint) = v ≫= candidateFingerprint ∧
  (is_Some (pending h !! p) → v ≫= candidate = Some true).
Proof.
  destruct v as [c|]; simpl.
  - intros []. done.
  - intros ->. simpl. split; [done|]. split; [done|]. by intros [? ?].
Qed.

Lemma agrees_mark s h p k : agrees s h → agrees (mark p k s) h.
Proof.
  intros Ha. unfold mark. case_bool_decide as E; [done|].
  apply (agrees_set _ h); [done..|]. pose proof (proj2 Ha p) as Hp.
  destruct (get p s) as [c|]; simpl in *.
  - destruct Hp as [Hl ? ? ? ? ? ? ?]. split; simpl; try done.
    intros Hi. rewrite (Hl Hi). done.
  - split; simpl; unfold backed; simpl; try done; rewrite Hp; [done|by intros [? ?]].
Qed.

Lemma agrees_beginCandidate s h p k i fp :
  agrees s h → agrees (beginCandidate p k i fp s) (record h (BeginCandidate p k i fp)).
Proof.
  intros Ha. pose proof (proj2 Ha p) as Hp.
  destruct (agrees_at_pending _ _ _ Hp) as (Ep & Et & _).
  unfold beginCandidate. cbn [record]. rewrite Ep. destruct (_ && _) eqn:Eb.
  - apply andb_true_iff in Eb as [[_ Hc]%andb_true_iff Hcf]. apply bool_decide_eq_true in Hc, Hcf.
    apply (agrees_same _ h _ p); [done..|other_paths|].
    destruct (get p s) as [c|]; [|done]. simpl in *. rewrite <- Hcf, Et.
    destruct Hp. split; simpl; try done; rewrite lookup_insert_eq; done.
  - apply (agrees_set _ h); [done..|other_paths|]. split; simpl; try done.
    + by rewrite lookup_insert_eq.
    + apply truthy_idem.
    + intros d Hd. destruct (carriedDisk_backed _ _ _ _ _ Hp Hd) as (j & -> & Hj). eauto.
Qed.

Lemma agrees_migrate s h p k i : agrees s h → agrees (migrateLegacyIdentity p k i s) h.
Proof.
  intros Ha. unfold migrateLegacyIdentity. destruct (get p s) as [c|] eqn:Eg; [|done].
  destruct (identity c) eqn:Ei; [done|]. apply (agrees_set _ h); [done..|].
  pose proof (proj2 Ha p) as Hp. rewrite Eg in Hp. destruct Hp as [Hl Hpe Ht Hc _ _ _ _].
  rewrite (Hl Ei) in *. split; simpl; unfold backed; simpl; try done.
  intros H. by apply Hc in H.
Qed.

Lemma agrees_commit s h p k i : agrees s h → agrees (commit p k i s) (record h (Commit p k i)).
Proof.
  intros Ha. pose proof (proj2 Ha p) as Hp.
  destruct (agrees_at_pending _ _ _ Hp) as (Ep & Et & Ec).
  apply (agrees_set _ h); [done..|other_paths|]. split; simpl; try done.
  - by rewrite Et.
  - apply truthy_idem.
  - intros H. by rewrite Ec.
  - intros Hc f Hf. apply truthy_Some in Hf. destruct (identityIs _ _) eqn:E; [|done].
    apply identityIs_spec in E as (c & Eg & Hi). rewrite Eg in *. simpl in *.
    destruct (ea_acked _ _ _ Hp) with f as (j & Hj & Hk); [|done|].
    { destruct (candidate c) as [[]|]; simpl in *; congruence. }
    exists i. split; [done|]. rewrite lookup_partial_alter_eq, Hk. simpl.
    rewrite decide_True; [|congruence]. congruence.
  - intros d Hd. destruct (carriedDisk_backed _ _ _ _ _ Hp Hd) as (j & [= <-] & Hj). eauto.
Qed.

Lemma get_markSynced p k i fp r s :
  ∃ c, get p (markSynced p k i fp r s) = Some c ∧
    (markSynced p k i fp r s = s ∨ markSynced p k i fp r s = set_ p c s) ∧
    identity c = Some (Some i) ∧ fingerprint c = Some fp ∧
    diskFingerprint c = carriedDiskFingerprint (get p s) (Some i) ∧
    publishedFrom c = carriedPublishedFrom (get p s) (Some i) ∧ replacedIdentity c = None ∧
    let cand := bool_decide ((get p s ≫= candidate) = Some true) && negb r &&
      bool_decide ((get p s ≫= candidateFingerprint) ≠ Some fp) in
    candidate c = Some cand ∧
    candidateFingerprint c = if cand then truthy (get p s ≫= candidateFingerprint) else None.
Proof.
  unfold markSynced. case_bool_decide as E.
  - eexists. split; [exact E|]. simpl. eauto 12.
  - eexists. rewrite get_set, decide_True by done. simpl. eauto 12.
Qed.

Lemma agrees_markSynced s h p k i fp r :
  agrees s h → agrees (markSynced p k i fp r s) (record h (MarkSynced p k i fp r)).
Proof.
  intros Ha. pose proof (proj2 Ha p) as Hp.
  destruct (agrees_at_pending _ _ _ Hp) as (Ep & Et & Ec).
  destruct (get_markSynced p k i fp r s) as (c & Eg & Hs & Hi & Hf & Hd & Hr & Hn & Hc & Hcf).
  set (cand := _ && _ && _) in Hc, Hcf.
  assert (∀ x, pending h !! p = Some x →
    r || bool_decide (Some x = Some (Some fp)) = negb cand) as Ek.
  { intros x E. unfold cand. rewrite E in Ec, Ep. rewrite Ec by eauto. simpl in Ep. rewrite <- Ep.
    rewrite (bool_decide_true (Some true = Some true)) by done. destruct r; [done|]. simpl.
    repeat case_bool_decide; (done || congruence). }
  assert (entry_agrees (record h (MarkSynced p k i fp r)) p c) as He.
  { split; simpl; try (by rewrite Hi).
    - rewrite lookup_partial_alter_eq, Hcf. destruct (pending h !! p) as [x|] eqn:E; simpl in Ep.
      + rewrite (Ek x) by done. rewrite <- Ep. destruct cand; simpl; [|done].
        by rewrite Ep, Et.
      + rewrite <- Ep. by destruct (_ || _), cand.
    - rewrite Hcf. destruct cand; [apply truthy_idem|done].
    - rewrite lookup_partial_alter_eq, Hc. intros H. destruct (pending h !! p) as [x|] eqn:E.
      + rewrite (Ek x) in H by done. destruct cand; [done|by destruct H].
      + destruct (_ || _); by destruct H.
    - intros _ f E. rewrite Hi. exists i. split; [done|]. rewrite lookup_insert_eq. congruence.
    - intros d E. rewrite Hd in E. destruct (carriedDisk_backed _ _ _ _ _ Hp E) as (j & [= <-] & Hj).
      rewrite Hi. eauto.
    - intros x E. rewrite Hr in E. destruct (carriedFrom_backed _ _ _ _ _ Hp E) as (j & [= <-] & Hj).
      rewrite Hi. eauto.
    - intros x E. congruence. }
  destruct Hs as [Hs|Hs]; rewrite Hs.
  - apply (agrees_same _ h _ p); [done..|other_paths|]. rewrite Hs in Eg. by rewrite Eg.
  - apply (agrees_set _ h); [done..|other_paths|done].
Qed.

Lemma agrees_markPublished s h p k i r :
  agrees s h → agrees (markPublished p k i r s) (record h (MarkPublished p k i r)).
Proof.
  intros Ha. pose proof (proj2 Ha p) as Hp. apply (agrees_set _ h); [done..|other_paths|].
  assert (∀ x, Some r = Some x → ∃ j, Some (Some i) = Some (Some j) ∧
    known (recorded p i r (replaces h)) p j = Some x) as Hr.
  { intros x [= <-]. exists i. by rewrite known_recorded. }
  split; simpl; try done; try (rewrite lookup_delete_eq; by try intros [? ?]).
  - intros _ f [= <-]. exists i. by rewrite lookup_insert_eq.
  - intros d Hd. destruct (carriedDisk_backed _ _ _ _ _ Hp Hd) as (j & [= <-] & Hj). eauto.
Qed.

Lemma agrees_markDisk s h p k i fp :
  agrees s h → agrees (markDisk p k i fp s) (record h (MarkDisk p k i fp)).
Proof.
  intros Ha. pose proof (proj2 Ha p) as Hp.
  unfold markDisk. destruct (get p s) as [c|] eqn:Eg.
  2: { apply (agrees_same _ h _ p); [done..|other_paths|]. by rewrite Eg. }
  destruct Hp as [Hl ? ? ? ? Hd ? ?].
  destruct (_ || _) eqn:Eb.
  - apply (agrees_same _ h _ p); [done..|other_paths|]. rewrite Eg. split; simpl; try done.
    intros d E. destruct (Hd d E) as (j & Hj & Hk). exists j. split; [done|].
    destruct (decide (i = j)) as [<-|]; [|by rewrite known_recorded_ne].
    rewrite known_recorded. apply orb_true_iff in Eb as [Eb|Eb]; [|apply bool_decide_eq_true in Eb; congruence].
    apply negb_true_iff in Eb. exfalso. revert Eb. apply not_false_iff_true, identityIs_spec. eauto.
  - apply orb_false_iff in Eb as [Eb%negb_false_iff _].
    apply identityIs_spec in Eb as (c' & [= <-] & Hi).
    apply (agrees_set _ h); [done..|other_paths|]. split; simpl; try done; [congruence|].
    intros d [= <-]. exists i. by rewrite known_recorded.
Qed.

Lemma agrees_remove s h p : agrees s h → agrees (remove p s) (record h (Remove p)).
Proof.
  intros [He Ha]. split; [by unfold remove; rewrite epoch_delete|].
  intros q. unfold remove. rewrite get_delete. case_decide as E.
  - subst. simpl. by rewrite lookup_delete_eq.
  - apply (agrees_at_view h _ q); [other_paths || unfold view; simpl; by rewrite !lookup_delete_ne|done].
Qed.

Lemma moved_to {A} f t (m : gmap string A) : moved f t m !! t = m !! f.
Proof. unfold moved. by rewrite lookup_partial_alter_eq. Qed.

Lemma moved_from {A} f t (m : gmap string A) : f ≠ t → moved f t m !! f = None.
Proof. intros. unfold moved. by rewrite lookup_partial_alter_ne, lookup_delete_eq. Qed.

Lemma moved_ne {A} f t q (m : gmap string A) : q ≠ f → q ≠ t → moved f t m !! q = m !! q.
Proof. intros. unfold moved. by rewrite lookup_partial_alter_ne, lookup_delete_ne. Qed.

Lemma agrees_move s h f t k : agrees s h → agrees (move f t k s) (record h (Move f t k)).
Proof.
  intros [He Ha]. split; [unfold move; by rewrite epoch_set, epoch_delete|].
  intros q. unfold move. rewrite get_set. case_decide as E.
  - subst q. apply (agrees_at_view (record h (Move f t k)) _ t); [done|].
    pose proof (Ha f) as Hf. destruct (get f s) as [c|]; simpl.
    + apply (agrees_at_view h (record h (Move f t k)) f t) in Hf.
      * destruct Hf as [Hl ? ? ? ? ? ? ?]. split; simpl; try done. intros Hi. by rewrite (Hl Hi).
      * unfold view. simpl. by rewrite !moved_to.
    + split; simpl; unfold backed; simpl; try done; by rewrite moved_to, Hf.
  - rewrite get_delete. case_decide as E'.
    + subst. simpl. by apply moved_from.
    + apply (agrees_at_view h _ q); [|done]. unfold view. simpl. by rewrite !moved_ne.
Qed.

Lemma agrees_adopt s h e : agrees s h → agrees (step s (AdoptIndexEpoch e)) (record h (AdoptIndexEpoch e)).
Proof.
  intros [He Ha]. unfold step, adoptIndexEpoch. cbn [record fst]. rewrite He.
  destruct (epoch h) as [seen|]; [destruct (e <? seen)|]; (split; [done|]); [done|..]; intros p;
    apply (agrees_at_view h _ p); done || apply Ha.
Qed.

Lemma agrees_step s h op : agrees s h → agrees (step s op) (record h op).
Proof.
  intros Ha. destruct op; try exact (agrees_adopt s h _ Ha); simpl step; auto using agrees_mark, agrees_beginCandidate, agrees_migrate, agrees_commit,
    agrees_markSynced, agrees_markPublished, agrees_markDisk, agrees_remove, agrees_move.
Qed.

(** The history of a run, from a state of old entries *)
Definition history (e : option Z) (ops : list Op) : History :=
  foldl record (mkHistory ∅ ∅ ∅ ∅ e) ops.

Lemma agrees_run kinds e ops : agrees (run (legacy kinds e) ops) (history e ops).
Proof.
  unfold run, history. induction ops as [|op ops IH] using rev_ind.
  - split; [done|]. intros p. unfold get, legacy. simpl. rewrite lookup_fmap.
    destruct (kinds !! p); simpl; [|done].
    split; simpl; unfold backed; simpl; try done. by intros [? ?].
  - rewrite !foldl_snoc. by apply agrees_step.
Qed.

(** C14: After any calls on a state that started with entries of the old kind
    (or none), the local state answers a file's acknowledged hash for a
    document only when that hash is the last the server acknowledged for the
    file, for that document, and no local edit is pending; it answers the hash
    of the file on disk only as last reported for that document; and what it
    says a publish replaced is what the publish of that version replaced.  A
    rename takes all of this along, and a removal, or an index restored from
    an older backup, forgets it. *)
Theorem local_state_refines_history kinds e ops p i :
  let s := run (legacy kinds e) ops in let h := history e ops in
  (∀ f, acknowledgedFingerprint p i s = Some f → acked h !! p = Some (i, f) ∧ pending h !! p = None) ∧
  (∀ f, diskFingerprintOf p i s = Some f → known (disk h) p i = Some f) ∧
  (∀ c r, get p s = Some c → identity c = Some (Some i) →
     publishedFrom c = Some r ∨ replacedIdentity c = Some r → known (replaces h) p i = Some r).
Proof.
  intros s h. destruct (agrees_run kinds e ops) as [_ Ha]. specialize (Ha p).
  fold s h in Ha. unfold acknowledgedFingerprint, diskFingerprintOf.
  destruct (get p s) as [c|]; [|done]. split_and!.
  - intros f Hf. destruct (negb _ || _) eqn:Eb; [done|].
    apply orb_false_iff in Eb as [Ei%negb_false_iff Ec].
    apply identityIs_spec in Ei as (? & [= <-] & Hi).
    assert (candidate c ≠ Some true) as Hc by (intros E; by rewrite E in Ec).
    destruct (ea_acked _ _ _ Ha Hc _ Hf) as (j & Hj & Hk).
    split; [congruence|]. apply eq_None_not_Some. intros Hp. by apply Hc, Ha.
  - intros f Hf. destruct (identityIs _ _) eqn:Ei; [|done].
    apply identityIs_spec in Ei as (? & [= <-] & Hi).
    destruct (ea_disk _ _ _ Ha _ Hf) as (j & Hj & Hk). congruence.
  - intros ? r [= <-] Hi [Hr|Hr];
      [destruct (ea_from _ _ _ Ha _ Hr) as (j & Hj & Hk)|destruct (ea_replaced _ _ _ Ha _ Hr) as (j & Hj & Hk)];
      congruence.
Qed.

Module LocalRun.
(** A note acknowledged, edited on disk, renamed, then acknowledged again *)
Definition ops : list Op :=
  [ BeginCandidate "a.md" KText None (Some "h0"); Commit "a.md" KText "g1";
    MarkSynced "a.md" KText "g1" "h0" false; MarkDisk "a.md" KText "g1" "h0";
    Move "a.md" "b.md" KText; MarkSynced "b.md" KText "g1" "h1" false ]%string.

Lemma local_state_refines_history_witness :
  acknowledgedFingerprint "b.md" "g1" (run (legacy ∅ None) ops) = Some "h1"%string ∧
  (acked (history None ops) !! "b.md"%string = Some ("g1", "h1")%string ∧
   pending (history None ops) !! "b.md"%string = None) ∧
  known (disk (history None ops)) "b.md" "g1" = Some "h0"%string.
Proof.
  assert (acknowledgedFingerprint "b.md" "g1" (run (legacy ∅ None) ops) = Some "h1"%string) as H.
  { vm_compute. reflexivity. }
  assert (diskFingerprintOf "b.md" "g1" (run (legacy ∅ None) ops) = Some "h0"%string) as Hd.
  { vm_compute. reflexivity. }
  destruct (local_state_refines_history ∅ None ops "b.md" "g1") as (Ha & Hk & _).
  auto.
Defined.
End LocalRun.
