(* ===== verification/Lineage.v ===== *)
(** [src/lineage.ts]: the ancestors an index entry for a blob names, so that a
    device which missed some versions can tell a later version from a
    concurrent one.

    Hashes are strings of hexadecimal digits.  [lineage] is read from an entry
    another client wrote, so it is any JSON value. *)
From Stdlib Require Import String.
From S2P Require Import Prelude JsString JsMap Json.
#[local] Open Scope Z_scope.

Definition LINEAGE_LENGTH : nat := 8.
Definition PREFIX_LENGTH : nat := 16.

(** [prev] may be left out, or null. *)
Record VersionedEntry := mkVersion {
  hash : string;
  prev : option (option string);
  lineage : option JsonValue }.

Definition strings (l : list JsonValue) : list string :=
  omap (λ v, match v with JString s => Some s | _ => None end) l.

Definition hashPrefix (h : string) : string := sliceTo PREFIX_LENGTH h.

Definition lineageAfter (replaced : option VersionedEntry) : list string :=
  match replaced with
  | Some r =>
    if bool_decide (hash r = ""%string) then []
    else
      let prior := match lineage r with Some (JArray l) => strings l | _ => [] end in
      take LINEAGE_LENGTH (hashPrefix (hash r) :: prior)
  | None => []
  end.

Definition descendsFrom (entry : VersionedEntry) (ancestor : string) : bool :=
  if bool_decide (prev entry = Some (Some ancestor)) then true
  else match lineage entry with
       | Some (JArray l) => bool_decide (hashPrefix ancestor ∈ strings l)
       | _ => false
       end.

(** The entry a publisher writes for [h] in place of [replaced]: [lineage] is
    left out when it is empty. *)
Definition versionAfter (replaced : option VersionedEntry) (h : string) : VersionedEntry :=
  mkVersion h (Some (hash <$> replaced))
    (match lineageAfter replaced with [] => None | l => Some (JArray (map JString l)) end).

(** A path published as each of [hs], newest first *)
Fixpoint published (hs : list string) : option VersionedEntry :=
  match hs with
  | [] => None
  | h :: older => Some (versionAfter (published older) h)
  end.

Lemma strings_JString l : strings (map JString l) = l.
Proof. unfold strings. induction l as [|s l IH]; csimpl; [done|]. by rewrite IH. Qed.

Lemma lineage_versionAfter r h :
  match lineage (versionAfter r h) with Some (JArray l) => strings l | _ => [] end = lineageAfter r.
Proof.
  simpl. destruct (lineageAfter r) as [|s l] eqn:E; [done|]. exact (strings_JString (s :: l)).
Qed.

Lemma lineageAfter_published hs :
  Forall (λ h, h ≠ ""%string) hs → lineageAfter (published hs) = take LINEAGE_LENGTH (map hashPrefix hs).
Proof.
  induction 1 as [|h hs Hh _ IH]; [done|]. cbn [published]. unfold lineageAfter at 1.
  rewrite lineage_versionAfter, IH. simpl hash. rewrite bool_decide_false by done.
  cbn [map]. unfold LINEAGE_LENGTH. rewrite !firstn_cons. f_equal. by rewrite take_take.
Qed.

(** What a publisher writes descends from what it replaced. *)
Lemma descendsFrom_versionAfter r h : descendsFrom (versionAfter (Some r) h) (hash r) = true.
Proof. unfold descendsFrom. simpl. by rewrite bool_decide_true. Qed.

Lemma descendsFrom_lineageAfter r h a :
  descendsFrom (versionAfter r h) a = true ↔
  hash <$> r = Some a ∨ hashPrefix a ∈ lineageAfter r.
Proof.
  unfold descendsFrom. simpl. case_bool_decide as E; [split; [intros _; left; congruence|done]|].
  destruct (lineageAfter r) as [|s l] eqn:El; simpl.
  { split; [done|]. intros [H|H%elem_of_nil]; [congruence|done]. }
  change (JString s :: map JString l) with (map JString (s :: l)).
  rewrite strings_JString, bool_decide_eq_true.
  split; [by right|]. intros [H|H]; [congruence|done].
Qed.

(** A version published over a chain of versions is known to descend from
    exactly the version it replaced and the eight newest before it (by the
    first 16 digits of their hashes): one that raced it, and shares no prefix
    with those, is told apart. *)
Theorem descends_from_last_eight h hs a e :
  Forall (λ h, h ≠ ""%string) hs → published (h :: hs) = Some e →
  descendsFrom e a = true ↔ head hs = Some a ∨ hashPrefix a ∈ take LINEAGE_LENGTH (map hashPrefix hs).
Proof.
  intros Hhs [= <-]. rewrite descendsFrom_lineageAfter, lineageAfter_published by done.
  by destruct hs.
Qed.

Lemma descends_from_last_eight_witness :
  let e := versionAfter (published ["b"; "a"]%string) "c" in
  descendsFrom e "a" = true ↔
    head ["b"; "a"]%string = Some "a"%string ∨ hashPrefix "a" ∈ take 8 (map hashPrefix ["b"; "a"]%string).
Proof.
  apply (descends_from_last_eight "c" ["b"; "a"]%string "a"); [|reflexivity].
  repeat constructor; discriminate.
Defined.
