(* ===== verification/ConfigCategories.v ===== *)
(** [src/configCategories.ts]: which files of the configuration folder belong
    to which toggle of settings sync. *)
From Stdlib Require Import String Ascii.
From S2P Require Import Prelude JsString JsMap Json.
#[local] Open Scope string_scope.

Inductive ConfigCategoryId :=
  | MainSettings | Appearance | ThemesAndSnippets | Hotkeys | CorePluginList
  | CorePluginSettings | CommunityPluginList | InstalledCommunityPlugins | Workspace.
#[export] Instance ConfigCategoryId_eq_dec : EqDecision ConfigCategoryId.
Proof. solve_decision. Defined.

(** The string each identifier is in the source *)
Definition idName (id : ConfigCategoryId) : string :=
  match id with
  | MainSettings => "mainSettings"
  | Appearance => "appearance"
  | ThemesAndSnippets => "themesAndSnippets"
  | Hotkeys => "hotkeys"
  | CorePluginList => "corePluginList"
  | CorePluginSettings => "corePluginSettings"
  | CommunityPluginList => "communityPluginList"
  | InstalledCommunityPlugins => "installedCommunityPlugins"
  | Workspace => "workspace"
  end.

(** Without the texts of the settings page *)
Record ConfigCategory := mkCategory {
  id : ConfigCategoryId; defaultEnabled : bool; requiresReload : bool }.

Definition CONFIG_CATEGORIES : list ConfigCategory :=
  [ mkCategory MainSettings true false;
    mkCategory Appearance true false;
    mkCategory ThemesAndSnippets true true;
    mkCategory Hotkeys true false;
    mkCategory CorePluginList true true;
    mkCategory CorePluginSettings true false;
    mkCategory CommunityPluginList false true;
    mkCategory InstalledCommunityPlugins false true;
    mkCategory Workspace false false ].

Definition ConfigSyncCategories : Type := jsmap ConfigCategoryId bool.

Definition defaultConfigSyncCategories : ConfigSyncCategories :=
  foldl (λ out c, jm_set (id c) (defaultEnabled c) out) [] CONFIG_CATEGORIES.

(** [record[name]] on any object, arrays included *)
Definition field (v : JsonValue) (name : string) : option JsonValue :=
  match v with JObject p fields => jget name p fields | _ => None end.

Definition sanitizeConfigSyncCategories (v : JsonValue) : ConfigSyncCategories :=
  match v with
  | JObject _ _ =>
    foldl (λ out c, match field v (idName (id c)) with
                    | Some (JBool b) => jm_set (id c) b out
                    | _ => out
                    end) defaultConfigSyncCategories CONFIG_CATEGORIES
  | _ => defaultConfigSyncCategories
  end.

Definition enabledConfigCategories (categories : ConfigSyncCategories) : list ConfigCategoryId :=
  foldl (λ out c, if default false (jm_get (id c) categories) then js_add (id c) out else out)
    [] CONFIG_CATEGORIES.

Definition RELOAD_CATEGORY_IDS : list ConfigCategoryId :=
  map id (filter (λ c, requiresReload c = true) CONFIG_CATEGORIES).

Definition categoryRequiresReload (c : ConfigCategoryId) : bool := bool_decide (c ∈ RELOAD_CATEGORY_IDS).

Definition categoryForConfigPath (relPath : string) : option ConfigCategoryId :=
  if bool_decide (relPath = "") || startsWith "/" relPath || includes "\"%char relPath then None
  else if startsWith "themes/" relPath || startsWith "snippets/" relPath then Some ThemesAndSnippets
  else if startsWith "plugins/" relPath then Some InstalledCommunityPlugins
  else if includes "/"%char relPath then None
  else if String.eqb relPath "app.json" then Some MainSettings
  else if String.eqb relPath "appearance.json" then Some Appearance
  else if String.eqb relPath "hotkeys.json" then Some Hotkeys
  else if String.eqb relPath "core-plugins.json" || String.eqb relPath "core-plugins-migration.json"
  then Some CorePluginList
  else if String.eqb relPath "community-plugins.json" then Some CommunityPluginList
  else if bool_decide (relPath ∈ ["workspace.json"; "workspaces.json"; "workspace-mobile.json"; "workspaces-mobile.json"])
  then Some Workspace
  else if endsWith ".json" relPath then Some CorePluginSettings
  else None.

Definition categoryForVaultPath (path configDir : string) : option ConfigCategoryId :=
  let prefix := configDir +:+ "/" in
  if negb (startsWith prefix path) then None
  else categoryForConfigPath (sliceFrom (String.length prefix) path).

(** ** What the toggles come out as *)

Definition defaultOf (c : ConfigCategoryId) : bool :=
  match list_find (λ k, id k = c) CONFIG_CATEGORIES with
  | Some (_, k) => defaultEnabled k
  | None => false
  end.

(** The toggle a persisted value asks for *)
Definition toggle (v : JsonValue) (c : ConfigCategoryId) : bool :=
  match field v (idName c) with Some (JBool b) => b | _ => defaultOf c end.

Lemma CONFIG_CATEGORIES_ids c : c ∈ map id CONFIG_CATEGORIES.
Proof. apply (bool_decide_unpack _). destruct c; reflexivity. Qed.

Lemma CONFIG_CATEGORIES_nodup : NoDup (map id CONFIG_CATEGORIES).
Proof. apply (bool_decide_unpack _). reflexivity. Qed.

Lemma defaults_get c : jm_get c defaultConfigSyncCategories = Some (defaultOf c).
Proof. destruct c; reflexivity. Qed.

(** A loop over the table sets at most each category's own entry. *)
Lemma categories_fold_get (g : ConfigCategory → option bool) l out c :
  NoDup (map id l) →
  jm_get c (foldl (λ out k, match g k with Some b => jm_set (id k) b out | None => out end) out l) =
    match list_find (λ k, id k = c) l with
    | Some (_, k) => match g k with Some b => Some b | None => jm_get c out end
    | None => jm_get c out
    end.
Proof.
  revert out. induction l as [|k l IH]; intros out Hl; [done|].
  cbn [map] in Hl. apply NoDup_cons in Hl as [Hk Hl]. cbn [foldl list_find]. rewrite IH by done.
  case_decide as E.
  - subst c. destruct (list_find _ l) as [[n k']|] eqn:F.
    + apply list_find_Some in F as (Hn & Hid & _). destruct Hk. rewrite <- Hid.
      apply list_elem_of_fmap. exists k'. split; [done|]. by eapply list_elem_of_lookup_2.
    + destruct (g k); [apply jm_get_set_eq|done].
  - assert (jm_get c (match g k with Some b => jm_set (id k) b out | None => out end) = jm_get c out) as ->.
    { destruct (g k); [|done]. apply jm_get_set_ne. congruence. }
    by destruct (list_find _ l) as [[n k']|].
Qed.

Lemma categories_find c : ∃ n k, list_find (λ k, id k = c) CONFIG_CATEGORIES = Some (n, k) ∧ id k = c.
Proof. destruct c; simpl; eauto. Qed.

(** C40: Whatever value was persisted, sanitizing it gives every category
    exactly one toggle, the persisted one where that is a boolean and the
    default otherwise; and the enabled set holds each category whose toggle
    is on once, and no other. *)
Theorem sanitized_toggles v c :
  let categories := sanitizeConfigSyncCategories v in
  jm_get c categories = Some (toggle v c) ∧
  (c ∈ enabledConfigCategories categories ↔ toggle v c = true) ∧
  NoDup (enabledConfigCategories categories).
Proof.
  assert (∀ d, jm_get d (sanitizeConfigSyncCategories v) = Some (toggle v d)) as Hget.
  { intros d. unfold sanitizeConfigSyncCategories, toggle. destruct v; try apply defaults_get.
    set (g k := match field (JObject p fields) (idName (id k)) with Some (JBool b) => Some b | _ => None end).
    assert (∀ l out, foldl (λ out k, match field (JObject p fields) (idName (id k)) with
        Some (JBool b) => jm_set (id k) b out | _ => out end) out l =
      foldl (λ out k, match g k with Some b => jm_set (id k) b out | None => out end) out l) as ->.
    { induction l as [|k l IH]; intros out; cbn [foldl]; [done|]. rewrite <- IH. f_equal. unfold g.
      by destruct (field _ _) as [[]|]. }
    rewrite categories_fold_get by apply CONFIG_CATEGORIES_nodup.
    destruct (categories_find d) as (n & k & -> & <-). rewrite defaults_get. unfold g.
    by destruct (field _ _) as [[]|]. }
  cbv zeta. split; [apply Hget|]. unfold enabledConfigCategories.
  assert (∀ l out, NoDup out → let out' := foldl (λ out k,
      if default false (jm_get (id k) (sanitizeConfigSyncCategories v)) then js_add (id k) out else out) out l in
    (c ∈ out' ↔ c ∈ out ∨ (c ∈ map id l ∧ toggle v c = true)) ∧ NoDup out') as Hfold.
  { induction l as [|k l IH]; intros out Hout; simpl; [set_solver|]. rewrite Hget. simpl.
    rewrite elem_of_cons. destruct (toggle v (id k)) eqn:E.
    - destruct (IH (js_add (id k) out)) as [H1 H2]; [by apply js_add_nodup|].
      split; [rewrite H1, js_add_in|done]. split; [|by intros [?|[[->|?] ?]]; auto].
      intros [[->|?]|[? ?]]; auto.
    - destruct (IH out Hout) as [H1 H2]. split; [rewrite H1|done].
      split; [by intros [?|[? ?]]; auto|]. intros [?|[[->|?] ?]]; [auto|congruence|auto]. }
  destruct (Hfold CONFIG_CATEGORIES [] (NoDup_nil_2)) as [H1 H2]. split; [|done].
  pose proof (CONFIG_CATEGORIES_ids c). rewrite H1, elem_of_nil.
  split; [by intros [?|[? ?]]|by right].
Qed.
