(* ===== verification/ConflictCopy.v ===== *)
(** [src/conflictRecovery.ts]: the names of recovery copies.

    [normalizePath] is Obsidian's; [clientLabel] is the client's name after the
    replacements of [sourceLabel], which keep letters, digits, spaces, [_] and
    [-]; [stamp] is the ISO form of a time without its punctuation and zone.
    A [.] of the pattern excludes the line terminators [\n] and [\r]. *)
From Stdlib Require Import String Ascii.
From stdpp Require Import pretty.
From S2P Require Import Prelude JsString.
#[local] Open Scope string_scope.

Inductive ConflictSource := SourceLocal | SourceRemote.

Definition lineTerminator (c : ascii) : bool :=
  bool_decide (c = "010"%char) || bool_decide (c = "013"%char).

(** [/ \(conflicted copy .+\)$/], first anchored at the start *)
Fixpoint closes (s : string) : bool :=
  match s with
  | EmptyString => false
  | String c EmptyString => bool_decide (c = ")"%char)
  | String c s => negb (lineTerminator c) && closes s
  end.

Definition conflictCopyAt (s : string) : bool :=
  startsWith " (conflicted copy " s &&
  match sliceFrom 18 s with
  | String c rest => negb (lineTerminator c) && closes rest
  | EmptyString => false
  end.

Fixpoint CONFLICT_COPY_RE (s : string) : bool :=
  conflictCopyAt s || match s with String _ s => CONFLICT_COPY_RE s | EmptyString => false end.

(** [a > b] for two results of [lastIndexOf] *)
Definition after (a b : option nat) : bool :=
  match a, b with
  | Some n, Some m => bool_decide (m < n)%nat
  | Some _, None => true
  | None, _ => false
  end.

Definition splitPath (path : string) : string * string :=
  let slash := lastIndexOf "/"%char path in
  let dot := lastIndexOf "."%char path in
  if negb (after dot slash) then (path, "")
  else match dot with
       | Some n => (sliceTo n path, sliceFrom n path)
       | None => (path, "")
       end.

(** The name without its last extension, as [isConflictCopy] takes it *)
Definition baseName (s : string) : string :=
  match lastIndexOf "."%char s with
  | Some n => if after (Some n) (lastIndexOf "/"%char s) then sliceTo n s else s
  | None => s
  end.

Section names.
Context (normalizePath : string → string) (clientLabel : string) (stamp : Z → string).

Definition isConflictCopy (path : string) : bool :=
  let normalized := normalizePath path in
  CONFLICT_COPY_RE (baseName normalized).

Definition sourceLabel (source : ConflictSource) : string :=
  match source with
  | SourceRemote => "Remote"
  | SourceLocal => if bool_decide (clientLabel = "") then "This device" else clientLabel
  end.

Definition candidatePath (path : string) (source : ConflictSource) (now : Z) (copy : N) : string :=
  let '(stem, extension) := splitPath (normalizePath path) in
  let suffix := "conflicted copy " +:+ sourceLabel source +:+ " " +:+ stamp now in
  stem +:+ " (" +:+ suffix +:+ (if (1 <? copy)%N then " " +:+ pretty copy else "") +:+ ")" +:+ extension.

(** The loop of [conflictCopyPath], [exists_] telling a path that is taken;
    [None] when [fuel] rounds are not enough. *)
Fixpoint freeCandidate (exists_ : string → bool) (path : string) (source : ConflictSource) (now : Z)
    (fuel : nat) (candidate : string) (copy : N) : option string :=
  if negb (exists_ candidate) then Some candidate
  else match fuel with
       | O => None
       | S fuel => freeCandidate exists_ path source now fuel (candidatePath path source now copy) (copy + 1)
       end.

Definition conflictCopyPath (taken : list string) (path : string) (source : ConflictSource) (now : Z) : option string :=
  freeCandidate (λ p, bool_decide (p ∈ taken)) path source now (length taken) (candidatePath path source now 1) 2.
End names.

(** ** Names of copies are recognized, and free ones are found *)

(** Neither a separator nor a line terminator *)
Definition plain (s : string) : Prop :=
  includes "."%char s = false ∧ includes "/"%char s = false ∧
  includes "010"%char s = false ∧ includes "013"%char s = false.

Lemma plain_append s t : plain s → plain t → plain (s +:+ t).
Proof.
  intros (H1 & H2 & H3 & H4) (K1 & K2 & K3 & K4). unfold plain.
  by rewrite !includes_append, H1, H2, H3, H4, K1, K2, K3, K4.
Qed.

Lemma pretty_digits c (n : N) : (∀ d, c ≠ pretty_N_char d) → includes c (pretty n) = false.
Proof.
  intros Hc. unfold pretty, pretty_N. case_decide; [|].
  - unfold includes. rewrite bool_decide_false; [done|]. intros ->. by apply (Hc 0%N).
  - assert (∀ s, includes c s = false → includes c (pretty_N_go n s) = false) as Hgo; [|by apply Hgo].
    clear H. induction (N.lt_wf_0 n) as [n _ IH]. intros s Hs.
    destruct (decide (0 < n)%N) as [Hn|Hn].
    + rewrite pretty_N_go_step by done. apply IH; [by apply N.div_lt|].
      unfold includes. fold includes. rewrite bool_decide_false; [done|]. apply Hc.
    + assert (n = 0%N) as -> by lia. by rewrite pretty_N_go_0.
Qed.

Lemma pretty_plain (n : N) : plain (pretty n).
Proof.
  assert (∀ c, c ∈ ["."; "/"; "010"; "013"]%char → includes c (pretty n) = false) as H.
  { intros c Hc. apply pretty_digits. intros d ->.
    assert (pretty_N_char d ∈ ["0"; "1"; "2"; "3"; "4"; "5"; "6"; "7"; "8"; "9"]%char) as Hd.
    { unfold pretty_N_char. repeat case_match; set_solver. }
    revert Hc Hd. rewrite !elem_of_cons, elem_of_nil. intuition congruence. }
  split_and!; apply H; set_solver.
Qed.

Lemma closes_append s : includes "010"%char s = false → includes "013"%char s = false → closes (s +:+ ")") = true.
Proof.
  induction s as [|c s IH]; intros H1 H2; [done|]. rewrite append_cons.
  cbn [includes] in H1, H2. apply orb_false_iff in H1 as [H1 H1'], H2 as [H2 H2'].
  specialize (IH H1' H2'). unfold closes at 1. fold closes.
  destruct (s +:+ ")") eqn:E; [by destruct s|]. rewrite <- E in *. unfold lineTerminator.
  bools. rewrite !bool_decide_false by congruence. done.
Qed.

Lemma CONFLICT_COPY_RE_append s m : conflictCopyAt m = true → CONFLICT_COPY_RE (s +:+ m) = true.
Proof.
  intros Hm. induction s as [|c s IH].
  - rewrite append_nil_l. destruct m; cbn [CONFLICT_COPY_RE]; by rewrite Hm.
  - rewrite append_cons. cbn [CONFLICT_COPY_RE]. by rewrite IH, orb_true_r.
Qed.

Lemma conflictCopyAt_intro s :
  s ≠ "" → includes "010"%char s = false → includes "013"%char s = false →
  conflictCopyAt (" (conflicted copy " +:+ s +:+ ")") = true.
Proof.
  intros Hs H1 H2. unfold conflictCopyAt. rewrite startsWith_append.
  assert (sliceFrom 18 (" (conflicted copy " +:+ s +:+ ")") = s +:+ ")") as ->.
  { exact (sliceFrom_append " (conflicted copy " _). }
  destruct s as [|c s]; [done|]. rewrite append_cons. cbn [includes] in *. bools.
  rewrite closes_append by done. unfold lineTerminator. by rewrite !bool_decide_false by congruence.
Qed.

(** Inserting [m] before the extension puts it at the end of the base name. *)
Lemma baseName_insert path m stem ext :
  splitPath path = (stem, ext) → includes "."%char m = false → includes "/"%char m = false →
  baseName (stem +:+ m +:+ ext) = stem +:+ m.
Proof.
  unfold splitPath, baseName. intros Hs Hdot Hslash.
  apply lastIndexOf_None in Hdot, Hslash.
  destruct (lastIndexOf "." path) as [n|] eqn:Ed.
  - destruct (after (Some n) (lastIndexOf "/" path)) eqn:Ea; simpl in Hs; injection Hs as <- <-.
    + destruct (lastIndexOf_split _ _ _ Ed) as (r & Hr & Hr' & Hl). rewrite Hr.
      assert (lastIndexOf "/" (String "." r) = None) as Hsl.
      { rewrite <- Hr. apply lastIndexOf_None.
        pose proof (lastIndexOf_append "/" (sliceTo n path) (sliceFrom n path)) as H.
        rewrite slice_split in H. destruct (lastIndexOf "/" (sliceFrom n path)) eqn:E.
        - rewrite H in Ea. simpl in Ea. bools. lia.
        - by apply lastIndexOf_None. }
      rewrite <- append_assoc, !(lastIndexOf_append _ (_ +:+ _)), Hsl. cbn [lastIndexOf].
      apply lastIndexOf_None in Hr'. rewrite Hr'. rewrite (bool_decide_true ("."%char = "."%char)) by done.
      rewrite Nat.add_0_r.
      assert (after (Some (String.length (sliceTo n path +:+ m)))
        (lastIndexOf "/" (sliceTo n path +:+ m)) = true) as ->; [|apply sliceTo_append].
      destruct (lastIndexOf "/" (sliceTo n path +:+ m)) as [k|] eqn:E; [|done].
      apply lastIndexOf_split in E as (r' & E1 & _ & E2). simpl. apply bool_decide_eq_true.
      assert (sliceTo n path +:+ m = sliceTo k (sliceTo n path +:+ m) +:+ String "/" r') as E3
        by (by rewrite <- E1, slice_split).
      rewrite E3. rewrite length_append, E2. simpl. lia.
    + rewrite append_nil_r, !lastIndexOf_append, Hdot, Hslash, Ed. by rewrite Ea.
  - simpl in Hs. injection Hs as <- <-. by rewrite append_nil_r, lastIndexOf_append, Hdot, Ed.
Qed.

Section facts.
Context (normalizePath : string → string) (clientLabel : string) (stamp : Z → string).
Context (Hlabel : plain clientLabel) (Hstamp : ∀ now, plain (stamp now)).
Notation candidatePath := (candidatePath normalizePath clientLabel stamp).
Notation sourceLabel := (sourceLabel clientLabel).

Lemma sourceLabel_plain source : plain (sourceLabel source) ∧ sourceLabel source ≠ "".
Proof using Hlabel.
  unfold ConflictCopy.sourceLabel. destruct source; [case_bool_decide; [|by split]|];
    (split; [by repeat split|done]).
Qed.

Definition numeral (copy : N) : string := if (1 <? copy)%N then " " +:+ pretty copy else "".

Lemma candidatePath_eq path source now copy stem ext :
  splitPath (normalizePath path) = (stem, ext) →
  candidatePath path source now copy =
    stem +:+ (" (conflicted copy " +:+ (sourceLabel source +:+ " " +:+ stamp now +:+ numeral copy) +:+ ")") +:+ ext.
Proof using Type.
  intros E. unfold ConflictCopy.candidatePath. rewrite E. fold (numeral copy).
  rewrite !append_assoc. reflexivity.
Qed.

Lemma numeral_plain copy : plain (numeral copy).
Proof using Type.
  unfold numeral. destruct (_ <? _)%N; [|done]. apply plain_append; [done|apply pretty_plain].
Qed.

(** Every name made for a copy is recognized as one, when Obsidian's
    normalization leaves it as it is. *)
Lemma candidatePath_recognized path source now copy :
  normalizePath (candidatePath path source now copy) = candidatePath path source now copy →
  isConflictCopy normalizePath (candidatePath path source now copy) = true.
Proof using Hlabel Hstamp.
  intros Hn. unfold isConflictCopy. rewrite Hn.
  destruct (splitPath (normalizePath path)) as [stem ext] eqn:E.
  rewrite (candidatePath_eq _ _ _ _ _ _ E).
  destruct (sourceLabel_plain source) as [Hsl Hne].
  assert (plain (sourceLabel source +:+ " " +:+ stamp now +:+ numeral copy)) as Hx.
  { apply plain_append; [done|]. apply plain_append; [done|]. apply plain_append; [done|apply numeral_plain]. }
  set (x := sourceLabel source +:+ _) in *.
  assert (plain (" (conflicted copy " +:+ x +:+ ")")) as Hm.
  { apply plain_append; [done|]. by apply plain_append. }
  destruct Hx as (_ & _ & H1 & H2), Hm as (M1 & M2 & _).
  cbv zeta. rewrite (baseName_insert _ _ _ _ E M1 M2).
  apply CONFLICT_COPY_RE_append, conflictCopyAt_intro; [|done..].
  unfold x. destruct (sourceLabel source); [done|]. by rewrite append_cons.
Qed.

Lemma append_cancel_l s t u : s +:+ t = s +:+ u → t = u.
Proof using Type. induction s as [|c s IH]; [done|]. rewrite !append_cons. intros [= H]. auto. Qed.

Lemma append_cancel_r s t u : t +:+ s = u +:+ s → t = u.
Proof using Type.
  intros H. assert (String.length t = String.length u) as Hl.
  { apply (f_equal String.length) in H. rewrite !length_append in H. lia. }
  rewrite <- (sliceTo_append t s), H, Hl. apply sliceTo_append.
Qed.

Lemma candidatePath_inj path source now n m :
  (1 ≤ n)%N → (1 ≤ m)%N →
  candidatePath path source now n = candidatePath path source now m → n = m.
Proof using Type.
  intros Hn Hm. destruct (splitPath (normalizePath path)) as [stem ext] eqn:E.
  rewrite !(candidatePath_eq _ _ _ _ _ _ E). intros H.
  apply append_cancel_l, append_cancel_r, append_cancel_l, append_cancel_r in H.
  do 3 apply append_cancel_l in H. revert H. unfold numeral.
  destruct (1 <? n)%N eqn:En, (1 <? m)%N eqn:Em.
  - intros H%append_cancel_l. by apply (inj pretty).
  - by rewrite append_cons.
  - by rewrite append_cons.
  - apply N.ltb_ge in En, Em. lia.
Qed.
End facts.

Section search.
Context (normalizePath : string → string) (clientLabel : string) (stamp : Z → string).
Notation candidatePath := (candidatePath normalizePath clientLabel stamp).

(** The names up to number [k], which the search has found taken *)
Definition triedNames (path : string) (source : ConflictSource) (now : Z) (k : nat) : list string :=
  map (λ n, candidatePath path source now (N.of_nat n)) (seq 1 k).

Lemma triedNames_nodup path source now k : NoDup (triedNames path source now k).
Proof using Type.
  unfold triedNames. apply NoDup_fmap_2_strong; [|apply NoDup_seq].
  intros n m Hn%elem_of_seq Hm%elem_of_seq H.
  apply candidatePath_inj in H; lia.
Qed.

(** As many names as are tried are taken. *)
Lemma triedNames_bound path source now k taken :
  (∀ p, p ∈ triedNames path source now k → p ∈ taken) → (k ≤ length taken)%nat.
Proof using Type.
  intros H. pose proof (triedNames_nodup path source now k) as Hd.
  pose proof (submseteq_length _ _ (NoDup_submseteq _ _ Hd H)) as Hl.
  unfold triedNames in Hl. by rewrite length_fmap, length_seq in Hl.
Qed.

Lemma triedNames_S path source now k :
  triedNames path source now (S k) = (triedNames path source now k ++ [candidatePath path source now (N.of_nat (S k))])%list.
Proof using Type. unfold triedNames. by rewrite seq_S, map_app. Qed.

Lemma freeCandidate_found taken path source now fuel k :
  (length taken ≤ k + fuel)%nat → (∀ p, p ∈ triedNames path source now k → p ∈ taken) →
  ∃ n, (1 ≤ n)%N ∧ candidatePath path source now n ∉ taken ∧
    freeCandidate normalizePath clientLabel stamp (λ p, bool_decide (p ∈ taken)) path source now fuel
      (candidatePath path source now (N.of_nat (S k))) (N.of_nat (S (S k))) =
    Some (candidatePath path source now n).
Proof using Type.
  revert k. induction fuel as [|fuel IH]; intros k Hk Ht; cbn [freeCandidate]; case_bool_decide as E; simpl negb;
    try (exists (N.of_nat (S k)); split_and!; [lia|done|done]).
  - exfalso. assert (S k ≤ length taken)%nat; [|lia].
    apply (triedNames_bound path source now). intros p. rewrite triedNames_S.
    rewrite elem_of_app, list_elem_of_singleton. intros [?| ->]; auto.
  - destruct (IH (S k)) as (n & H); [lia| |].
    + intros p. rewrite triedNames_S, elem_of_app, list_elem_of_singleton. intros [?| ->]; auto.
    + exists n. destruct H as (H1 & H2 & H3). split_and!; [done..|]. rewrite <- H3. f_equal. lia.
Qed.
End search.

(** The search for the name of a recovery copy ends, after at most one
    round for each file there is, with a name that no file has and that is
    recognized as a recovery copy's, so that the copy stays on this device;
    given a client label and time stamp without dots, slashes and line ends
    and a normalization that leaves such names as they are. *)
Theorem conflict_copy_path_free normalizePath clientLabel stamp taken path source now :
  plain clientLabel → (∀ t, plain (stamp t)) →
  (∀ n, normalizePath (candidatePath normalizePath clientLabel stamp path source now n) =
        candidatePath normalizePath clientLabel stamp path source now n) →
  ∃ c, conflictCopyPath normalizePath clientLabel stamp taken path source now = Some c ∧
    c ∉ taken ∧ isConflictCopy normalizePath c = true.
Proof.
  intros Hl Hs Hn.
  destruct (freeCandidate_found normalizePath clientLabel stamp taken path source now (length taken) 0)
    as (n & H1 & H2 & H3); [lia|by intros p ?%elem_of_nil|].
  eexists. split_and!; [exact H3|done|]. by apply candidatePath_recognized.
Qed.

Lemma conflict_copy_path_free_witness :
  ∃ c, conflictCopyPath (λ p, p) "laptop" (λ _, "20250101 120000")
      ["a/b.md"; "a/b (conflicted copy laptop 20250101 120000).md"] "a/b.md" SourceLocal 0 = Some c ∧
    c ∉ ["a/b.md"; "a/b (conflicted copy laptop 20250101 120000).md"] ∧
    isConflictCopy (λ p, p) c = true.
Proof.
  apply (conflict_copy_path_free (λ p, p) "laptop" (λ _, "20250101 120000"));
    [by repeat split|by repeat split|done].
Defined.

Example second_copy :
  conflictCopyPath (λ p, p) "laptop" (λ _, "20250101 120000")
    ["a/b.md"; "a/b (conflicted copy laptop 20250101 120000).md"] "a/b.md" SourceLocal 0 =
  Some "a/b (conflicted copy laptop 20250101 120000 2).md".
Proof. vm_compute. reflexivity. Qed.
