(* ===== verification/Vault.v ===== *)
(** [src/vaultHelpers.ts] and the part of [src/conflictRecovery.ts] that
    writes recovery copies: what the sync paths share on top of Obsidian's
    vault and workspace.

    The vault is a platform: a tree of files and folders it keeps in memory,
    and calls that may fail.  The workspace is what its optional functions
    answer; views are told apart by a number. *)
From Stdlib Require Import String Ascii.
From S2P Require Import Prelude Effects TraceLogic Await JsString ConflictCopy.
#[local] Open Scope Z_scope.

(** [TFile], with [stat.size], or a folder *)
Inductive AbstractFile := TFile (size : option Z) | TFolder.

(** A leaf's view: its file's path, and the mode of a Markdown view, [None]
    when the view has no [getMode]. *)
Record View := mkView { viewId : nat; viewPath : option string; viewMode : option string }.

(** The functions of the workspace, [None] when it has none: the active file,
    the views of all leaves, those of the Markdown leaves. *)
Record Workspace := mkWorkspace {
  activeFile : option (option string);
  allLeaves : option (list (option View));
  markdownLeaves : option (list (option View)) }.

(** [leaf?.view?.file?.path === path] *)
Definition showsPath (path : string) (leaf : option View) : bool :=
  bool_decide ((leaf ≫= viewPath) = Some path).

Definition isOpenInWorkspace (ws : Workspace) (path : string) : bool :=
  if bool_decide (mjoin (activeFile ws) = Some path) then true
  else
    let found := match allLeaves ws with
                 | Some leaves => existsb (showsPath path) leaves
                 | None => false
                 end in
    if found then true
    else match markdownLeaves ws with
         | Some leaves => existsb (showsPath path) leaves
         | None => false
         end.

(** [isEditable], which remembers the views it has [inspected] *)
Definition isEditable (path : string) (inspected : gset nat) (leaf : option View) : gset nat * bool :=
  match leaf with
  | None => (inspected, false)
  | Some view =>
    if negb (showsPath path leaf) || bool_decide (viewId view ∈ inspected) then (inspected, false)
    else
      ({[viewId view]} ∪ inspected,
       match viewMode view with Some mode => String.eqb mode "source" | None => true end)
  end.

(** [iterateAllLeaves], which looks at every leaf *)
Definition editableInAll (path : string) (inspected : gset nat) (leaves : list (option View)) : gset nat * bool :=
  foldl (λ '(seen, found) leaf, let '(seen, e) := isEditable path seen leaf in (seen, found || e))
    (inspected, false) leaves.

(** [leaves.some(isEditable)] *)
Fixpoint someEditable (path : string) (inspected : gset nat) (leaves : list (option View)) : bool :=
  match leaves with
  | [] => false
  | leaf :: leaves =>
    let '(inspected, e) := isEditable path inspected leaf in
    if e then true else someEditable path inspected leaves
  end.

Definition isOpenInEditableMarkdown (ws : Workspace) (path : string) : bool :=
  let '(inspected, found) :=
    match allLeaves ws with
    | Some leaves => editableInAll path ∅ leaves
    | None => (∅, false)
    end in
  if found then true
  else match markdownLeaves ws with
       | Some leaves => someEditable path inspected leaves
       | None => false
       end.

(** The vault: [Err] is what its calls throw, [vaultNow] the clock, the next
    three what [ConflictCopy] takes. *)
Class VaultApi (W Move Err : Type) := {
  tree : W → gmap string AbstractFile;           (* [getAbstractFileByPath] *)
  workspace : W → Workspace;
  createFolder : string → Call W Move Err ();
  createBinary : string → list Byte.byte → Call W Move Err ();
  modifyBinary : string → list Byte.byte → Call W Move Err ();
  readFile : string → Call W Move Err (list Byte.byte);
  deleteFile : string → Call W Move Err ();
  createText : string → string → Call W Move Err ();
  modifyText : string → string → Call W Move Err ();
  readText : string → Call W Move Err string;
  vaultNow : W → Z;
  vaultNormalize : string → string;
  vaultLabel : string;
  vaultStamp : Z → string;
  noFreeName : Err }.

Section vault.
Context {S W Move Err : Type} `{!Host S W Move, !VaultApi W Move Err}.
Notation M := (eff S Err).

(** [None] when there is none, or a folder; [Some size] with the size its
    [stat] has, if any *)
Definition getFileByPath (path : string) (w : W) : option (option Z) :=
  match tree w !! path with Some (TFile size) => Some size | _ => None end.

(** The loop over the parts of the folder's path *)
Fixpoint ensureFolderParts (current : string) (parts : list string) : M () :=
  match parts with
  | [] => mret ()
  | part :: parts =>
    if bool_decide (part = ""%string) then ensureFolderParts current parts
    else
      let current := if bool_decide (current = ""%string) then part else (current ++ "/" ++ part)%string in
      there ← get (λ s, bool_decide (is_Some (tree (worldOf s) !! current)));
      (if there : bool then mret () else catch (call (createFolder current)) (λ _, mret ())) ≫= λ _,
      ensureFolderParts current parts
  end.

Definition ensureParentFolder (path : string) : M () :=
  await match lastIndexOf "/"%char path with
        | None | Some O => mret ()
        | Some slash => ensureFolderParts "" (split "/"%char (sliceTo slash path))
        end.

(** The name is looked for without waiting: [tree] does not change meanwhile. *)
Definition copyDestination (path : string) (source : ConflictSource) : M string :=
  found ← get (λ s, conflictCopyPath vaultNormalize vaultLabel vaultStamp
                      (elements (dom (tree (worldOf s)))) path source (vaultNow (worldOf s)));
  match found with Some destination => mret destination | None => throw noFreeName end.

Definition preserveTextConflict (path content : string) (source : ConflictSource) : M string :=
  await (destination ← copyDestination path source;
         ensureParentFolder destination ≫= λ _,
         call (createText destination content) ≫= λ _,
         mret destination).

Definition preserveBinaryConflict (path : string) (content : list Byte.byte) (source : ConflictSource) : M string :=
  await (destination ← copyDestination path source;
         ensureParentFolder destination ≫= λ _,
         call (createBinary destination content) ≫= λ _,
         mret destination).

(** Whether one of these copies of the path holds exactly [content] *)
Fixpoint heldByCopy (stem extension content : string) (files : list string) : M bool :=
  match files with
  | [] => mret false
  | file :: files =>
    if negb (startsWith (stem ++ " (conflicted copy ") file) then heldByCopy stem extension content files
    else if negb (endsWith (")" ++ extension) file) then heldByCopy stem extension content files
    else
      text ← call (readText file);
      if String.eqb text content then mret true else heldByCopy stem extension content files
  end.

Definition isFile (f : AbstractFile) : bool := match f with TFile _ => true | TFolder => false end.

(** [vault.getFiles()], in some order *)
Definition getFiles (s : S) : list string :=
  (filter (λ x, isFile x.2 = true) (map_to_list (tree (worldOf s)))).*1.

Definition updateTextConflict (path content : string) (source : ConflictSource) (current : option string) :
    M (option string) :=
  await (
    existing ← get (λ s, current ≫= λ c, getFileByPath c (worldOf s));
    match current, existing with
    | Some c, Some _ => call (modifyText c content) ≫= λ _, mret (Some c)
    | _, _ =>
      let '(stem, extension) := splitPath (vaultNormalize path) in
      files ← get getFiles;
      held ← heldByCopy stem extension content files;
      if held : bool then mret None
      else destination ← preserveTextConflict path content source; mret (Some destination)
    end).
End vault.

(** Making folders and copies keeps whatever the moves keep. *)
Section keeping.
Context {S W Move Err : Type} `{!Host S W Move, !VaultApi W Move Err} (I : S → Prop) `{!Stable I}.

Lemma keeps_parentFolder path : keeps I (ensureParentFolder (Err := Err) path).
Proof using Type*.
  assert (∀ parts current, keeps I (ensureFolderParts (Err := Err) current parts)) as Hp.
  { induction parts as [|part parts IH]; intros current; cbn [ensureFolderParts]; waiting. }
  unfold ensureParentFolder. waiting.
Qed.
#[local] Hint Resolve keeps_parentFolder : waits.

Lemma keeps_vault_preserve path content source : keeps I (preserveTextConflict (Err := Err) path content source).
Proof using Type*. unfold preserveTextConflict, copyDestination. waiting. Qed.
End keeping.
#[export] Hint Resolve keeps_parentFolder keeps_vault_preserve : waits.
