(* ===== verification/Limiter.v ===== *)
(** [TransferLimiter] of [src/BinarySync.ts]: how many transfers, and how many
    bytes, are under way at once.

    A job that may not start waits for the next completion, which wakes all
    that wait; each looks again in its own microtask, so others may have come
    first.  [waiters] are the pushed [resolve]s, [woken] the jobs whose
    microtask is due, in their order. *)
From S2P Require Import Prelude.
#[local] Open Scope Z_scope.

Record Job := mkJob { jobId : nat; jobSize : Z }.
#[export] Instance Job_eq_dec : EqDecision Job.
Proof. solve_decision. Defined.

Record Limiter := mkLimiter {
  active : Z;
  bytes : Z;
  waiters : list Job;
  woken : list Job;
  running : list Job }.
#[export] Instance eta_Limiter : Eta Limiter := λ r,
  mkLimiter (active r) (bytes r) (waiters r) (woken r) (running r).

Definition newLimiter : Limiter := mkLimiter 0 0 [] [] [].

(** [Arrives]: [run] is called.  [Wakes]: the first microtask due runs.
    [Completes i]: the work of the [i]-th running job settles. *)
Inductive Event := Arrives (j : Job) | Wakes | Completes (i : nat).

Section limiter.
Context (maxJobs maxBytes : Z).

(** The condition of the [while] *)
Definition mustWait (j : Job) (l : Limiter) : bool :=
  (0 <? active l) && ((maxJobs <=? active l) || (maxBytes <? bytes l + jobSize j)).

Definition admit_ (j : Job) (l : Limiter) : Limiter :=
  l <| active ::= Z.add 1 |> <| bytes ::= λ b, b + jobSize j |> <| running ::= λ r, r ++ [j] |>.

(** One test of the [while], and what follows it *)
Definition try (j : Job) (l : Limiter) : Limiter :=
  if mustWait j l then l <| waiters ::= λ w, w ++ [j] |> else admit_ j l.

(** The [finally] *)
Definition complete (i : nat) (j : Job) (l : Limiter) : Limiter :=
  l <| active ::= λ a, a - 1 |> <| bytes ::= λ b, b - jobSize j |> <| running ::= delete i |>
    <| woken ::= λ w, w ++ waiters l |> <| waiters := [] |>.

(** [None] when the event cannot happen *)
Definition step (l : Limiter) (e : Event) : option Limiter :=
  match e with
  | Arrives j => Some (try j l)
  | Wakes => match woken l with [] => None | j :: w => Some (try j (l <| woken := w |>)) end
  | Completes i => match running l !! i with Some j => Some (complete i j l) | None => None end
  end.

Fixpoint steps (l : Limiter) (es : list Event) : option Limiter :=
  match es with
  | [] => Some l
  | e :: es => l ← step l e; steps l es
  end.

(** ** The counters count, and whoever waits will be woken *)

Definition sizes (js : list Job) : Z := foldr (λ j n, jobSize j + n) 0 js.

Lemma sizes_app js ks : sizes (js ++ ks) = sizes js + sizes ks.
Proof using Type. induction js; simpl; lia. Qed.

Lemma sizes_delete i j js : js !! i = Some j → sizes (delete i js) = sizes js - jobSize j.
Proof using Type.
  revert i. induction js as [|k js IH]; intros [|i] H; simpl in *; simplify_eq; [lia|].
  change (delete (S i) (k :: js)) with (k :: delete i js). simpl. rewrite (IH i) by done. lia.
Qed.

Record inv (l : Limiter) : Prop := {
  inv_active : active l = zlength (running l);
  inv_bytes : bytes l = sizes (running l);
  inv_jobs : zlength (running l) ≤ Z.max 1 maxJobs;
  inv_budget : bytes l ≤ maxBytes ∨ zlength (running l) ≤ 1;
  inv_sizes : Forall (λ j, 0 ≤ jobSize j) (running l ++ waiters l ++ woken l);
  inv_waiters : waiters l ≠ [] → running l ≠ [] }.

Lemma inv_try j l : 0 ≤ jobSize j → inv l → inv (try j l).
Proof using Type.
  intros Hj [Ha Hb Hn Hm Hs Hw]. unfold try, mustWait.
  destruct (0 <? active l) eqn:E0; simpl; bools.
  - assert (running l ≠ []) as Hr by (intros E; rewrite E, zlength_nil in Ha; lia).
    destruct (_ || _) eqn:E.
    + split; simpl; try done. rewrite !Forall_app, ?Forall_singleton in *. naive_solver.
    + bools. split; simpl; autorewrite with zlen; rewrite ?sizes_app; simpl; try lia.
      * rewrite !Forall_app, ?Forall_singleton in *. naive_solver.
      * intros _. by destruct (running l).
  - assert (running l = []) as Hr.
    { destruct (running l) as [|k r]; [done|]. pose proof (zlength_nonneg r). rewrite zlength_cons in Ha. lia. }
    rewrite Hr in *. split; simpl; rewrite ?Hr; simpl; autorewrite with zlen in *; simpl in *; try lia; try done.
    by constructor.
Qed.

Lemma inv_complete i j l : running l !! i = Some j → inv l → inv (complete i j l).
Proof using Type.
  intros Hi [Ha Hb Hn Hm Hs Hw].
  assert (zlength (delete i (running l)) = zlength (running l) - 1) as Hl.
  { unfold zlength. rewrite length_delete by eauto. apply lookup_lt_Some in Hi. lia. }
  rewrite !Forall_app in Hs. destruct Hs as (Hs & Hsw & Hso).
  assert (0 ≤ jobSize j) by (by eapply (Forall_lookup_1 _ _ _ _ Hs)).
  split; simpl; rewrite ?Hl, ?(sizes_delete _ _ _ Hi); try lia; [|done].
  rewrite !Forall_app. split_and!; try done. by apply Forall_delete.
Qed.

Lemma inv_step_limiter l e l' :
  match e with Arrives j => 0 ≤ jobSize j | _ => True end → inv l → step l e = Some l' → inv l'.
Proof using Type.
  intros He Hl Hstep. destruct e as [j| |i]; simpl in Hstep.
  - injection Hstep as <-. by apply inv_try.
  - destruct (woken l) as [|j w] eqn:Ew; [done|]. injection Hstep as <-. destruct Hl as [Ha Hb Hn Hm Hs Hw].
    rewrite Ew, !Forall_app, Forall_cons in Hs. destruct Hs as (? & ? & ? & ?).
    apply inv_try; [done|]. split; simpl; try done. by rewrite !Forall_app.
  - destruct (running l !! i) eqn:Hi; [|done]. injection Hstep as <-. by apply inv_complete.
Qed.

Lemma inv_steps es l l' :
  Forall (λ e, match e with Arrives j => 0 ≤ jobSize j | _ => True end) es →
  inv l → steps l es = Some l' → inv l'.
Proof using Type.
  revert l. induction es as [|e es IH]; intros l Hes Hl H; simpl in H; [by simplify_eq|].
  apply Forall_cons in Hes as [He Hes]. destruct (step l e) as [l1|] eqn:E; [|done]. simpl in H.
  apply (IH l1); [done| |done]. by eapply inv_step_limiter.
Qed.

Lemma inv_new_limiter : inv newLimiter.
Proof using Type. split; simpl; try done; unfold zlength; simpl; lia. Qed.

(** ** Without new jobs it comes to an end *)

Definition unfinished (l : Limiter) : list Job := running l ++ woken l ++ waiters l.

Definition measure (l : Limiter) : nat :=
  let n := length (unfinished l) in n * (n + 1) + length (woken l).

Lemma try_unfinished j l :
  unfinished (try j l) ≡ₚ j :: unfinished l ∧ woken (try j l) = woken l.
Proof using Type.
  unfold try. case_match; (split; [|done]); unfold unfinished; simpl.
  - rewrite !(assoc_L (++)). symmetry. apply Permutation_cons_append.
  - rewrite <- (assoc_L (++)). simpl. symmetry. apply Permutation_middle.
Qed.

Lemma complete_unfinished i j l : running l !! i = Some j →
  unfinished l ≡ₚ j :: unfinished (complete i j l).
Proof using Type.
  intros Hi. unfold unfinished. simpl. rewrite app_nil_r.
  rewrite (delete_Permutation _ _ _ Hi) at 1. done.
Qed.

Lemma measure_step l e l' :
  step l e = Some l' → match e with Arrives _ => False | _ => True end → (measure l' < measure l)%nat.
Proof using Type.
  intros Hstep He. destruct e as [j| |i]; [done|..]; unfold step in Hstep.
  - destruct (woken l) as [|j w] eqn:Ew; [done|]. apply (inj Some) in Hstep as <-.
    destruct (try_unfinished j (l <| woken := w |>)) as [Hu Hw]. unfold measure. rewrite Hw, Hu.
    unfold unfinished. rewrite Ew. simpl. rewrite !length_app. simpl. rewrite !length_app. lia.
  - destruct (running l !! i) as [j|] eqn:Hi; [|done]. injection Hstep as <-.
    assert (length (unfinished l) = S (length (unfinished (complete i j l)))) as Hn
      by (by rewrite (complete_unfinished i j l Hi)).
    assert (length (woken (complete i j l)) ≤ length (unfinished (complete i j l)))%nat as Hw
      by (unfold unfinished; rewrite !length_app; lia).
    unfold measure. rewrite Hn. revert Hw. generalize (length (woken (complete i j l))). nia.
Qed.
End limiter.

(** C24: However transfers are asked for and complete, at most [maxJobs] of
    them run at once, and together they hold at most [maxBytes], unless a
    single one, larger than that, runs alone. *)
Theorem transfers_within_budget (maxJobs maxBytes : Z) (es : list Event) (l : Limiter) :
  1 ≤ maxJobs →
  Forall (λ e, match e with Arrives j => 0 ≤ jobSize j | _ => True end) es →
  steps maxJobs maxBytes newLimiter es = Some l →
  zlength (running l) ≤ maxJobs ∧ (sizes (running l) ≤ maxBytes ∨ zlength (running l) ≤ 1).
Proof.
  intros Hmax Hes Hl. destruct (inv_steps _ _ _ _ _ Hes (inv_new_limiter _ _) Hl) as [_ Hb Hn Hm _ _]. lia.
Qed.

(** C25: Once no more transfers are asked for, the limiter can only do boundedly
    many steps; and it can do one as long as any job is unfinished, so that no
    waiting job is forgotten. *)
Theorem transfers_all_run (maxJobs maxBytes : Z) (es rest : list Event) (l l' : Limiter) :
  Forall (λ e, match e with Arrives j => 0 ≤ jobSize j | _ => True end) es →
  steps maxJobs maxBytes newLimiter es = Some l →
  Forall (λ e, match e with Arrives _ => False | _ => True end) rest →
  steps maxJobs maxBytes l rest = Some l' →
  (length rest ≤ measure l)%nat ∧
  (unfinished l' ≠ [] → ∃ e l'', match e with Arrives _ => False | _ => True end ∧
     step maxJobs maxBytes l' e = Some l'').
Proof.
  intros Hes Hl Hrest Hl'. split.
  - clear Hl es Hes. revert l Hl'. induction Hrest as [|e rest He _ IH]; intros l Hl'; simpl in *; [lia|].
    destruct (step maxJobs maxBytes l e) as [l1|] eqn:E; [|done]. simpl in Hl'.
    specialize (IH _ Hl'). apply measure_step in E; [lia|done].
  - intros Hu. assert (inv maxJobs maxBytes l') as Hinv.
    { apply (inv_steps maxJobs maxBytes rest l); [|by eapply inv_steps, Hl; [|apply inv_new_limiter]|done].
      eapply Forall_impl; [done|]. by intros []. }
    destruct (woken l') as [|j w] eqn:Ew.
    + destruct (running l') as [|j r] eqn:Er.
      * exfalso. destruct Hinv as [_ _ _ _ _ Hw]. unfold unfinished in Hu. rewrite Er, Ew in Hu. by apply Hw.
      * exists (Completes 0). eexists. split; [done|]. simpl. by rewrite Er.
    + exists Wakes. eexists. split; [done|]. simpl. by rewrite Ew.
Qed.

Module LimiterRun.
Definition small (n : nat) : Job := mkJob n 3.
Definition large : Job := mkJob 9 100.

(** Three jobs and a large one on two places and eight bytes *)
Definition events : list Event :=
  [Arrives (small 0); Arrives (small 1); Arrives large; Arrives (small 2); Completes 0; Wakes; Wakes].

Definition after_ : Limiter := mkLimiter 2 6 [large] [] [small 1; small 2].

Lemma transfers_within_budget_witness : zlength (running after_) ≤ 2 ∧
  (sizes (running after_) ≤ 8 ∨ zlength (running after_) ≤ 1).
Proof.
  apply (transfers_within_budget 2 8 events after_); [lia| |vm_compute; reflexivity].
  repeat constructor; simpl; lia.
Defined.

Lemma transfers_all_run_witness :
  (length [Completes 0; Wakes] ≤ measure after_)%nat ∧
  (unfinished (mkLimiter 1 3 [large] [] [small 2]) ≠ [] → ∃ e l'',
     match e with Arrives _ => False | _ => True end ∧
     step 2 8 (mkLimiter 1 3 [large] [] [small 2]) e = Some l'').
Proof.
  apply (transfers_all_run 2 8 events [Completes 0; Wakes] after_ (mkLimiter 1 3 [large] [] [small 2])).
  - repeat constructor; simpl; lia.
  - vm_compute. reflexivity.
  - by repeat constructor.
  - vm_compute. reflexivity.
Defined.

(** A large job that waits is passed by small ones that keep coming. *)
Example large_is_overtaken :
  running <$> steps 2 8 newLimiter
    [Arrives (small 0); Arrives large; Arrives (small 1); Completes 0; Wakes; Arrives (small 2);
     Completes 0; Wakes; Arrives (small 3)] = Some [small 2; small 3].
Proof. vm_compute. reflexivity. Qed.
End LimiterRun.
