(* ===== verification/BinarySync.v ===== *)
(** [src/BinarySync.ts]: sync of the files that are not text.  The index maps
    a path to the hash of its content ([binaries]); the content itself is a
    blob on the server.

    A reconciliation of one path, a drain of the upload queue and a restore
    from the trash are programs over the state.  The vault, the server, the
    hash, the conflict dialog and what the other sync parts answer are the
    platform.  Every awaited call answers as it likes, or throws, and tells
    what happened meanwhile ([Move]): the user and other clients act, timers
    fire, and the other programs of this object do the steps they do without
    waiting.  The chain that makes conflict dialogs wait for each other, and
    the turn a transfer waits for (see [Limiter]), are an [await] each. *)
From Stdlib Require Import String.
From S2P Require Import Prelude Effects TraceLogic Await JsString JsMap Json Caps Lineage ConflictCopy Vault.
From S2P Require LocalState.
#[local] Open Scope Z_scope.

Notation bytes := (list Byte.byte).
Notation LocalSyncState := LocalState.LocalSyncState.
Notation KBinary := LocalState.KBinary.
#[local] Existing Instance LocalState.MaterializedKind_eq_dec.

(** An index entry: its version, as [lineage.ts] reads it, and size *)
Record BinaryMeta := mkBinary { version : VersionedEntry; size : Z }.
Definition bhash (m : BinaryMeta) : string := hash (version m).

Inductive UploadStatus := Idle | Uploading | Pending.
#[export] Instance UploadStatus_eq_dec : EqDecision UploadStatus.
Proof. solve_decision. Defined.

(** [expectedRemoteHash] may be left out, or null. *)
Record UploadJob := mkUpload {
  jobPath : string;
  jobHash : string;
  jobSize : Z;
  attempts : Z;
  urgent : bool;
  expectedRemoteHash : option (option string);
  diskVersion : Z;
  deferredSince : option Z }.
#[export] Instance eta_UploadJob : Eta UploadJob := λ r,
  mkUpload (jobPath r) (jobHash r) (jobSize r) (attempts r) (urgent r) (expectedRemoteHash r)
    (diskVersion r) (deferredSince r).

Definition LARGE_FILE_BYTES : Z := 5 * 1024 * 1024.
Definition MAX_UPLOAD_ATTEMPTS : Z := 5.
Definition MAX_RETRY_MS : Z := 60000.
Definition DRAIN_RETRY_MS : Z := 2000.
Definition MAX_LARGE_UPLOAD_DEFERRAL_MS : Z := 60000.

Definition retryDelay (failures : Z) : Z :=
  Z.min MAX_RETRY_MS (DRAIN_RETRY_MS * 2 ^ Z.max 0 (Z.min (failures - 1) 5)).

Inductive Err := HttpError (status : Z) | OtherError | OutOfFuel.

Definition isTransientTransferError (e : Err) : bool :=
  match e with
  | HttpError status => isServerUnavailableStatus status || (500 <=? status)
  | _ => true
  end.

Inductive ConflictChoice := KeepLocal | KeepRemote.

(** What [reconcileNow] compares: [own] tells that this device made the
    baseline, or keeps no records; [gone] that a file which is not there was
    deleted, rather than not pulled yet. *)
Record Comparison := mkComparison {
  cPath : string;
  cLocal : option string;
  cRemote : option BinaryMeta;
  cBase : option string;
  cOwn : bool;
  cGone : bool }.

(** What the programs caused, and what they saw, for the specification.
    [Hashed] is what [hashDisk] answered; [Stored] that the server has a blob;
    [Published] carries the entry it replaced and the count of local changes
    seen.  [Wrote] and [Removed] are recorded when the call is made, the rest
    when it has succeeded. *)
Inductive Effect :=
  | Hashed (path : string) (h : option (option string))
  | Read (path : string) (content : bytes)
  | Compared (c : Comparison)
  | Chose (path : string) (choice : ConflictChoice)
  | Fetched (h : string) (content : bytes)
  | Stored (h : string)
  | Started (job : UploadJob)
  | Wrote (path : string) (content : bytes)
  | Removed (path : string)
  | Preserved (path copy : string) (content : bytes)
  | Trashed (path h : string) (size : Z)
  | Published (path : string) (replaced : option BinaryMeta) (meta : BinaryMeta) (seen : Z)
  | Restored (path : string) (replaced : option BinaryMeta) (meta : BinaryMeta)
  | Unpublished (path : string) (replaced : option BinaryMeta)
  | Notice (text path : string).

(** What happens while a program waits.  From [Agreed] on these are the steps
    of the object's other programs. *)
Inductive Move :=
  | IndexSet (path : string) (meta : BinaryMeta)
  | IndexDelete (path : string)
  | LocalChanged (path : string)
  | LocalDeleted (path : string)
  | LocalRenamed (path oldPath : string)
  | PausedSet (b : bool)
  | DestroyCalled
  | RetryNowCalled
  | Prioritized (paths : list string)
  | Unprioritized (paths : list string)
  | TrackingStopped (path : string)
  | MoveHeld (path : string)
  | MoveReleased (path : string)
  | Requested (path : string)
  | AllBegan
  | AllDone
  | RetryFired (path : string)
  | WritingReleased
  | DrainFired
  | Agreed (path h : string)
  | Forgotten (path : string)
  | Queued (path : string) (expected : option string) (h : string) (size : option Z)
  | Deferred (path : string) (initialPull : bool)
  | MetaPublished (path : string) (meta : BinaryMeta)
  | EntryDeleted (path : string)
  | DrainBegan
  | DrainTook (i : nat)
  | DrainPutBack (job : UploadJob) (e : option Err)
  | DrainSettled
  | DrainEnded.

(** The platform: [W] is the state of the vault, the server, the user and the
    clock.  [fuel] bounds the rounds of a path's chain, of a conflict and of a
    drain. *)
Class Platform (W : Type) := {
  vault :: VaultApi W Move Err;
  getBlob : string → string → Call W Move Err bytes;
  blobExists : string → string → Z → Call W Move Err bool;
  putBlob : string → string → bytes → Call W Move Err ();
  askConflict : string → bool → Call W Move Err ConflictChoice;   (* the dialog *)
  settle : W → W * list Move;
  textBusy : W → bool;                    (* [vaultSync.isTextSyncBusy()] *)
  pendingRemoval : string → W → bool;     (* [vaultSync.isPendingLocalRemoval] *)
  shouldTrack : string → bool;
  sha256 : bytes → string;
  fuel : nat }.

Section binarySync.
Context {W : Type} `{!Platform W}.

Record BinarySync := mkBinarySync {
  world : W;
  binaries : jsmap string BinaryMeta;
  localSyncState : option LocalSyncState;
  lastSyncedHash : gmap string string;
  chains : gset string;
  begun : list string;            (* the chains whose first turn is due *)
  pendingReconcile : gset string;
  deferredReconciles : list string;
  deferredInitialPulls : gset string;
  pendingDownloads : gset string;
  downloadFailures : jsmap string Z;
  retryTimers : list (string * Z);  (* path and delay *)
  writing : gset string;
  releasing : list string;        (* the timers that end a [writing] *)
  liveDeletes : gset string;
  ignoredPaths : gset string;
  pullingMissingRemote : bool;
  movingAway : gset string;
  uploadQueue : list UploadJob;
  urgentPaths : gset string;
  diskVersions : gmap string Z;
  draining : bool;
  drainDue : bool;                (* the timer fired, the drain is to begin *)
  ownDrain : bool;                (* for the model: the drain under way is the program looked at *)
  activeUpload : bool;
  drainTimer : option Z;          (* its delay *)
  uploadStatus : UploadStatus;
  started : bool;
  paused : bool;
  destroyed : bool;
  effects : list Effect }.
#[export] Instance eta_BinarySync : Eta BinarySync := λ r,
  mkBinarySync (world r) (binaries r) (localSyncState r) (lastSyncedHash r) (chains r) (begun r)
    (pendingReconcile r) (deferredReconciles r) (deferredInitialPulls r) (pendingDownloads r)
    (downloadFailures r) (retryTimers r) (writing r) (releasing r) (liveDeletes r) (ignoredPaths r)
    (pullingMissingRemote r) (movingAway r) (uploadQueue r) (urgentPaths r) (diskVersions r) (draining r)
    (drainDue r) (ownDrain r) (activeUpload r) (drainTimer r) (uploadStatus r) (started r) (paused r) (destroyed r)
    (effects r).

Notation M := (eff BinarySync Err).

Definition effect (e : Effect) : M () := update (λ s, s <| effects ::= λ l, l ++ [e] |>).

Definition local (f : LocalSyncState → LocalSyncState) (s : BinarySync) : BinarySync :=
  s <| localSyncState ::= fmap f |>.

Definition localState (path : string) (s : BinarySync) : option LocalState.LocalPathState :=
  localSyncState s ≫= LocalState.get path.

(** [this.binaries.get(path)?.hash ?? null] *)
Definition remoteHashOf (path : string) (s : BinarySync) : option string :=
  bhash <$> jm_get path (binaries s).

Definition remoteSize (meta : option BinaryMeta) : option Z := size <$> meta.

(** ** Asking for a reconciliation *)

(** [void this.reconcile(path)] *)
Definition reconcile (path : string) (s : BinarySync) : BinarySync :=
  if bool_decide (path ∈ chains s) then s <| pendingReconcile ::= union {[path]} |>
  else s <| chains ::= union {[path]} |> <| begun ::= λ l, l ++ [path] |>.

Definition onBinariesChanged (path : string) (s : BinarySync) : BinarySync :=
  if destroyed s || negb (started s) then s
  else if negb (shouldTrack path) then s
  else if bool_decide (path ∈ ignoredPaths s) then s
  else reconcile path s.

Definition indexSet (path : string) (meta : BinaryMeta) (s : BinarySync) : BinarySync :=
  onBinariesChanged path (s <| binaries ::= jm_set path meta |>).

(** Deleting a key that is not there is no change. *)
Definition indexDelete (path : string) (s : BinarySync) : BinarySync :=
  if jm_has path (binaries s) then onBinariesChanged path (s <| binaries ::= jm_delete path |>) else s.

(** [window.setTimeout(() => void this.reconcile(path), delay)] *)
Definition reconcileIn (delay : Z) (path : string) (s : BinarySync) : BinarySync :=
  s <| retryTimers ::= λ l, l ++ [(path, delay)] |>.

Definition retryDownloadLater (path : string) (s : BinarySync) : BinarySync :=
  let failures := default 0 (jm_get path (downloadFailures s)) + 1 in
  reconcileIn (retryDelay failures) path (s <| downloadFailures ::= jm_set path failures |>).

Definition deferReconcile (path : string) (initialPull : bool) (s : BinarySync) : BinarySync :=
  let s := s <| deferredReconciles ::= js_add path |> in
  if initialPull then s <| deferredInitialPulls ::= union {[path]} |> else s.

(** [deferReconcile(path)], with the default of its second argument *)
Definition deferReconcileNow (path : string) (s : BinarySync) : BinarySync :=
  deferReconcile path (pullingMissingRemote s) s.

(** ** The upload queue, as far as it does not wait *)

Definition statusOf (s : BinarySync) : UploadStatus :=
  if destroyed s then Idle
  else if activeUpload s then Uploading
  else match uploadQueue s with [] => Idle | _ => Pending end.

Definition refreshUploadStatus (s : BinarySync) : BinarySync := s <| uploadStatus := statusOf s |>.

Definition scheduleDrain (delay : Z) (s : BinarySync) : BinarySync :=
  if paused s || bool_decide (is_Some (drainTimer s)) then s else s <| drainTimer := Some delay |>.

Definition enqueueUpload (job : UploadJob) (s : BinarySync) : BinarySync :=
  let others := filter (λ j, jobPath j ≠ jobPath job) (uploadQueue s) in
  let s := s <| uploadQueue := if urgent job then job :: others else others ++ [job] |> in
  scheduleDrain 0 (refreshUploadStatus s).

Definition versionOfDisk (path : string) (s : BinarySync) : Z := default 0 (diskVersions s !! path).

Definition bumpDiskVersion (path : string) (s : BinarySync) : BinarySync :=
  s <| diskVersions ::= <[path := versionOfDisk path s + 1]> |>.

(** The synchronous part of [queueLocalUpload], for the file found *)
Definition queueUpload (path : string) (expected : option string) (h : string) (fileSize : option Z)
    (s : BinarySync) : BinarySync :=
  enqueueUpload
    (mkUpload path h (default 0 fileSize) 0 (bool_decide (path ∈ urgentPaths s)) (Some expected)
       (versionOfDisk path s) None) s.

(** [findIndex] of [nextUploadIndex]: the jobs it has passed are stamped. *)
Fixpoint nextUpload (busy : bool) (now : Z) (queue : list UploadJob) : list UploadJob * option nat :=
  match queue with
  | [] => ([], None)
  | job :: rest =>
    if urgent job || (jobSize job <? LARGE_FILE_BYTES) || negb busy then (job :: rest, Some O)
    else
      let since := default now (deferredSince job) in
      let job := job <| deferredSince := Some since |> in
      if MAX_LARGE_UPLOAD_DEFERRAL_MS <=? now - since then (job :: rest, Some O)
      else let '(rest, i) := nextUpload busy now rest in (job :: rest, S <$> i)
  end.

(** [splice(index, 1)], and the marks of a transfer under way *)
Definition takeUpload (i : nat) (s : BinarySync) : BinarySync :=
  refreshUploadStatus (s <| uploadQueue ::= delete i |> <| activeUpload := true |>).

(** The [finally] of one transfer *)
Definition uploadSettled (s : BinarySync) : BinarySync := refreshUploadStatus (s <| activeUpload := false |>).

(** The transfer stopped because of a pause. *)
Definition putBackFirst (job : UploadJob) (s : BinarySync) : BinarySync :=
  s <| uploadQueue ::= λ q, job :: q |>.

(** The [catch] of one transfer *)
Definition uploadFailed (job : UploadJob) (e : Err) (s : BinarySync) : BinarySync :=
  let job := job <| attempts ::= Z.add 1 |> in
  let queued := s <| uploadQueue ::= λ q, q ++ [job] |> in
  if isTransientTransferError e then scheduleDrain (retryDelay (attempts job)) queued
  else if attempts job <? MAX_UPLOAD_ATTEMPTS then scheduleDrain DRAIN_RETRY_MS queued
  else s <| effects ::= λ l, l ++ [Notice "failed to upload" (jobPath job)] |>.

Definition drainBegins (s : BinarySync) : BinarySync := refreshUploadStatus (s <| draining := true |>).

(** The [finally] of a drain *)
Definition drainEnds (s : BinarySync) : BinarySync :=
  let s := refreshUploadStatus (s <| draining := false |>) in
  match uploadQueue s with
  | [] => s
  | _ => if paused s then s else scheduleDrain 0 s
  end.

(** ** Index entries *)

(** [publishMeta], for the specification with the count of local changes *)
Definition publishMeta (path : string) (meta : BinaryMeta) (s : BinarySync) : BinarySync :=
  local (LocalState.markPublished path KBinary (bhash meta) (mjoin (prev (version meta))))
    ((indexSet path meta s) <| lastSyncedHash ::= <[path := bhash meta]> |>).

Definition forget (path : string) (s : BinarySync) : BinarySync :=
  local (LocalState.remove path) (s <| lastSyncedHash ::= delete path |>).

Definition publishDelete (path : string) (s : BinarySync) : BinarySync :=
  let meta := jm_get path (binaries s) in
  let s := match meta with
           | Some m => if bool_decide (bhash m = ""%string) then s
                       else s <| effects ::= λ l, l ++ [Trashed path (bhash m) (size m)] |>
           | None => s
           end in
  let s := s <| effects ::= λ l, l ++ [Unpublished path meta] |> in
  forget path (indexDelete path s).

(** Both sides hold [h]. *)
Definition agree (path h : string) (s : BinarySync) : BinarySync :=
  local (LocalState.markSynced path KBinary h h true) (s <| lastSyncedHash ::= <[path := h]> |>).

(** ** Entry points *)

Definition seedIndexEntry (s : BinarySync) (x : string * BinaryMeta) : BinarySync :=
  let '(path, meta) := x in
  if bool_decide (bhash meta = ""%string) then s
  else match localSyncState s with
  | None => s <| lastSyncedHash ::= <[path := bhash meta]> |>
  | Some _ =>
    let s := local (LocalState.migrateLegacyIdentity path KBinary (bhash meta)) s in
    match localState path s with
    | Some st =>
      if bool_decide (LocalState.identity st = Some (Some (bhash meta))) &&
         negb (default false (LocalState.candidate st))
      then s <| lastSyncedHash ::= <[path := bhash meta]> |> else s
    | None => s
    end
  end.

Definition seedLocalEntry (s : BinarySync) (x : string * LocalState.LocalPathState) : BinarySync :=
  let '(path, st) := x in
  if bool_decide (LocalState.kind st = KBinary) && negb (default false (LocalState.candidate st))
  then match LocalState.truthy (mjoin (LocalState.identity st)) with
       | Some i =>
         if bool_decide (LocalState.fingerprint st = Some i)
         then s <| lastSyncedHash ::= <[path := i]> |> else s
       | None => s
       end
  else s.

Definition seedBaseline (s : BinarySync) : BinarySync :=
  let s := foldl seedIndexEntry s (binaries s) in
  match localSyncState s with
  | Some ls => foldl seedLocalEntry s (map_to_list (LocalState.entries ls))
  | None => s
  end.

Definition allBegins (s : BinarySync) : BinarySync := s <| started := true |> <| pullingMissingRemote := true |>.

(** The first loop of [prioritizePaths], with what it added *)
Definition addUrgent (paths : list string) (s : BinarySync) : BinarySync * list string :=
  foldl (λ '(s, added) path,
    if negb (shouldTrack path) then (s, added)
    else (s <| urgentPaths ::= union {[path]} |>,
          if bool_decide (path ∈ urgentPaths s) then added else added ++ [path]))
    (s, []) paths.

(** [sort] by urgency, which is stable *)
Definition urgentFirst (queue : list UploadJob) : list UploadJob :=
  filter (λ j, urgent j = true) queue ++ filter (λ j, urgent j = false) queue.

Definition prioritizePaths (paths : list string) (s : BinarySync) : BinarySync :=
  if destroyed s then s
  else
    let '(s, added) := addUrgent paths s in
    let mark job := if bool_decide (jobPath job ∈ urgentPaths s) then job <| urgent := true |> else job in
    let s := s <| uploadQueue := urgentFirst (map mark (uploadQueue s)) |> in
    let s := foldl (λ s path,
      reconcile path
        (if negb (started s) || pullingMissingRemote s
         then s <| deferredInitialPulls ::= union {[path]} |> else s)) s added in
    scheduleDrain 0 s.

(** The first job of [path], as [find] finds it, is no longer urgent. *)
Fixpoint calm (path : string) (queue : list UploadJob) : list UploadJob :=
  match queue with
  | [] => []
  | job :: queue =>
    if bool_decide (jobPath job = path) then job <| urgent := false |> :: queue else job :: calm path queue
  end.

Definition unprioritizePaths (paths : list string) (s : BinarySync) : BinarySync :=
  foldl (λ s path, s <| urgentPaths ::= λ u, u ∖ {[path]} |> <| uploadQueue ::= calm path |>) s paths.

Definition stopTrackingPath (path : string) (s : BinarySync) : BinarySync :=
  indexDelete path (s <| ignoredPaths ::= union {[path]} |> <| lastSyncedHash ::= delete path |>).

Definition holdMovedPath (path : string) (s : BinarySync) : BinarySync :=
  if destroyed s then s
  else s <| movingAway ::= union {[path]} |> <| deferredInitialPulls ::= λ d, d ∖ {[path]} |>
         <| liveDeletes ::= λ d, d ∖ {[path]} |>.

Definition releaseMovedPath (path : string) (s : BinarySync) : BinarySync :=
  if destroyed s || negb (bool_decide (path ∈ movingAway s)) then s
  else
    let s := s <| movingAway ::= λ m, m ∖ {[path]} |> in
    let remoteHash := remoteHashOf path s in
    let base := lastSyncedHash s !! path in
    if bool_decide (is_Some (getFileByPath path (world s))) ||
       (bool_decide (is_Some remoteHash) && bool_decide (remoteHash ≠ base))
    then reconcile path s
    else local (LocalState.remove path)
           ((indexDelete path s) <| lastSyncedHash ::= delete path |>
              <| pendingDownloads ::= λ d, d ∖ {[path]} |>).

(** An event of the vault that is not this object's own *)
Definition ownEvent (path : string) (s : BinarySync) : bool :=
  negb (shouldTrack path) || bool_decide (path ∈ ignoredPaths s) || bool_decide (path ∈ writing s).

Definition onLocalChanged (path : string) (s : BinarySync) : BinarySync :=
  if ownEvent path s then s
  else reconcile path ((bumpDiskVersion path s) <| movingAway ::= λ m, m ∖ {[path]} |>).

(** The path was removed here, for certain. *)
Definition removedHere (path : string) (s : BinarySync) : BinarySync :=
  reconcile path
    ((bumpDiskVersion path s) <| liveDeletes ::= union {[path]} |> <| movingAway ::= λ m, m ∖ {[path]} |>
       <| deferredInitialPulls ::= λ d, d ∖ {[path]} |>).

Definition onLocalDeleted (path : string) (s : BinarySync) : BinarySync :=
  if ownEvent path s then s else removedHere path s.

Definition onLocalRenamed (path oldPath : string) (s : BinarySync) : BinarySync :=
  let trackOld := shouldTrack oldPath && negb (bool_decide (oldPath ∈ ignoredPaths s)) in
  let trackNew := shouldTrack path && negb (bool_decide (path ∈ ignoredPaths s)) in
  let s := if trackOld then removedHere oldPath s else s in
  if trackNew then reconcile path (bumpDiskVersion path s) else s.

Definition retryNow (s : BinarySync) : BinarySync :=
  if destroyed s || paused s then s
  else
    let s := s <| drainTimer := None |> in
    let s := match uploadQueue s with [] => s | _ => scheduleDrain 0 s end in
    let failed := jm_keys (downloadFailures s) in
    foldl (λ s path, reconcile path s) (s <| downloadFailures := [] |>) failed.

Definition setPaused (b : bool) (s : BinarySync) : BinarySync :=
  if destroyed s || bool_decide (paused s = b) then s
  else
    let s := s <| paused := b |> in
    if b then s <| drainTimer := None |>
    else
      let s := match uploadQueue s with [] => s | _ => scheduleDrain 0 s end in
      let deferred := deferredReconciles s in
      foldl (λ s path, reconcile path s) (s <| deferredReconciles := [] |>) deferred.

Definition destroy (s : BinarySync) : BinarySync :=
  if destroyed s then s
  else refreshUploadStatus
    (s <| destroyed := true |> <| drainTimer := None |> <| uploadQueue := [] |> <| chains := ∅ |>
       <| pendingReconcile := ∅ |> <| deferredReconciles := [] |> <| deferredInitialPulls := ∅ |>
       <| pendingDownloads := ∅ |> <| movingAway := ∅ |> <| urgentPaths := ∅ |>).

Definition hasPath (path : string) (s : BinarySync) : bool := jm_has path (binaries s).
Definition hasHash (h : string) (s : BinarySync) : bool :=
  existsb (λ meta, String.eqb (bhash meta) h) (jm_values (binaries s)).

(** What is released of the paths being written, once their timers fire *)
Definition writingReleased (s : BinarySync) : BinarySync :=
  s <| writing ::= λ w, w ∖ list_to_set (releasing s) |> <| releasing := [] |>.

(** A timer of the path fires. *)
Definition retryFired (path : string) (s : BinarySync) : BinarySync :=
  match list_find (λ x, x.1 = path) (retryTimers s) with
  | Some (i, _) => reconcile path (s <| retryTimers ::= delete i |>)
  | None => s
  end.

Definition drainFired (s : BinarySync) : BinarySync :=
  match drainTimer s with Some _ => s <| drainTimer := None |> <| drainDue := true |> | None => s end.

(** A drain is under way that is not the program looked at. *)
Definition otherDrain (s : BinarySync) : bool := draining s && negb (ownDrain s).

Definition move (m : Move) (s : BinarySync) : BinarySync :=
  match m with
  | IndexSet path meta => indexSet path meta s
  | IndexDelete path => indexDelete path s
  | LocalChanged path => onLocalChanged path s
  | LocalDeleted path => onLocalDeleted path s
  | LocalRenamed path oldPath => onLocalRenamed path oldPath s
  | PausedSet b => setPaused b s
  | DestroyCalled => destroy s
  | RetryNowCalled => retryNow s
  | Prioritized paths => prioritizePaths paths s
  | Unprioritized paths => unprioritizePaths paths s
  | TrackingStopped path => stopTrackingPath path s
  | MoveHeld path => holdMovedPath path s
  | MoveReleased path => releaseMovedPath path s
  | Requested path => reconcile path s
  | AllBegan => if destroyed s then s else allBegins s
  | AllDone => s <| pullingMissingRemote := false |>
  | RetryFired path => retryFired path s
  | WritingReleased => writingReleased s
  | DrainFired => drainFired s
  | Agreed path h => agree path h s
  | Forgotten path => forget path s
  | Queued path expected h fileSize => if destroyed s then s else queueUpload path expected h fileSize s
  | Deferred path initialPull => deferReconcile path initialPull s
  | MetaPublished path meta => publishMeta path meta s
  | EntryDeleted path => forget path (indexDelete path s)
  | DrainBegan => if draining s || destroyed s || paused s then s else drainBegins s
  | DrainTook i => if otherDrain s then takeUpload i s else s
  | DrainPutBack job e =>
    if otherDrain s
    then uploadSettled (match e with None => putBackFirst job s | Some e => uploadFailed job e s end)
    else s
  | DrainSettled => if otherDrain s then uploadSettled s else s
  | DrainEnded => if otherDrain s then drainEnds s else s
  end.

#[export] Instance binaryHost : Host BinarySync W Move := {|
  worldOf := world;
  setWorld w s := s <| world := w |>;
  settling := settle;
  onMove := move |}.

(** ** Disk *)

Definition sha256Hex (content : bytes) : M string := pause ≫= λ _, mret (sha256 content).

Definition read (path : string) : M bytes :=
  content ← call (readFile path);
  effect (Read path content) ≫= λ _, mret content.

(** [limiter.run(size, work)]: the job waits for its turn. *)
Definition limited {A} (work : M A) : M A := await (pause ≫= λ _, work).

(** [None] when the file cannot be read, [Some None] when there is none *)
Definition hashDiskNow (path : string) : M (option (option string)) :=
  file ← get (λ s, getFileByPath path (world s));
  match file with
  | None => mret (Some None)
  | Some _ =>
    catch (limited (content ← read path; h ← sha256Hex content; mret (Some (Some h)))) (λ _, mret None)
  end.

Definition hashDisk (path : string) : M (option (option string)) :=
  h ← await (hashDiskNow path);
  effect (Hashed path h) ≫= λ _, mret h.

Definition readDisk (path : string) : M (option bytes) :=
  await (file ← get (λ s, getFileByPath path (world s));
         match file with
         | None => mret None
         | Some _ => content ← read path; mret (Some content)
         end).

(** A [try] that began with [this.writing.add(path)] and ends with the timer
    that releases the path *)
Definition whileWriting {A} (path : string) (m : M A) : M A :=
  update (λ s, s <| writing ::= union {[path]} |>) ≫= λ _,
  finally m (λ s, s <| releasing ::= λ l, l ++ [path] |>).

Definition writeDisk (path : string) (content : bytes) : M bool :=
  await (
    dead ← get destroyed;
    if dead : bool then mret false
    else whileWriting path (
      catch
        (s ← get (λ s, s);
         match getFileByPath path (world s) with
         | Some _ =>
           if isOpenInWorkspace (workspace (world s)) path then mret false
           else effect (Wrote path content) ≫= λ _, call (modifyBinary path content) ≫= λ _, mret true
         | None =>
           ensureParentFolder path ≫= λ _,
           effect (Wrote path content) ≫= λ _,
           call (createBinary path content) ≫= λ _, mret true
         end)
        (λ _, mret false))).

(** [this.deferReconcile(path); return stop;] *)
Definition deferring {A} (path : string) (stop : A) : M A := update (deferReconcileNow path) ≫= λ _, mret stop.

Definition unlessDestroyed (f : BinarySync → BinarySync) (s : BinarySync) : BinarySync :=
  if destroyed s then s else f s.

(** What a failed step of a download leaves: another try, unless destroyed *)
Definition retrying (path : string) : M bool :=
  update (unlessDestroyed (retryDownloadLater path)) ≫= λ _, mret false.

(** A download that is complete *)
Definition downloaded (path h : string) (s : BinarySync) : BinarySync :=
  (local (LocalState.markSynced path KBinary h h true)
     (s <| downloadFailures ::= jm_delete path |> <| lastSyncedHash ::= <[path := h]> |>
        <| pendingDownloads ::= λ d, d ∖ {[path]} |>))
    <| urgentPaths ::= λ u, u ∖ {[path]} |>.

(** [transferToDisk] once it has verified the blob's bytes.
    [expectedLocalHash] may be left out. *)
Definition materialize (path h : string) (expectedLocalHash : option (option string)) (content : bytes) : M bool :=
  currentLocal ← hashDisk path;
  s ← get (λ s, s);
  if destroyed s then mret false
  else if bool_decide (remoteHashOf path s ≠ Some h) ||
          match expectedLocalHash with Some e => bool_decide (currentLocal ≠ Some e) | None => false end
  then update (λ s, reconcile path (s <| pendingDownloads ::= λ d, d ∖ {[path]} |>)) ≫= λ _, mret false
  else
    written ← writeDisk path content;
    if negb written then retrying path
    else
      dead ← get destroyed;
      if dead : bool then mret false
      else
        writtenHash ← hashDisk path;
        if bool_decide (writtenHash ≠ Some (Some h)) then retrying path
        else update (downloaded path h) ≫= λ _, mret true.

Definition transferToDisk (path h : string) (expectedLocalHash : option (option string)) : M bool :=
  dead ← get destroyed;
  if dead : bool then mret false
  else
    got ← attempt (call (getBlob path h));
    match got with
    | Throws _ => retrying path
    | Returns content =>
      dead ← get destroyed;
      if dead : bool then mret false
      else
        effect (Fetched h content) ≫= λ _,
        actual ← sha256Hex content;
        if bool_decide (actual ≠ h) then retrying path
        else
          stop ← get paused;
          if stop : bool
          then update (λ s, deferReconcileNow path (s <| pendingDownloads ::= λ d, d ∖ {[path]} |>)) ≫= λ _,
               mret false
          else materialize path h expectedLocalHash content
    end.

Definition downloadToDisk (path h : string) (expectedLocalHash : option (option string)) : M bool :=
  await (
    s ← get (λ s, s);
    if paused s then deferring path false
    else
      update (λ s, s <| pendingDownloads ::= union {[path]} |>) ≫= λ _,
      if isOpenInWorkspace (workspace (world s)) path
      then update (reconcileIn DRAIN_RETRY_MS path) ≫= λ _, mret false
      else limited (transferToDisk path h expectedLocalHash)).

Definition deleteLocal (path : string) : M () :=
  await (
    s ← get (λ s, s);
    if destroyed s then mret ()
    else if paused s then deferring path ()
    else match getFileByPath path (world s) with
         | None => update (forget path)
         | Some _ =>
           whileWriting path (
             catch
               (effect (Removed path) ≫= λ _,
                call (deleteFile path) ≫= λ _,
                update (forget path))
               (λ _, update (unlessDestroyed (reconcileIn DRAIN_RETRY_MS path))))
         end).

Definition queueLocalUpload (path : string) (expectedRemoteHash : option string) (localHash : string) : M bool :=
  await (
    s ← get (λ s, s);
    match getFileByPath path (world s) with
    | Some fileSize =>
      if destroyed s then mret false
      else update (queueUpload path expectedRemoteHash localHash fileSize) ≫= λ _, mret true
    | None => mret false
    end).

(** ** Conflicts *)

Definition conflictStateMatches (path : string) (localHash remoteHash : option string) : M bool :=
  await (currentLocal ← hashDisk path;
         get (λ s, negb (destroyed s) && bool_decide (currentLocal = Some localHash) &&
                   bool_decide (remoteHashOf path s = remoteHash))).

(** [if (!(await this.conflictStateMatches(...))) return false;] *)
Definition whileMatching (path : string) (localHash remoteHash : option string) (k : M bool) : M bool :=
  same ← conflictStateMatches path localHash remoteHash;
  if same : bool then k else mret false.

Definition preserve (path : string) (content : bytes) (source : ConflictSource) : M string :=
  copy ← preserveBinaryConflict path content source;
  effect (Preserved path copy content) ≫= λ _, mret copy.

Definition keepLocal (path : string) (localHash remoteHash : option string) : M bool :=
  let finish :=
    match LocalState.truthy localHash with
    | Some l =>
      queued ← queueLocalUpload path remoteHash l;
      if negb queued then mret false
      else effect (Notice "kept your local copy" path) ≫= λ _, mret true
    | None => effect (Notice "kept your local copy" path) ≫= λ _, mret true
    end in
  match LocalState.truthy remoteHash with
  | Some r =>
    remoteBytes ← call (getBlob path r);
    whileMatching path localHash remoteHash (
      copy ← preserve path remoteBytes SourceRemote;
      whileMatching path localHash remoteHash (
        effect (Notice "preserved the remote copy" copy) ≫= λ _, finish))
  | None => finish
  end.

Definition keepRemote (path : string) (localHash remoteHash : option string) : M bool :=
  let finish :=
    match remoteHash with
    | None =>
      deleteLocal path ≫= λ _,
      effect (Notice "replaced with the remote copy" path) ≫= λ _, mret true
    | Some r =>
      written ← downloadToDisk path r (Some localHash);
      if negb written then mret false
      else effect (Notice "replaced with the remote copy" path) ≫= λ _, mret true
    end in
  match LocalState.truthy localHash with
  | Some l =>
    localBytes ← readDisk path;
    match localBytes with
    | None => throw OtherError
    | Some localBytes =>
      actual ← sha256Hex localBytes;
      if bool_decide (actual ≠ l) then mret false
      else whileMatching path localHash remoteHash (
        copy ← preserve path localBytes SourceLocal;
        whileMatching path localHash remoteHash (
          effect (Notice "preserved your local copy" copy) ≫= λ _, finish))
    end
  | None => finish
  end.

Definition applyConflictChoice (path : string) (choice : ConflictChoice) (localHash remoteHash : option string) :
    M bool :=
  await match choice with
        | KeepLocal => keepLocal path localHash remoteHash
        | KeepRemote => keepRemote path localHash remoteHash
        end.

Fixpoint conflictLoop (n : nat) (path : string) : M () :=
  match n with
  | O => throw OutOfFuel
  | S n =>
    s ← get (λ s, s);
    if destroyed s then mret ()
    else if paused s then deferring path ()
    else
      nowLocal ← hashDisk path;
      match nowLocal with
      | None => mret ()
      | Some nowLocal =>
        stop ← get paused;
        if stop : bool then deferring path ()
        else
          nowRemote ← get (remoteHashOf path);
          if bool_decide (nowLocal = nowRemote)
          then update (λ s, match LocalState.truthy nowRemote with
                            | Some h => s <| lastSyncedHash ::= <[path := h]> |>
                            | None => s
                            end)
          else
            choice ← call (askConflict path (bool_decide (nowRemote = None)));
            s ← get (λ s, s);
            if destroyed s then mret ()
            else if paused s then deferring path ()
            else
              effect (Chose path choice) ≫= λ _,
              same ← conflictStateMatches path nowLocal nowRemote;
              if negb same then conflictLoop n path
              else
                done ← applyConflictChoice path choice nowLocal nowRemote;
                if done : bool then mret () else conflictLoop n path
      end
  end.

(** The conflicts before it come first; a failure is logged and tried again. *)
Definition resolveConflict (path : string) : M () :=
  await (pause ≫= λ _,
         catch (conflictLoop fuel path) (λ _, update (unlessDestroyed (reconcileIn DRAIN_RETRY_MS path)))).

(** ** One reconciliation *)

(** [liveDelete] and [initialPull], which are taken out of the state *)
Definition takeIntents (path : string) : M (bool * bool) :=
  s ← get (λ s, s);
  let liveDelete := bool_decide (path ∈ liveDeletes s) in
  update (λ s, s <| liveDeletes ::= λ d, d ∖ {[path]} |>) ≫= λ _,
  if liveDelete then mret (true, false)
  else if pullingMissingRemote s then mret (false, true)
  else update (λ s, s <| deferredInitialPulls ::= λ d, d ∖ {[path]} |>) ≫= λ _,
       mret (false, bool_decide (path ∈ deferredInitialPulls s)).

(** Paused: the intents are put back. *)
Definition deferIntents (path : string) (liveDelete initialPull : bool) (s : BinarySync) : BinarySync :=
  deferReconcile path initialPull
    (if liveDelete then s <| liveDeletes ::= union {[path]} |> else s).

(** [state?.identity === base && state.publishedFrom !== undefined] *)
Definition ownBase (state : option LocalState.LocalPathState) (base : string) : bool :=
  match state with
  | Some st => bool_decide (LocalState.identity st = Some (Some base)) &&
               bool_decide (is_Some (LocalState.publishedFrom st))
  | None => false
  end.

(** The comparison, which only the specification records *)
Definition comparison (path : string) (localHash : option string) (liveDelete initialPull : bool)
    (s : BinarySync) : Comparison :=
  let base := lastSyncedHash s !! path in
  mkComparison path localHash (jm_get path (binaries s)) base
    (bool_decide (localSyncState s = None) ||
     match base with Some b => ownBase (localState path s) b | None => false end)
    (negb initialPull && (liveDelete || negb (bool_decide (path ∈ pendingDownloads s)))).

(** Both sides hold the same, or nothing. *)
Definition inAgreement (path : string) (remoteHash : option string) (s : BinarySync) : BinarySync :=
  let s := match LocalState.truthy remoteHash with
           | Some h => agree path h s
           | None => s <| lastSyncedHash ::= delete path |>
           end in
  s <| pendingDownloads ::= λ d, d ∖ {[path]} |> <| urgentPaths ::= λ u, u ∖ {[path]} |>.

(** Local present, remote absent *)
Definition localOnly (path l : string) (base : option string) : M () :=
  match base with
  | None => queueLocalUpload path None l ≫= λ _, mret ()
  | Some b => if bool_decide (b = l) then deleteLocal path else resolveConflict path
  end.

(** Local absent, remote present *)
Definition remoteOnly (path r : string) (localHash base : option string) (liveDelete initialPull : bool) : M () :=
  s ← get (λ s, s);
  if bool_decide (base = Some r) && negb initialPull &&
     (liveDelete || negb (bool_decide (path ∈ pendingDownloads s)))
  then update (publishDelete path)
  else if pendingRemoval path (world s) then mret ()
  else downloadToDisk path r (Some localHash) ≫= λ _, mret ().

(** Both present and different *)
Definition bothDiffer (path l r : string) (remote : option BinaryMeta) (base : option string) : M () :=
  let pull := downloadToDisk path r (Some (Some l)) ≫= λ _, mret () in
  let push := queueLocalUpload path (Some r) l ≫= λ _, mret () in
  if bool_decide (base = Some r) then push
  else match remote with
  | Some m =>
    if bool_decide (base = Some l) then
      s ← get (λ s, s);
      let state := localState path s in
      if descendsFrom (version m) l then pull
      else if bool_decide ((state ≫= LocalState.replacedIdentity) = Some (Some r)) then push
      else if bool_decide (is_Some (localSyncState s)) && negb (ownBase state l) then pull
      else if bool_decide (prev (version m) = None) then pull
      else resolveConflict path
    else resolveConflict path
  | None => resolveConflict path
  end.

(** [reconcileNow] once it has hashed the local file *)
Definition reconcileHashed (path : string) (localHash : option (option string)) (liveDelete initialPull : bool) :
    M () :=
  update (λ s,
    match LocalState.truthy (mjoin localHash), localSyncState s with
    | Some l, Some ls =>
      if LocalState.has path ls then s
      else local (LocalState.beginCandidate path KBinary (Some l) (Some l)) s
    | _, _ => s
    end) ≫= λ _,
  s ← get (λ s, s);
  let remote := jm_get path (binaries s) in
  let remoteHash := bhash <$> remote in
  let base := lastSyncedHash s !! path in
  if bool_decide (localHash = Some remoteHash) then update (inAgreement path remoteHash)
  else match localHash with
  | None => mret ()
  | Some h =>
    effect (Compared (comparison path h liveDelete initialPull s)) ≫= λ _,
    match LocalState.truthy h, LocalState.truthy remoteHash with
    | Some l, None => localOnly path l base
    | None, Some r => remoteOnly path r h base liveDelete initialPull
    | Some l, Some r => bothDiffer path l r remote base
    | None, None => mret ()
    end
  end.

Definition reconcileNow (path : string) : M () :=
  s ← get (λ s, s);
  if destroyed s then mret ()
  else if negb (shouldTrack path) then mret ()
  else if bool_decide (path ∈ ignoredPaths s) then mret ()
  else if bool_decide (path ∈ movingAway s) then mret ()
  else
    intents ← takeIntents path;
    let '(liveDelete, initialPull) := intents in
    stop ← get paused;
    if stop : bool then update (deferIntents path liveDelete initialPull)
    else
      localHash ← hashDisk path;
      s ← get (λ s, s);
      if destroyed s then mret ()
      else if paused s then update (deferIntents path liveDelete initialPull)
      else reconcileHashed path localHash liveDelete initialPull.

(** The [do ... while] of a chain *)
Fixpoint reconcileLoop (n : nat) (path : string) : M () :=
  match n with
  | O => throw OutOfFuel
  | S n =>
    update (λ s, s <| pendingReconcile ::= λ p, p ∖ {[path]} |>) ≫= λ _,
    await (reconcileNow path) ≫= λ _,
    s ← get (λ s, s);
    update (λ s, s <| pendingReconcile ::= λ p, p ∖ {[path]} |>) ≫= λ _,
    if bool_decide (path ∈ pendingReconcile s) && negb (destroyed s) then reconcileLoop n path else mret ()
  end.

(** A whole chain, to the turn in which it is taken off [chains], unless
    [destroy] emptied these. *)
Definition reconcileTask (path : string) : M () :=
  update (λ s, s <| begun ::= filter (λ p, p ≠ path) |>) ≫= λ _,
  dead ← get destroyed;
  catch (reconcileLoop fuel path) (λ _, mret ()) ≫= λ _,
  pause ≫= λ _,
  update (λ s, if Bool.eqb dead (destroyed s) then s <| chains ::= λ c, c ∖ {[path]} |> else s).

(** ** Uploads *)

Definition requestAgain (path : string) : M bool := update (reconcile path) ≫= λ _, mret true.

(** The version a publisher writes after [replaced]: [lineage] is left out
    when it is empty. *)
Definition nextVersion (h : string) (parent : option string) (replaced : option BinaryMeta) : VersionedEntry :=
  mkVersion h (Some parent)
    (match lineageAfter (version <$> replaced) with [] => None | l => Some (JArray (map JString l)) end).

(** [if (this.destroyed) return true; if (this.paused) return false;] *)
Definition unlessStopped (k : M bool) : M bool :=
  s ← get (λ s, s);
  if destroyed s then mret true else if paused s then mret false else k.

(** [doUpload] once the server has the blob *)
Definition publishUpload (job : UploadJob) (byteLength : Z) : M bool :=
  s ← get (λ s, s);
  let path := jobPath job in
  let replaced := jm_get path (binaries s) in
  if bool_decide (versionOfDisk path s ≠ diskVersion job) then requestAgain path
  else if match expectedRemoteHash job with
          | Some e => bool_decide (bhash <$> replaced ≠ e)
          | None => false
          end
  then requestAgain path
  else
    let meta := mkBinary (nextVersion (jobHash job) (mjoin (expectedRemoteHash job)) replaced) byteLength in
    effect (Published path replaced meta (versionOfDisk path s)) ≫= λ _,
    update (λ s, (publishMeta path meta s) <| urgentPaths ::= λ u, u ∖ {[path]} |>) ≫= λ _,
    mret true.

Definition doUpload (job : UploadJob) : M bool :=
  await (
    let path := jobPath job in
    effect (Started job) ≫= λ _,
    content ← readDisk path;
    unlessStopped (
      match content with
      | None => requestAgain path
      | Some content =>
        actual ← sha256Hex content;
        if bool_decide (actual ≠ jobHash job) then requestAgain path
        else
          there ← call (blobExists path (jobHash job) (zlength content));
          unlessStopped (
            (if there : bool then mret () else call (putBlob path (jobHash job) content)) ≫= λ _,
            effect (Stored (jobHash job)) ≫= λ _,
            unlessStopped (publishUpload job (zlength content)))
      end)).

(** The [while] of a drain *)
Fixpoint drainLoop (n : nat) : M () :=
  match n with
  | O => throw OutOfFuel
  | S n =>
    s ← get (λ s, s);
    match uploadQueue s with
    | [] => mret ()
    | queue =>
      if destroyed s || paused s then mret ()
      else
        let '(queue, index) := nextUpload (textBusy (world s)) (vaultNow (world s)) queue in
        update (λ s, s <| uploadQueue := queue |>) ≫= λ _,
        match index ≫= λ i, job ← queue !! i; Some (i, job) with
        | None => update (scheduleDrain DRAIN_RETRY_MS)
        | Some (i, job) =>
          update (takeUpload i) ≫= λ _,
          completed ← attempt (doUpload job);
          match completed with
          | Returns true => update uploadSettled ≫= λ _, drainLoop n
          | Returns false => update (λ s, uploadSettled (putBackFirst job s))
          | Throws e => update (λ s, uploadSettled (uploadFailed job e s))
          end
        end
    end
  end.

Definition drain : M () :=
  update (λ s, s <| drainDue := false |>) ≫= λ _,
  s ← get (λ s, s);
  if draining s || destroyed s || paused s then mret ()
  else
    update (λ s, (drainBegins s) <| ownDrain := true |>) ≫= λ _,
    finally (drainLoop fuel) (λ s, drainEnds (s <| ownDrain := false |>)).

(** ** The trash, and all paths *)

Definition restoreEntry (path h : string) (fileSize : Z) : M bool :=
  dead ← get destroyed;
  if dead : bool then mret false
  else
    there ← call (blobExists path h fileSize);
    if negb there then mret false
    else
      effect (Stored h) ≫= λ _,
      dead ← get destroyed;
      if dead : bool then mret false
      else
        s ← get (λ s, s);
        let replaced := jm_get path (binaries s) in
        let meta := mkBinary (nextVersion h (bhash <$> replaced) replaced) fileSize in
        effect (Restored path replaced meta) ≫= λ _,
        update (λ s, reconcile path (indexSet path meta
          (s <| ignoredPaths ::= λ i, i ∖ {[path]} |> <| lastSyncedHash ::= delete path |>))) ≫= λ _,
        mret true.

(** The pool: before each path it waits for a place. *)
Definition reconcileConcurrently (paths : list string) : M () :=
  forEach (λ path,
    pause ≫= λ _, update (unlessDestroyed (reconcile path))) paths ≫= λ _, pause.

Definition reconcileAll (localBinaryPaths : list string) : M () :=
  s ← get (λ s, s);
  if destroyed s then mret ()
  else
    let paths := foldl (λ ps p, js_add p ps) (jm_keys (binaries s)) localBinaryPaths in
    update allBegins ≫= λ _,
    finally (await (reconcileConcurrently paths)) (λ s, s <| pullingMissingRemote := false |>).

(** ** Runs: the programs the object begins, one after the other *)

Inductive Task :=
  | ReconcilePath (path : string)
  | Drain
  | RestoreEntry (path h : string) (fileSize : Z)
  | ReconcileAll (localBinaryPaths : list string).

Definition runTask (t : Task) : M () :=
  match t with
  | ReconcilePath path => reconcileTask path
  | Drain => drain
  | RestoreEntry path h fileSize => restoreEntry path h fileSize ≫= λ _, mret ()
  | ReconcileAll paths => reconcileAll paths
  end.

(** Programs, and what happens between them *)
Definition runStep (s : BinarySync) (x : Task + Move) : BinarySync :=
  match x with inl t => fst (runTask t s) | inr m => move m s end.

Definition run (s : BinarySync) (xs : list (Task + Move)) : BinarySync := foldl runStep s xs.

(** The constructor *)
Definition newBinarySync (w : W) (index : jsmap string BinaryMeta) (ls : option LocalSyncState) : BinarySync :=
  mkBinarySync w index ls ∅ ∅ [] ∅ [] ∅ ∅ [] [] ∅ [] ∅ ∅ false ∅ [] ∅ ∅ false false false false None Idle
    false false false [].
End binarySync.
