(* ===== verification/BinarySyncSpec.v ===== *)
(** What sync of attachments promises.  The local file is replaced or removed
    only when it was seen to be what the new version supersedes, or is kept in
    a recovery copy the user asked for; the index is changed only to content
    the server has, in place of exactly the entry looked at, and an entry is
    dropped only after it is in the trash.  Queued uploads are never left
    behind. *)
From Stdlib Require Import String.
From S2P Require Import Prelude Effects TraceLogic Await JsString JsMap Json Caps Lineage ConflictCopy Vault BinarySync.
From S2P Require LocalState.
#[local] Open Scope Z_scope.

Section effects.
Context {W : Type} `{!Platform W}.
Notation State := (@BinarySync W).
Implicit Types (s : State).

(** ** Steps that cause no effect *)

Lemma effects_reconcile_binary p s : effects (reconcile p s) = effects s.
Proof using Type. unfold reconcile. by case_match. Qed.

Lemma effects_onBinariesChanged p s : effects (onBinariesChanged p s) = effects s.
Proof using Type. unfold onBinariesChanged. repeat case_match; try done. by rewrite effects_reconcile_binary. Qed.

Lemma effects_indexSet p m s : effects (indexSet p m s) = effects s.
Proof using Type. unfold indexSet. by rewrite effects_onBinariesChanged. Qed.

Lemma effects_indexDelete p s : effects (indexDelete p s) = effects s.
Proof using Type. unfold indexDelete. case_match; [by rewrite effects_onBinariesChanged|done]. Qed.

Lemma effects_scheduleDrain d s : effects (scheduleDrain d s) = effects s.
Proof using Type. unfold scheduleDrain. by case_match. Qed.

Lemma effects_deferReconcile p b s : effects (deferReconcile p b s) = effects s.
Proof using Type. unfold deferReconcile. by case_match. Qed.

Lemma effects_queueUpload p e h n s : effects (queueUpload p e h n s) = effects s.
Proof using Type. unfold queueUpload, enqueueUpload. by rewrite ?effects_scheduleDrain. Qed.

Lemma effects_publishMeta p m s : effects (publishMeta p m s) = effects s.
Proof using Type. unfold publishMeta, local. simpl. by rewrite effects_indexSet. Qed.

Lemma effects_drainEnds s : effects (drainEnds s) = effects s.
Proof using Type. unfold drainEnds. repeat case_match; try done. by rewrite effects_scheduleDrain. Qed.

Lemma effects_fold {A} (f : State → A → State) l s :
  (∀ s x, effects (f s x) = effects s) → effects (foldl f s l) = effects s.
Proof using Type.
  intros Hf. apply (foldl_preserves (λ s', effects s' = effects s)); [|done].
  intros s' x _ E. by rewrite Hf.
Qed.

Lemma effects_addUrgent ps s : effects (fst (addUrgent ps s)) = effects s.
Proof using Type.
  unfold addUrgent. apply (foldl_preserves (λ acc, effects (fst acc) = effects s)); [|done].
  intros [s' added] p _ E. by case_match.
Qed.

Lemma effects_prioritizePaths ps s : effects (prioritizePaths ps s) = effects s.
Proof using Type.
  unfold prioritizePaths. case_match; [done|]. pose proof (effects_addUrgent ps s) as E.
  destruct (addUrgent ps s) as [s' added]. rewrite effects_scheduleDrain, effects_fold; [done|].
  intros. rewrite effects_reconcile_binary. by case_match.
Qed.

Lemma effects_removedHere p s : effects (removedHere p s) = effects s.
Proof using Type. unfold removedHere. by rewrite effects_reconcile_binary. Qed.

Lemma effects_releaseMovedPath p s : effects (releaseMovedPath p s) = effects s.
Proof using Type.
  unfold releaseMovedPath. repeat case_match; try done; [by rewrite effects_reconcile_binary|].
  unfold local. simpl. by rewrite effects_indexDelete.
Qed.

Lemma effects_setPaused b s : effects (setPaused b s) = effects s.
Proof using Type.
  unfold setPaused. repeat case_match; try done; rewrite effects_fold by (intros; apply effects_reconcile_binary);
    simpl; by rewrite ?effects_scheduleDrain.
Qed.

Lemma effects_retryNow s : effects (retryNow s) = effects s.
Proof using Type.
  unfold retryNow. repeat case_match; try done; rewrite effects_fold by (intros; apply effects_reconcile_binary);
    simpl; by rewrite ?effects_scheduleDrain.
Qed.

Lemma effects_uploadFailed job e s :
  effects (uploadFailed job e s) = effects s ∨
  ∃ text p, effects (uploadFailed job e s) = effects s ++ [Notice text p].
Proof using Type.
  unfold uploadFailed. repeat case_match; rewrite ?effects_scheduleDrain; eauto.
Qed.
End effects.
Create HintDb binary_effects.
#[export] Hint Rewrite @effects_reconcile_binary @effects_onBinariesChanged @effects_indexSet @effects_indexDelete
  @effects_scheduleDrain @effects_deferReconcile @effects_queueUpload @effects_publishMeta @effects_drainEnds
  @effects_prioritizePaths @effects_removedHere @effects_releaseMovedPath @effects_setPaused
  @effects_retryNow : binary_effects.

Section spec.
Context {W : Type} `{!Platform W}.
Notation State := (@BinarySync W).
Implicit Types (s : State) (e : Effect) (pre : list Effect).

(** A digest is not the empty string. *)
Context (sha256_nonempty : ∀ content, sha256 (W := W) content ≠ ""%string).

(** The state the program starts in *)
Context (s0 : State).

(** ** What is promised *)

(** The index named [h] for the path, whose file was as last synced, and it
    did so as a newer version, or in place of one that is not this device's. *)
Definition superseded pre (path l h : string) : Prop :=
  ∃ c r, Compared c ∈ pre ∧ cPath c = path ∧ cLocal c = Some l ∧ cBase c = Some l ∧
    cRemote c = Some r ∧ bhash r = h ∧
    (descendsFrom (version r) l = true ∨ cOwn c = false ∨ prev (version r) = None).

(** The user chose the remote version, and a copy holds the local one, which
    was seen unchanged after it was made. *)
Definition kept pre (path l : string) : Prop :=
  ∃ content copy, sha256 (W := W) content = l ∧ Chose path KeepRemote ∈ pre ∧ Read path content ∈ pre ∧
    before (Preserved path copy content) (Hashed path (Some (Some l))) pre.

Definition justified pre e : Prop :=
  match e with
  | Wrote path content => ∃ found h,
      sha256 (W := W) content = h ∧ before (Fetched h content) (Hashed path (Some found)) pre ∧
      match found with Some l => superseded pre path l h ∨ kept pre path l | None => True end
  | Removed path => ∃ l, Hashed path (Some (Some l)) ∈ pre ∧
      (kept pre path l ∨
       ∃ c, Compared c ∈ pre ∧ cPath c = path ∧ cLocal c = Some l ∧ cBase c = Some l ∧
            LocalState.truthy (bhash <$> cRemote c) = None)
  | Published path replaced meta seen => ∃ job content,
      Started job ∈ pre ∧ jobPath job = path ∧ jobHash job = bhash meta ∧ diskVersion job = seen ∧
      Read path content ∈ pre ∧ sha256 (W := W) content = bhash meta ∧ size meta = zlength content ∧
      Stored (bhash meta) ∈ pre ∧
      (∀ expected, expectedRemoteHash job = Some expected →
         version meta = versionAfter (version <$> replaced) (bhash meta))
  | Restored path replaced meta =>
      Stored (bhash meta) ∈ pre ∧ version meta = versionAfter (version <$> replaced) (bhash meta)
  | Unpublished path replaced => ∃ c r,
      replaced = Some r ∧ Compared c ∈ pre ∧ cPath c = path ∧ cLocal c = None ∧ cRemote c = Some r ∧
      cBase c = Some (bhash r) ∧ cGone c = true ∧ Trashed path (bhash r) (size r) ∈ pre
  | _ => True
  end.

Definition harmless e : Prop :=
  match e with
  | Wrote _ _ | Removed _ | Published _ _ _ _ | Restored _ _ _ | Unpublished _ _ => False
  | _ => True
  end.

Lemma harmless_justified_binary pre e : harmless e → justified pre e.
Proof using Type. by destruct e. Qed.

#[local] Instance traced : Traced State Effect := {|
  trail := effects; TraceLogic.harmless := harmless; frame _ _ := True;
  frame_preorder := Build_PreOrder _ (λ _, I) (λ _ _ _ _ _, I) |}.

#[local] Instance judged : Judged traced := {|
  mark := length (effects s0); warranted := justified; harmless_warranted := harmless_justified_binary |}.

Abbreviation safe := (@safe State Err Effect traced judged _).
Abbreviation quietly := (@quietly State Err Effect traced _).

Lemma quiet_effects s s' : effects s' = effects s → quiet s s'.
Proof using Type. intros E. by apply quiet_same. Qed.

Lemma quiet_stays_binary s : quiet s s.
Proof using Type. apply quiet_refl. Qed.
#[local] Hint Resolve quiet_stays_binary : core.

(** Whatever changes the state without an effect *)
#[local] Ltac effectless :=
  apply quiet_effects; unfold deferReconcileNow, unlessDestroyed, retryDownloadLater, reconcileIn,
    onLocalChanged, onLocalDeleted, onLocalRenamed, destroy, stopTrackingPath, holdMovedPath, retryFired,
    drainFired, writingReleased, drainBegins, takeUpload, uploadSettled, putBackFirst, refreshUploadStatus,
    agree, forget, inAgreement, downloaded, local, allBegins, deferIntents, bumpDiskVersion; cbn;
  repeat case_match; cbn; autorewrite with binary_effects; try done.

Lemma quiet_unprioritizePaths ps s : quiet s (unprioritizePaths ps s).
Proof using Type. apply quiet_effects. unfold unprioritizePaths. by rewrite effects_fold. Qed.

Lemma quiet_uploadFailed job (err : Err) s : quiet s (uploadFailed job err s).
Proof using Type.
  destruct (effects_uploadFailed job err s) as [E|(text & p & E)]; [by apply quiet_effects|].
  by apply (quiet_snoc _ _ (Notice text p)).
Qed.

Lemma quiet_move_binary m s : quiet s (move m s).
Proof using Type.
  destruct m; simpl; (try by effectless); [apply quiet_unprioritizePaths|].
  case_match; [|done]. case_match; [|by effectless].
  eapply quiet_trans; [apply quiet_uploadFailed|]. by effectless.
Qed.

#[local] Instance quiet_host : QuietHost binaryHost traced.
Proof using Type. split; [by intros; apply quiet_effects|exact quiet_move_binary]. Qed.

(** ** What the helpers let one know *)

Lemma quietly_effect_binary e s : harmless e → ok s → quietly (effect e) (λ _ s', ok s' ∧ known e s') s.
Proof using Type.
  intros He Hs. assert (quiet s (s <| effects ::= λ l, l ++ [e] |>)) as Hq by by apply (quiet_snoc _ _ e).
  apply quietly_update; [done|]. split; [by eapply ok_quiet|]. by apply (known_new e s).
Qed.

(** Nothing that is worth knowing *)
Lemma quietly_set f s : effects (f s) = effects s → quietly (update f) (λ _ _, True) s.
Proof using Type. intros. apply quietly_update; [by apply quiet_effects|done]. Qed.

Lemma quietly_sha256Hex_binary c s : quietly (sha256Hex c) (λ h _, h = sha256 c) s.
Proof using Type. eapply quietly_bind; [apply quietly_pause|]. intros. by apply quietly_ret. Qed.

Lemma quietly_read_binary p s : ok s → quietly (read p) (λ c s', ok s' ∧ known (Read p c) s') s.
Proof using Type.
  intros Hs. eapply quietly_bind; [apply quietly_call|]. intros c s1 Hq _.
  eapply quietly_bind; [apply quietly_effect_binary; [done|by eapply ok_quiet]|]. intros [] s2 _ H. by apply quietly_ret.
Qed.

Lemma quietly_readDisk p s : ok s →
  quietly (readDisk p) (λ c s', ok s' ∧ ∀ content, c = Some content → known (Read p content) s') s.
Proof using Type.
  intros Hs. apply quietly_await.
  - apply quietly_look. case_match; [|by apply quietly_ret].
    eapply quietly_bind; [by apply quietly_read_binary|]. intros c s1 _ [Hs1 Hk]. apply quietly_ret. split; [done|].
    by intros ? [= <-].
  - intros c s1 s2 [Hs1 Hk] Hq. split; [by eapply ok_quiet|]. intros ? ->. eapply known_quiet; [|done|auto]. done.
Qed.

Lemma quietly_limited {A} (m : eff State Err A) (R : A → Prop) s :
  (∀ s', quiet s s' → quietly m (λ a _, R a) s') → quietly (limited m) (λ a _, R a) s.
Proof using Type.
  intros Hm. apply quietly_await; [|done]. eapply quietly_bind; [apply quietly_pause|].
  intros [] s1 Hq _. by apply Hm.
Qed.

Lemma quietly_hashDiskNow p s : ok s →
  quietly (hashDiskNow p) (λ h _, ∀ l, h = Some (Some l) → l ≠ ""%string) s.
Proof using sha256_nonempty.
  intros Hs. apply quietly_look. case_match; [|by apply quietly_ret].
  eapply quietly_catch; [|intros; by apply quietly_ret].
  apply quietly_limited. intros s1 Hq1.
  eapply quietly_bind; [apply quietly_read_binary; by eapply ok_quiet|]. intros c s2 _ _.
  eapply quietly_bind; [apply quietly_sha256Hex_binary|]. intros h s3 _ ->. apply quietly_ret.
  intros l [= <-]. apply sha256_nonempty.
Qed.

Lemma quietly_hashDisk p s : ok s →
  quietly (hashDisk p) (λ h s', ok s' ∧ known (Hashed p h) s' ∧ (∀ l, h = Some (Some l) → l ≠ ""%string) ∧
    ∀ e, known e s → before e (Hashed p h) (trace s')) s.
Proof using sha256_nonempty.
  intros Hs. eapply (quietly_bind _ _ (λ h _, ∀ l, h = Some (Some l) → l ≠ ""%string)).
  { by apply quietly_await; [apply quietly_hashDiskNow|]. }
  intros h s1 Hq Hl. assert (ok s1) as Hs1 by by eapply ok_quiet.
  set (s2 := s1 <| effects ::= λ l, l ++ [Hashed p h] |>).
  assert (quiet s1 s2) as Hq2 by by apply (quiet_snoc _ _ (Hashed p h)).
  eapply (quietly_bind _ _ (λ _ s', s' = s2)); [by apply quietly_update|]. intros [] ? _ ->.
  apply quietly_ret. split_and!; [by eapply ok_quiet|by apply (known_new _ s1)|done|].
  intros e He. apply (before_new _ _ s1); [done..|]. by apply (known_quiet _ s).
Qed.

Lemma quietly_conflictStateMatches p l r s : ok s →
  quietly (conflictStateMatches p l r)
    (λ b s', ok s' ∧ (b = true → known (Hashed p (Some l)) s' ∧
       ∀ e, known e s → before e (Hashed p (Some l)) (trace s'))) s.
Proof using sha256_nonempty.
  intros Hs. apply quietly_await.
  - eapply quietly_bind; [by apply quietly_hashDisk|]. intros h s1 _ (Hs1 & Hk & _ & Hb).
    apply quietly_get. split; [done|]. intros E. bools. subst h. by split.
  - intros b s1 s2 [Hs1 Hk] Hq. split; [by eapply ok_quiet|]. intros E. destruct (Hk E) as [Hh Hb].
    split; [by apply (known_quiet _ s1)|]. intros e He. apply (before_quiet _ _ s1); auto.
Qed.

Lemma quietly_ensureParentFolder p s : quietly (ensureParentFolder p) (λ _ _, True) s.
Proof using Type.
  apply quietly_await; [|done].
  assert (∀ parts cur s, quietly (ensureFolderParts cur parts) (λ _ _, True) s) as H;
    [|by repeat case_match; [apply quietly_ret|apply H|apply quietly_ret]].
  induction parts as [|part parts IH]; intros cur s'; [by apply quietly_ret|]. cbn [ensureFolderParts].
  case_match; [apply IH|]. apply quietly_look.
  eapply (quietly_bind _ _ (λ _ _, True)); [|intros; apply IH].
  case_match; [by apply quietly_ret|]. eapply quietly_catch; [apply quietly_call|]. intros. by apply quietly_ret.
Qed.

Lemma quietly_preserve_binary p content source s : ok s →
  quietly (preserve p content source) (λ copy s', ok s' ∧ known (Preserved p copy content) s') s.
Proof using Type.
  intros Hs. eapply (quietly_bind _ _ (λ _ _, True)).
  { apply quietly_await; [|done]. eapply (quietly_bind _ _ (λ _ _, True)).
    { apply quietly_look. case_match; [by apply quietly_ret|apply quietly_throw]. }
    intros copy s1 _ _. eapply quietly_bind; [apply quietly_ensureParentFolder|]. intros [] s2 _ _.
    eapply quietly_bind; [apply quietly_call|]. intros. by apply quietly_ret. }
  intros copy s1 Hq _. eapply quietly_bind.
  { apply (quietly_effect_binary (Preserved p copy content)); [done|by eapply ok_quiet]. }
  intros [] s2 _ H. by apply quietly_ret.
Qed.

(** ** Steps of programs whose effects are all justified *)

Lemma safe_effect_binary {B} e (f : () → eff State Err B) s :
  ok s → justified (trace s) e → (∀ s', ok s' → effects s' = effects s ++ [e] → safe (f ()) s') →
  safe (effect e ≫= f) s.
Proof using Type.
  intros Hs He Hf. apply wp_bind. unfold effect. apply wp_update. apply Hf; [|done]. by apply (ok_snoc s _ e).
Qed.

Lemma safe_note {B} e (f : () → eff State Err B) s :
  ok s → harmless e → (∀ s', ok s' → quiet s s' → known e s' → safe (f ()) s') → safe (effect e ≫= f) s.
Proof using Type.
  intros Hs He Hf. eapply safe_quiet; [done|by apply quietly_effect_binary|]. intros [] s1 _ Hq [Hs1 Hk]. by apply Hf.
Qed.

Lemma safe_set {B} (g : State → State) (f : () → eff State Err B) s :
  ok s → effects (g s) = effects s → (∀ s', ok s' → quiet s s' → safe (f ()) s') → safe (update g ≫= f) s.
Proof using Type.
  intros Hs Hg Hf. eapply safe_quiet; [done|by apply quietly_set|]. intros [] s1 Hs1 Hq _. by apply Hf.
Qed.

Lemma safe_sets g s : ok s → effects (g s) = effects s → safe (update g) s.
Proof using Type. intros Hs Hg. apply safe_update_quiet; [done|by apply quiet_effects]. Qed.

Lemma safe_whileWriting_binary {A} p (m : eff State Err A) s :
  ok s → (∀ s', ok s' → quiet s s' → safe m s') → safe (whileWriting p m) s.
Proof using Type.
  intros Hs Hm. apply safe_set; [done..|]. intros s1 Hs1 Hq. apply safe_finally; [by apply Hm|].
  intros. by apply quiet_effects.
Qed.

Lemma safe_limited {A} (m : eff State Err A) s :
  ok s → (∀ s', ok s' → quiet s s' → safe m s') → safe (limited m) s.
Proof using Type.
  intros Hs Hm. apply safe_await. eapply safe_quiet; [done|apply quietly_pause|].
  intros [] s1 Hs1 Hq _. by apply Hm.
Qed.

Lemma safe_whileMatching p l r k s :
  ok s →
  (∀ s', ok s' → quiet s s' → known (Hashed p (Some l)) s' →
     (∀ e, known e s → before e (Hashed p (Some l)) (trace s')) → safe k s') →
  safe (whileMatching p l r k) s.
Proof using sha256_nonempty.
  intros Hs Hk. eapply safe_quiet; [done|by apply quietly_conflictStateMatches|].
  intros same s1 _ Hq [Hs1 Hh]. destruct same; [|done]. destruct (Hh eq_refl). by apply Hk.
Qed.

Lemma effects_unlessDestroyed f s : effects (f s) = effects s → effects (unlessDestroyed f s) = effects s.
Proof using Type. unfold unlessDestroyed. by case_match. Qed.

Lemma effects_deferReconcileNow p s : effects (deferReconcileNow p s) = effects s.
Proof using Type. apply effects_deferReconcile. Qed.

Lemma safe_deferring {A} p (a : A) s : ok s → safe (deferring p a) s.
Proof using Type. intros. apply safe_set; [done|apply effects_deferReconcileNow|done]. Qed.

Lemma safe_retrying p s : ok s → safe (retrying p) s.
Proof using Type. intros. apply safe_set; [done|by apply effects_unlessDestroyed|done]. Qed.

Lemma safe_queueLocalUpload p r h s : ok s → safe (queueLocalUpload p r h) s.
Proof using Type.
  intros Hs. apply safe_await, safe_look. case_match; [|done]. case_match; [done|].
  apply safe_set; [done|apply effects_queueUpload|done].
Qed.

(** ** Disk *)

(** Why what was [found] may be replaced by the version [h] *)
Definition backed pre (path : string) (found : option string) (h : string) : Prop :=
  match found with Some l => superseded pre path l h ∨ kept pre path l | None => True end.

Lemma kept_quiet p l s s' : ok s → quiet s s' → kept (trace s) p l → kept (trace s') p l.
Proof using Type.
  intros Hs Hq (c & copy & Hc & H1 & H2 & H3). exists c, copy.
  split_and!; [done|by apply (known_quiet _ s)..|by apply (before_quiet _ _ s)].
Qed.

Lemma backed_quiet p found h s s' : ok s → quiet s s' → backed (trace s) p found h → backed (trace s') p found h.
Proof using Type.
  intros Hs Hq. destruct found as [l|]; [|done]. intros [(c & r & Hc & H)|H].
  - left. exists c, r. split; [by apply (known_quiet _ s)|done].
  - right. by apply (kept_quiet _ _ s).
Qed.

Lemma safe_writeDisk p content s :
  ok s → (∀ s', ok s' → quiet s s' → justified (trace s') (Wrote p content)) → safe (writeDisk p content) s.
Proof using Type.
  intros Hs Hj. apply safe_await, safe_look. case_match; [done|].
  apply safe_whileWriting_binary; [done|]. intros s1 Hs1 Hq1. apply safe_catch; [|done]. apply safe_look. case_match.
  - case_match; [done|]. apply safe_effect_binary; [done|by apply Hj|]. intros s2 Hs2 _.
    apply safe_bind; [by apply safe_call|done].
  - eapply safe_quiet; [done|apply quietly_ensureParentFolder|]. intros [] s2 Hs2 Hq2 _.
    apply safe_effect_binary; [done|apply Hj; [done|by eapply quiet_trans]|]. intros s3 Hs3 _.
    apply safe_bind; [by apply safe_call|done].
Qed.

Lemma safe_materialize_binary p h found content s :
  ok s → known (Fetched h content) s → sha256 content = h → backed (trace s) p found h →
  safe (materialize p h (Some found) content) s.
Proof using sha256_nonempty.
  intros Hs Hf Hh Hb. eapply safe_quiet; [done|by apply quietly_hashDisk|].
  intros cur s1 _ Hq1 (Hs1 & _ & _ & Hk). apply safe_look. case_match; [done|].
  destruct (_ || _) eqn:E.
  { apply safe_set; [done|by rewrite effects_reconcile_binary|done]. }
  bools. apply dec_stable in H1 as ->. apply safe_bind.
  - apply safe_writeDisk; [done|]. intros s2 Hs2 Hq2. exists found, h. split_and!; [done| |].
    + apply (before_quiet _ _ s1); auto.
    + apply (backed_quiet _ _ _ s); [done|by eapply quiet_trans|done].
  - intros written s2 Hs2. case_match; [by apply safe_retrying|]. apply safe_look. case_match; [done|].
    eapply safe_quiet; [done|by apply quietly_hashDisk|]. intros after s3 Hs3 _ _.
    case_match; [by apply safe_retrying|]. by apply safe_set.
Qed.

Lemma safe_transferToDisk p h found s :
  ok s → backed (trace s) p found h → safe (transferToDisk p h (Some found)) s.
Proof using sha256_nonempty.
  intros Hs Hb. apply safe_look. case_match; [done|].
  eapply safe_quiet; [done|apply quietly_attempt, quietly_call|]. intros got s1 Hs1 Hq1 _.
  destruct got as [content|err]; [|by apply safe_retrying]. apply safe_look. case_match; [done|].
  apply safe_note; [done..|]. intros s2 Hs2 Hq2 Hf.
  eapply safe_quiet; [done|apply quietly_sha256Hex_binary|]. intros actual s3 Hs3 Hq3 ->.
  case_bool_decide as Ha; [by apply safe_retrying|]. apply safe_look. case_match.
  { apply safe_set; [done|by rewrite effects_deferReconcileNow|done]. }
  apply safe_materialize_binary; [done|by apply (known_quiet _ s2)|done|].
  apply (backed_quiet _ _ _ s); [done| |done]. eapply quiet_trans; [done|]. by eapply quiet_trans.
Qed.

Lemma safe_downloadToDisk p h found s :
  ok s → backed (trace s) p found h → safe (downloadToDisk p h (Some found)) s.
Proof using sha256_nonempty.
  intros Hs Hb. apply safe_await, safe_look. case_match; [by apply safe_deferring|].
  apply safe_set; [done..|]. intros s1 Hs1 Hq1. case_match; [by apply safe_set|].
  apply safe_limited; [done|]. intros s2 Hs2 Hq2. apply safe_transferToDisk; [done|].
  apply (backed_quiet _ _ _ s); [done| |done]. by eapply quiet_trans.
Qed.

Lemma safe_deleteLocal_binary p s : ok s →
  (∀ s', ok s' → quiet s s' → justified (trace s') (Removed p)) → safe (deleteLocal p) s.
Proof using Type.
  intros Hs Hj. apply safe_await, safe_look. case_match; [done|]. case_match; [by apply safe_deferring|].
  case_match; [|by apply safe_sets]. apply safe_whileWriting_binary; [done|]. intros s1 Hs1 Hq1.
  apply safe_catch; [|intros; by apply safe_sets; [|apply effects_unlessDestroyed]].
  apply safe_effect_binary; [done|by apply Hj|]. intros s2 Hs2 _. apply safe_bind; [by apply safe_call|].
  intros. by apply safe_sets.
Qed.

(** ** Conflicts *)

Lemma safe_keepLocal p l r s : ok s → safe (keepLocal p l r) s.
Proof using sha256_nonempty.
  intros Hs. unfold keepLocal.
  match goal with |- safe (match _ with Some _ => _ | None => ?f end) _ => set (finish := f) end.
  assert (∀ s', ok s' → safe finish s') as Hfinish.
  { intros s' Hs'. unfold finish. destruct (LocalState.truthy l) as [l'|]; [|by apply safe_note].
    apply safe_bind; [by apply safe_queueLocalUpload|]. intros queued s1 Hs1.
    case_match; [done|by apply safe_note]. }
  clearbody finish. destruct (LocalState.truthy r) as [r'|]; [|by apply Hfinish].
  apply safe_bind; [by apply safe_call|]. intros content s1 Hs1.
  apply safe_whileMatching; [done|]. intros s2 Hs2 _ _ _.
  eapply safe_quiet; [done|by apply quietly_preserve_binary|]. intros copy s3 Hs3 _ _.
  apply safe_whileMatching; [done|]. intros s4 Hs4 _ _ _. apply safe_note; [done..|]. auto.
Qed.

Lemma safe_keepRemote p l r s :
  ok s → (∀ x, l = Some x → x ≠ ""%string) → l ≠ r → known (Chose p KeepRemote) s →
  safe (keepRemote p l r) s.
Proof using sha256_nonempty.
  intros Hs Hne Hlr Hc. unfold keepRemote.
  match goal with |- safe (match _ with Some _ => _ | None => ?f end) _ => set (finish := f) end.
  assert (∀ s', ok s' → match l with
      | Some x => kept (trace s') p x ∧ known (Hashed p (Some l)) s' | None => True end → safe finish s') as Hfinish.
  { intros s' Hs' Hk. unfold finish. destruct r as [h|].
    - apply safe_bind; [apply safe_downloadToDisk; [done|destruct l; naive_solver]|].
      intros written s1 Hs1. destruct written; [by apply safe_note|done].
    - destruct l as [x|]; [|by destruct Hlr]. destruct Hk as [Hk Hh].
      apply safe_bind; [|intros; by apply safe_note]. apply safe_deleteLocal_binary; [done|]. intros s1 Hs1 Hq1.
      exists x. split; [by apply (known_quiet _ s')|]. left. by apply (kept_quiet _ _ s'). }
  clearbody finish. rewrite LocalState.truthy_nonempty by done. destruct l as [x|]; [|by apply Hfinish].
  eapply safe_quiet; [done|by apply quietly_readDisk|]. intros [content|] s1 _ Hq1 [Hs1 Hr]; [|done].
  specialize (Hr _ eq_refl). apply (known_quiet _ _ s1) in Hc; [|done..].
  eapply safe_quiet; [done|apply quietly_sha256Hex_binary|]. intros actual s2 Hs2 Hq2 ->.
  case_bool_decide as Ha; [done|]. apply (known_quiet _ _ s2) in Hr, Hc; [|done..].
  apply safe_whileMatching; [done|]. intros s3 Hs3 Hq3 _ _. apply (known_quiet _ _ s3) in Hr, Hc; [|done..].
  eapply safe_quiet; [done|by apply quietly_preserve_binary|]. intros copy s4 _ Hq4 [Hs4 Hp].
  apply (known_quiet _ _ s4) in Hr, Hc; [|done..].
  apply safe_whileMatching; [done|]. intros s5 Hs5 Hq5 Hh Hb. apply safe_note; [done..|].
  intros s6 Hs6 Hq6 _. apply Hfinish; [done|]. split; [|by apply (known_quiet _ s5)].
  exists content, copy. split_and!; [done|..].
  1,2: apply (known_quiet _ s4); by try eapply quiet_trans.
  apply (before_quiet _ _ s5); auto.
Qed.

Lemma safe_conflictLoop n p s : ok s → safe (conflictLoop n p) s.
Proof using sha256_nonempty.
  revert s. induction n as [|n IH]; intros s Hs; [done|]. cbn [conflictLoop]. apply safe_look.
  case_match; [done|]. case_match; [by apply safe_deferring|].
  eapply safe_quiet; [done|by apply quietly_hashDisk|]. intros found s1 _ _ (Hs1 & _ & Hne & _).
  destruct found as [l|]; [|done]. apply safe_look. case_match; [by apply safe_deferring|].
  apply safe_look. case_bool_decide as Hlr; [by apply safe_sets; [|case_match]|].
  generalize dependent (remoteHashOf p s1). intros r Hlr.
  apply safe_bind; [by apply safe_call|]. intros choice s2 Hs2. apply safe_look.
  case_match; [done|]. case_match; [by apply safe_deferring|].
  apply safe_note; [done..|]. intros s3 Hs3 _ Hc.
  eapply safe_quiet; [done|by apply quietly_conflictStateMatches|]. intros same s4 _ Hq4 [Hs4 _].
  case_match; [by apply IH|]. apply safe_bind; [|intros done_ s5 Hs5; case_match; [done|by apply IH]].
  apply safe_await. destruct choice; [by apply safe_keepLocal|]. apply safe_keepRemote; [done| |done|].
  - intros x ->. by apply Hne.
  - by apply (known_quiet _ s3).
Qed.

Lemma safe_resolveConflict p s : ok s → safe (resolveConflict p) s.
Proof using sha256_nonempty.
  intros Hs. apply safe_await. eapply safe_quiet; [done|apply quietly_pause|]. intros [] s1 Hs1 _ _.
  apply safe_catch; [by apply safe_conflictLoop|]. intros. by apply safe_sets; [|apply effects_unlessDestroyed].
Qed.

(** ** One reconciliation *)

Lemma safe_localOnly p l base (c : Comparison) s :
  ok s → known (Compared c) s → known (Hashed p (Some (Some l))) s →
  cPath c = p → cLocal c = Some l → cBase c = base → LocalState.truthy (bhash <$> cRemote c) = None →
  safe (localOnly p l base) s.
Proof using sha256_nonempty.
  intros Hs Hc Hh Hp Hl Hb Hr. unfold localOnly. destruct base as [b|].
  - case_bool_decide; [subst b|by apply safe_resolveConflict]. apply safe_deleteLocal_binary; [done|].
    intros s1 Hs1 Hq1. exists l. split; [by apply (known_quiet _ s)|]. right. exists c.
    split; [by apply (known_quiet _ s)|done].
  - apply safe_bind; [by apply safe_queueLocalUpload|done].
Qed.

Lemma ok_publishDelete p c s :
  ok s → known (Compared c) s → cPath c = p → cLocal c = None → cRemote c = jm_get p (binaries s) →
  cBase c = bhash <$> jm_get p (binaries s) → cGone c = true →
  LocalState.truthy (cBase c) ≠ None → ok (publishDelete p s).
Proof using Type.
  intros Hs Hc Hp Hl Hr Hb Hg Ht. destruct (jm_get p (binaries s)) as [r|] eqn:E; [|by rewrite Hb in Ht].
  unfold publishDelete. rewrite E. case_bool_decide as Hn.
  { rewrite Hb in Ht. simpl in Ht. by rewrite Hn in Ht. }
  set (s1 := s <| effects ::= λ l, l ++ [Trashed p (bhash r) (size r)] |>).
  assert (ok s1) as Hs1 by by eapply (ok_snoc s _ (Trashed p (bhash r) (size r))).
  apply (ok_snoc s1 _ (Unpublished p (Some r))); [done| |].
  - unfold forget, local. simpl. by rewrite effects_indexDelete.
  - exists c, r. split_and!; try done.
    + by apply (known_app _ s s1 [Trashed p (bhash r) (size r)]).
    + by apply (known_new _ s).
Qed.

Lemma safe_remoteOnly p r h live pull c s :
  ok s → known (Compared c) s → cPath c = p → LocalState.truthy h = None → cLocal c = h →
  (∀ x, h = Some x → x ≠ ""%string) →
  cRemote c = jm_get p (binaries s) → bhash <$> cRemote c = Some r → r ≠ ""%string →
  cGone c = negb pull && (live || negb (bool_decide (p ∈ pendingDownloads s))) →
  safe (remoteOnly p r h (cBase c) live pull) s.
Proof using sha256_nonempty.
  intros Hs Hc Hp Ht Hl Hne Hr Hrh Hrne Hg. rewrite LocalState.truthy_nonempty in Ht by done. subst h.
  apply safe_look. destruct (bool_decide _ && _ && _) eqn:E.
  - apply andb_true_iff in E as [[Hb%bool_decide_eq_true Hpull]%andb_true_iff Hlive].
    apply safe_update, (ok_publishDelete p c); try done.
    + by rewrite <- Hr, Hrh.
    + by rewrite Hg, Hpull, Hlive.
    + rewrite Hb. by destruct r.
  - case_match; [done|]. apply safe_bind; [|done]. by apply safe_downloadToDisk.
Qed.

Lemma safe_bothDiffer p l r c s :
  ok s → known (Compared c) s → cPath c = p → cLocal c = Some l → bhash <$> cRemote c = Some r →
  cOwn c = bool_decide (localSyncState s = None) ||
    match cBase c with Some b => ownBase (localState p s) b | None => false end →
  safe (bothDiffer p l r (cRemote c) (cBase c)) s.
Proof using sha256_nonempty.
  intros Hs Hc Hp Hl Hr Ho. unfold bothDiffer.
  assert (∀ s, ok s → safe (queueLocalUpload p (Some r) l ≫= λ _, mret ()) s) as Hpush.
  { intros s1 Hs1. apply safe_bind; [by apply safe_queueLocalUpload|done]. }
  destruct (bool_decide (cBase c = Some r)); [by apply Hpush|]. destruct (cRemote c) as [m|] eqn:Er; [|done]. injection Hr as Hr.
  destruct (decide (cBase c = Some l)) as [Hb|Hb];
    [rewrite bool_decide_true by done|rewrite bool_decide_false by done; by apply safe_resolveConflict]. apply safe_look.
  assert ((descendsFrom (version m) l = true ∨ cOwn c = false ∨ prev (version m) = None) →
    safe (downloadToDisk p r (Some (Some l)) ≫= λ _, mret ()) s) as Hpull.
  { intros H'. apply safe_bind; [|done]. apply safe_downloadToDisk; [done|]. left. by exists c, m. }
  rewrite Hb in Ho. destruct (descendsFrom (version m) l); [by apply Hpull; left|].
  case_match; [by apply Hpush|].
  destruct (bool_decide (is_Some (localSyncState s)) && negb (ownBase (localState p s) l)) eqn:E.
  - apply Hpull. right. left. apply andb_true_iff in E as [[ls E]%bool_decide_eq_true Eo%negb_true_iff].
    by rewrite Ho, Eo, E.
  - destruct (decide (prev (version m) = None)); [rewrite bool_decide_true by done; by apply Hpull; auto|].
    rewrite bool_decide_false by done. by apply safe_resolveConflict.
Qed.

Lemma safe_reconcileHashed p h live pull s :
  ok s → known (Hashed p h) s → (∀ l, h = Some (Some l) → l ≠ ""%string) →
  safe (reconcileHashed p h live pull) s.
Proof using sha256_nonempty.
  intros Hs Hh Hne. apply safe_set; [done|by repeat case_match|]. intros s1 Hs1 Hq1.
  apply (known_quiet _ _ s1) in Hh; [|done..]. apply safe_look. cbv zeta.
  case_bool_decide.
  { apply safe_sets; [done|]. unfold inAgreement. by case_match. }
  destruct h as [h|]; [|done]. set (c := comparison p h live pull s1).
  assert (∀ l, h = Some l → l ≠ ""%string) as Hne' by naive_solver.
  apply wp_bind, wp_update. set (s2 := s1 <| effects ::= λ l, l ++ [Compared c] |>).
  assert (ok s2) as Hs2 by by eapply (ok_snoc s1 _ (Compared c)).
  assert (known (Compared c) s2) as Hc by by apply (known_new _ s1).
  assert (known (Hashed p (Some h)) s2) as Hh2 by by apply (known_app _ s1 s2 [Compared c]).
  rewrite (LocalState.truthy_nonempty h) by done.
  destruct (LocalState.truthy (bhash <$> jm_get p (binaries s1))) as [r|] eqn:Hr.
  - pose proof (LocalState.truthy_Some _ _ Hr) as Hr'. destruct h as [l|]; [by apply (safe_bothDiffer p l r c)|].
    apply (safe_remoteOnly p r None live pull c); try done.
    intros ->. by rewrite Hr' in Hr.
  - destruct h as [l|]; [|done]. by apply (safe_localOnly p l _ c).
Qed.

Lemma effects_deferIntents p live pull s : effects (deferIntents p live pull s) = effects s.
Proof using Type. unfold deferIntents. rewrite effects_deferReconcile. by case_match. Qed.

Lemma safe_reconcileNow_binary p s : ok s → safe (reconcileNow p) s.
Proof using sha256_nonempty.
  intros Hs. apply safe_look. repeat (case_match; [done|]).
  eapply (safe_quiet _ _ (λ _ _, True)); [done| |].
  { apply quietly_look. eapply quietly_bind; [by apply quietly_set|]. intros [] s1 _ _.
    repeat match goal with |- context [if ?b then _ else _] => destruct b end; try by apply quietly_ret.
    all: eapply quietly_bind; [by apply quietly_set|]; intros; by apply quietly_ret. }
  intros [live pull] s1 Hs1 _ _. apply safe_look. case_match; [by apply safe_sets; [|apply effects_deferIntents]|].
  eapply safe_quiet; [done|by apply quietly_hashDisk|]. intros h s2 _ _ (Hs2 & Hh & Hne & _).
  apply safe_look. case_match; [done|]. case_match; [by apply safe_sets; [|apply effects_deferIntents]|].
  by apply safe_reconcileHashed.
Qed.

Lemma safe_reconcileTask p s : ok s → safe (reconcileTask p) s.
Proof using sha256_nonempty.
  intros Hs. apply safe_set; [done..|]. intros s1 Hs1 _. apply safe_look. apply safe_bind.
  - apply safe_catch; [|done]. generalize (fuel (W := W)). intros n. revert s1 Hs1.
    induction n as [|n IH]; intros s1 Hs1; [done|]. cbn [reconcileLoop].
    apply safe_set; [done..|]. intros s2 Hs2 _. apply safe_bind; [by apply safe_await, safe_reconcileNow_binary|].
    intros [] s3 Hs3. apply safe_look, safe_set; [done..|]. intros s4 Hs4 _. case_match; [by apply IH|done].
  - intros [] s2 Hs2. apply safe_bind; [by apply safe_pause|]. intros [] s3 Hs3. by apply safe_sets; [|case_match].
Qed.

(** ** Uploads *)

Lemma nextVersion_after h replaced :
  nextVersion h (bhash <$> replaced) replaced = versionAfter (version <$> replaced) h.
Proof using Type. unfold nextVersion, versionAfter. by destruct replaced. Qed.

Lemma safe_requestAgain p s : ok s → safe (requestAgain p) s.
Proof using Type. intros. by apply safe_set; [|apply effects_reconcile_binary|]. Qed.

Lemma safe_unlessStopped k s : ok s → safe k s → safe (unlessStopped k) s.
Proof using Type. intros Hs Hk. apply safe_look. by repeat case_match. Qed.

Lemma safe_publishUpload job content s :
  ok s → known (Started job) s → known (Read (jobPath job) content) s → sha256 content = jobHash job →
  known (Stored (jobHash job)) s → safe (publishUpload job (zlength content)) s.
Proof using Type.
  intros Hs Hj Hr Hc Hb. apply safe_look. cbv zeta. case_bool_decide as Hv; [by apply safe_requestAgain|].
  destruct (match expectedRemoteHash job with Some _ => _ | None => _ end) eqn:Ee; [by apply safe_requestAgain|].
  apply safe_effect_binary; [done| |].
  - exists job, content. split_and!; try done. intros e He. rewrite He in Ee. bools. apply dec_stable in Ee.
    cbn [version]. rewrite He. cbn. subst e. apply nextVersion_after.
  - intros s1 Hs1 _. apply safe_set; [done|exact (effects_publishMeta _ _ s1)|done].
Qed.

Lemma safe_doUpload job s : ok s → safe (doUpload job) s.
Proof using Type.
  intros Hs. apply safe_await. apply safe_note; [done..|]. intros s1 Hs1 _ Hj.
  eapply safe_quiet; [done|by apply quietly_readDisk|]. intros found s2 _ Hq2 [Hs2 Hr].
  apply (known_quiet _ _ s2) in Hj; [|done..]. apply safe_unlessStopped; [done|].
  destruct found as [content|]; [|by apply safe_requestAgain]. specialize (Hr _ eq_refl).
  eapply safe_quiet; [done|apply quietly_sha256Hex_binary|]. intros actual s3 Hs3 Hq3 ->.
  apply (known_quiet _ _ s3) in Hj, Hr; [|done..]. case_bool_decide as Ha; [by apply safe_requestAgain|].
  eapply safe_quiet; [done|apply quietly_call|]. intros there s4 Hs4 Hq4 _.
  apply (known_quiet _ _ s4) in Hj, Hr; [|done..]. apply safe_unlessStopped; [done|].
  eapply (safe_quiet _ _ (λ _ _, True)); [done| |].
  { case_match; [by apply quietly_ret|apply quietly_call]. }
  intros [] s5 Hs5 Hq5 _. apply (known_quiet _ _ s5) in Hj, Hr; [|done..].
  apply safe_note; [done..|]. intros s6 Hs6 Hq6 Hb. apply safe_unlessStopped; [done|].
  apply (safe_publishUpload _ content); try done; by apply (known_quiet _ s5).
Qed.

Lemma effects_uploadSettled s : effects (uploadSettled s) = effects s.
Proof using Type. done. Qed.

Lemma safe_drain s : ok s → safe drain s.
Proof using Type.
  intros Hs. apply safe_set; [done..|]. intros s1 Hs1 _. apply safe_look. case_match; [done|].
  apply safe_set; [done..|]. intros s2 Hs2 _. apply safe_finally; [|intros; apply quiet_effects; by rewrite effects_drainEnds].
  generalize (fuel (W := W)). intros n. clear Hs1 H s1 Hs s. revert s2 Hs2.
  induction n as [|n IH]; intros s Hs; [done|]. cbn [drainLoop]. apply safe_look.
  destruct (uploadQueue s) as [|j q]; [done|]. case_match; [done|].
  destruct (nextUpload _ _ (j :: q)) as [queue index]. apply safe_set; [done..|]. intros s1 Hs1 _.
  destruct (index ≫= _) as [[i job]|]; [|by apply safe_sets; [|apply effects_scheduleDrain]].
  apply safe_set; [done..|]. intros s2 Hs2 _. apply safe_bind; [by apply safe_attempt, safe_doUpload|].
  intros [[]|err] s3 Hs3.
  - apply safe_set; [done..|]. intros s4 Hs4 _. by apply IH.
  - by apply safe_sets.
  - apply safe_update_quiet; [done|]. eapply quiet_trans; [apply quiet_uploadFailed|by apply quiet_effects].
Qed.

Lemma safe_restoreEntry p h n s : ok s → safe (restoreEntry p h n) s.
Proof using Type.
  intros Hs. apply safe_look. case_match; [done|]. apply safe_bind; [by apply safe_call|].
  intros there s1 Hs1. case_match; [done|]. apply safe_note; [done..|]. intros s2 Hs2 _ Hb.
  apply safe_look. case_match; [done|]. apply safe_look. cbv zeta. apply safe_effect_binary; [done| |].
  - split; [done|]. apply nextVersion_after.
  - intros s3 Hs3 _. apply safe_set; [done| |done]. by rewrite effects_reconcile_binary, effects_indexSet.
Qed.

Lemma safe_reconcileAll paths s : ok s → safe (reconcileAll paths) s.
Proof using Type.
  intros Hs. apply safe_look. case_match; [done|]. cbv zeta. apply safe_set; [done..|]. intros s1 Hs1 _.
  apply safe_finally; [|intros; by apply quiet_effects]. apply safe_await, safe_bind.
  - apply (wp_forEach ok (λ _, ok)); [|done]. intros _ p _ s2 _ Hs2. apply safe_bind; [by apply safe_pause|].
    intros [] s3 Hs3. by apply safe_sets; [|apply effects_unlessDestroyed, effects_reconcile_binary].
  - intros. by apply safe_pause.
Qed.

Lemma safe_runTask t s : ok s → safe (runTask t) s.
Proof using sha256_nonempty.
  intros Hs. destruct t; simpl.
  - by apply safe_reconcileTask.
  - by apply safe_drain.
  - apply safe_bind; [by apply safe_restoreEntry|done].
  - by apply safe_reconcileAll.
Qed.
End spec.

(** C2: Whatever the platform answers and whatever happens while a program of
    the object waits, every effect it has is justified by what came before it.
    It writes a local file only with the bytes of a blob whose hash it has
    checked, and only when, after it had these, it saw the file absent; or to
    hold the baseline while the index named that version, as a descendant of the
    baseline or at least not as a rival of a version this device published; or
    as a recovery copy made before has it, the user having chosen the remote
    version.
    It removes a local file only when it saw it to hold the baseline while the
    index had no version, or holds such a copy.  It publishes a version only
    after it read those bytes, the server had them and no local change was
    noticed since the upload was queued, as the successor of the very entry
    that was expected.  It drops an entry only at the baseline version, having
    seen the file gone and not merely missing, and with the entry in the
    trash. *)
Theorem binary_sync_justified {W : Type} `{!Platform W} (s0 : @BinarySync W) (t : Task) pre e post :
  (∀ content, sha256 (W := W) content ≠ ""%string) →
  effects (fst (runTask t s0)) = effects s0 ++ pre ++ e :: post → justified (W := W) pre e.
Proof.
  intros Hsha E.
  assert (ok (J := judged s0) s0) as Hs0.
  { split; [done|]. intros pre' e' post'. unfold trace. simpl. rewrite drop_all. by destruct pre'. }
  pose proof (safe_runTask Hsha s0 t s0 Hs0) as H. unfold safe, wp in H.
  destruct (runTask t s0) as [s [a|err]]; simpl in *; destruct H as [_ H];
    apply (H pre e post); unfold trace; simpl; rewrite E; by rewrite drop_app_length.
Qed.

Module BinaryRun.
(** A vault and a server that answer at once; the hash of a file names its
    first byte.  [later] tells what happens at the next turns. *)
Record Disk := mkDisk { files : gmap string bytes; blobs : gmap string bytes; later : list (list Move) }.
#[local] Instance eta_Disk : Eta Disk := λ r, mkDisk (files r) (blobs r) (later r).

Definition toyHash (b : bytes) : string :=
  match b with [] => "empty" | c :: _ => String (Ascii.ascii_of_byte c) EmptyString end%string.

Definition answer {A} (d : Disk) (a : A) : Disk * list Move * throws Err A := (d, [], Returns a).

#[local] Instance demoVault : VaultApi Disk Move Err := {|
  tree d := (λ b : bytes, TFile (Some (zlength b))) <$> files d;
  workspace d := mkWorkspace None None None;
  createFolder p d := answer d ();
  createBinary p b d := answer (d <| files ::= <[p := b]> |>) ();
  modifyBinary p b d := answer (d <| files ::= <[p := b]> |>) ();
  readFile p d := match files d !! p with Some b => answer d b | None => (d, [], Throws OtherError) end;
  deleteFile p d := answer (d <| files ::= delete p |>) ();
  createText p t d := answer d ();
  modifyText p t d := answer d ();
  readText p d := answer d ""%string;
  vaultNow d := 0;
  vaultNormalize p := p;
  vaultLabel := "laptop"%string;
  vaultStamp t := "20250101 120000"%string;
  noFreeName := OutOfFuel |}.

#[local] Instance demo : Platform Disk := {|
  getBlob p h d := match blobs d !! h with Some b => answer d b | None => (d, [], Throws (HttpError 404)) end;
  blobExists p h n d := answer d (bool_decide (is_Some (blobs d !! h)));
  putBlob p h b d := answer (d <| blobs ::= <[h := b]> |>) ();
  askConflict p remoteDeleted d := answer d KeepRemote;
  settle d := match later d with [] => (d, []) | ms :: l => (d <| later := l |>, ms) end;
  textBusy d := false;
  pendingRemoval p d := false;
  shouldTrack p := true;
  sha256 := toyHash;
  fuel := 10 |}.

Definition png : string := "a.png".
Definition fileA : bytes := [Byte.x61].
Definition fileB : bytes := [Byte.x62].
Definition fileC : bytes := [Byte.x63].
Definition entry (h : string) (parent : option string) : BinaryMeta := mkBinary (mkVersion h (Some parent) None) 1.

Definition device (disk : gmap string bytes) (index : jsmap string BinaryMeta) (last : gmap string string) :
    @BinarySync Disk :=
  (newBinarySync (mkDisk disk (<["b"%string := fileB]> ∅) []) index None)
    <| started := true |> <| lastSyncedHash := last |> <| chains := {[png]} |>.

Definition seen (local_ : string) (remote : BinaryMeta) (base : option string) : Comparison :=
  mkComparison png (Some local_) (Some remote) base true true.

(** The file is as last synced and the index has its successor. *)
Definition updated : @BinarySync Disk :=
  device {[png := fileA]} [(png, entry "b" (Some "a"%string))] {[png := "a"%string]}.

Lemma toyHash_nonempty b : toyHash b ≠ ""%string.
Proof. by destruct b. Defined.

Lemma binary_sync_justified_witness :
  justified (W := Disk)
    [Read png fileA; Hashed png (Some (Some "a"%string)); Compared (seen "a" (entry "b" (Some "a"%string)) (Some "a"%string));
     Fetched "b" fileB; Read png fileA; Hashed png (Some (Some "a"%string))]
    (Wrote png fileB).
Proof.
  apply (binary_sync_justified updated (ReconcilePath png) _ _
    [Read png fileB; Hashed png (Some (Some "b"%string))]); [exact toyHash_nonempty|].
  vm_compute. reflexivity.
Defined.

(** Both sides changed, and the user keeps the remote version. *)
Definition conflicting : @BinarySync Disk :=
  device {[png := fileC]} [(png, entry "b" (Some "a"%string))] {[png := "a"%string]}.

Example remote_kept :
  let s := fst (runTask (ReconcilePath png) conflicting) in
  files (world s) =
    <["a (conflicted copy laptop 20250101 120000).png"%string := fileC]> {[png := fileB]}.
Proof. vm_compute. reflexivity. Qed.

(** In agreement; at the turn after the chain's last test of
    [pendingReconcile], and before it is taken off [chains], the file
    changes. *)
Definition changedLate : @BinarySync Disk :=
  (device {[png := fileA]} [(png, entry "a" None)] {[png := "a"%string]})
    <| world ::= λ d, d <| later := replicate 5 [] ++ [[LocalChanged png]] |> |>.

(** The request is noted for a chain that has ended: nothing will run. *)
Example late_request_lost :
  let s := fst (runTask (ReconcilePath png) changedLate) in
  pendingReconcile s = {[png]} ∧ chains s = ∅ ∧ begun s = [] ∧ retryTimers s = [].
Proof. vm_compute. done. Qed.
End BinaryRun.
