(* ===== verification/BinaryUploads.v ===== *)
(** The upload queue of [src/BinarySync.ts] over the whole life of the object:
    a queued upload always has a drain to come, and the status that is shown
    is the true one. *)
From Stdlib Require Import String.
From S2P Require Import Prelude Effects TraceLogic Await JsString JsMap Caps Lineage ConflictCopy Vault BinarySync.
From S2P Require LocalState.
#[local] Open Scope Z_scope.

Section uploads.
Context {W : Type} `{!Platform W}.
Notation State := (@BinarySync W).
Implicit Types (s : State).

Definition waiting s : bool := match uploadQueue s with [] => false | _ => true end.

(** What the queue's invariant speaks of *)
Definition view s :=
  (uploadStatus s, (destroyed s, activeUpload s, waiting s),
   (paused s, drainTimer s, draining s, drainDue s, ownDrain s)).

Record inv s : Prop := {
  inv_status : uploadStatus s = statusOf s;
  inv_drain : waiting s = true → paused s = false → destroyed s = false →
    is_Some (drainTimer s) ∨ draining s = true ∨ drainDue s = true;
  inv_own : ownDrain s = true → draining s = true }.

(** The invariant while the drain is the program looked at *)
Definition invOwn s : Prop := inv s ∧ ownDrain s = true.

Lemma statusOf_eq s : statusOf s =
  if destroyed s then Idle else if activeUpload s then Uploading else if waiting s then Pending else Idle.
Proof using Type. unfold statusOf, waiting. by repeat case_match. Qed.

Lemma inv_view s s' : view s' = view s → inv s → inv s'.
Proof using Type.
  unfold view. intros [= E1 E2 E3 E4 E5 E6 E7 E8 E9] [H1 H2 H3].
  split; rewrite ?statusOf_eq, ?E1, ?E2, ?E3, ?E4, ?E5, ?E6, ?E7, ?E8, ?E9; [|done..].
  by rewrite H1, statusOf_eq.
Qed.

Lemma invOwn_view s s' : view s' = view s → invOwn s → invOwn s'.
Proof using Type. intros E [H Ho]. split; [by eapply inv_view|]. unfold view in E. congruence. Qed.

(** ** Steps that leave the queue alone *)

Lemma view_reconcile p s : view (reconcile p s) = view s.
Proof using Type. unfold reconcile. by case_match. Qed.

Lemma view_onBinariesChanged p s : view (onBinariesChanged p s) = view s.
Proof using Type. unfold onBinariesChanged. repeat case_match; try done. by rewrite view_reconcile. Qed.

Lemma view_indexSet p m s : view (indexSet p m s) = view s.
Proof using Type. unfold indexSet. by rewrite view_onBinariesChanged. Qed.

Lemma view_indexDelete p s : view (indexDelete p s) = view s.
Proof using Type. unfold indexDelete. case_match; [by rewrite view_onBinariesChanged|done]. Qed.

Lemma view_deferReconcile p b s : view (deferReconcile p b s) = view s.
Proof using Type. unfold deferReconcile. by case_match. Qed.

Lemma view_local f s : view (local f s) = view s.
Proof using Type. done. Qed.

Lemma view_publishMeta p m s : view (publishMeta p m s) = view s.
Proof using Type. exact (view_indexSet p m s). Qed.

Lemma view_publishDelete p s : view (publishDelete p s) = view s.
Proof using Type.
  unfold publishDelete, forget. rewrite view_local. etrans; [apply (view_indexDelete p)|]. by repeat case_match.
Qed.

Lemma view_removedHere p s : view (removedHere p s) = view s.
Proof using Type. unfold removedHere. by rewrite view_reconcile. Qed.

Lemma view_releaseMovedPath p s : view (releaseMovedPath p s) = view s.
Proof using Type.
  unfold releaseMovedPath. repeat case_match; try done; [by rewrite view_reconcile|].
  exact (view_indexDelete p _).
Qed.

Lemma view_fold {A} (f : State → A → State) l s :
  (∀ s x, view (f s x) = view s) → view (foldl f s l) = view s.
Proof using Type.
  intros Hf. apply (foldl_preserves (λ s', view s' = view s)); [|done]. intros s' x _ E. by rewrite Hf.
Qed.
End uploads.
Create HintDb binary_view.
#[export] Hint Rewrite @view_reconcile @view_onBinariesChanged @view_indexSet @view_indexDelete
  @view_deferReconcile @view_publishMeta @view_publishDelete @view_removedHere @view_releaseMovedPath : binary_view.

Section steps.
Context {W : Type} `{!Platform W}.
Notation State := (@BinarySync W).
Implicit Types (s : State).

(** ** Steps on the queue *)

Lemma inv_draining s : draining s = true → uploadStatus s = statusOf s → inv s.
Proof using Type. intros Hd Hs. split; auto. Qed.

Lemma inv_scheduleDrain d s :
  uploadStatus s = statusOf s → (ownDrain s = true → draining s = true) → inv (scheduleDrain d s).
Proof using Type.
  intros Hs Ho. unfold scheduleDrain. case_match; bools.
  - apply orb_true_iff in H as [H|H%bool_decide_eq_true]; split; try done; [congruence|auto].
  - split; [by etrans; [exact Hs|]; rewrite !statusOf_eq|by eauto|done].
Qed.

Lemma statusOf_refresh s : uploadStatus (refreshUploadStatus s) = statusOf (refreshUploadStatus s).
Proof using Type. done. Qed.

Lemma inv_queueUpload p e h n s : inv s → inv (queueUpload p e h n s).
Proof using Type. intros [_ _ Ho]. by apply inv_scheduleDrain. Qed.

Lemma waiting_length s s' : length (uploadQueue s') = length (uploadQueue s) → waiting s' = waiting s.
Proof using Type. unfold waiting. by destruct (uploadQueue s), (uploadQueue s'). Qed.

(** Nothing but the queue and the status change, and nothing is added. *)
Lemma inv_shrunk s s' :
  (waiting s' = true → waiting s = true) → uploadStatus s' = statusOf s' →
  paused s' = paused s → destroyed s' = destroyed s → drainTimer s' = drainTimer s →
  draining s' = draining s → drainDue s' = drainDue s → ownDrain s' = ownDrain s → inv s → inv s'.
Proof using Type.
  intros Hw Hs Hp Hd Ht Hr Hdu Ho [H1 H2 H3]. split; [done|..]; rewrite ?Hp, ?Hd, ?Ht, ?Hr, ?Hdu, ?Ho; auto.
Qed.

Lemma inv_takeUpload i s : inv s → inv (takeUpload i s).
Proof using Type.
  apply inv_shrunk; try done. unfold waiting. simpl. destruct (uploadQueue s); [|done]. by destruct i.
Qed.

Lemma inv_uploadSettled s : inv s → inv (uploadSettled s).
Proof using Type. by apply inv_shrunk. Qed.

Lemma draining_uploadFailed job err s :
  draining (uploadFailed job err s) = draining s ∧ ownDrain (uploadFailed job err s) = ownDrain s.
Proof using Type. unfold uploadFailed, scheduleDrain. by repeat case_match. Qed.

(** Whatever a transfer left, while the drain goes on *)
Lemma inv_putBack job (e : option Err) s :
  draining s = true →
  inv (uploadSettled (match e with None => putBackFirst job s | Some e => uploadFailed job e s end)).
Proof using Type.
  intros Hd. apply inv_draining; [|done]. destruct e as [e|]; [|done].
  exact (eq_trans (proj1 (draining_uploadFailed job e s)) Hd).
Qed.

Lemma inv_drainEnds s : ownDrain s = false → inv (drainEnds s).
Proof using Type.
  intros Ho. unfold drainEnds. set (s1 := refreshUploadStatus _).
  assert (ownDrain s1 = true → draining s1 = true) as Ho1 by (unfold s1; simpl; congruence).
  assert (uploadStatus s1 = statusOf s1) as Hs by done. clearbody s1.
  case_match eqn:Eq; [|case_match; [|by apply inv_scheduleDrain]]; split; try done; [|congruence].
  unfold waiting. by rewrite Eq.
Qed.

Lemma inv_drainFired s : inv s → inv (drainFired s).
Proof using Type.
  unfold drainFired. intros Hs. case_match; [|done]. destruct Hs as [H1 H2 H3].
  split; [by etrans; [exact H1|]; rewrite !statusOf_eq|by auto|done].
Qed.

(** [urgentFirst] only reorders. *)
Lemma urgentFirst_Permutation q : urgentFirst q ≡ₚ q.
Proof using Type.
  unfold urgentFirst. induction q as [|j q IH]; [done|]. rewrite !filter_cons.
  destruct (urgent j); simpl.
  - by rewrite IH.
  - by rewrite <- Permutation_middle, IH.
Qed.

Lemma view_addUrgent ps s : view (fst (addUrgent ps s)) = view s.
Proof using Type.
  unfold addUrgent. apply (foldl_preserves (λ acc, view (fst acc) = view s)); [|done].
  intros [s' added] p _ E. by case_match.
Qed.

Lemma inv_prioritizePaths ps s : inv s → inv (prioritizePaths ps s).
Proof using Type.
  intros Hs. unfold prioritizePaths. case_match; [done|]. pose proof (view_addUrgent ps s) as Ev.
  destruct (addUrgent ps s) as [s1 added]. simpl in Ev. apply (inv_view _ s1) in Hs; [|done].
  set (f := λ job, if bool_decide (jobPath job ∈ urgentPaths s1) then job <| urgent := true |> else job).
  set (s2 := s1 <| uploadQueue := urgentFirst (map f (uploadQueue s1)) |>).
  assert (waiting s2 = waiting s1) as Ew.
  { apply waiting_length. simpl. rewrite urgentFirst_Permutation. apply length_map. }
  assert (view s2 = view s1) as E2 by (unfold view; by rewrite Ew).
  apply (inv_view _ s2) in Hs; [|done].
  match goal with |- inv (scheduleDrain _ ?s3) => assert (view s3 = view s2) as E3 end.
  { apply view_fold. intros s' p. rewrite view_reconcile. by case_match. }
  apply (inv_view _ _ E3) in Hs as [H1 _ H3]. by apply inv_scheduleDrain.
Qed.

Lemma view_unprioritizePaths ps s : view (unprioritizePaths ps s) = view s.
Proof using Type.
  unfold unprioritizePaths. apply view_fold. intros s' p. unfold view. f_equal. f_equal. f_equal.
  apply waiting_length. simpl. induction (uploadQueue s') as [|j q IH]; simpl; [done|].
  case_match; simpl; congruence.
Qed.

Lemma inv_rescheduled s :
  uploadStatus s = statusOf s → (ownDrain s = true → draining s = true) →
  inv (match uploadQueue s with [] => s | _ => scheduleDrain 0 s end).
Proof using Type.
  intros Hs Ho. case_match eqn:E; [|by apply inv_scheduleDrain]. split; try done. unfold waiting. by rewrite E.
Qed.

Lemma inv_setPaused b s : inv s → inv (setPaused b s).
Proof using Type.
  intros Hi. unfold setPaused. case_match; [done|]. bools. destruct Hi as [H1 H2 H3]. destruct b.
  - split; [by etrans; [exact H1|]; rewrite !statusOf_eq|done|done].
  - eapply inv_view; [apply view_fold; intros; apply view_reconcile|].
    match goal with |- inv (?s' <| deferredReconciles := [] |>) => apply (inv_view s'); [done|] end.
    apply (inv_rescheduled (s <| paused := false |>)); [by etrans; [exact H1|]; rewrite !statusOf_eq|done].
Qed.

Lemma inv_retryNow s : inv s → inv (retryNow s).
Proof using Type.
  intros Hi. unfold retryNow. case_match; [done|]. destruct Hi as [H1 H2 H3].
  eapply inv_view; [apply view_fold; intros; apply view_reconcile|].
  match goal with |- inv (?s' <| downloadFailures := [] |>) => apply (inv_view s'); [done|] end.
  apply (inv_rescheduled (s <| drainTimer := None |>)); [by etrans; [exact H1|]; rewrite !statusOf_eq|done].
Qed.

Lemma inv_destroy s : inv s → inv (destroy s).
Proof using Type. unfold destroy. intros Hi. case_match; [done|]. destruct Hi. by split. Qed.
End steps.

Section runs.
Context {W : Type} `{!Platform W}.
Notation State := (@BinarySync W).
Implicit Types (s : State).

Lemma view_onLocalRenamed p q s : view (onLocalRenamed p q s) = view s.
Proof using Type.
  unfold onLocalRenamed. set (s1 := if (_ && _ : bool) then removedHere q s else s).
  assert (view s1 = view s) as E by (unfold s1; case_match; [apply view_removedHere|done]).
  case_match; [|done]. rewrite view_reconcile. exact E.
Qed.

Lemma view_holdMovedPath p s : view (holdMovedPath p s) = view s.
Proof using Type. unfold holdMovedPath. by case_match. Qed.

Lemma view_stopTrackingPath p s : view (stopTrackingPath p s) = view s.
Proof using Type. unfold stopTrackingPath. by rewrite view_indexDelete. Qed.

Lemma view_onLocalChanged p s : view (onLocalChanged p s) = view s.
Proof using Type. unfold onLocalChanged. case_match; [done|]. by rewrite view_reconcile. Qed.

Lemma view_onLocalDeleted p s : view (onLocalDeleted p s) = view s.
Proof using Type. unfold onLocalDeleted. case_match; [done|]. apply view_removedHere. Qed.

Lemma view_retryFired p s : view (retryFired p s) = view s.
Proof using Type. unfold retryFired. repeat case_match; [|done]. by rewrite view_reconcile. Qed.

Lemma view_deferIntents p live pull s : view (deferIntents p live pull s) = view s.
Proof using Type. unfold deferIntents. rewrite view_deferReconcile. by case_match. Qed.

Lemma view_inAgreement p h s : view (inAgreement p h s) = view s.
Proof using Type. unfold inAgreement. by case_match. Qed.

Lemma inv_move m s : inv s → inv (move m s).
Proof using Type.
  intros Hs. destruct m; cbn [move].
  - by eapply inv_view; [apply view_indexSet|].
  - by eapply inv_view; [apply view_indexDelete|].
  - by eapply inv_view; [apply view_onLocalChanged|].
  - by eapply inv_view; [apply view_onLocalDeleted|].
  - by eapply inv_view; [apply view_onLocalRenamed|].
  - by apply inv_setPaused.
  - by apply inv_destroy.
  - by apply inv_retryNow.
  - by apply inv_prioritizePaths.
  - by eapply inv_view; [apply view_unprioritizePaths|].
  - by eapply inv_view; [apply view_stopTrackingPath|].
  - by eapply inv_view; [apply view_holdMovedPath|].
  - by eapply inv_view; [apply view_releaseMovedPath|].
  - by eapply inv_view; [apply view_reconcile|].
  - case_match; [done|by apply (inv_view s)].
  - by apply (inv_view s).
  - by eapply inv_view; [apply view_retryFired|].
  - by apply (inv_view s).
  - by apply inv_drainFired.
  - by apply (inv_view s).
  - by apply (inv_view s).
  - case_match; [done|by apply inv_queueUpload].
  - by eapply inv_view; [apply view_deferReconcile|].
  - by eapply inv_view; [apply view_publishMeta|].
  - eapply inv_view; [|exact Hs]. etrans; [|apply (view_indexDelete path s)]. done.
  - case_match; [done|by apply inv_draining].
  - case_match; [by apply inv_takeUpload|done].
  - destruct (otherDrain s) eqn:Eo; [|done]. apply andb_true_iff in Eo as [Ed _]. by apply inv_putBack.
  - case_match; [by apply inv_uploadSettled|done].
  - destruct (otherDrain s) eqn:Eo; [|done]. apply andb_true_iff in Eo as [_ Eo%negb_true_iff].
    by apply inv_drainEnds.
Qed.

Lemma own_view s s' : view s' = view s → ownDrain s' = ownDrain s.
Proof using Type. unfold view. congruence. Qed.

Lemma own_scheduleDrain d s : ownDrain (scheduleDrain d s) = ownDrain s.
Proof using Type. unfold scheduleDrain. by case_match. Qed.

Lemma own_reconciles ps s : ownDrain (foldl (λ s p, reconcile p s) s ps) = ownDrain s.
Proof using Type. apply own_view, view_fold. intros. apply view_reconcile. Qed.

Lemma own_prioritizePaths ps s : ownDrain (prioritizePaths ps s) = ownDrain s.
Proof using Type.
  unfold prioritizePaths. case_match; [done|]. pose proof (view_addUrgent ps s) as Ev.
  destruct (addUrgent ps s) as [s1 added]. apply own_view in Ev. simpl in Ev. rewrite own_scheduleDrain, <- Ev. cbv zeta.
  apply (foldl_preserves (λ s', ownDrain s' = ownDrain s1)); [|done]. intros s' p _ <-.
  rewrite (own_view _ _ (view_reconcile _ _)). by case_match.
Qed.

(** Which drain is the program's own is not up to the others. *)
Lemma own_move m s : ownDrain s = true → ownDrain (move m s) = true.
Proof using Type.
  intros Ho. assert (∀ s', view s' = view s → ownDrain s' = true) as Hv by (unfold view; congruence).
  assert (otherDrain s = false) as Hother by (unfold otherDrain; by rewrite Ho, andb_false_r).
  destruct m; cbn [move]; rewrite ?Hother; try done;
    try (apply Hv; first [apply view_indexSet | apply view_indexDelete | apply view_onLocalChanged
      | apply view_onLocalDeleted | apply view_onLocalRenamed | apply view_unprioritizePaths
      | apply view_stopTrackingPath | apply view_holdMovedPath | apply view_releaseMovedPath
      | apply view_reconcile | apply view_retryFired | apply view_deferReconcile | apply view_publishMeta]).
  - unfold setPaused. repeat case_match; try done; rewrite own_reconciles; simpl; by rewrite ?own_scheduleDrain.
  - unfold destroy. by case_match.
  - unfold retryNow. repeat case_match; try done; rewrite own_reconciles; simpl; by rewrite ?own_scheduleDrain.
  - by rewrite own_prioritizePaths.
  - by case_match.
  - unfold drainFired. by case_match.
  - case_match; [done|]. unfold queueUpload, enqueueUpload. by rewrite own_scheduleDrain.
  - by case_match.
Qed.

#[local] Instance stable_inv : Stable inv.
Proof using Type. split; [by intros w s; apply inv_view|exact inv_move]. Qed.

#[local] Instance stable_invOwn : Stable invOwn.
Proof using Type.
  split; [intros w s; by apply invOwn_view|]. intros m s [Hs Ho]. split; [by apply inv_move|by apply own_move].
Qed.

(** ** The programs keep the invariant, or whatever follows from the view *)

Section kept.
Context (I : State → Prop) `{!Stable I} (I_view : ∀ s s', view s' = view s → I s → I s').
Notation keeps := (keeps (Err := Err) I).

Lemma keeps_view f : (∀ s, view (f s) = view s) → keeps (update f).
Proof using I_view. intros Hf. apply keeps_update. intros s. by apply I_view. Qed.

Lemma view_urgent f s : view (s <| urgentPaths ::= f |>) = view s.
Proof using Type. done. Qed.

Lemma keeps_effect e : keeps (effect e).
Proof using I_view. by apply keeps_view. Qed.

Lemma keeps_whileWriting {A} p (m : eff State Err A) : keeps m → keeps (whileWriting p m).
Proof using I_view.
  intros Hm. apply keeps_bind; [by apply keeps_view|]. intros [] s. apply (keeps_finally I I); [done|].
  intros s'. by apply I_view.
Qed.

#[local] Ltac viewed :=
  intros; unfold deferReconcileNow, unlessDestroyed, retryDownloadLater, reconcileIn; repeat case_match;
  rewrite ?view_reconcile, ?view_deferReconcile, ?view_deferIntents, ?view_inAgreement, ?view_publishMeta,
    ?view_publishDelete, ?view_indexSet, ?view_urgent, ?view_publishMeta; done.

(** One step into a program, whatever it branches on *)
#[local] Ltac keep_step :=
  match goal with
  | H : Await.keeps I ?m |- Await.keeps I ?m => exact H
  | H : ∀ _, Await.keeps I _ |- Await.keeps I _ => exact (H _)
  | |- Await.keeps I ?m =>
    lazymatch m with
    | mret _ => apply keeps_ret
    | get _ => apply keeps_get
    | throw _ => apply keeps_throw
    | effect _ => apply keeps_effect
    | call _ => apply keeps_call; apply _
    | pause => apply keeps_pause; apply _
    | await _ => apply keeps_await; [apply _|]
    | update _ => apply keeps_view; solve [viewed]
    | whileWriting _ _ => apply keeps_whileWriting
    | _ ≫= _ => apply keeps_bind; [|intros ?]
    | catch _ _ => apply keeps_catch; [|intros ?]
    | attempt _ => apply keeps_attempt
    | match ?x with _ => _ end => destruct x
    end
  end.
#[local] Ltac keeping := repeat keep_step.

Lemma keeps_limited {A} (m : eff State Err A) : keeps m → keeps (limited m).
Proof using I_view Stable0. intros. unfold limited. keeping. Qed.

Lemma keeps_hashDisk p : keeps (hashDisk p).
Proof using I_view Stable0. unfold hashDisk, hashDiskNow, limited, read, sha256Hex. keeping. Qed.

Lemma keeps_readDisk p : keeps (readDisk p).
Proof using I_view Stable0. unfold readDisk, read. keeping. Qed.

Lemma keeps_ensureParentFolder p : keeps (ensureParentFolder p).
Proof using I_view Stable0.
  unfold ensureParentFolder. assert (∀ parts cur, keeps (ensureFolderParts cur parts)) as H.
  { induction parts as [|part parts IH]; intros cur; simpl; keeping; apply IH. }
  keeping; apply H.
Qed.

Lemma keeps_writeDisk p c : keeps (writeDisk p c).
Proof using I_view Stable0.
  unfold writeDisk. pose proof (keeps_ensureParentFolder p). keeping.
Qed.

Lemma keeps_downloadToDisk p h found : keeps (downloadToDisk p h found).
Proof using I_view Stable0.
  pose proof (keeps_hashDisk p). unfold downloadToDisk, transferToDisk, materialize, retrying, deferring, limited, sha256Hex.
  pose proof (keeps_writeDisk p). keeping; auto.
Qed.

Lemma keeps_deleteLocal p : keeps (deleteLocal p).
Proof using I_view Stable0. unfold deleteLocal, deferring. keeping. Qed.

Lemma keeps_doUpload job : keeps (doUpload job).
Proof using I_view Stable0.
  pose proof (keeps_readDisk (jobPath job)).
  unfold doUpload, publishUpload, unlessStopped, requestAgain, sha256Hex. cbv zeta. keeping.
Qed.

Lemma keeps_restoreEntry p h n : keeps (restoreEntry p h n).
Proof using I_view Stable0. unfold restoreEntry. cbv zeta. keeping. Qed.

Lemma keeps_reconcileAll ps : keeps (reconcileAll ps).
Proof using I_view Stable0.
  unfold reconcileAll, reconcileConcurrently. cbv zeta. keeping.
  intros s. apply (keeps_finally I I); [|intros s'; by apply I_view]. keeping. apply keeps_forEach. intros p. keeping.
Qed.

Lemma keeps_preserve p c source : keeps (preserve p c source).
Proof using I_view Stable0.
  unfold preserve, preserveBinaryConflict, copyDestination.
  assert (∀ d, keeps (ensureParentFolder d)) by exact keeps_ensureParentFolder. keeping.
Qed.

Lemma keeps_conflictStateMatches p l r : keeps (conflictStateMatches p l r).
Proof using I_view Stable0. pose proof (keeps_hashDisk p). unfold conflictStateMatches. keeping. Qed.

(** The steps on the queue that a reconciliation takes *)
Context (I_queue : ∀ p e h n s, I s → I (queueUpload p e h n s)).

Lemma keeps_queueLocalUpload p e h : keeps (queueLocalUpload p e h).
Proof using I_queue I_view Stable0.
  unfold queueLocalUpload. keeping. apply keeps_update. intros s. by apply I_queue.
Qed.

Lemma keeps_keepLocal p l r : keeps (keepLocal p l r).
Proof using I_queue I_view Stable0.
  unfold keepLocal, whileMatching. cbv zeta. pose proof (keeps_conflictStateMatches p l r).
  assert (∀ c, keeps (preserve p c SourceRemote)) by (intros; apply keeps_preserve).
  assert (∀ h, keeps (queueLocalUpload p r h)) by (intros; apply keeps_queueLocalUpload). keeping.
Qed.

Lemma keeps_keepRemote p l r : keeps (keepRemote p l r).
Proof using I_queue I_view Stable0.
  unfold keepRemote, whileMatching, sha256Hex. cbv zeta. pose proof (keeps_conflictStateMatches p l r).
  assert (∀ c, keeps (preserve p c SourceLocal)) by (intros; apply keeps_preserve).
  assert (∀ h, keeps (downloadToDisk p h (Some l))) by (intros; apply keeps_downloadToDisk).
  pose proof (keeps_deleteLocal p). pose proof (keeps_readDisk p). keeping.
Qed.

Lemma keeps_conflictLoop n p : keeps (conflictLoop n p).
Proof using I_queue I_view Stable0.
  pose proof (keeps_hashDisk p). induction n as [|n IH]; cbn [conflictLoop]; unfold deferring, applyConflictChoice.
  - keeping.
  - assert (∀ l r, keeps (keepLocal p l r)) as Hl by exact (keeps_keepLocal p).
    assert (∀ l r, keeps (keepRemote p l r)) as Hr by exact (keeps_keepRemote p).
    assert (∀ l r, keeps (conflictStateMatches p l r)) as Hm by exact (keeps_conflictStateMatches p).
    keeping; first [apply Hl|apply Hr|apply Hm].
Qed.

Lemma keeps_resolveConflict p : keeps (resolveConflict p).
Proof using I_queue I_view Stable0.
  unfold resolveConflict. pose proof (keeps_conflictLoop fuel p). keeping.
Qed.

Lemma keeps_reconcileHashed p h live pull : keeps (reconcileHashed p h live pull).
Proof using I_queue I_view Stable0.
  unfold reconcileHashed, localOnly, remoteOnly, bothDiffer. cbv zeta.
  pose proof (keeps_resolveConflict p). pose proof (keeps_deleteLocal p).
  assert (∀ e l, keeps (queueLocalUpload p e l)) as Hq by (intros; apply keeps_queueLocalUpload).
  assert (∀ r e, keeps (downloadToDisk p r e)) as Hd by (intros; apply keeps_downloadToDisk).
  keeping; first [apply Hq|apply Hd].
Qed.

Lemma keeps_reconcileTask p : keeps (reconcileTask p).
Proof using I_queue I_view Stable0.
  assert (keeps (reconcileNow p)) as Hnow.
  { pose proof (keeps_hashDisk p). unfold reconcileNow, takeIntents. cbv zeta.
    assert (∀ h live pull, keeps (reconcileHashed p h live pull)) as Hh by exact (keeps_reconcileHashed p).
    keeping; first [apply Hh|idtac]. }
  assert (∀ n, keeps (reconcileLoop n p)) as Hloop.
  { induction n as [|n IH]; cbn [reconcileLoop]; keeping. }
  unfold reconcileTask. pose proof (Hloop fuel). keeping.
Qed.
End kept.

Lemma nextUpload_length busy now q : length (fst (nextUpload busy now q)) = length q.
Proof using Type.
  induction q as [|j q IH]; cbn [nextUpload]; [done|]. case_match; [done|]. cbv zeta. case_match; [done|].
  destruct (nextUpload busy now q). simpl in *. congruence.
Qed.

Lemma invOwn_scheduleDrain d s : invOwn s → invOwn (scheduleDrain d s).
Proof using Type.
  intros [[H1 _ H3] Ho]. split; [by apply inv_scheduleDrain|]. by rewrite own_scheduleDrain.
Qed.

Lemma invOwn_takeUpload i s : invOwn s → invOwn (takeUpload i s).
Proof using Type. intros [H Ho]. split; [by apply inv_takeUpload|done]. Qed.

Lemma invOwn_uploadSettled s : invOwn s → invOwn (uploadSettled s).
Proof using Type. intros [H Ho]. split; [by apply inv_uploadSettled|done]. Qed.

Lemma invOwn_putBack job (e : option Err) s :
  invOwn s → invOwn (uploadSettled (match e with None => putBackFirst job s | Some e => uploadFailed job e s end)).
Proof using Type.
  intros [[_ _ H3] Ho]. split; [by apply inv_putBack, H3|]. destruct e as [e|]; [|done].
  exact (eq_trans (proj2 (draining_uploadFailed job e s)) Ho).
Qed.

Lemma keeps_drainLoop n : keeps (Err := Err) invOwn (drainLoop n).
Proof using Type.
  induction n as [|n IH]; [apply keeps_throw|]. intros s Hs. cbn [drainLoop]. apply wp_bind, wp_get.
  destruct (uploadQueue s) as [|j q] eqn:Eq; [done|]. case_match; [done|].
  pose proof (nextUpload_length (textBusy (world s)) (vaultNow (world s)) (j :: q)) as El.
  destruct (nextUpload _ _ (j :: q)) as [queue index]. apply wp_bind, wp_update.
  assert (invOwn (s <| uploadQueue := queue |>)) as Hs1.
  { eapply invOwn_view, Hs. unfold view. simpl. f_equal. f_equal. f_equal. apply waiting_length.
    simpl in *. by rewrite Eq. }
  clear El Eq H Hs. revert Hs1. generalize (s <| uploadQueue := queue |>). clear s. intros s Hs.
  destruct (index ≫= _) as [[i job]|]; [|by apply wp_update, invOwn_scheduleDrain].
  apply wp_bind, wp_update, wp_bind.
  eapply wp_mono, keeps_attempt; [|apply keeps_doUpload; [apply _|exact invOwn_view]|by apply invOwn_takeUpload].
  intros [[]|err] s1 Hs1.
  - apply wp_bind, wp_update, IH. by apply invOwn_uploadSettled.
  - apply wp_update. by apply (invOwn_putBack job None).
  - apply wp_update. by apply (invOwn_putBack job (Some err)).
Qed.

Lemma keeps_drain : keeps (Err := Err) inv drain.
Proof using Type.
  intros s Hs. apply wp_bind, wp_update, wp_bind, wp_get. destruct Hs as [H1 H2 H3].
  destruct (draining _ || destroyed _ || paused _) eqn:E.
  - simpl in E. split; [by etrans; [exact H1|]; rewrite !statusOf_eq| |done]. simpl. intros Hw Hp Hd.
    rewrite Hp, Hd, !orb_false_r in E. auto.
  - apply wp_bind, wp_update. apply (keeps_finally invOwn inv); [apply keeps_drainLoop| |].
    + intros s' _. by apply inv_drainEnds.
    + split; [by apply inv_draining|done].
Qed.

Lemma keeps_runTask t : keeps (Err := Err) inv (runTask t).
Proof using Type.
  destruct t; simpl.
  - apply keeps_reconcileTask; [apply _|exact inv_view|exact inv_queueUpload].
  - apply keeps_drain.
  - apply keeps_bind; [|intros; apply keeps_ret]. apply keeps_restoreEntry; [apply _|exact inv_view].
  - apply keeps_reconcileAll; [apply _|exact inv_view].
Qed.

Lemma inv_run xs s : inv s → inv (run s xs).
Proof using Type.
  apply (foldl_preserves (λ s : State, inv s)). intros s' x _ Hs. destruct x as [t|m]; simpl; [|by apply inv_move].
  pose proof (keeps_runTask t s' Hs) as H. unfold wp in H. by destruct (runTask t s') as [s1 [a|e]].
Qed.

Lemma inv_new_upload (w : W) index ls : inv (newBinarySync w index ls).
Proof using Type. by split. Qed.
End runs.

(** C22: Over the whole life of the object, with any programs run, any answers
    of the platform and anything happening while they wait: an upload that is
    queued while sync is neither paused nor destroyed has a drain to come,
    because the timer is set, or has fired, or one is under way that will see
    it; and the status shown is the true one. *)
Theorem uploads_never_stranded {W : Type} `{!Platform W} (w : W) index ls (xs : list (Task + Move)) :
  let s := run (newBinarySync w index ls) xs in
  (uploadQueue s ≠ [] → paused s = false → destroyed s = false →
     is_Some (drainTimer s) ∨ draining s = true ∨ drainDue s = true) ∧
  uploadStatus s = statusOf s.
Proof.
  destruct (inv_run xs _ (inv_new_upload w index ls)) as [H1 H2 _]. split; [|exact H1].
  intros Hq. apply H2. unfold waiting. by destruct (uploadQueue _).
Qed.

(** ** The order of uploads, and their backoff *)

Lemma retryDelay_bounds n : DRAIN_RETRY_MS ≤ retryDelay n ≤ MAX_RETRY_MS.
Proof.
  unfold retryDelay, DRAIN_RETRY_MS, MAX_RETRY_MS.
  assert (1 ≤ 2 ^ Z.max 0 (Z.min (n - 1) 5)); [|lia].
  replace 1 with (2 ^ 0) by done. apply Z.pow_le_mono_r; lia.
Qed.

Lemma retryDelay_mono n k : n ≤ k → retryDelay n ≤ retryDelay k.
Proof.
  intros H. unfold retryDelay, DRAIN_RETRY_MS, MAX_RETRY_MS.
  assert (2 ^ Z.max 0 (Z.min (n - 1) 5) ≤ 2 ^ Z.max 0 (Z.min (k - 1) 5)); [|lia].
  apply Z.pow_le_mono_r; lia.
Qed.

(** A job that may go now *)
Definition mayGo (busy : bool) (now : Z) (job : UploadJob) : bool :=
  urgent job || (jobSize job <? LARGE_FILE_BYTES) || negb busy ||
  (MAX_LARGE_UPLOAD_DEFERRAL_MS <=? now - default now (deferredSince job)).

(** The first job that may go is taken. *)
Lemma nextUpload_first busy now q :
  snd (nextUpload busy now q) = fst <$> list_find (λ j, mayGo busy now j = true) q.
Proof.
  induction q as [|j q IH]; cbn [nextUpload list_find]; [done|].
  destruct (decide (mayGo busy now j = true)) as [Hm|Hm]; unfold mayGo in Hm.
  - destruct (urgent j || (jobSize j <? LARGE_FILE_BYTES) || negb busy); [done|]. cbv zeta. simpl in Hm. by rewrite Hm.
  - apply not_true_is_false in Hm. apply orb_false_iff in Hm as [Hm Hd]. rewrite Hm. cbv zeta. rewrite Hd.
    destruct (nextUpload busy now q) as [q' i]. simpl in *. subst i.
    by destruct (list_find _ q) as [[? ?]|].
Qed.

Module UploadRun.
Definition job (h : string) : UploadJob := mkUpload "a.png" h 1 0 false (Some None) 0 None.

(** A transfer fails after the file was queued again: the path is queued
    twice, the older content last. *)
Example path_queued_twice {W : Type} `{!Platform W} (s : @BinarySync W) :
  uploadQueue s = [job "a"] → paused s = false →
  map jobHash (uploadQueue (uploadFailed (job "a") OtherError (enqueueUpload (job "b") (takeUpload 0 s)))) =
    ["b"; "a"]%string.
Proof.
  intros Hq Hp. unfold uploadFailed, enqueueUpload, takeUpload, scheduleDrain. simpl. rewrite Hq, Hp. simpl.
  repeat case_match; simpl; rewrite ?Hq; done.
Qed.
End UploadRun.
