(* ===== verification/YTypes.v ===== *)
(** The shared types of Yjs, which is third-party, as the structured documents
    use them: a class whose operations are known by their documented
    behaviour, what a shared value reads as in JSON, and an instance.

    Every [new Y.Map()], [new Y.Array()] and [new Y.Text()] of the source is
    put into its parent at once, so a shared value has one parent, and is
    given here by its content: [mchild] and [achild] tell the parent that the
    value it holds at a place was changed in place. *)
From Stdlib Require Import String.
From S2P Require Import Prelude JsMap Json JsonFacts TextDiff.
#[local] Open Scope Z_scope.

(** What a shared map or array holds *)
Inductive YValue (M A T : Type) :=
  | Plain (v : JsonValue)
  | SharedMap (m : M)
  | SharedArray (a : A)
  | SharedText (t : T).
Arguments Plain {M A T} v.
Arguments SharedMap {M A T} m.
Arguments SharedArray {M A T} a.
Arguments SharedText {M A T} t.

Class YTypes (M A T : Type) := {
  ytext :: YText T;
  newText : T;
  newMap : M;
  mget : string → M → option (YValue M A T);
  mkeys : M → list string;
  mset : string → YValue M A T → M → M;
  mchild : string → YValue M A T → M → M;
  mdelete : string → M → M;
  mclient : string → M → option Z;        (* who wrote the entry *)
  newArray : A;
  aelements : A → list (YValue M A T);    (* [toArray()] *)
  ainsert : nat → YValue M A T → A → A;
  achild : nat → YValue M A T → A → A;
  adelete : nat → nat → A → A;
  (* the UTF-16 units of a string *)
  units : string → utf16;
  ofUnits : utf16 → string }.

Class YTypesLaws M A T `{Y : YTypes M A T} : Prop := {
  ytext_laws :: YTextLaws T;
  newText_empty : ytoString newText = [];
  mget_new k : mget k newMap = None;
  mget_set k k' v m : mget k (mset k' v m) = if decide (k = k') then Some v else mget k m;
  mget_child_eq k v m : is_Some (mget k m) → mget k (mchild k v m) = Some v;
  mget_child_ne k k' v m : k ≠ k' → mget k (mchild k' v m) = mget k m;
  mget_delete k k' m : mget k (mdelete k' m) = if decide (k = k') then None else mget k m;
  mkeys_get k m : k ∈ mkeys m ↔ is_Some (mget k m);
  mkeys_nodup m : NoDup (mkeys m);
  mclient_delete k k' m : k ≠ k' → mclient k (mdelete k' m) = mclient k m;
  aelements_new : aelements newArray = [];
  ainsert_spec i v a : (i ≤ length (aelements a))%nat →
    aelements (ainsert i v a) = take i (aelements a) ++ v :: drop i (aelements a);
  achild_spec i v a : (i < length (aelements a))%nat → aelements (achild i v a) = <[i := v]> (aelements a);
  adelete_spec i n a : (i + n ≤ length (aelements a))%nat →
    aelements (adelete i n a) = take i (aelements a) ++ drop (i + n) (aelements a);
  ofUnits_units s : ofUnits (units s) = s }.

Section reads.
Context {M A T : Type} `{Y : YTypes M A T}.
Notation V := (YValue M A T).

(** What a shared value reads as, up to the order of the keys of its maps *)
Inductive Reads : V → JsonValue → Prop :=
  | Reads_plain v w : same v w → Reads (Plain v) w
  | Reads_text t s : ytoString t = units s → Reads (SharedText t) (JString s)
  | Reads_array a l : Forall2 Reads (aelements a) l → Reads (SharedArray a) (JArray l)
  | Reads_map m p fs : jm_wf fs → (∀ k, option_Forall2 Reads (mget k m) (jm_get k fs)) → Reads (SharedMap m) (JObject p fs).

(** [toValue], for values at most [depth] deep *)
Fixpoint toValue (depth : nat) (v : V) : JsonValue :=
  match depth with
  | O => JNull
  | S depth =>
    match v with
    | SharedMap m =>
      JObject ObjectPrototype
        (omap (λ k, pair k <$> (toValue depth <$> mget k m)) (mkeys m))
    | SharedArray a => JArray (toValue depth <$> aelements a)
    | SharedText t => JString (ofUnits (ytoString t))
    | Plain v => v
    end
  end.
End reads.

(** ** [toValue] gives what a value reads as *)

Fixpoint depth (v : JsonValue) : nat :=
  match v with
  | JArray l => S (foldr (λ v n, Nat.max (depth v) n) O l)
  | JObject _ fs => S (foldr (λ f n, Nat.max (depth f.2) n) O fs)
  | _ => O
  end.

Lemma depth_array l v : v ∈ l → (depth v < depth (JArray l))%nat.
Proof. simpl. induction 1; simpl; lia. Qed.

Lemma depth_object p fs k v : (k, v) ∈ fs → (depth v < depth (JObject p fs))%nat.
Proof. simpl. intros Hin. induction fs as [|f fs IH]; [by apply not_elem_of_nil in Hin|].
  apply elem_of_cons in Hin as [<-|Hin]; simpl; [lia|]. specialize (IH Hin). lia.
Qed.

Lemma get_omap {B} (f : string → option B) ks k : NoDup ks →
  jm_get k (omap (λ k, (pair k <$> f k : option (string * B))) ks : list (string * B)) = if decide (k ∈ ks) then f k else None.
Proof.
  induction 1 as [|k1 ks Hk _ IH]; [done|]. csimpl. destruct (f k1) as [b|] eqn:E; csimpl; rewrite IH;
    repeat case_decide; subst; set_solver.
Qed.

Section values.
Context {M A T : Type} `{Y : YTypes M A T} `{L : !YTypesLaws M A T}.

Lemma toValue_reads n v j : Reads v j → (depth j < n)%nat → same (toValue n v) j.
Proof using L.
  revert v j. induction n as [|n IH]; intros v j Hr Hn; [lia|].
  inversion Hr as [? ? Hs|t s E|a l Hl|m p fs Hw Hg]; subst; cbn [toValue].
  - done.
  - rewrite E, ofUnits_units. constructor.
  - constructor. apply Forall2_fmap_l, Forall2_same_length_lookup. split; [by eapply Forall2_length|].
    intros i c w Hc Hw. apply IH; [by eapply Forall2_lookup_lr|].
    pose proof (depth_array l w (list_elem_of_lookup_2 _ _ _ Hw)). lia.
  - constructor. intros k. rewrite get_omap by apply mkeys_nodup. specialize (Hg k).
    destruct (decide (k ∈ mkeys m)) as [Hk|Hk].
    + inversion Hg as [c w Hc E1 E2|E1 E2]; simpl; constructor. apply IH; [done|]. symmetry in E2.
      pose proof (depth_object p fs k w (jm_get_in _ _ _ E2)). lia.
    + rewrite mkeys_get in Hk. inversion Hg as [c w Hc E1 E2|E1 E2]; [|constructor]. rewrite <- E1 in Hk. by destruct Hk.
Qed.
End values.

(** ** Shared values as trees, of one client *)

Inductive Tree :=
  | Leaf (v : JsonValue)
  | TreeMap (entries : list (string * (Z * Tree)))
  | TreeArray (elements : list Tree)
  | TreeText (text : utf16).

Module Trees.
Export TextDiff.Replacing.
Notation TMap := (jsmap string (Z * Tree)).
Notation TValue := (YValue TMap (list Tree) utf16).

Definition seen (t : Tree) : TValue :=
  match t with
  | Leaf v => Plain v
  | TreeMap m => SharedMap m
  | TreeArray l => SharedArray l
  | TreeText u => SharedText u
  end.

Definition kept (v : TValue) : Tree :=
  match v with
  | Plain v => Leaf v
  | SharedMap m => TreeMap m
  | SharedArray l => TreeArray l
  | SharedText u => TreeText u
  end.

Lemma seen_kept v : seen (kept v) = v.
Proof. by destruct v. Qed.

Definition latin (s : string) : utf16 := (λ c, Z.of_nat (Ascii.nat_of_ascii c)) <$> list_ascii_of_string s.
Definition ofLatin (u : utf16) : string := string_of_list_ascii ((λ c, Ascii.ascii_of_nat (Z.to_nat c)) <$> u).

Lemma ofLatin_latin s : ofLatin (latin s) = s.
Proof.
  unfold ofLatin, latin. rewrite <- list_fmap_compose. rewrite <- (string_of_list_ascii_of_string s) at 2. f_equal.
  rewrite <- (list_fmap_id (list_ascii_of_string s)) at 2. apply list_fmap_ext. intros i c _. simpl.
  by rewrite Nat2Z.id, Ascii.ascii_nat_embedding.
Qed.

Section types.
Context (self : Z).

Definition treeTypes : YTypes TMap (list Tree) utf16 := {|
  newText := [];
  newMap := [];
  mget k m := (λ e, seen e.2) <$> jm_get k m;
  mkeys m := remove_dups (jm_keys m);
  mset k v m := jm_set k (self, kept v) m;
  mchild k v m := jm_set k (default self (fst <$> jm_get k m), kept v) m;
  mdelete := jm_delete;
  mclient k m := fst <$> jm_get k m;
  newArray := [];
  aelements l := seen <$> l;
  ainsert i v l := take i l ++ kept v :: drop i l;
  achild i v l := <[i := kept v]> l;
  adelete i n l := take i l ++ drop (i + n) l;
  units := latin;
  ofUnits := ofLatin |}.

Lemma treeTypes_laws : YTypesLaws (Y := treeTypes) TMap (list Tree) utf16.
Proof.
  split; simpl; try done.
  - apply _.
  - intros k k' v m. rewrite jm_get_set. case_decide; [|done]. simpl. by rewrite seen_kept.
  - intros k v m _. rewrite jm_get_set_eq. simpl. by rewrite seen_kept.
  - intros k k' v m Hk. by rewrite jm_get_set_ne.
  - intros k k' m. rewrite jm_get_delete. by case_decide.
  - intros k m. rewrite elem_of_remove_dups, jm_keys_get. split; [intros [x ->]; eauto|].
    intros [x Hx]. destruct (jm_get k m); eauto. done.
  - intros m. apply NoDup_remove_dups.
  - intros k k' m Hk. by rewrite jm_get_delete, decide_False.
  - intros i v l Hi. rewrite length_fmap in Hi. rewrite fmap_app, fmap_cons, fmap_take, fmap_drop. by rewrite seen_kept.
  - intros i v l Hi. by rewrite list_fmap_insert, seen_kept.
  - intros i n l Hi. by rewrite fmap_app, fmap_take, fmap_drop.
  - exact ofLatin_latin.
Qed.
End types.
End Trees.
