(* ===== verification/Reconcile.v ===== *)
(** [src/structured/reconcile.ts], its half that writes into shared types:
    [reconcileInto] makes a shared map read as a JSON value, changing in
    place what has the right type already. *)
From Stdlib Require Import String.
From S2P Require Import Prelude JsMap Json JsonFacts TextDiff YTypes.
#[local] Open Scope Z_scope.

(** [typeof] and [===] of scalars; two objects are never the same one, as
    one of them is just being made. *)
Definition sameScalar (v w : JsonValue) : bool :=
  match v, w with
  | JNull, JNull => true
  | JBool a, JBool b => bool_decide (a = b)
  | JNumber a, JNumber b => bool_decide (a = b)
  | JString a, JString b => bool_decide (a = b)
  | _, _ => false
  end.

Section reconcile.
Context {M A T : Type} `{Y : YTypes M A T}.
Notation V := (YValue M A T).

(** [ReconcileOptions] *)
Context (textKeys : option (list string)).

Notation shouldUseText key value := (shouldUseText (λ s, zlength (units s)) key value textKeys).

(** What [reconcileValue] attached, and what it returns: a value it attached
    and filled, one it changed in place, or a scalar for the caller to store *)
Definition Reconciled : Type := option V * V.

Definition holds (current : option V) (v : JsonValue) : bool :=
  match current with Some (Plain w) => sameScalar w v | _ => false end.

(** [map.set(key, reconciled)] unless it is there already, with [attach] *)
Definition storeInMap (key : string) (r : Reconciled) (m : M) : M :=
  match r with
  | (Some new, child) => mchild key child (mset key new m)
  | (None, Plain v) => if holds (mget key m) v then m else mset key (Plain v) m
  | (None, child) => mchild key child m
  end.

(** The element [i] replaced *)
Definition replaceAt (i : nat) (v : V) (a : A) : A :=
  ainsert i v (if (i <? length (aelements a))%nat then adelete i 1 a else a).

Definition storeInArray (i : nat) (r : Reconciled) (a : A) : A :=
  match r with
  | (Some new, child) => achild i child (replaceAt i new a)
  | (None, Plain v) => if holds (aelements a !! i) v then a else replaceAt i (Plain v) a
  | (None, child) => achild i child a
  end.

Definition truncate (n : nat) (a : A) : A :=
  if (n <? length (aelements a))%nat then adelete n (length (aelements a) - n) a else a.

(** The keys that [value] does not have are deleted. *)
Definition dropKeys (p : proto) (fields : list (string * JsonValue)) (m : M) : M :=
  foldl (λ m key, match jget key p fields with Some _ => m | None => mdelete key m end) m (mkeys m).

Fixpoint reconcileValue (current : option V) (next : JsonValue) (key : option string) {struct next} : Reconciled :=
  match next with
  | JArray value =>
    let '(new, array) := match current with
                         | Some (SharedArray array) => (None, array)
                         | _ => (Some (SharedArray newArray), newArray)
                         end in
    (new, SharedArray
      ((fix go (i : nat) (value : list JsonValue) (array : A) := match value with
        | [] => truncate i array
        | next :: value => go (S i) value (storeInArray i (reconcileValue (aelements array !! i) next None) array)
        end) O value array))
  | JObject p value =>
    let '(new, map) := match current with
                       | Some (SharedMap map) => (None, map)
                       | _ => (Some (SharedMap newMap), newMap)
                       end in
    (new, SharedMap
      ((fix go (value : list (string * JsonValue)) (map : M) := match value with
        | [] => map
        | (key, next) :: value => go value (storeInMap key (reconcileValue (mget key map) next (Some key)) map)
        end) value (dropKeys p value map)))
  | _ =>
    if shouldUseText key next then
      let '(new, text) := match current with
                          | Some (SharedText text) => (None, text)
                          | _ => (Some (SharedText newText), newText)
                          end in
      (new, SharedText (applyStringToYText text (match next with JString s => units s | _ => [] end)))
    else (None, Plain next)
  end.

(** The loops on their own *)
Definition setEntry (m : M) (key : string) (next : JsonValue) : M :=
  storeInMap key (reconcileValue (mget key m) next (Some key)) m.

Fixpoint setEntries (value : list (string * JsonValue)) (m : M) : M :=
  match value with
  | [] => m
  | (key, next) :: value => setEntries value (setEntry m key next)
  end.

Definition reconcileMap (m : M) (p : proto) (value : list (string * JsonValue)) : M :=
  setEntries value (dropKeys p value m).

Fixpoint reconcileFrom (i : nat) (value : list JsonValue) (a : A) : A :=
  match value with
  | [] => truncate i a
  | next :: value => reconcileFrom (S i) value (storeInArray i (reconcileValue (aelements a !! i) next None) a)
  end.

Definition reconcileArray (a : A) (value : list JsonValue) : A := reconcileFrom 0 value a.

Definition reconcileInto (parent : V) (value : JsonValue) : V :=
  match parent with
  | SharedMap m => SharedMap (match value with JObject p fs => reconcileMap m p fs | _ => reconcileMap m ObjectPrototype [] end)
  | SharedArray a => SharedArray (reconcileArray a (match value with JArray l => l | _ => [] end))
  | _ => parent
  end.
End reconcile.

(** ** Afterwards it reads as the value *)

(** No surrogate pairs in its strings *)
Fixpoint noPairs (units : string → utf16) (v : JsonValue) : bool :=
  match v with
  | JString s => forallb (λ c, negb (isHighSurrogate c)) (units s)
  | JArray l => forallb (noPairs units) l
  | JObject _ fs => forallb (λ f, noPairs units f.2) fs
  | _ => true
  end.

Section correct.
Context {M A T : Type} `{Y : YTypes M A T} `{L : !YTypesLaws M A T} (textKeys : option (list string)).
Notation V := (YValue M A T).
Notation reconcileValue := (reconcileValue textKeys).
Notation setEntry := (setEntry textKeys).
Notation setEntries := (setEntries textKeys).
Implicit Types (v w : JsonValue) (fs : list (string * JsonValue)) (m : M) (a : A).

Lemma noPairs_highAt u i : forallb (λ c, negb (isHighSurrogate c)) u = true → highAt u i = false.
Proof using Type.
  intros Hu. unfold highAt. destruct (u !! i) as [c|] eqn:E; [|done].
  apply (proj1 (forallb_forall _ _)) with (x := c) in Hu; [by bools|]. apply list_elem_of_In. by eapply list_elem_of_lookup_2.
Qed.

(** A shared value that reads as JSON a file may have, without surrogate
    pairs, which the source does not treat with care *)
Definition readable (c : V) : Prop := ∃ v, Reads c v ∧ plain v = true ∧ noPairs units v = true.

Lemma readable_map m : readable (SharedMap m) →
  ∀ k c, mget k m = Some c → readable c ∧ k ∉ inherited.
Proof using Type.
  intros (v & Hr & Hp & Hn) k c Hk. inversion Hr as [| | |? p fs Hw Hg]; subst. specialize (Hg k). rewrite Hk in Hg.
  inversion Hg as [? w Hc E1 E2|]; subst. symmetry in E2. split; [|by eapply plain_key].
  exists w. split; [done|]. split; [by eapply plain_get|]. apply jm_get_in in E2.
  by apply (proj1 (forallb_forall _ _) Hn (k, w)), list_elem_of_In.
Qed.

Lemma readable_array a : readable (SharedArray a) → Forall readable (aelements a).
Proof using Type.
  intros (v & Hr & Hp & Hn). inversion Hr as [| |? l Hl|]; subst. apply plain_array in Hp. simpl in Hn.
  rewrite forallb_forall in Hn. apply Forall_forall. intros c Hc.
  apply list_elem_of_lookup in Hc as [i Hi]. destruct (Forall2_lookup_l _ _ _ _ _ Hl Hi) as (w & Hw & Hcw).
  apply list_elem_of_lookup_2 in Hw. exists w. split; [done|]. split; [by apply (proj1 (Forall_forall _ _) Hp)|].
  by apply Hn, list_elem_of_In.
Qed.

(** What [reconcileValue] may return for [next] *)
Definition reconciled (current : option V) next (r : Reconciled) : Prop :=
  match r with
  | (Some _, child) => Reads child next
  | (None, Plain v) => v = next
  | (None, child) => Reads child next ∧ is_Some current
  end.

Lemma sameScalar_eq v w : sameScalar v w = true → v = w.
Proof using Type. by destruct v, w; simpl; intros ?; bools; subst. Qed.

(** A child changed in place *)
Lemma child_get k c m next : is_Some (mget k m) → Reads c next →
  (∃ c', mget k (mchild k c m) = Some c' ∧ Reads c' next) ∧ ∀ k', k' ≠ k → mget k' (mchild k c m) = mget k' m.
Proof using L.
  intros Hs Hr. split; [exists c; by rewrite mget_child_eq|]. intros k' Hk. by rewrite mget_child_ne.
Qed.

Lemma storeInMap_get k r m next : reconciled (mget k m) next r →
  (∃ c, mget k (storeInMap k r m) = Some c ∧ Reads c next) ∧
  ∀ k', k' ≠ k → mget k' (storeInMap k r m) = mget k' m.
Proof using L.
  intros Hr. destruct r as [[new|] child]; simpl in *.
  - assert (is_Some (mget k (mset k new m))) as Hs by (rewrite mget_set, decide_True; eauto).
    destruct (child_get k child (mset k new m) next Hs Hr) as [Hk Ho]. split; [done|].
    intros k' Hk'. by rewrite Ho, mget_set, decide_False.
  - destruct child as [v|m'|a'|t'].
    + subst v. destruct (holds (mget k m) next) eqn:E.
      * split; [|done]. unfold holds in E. destruct (mget k m) as [[w| | |]|]; try done.
        apply sameScalar_eq in E as ->. eexists. by split; [|constructor].
      * split; [exists (Plain next); by rewrite mget_set, decide_True; split; [|constructor]|].
        intros k' Hk. by rewrite mget_set, decide_False.
    + destruct Hr as [Hr Hs]. by apply child_get.
    + destruct Hr as [Hr Hs]. by apply child_get.
    + destruct Hr as [Hr Hs]. by apply child_get.
Qed.

Lemma replaceAt_elements i c a : (i ≤ length (aelements a))%nat →
  aelements (replaceAt i c a) = take i (aelements a) ++ c :: drop (S i) (aelements a).
Proof using L.
  intros Hi. unfold replaceAt. destruct (Nat.ltb_spec i (length (aelements a))).
  - assert (length (take i (aelements a)) = i) as Hl by (rewrite length_take; lia).
    rewrite ainsert_spec; rewrite adelete_spec by lia.
    + by rewrite take_app_length', drop_app_length', Nat.add_1_r.
    + rewrite length_app, length_drop. lia.
  - by rewrite ainsert_spec, !drop_ge by lia.
Qed.

(** One more element is as it is to be, those after it are as they were. *)
Lemma storeInArray_elements i r a next :
  (i ≤ length (aelements a))%nat → reconciled (aelements a !! i) next r →
  ∃ c, Reads c next ∧ aelements (storeInArray i r a) = take i (aelements a) ++ c :: drop (S i) (aelements a).
Proof using L.
  intros Hi Hr.
  assert (∀ c, is_Some (aelements a !! i) → Reads c next →
    ∃ c', Reads c' next ∧ aelements (achild i c a) = take i (aelements a) ++ c' :: drop (S i) (aelements a)) as Hchild.
  { intros c [x Hx] Hc. exists c. split; [done|]. pose proof (lookup_lt_Some _ _ _ Hx).
    by rewrite achild_spec, insert_take_drop. }
  destruct r as [[new|] child]; simpl in *.
  - exists child. split; [done|].
    assert (length (take i (aelements a)) = i) as Hl by (rewrite length_take; lia).
    rewrite achild_spec, replaceAt_elements by (rewrite ?replaceAt_elements, ?length_app by done; simpl; lia).
    rewrite insert_app_r_alt by lia. by rewrite Hl, Nat.sub_diag.
  - destruct child as [v|m|a'|t]; try by (destruct Hr; apply Hchild).
    subst v. destruct (holds (aelements a !! i) next) eqn:E.
    + unfold holds in E. destruct (aelements a !! i) as [[w| | |]|] eqn:Ei; try done.
      apply sameScalar_eq in E as ->. exists (Plain next). split; [by constructor|]. by rewrite take_drop_middle.
    + exists (Plain next). split; [by constructor|]. by apply replaceAt_elements.
Qed.

Lemma truncate_elements n a : (n ≤ length (aelements a))%nat → aelements (truncate n a) = take n (aelements a).
Proof using L.
  intros Hn. unfold truncate. destruct (Nat.ltb_spec n (length (aelements a))); [|by rewrite take_ge by lia].
  rewrite adelete_spec by lia. rewrite drop_ge, app_nil_r by lia. done.
Qed.

Lemma reconcileFrom_reads value : Forall (λ next, ∀ current, (∀ c, current = Some c → readable c) →
    reconciled current next (reconcileValue current next None)) value →
  ∀ i a, (i ≤ length (aelements a))%nat → Forall readable (drop i (aelements a)) →
  ∃ l, Forall2 Reads l value ∧ aelements (reconcileFrom textKeys i value a) = take i (aelements a) ++ l.
Proof using L.
  induction 1 as [|next value Hn _ IH]; intros i a Hi Ha; cbn [reconcileFrom].
  { exists []. by rewrite truncate_elements, app_nil_r. }
  set (r := reconcileValue _ _ _). assert (reconciled (aelements a !! i) next r) as Hr.
  { apply Hn. intros c Hc. apply (proj1 (Forall_forall _ _) Ha). apply list_elem_of_lookup. exists O.
    by rewrite lookup_drop, Nat.add_0_r. }
  destruct (storeInArray_elements i r a next Hi Hr) as (c & Hc & E).
  assert (length (take i (aelements a)) = i) as Hl by (rewrite length_take; lia).
  destruct (IH (S i) (storeInArray i r a)) as (l & Hl2 & El).
  - rewrite E, length_app, Hl. simpl. lia.
  - rewrite E, drop_app_ge by lia. rewrite Hl. replace (S i - i)%nat with 1%nat by lia. simpl.
    rewrite drop_0. eapply Forall_drop in Ha. rewrite drop_drop in Ha. by rewrite Nat.add_1_r in Ha.
  - exists (c :: l). split; [by constructor|]. rewrite El, E, take_app_ge by lia. rewrite Hl.
    replace (S i - i)%nat with 1%nat by lia. simpl. by rewrite <- (assoc_L (++)).
Qed.

Lemma reconcileArray_reads value a : Forall (λ next, ∀ current, (∀ c, current = Some c → readable c) →
    reconciled current next (reconcileValue current next None)) value →
  Forall readable (aelements a) → Reads (SharedArray (reconcileArray textKeys a value)) (JArray value).
Proof using L.
  intros Hv Ha. destruct (reconcileFrom_reads value Hv 0 a) as (l & Hl & E); [lia|done|].
  constructor. unfold reconcileArray. by rewrite E.
Qed.

Lemma dropKeys_get p fs m : (∀ k c, mget k m = Some c → k ∉ inherited) →
  ∀ k, mget k (dropKeys p fs m) = if decide (is_Some (jm_get k fs)) then mget k m else None.
Proof using L.
  intros Hi k. unfold dropKeys.
  assert (∀ ks m',
    let r := foldl (λ m key, match jget key p fs with Some _ => m | None => mdelete key m end) m' ks in
    mget k r = if decide (k ∈ ks ∧ jget k p fs = None) then None else mget k m') as Hf.
  { induction ks as [|k1 ks IH]; intros m'; cbn [foldl]; cbv zeta.
    - case_decide as Hd; [|done]. by destruct Hd as [[]%not_elem_of_nil _].
    - rewrite IH. destruct (jget k1 p fs) eqn:E1; [|rewrite mget_delete]; repeat case_decide; set_solver. }
  rewrite Hf. destruct (mget k m) as [c|] eqn:E.
  - rewrite (jget_own k p fs) by by eapply Hi. assert (k ∈ mkeys m) by by (apply mkeys_get; rewrite E).
    destruct (jm_get k fs); repeat case_decide; naive_solver.
  - repeat case_decide; done.
Qed.

Lemma setEntries_get fs : jm_wf fs →
  Forall (λ f, ∀ current key, (∀ c, current = Some c → readable c) → reconciled current f.2 (reconcileValue current f.2 key)) fs →
  ∀ m, (∀ k c, mget k m = Some c → readable c) →
  ∀ k, match jm_get k fs with
       | Some v => ∃ c, mget k (setEntries fs m) = Some c ∧ Reads c v
       | None => mget k (setEntries fs m) = mget k m
       end.
Proof using L.
  intros Hw Hf. assert (∀ m, (∀ k c, k ∈ jm_keys fs → mget k m = Some c → readable c) →
    ∀ k, match jm_get k fs with
         | Some v => ∃ c, mget k (setEntries fs m) = Some c ∧ Reads c v
         | None => mget k (setEntries fs m) = mget k m
         end) as Hall; [|intros m Hm; apply Hall; intros k c _; apply Hm].
  induction Hf as [|[k1 v1] fs Hv _ IH]; intros m Hm k; [done|]. simpl in Hv.
  unfold jm_wf, jm_keys in Hw. simpl in Hw. apply NoDup_cons in Hw as [Hk1 Hw].
  destruct (storeInMap_get k1 (reconcileValue (mget k1 m) v1 (Some k1)) m v1) as [(c & Hc & Hr) Ho].
  { apply Hv. intros c. apply Hm. left. }
  specialize (IH Hw (setEntry m k1 v1)). cbn [Reconcile.setEntries].
  assert (∀ k, match jm_get k fs with
     | Some v => ∃ c, mget k (setEntries fs (setEntry m k1 v1)) = Some c ∧ Reads c v
     | None => mget k (setEntries fs (setEntry m k1 v1)) = mget k (setEntry m k1 v1) end) as IH'.
  { apply IH. intros k' c' Hk' Hc'. apply (Hm k' c'); [by right|]. rewrite Ho in Hc' by by intros ->. done. }
  specialize (IH' k). cbn [jm_get]. case_decide as Hd.
  - subst k1. destruct (jm_get k fs) as [v|] eqn:E; [|rewrite IH'; by exists c].
    exfalso. apply Hk1. apply (jm_keys_get k fs). by rewrite E.
  - destruct (jm_get k fs); [done|]. rewrite IH'. by apply Ho.
Qed.

Lemma reconcileMap_reads p fs m : plain (JObject p fs) = true →
  Forall (λ f, ∀ current key, (∀ c, current = Some c → readable c) → reconciled current f.2 (reconcileValue current f.2 key)) fs →
  (∀ k c, mget k m = Some c → readable c ∧ k ∉ inherited) →
  Reads (SharedMap (reconcileMap textKeys m p fs)) (JObject p fs).
Proof using L.
  intros Hp Hf Hm. apply plain_object in Hp as Hw. destruct Hw as [Hw _]. constructor; [done|]. intros k.
  assert (∀ k c, mget k (dropKeys p fs m) = Some c → readable c) as Hd.
  { intros k' c. rewrite dropKeys_get by (intros; by eapply Hm). case_decide; [|done]. intros E. by apply (Hm k' c). }
  pose proof (setEntries_get fs Hw Hf _ Hd k) as Hk. unfold reconcileMap.
  destruct (jm_get k fs) as [v|] eqn:E.
  - destruct Hk as (c & -> & Hc). by constructor.
  - rewrite Hk, dropKeys_get by (intros; by eapply Hm). rewrite E, decide_False; [constructor|]. by intros [? ?].
Qed.

Lemma text_reads t s : (∀ i, highAt (ytoString t) i = false) →
  Reads (SharedText (applyStringToYText t (units s))) (JString s).
Proof using L. intros Ht. constructor. pose proof (ytext_laws (M := M) (A := A) (T := T)). by apply applyStringToYText_correct. Qed.

Lemma readable_text t : readable (SharedText t) → ∀ i, highAt (ytoString t) i = false.
Proof using Type.
  intros (v & Hr & Hp & Hn) i. inversion Hr as [|? s E| |]; subst. rewrite E. by apply noPairs_highAt.
Qed.

Lemma new_entries k c : mget k newMap = Some c → readable c ∧ k ∉ inherited.
Proof using L. by rewrite mget_new. Qed.

Lemma new_elements : Forall readable (aelements newArray).
Proof using L. by rewrite aelements_new. Qed.

(** One value reconciled, whatever was there *)
Lemma reconcileValue_reads next : plain next = true → ∀ current key,
  (∀ c, current = Some c → readable c) → reconciled current next (reconcileValue current next key).
Proof using L.
  induction next as [| | |s|l IH|p fs IH|] using json_ind'; intros Hp current key Hc; try done.
  - cbn [Reconcile.reconcileValue]. case_match; [|done]. destruct current as [[| | |t]|]; cbn [reconciled]; try (apply text_reads;
      intros i; by rewrite newText_empty). split; [|done]. by apply text_reads, readable_text, Hc.
  - apply plain_array in Hp. assert (Forall (λ next, ∀ current, (∀ c, current = Some c → readable c) →
      reconciled current next (reconcileValue current next None)) l) as Hl.
    { apply Forall_forall. intros v Hv current' Hc'. apply (proj1 (Forall_forall _ _) IH v Hv); [|done].
      by apply (proj1 (Forall_forall _ _) Hp). }
    destruct current as [[| |a|]|]; try exact (reconcileArray_reads l newArray Hl new_elements).
    exact (conj (reconcileArray_reads l a Hl (readable_array a (Hc _ eq_refl))) (mk_is_Some _ _ eq_refl)).
  - apply plain_object in Hp as Hs. assert (Forall (λ f, ∀ current key, (∀ c, current = Some c → readable c) →
      reconciled current f.2 (reconcileValue current f.2 key)) fs) as Hf.
    { apply Forall_forall. intros f Hf current' key' Hc'. apply (proj1 (Forall_forall _ _) IH f Hf); [|done].
      by apply (proj1 (Forall_forall _ _) (proj2 (proj2 Hs))). }
    destruct current as [[|m| |]|]; try exact (reconcileMap_reads p fs newMap Hp Hf new_entries).
    exact (conj (reconcileMap_reads p fs m Hp Hf (readable_map m (Hc _ eq_refl))) (mk_is_Some _ _ eq_refl)).
Qed.

(** The value has the parent's type, which [reconcileInto] cannot change. *)
Definition fits (parent : V) (value : JsonValue) : bool :=
  match parent, value with SharedMap _, JObject _ _ | SharedArray _, JArray _ => true | _, _ => false end.

Lemma values_reconciled {B} (f : B → JsonValue) (l : list B) : Forall (λ x, plain (f x) = true) l →
  Forall (λ x, ∀ current key, (∀ c, current = Some c → readable c) →
    reconciled current (f x) (reconcileValue current (f x) key)) l.
Proof using L. intros H. eapply Forall_impl; [exact H|]. intros x Hx current key Hc. by apply reconcileValue_reads. Qed.

End correct.

(** ** A value written over another *)

Module ReconcileRun.
Import Trees.
#[local] Instance types : YTypes TMap (list Tree) utf16 := treeTypes 7.
#[local] Instance types_laws : YTypesLaws TMap (list Tree) utf16 := treeTypes_laws 7.

(** A text, a list and a number; the list becomes an object, the number goes. *)
Definition old : TMap :=
  [("text", (7, TreeText (latin "one"))); ("a", (7, TreeArray [Leaf (JBool true)])); ("n", (7, Leaf JNull))]%string.
Definition next : JsonValue :=
  JObject ObjectPrototype [("a", JObject ObjectPrototype [("label", JString "x")]); ("text", JString "two")]%string.

Lemma old_readable : readable (SharedMap old : TValue).
Proof.
  exists (JObject ObjectPrototype [("text", JString "one"); ("a", JArray [JBool true]); ("n", JNull)]%string).
  split; [|by split]. constructor; [by apply (bool_decide_unpack _)|]. intros k. cbn.
  repeat case_decide; repeat constructor.
Qed.

End ReconcileRun.
