(* ===== verification/Canvas.v ===== *)
(** [src/structured/canvas.ts] and [src/structured/canvasOperations.ts]: a
    canvas file, the shared types it is synced in, the operations one canvas
    comes from another by, and the tombstones that keep a stale snapshot from
    bringing deleted items back.

    The shared canvas is the map [root] of Yjs ([YTypes]); JSON text is a
    parameter, as the runtime provides it. *)
From Stdlib Require Import String Ascii.
From S2P Require Import Prelude JsString JsMap Json JsonFacts TextDiff YTypes Reconcile.
From Stdlib Require Import QArith.Qcanon.
#[local] Open Scope string_scope.
#[local] Open Scope list_scope.
#[local] Open Scope Z_scope.

(** An object, as a record: its prototype and its own properties *)
Definition Fields : Type := proto * list (string * JsonValue).
Definition literal (fs : list (string * JsonValue)) : Fields := (ObjectPrototype, fs).
Definition object (o : Fields) : JsonValue := JObject o.1 o.2.

(** [key in o], [o[key]] *)
Definition prop (key : string) (o : Fields) : option JsonValue := jget key o.1 o.2.
Definition ownKeys (o : Fields) : list string := jm_keys o.2.

(** [asRecord], [isObject] *)
Definition asRecord (v : option JsonValue) : option Fields :=
  match v with Some (JObject p fs) => Some (p, fs) | _ => None end.

Definition asArray (v : option JsonValue) : option (list JsonValue) :=
  match v with Some (JArray l) => Some l | _ => None end.

Definition asString (v : JsonValue) : option string := match v with JString s => Some s | _ => None end.

Record StructuredCanvas := mkCanvas {
  nodes : Fields;
  edges : Fields;
  nodeOrder : list JsonValue;
  edgeOrder : list JsonValue }.

Definition newline : string := String "010"%char EmptyString.

(** [JSON.parse], and [JSON.stringify] with its indentation; a value written
    reads back with ordinary objects. *)
Class JsonText := {
  parseJson : string → throws () JsonValue;
  stringify : nat → JsonValue → string }.

Fixpoint normal (v : JsonValue) : JsonValue :=
  match v with
  | JArray l => JArray (map normal l)
  | JObject _ fs => JObject ObjectPrototype (map (λ f, (f.1, normal f.2)) fs)
  | _ => v
  end.

Class JsonTextLaws `{JsonText} : Prop := {
  parse_stringify n v : plain v = true → parseJson (stringify n v ++ newline) = Returns (normal v);
  parse_stringify_flat v : plain v = true → parseJson (stringify 0 v) = Returns (normal v);
  stringify_not_blank n v : trim (stringify n v ++ newline) ≠ ""%string ∧ trim (stringify n v) ≠ ""%string;
  stringify_normal n v : stringify n (normal v) = stringify n v }.

(** ** Canvas files *)

Section text.
Context `{JsonText}.

(** The items with an id, by their ids, and the ids in order *)
Definition collect (items : list JsonValue) : list (string * JsonValue) * list JsonValue :=
  foldl (λ '(m, order) item,
    match asRecord (Some item) ≫= λ o, prop "id" o ≫= asString with
    | Some id => (jm_set id item m, order ++ [JString id])
    | None => (m, order)
    end) ([], []) items.

Definition canvasOf (data : JsonValue) : throws () StructuredCanvas :=
  match data with
  | JNull => Throws ()
  | _ =>
    let member key := default [] (asArray (asRecord (Some data) ≫= prop key)) in
    let '(nodes, nodeOrder) := collect (member "nodes"%string) in
    let '(edges, edgeOrder) := collect (member "edges"%string) in
    Returns (mkCanvas (literal nodes) (literal edges) nodeOrder edgeOrder)
  end.

Definition parseCanvas (text : string) : throws () StructuredCanvas :=
  if String.eqb (trim text) "" then canvasOf (JObject ObjectPrototype [])
  else data ← parseJson text; canvasOf data.

Definition asValue (c : StructuredCanvas) : JsonValue :=
  JObject ObjectPrototype
    [("nodes", object (nodes c)); ("edges", object (edges c));
     ("nodeOrder", JArray (nodeOrder c)); ("edgeOrder", JArray (edgeOrder c))]%string.

(** The ids that have an item, once each *)
Definition uniqueCanvasOrder (order : list string) (items : Fields) : list string :=
  foldl (λ result id, if bool_decide (is_Some (prop id items)) && negb (js_mem id result) then result ++ [id] else result)
    [] (order ++ ownKeys items).

Definition ordered (order : option JsonValue) (items : option JsonValue) : list JsonValue :=
  let items := default (literal []) (asRecord items) in
  let order := match asArray order with Some l => omap asString l | None => ownKeys items end in
  omap (λ id, prop id items ≫= λ v, if isRecord v then Some v else None) (uniqueCanvasOrder order items).

Definition fileValue (value : JsonValue) : JsonValue :=
  let root := default (literal []) (asRecord (Some value)) in
  JObject ObjectPrototype
    [("nodes", JArray (ordered (prop "nodeOrder" root) (prop "nodes" root)));
     ("edges", JArray (ordered (prop "edgeOrder" root) (prop "edges" root)))]%string.

Definition serializeCanvas (value : JsonValue) : string := stringify 2 (fileValue value) ++ newline.

Definition isStructuredCanvas (value : JsonValue) : option StructuredCanvas :=
  root ← asRecord (Some value);
  nodes ← asRecord (prop "nodes" root);
  edges ← asRecord (prop "edges" root);
  nodeOrder ← asArray (prop "nodeOrder" root);
  edgeOrder ← asArray (prop "edgeOrder" root);
  Some (mkCanvas nodes edges nodeOrder edgeOrder).

Definition normalizeCanvas (data : option JsonValue) : throws () StructuredCanvas :=
  parseCanvas (stringify 0 (match data with Some JNull | None => JObject ObjectPrototype [] | Some v => v end)).
End text.

(** ** Differences *)

(** [===] *)
Definition identical (v w : JsonValue) : bool :=
  match v, w with JBuiltin a, JBuiltin b => bool_decide (a = b) | _, _ => sameScalar v w end.

(** [Object.keys(o).sort()] *)
Definition sortedKeys (o : Fields) : list string := merge_sort String.le (ownKeys o).

(** [equalJson]; the members are compared in the order of [left], to which
    the answer does not attend. *)
Fixpoint equalJson (left right : JsonValue) {struct left} : bool :=
  identical left right ||
  match left, right with
  | JArray xs, JArray ys =>
    (zlength xs =? zlength ys) &&
    (fix every xs ys := match xs, ys with
       | x :: xs', y :: ys' => equalJson x y && every xs' ys'
       | [], _ => true
       | _ :: _, [] => false
       end) xs ys
  | JObject p fs, JObject q gs =>
    bool_decide (sortedKeys (p, fs) = sortedKeys (q, gs)) &&
    (fix every fs := match fs with
       | [] => true
       | (key, v) :: fs' => match jm_get key gs with Some w => equalJson v w | None => false end && every fs'
       end) fs
  | _, _ => false
  end.

(** [cloneJson]: [JSON.stringify] of a function gives nothing to parse. *)
Definition cloneJson (v : JsonValue) : throws () JsonValue :=
  match v with JBuiltin _ => Throws () | _ => Returns (normal v) end.

Record CanvasFieldPatch := mkPatch { patchSet : list (string * JsonValue); patchRemove : list string }.

Inductive CanvasOperation :=
  | NodeCreate (node : Fields)
  | NodePatch (id : string) (patch : CanvasFieldPatch)
  | NodeDelete (id : string)
  | NodeRestore (node : Fields)
  | EdgeCreate (edge : Fields)
  | EdgePatch (id : string) (patch : CanvasFieldPatch)
  | EdgeDelete (id : string)
  | EdgeRestore (edge : Fields)
  | NodeOrder (order : list JsonValue)
  | EdgeOrder (order : list JsonValue).

Inductive ItemKind := Node | Edge.
Definition createOp (k : ItemKind) (o : Fields) := match k with Node => NodeCreate o | Edge => EdgeCreate o end.
Definition patchOp (k : ItemKind) (id : string) (p : CanvasFieldPatch) :=
  match k with Node => NodePatch id p | Edge => EdgePatch id p end.
Definition deleteOp (k : ItemKind) (id : string) := match k with Node => NodeDelete id | Edge => EdgeDelete id end.

(** One key of [diffFields] *)
Definition diffField (previous next : Fields) (patch : CanvasFieldPatch) (key : string) : throws () CanvasFieldPatch :=
  if String.eqb key "id" then Returns patch
  else match prop key next with
       | None => Returns (mkPatch (patchSet patch) (patchRemove patch ++ [key]))
       | Some w =>
         if match prop key previous with Some v => equalJson v w | None => false end then Returns patch
         else v ← cloneJson w; Returns (mkPatch (jm_set key v (patchSet patch)) (patchRemove patch))
       end.

Definition foldThrows {E A B} (f : A → B → throws E A) (a : A) (l : list B) : throws E A :=
  foldl (λ r b, a ← r; f a b) (Returns a) l.

Definition diffFields (previous next : Fields) : throws () CanvasFieldPatch :=
  foldThrows (diffField previous next) (mkPatch [] [])
    (merge_sort String.le (foldl (λ s k, js_add k s) [] (ownKeys previous ++ ownKeys next))).

(** One id of [next] *)
Definition diffItem (k : ItemKind) (previous next : Fields) (operations : list CanvasOperation) (id : string) :
    throws () (list CanvasOperation) :=
  match asRecord (prop id next) with
  | None => Returns operations
  | Some nextItem =>
    match asRecord (prop id previous) with
    | None =>
      item ← cloneJson (object nextItem);
      Returns (operations ++ [createOp k (default nextItem (asRecord (Some item)))])
    | Some previousItem =>
      patch ← diffFields previousItem nextItem;
      Returns (match patchSet patch, patchRemove patch with
               | [], [] => operations
               | _, _ => operations ++ [patchOp k id patch]
               end)
    end
  end.

Definition diffItems (k : ItemKind) (previous next : Fields) : throws () (list CanvasOperation) :=
  foldThrows (diffItem k previous next)
    (map (deleteOp k) (filter (λ id, prop id next = None) (sortedKeys previous))) (sortedKeys next).

Definition diffCanvas (previous next : StructuredCanvas) : throws () (list CanvasOperation) :=
  onNodes ← diffItems Node (nodes previous) (nodes next);
  onEdges ← diffItems Edge (edges previous) (edges next);
  Returns (onNodes ++ onEdges ++
    (if equalJson (JArray (nodeOrder previous)) (JArray (nodeOrder next)) then [] else [NodeOrder (nodeOrder next)]) ++
    (if equalJson (JArray (edgeOrder previous)) (JArray (edgeOrder next)) then [] else [EdgeOrder (edgeOrder next)])).

(** ** The shared canvas *)

Section shared.
Context {M A T : Type} `{Y : YTypes M A T}.
Notation V := (YValue M A T).

Definition ensureMap (root : M) (key : string) : M * M :=
  match mget key root with
  | Some (SharedMap m) => (root, m)
  | _ => (mset key (SharedMap newMap) root, newMap)
  end.

Definition ensureArray (root : M) (key : string) : M * A :=
  match mget key root with
  | Some (SharedArray a) => (root, a)
  | _ => (mset key (SharedArray newArray) root, newArray)
  end.

Definition setMap (key : string) (m : M) : M → M := mchild key (SharedMap m).
Definition setArray (key : string) (a : A) : M → M := mchild key (SharedArray a).

(** A client's id, as tombstones have it *)
Definition number (clientID : Z) : JsonValue := JNumber (Q2Qc (QArith_base.inject_Z clientID)).

(** [tombstones.get(id)], as the client it is of *)
Definition isOf (clientID : Z) (tombstone : V) : bool :=
  match tombstone with Plain v => sameScalar v (number clientID) | _ => false end.

Definition isString (v : V) (s : string) : bool :=
  match v with Plain w => sameScalar w (JString s) | _ => false end.

Definition strings (l : list V) : list string := omap (λ v, match v with Plain (JString s) => Some s | _ => None end) l.

(** What a value in an order is to [reconcileArray]; orders hold strings, and
    the last step of [applyCanvasOperations] drops all else. *)
Definition inOrder (v : V) : JsonValue := match v with Plain v => v | _ => JNull end.

Definition validOrder (order : list JsonValue) (items : M) : list string :=
  let result := foldl (λ result id,
    if bool_decide (is_Some (mget id items)) && negb (js_mem id result) then result ++ [id] else result) []
    (omap asString order) in
  result ++ filter (λ id, id ∉ result) (merge_sort String.le (mkeys items)).

Definition reconcileOrder (order : A) (ids : list JsonValue) : A := reconcileArray None order ids.

Definition canonicalizeOrder (order : A) (items : M) : A * bool :=
  let current := aelements order in
  let next := validOrder (JString <$> strings current) items in
  if bool_decide (length current = length next) && forallb id (zip_with isString current next) then (order, false)
  else (reconcileOrder order (JString <$> next), true).

Definition canonicalizeIn (orderKey itemsKey : string) (root : M) : M * bool :=
  match mget itemsKey root, mget orderKey root with
  | Some (SharedMap items), Some (SharedArray order) =>
    let '(order, changed) := canonicalizeOrder order items in (setArray orderKey order root, changed)
  | _, _ => (root, false)
  end.

Definition canonicalizeCanvasOrders (root : M) : M * bool :=
  let '(root, changedNodes) := canonicalizeIn "nodeOrder" "nodes" root in
  let '(root, changedEdges) := canonicalizeIn "edgeOrder" "edges" root in
  (root, changedNodes || changedEdges).

(** *** Operations *)

(** [patchItem] on the item itself *)
Definition patchFields (id : string) (patch : CanvasFieldPatch) (item : M) : M :=
  let item := foldl (λ item key, if String.eqb key "id" then item else mdelete key item) item
                (merge_sort String.le (patchRemove patch)) in
  let item := foldl (λ item key,
                if String.eqb key "id" then item
                else match jm_get key (patchSet patch) with Some next => setEntry None item key next | None => item end)
                item (merge_sort String.le (jm_keys (patchSet patch))) in
  if holds (mget "id" item) (JString id) then item else mset "id" (Plain (JString id)) item.

Definition patchItem (id : string) (patch : CanvasFieldPatch) (items : M) : M :=
  match mget id items with
  | Some (SharedMap item) => mchild id (SharedMap (patchFields id patch item)) items
  | _ => items
  end.

Definition itemId (value : Fields) : option string :=
  id ← prop "id" value ≫= asString;
  if String.eqb id "" then None else Some id.

(** The item, made when there is none *)
Definition ensureItem (id : string) (items : M) : M :=
  match mget id items with
  | Some (SharedMap _) => items
  | _ => mset id (SharedMap newMap) items
  end.

Definition restoreItem (value : Fields) (items tombstones : M) : M * M :=
  match itemId value with
  | None => (items, tombstones)
  | Some id => (patchItem id (mkPatch value.2 []) (ensureItem id items), mdelete id tombstones)
  end.

Definition createItem (value : Fields) (clientID : Z) (items tombstones : M) : M * M :=
  match itemId value with
  | None => (items, tombstones)
  | Some id =>
    let create := patchItem id (mkPatch value.2 []) (ensureItem id items) in
    match mget id tombstones with
    | Some tombstone => if isOf clientID tombstone then (create, mdelete id tombstones) else (items, tombstones)
    | None => (create, tombstones)
    end
  end.

(** One kind of items of a canvas: the items, their tombstones, their order *)
Record Part := mkPart { items : M; tombstones : M; order : A }.

Definition deleteItem (id : string) (clientID : Z) (p : Part) : Part :=
  match mget id (items p) with
  | None => p
  | Some _ =>
    mkPart (mdelete id (items p)) (mset id (Plain (number clientID)) (tombstones p))
      (reconcileOrder (order p) (inOrder <$> List.filter (λ v, negb (isString v id)) (aelements (order p))))
  end.

Definition attachedTo (nodeId : string) (edge : V) : bool :=
  match edge with
  | SharedMap edge => holds (mget "fromNode" edge) (JString nodeId) || holds (mget "toNode" edge) (JString nodeId)
  | _ => false
  end.

Definition deleteConnectedEdges (nodeId : string) (clientID : Z) (p : Part) : Part :=
  foldl (λ q edgeId,
    match mget edgeId (items p) with
    | Some edge => if attachedTo nodeId edge then deleteItem edgeId clientID q else q
    | None => q
    end) p (mkeys (items p)).

Definition onItems (f : M → M → M * M) (p : Part) : Part :=
  let '(items, tombstones) := f (items p) (tombstones p) in mkPart items tombstones (order p).

Definition reorder (ids : list JsonValue) (p : Part) : Part :=
  mkPart (items p) (tombstones p) (reconcileOrder (order p) (JString <$> validOrder ids (items p))).

Definition applyOperation (clientID : Z) (c : Part * Part) (operation : CanvasOperation) : Part * Part :=
  let '(nodes, edges) := c in
  match operation with
  | NodeCreate node => (onItems (createItem node clientID) nodes, edges)
  | NodePatch id patch => (onItems (λ items tombstones, (patchItem id patch items, tombstones)) nodes, edges)
  | NodeDelete id => (deleteItem id clientID nodes, deleteConnectedEdges id clientID edges)
  | NodeRestore node => (onItems (restoreItem node) nodes, edges)
  | EdgeCreate edge => (nodes, onItems (createItem edge clientID) edges)
  | EdgePatch id patch => (nodes, onItems (λ items tombstones, (patchItem id patch items, tombstones)) edges)
  | EdgeDelete id => (nodes, deleteItem id clientID edges)
  | EdgeRestore edge => (nodes, onItems (restoreItem edge) edges)
  | NodeOrder ids => (reorder ids nodes, edges)
  | EdgeOrder ids => (nodes, reorder ids edges)
  end.

(** The parts as the root holds them, and put back *)
Definition openRoot (root : M) : M * (Part * Part) :=
  let '(root, nodes) := ensureMap root "nodes" in
  let '(root, edges) := ensureMap root "edges" in
  let '(root, deletedNodes) := ensureMap root "deletedNodeIds" in
  let '(root, deletedEdges) := ensureMap root "deletedEdgeIds" in
  let '(root, nodeOrder) := ensureArray root "nodeOrder" in
  let '(root, edgeOrder) := ensureArray root "edgeOrder" in
  (root, (mkPart nodes deletedNodes nodeOrder, mkPart edges deletedEdges edgeOrder)).

Definition putBack (c : Part * Part) (root : M) : M :=
  setMap "nodes" (items c.1) (setMap "edges" (items c.2)
    (setMap "deletedNodeIds" (tombstones c.1) (setMap "deletedEdgeIds" (tombstones c.2)
      (setArray "nodeOrder" (order c.1) (setArray "edgeOrder" (order c.2) root))))).

Definition applyCanvasOperations (root : M) (operations : list CanvasOperation) (clientID : Z) : M :=
  let '(root, c) := openRoot root in
  fst (canonicalizeCanvasOrders (putBack (foldl (applyOperation clientID) c operations) root)).

(** *** Snapshots *)

Definition reconcileItemFields (itemMap : M) (incoming : Fields) : M :=
  setEntries None incoming.2 (dropKeys incoming.1 incoming.2 itemMap).

(** An item that the snapshot does not have *)
Definition reconcileMissing (incoming : Fields) (clientID : Z) (known : option Fields) (c : M * M) (id : string) : M * M :=
  let '(items, tombstones) := c in
  match prop id incoming with
  | Some _ => c
  | None =>
    if match known with
       | Some known => negb (bool_decide (is_Some (prop id known)))
       | None => match mclient id items with Some client => negb (client =? clientID) | None => false end
       end then c
    else (mdelete id items, mset id (Plain (number clientID)) tombstones)
  end.

(** An item of the snapshot *)
Definition reconcileItem (clientID : Z) (c : M * M) (entry : string * JsonValue) : M * M :=
  let '(items, tombstones) := c in
  let '(id, incomingItem) := entry in
  match asRecord (Some incomingItem) with
  | None => c
  | Some incoming =>
    let write tombstones :=
      let items := ensureItem id items in
      (match mget id items with
       | Some (SharedMap current) => mchild id (SharedMap (reconcileItemFields current incoming)) items
       | _ => items
       end, tombstones) in
    match mget id tombstones with
    | Some tombstone => if isOf clientID tombstone then write (mdelete id tombstones) else c
    | None => write tombstones
    end
  end.

Definition reconcileCanvasItems (incoming : Fields) (clientID : Z) (known : option Fields) (items tombstones : M) : M * M :=
  let c := foldl (reconcileMissing incoming clientID known) (items, tombstones) (mkeys items) in
  foldl (reconcileItem clientID) c incoming.2.

Definition reconcileCanvas (root : M) (incoming : StructuredCanvas) (clientID : Z) (base : option StructuredCanvas) : M :=
  let '(root, (n, e)) := openRoot root in
  let '(nodeItems, deletedNodes) :=
    reconcileCanvasItems (nodes incoming) clientID (nodes <$> base) (items n) (tombstones n) in
  let '(edgeItems, deletedEdges) :=
    reconcileCanvasItems (edges incoming) clientID (edges <$> base) (items e) (tombstones e) in
  putBack (mkPart nodeItems deletedNodes (reconcileOrder (order n) (nodeOrder incoming)),
           mkPart edgeItems deletedEdges (reconcileOrder (order e) (edgeOrder incoming))) root.
End shared.
