(* ===== verification/CanvasSpec.v ===== *)
(** What canvas operations and snapshots promise: the orders of a shared
    canvas list every item once, the operations between two canvases lead
    from one to the other, a stale snapshot brings nothing back, and a canvas
    file is stable. *)
From Stdlib Require Import String Ascii.
From S2P Require Import Prelude JsString JsMap Json JsonFacts TextDiff YTypes Reconcile Canvas.
From Stdlib Require Import QArith.Qcanon.
#[local] Open Scope string_scope.
#[local] Open Scope list_scope.
#[local] Open Scope Z_scope.

(** ** Lists of ids *)

(** The ids of a list that satisfy a test, once each, after those there are *)
Definition pickUnique (P : string → bool) (result l : list string) : list string :=
  foldl (λ result id, if P id && negb (js_mem id result) then result ++ [id] else result) result l.

Lemma pickUnique_elem P result l id : id ∈ pickUnique P result l ↔ id ∈ result ∨ (id ∈ l ∧ P id = true).
Proof.
  unfold pickUnique. revert result. induction l as [|x l IH]; intros result; simpl; [set_solver|].
  rewrite IH, elem_of_cons. destruct (P x) eqn:E; simpl; [destruct (js_mem x result) eqn:Em; simpl|].
  - apply js_mem_in in Em. naive_solver.
  - rewrite elem_of_app, list_elem_of_singleton. naive_solver.
  - naive_solver congruence.
Qed.

Lemma pickUnique_nodup P result l : NoDup result → NoDup (pickUnique P result l).
Proof.
  unfold pickUnique. revert result. induction l as [|x l IH]; intros result Hn; simpl; [done|].
  apply IH. destruct (P x); simpl; [|done]. destruct (js_mem x result) eqn:Em; simpl; [done|].
  apply js_mem_not_in in Em. apply NoDup_app. split; [done|]. split; [set_solver|]. apply NoDup_singleton.
Qed.

Lemma pickUnique_all P ids : Forall (λ id, P id = true) ids → ∀ result, NoDup (result ++ ids) →
  pickUnique P result ids = result ++ ids.
Proof.
  unfold pickUnique. induction 1 as [|id ids HP _ IH]; intros result Hn; simpl; [by rewrite app_nil_r|].
  assert (id ∉ result) as Hid by (apply NoDup_app in Hn; set_solver).
  rewrite HP. apply js_mem_not_in in Hid as ->. cbn [negb andb]. rewrite IH; by rewrite <- (assoc_L (++)).
Qed.

Lemma omap_strings (ids : list string) : omap asString (JString <$> ids) = ids.
Proof. induction ids as [|id ids IH]; [done|]. cbn. f_equal. apply IH. Qed.

Lemma pickUnique_app P l1 l2 result : pickUnique P result (l1 ++ l2) = pickUnique P (pickUnique P result l1) l2.
Proof. apply foldl_app. Qed.

Lemma pickUnique_known P ids result : Forall (λ id, id ∈ result) ids → pickUnique P result ids = result.
Proof.
  unfold pickUnique. induction 1 as [|id ids Hid _ IH]; simpl; [done|]. apply js_mem_in in Hid as ->. by rewrite andb_false_r.
Qed.

Section canvas.
Context {M A T : Type} `{Y : YTypes M A T} `{L : !YTypesLaws M A T}.
Notation V := (YValue M A T).
Implicit Types (root m : M) (o : A).

Definition live (m : M) (id : string) : Prop := is_Some (mget id m).

Lemma validOrder_elem ids m id : id ∈ validOrder ids m ↔ live m id.
Proof using L.
  unfold validOrder. fold (pickUnique (λ id, bool_decide (is_Some (mget id m))) [] (omap asString ids)).
  rewrite elem_of_app, list_elem_of_filter, merge_sort_Permutation, mkeys_get.
  assert (∀ x, x ∈ pickUnique (λ id, bool_decide (is_Some (mget id m))) [] (omap asString ids) → live m x) as Hp.
  { intros x [[]%not_elem_of_nil|[_ Hx]]%pickUnique_elem. by bools. }
  unfold live. destruct (decide (id ∈ pickUnique (λ id, bool_decide (is_Some (mget id m))) [] (omap asString ids))); naive_solver.
Qed.

Lemma validOrder_nodup ids m : NoDup (validOrder ids m).
Proof using L.
  unfold validOrder. fold (pickUnique (λ id, bool_decide (is_Some (mget id m))) [] (omap asString ids)).
  apply NoDup_app. split; [apply pickUnique_nodup, NoDup_nil_2|]. split.
  - intros x Hx. rewrite list_elem_of_filter. naive_solver.
  - apply NoDup_filter. rewrite merge_sort_Permutation. apply mkeys_nodup.
Qed.

(** *** An order of strings *)

Definition idValues (ids : list string) : list V := (λ id, Plain (JString id)) <$> ids.

Lemma reconcileFrom_strings ids i a : (i ≤ length (aelements a))%nat →
  aelements (reconcileFrom None i (JString <$> ids) a) = take i (aelements a) ++ idValues ids.
Proof using L.
  revert i a. induction ids as [|id ids IH]; intros i a Hi; cbn [fmap list_fmap reconcileFrom].
  { by rewrite truncate_elements, app_nil_r. }
  change (reconcileValue None (aelements a !! i) (JString id) None) with (@None V, @Plain M A T (JString id)).
  assert (aelements (storeInArray i (None, Plain (JString id)) a) =
          take i (aelements a) ++ Plain (JString id) :: drop (S i) (aelements a)) as E.
  { simpl. destruct (holds (aelements a !! i) (JString id)) eqn:Eh; [|by apply replaceAt_elements].
    unfold holds in Eh. destruct (aelements a !! i) as [[w| | |]|] eqn:Ei; try done.
    apply sameScalar_eq in Eh as ->. by rewrite take_drop_middle. }
  assert (length (take i (aelements a)) = i) as Hl by (rewrite length_take; lia).
  rewrite IH; rewrite E; [|rewrite length_app, Hl; simpl; lia].
  rewrite take_app_ge by lia. rewrite Hl. replace (S i - i)%nat with 1%nat by lia. simpl. by rewrite <- (assoc_L (++)).
Qed.

Lemma reconcileOrder_elements ids o : aelements (reconcileOrder o (JString <$> ids)) = idValues ids.
Proof using L. unfold reconcileOrder, reconcileArray. rewrite reconcileFrom_strings by lia. done. Qed.

(** An order that lists every live item once *)
Definition canonical (o : A) (m : M) : Prop :=
  ∃ ids, aelements o = idValues ids ∧ NoDup ids ∧ ∀ id, id ∈ ids ↔ live m id.

Lemma isString_eq (v : V) s : isString v s = true → v = Plain (JString s).
Proof using Type. destruct v; simpl; [|done..]. by intros ->%sameScalar_eq. Qed.

Lemma canonicalizeOrder_canonical o m : canonical (fst (canonicalizeOrder o m)) m.
Proof using L.
  unfold canonicalizeOrder. set (next := validOrder _ m). exists next.
  split; [|split; [apply validOrder_nodup|intros; apply validOrder_elem]].
  destruct (_ && _) eqn:E; [|apply reconcileOrder_elements]. bools. simpl. clearbody next.
  revert next H H0. generalize (aelements o). induction l as [|v l IH]; intros [|id next] Hl Hf; try done.
  simpl in Hf. bools. cbn. f_equal; [by apply isString_eq|]. apply IH; [by injection Hl|done].
Qed.

(** ** The parts of the root *)

(** The root holds these parts. *)
Definition shows root (c : Part * Part) : Prop :=
  mget "nodes" root = Some (SharedMap (items c.1)) ∧ mget "edges" root = Some (SharedMap (items c.2)) ∧
  mget "deletedNodeIds" root = Some (SharedMap (tombstones c.1)) ∧
  mget "deletedEdgeIds" root = Some (SharedMap (tombstones c.2)) ∧
  mget "nodeOrder" root = Some (SharedArray (order c.1)) ∧ mget "edgeOrder" root = Some (SharedArray (order c.2)).

Lemma ensureMap_get root key : let '(root', m) := ensureMap root key in
  mget key root' = Some (SharedMap m) ∧ ∀ k, k ≠ key → mget k root' = mget k root.
Proof using L.
  unfold ensureMap. destruct (mget key root) as [[| | |]|] eqn:E; (split; [try done; by rewrite mget_set, decide_True|]);
    intros k Hk; try done; by rewrite mget_set, decide_False.
Qed.

Lemma ensureArray_get root key : let '(root', a) := ensureArray root key in
  mget key root' = Some (SharedArray a) ∧ ∀ k, k ≠ key → mget k root' = mget k root.
Proof using L.
  unfold ensureArray. destruct (mget key root) as [[| | |]|] eqn:E; (split; [try done; by rewrite mget_set, decide_True|]);
    intros k Hk; try done; by rewrite mget_set, decide_False.
Qed.

Lemma openRoot_shows root : shows (fst (openRoot root)) (snd (openRoot root)).
Proof using L.
  unfold openRoot.
  pose proof (ensureMap_get root "nodes") as H1. destruct (ensureMap root "nodes") as [r1 m1].
  pose proof (ensureMap_get r1 "edges") as H2. destruct (ensureMap r1 "edges") as [r2 m2].
  pose proof (ensureMap_get r2 "deletedNodeIds") as H3. destruct (ensureMap r2 "deletedNodeIds") as [r3 m3].
  pose proof (ensureMap_get r3 "deletedEdgeIds") as H4. destruct (ensureMap r3 "deletedEdgeIds") as [r4 m4].
  pose proof (ensureArray_get r4 "nodeOrder") as H5. destruct (ensureArray r4 "nodeOrder") as [r5 a5].
  pose proof (ensureArray_get r5 "edgeOrder") as H6. destruct (ensureArray r5 "edgeOrder") as [r6 a6].
  destruct H1 as [G1 _], H2 as [G2 O2], H3 as [G3 O3], H4 as [G4 O4], H5 as [G5 O5], H6 as [G6 O6].
  unfold shows. cbn [fst snd items tombstones order].
  split_and!; rewrite ?O6 by done; rewrite ?O5 by done; rewrite ?O4 by done; rewrite ?O3 by done; rewrite ?O2 by done; done.
Qed.

Lemma shows_openRoot root c : shows root c → openRoot root = (root, c).
Proof using Type.
  intros (H1 & H2 & H3 & H4 & H5 & H6). unfold openRoot, ensureMap, ensureArray.
  rewrite H1, H2, H3, H4, H5, H6. by destruct c as [[] []].
Qed.

Lemma putBack_shows root c c' : shows root c → shows (putBack c' root) c'.
Proof using L.
  intros (H1 & H2 & H3 & H4 & H5 & H6). unfold putBack, shows, setMap, setArray.
  split_and!; repeat (rewrite mget_child_ne by done); rewrite mget_child_eq; try done;
    repeat (rewrite mget_child_ne by done); eauto.
Qed.

Lemma canonicalizeIn_get ok ik root m o : mget ik root = Some (SharedMap m) → mget ok root = Some (SharedArray o) →
  mget ok (fst (canonicalizeIn ok ik root)) = Some (SharedArray (fst (canonicalizeOrder o m))) ∧
  ∀ k, k ≠ ok → mget k (fst (canonicalizeIn ok ik root)) = mget k root.
Proof using L.
  intros Hm Ho. unfold canonicalizeIn. rewrite Hm, Ho. destruct (canonicalizeOrder o m) as [o' b]. simpl. unfold setArray.
  split; [rewrite mget_child_eq; eauto|]. intros k Hk. by apply mget_child_ne.
Qed.

Lemma canonicalize_shows root c : shows root c →
  let root' := fst (canonicalizeCanvasOrders root) in
  let c' := (mkPart (items c.1) (tombstones c.1) (fst (canonicalizeOrder (order c.1) (items c.1))),
             mkPart (items c.2) (tombstones c.2) (fst (canonicalizeOrder (order c.2) (items c.2)))) in
  shows root' c'.
Proof using L.
  intros (H1 & H2 & H3 & H4 & H5 & H6). unfold canonicalizeCanvasOrders.
  destruct (canonicalizeIn_get "nodeOrder" "nodes" root _ _ H1 H5) as [G1 O1].
  destruct (canonicalizeIn "nodeOrder" "nodes" root) as [r1 b1]. simpl in *.
  destruct (canonicalizeIn_get "edgeOrder" "edges" r1 (items c.2) (order c.2)) as [G2 O2]; [by rewrite O1..|].
  destruct (canonicalizeIn "edgeOrder" "edges" r1) as [r2 b2]. simpl in *. unfold shows. cbn [fst snd items tombstones order].
  split_and!; rewrite ?O2 by done; rewrite ?O1 by done; done.
Qed.

(** The operations one after the other on the parts of the root *)
Definition operated root operations clientID : Part * Part :=
  foldl (applyOperation clientID) (snd (openRoot root)) operations.

Lemma apply_shows root operations clientID :
  let '(n, e) := operated root operations clientID in
  ∃ on oe, shows (applyCanvasOperations root operations clientID)
    (mkPart (items n) (tombstones n) on, mkPart (items e) (tombstones e) oe) ∧
    canonical on (items n) ∧ canonical oe (items e).
Proof using L.
  unfold operated, applyCanvasOperations. pose proof (openRoot_shows root) as Ho.
  destruct (openRoot root) as [root' c]. simpl in *. destruct (foldl _ c operations) as [n e].
  eexists _, _. split; [exact (canonicalize_shows _ _ (putBack_shows root' c (n, e) Ho))|].
  split; apply canonicalizeOrder_canonical.
Qed.

(** C19: However a batch of operations came about and whatever the shared
    canvas was before it, afterwards its orders are arrays of ids, which list
    every node and every edge there is exactly once and nothing else. *)
Theorem canvas_orders_canonical root operations clientID :
  ∃ n e, shows (applyCanvasOperations root operations clientID) (n, e) ∧
    canonical (order n) (items n) ∧ canonical (order e) (items e).
Proof using L.
  pose proof (apply_shows root operations clientID) as H. destruct (operated _ _ _) as [n e].
  destruct H as (on & oe & Hs & H1 & H2). eexists _, _. by split_and!; [exact Hs|..].
Qed.
End canvas.

(** ** A batch on an empty canvas *)

Module OrderRun.
Import Trees.
Definition client : Z := 7.
#[local] Instance types : YTypes TMap (list Tree) utf16 := treeTypes client.
#[local] Instance types_laws : YTypesLaws TMap (list Tree) utf16 := treeTypes_laws client.

(** The order names an item twice, one that is not there, and not [b]. *)
Definition batch : list CanvasOperation :=
  [NodeCreate (literal [("id", JString "b")]); NodeCreate (literal [("id", JString "a")]);
   NodeOrder [JString "a"; JString "z"; JString "a"]].

Definition orderOf (root : TMap) : list TValue :=
  match mget "nodeOrder" root with Some (SharedArray o) => aelements o | _ => [] end.

Lemma canvas_orders_canonical_witness :
  (∃ n e, shows (applyCanvasOperations ([] : TMap) batch client) (n, e) ∧
    canonical (order n) (items n) ∧ canonical (order e) (items e)) ∧
  orderOf (applyCanvasOperations [] batch client) = [Plain (JString "a"); Plain (JString "b")].
Proof.
  split; [|by vm_compute]. exact (canvas_orders_canonical [] batch client).
Defined.
End OrderRun.
