(* ===== verification/CanvasDiff.v ===== *)
(** The operations of [diffCanvas] lead from one canvas to the other
    ([src/structured/canvasOperations.ts]). *)
From Stdlib Require Import String Ascii.
From S2P Require Import Prelude JsString JsMap Json JsonFacts TextDiff YTypes Reconcile Canvas CanvasSpec.
From Stdlib Require Import QArith.Qcanon.
#[local] Open Scope string_scope.
#[local] Open Scope list_scope.
#[local] Open Scope Z_scope.

(** ** JSON *)

Lemma get_map_normal k (fs : list (string * JsonValue)) :
  jm_get k (map (λ f, (f.1, normal f.2)) fs) = normal <$> jm_get k fs.
Proof. induction fs as [|[k1 v] fs IH]; simpl; [done|]. by case_decide. Qed.

(** A copy is the same value. *)
Lemma normal_same v : same (normal v) v.
Proof.
  induction v as [| | | |l IH|p fs IH|] using json_ind'; simpl; constructor.
  - induction IH; simpl; by constructor.
  - intros k. rewrite get_map_normal. destruct (jm_get k fs) as [v|] eqn:E; constructor.
    by apply (Forall_get (P := λ v, same (normal v) v) k v IH).
Qed.

Lemma plain_normal v : plain (normal v) = plain v.
Proof.
  induction v as [| | | |l IH|p fs IH|] using json_ind'; simpl; try done.
  - induction IH as [|v l Hv _ IH]; simpl; [done|]. by rewrite Hv, IH.
  - f_equal; [by rewrite map_map|]. induction IH as [|f fs Hf _ IH]; simpl; [done|]. by rewrite Hf, IH.
Qed.

Lemma sortedKeys_eq p q fs gs : jm_wf fs → jm_wf gs →
  sortedKeys (p, fs) = sortedKeys (q, gs) ↔ ∀ k, is_Some (jm_get k fs) ↔ is_Some (jm_get k gs).
Proof.
  intros Hf Hg. unfold sortedKeys, ownKeys. simpl. setoid_rewrite <- jm_keys_get. split.
  - intros E k. rewrite <- (merge_sort_Permutation String.le (jm_keys fs)), E. by rewrite merge_sort_Permutation.
  - intros Hk. apply (Sorted_unique String.le); [apply Sorted_merge_sort, _..|].
    rewrite !merge_sort_Permutation. by apply NoDup_Permutation.
Qed.

Lemma identical_same v w : identical v w = true → same v w.
Proof. destruct v, w; simpl; intros ?; try done; bools; subst; by constructor. Qed.

(** [equalJson] as the loops on their own *)
Fixpoint equalEvery (xs ys : list JsonValue) : bool :=
  match xs, ys with
  | x :: xs', y :: ys' => equalJson x y && equalEvery xs' ys'
  | [], _ => true
  | _ :: _, [] => false
  end.

Fixpoint equalFields (fs gs : list (string * JsonValue)) : bool :=
  match fs with
  | [] => true
  | (key, v) :: fs' => match jm_get key gs with Some w => equalJson v w | None => false end && equalFields fs' gs
  end.

Lemma equalJson_array xs ys : equalJson (JArray xs) (JArray ys) = (zlength xs =? zlength ys) && equalEvery xs ys.
Proof. reflexivity. Qed.

Lemma equalJson_object p q fs gs : equalJson (JObject p fs) (JObject q gs) =
  bool_decide (sortedKeys (p, fs) = sortedKeys (q, gs)) && equalFields fs gs.
Proof.
  cbn -[sortedKeys]. f_equal. induction fs as [|[k v] fs IH]; simpl; [done|]. by rewrite IH.
Qed.

Lemma equalEvery_spec xs : Forall (λ x, ∀ y, plain x = true → plain y = true → equalJson x y = true ↔ same x y) xs →
  ∀ ys, Forall (λ v, plain v = true) xs → Forall (λ v, plain v = true) ys → zlength xs = zlength ys →
  equalEvery xs ys = true ↔ Forall2 same xs ys.
Proof.
  induction 1 as [|x xs Hx _ IH]; intros [|y ys] Hp Hq Hlen; autorewrite with zlen in Hlen; simpl;
    try (pose proof (zlength_nonneg xs)); try (pose proof (zlength_nonneg ys)); try lia.
  - by split.
  - inversion Hp; inversion Hq; subst. rewrite andb_true_iff, Hx, IH by (done || lia).
    split; [intros []; by constructor|]. by inversion 1.
Qed.

Lemma equalFields_spec fs gs : Forall (λ f, ∀ y, plain f.2 = true → plain y = true → equalJson f.2 y = true ↔ same f.2 y) fs →
  jm_wf fs → Forall (λ f, plain f.2 = true) fs → Forall (λ f, plain f.2 = true) gs →
  equalFields fs gs = true ↔ ∀ k v, jm_get k fs = Some v → ∃ w, jm_get k gs = Some w ∧ same v w.
Proof.
  intros IH Hw Hp Hq. induction IH as [|[k v] fs Hv _ IH]; simpl; [naive_solver|].
  inversion Hp; subst. unfold jm_wf, jm_keys in Hw. simpl in *. apply NoDup_cons in Hw as [Hk Hw].
  rewrite andb_true_iff, IH by done. split.
  - intros [Ha Hb] k' v'. case_decide as Hd; [|apply Hb]. intros [= <-]. subst k'.
    destruct (jm_get k gs) as [w|] eqn:E; [|done]. exists w. split; [done|]. apply Hv; [done| |done].
    by apply (Forall_get (P := λ v, plain v = true) k w Hq).
  - intros Ha. split.
    + destruct (Ha k v) as (w & Hg & Hs); [by rewrite decide_True|]. rewrite Hg. apply Hv; [done| |done].
      by apply (Forall_get (P := λ v, plain v = true) k w Hq).
    + intros k' v' Hk'. apply Ha. rewrite decide_False; [done|]. intros E. subst. apply Hk, jm_keys_get. by rewrite Hk'.
Qed.

(** Both compare JSON of files alike. *)
Lemma equalJson_same v w : plain v = true → plain w = true → equalJson v w = true ↔ same v w.
Proof.
  revert w. induction v as [| | | |l IH|p fs IH|] using json_ind'; intros w Hv Hw.
  1-4: destruct w; simpl; rewrite ?orb_false_r; (split; [intros E; try done; bools; subst; by constructor|]);
    inversion 1; subst; by rewrite ?bool_decide_eq_true_2.
  - destruct w as [| | | |l'| |]; try (split; [done|by inversion 1]).
    apply plain_array in Hv as Hpl, Hw as Hpl'. rewrite equalJson_array. rewrite andb_true_iff, Z.eqb_eq. split.
    + intros [Hl He]. constructor. by apply (equalEvery_spec l IH).
    + inversion 1 as [| | | | |? ? Hs|]; subst. assert (zlength l = zlength l') as Hl.
      { unfold zlength. by rewrite (Forall2_length _ _ _ Hs). }
      split; [done|]. by apply (equalEvery_spec l IH).
  - destruct w as [| | | | |q gs|]; try (split; [done|by inversion 1]).
    apply plain_object in Hv as (Wv & Kv & Pv), Hw as (Ww & Kw & Pw).
    rewrite equalJson_object, andb_true_iff, bool_decide_eq_true, sortedKeys_eq, (equalFields_spec fs gs IH) by done.
    split.
    + intros [Hk Hf]. constructor. intros k. destruct (jm_get k fs) as [v|] eqn:E.
      * destruct (Hf k v E) as (w & -> & Hs). by constructor.
      * destruct (jm_get k gs) as [w|] eqn:E'; [|constructor]. specialize (Hk k). rewrite E, E' in Hk. destruct Hk as [_ []]; eauto. done.
    + inversion 1 as [| | | | | |? ? ? ? Hs]; subst. split.
      * intros k. specialize (Hs k). inversion Hs; split; intros []; eauto; done.
      * intros k v Hk. specialize (Hs k). rewrite Hk in Hs. inversion Hs; subst. eauto.
  - done.
Qed.

(** ** What [diffFields] finds *)

Lemma foldThrows_inv {E A B} (I : A → list B → Prop) (f : A → B → throws E A) a l :
  I a [] → (∀ a done b rest, l = done ++ b :: rest → I a done → ∃ a', f a b = Returns a' ∧ I a' (done ++ [b])) →
  ∃ r, foldThrows f a l = Returns r ∧ I r l.
Proof.
  intros H0 Hf. unfold foldThrows.
  enough (∀ l2 a l1, l = l1 ++ l2 → I a l1 →
    ∃ r, foldl (λ r b, a ← r; f a b) (Returns a) l2 = Returns r ∧ I r l) as H by by apply (H l a []).
  induction l2 as [|b l2 IH]; intros a' l1 -> Ha; [rewrite app_nil_r in *; eauto|]. simpl.
  destruct (Hf a' l1 b l2 eq_refl Ha) as (a2 & Ef & Ha2). change (Returns a' ≫= _) with (f a' b). rewrite Ef.
  apply (IH a2 (l1 ++ [b])); [by rewrite <- (assoc_L (++))|done].
Qed.

(** What is to become of a key: a new value, its removal *)
Definition newValue (fs gs : list (string * JsonValue)) (key : string) : option JsonValue :=
  match jm_get key fs, jm_get key gs with
  | Some v, Some w => if equalJson v w then None else Some (normal w)
  | None, Some w => Some (normal w)
  | _, None => None
  end.

(** A patch says what becomes of each key from a list but the id. *)
Definition patches (fs gs : list (string * JsonValue)) (patch : CanvasFieldPatch) (keys : list string) : Prop :=
  jm_wf (patchSet patch) ∧ jm_get "id" (patchSet patch) = None ∧
  ∀ key, key ≠ "id" →
    jm_get key (patchSet patch) = (if decide (key ∈ keys) then newValue fs gs key else None) ∧
    (key ∈ patchRemove patch ↔ key ∈ keys ∧ jm_get key gs = None).

(** One more key *)
Lemma patches_more fs gs patch patch' keys key :
  patches fs gs patch keys → jm_wf (patchSet patch') → jm_get "id" (patchSet patch') = None →
  (∀ key', key' ≠ key → jm_get key' (patchSet patch') = jm_get key' (patchSet patch) ∧
    (key' ∈ patchRemove patch' ↔ key' ∈ patchRemove patch)) →
  (key ≠ "id" → jm_get key (patchSet patch') = newValue fs gs key ∧
    (key ∈ patchRemove patch' ↔ jm_get key gs = None)) →
  patches fs gs patch' (keys ++ [key]).
Proof.
  intros (_ & _ & Hk) Hw Hid Ho Hn. split; [done|]. split; [done|]. intros key' Hne.
  assert (key' ∈ keys ++ [key] ↔ key' ∈ keys ∨ key' = key) as He by set_solver.
  destruct (decide (key' = key)) as [->|Hd].
  - destruct (Hn Hne) as [-> Hr]. rewrite decide_True by naive_solver. naive_solver.
  - destruct (Ho key' Hd) as [-> Hr]. destruct (Hk key' Hne) as [-> Hr'].
    repeat case_decide; naive_solver.
Qed.

Lemma js_add_foldl_elem (k : string) s l : k ∈ foldl (λ s k, js_add k s) s l ↔ k ∈ s ∨ k ∈ l.
Proof.
  revert s. induction l as [|x l IH]; intros s; simpl; [set_solver|]. rewrite IH, js_add_in. set_solver.
Qed.

Lemma js_add_foldl_nodup (s l : list string) : NoDup s → NoDup (foldl (λ s k, js_add k s) s l).
Proof. revert s. induction l as [|x l IH]; intros s Hs; simpl; [done|]. by apply IH, js_add_nodup. Qed.

Lemma cloneJson_plain v : plain v = true → cloneJson v = Returns (normal v).
Proof. by destruct v. Qed.

Lemma diffField_step p q fs gs patch seen key :
  plain (JObject p fs) = true → plain (JObject q gs) = true →
  key ∉ inherited → key ∉ seen → patches fs gs patch seen →
  ∃ patch', diffField (p, fs) (q, gs) patch key = Returns patch' ∧ patches fs gs patch' (seen ++ [key]).
Proof.
  intros Hp Hq Hi Hs Hpat. pose proof Hpat as (Hw & Hid & Hk). unfold diffField, prop. simpl. rewrite !jget_own by done.
  destruct (String.eqb_spec key "id") as [->|Hkid].
  { eexists. split; [done|]. by apply (patches_more _ _ patch). }
  destruct (Hk key Hkid) as [Hnone Hnr]. rewrite decide_False in Hnone by done.
  destruct (jm_get key gs) as [w|] eqn:Eg.
  - assert (key ∉ patchRemove patch) by naive_solver.
    destruct (match jm_get key fs with Some v => equalJson v w | None => false end) eqn:Ee.
    + eexists. split; [done|]. apply (patches_more _ _ patch); [done..|]. intros _. rewrite Hnone. unfold newValue.
      rewrite Eg. split; [destruct (jm_get key fs); [by rewrite Ee|done]|naive_solver].
    + rewrite cloneJson_plain by by eapply plain_get. eexists. split; [done|].
      apply (patches_more _ _ patch); simpl; [done|by apply jm_wf_set|by rewrite jm_get_set_ne| |].
      * intros key' Hne. by rewrite jm_get_set_ne.
      * intros _. rewrite jm_get_set_eq. unfold newValue. rewrite Eg.
        split; [destruct (jm_get key fs); [by rewrite Ee|done]|naive_solver].
  - eexists. split; [done|]. apply (patches_more _ _ patch); simpl; [done..| |].
    + intros key' Hne. split; [done|]. set_solver.
    + intros _. rewrite Hnone. unfold newValue. rewrite Eg. split; [by destruct (jm_get key fs)|]. set_solver.
Qed.

Lemma diffFields_patches p q fs gs : plain (JObject p fs) = true → plain (JObject q gs) = true →
  ∃ patch, diffFields (p, fs) (q, gs) = Returns patch ∧
    patches fs gs patch (foldl (λ s k, js_add k s) [] (jm_keys fs ++ jm_keys gs)).
Proof.
  intros Hp Hq. unfold diffFields. set (keys := foldl _ _ _). simpl.
  assert (∀ k, k ∈ keys → k ∉ inherited) as Hi.
  { intros k [[]%not_elem_of_nil|[Hk|Hk]%elem_of_app]%js_add_foldl_elem; apply jm_keys_get in Hk as [v Hv];
      [by apply (plain_key p fs k v)|by apply (plain_key q gs k v)]. }
  assert (NoDup (merge_sort String.le keys)) as Hn.
  { rewrite merge_sort_Permutation. apply js_add_foldl_nodup, NoDup_nil_2. }
  destruct (foldThrows_inv (λ patch seen, patches fs gs patch seen)
    (diffField (p, fs) (q, gs)) (mkPatch [] []) (merge_sort String.le keys)) as (r & E & Hr).
  - split; [apply jm_wf_nil|]. split; [done|]. intros key _. rewrite decide_False by apply not_elem_of_nil.
    split; [done|]. simpl. rewrite !elem_of_nil. naive_solver.
  - intros patch seen key rest El Hpat. apply diffField_step; [done|done| | |done].
    + apply Hi. rewrite <- (merge_sort_Permutation String.le), El. set_solver.
    + rewrite El in Hn. apply NoDup_app in Hn as (_ & Hn & _). intros Hin. apply (Hn key Hin). set_solver.
  - exists r. split; [exact E|]. destruct Hr as (Hw & Hid & Hk). split; [done|]. split; [done|]. intros key Hne.
    destruct (Hk key Hne) as [H1 H2]. assert (key ∈ merge_sort String.le keys ↔ key ∈ keys) as He by by rewrite merge_sort_Permutation.
    rewrite H1, H2. split; [|by rewrite He]. repeat case_decide; naive_solver.
Qed.

(** ** What an item becomes *)

Section items.
Context {M A T : Type} `{Y : YTypes M A T} `{L : !YTypesLaws M A T}.
Notation V := (YValue M A T).
Implicit Types (m : M) (fs gs : list (string * JsonValue)).

Lemma Reads_same (v : V) j j' : plain j' = true → same j j' → Reads v j → Reads v j'.
Proof using Type.
  revert v j. induction j' as [| | | |l' IH|q gs IH|] using json_ind'; intros v j Hp Hs Hr.
  1-4: inversion Hr as [? ? Hs'|t str E| |]; subst; [apply Reads_plain; by transitivity j|..]; inversion Hs; subst; by constructor.
  - inversion Hr as [? ? Hs'| |a l Hl|]; subst; [apply Reads_plain; by transitivity j|..]; inversion Hs as [| | | | |? ? Hss|]; subst.
    constructor. apply plain_array in Hp. clear Hs Hr. revert IH Hp l Hl Hss. generalize (aelements a).
    induction l' as [|v' l' IHl]; intros cs IH Hp l Hl Hss.
    + inversion Hss; subst. inversion Hl; subst. constructor.
    + inversion Hss; subst. inversion Hl; subst. inversion IH; subst. inversion Hp; subst. constructor; [by eauto|by eapply IHl].
  - inversion Hr as [? ? Hs'| | |m p fs Hw Hg]; subst; [apply Reads_plain; by transitivity j|..]; inversion Hs as [| | | | | |? ? ? ? Hss]; subst.
    apply plain_object in Hp as Hpo. constructor; [apply Hpo|]. intros k. specialize (Hg k). specialize (Hss k).
    inversion Hg as [c w Hc E1 E2|E1 E2]; rewrite <- E2 in Hss; inversion Hss as [? w' Hw' E3 E4|E3 E4]; subst; constructor.
    symmetry in E4. by apply (Forall_get (P := λ v', ∀ v j, plain v' = true → same j v' → Reads v j → Reads v v') k w' IH E4 c w);
      [eapply plain_get|..].
  - done.
Qed.

(** The step of the second loop of [patchItem] *)
Definition setKey (set : list (string * JsonValue)) (item : M) (key : string) : M :=
  if String.eqb key "id" then item
  else match jm_get key set with Some next => setEntry None item key next | None => item end.

Definition wanted (set : list (string * JsonValue)) (ks : list string) (k : string) : option JsonValue :=
  if decide (k ∈ ks ∧ k ≠ "id") then jm_get k set else None.

Lemma setKeys_get set ks m : NoDup ks → (∀ k v, jm_get k set = Some v → plain v = true) →
  (∀ k c, mget k m = Some c → readable c) →
  ∀ k, match wanted set ks k with
       | Some v => ∃ c, mget k (foldl (setKey set) m ks) = Some c ∧ Reads c v
       | None => mget k (foldl (setKey set) m ks) = mget k m
       end.
Proof using L.
  intros Hn Hp Hm. induction ks as [|k1 ks IH] using rev_ind; intros k.
  { unfold wanted. rewrite decide_False; [done|]. by intros [[]%not_elem_of_nil _]. }
  apply NoDup_app in Hn as (Hn & Hd & _). specialize (IH Hn). rewrite foldl_snoc.
  set (m' := foldl (setKey set) m ks) in *. assert (k1 ∉ ks) as Hk1 by set_solver.
  assert (∀ k, k ≠ k1 → wanted set (ks ++ [k1]) k = wanted set ks k) as Ho.
  { intros k' Hne. unfold wanted. repeat case_decide; set_solver. }
  assert (mget k1 m' = mget k1 m) as E1.
  { specialize (IH k1). unfold wanted in IH. rewrite decide_False in IH; [done|]. naive_solver. }
  unfold setKey. destruct (String.eqb_spec k1 "id") as [->|Hid].
  { destruct (decide (k = "id")) as [->|Hne]; [|rewrite Ho by done; apply IH].
    unfold wanted. rewrite decide_False; [done|]. by intros [_ []]. }
  destruct (jm_get k1 set) as [next|] eqn:En.
  - destruct (storeInMap_get k1 (reconcileValue None (mget k1 m') next (Some k1)) m' next) as [Hc Hoth].
    { apply reconcileValue_reads; [by eapply Hp|]. intros c. rewrite E1. apply Hm. }
    destruct (decide (k = k1)) as [->|Hne].
    + unfold wanted. rewrite decide_True, En by set_solver. exact Hc.
    + rewrite Ho by done. unfold setEntry. rewrite (Hoth k Hne). apply IH.
  - destruct (decide (k = k1)) as [->|Hne]; [|rewrite Ho by done; apply IH].
    unfold wanted. rewrite decide_True, En by set_solver. done.
Qed.

Lemma removeKeys_get ks m k :
  mget k (foldl (λ item key, if String.eqb key "id" then item else mdelete key item) m ks) =
  if decide (k ∈ ks ∧ k ≠ "id") then None else mget k m.
Proof using L.
  revert m. induction ks as [|k1 ks IH]; intros m; cbn [foldl].
  { rewrite decide_False; [done|]. by intros [[]%not_elem_of_nil _]. }
  rewrite IH. destruct (String.eqb_spec k1 "id") as [->|Hid].
  - assert ((k ∈ "id" :: ks ∧ k ≠ "id") ↔ (k ∈ ks ∧ k ≠ "id")) by set_solver. repeat case_decide; naive_solver.
  - rewrite mget_delete. assert (k ∈ k1 :: ks ↔ k = k1 ∨ k ∈ ks) by set_solver. repeat case_decide; naive_solver.
Qed.

(** An item after a patch: its id, what the patch sets, what it leaves *)
Lemma patchFields_get id patch m : jm_wf (patchSet patch) →
  (∀ k v, jm_get k (patchSet patch) = Some v → plain v = true) → (∀ k c, mget k m = Some c → readable c) →
  mget "id" (patchFields id patch m) = Some (Plain (JString id)) ∧
  ∀ k, k ≠ "id" →
    match jm_get k (patchSet patch) with
    | Some v => ∃ c, mget k (patchFields id patch m) = Some c ∧ Reads c v
    | None => mget k (patchFields id patch m) = if decide (k ∈ patchRemove patch) then None else mget k m
    end.
Proof using L.
  intros Hw Hp Hm. unfold patchFields. fold (setKey (patchSet patch)).
  set (m1 := foldl _ m (merge_sort String.le (patchRemove patch))).
  assert (∀ k, mget k m1 = if decide (k ∈ patchRemove patch ∧ k ≠ "id") then None else mget k m) as H1.
  { intros k. unfold m1. rewrite removeKeys_get.
    assert (k ∈ merge_sort String.le (patchRemove patch) ↔ k ∈ patchRemove patch) by by rewrite merge_sort_Permutation.
    repeat case_decide; naive_solver. }
  assert (NoDup (merge_sort String.le (jm_keys (patchSet patch)))) as Hn by by rewrite merge_sort_Permutation.
  assert (∀ k c, mget k m1 = Some c → readable c) as Hm1.
  { intros k c. rewrite H1. case_decide; [done|apply Hm]. }
  pose proof (setKeys_get (patchSet patch) _ m1 Hn Hp Hm1) as H2. set (m2 := foldl _ m1 _) in *. clearbody m2.
  split.
  - unfold holds. destruct (mget "id" m2) as [[w| | |]|] eqn:E; try by rewrite mget_set, decide_True.
    destruct (sameScalar w (JString id)) eqn:Es; [|by rewrite mget_set, decide_True].
    by apply sameScalar_eq in Es as ->.
  - intros k Hk. specialize (H2 k). assert (wanted (patchSet patch) (merge_sort String.le (jm_keys (patchSet patch))) k =
      jm_get k (patchSet patch)) as Ew.
    { unfold wanted. case_decide as Hd; [done|]. destruct (jm_get k (patchSet patch)) eqn:E; [|done]. exfalso.
      apply Hd. split; [|done]. rewrite merge_sort_Permutation, jm_keys_get. by rewrite E. }
    rewrite Ew in H2. assert (mget k (if holds (mget "id" m2) (JString id) then m2 else mset "id" (Plain (JString id)) m2) = mget k m2) as ->.
    { destruct (holds _ _); [done|]. by rewrite mget_set, decide_False. }
    destruct (jm_get k (patchSet patch)); [done|]. rewrite H2, H1. repeat case_decide; naive_solver.
Qed.

(** All keys of two objects *)
Definition bothKeys fs gs (keys : list string) : Prop :=
  ∀ k, k ∈ keys ↔ is_Some (jm_get k fs) ∨ is_Some (jm_get k gs).

Lemma normal_reads (c : V) v : plain v = true → Reads c (normal v) → Reads c v.
Proof using Type. intros Hv. apply Reads_same; [done|apply normal_same]. Qed.

(** A patched item reads as the next version of what it read as. *)
Lemma patched_reads id p q fs gs patch keys m :
  Reads (SharedMap m) (JObject p fs) → plain (JObject p fs) = true → noPairs units (JObject p fs) = true →
  plain (JObject q gs) = true → jm_get "id" gs = Some (JString id) →
  patches fs gs patch keys → bothKeys fs gs keys →
  Reads (SharedMap (patchFields id patch m)) (JObject q gs).
Proof using L.
  intros Hr Hp Hn Hq Hid (Hw & Hset & Hpat) Hkeys. apply plain_object in Hq as Hqo. constructor; [apply Hqo|].
  assert (∀ k c, mget k m = Some c → readable c) as Hm.
  { intros k c Hc. refine (proj1 (readable_map m _ k c Hc)). by exists (JObject p fs). }
  assert (∀ k v, jm_get k gs = Some v → plain v = true) as Hgs by (intros k v; by apply (plain_get q)).
  assert (∀ k v, jm_get k (patchSet patch) = Some v → plain v = true) as Hs.
  { intros k v Hk. destruct (decide (k = "id")) as [->|Hne]; [congruence|].
    rewrite (proj1 (Hpat k Hne)) in Hk. case_decide; [|done]. unfold newValue in Hk.
    destruct (jm_get k fs), (jm_get k gs) as [w|] eqn:Eg; try done; [case_match; [done|]|]; injection Hk as <-;
      rewrite plain_normal; by eapply Hgs. }
  destruct (patchFields_get id patch m Hw Hs Hm) as [H1 H2]. intros k.
  destruct (decide (k = "id")) as [->|Hne]; [rewrite H1, Hid; by constructor; constructor|].
  specialize (H2 k Hne). destruct (Hpat k Hne) as [E Hrem]. specialize (Hkeys k).
  inversion Hr as [| | |? ? ? _ Hg]; subst. specialize (Hg k). rewrite E in H2.
  assert (jm_get k fs = None → jm_get k gs = None → mget k (patchFields id patch m) = None) as Hnone.
  { intros Ef Eg. destruct (decide (k ∈ keys)) as [[[? ?]|[? ?]]%Hkeys|]; [congruence..|]. rewrite H2.
    destruct (decide (k ∈ patchRemove patch)); [done|]. rewrite Ef in Hg. by inversion Hg. }
  unfold newValue in H2. destruct (jm_get k gs) as [w|] eqn:Eg.
  - rewrite decide_True in H2 by naive_solver. destruct (jm_get k fs) as [v|] eqn:Ef.
    + destruct (equalJson v w) eqn:Ee.
      * rewrite H2, decide_False by (intros [_ ?]%Hrem; done). inversion Hg as [c ? Hc Ec|]; subst. constructor.
        apply (Reads_same c v w); [by eapply Hgs| |done]. apply equalJson_same; [by apply (plain_get p fs k)|by eapply Hgs|done].
      * destruct H2 as (c & -> & Hc). constructor. apply normal_reads; [by eapply Hgs|done].
    + destruct H2 as (c & -> & Hc). constructor. apply normal_reads; [by eapply Hgs|done].
  - destruct (jm_get k fs) as [v|] eqn:Ef; [|rewrite Hnone by done; constructor].
    rewrite decide_True in H2 by naive_solver. rewrite H2, decide_True by naive_solver. constructor.
Qed.

(** A new item reads as it was given. *)
Lemma created_reads id q gs : plain (JObject q gs) = true → jm_get "id" gs = Some (JString id) →
  Reads (SharedMap (patchFields id (mkPatch gs []) newMap)) (JObject q gs).
Proof using L.
  intros Hq Hid. apply plain_object in Hq as Hqo. constructor; [apply Hqo|].
  destruct (patchFields_get id (mkPatch gs []) newMap) as [H1 H2]; [apply Hqo|..].
  - intros k v. by apply (plain_get q).
  - intros k c. by rewrite mget_new.
  - intros k. destruct (decide (k = "id")) as [->|Hne]; [rewrite H1, Hid; by constructor; constructor|].
    specialize (H2 k Hne). cbn [patchSet patchRemove] in H2. destruct (jm_get k gs) as [v|].
    + destruct H2 as (c & -> & Hc). by constructor.
    + rewrite H2, mget_new. case_decide; constructor.
Qed.
End items.

(** ** The operations on one kind of items *)

Inductive PartOp :=
  | PCreate (o : Fields)
  | PPatch (id : string) (patch : CanvasFieldPatch)
  | PDelete (id : string).

Definition toOp (k : ItemKind) (op : PartOp) : CanvasOperation :=
  match op with PCreate o => createOp k o | PPatch id patch => patchOp k id patch | PDelete id => deleteOp k id end.

(** An item as the file has it: under its own id *)
Definition itemsOk (o : Fields) : Prop :=
  plain (object o) = true ∧
  ∀ id v, jm_get id o.2 = Some v → id ≠ "" ∧ ∃ p fs, v = JObject p fs ∧ jm_get "id" fs = Some (JString id).

Lemma itemsOk_get o id v : itemsOk o → jm_get id o.2 = Some v →
  id ∉ inherited ∧ prop id o = Some v ∧ ∃ p fs, v = JObject p fs ∧ jm_get "id" fs = Some (JString id) ∧ plain v = true ∧ id ≠ "".
Proof.
  intros [Hp Ho] Hg. destruct (Ho id v Hg) as (Hne & p & fs & -> & Hid). destruct o as [q gs].
  change (plain (JObject q gs) = true) in Hp. cbn [snd] in *.
  assert (id ∉ inherited) by by apply (plain_key q gs id (JObject p fs)).
  split; [done|]. split; [unfold prop; cbn [fst snd]; by rewrite jget_own|]. exists p, fs. split_and!; try done. by apply (plain_get q gs id).
Qed.

(** What the diff says of an id *)
Definition itemOps (previous next : Fields) (id : string) (ops : list PartOp) : Prop :=
  match jm_get id next.2, jm_get id previous.2 with
  | Some (JObject q gs), None => ∃ o, ops = [PCreate o] ∧ object o = normal (JObject q gs)
  | Some (JObject q gs), Some (JObject p fs) => ∃ patch keys,
      patches fs gs patch keys ∧ bothKeys fs gs keys ∧
      (ops = [PPatch id patch] ∨ (ops = [] ∧ patchSet patch = [] ∧ patchRemove patch = []))
  | _, _ => ops = []
  end.

Lemma diffItem_ops k previous next ops id : itemsOk previous → itemsOk next → is_Some (jm_get id next.2) →
  ∃ more, diffItem k previous next ops id = Returns (ops ++ (toOp k <$> more)) ∧ itemOps previous next id more.
Proof.
  intros Hp Hn [v Hv]. destruct (itemsOk_get next id v Hn Hv) as (Hi & Hprop & q & gs & -> & Hid & Hpl & _).
  unfold diffItem, itemOps. rewrite Hprop, Hv. cbn [asRecord].
  assert (prop id previous = jm_get id previous.2) as -> by (unfold prop; by rewrite jget_own).
  destruct (jm_get id previous.2) as [w|] eqn:Ew.
  - destruct (itemsOk_get previous id w Hp Ew) as (_ & _ & p & fs & -> & _ & Hpl' & _). cbn [asRecord].
    destruct (diffFields_patches p q fs gs Hpl' Hpl) as (patch & E & Hpat). rewrite E.
    set (keys := foldl _ _ _) in Hpat. assert (bothKeys fs gs keys) as Hk.
    { intros key. unfold keys. rewrite js_add_foldl_elem, elem_of_nil, elem_of_app, !jm_keys_get. naive_solver. }
    destruct (patchSet patch) eqn:Es, (patchRemove patch) eqn:Er;
      [exists []; rewrite app_nil_r; split; [cbn; by rewrite Es, Er|eauto 10]|..];
      (exists [PPatch id patch]; split; [cbn; rewrite Es; try rewrite Er; by destruct k|eauto 10]).
  - cbn [asRecord]. rewrite cloneJson_plain by done. cbn. eexists [PCreate _]. split; [by destruct k|]. by eexists.
Qed.

(** The ids of [next] one after the other *)
Fixpoint listedOps (previous next : Fields) (ids : list string) (ops : list PartOp) : Prop :=
  match ids with
  | [] => ops = []
  | id :: ids => ∃ l1 l2, ops = l1 ++ l2 ∧ itemOps previous next id l1 ∧ listedOps previous next ids l2
  end.

Lemma listedOps_snoc previous next ids id l1 l2 :
  listedOps previous next ids l1 → itemOps previous next id l2 → listedOps previous next (ids ++ [id]) (l1 ++ l2).
Proof.
  revert l1. induction ids as [|x ids IH]; intros l1; simpl.
  - intros -> H. exists l2, []. rewrite app_nil_r. by split_and!.
  - intros (a & b & -> & Ha & Hb) H. exists a, (b ++ l2). rewrite (assoc_L (++)). split_and!; auto.
Qed.

(** The ids that are gone *)
Definition goneIds (previous next : Fields) : list string :=
  List.filter (λ id, negb (bool_decide (is_Some (jm_get id next.2)))) (sortedKeys previous).

Lemma diffItems_ops k previous next : itemsOk previous → itemsOk next →
  ∃ more, diffItems k previous next = Returns (toOp k <$> ((PDelete <$> goneIds previous next) ++ more)) ∧
    listedOps previous next (sortedKeys next) more.
Proof.
  intros Hp Hn. unfold diffItems.
  assert (filter (λ id, prop id next = None) (sortedKeys previous) = goneIds previous next) as ->.
  { unfold goneIds. assert (∀ id, id ∈ sortedKeys previous → prop id next = jm_get id next.2) as Hprop.
    { intros id Hid. unfold sortedKeys in Hid. rewrite merge_sort_Permutation in Hid. apply jm_keys_get in Hid as [v Hv].
      unfold prop. rewrite jget_own; [done|]. by apply (itemsOk_get previous id v). }
    induction (sortedKeys previous) as [|id ids IH]; [done|]. rewrite filter_cons. simpl.
    rewrite (Hprop id) by by left. rewrite IH by (intros; apply Hprop; by right).
    destruct (jm_get id next.2) eqn:E; case_decide; case_bool_decide; try done; naive_solver. }
  destruct (foldThrows_inv (λ ops ids, ∃ more, ops = toOp k <$> ((PDelete <$> goneIds previous next) ++ more) ∧
      listedOps previous next ids more) (diffItem k previous next)
      (map (deleteOp k) (goneIds previous next)) (sortedKeys next)) as (r & E & more & -> & Hm).
  - exists []. rewrite app_nil_r, <- list_fmap_compose. split; [|done]. by destruct k.
  - intros ops ids id rest El (more & -> & Hm).
    destruct (diffItem_ops k previous next (toOp k <$> ((PDelete <$> goneIds previous next) ++ more)) id Hp Hn) as (l & El' & Hl).
    { apply jm_keys_get. rewrite <- (merge_sort_Permutation String.le (jm_keys next.2)).
      change (id ∈ sortedKeys next). rewrite El. set_solver. }
    eexists. split; [exact El'|]. exists (more ++ l). split; [by rewrite <- fmap_app, (assoc_L (++))|].
    by apply listedOps_snoc.
  - exists more. by split.
Qed.
