(* ===== verification/CanvasApply.v ===== *)
(** What the operations between two canvases do to a shared canvas that shows
    the first: it then shows the second, unless an edge that moved away from
    a node deleted with them falls with that node. *)
From Stdlib Require Import String Ascii.
From S2P Require Import Prelude JsString JsMap Json JsonFacts TextDiff YTypes Reconcile Canvas CanvasSpec CanvasDiff.
From Stdlib Require Import QArith.Qcanon.
#[local] Open Scope string_scope.
#[local] Open Scope list_scope.
#[local] Open Scope Z_scope.

(** An empty patch leads from an object to the same object. *)
Lemma empty_patch_same id p fs q gs patch keys :
  plain (JObject p fs) = true → plain (JObject q gs) = true →
  jm_get "id" fs = Some (JString id) → jm_get "id" gs = Some (JString id) →
  patches fs gs patch keys → bothKeys fs gs keys → patchSet patch = [] → patchRemove patch = [] →
  same (JObject p fs) (JObject q gs).
Proof.
  intros Hp Hq Hi Hi' (_ & _ & Hpat) Hk Es Er. constructor. intros k.
  destruct (decide (k = "id")) as [->|Hne]; [rewrite Hi, Hi'; repeat constructor|].
  destruct (Hpat k Hne) as [E1 E2]. rewrite Es in E1. rewrite Er in E2. unfold newValue in E1. cbn in E1.
  specialize (Hk k). destruct (jm_get k fs) as [x|] eqn:Ex, (jm_get k gs) as [y|] eqn:Ey; try constructor.
  - rewrite decide_True in E1 by naive_solver. destruct (equalJson x y) eqn:Exy; [|done].
    apply equalJson_same; [by apply (plain_get p fs k)|by apply (plain_get q gs k)|done].
  - exfalso. apply (not_elem_of_nil k), E2. naive_solver.
  - rewrite decide_True in E1 by naive_solver. done.
Qed.

Section apply.
Context {M A T : Type} `{Y : YTypes M A T} `{L : !YTypesLaws M A T}.
Notation V := (YValue M A T).
Context (clientID : Z).
Implicit Types (p n e : Part (M := M) (A := A)) (previous next : Fields).

Definition onPart p (op : PartOp) : Part :=
  match op with
  | PCreate o => onItems (createItem o clientID) p
  | PPatch id patch => onItems (λ items tombstones, (patchItem id patch items, tombstones)) p
  | PDelete id => deleteItem id clientID p
  end.

Definition isDelete (op : PartOp) : bool := match op with PDelete _ => true | _ => false end.

Lemma edge_ops ops n e :
  foldl (applyOperation clientID) (n, e) (toOp Edge <$> ops) = (n, foldl onPart e ops).
Proof using Type. revert e. induction ops as [|[] ops IH]; intros e; [done|apply IH..]. Qed.

Lemma node_deletes ids n e :
  foldl (applyOperation clientID) (n, e) (toOp Node <$> (PDelete <$> ids)) =
  (foldl onPart n (PDelete <$> ids), foldl (λ e id, deleteConnectedEdges id clientID e) e ids).
Proof using Type. revert n e. induction ids as [|id ids IH]; intros n e; [done|apply IH]. Qed.

Lemma node_ops ops n e : Forall (λ op, isDelete op = false) ops →
  foldl (applyOperation clientID) (n, e) (toOp Node <$> ops) = (foldl onPart n ops, e).
Proof using Type. intros H. revert n. induction H as [|[] ops Hop _ IH]; intros n; [done|apply IH..|done]. Qed.

(** *** Deletions *)

(** Of the items that are to be kept nothing changes, and no item comes up. *)
Record spares (K : string → Prop) p p' : Prop := {
  spared_item k : K k → mget k (items p') = mget k (items p);
  spared_tombstone k : K k → mget k (tombstones p') = mget k (tombstones p);
  spared_none k : mget k (items p) = None → mget k (items p') = None;
  spared_order l : Forall K l → aelements (order p) = idValues l → aelements (order p') = idValues l }.

#[export] Instance spares_preorder K : PreOrder (spares K).
Proof using Type.
  split; [by split|]. intros p1 p2 p3 [A1 A2 A3 A4] [B1 B2 B3 B4]. split; intros.
  - by rewrite B1, A1.
  - by rewrite B2, A2.
  - by apply B3, A3.
  - by apply B4, A4.
Qed.

Lemma foldl_spares {B} K (f : Part → B → Part) l p : (∀ q x, x ∈ l → spares K p q → spares K q (f q x)) →
  spares K p (foldl f p l).
Proof using L.
  intros Hf. induction l as [|x l IH] using rev_ind; [reflexivity|]. rewrite foldl_snoc.
  assert (spares K p (foldl f p l)) as H by (apply IH; intros; apply Hf; set_solver).
  etransitivity; [exact H|]. apply Hf; [set_solver|done].
Qed.

Lemma others_kept (l : list string) id : id ∉ l →
  inOrder <$> List.filter (λ v : V, negb (isString v id)) (idValues l) = JString <$> l.
Proof using Type.
  intros Hid. induction l as [|x l IH]; [done|]. apply not_elem_of_cons in Hid as [Hx Hid]. cbn.
  rewrite bool_decide_eq_false_2 by done. cbn. f_equal. by apply IH.
Qed.

Lemma deleteItem_spares (K : string → Prop) id p : ¬ K id → spares K p (deleteItem id clientID p).
Proof using L.
  intros Hid. unfold deleteItem. destruct (mget id (items p)); [|reflexivity]. split; cbn [items tombstones order].
  - intros k Hk. rewrite mget_delete. case_decide; congruence.
  - intros k Hk. rewrite mget_set. case_decide; congruence.
  - intros k Hk. rewrite mget_delete. by case_decide.
  - intros l Hl E. rewrite E.
    rewrite others_kept; [|intros Hin; rewrite Forall_forall in Hl; by apply Hid, Hl].
    apply reconcileOrder_elements.
Qed.

Lemma deleteItem_none id p : mget id (items (deleteItem id clientID p)) = None.
Proof using L. unfold deleteItem. destruct (mget id (items p)) eqn:E; [|done]. cbn. by rewrite mget_delete, decide_True. Qed.

Lemma cascade_spares (K : string → Prop) id p :
  (∀ k c, K k → mget k (items p) = Some c → attachedTo id c = false) → spares K p (deleteConnectedEdges id clientID p).
Proof using L.
  intros HK. unfold deleteConnectedEdges. apply foldl_spares. intros q x _ _.
  destruct (mget x (items p)) as [c|] eqn:E; [|reflexivity]. destruct (attachedTo id c) eqn:Ea; [|reflexivity].
  apply deleteItem_spares. intros Hx. by rewrite (HK x c Hx E) in Ea.
Qed.

Lemma cascades_spare (K : string → Prop) ids p :
  (∀ id k c, id ∈ ids → K k → mget k (items p) = Some c → attachedTo id c = false) →
  spares K p (foldl (λ p id, deleteConnectedEdges id clientID p) p ids).
Proof using L.
  intros HK. apply foldl_spares. intros q id Hid Hq. apply cascade_spares. intros k c Hk Hc.
  apply (HK id k); [done..|]. by rewrite <- (spared_item _ _ _ Hq k Hk).
Qed.

Lemma deletes_spare (K : string → Prop) ids p : Forall (λ id, ¬ K id) ids →
  spares K p (foldl onPart p (PDelete <$> ids)) ∧
  ∀ id, id ∈ ids → mget id (items (foldl onPart p (PDelete <$> ids))) = None.
Proof using L.
  intros HK. split.
  - apply foldl_spares. intros q op (id & -> & Hid)%list_elem_of_fmap _. rewrite Forall_forall in HK.
    by apply deleteItem_spares, HK.
  - intros id Hid. clear HK. induction ids as [|x ids IH] using rev_ind; [by apply not_elem_of_nil in Hid|].
    rewrite fmap_app, foldl_app. cbn [fmap list_fmap foldl onPart]. apply elem_of_app in Hid as [Hid|Hid%list_elem_of_singleton].
    + refine (spared_none _ _ _ (deleteItem_spares (λ _, False) x _ _) _ _); [tauto|auto].
    + subst. apply deleteItem_none.
Qed.

(** *** Items made and patched *)

(** What an item of the shared canvas reads as *)
Definition itemReads (c : V) (v : JsonValue) : Prop := (∃ m, c = SharedMap m) ∧ Reads c v.

(** The client may make the item. *)
Definition mayCreate (tombstones : M) (id : string) : Prop :=
  ∀ t, mget id tombstones = Some t → isOf clientID t = true.

(** Only one item changes. *)
Record onlyItem (id : string) p p' : Prop := {
  other_item k : k ≠ id → mget k (items p') = mget k (items p);
  other_tombstone k : k ≠ id → mget k (tombstones p') = mget k (tombstones p);
  same_order : order p' = order p }.

Lemma ensureItem_other id k m : k ≠ id → mget k (ensureItem id m) = mget k m.
Proof using L. intros Hk. unfold ensureItem. destruct (mget id m) as [[| | |]|]; try done; by rewrite mget_set, decide_False. Qed.

Lemma patchItem_other id patch k m : k ≠ id → mget k (patchItem id patch m) = mget k m.
Proof using L. intros Hk. unfold patchItem. destruct (mget id m) as [[| | |]|]; try done. by apply mget_child_ne. Qed.

Lemma patchItem_get id patch m m0 : mget id m = Some (SharedMap m0) →
  mget id (patchItem id patch m) = Some (SharedMap (patchFields id patch m0)).
Proof using L. intros E. unfold patchItem. rewrite E. apply mget_child_eq. by rewrite E. Qed.

Lemma create_applied p o id : plain (object o) = true →
  prop "id" o = Some (JString id) → id ≠ "" → mget id (items p) = None → mayCreate (tombstones p) id →
  onlyItem id p (onPart p (PCreate o)) ∧
  ∃ c, mget id (items (onPart p (PCreate o))) = Some c ∧ itemReads c (object o).
Proof using L.
  intros Hp Hid Hne Hnone Hmay. destruct o as [q gs]. unfold onPart, onItems, createItem, itemId. rewrite Hid. cbn [mbind option_bind asString].
  destruct (String.eqb_spec id "") as [|_]; [done|]. cbn [snd].
  set (m := patchItem id (mkPatch gs []) (ensureItem id (items p))).
  assert ((∀ k, k ≠ id → mget k m = mget k (items p)) ∧ ∃ c, mget id m = Some c ∧ itemReads c (JObject q gs)) as [Ho Hc].
  { split; [intros k Hk; unfold m; by rewrite patchItem_other, ensureItem_other|].
    eexists. split; [apply (patchItem_get id _ _ newMap); unfold ensureItem; by rewrite Hnone, mget_set, decide_True|].
    split; [by eexists|]. apply created_reads; [done|]. unfold prop in Hid. cbn [fst snd] in Hid.
    by rewrite jget_own in Hid by (cbv; set_solver). }
  destruct (mget id (tombstones p)) as [t|] eqn:Et; [rewrite (Hmay t Et)|]; (split; [split|]); cbn; try done.
  intros k Hk. rewrite mget_delete. by rewrite decide_False.
Qed.

Lemma patch_applied p id q0 fs q gs patch keys c :
  mget id (items p) = Some c → itemReads c (JObject q0 fs) → plain (JObject q0 fs) = true →
  noPairs units (JObject q0 fs) = true → plain (JObject q gs) = true → jm_get "id" gs = Some (JString id) →
  patches fs gs patch keys → bothKeys fs gs keys →
  onlyItem id p (onPart p (PPatch id patch)) ∧
  ∃ c, mget id (items (onPart p (PPatch id patch))) = Some c ∧ itemReads c (JObject q gs).
Proof using L.
  intros Hc [[m ->] Hr] Hp Hn Hq Hid Hpat Hk. split; [split; [intros k Hne; by apply patchItem_other|done..]|].
  eexists. split; [by apply (patchItem_get id patch (items p) m)|]. split; [by eexists|]. by eapply patched_reads.
Qed.

(** *** The items of [next], one after the other *)

Context (previous next : Fields) (Hprev : itemsOk previous) (Hnext : itemsOk next).
Context (Hpairs : ∀ id v, jm_get id previous.2 = Some v → noPairs units v = true).

(** Before an id's turn, and after *)
Definition ready p (id : string) : Prop :=
  option_Forall2 itemReads (mget id (items p)) (jm_get id previous.2) ∧
  (jm_get id previous.2 = None → mayCreate (tombstones p) id).
Definition settled p (id : string) : Prop := option_Forall2 itemReads (mget id (items p)) (jm_get id next.2).

Lemma onlyItem_refl id p : onlyItem id p p.
Proof using Type. by split. Qed.

Lemma itemReads_same c v w : plain w = true → same v w → itemReads c v → itemReads c w.
Proof using Type. intros Hp Hs [Hm Hr]. split; [done|]. by apply (Reads_same c v w). Qed.

Lemma itemOps_applied p id ops : is_Some (jm_get id next.2) → itemOps previous next id ops → ready p id →
  onlyItem id p (foldl onPart p ops) ∧ settled (foldl onPart p ops) id.
Proof using L Hprev Hnext Hpairs.
  intros [w Hw] Hops [Hr Hmay]. unfold itemOps in Hops. unfold settled. rewrite Hw in Hops |- *.
  destruct (itemsOk_get next id w Hnext Hw) as (_ & _ & q & gs & -> & Hid & Hpl & Hne).
  destruct (jm_get id previous.2) as [v|] eqn:Ev.
  - destruct (itemsOk_get previous id v Hprev Ev) as (_ & _ & q0 & fs & -> & _ & Hpl0 & _).
    destruct Hops as (patch & keys & Hpat & Hk & Hops). inversion Hr as [c ? Hc Ec|]; subst. symmetry in Ec.
    destruct (patch_applied p id q0 fs q gs patch keys c Ec Hc Hpl0 (Hpairs _ _ Ev) Hpl Hid Hpat Hk) as (Hoi & c' & E' & Hc').
    destruct Hops as [->|(-> & Es & Er)]; cbn [foldl]; [split; [done|]; rewrite E'; by constructor|].
    split; [apply onlyItem_refl|]. rewrite Ec. constructor. eapply itemReads_same; [done| |exact Hc].
    destruct Hprev as [_ Hids]. destruct (Hids id _ Ev) as (_ & ? & ? & [= <- <-] & Hid0).
    by apply (empty_patch_same id q0 fs q gs patch keys).
  - destruct Hops as ([q' gs'] & -> & Eo). cbn [foldl]. inversion Hr as [|Hnone]; subst. clear Hr.
    assert (plain (JObject q' gs') = true) as Hp' by (unfold object in Eo; cbn [fst snd] in Eo; by rewrite Eo, plain_normal).
    assert (gs' = map (λ f, (f.1, normal f.2)) gs) as -> by by injection Eo.
    destruct (create_applied p (q', map (λ f, (f.1, normal f.2)) gs) id) as (Hoi & c & Ec & Hc); auto.
    { unfold prop. cbn [fst snd]. rewrite jget_own by (cbv; set_solver). by rewrite get_map_normal, Hid. }
    split; [done|]. rewrite Ec. constructor. rewrite Eo in Hc. by eapply itemReads_same; [..|exact Hc]; [|apply normal_same].
Qed.
Lemma listedOps_applied ids ops p : NoDup ids → (∀ id, id ∈ ids → is_Some (jm_get id next.2)) →
  listedOps previous next ids ops → (∀ id, id ∈ ids → ready p id) →
  (∀ id, id ∈ ids → settled (foldl onPart p ops) id) ∧
  (∀ id, id ∉ ids → mget id (items (foldl onPart p ops)) = mget id (items p)) ∧
  order (foldl onPart p ops) = order p.
Proof using L Hprev Hnext Hpairs.
  revert p ops. induction ids as [|id ids IH]; intros p ops Hn Hin Hops Hready.
  { simpl in Hops. subst. split_and!; [|done..]. intros id []%not_elem_of_nil. }
  apply NoDup_cons in Hn as [Hid Hn]. destruct Hops as (l1 & l2 & -> & H1 & H2). rewrite foldl_app.
  destruct (itemOps_applied p id l1) as [[Hi Ht Ho] Hs]; [apply Hin; by left|done|apply Hready; by left|].
  set (p1 := foldl onPart p l1) in *.
  destruct (IH p1 l2 Hn) as (IH1 & IH2 & IH3); [intros; apply Hin; by right|done| |].
  { intros k Hk. assert (k ≠ id) by by intros ->. unfold ready, mayCreate. rewrite Hi, Ht by done. apply Hready. by right. }
  split_and!.
  - intros k [->|Hk]%elem_of_cons; [|by apply IH1]. unfold settled. by rewrite IH2.
  - intros k [Hk Hk']%not_elem_of_cons. rewrite IH2 by done. by apply Hi.
  - by rewrite IH3.
Qed.

Lemma listedOps_no_delete ids ops : listedOps previous next ids ops → Forall (λ op, isDelete op = false) ops.
Proof using Type.
  revert ops. induction ids as [|id ids IH]; intros ops; simpl; [by intros ->|].
  intros (l1 & l2 & -> & H1 & H2). apply Forall_app. split; [|by apply IH]. clear IH H2. unfold itemOps in H1.
  destruct (jm_get id next.2) as [[]|]; try (subst; constructor).
  destruct (jm_get id previous.2) as [[]|]; try (subst; constructor).
  - by destruct H1 as (? & ? & _ & _ & [->|(-> & _)]); repeat constructor.
  - by destruct H1 as (? & -> & _); repeat constructor.
Qed.

(** *** One kind of items *)

Definition partReads p (o : Fields) : Prop := ∀ id, option_Forall2 itemReads (mget id (items p)) (jm_get id o.2).
Definition kept (id : string) : Prop := is_Some (jm_get id next.2).
Definition creatable p : Prop := ∀ id, kept id → jm_get id previous.2 = None → mayCreate (tombstones p) id.

Lemma part_applied p0 p1 more : partReads p0 previous → creatable p0 → spares kept p0 p1 →
  listedOps previous next (sortedKeys next) more →
  partReads (foldl onPart p1 ((PDelete <$> goneIds previous next) ++ more)) next ∧
  ∀ l, Forall kept l → aelements (order p0) = idValues l →
    aelements (order (foldl onPart p1 ((PDelete <$> goneIds previous next) ++ more))) = idValues l.
Proof using L Hprev Hnext Hpairs.
  intros Hr Hc Hs Hops. rewrite foldl_app. destruct (deletes_spare kept (goneIds previous next) p1) as [Hd Hgone].
  { apply Forall_forall. unfold goneIds, kept. intros id Hid. apply list_elem_of_In, filter_In in Hid as [_ Hid].
    case_bool_decide; done. }
  set (p2 := foldl onPart p1 _) in *.
  assert (spares kept p0 p2) as H02 by (etransitivity; [exact Hs|exact Hd]). clear Hs Hd.
  assert (∀ id, id ∈ sortedKeys next ↔ kept id) as Hk.
  { intros id. unfold sortedKeys, kept. rewrite merge_sort_Permutation. apply jm_keys_get. }
  destruct (listedOps_applied (sortedKeys next) more p2) as (H1 & H2 & H3); [| |done| |].
  - unfold sortedKeys. rewrite merge_sort_Permutation. destruct Hnext as [Hp _]. destruct next as [q gs].
    by apply plain_object in Hp as [? _].
  - intros id. apply Hk.
  - intros id Hid%Hk. split; [rewrite (spared_item _ _ _ H02 id Hid); apply Hr|].
    intros En t. rewrite (spared_tombstone _ _ _ H02 id Hid). by apply Hc.
  - split.
    + intros id. destruct (decide (id ∈ sortedKeys next)) as [Hin|Hin]; [by apply H1|]. rewrite H2 by done.
      assert (jm_get id next.2 = None) as -> by (apply eq_None_not_Some; by intros ?%Hk).
      assert (mget id (items p2) = None) as ->; [|constructor]. specialize (Hr id).
      inversion Hr as [c v Hcv Ec Ev|Ec En]; [|by apply (spared_none _ _ _ H02)]. apply Hgone. unfold goneIds.
      apply list_elem_of_In, filter_In. split.
      * apply list_elem_of_In. unfold sortedKeys. rewrite merge_sort_Permutation. apply jm_keys_get. rewrite <- Ev. eauto.
      * rewrite Hk in Hin. by rewrite bool_decide_eq_false_2.
    + intros l Hl E. rewrite H3. by apply (spared_order _ _ _ H02).
Qed.
End apply.

(** ** Orders *)

Section orders.
Context {M A T : Type} `{Y : YTypes M A T} `{L : !YTypesLaws M A T}.

(** A list that names every live item once *)
Definition exact (ids : list string) (m : M) : Prop := NoDup ids ∧ ∀ id, id ∈ ids ↔ live m id.

Lemma strings_idValues ids : strings (idValues ids : list (YValue M A T)) = ids.
Proof. induction ids as [|id ids IH]; [done|]. cbn. f_equal. apply IH. Qed.

Lemma validOrder_exact ids m : exact ids m → validOrder (JString <$> ids) m = ids.
Proof using L.
  intros [Hn Hids]. unfold validOrder. rewrite omap_strings.
  fold (pickUnique (λ id, bool_decide (is_Some (mget id m))) [] ids). rewrite pickUnique_all; [| |done].
  - cbn [app]. rewrite <- (app_nil_r ids) at 2. f_equal.
    assert (∀ id, id ∈ merge_sort String.le (mkeys m) → id ∈ ids) as Hl.
    { intros id. rewrite merge_sort_Permutation, mkeys_get. apply Hids. }
    induction (merge_sort String.le (mkeys m)) as [|x l IH]; [done|]. rewrite filter_cons, decide_False.
    + apply IH. intros; apply Hl; by right.
    + intros Hx. apply Hx, Hl. by left.
  - apply Forall_forall. intros id Hid. apply bool_decide_eq_true_2, Hids, Hid.
Qed.

(** Such an order stays as it is. *)
Lemma canonicalizeOrder_exact ids o m : exact ids m → aelements o = idValues ids →
  aelements (fst (canonicalizeOrder o m)) = idValues ids.
Proof using L.
  intros Hx E. unfold canonicalizeOrder. rewrite E, strings_idValues, (validOrder_exact ids m Hx).
  destruct (_ && _); [exact E|]. apply reconcileOrder_elements.
Qed.

Lemma reorder_exact ids p : exact ids (items p) → aelements (order (reorder (JString <$> ids) p)) = idValues ids.
Proof using L. intros Hx. unfold reorder. cbn [order]. rewrite (validOrder_exact ids _ Hx). apply reconcileOrder_elements. Qed.

Lemma plain_strings (ids : list string) : plain (JArray (JString <$> ids)) = true.
Proof. induction ids as [|id ids IH]; [done|exact IH]. Qed.

Lemma equal_orders ids ids' : equalJson (JArray (JString <$> ids)) (JArray (JString <$> ids')) = true → ids = ids'.
Proof.
  intros H. apply equalJson_same in H; [|apply plain_strings..]. inversion H as [| | | | |? ? Hl|]; subst. clear H.
  revert ids' Hl. induction ids as [|x ids IH]; intros [|y ids'] Hl; inversion Hl as [|? ? ? ? Hxy Hl']; subst; [done|].
  inversion Hxy. subst. f_equal. by apply IH.
Qed.
End orders.

(** ** The whole canvas *)

(** The order of a part of a canvas names each of its items once. *)
Definition listsItems (l : list JsonValue) (o : Fields) : Prop :=
  ∃ ids, l = JString <$> ids ∧ NoDup ids ∧ ∀ id, id ∈ ids ↔ is_Some (jm_get id o.2).

Record canvasOk (c : StructuredCanvas) : Prop := {
  nodes_ok : itemsOk (nodes c);
  edges_ok : itemsOk (edges c);
  nodes_listed : listsItems (nodeOrder c) (nodes c);
  edges_listed : listsItems (edgeOrder c) (edges c) }.

(** An edge of both canvases was not on a node that is gone. *)
Definition edgesStay (previous next : StructuredCanvas) : Prop :=
  ∀ id p fs node, jm_get id (edges previous).2 = Some (JObject p fs) → is_Some (jm_get id (edges next).2) →
    jm_get "fromNode" fs = Some (JString node) ∨ jm_get "toNode" fs = Some (JString node) →
    is_Some (jm_get node (nodes previous).2) → is_Some (jm_get node (nodes next).2).

Section whole.
Context {M A T : Type} `{Y : YTypes M A T} `{L : !YTypesLaws M A T}.
Notation V := (YValue M A T).
Context (clientID : Z).
Implicit Types (p n e : Part (M := M) (A := A)) (root : M).

Definition noPairItems (o : Fields) : Prop := ∀ id v, jm_get id o.2 = Some v → noPairs units v = true.

(** A part shows items in their order. *)
Definition partShows p (o : Fields) (l : list JsonValue) : Prop :=
  partReads p o ∧ aelements (order p) = Plain <$> l.

Definition rootShows root (c : StructuredCanvas) : Prop :=
  ∃ n e, shows root (n, e) ∧ partShows n (nodes c) (nodeOrder c) ∧ partShows e (edges c) (edgeOrder c).

(** The client may make the items that are new. *)
Definition mayCreateAll root (previous next : StructuredCanvas) : Prop :=
  ∀ n e, shows root (n, e) →
    creatable clientID (nodes previous) (nodes next) n ∧ creatable clientID (edges previous) (edges next) e.

Lemma gone_in previous next id : itemsOk previous → id ∈ goneIds previous next →
  is_Some (jm_get id previous.2) ∧ jm_get id next.2 = None.
Proof.
  intros Hp. unfold goneIds. intros [Hs Hn]%list_elem_of_In%filter_In. apply list_elem_of_In in Hs. unfold sortedKeys in Hs.
  rewrite merge_sort_Permutation in Hs. apply jm_keys_get in Hs. split; [done|].
  case_bool_decide; [done|]. by apply eq_None_not_Some.
Qed.

Lemma holds_string (c : option V) j id : option_Forall2 Reads c j → holds c (JString id) = true → j = Some (JString id).
Proof using Type.
  unfold holds. destruct 1 as [c w Hr|]; [|done]. destruct c as [v| | |]; try done. intros ->%sameScalar_eq.
  inversion Hr as [? ? Hs| | |]; subst. by inversion Hs.
Qed.

Lemma attached_reads node c q fs : itemReads c (JObject q fs) → attachedTo node c = true →
  jm_get "fromNode" fs = Some (JString node) ∨ jm_get "toNode" fs = Some (JString node).
Proof using Type.
  intros [[m ->] Hr] Ha. inversion Hr as [| | |? ? ? _ Hg]; subst. cbn [attachedTo] in Ha.
  apply orb_true_iff in Ha as [Ha|Ha]; [left|right]; (eapply holds_string; [apply Hg|exact Ha]).
Qed.

(** The edges that stay are not taken along with the nodes that go. *)
Lemma cascade_spared previous next e : canvasOk previous → edgesStay previous next → partReads e (edges previous) →
  spares (kept (edges next)) e
    (foldl (λ e id, deleteConnectedEdges id clientID e) e (goneIds (nodes previous) (nodes next))).
Proof using L.
  intros Hp Hstay Hr. apply cascades_spare. intros id k c [Hid Hgone]%gone_in Hk Hc; [|apply Hp].
  apply not_true_iff_false. intros Ha. specialize (Hr k). rewrite Hc in Hr.
  inversion Hr as [? v Hv E1 Ev|]; subst. symmetry in Ev.
  destruct (itemsOk_get _ k v (edges_ok _ Hp) Ev) as (_ & _ & q & fs & -> & _).
  destruct (Hstay k q fs id Ev Hk) as [x Hx]; [by eapply attached_reads|done|congruence].
Qed.

(** What the last operations do to one part: its order becomes that of [next] *)
Lemma part_ordered (o next : Fields) (l l' : list JsonValue) p0 p :
  listsItems l o → listsItems l' next → partReads p next → aelements (order p0) = Plain <$> l →
  (∀ ids, Forall (kept next) ids → aelements (order p0) = idValues ids → aelements (order p) = idValues ids) →
  let p' := if equalJson (JArray l) (JArray l') then p else reorder l' p in
  partShows (mkPart (items p') (tombstones p') (fst (canonicalizeOrder (order p') (items p')))) next l'.
Proof using L.
  intros (ids0 & -> & _) (ids & -> & Hn & Hids) Hr Hl0 Hspared p'.
  assert (∀ l, Plain (M:=M) (A:=A) (T:=T) <$> (JString <$> l : list JsonValue) = idValues l) as Ev.
  { intros l. by rewrite <- list_fmap_compose. }
  assert (exact ids (items p)) as Hx.
  { split; [done|]. intros id. rewrite Hids. unfold live. specialize (Hr id). by inversion Hr; split; intros [? ?]; eauto. }
  assert (items p' = items p ∧ aelements (order p') = idValues ids) as [Ei Eo].
  { unfold p'. destruct (equalJson _ _) eqn:E; (split; [done|]); [|by apply reorder_exact].
    apply equal_orders in E as ->. apply Hspared; [|by rewrite Hl0]. apply Forall_forall. intros id. apply Hids. }
  unfold partShows, partReads. cbn [items order]. rewrite Ei, Ev. split; [exact Hr|]. by apply canonicalizeOrder_exact.
Qed.
(** The operations between two canvases, as operations on the two parts *)
Lemma diffCanvas_ops previous next : canvasOk previous → canvasOk next →
  ∃ moreN moreE operations, diffCanvas previous next = Returns operations ∧
    listedOps (nodes previous) (nodes next) (sortedKeys (nodes next)) moreN ∧
    listedOps (edges previous) (edges next) (sortedKeys (edges next)) moreE ∧
    ∀ n e, foldl (applyOperation clientID) (n, e) operations =
      let n' := foldl (onPart clientID) n ((PDelete <$> goneIds (nodes previous) (nodes next)) ++ moreN) in
      let e' := foldl (onPart clientID)
        (foldl (λ e id, deleteConnectedEdges id clientID e) e (goneIds (nodes previous) (nodes next)))
        ((PDelete <$> goneIds (edges previous) (edges next)) ++ moreE) in
      (if equalJson (JArray (nodeOrder previous)) (JArray (nodeOrder next)) then n' else reorder (nodeOrder next) n',
       if equalJson (JArray (edgeOrder previous)) (JArray (edgeOrder next)) then e' else reorder (edgeOrder next) e').
Proof using L.
  intros Hp Hn.
  destruct (diffItems_ops Node (nodes previous) (nodes next)) as (mN & EN & HN); [apply Hp|apply Hn|].
  destruct (diffItems_ops Edge (edges previous) (edges next)) as (mE & EE & HE); [apply Hp|apply Hn|].
  exists mN, mE. eexists. unfold diffCanvas. rewrite EN. cbn [mbind throws_bind]. rewrite EE. split; [reflexivity|].
  split; [done|]. split; [done|]. intros n e.
  rewrite !fmap_app, !foldl_app, node_deletes, node_ops by by eapply listedOps_no_delete.
  rewrite !edge_ops. by destruct (equalJson _ _), (equalJson _ _).
Qed.

End whole.

(** ** Two updates of a small canvas *)

Lemma itemsOk_list fs : plain (object (literal fs)) = true →
  Forall (λ f, f.1 ≠ "" ∧ ∃ p gs, f.2 = JObject p gs ∧ jm_get "id" gs = Some (JString f.1)) fs → itemsOk (literal fs).
Proof. intros Hp Hf. split; [done|]. intros id v Hg%jm_get_in. rewrite Forall_forall in Hf. exact (Hf _ Hg). Qed.

Lemma listsItems_keys fs : plain (object (literal fs)) = true → listsItems (JString <$> jm_keys fs) (literal fs).
Proof. intros [Hw _]%plain_object. exists (jm_keys fs). split; [done|]. split; [exact Hw|]. intros id. apply jm_keys_get. Qed.

Lemma noPairItems_list {M A T} `{Y : YTypes M A T} fs : Forall (λ f, noPairs units f.2 = true) fs → noPairItems (literal fs).
Proof. intros Hf id v Hg%jm_get_in. rewrite Forall_forall in Hf. exact (Hf _ Hg). Qed.

Module CanvasRun.
Import Trees.
Definition client : Z := 7.
#[local] Instance types : YTypes TMap (list Tree) utf16 := treeTypes client.
#[local] Instance types_laws : YTypesLaws TMap (list Tree) utf16 := treeTypes_laws client.

Definition node (id text : string) : string * JsonValue :=
  (id, JObject ObjectPrototype [("id", JString id); ("text", JString text)]).
Definition edge (id from to : string) : string * JsonValue :=
  (id, JObject ObjectPrototype [("id", JString id); ("fromNode", JString from); ("toNode", JString to)]).
Definition canvas (ns es : list (string * JsonValue)) : StructuredCanvas :=
  mkCanvas (literal ns) (literal es) (JString <$> jm_keys ns) (JString <$> jm_keys es).

Definition empty : StructuredCanvas := canvas [] [].
Definition first : StructuredCanvas := canvas [node "a" "one"; node "b" "two"] [edge "e" "a" "b"; edge "f" "b" "b"].
Definition second : StructuredCanvas := canvas [node "c" "three"; node "b" "two!"] [edge "f" "b" "b"; edge "g" "c" "b"].

Definition start : TMap := fst (openRoot []).
Definition made (root : TMap) (previous next : StructuredCanvas) : TMap :=
  match diffCanvas previous next with
  | Returns operations => applyCanvasOperations root operations client
  | Throws _ => root
  end.

Definition some_map (m : TMap) : option TValue := Some (SharedMap m).

Ltac canvas_ok :=
  constructor; [apply itemsOk_list; [reflexivity|]..|apply listsItems_keys; reflexivity|apply listsItems_keys; reflexivity];
  repeat constructor; try done; eexists _, _; by split.

Lemma canvases_ok : canvasOk empty ∧ canvasOk first ∧ canvasOk second.
Proof. split_and!; canvas_ok. Qed.

Ltac no_tombstones :=
  intros n e (_ & _ & H3 & H4 & _);
  assert (some_map [] = some_map (tombstones n)) as [= E3] by (etransitivity; [|exact H3]; vm_compute; reflexivity);
  assert (some_map [] = some_map (tombstones e)) as [= E4] by (etransitivity; [|exact H4]; vm_compute; reflexivity);
  split; intros id _ _ t Ht; [rewrite <- E3 in Ht|rewrite <- E4 in Ht]; discriminate Ht.

Lemma start_shows : rootShows start empty.
Proof. eexists _, _. split; [apply openRoot_shows|]. by split; (split; [constructor|]). Qed.


(** An edge that moves away from a node as the node goes is lost: the node's
    deletion takes it along, and the patch that follows finds no edge. *)
Definition moved : StructuredCanvas := canvas [node "b" "two"] [edge "e" "b" "b"; edge "f" "b" "b"].
Definition edgeIn (root : TMap) (id : string) : bool :=
  match mget "edges" root with Some (SharedMap edges) => bool_decide (is_Some (mget id edges)) | _ => false end.

Example moved_edge_lost :
  let root := made start empty first in
  edgeIn root "e" = true ∧ bool_decide (is_Some (prop "e" (edges moved))) = true ∧
  edgeIn (made root first moved) "e" = false ∧ edgeIn (made root first moved) "f" = true.
Proof. by vm_compute. Qed.
End CanvasRun.
