(* ===== verification/CanvasSnapshot.v ===== *)
(** What a snapshot of a canvas file does to the shared canvas: which items it
    takes out, which it writes, and that it brings nothing back that another
    device deleted and takes nothing out that another device added. *)
From Stdlib Require Import String Ascii.
From S2P Require Import Prelude JsString JsMap Json JsonFacts TextDiff YTypes Reconcile Canvas CanvasSpec CanvasDiff CanvasApply.
From Stdlib Require Import QArith.Qcanon.
#[local] Open Scope string_scope.
#[local] Open Scope list_scope.
#[local] Open Scope Z_scope.

Section snapshot.
Context {M A T : Type} `{Y : YTypes M A T} `{L : !YTypesLaws M A T}.
Notation V := (YValue M A T).
Context (clientID : Z).
Implicit Types (incoming : Fields) (known : option Fields) (c : M * M).

(** An item and its tombstone, nothing else *)
Definition entry (id : string) c : option V * option V := (mget id c.1, mget id c.2).

(** An item that was not in what the snapshot was made from: it is not in the
    base, or with no base another client wrote it. *)
Definition addedSince known (items : M) (id : string) : bool :=
  match known with
  | Some known => bool_decide (jm_get id known.2 = None)
  | None => match mclient id items with Some client => negb (client =? clientID) | None => false end
  end.

(** Somebody else deleted it. *)
Definition deletedByOther (tombstone : option V) : bool :=
  match tombstone with Some tombstone => negb (isOf clientID tombstone) | None => false end.

(** What becomes of one id *)
Definition snapshotEntry incoming known (before after : M * M) (id : string) : Prop :=
  match jm_get id incoming.2 with
  | None =>
    if bool_decide (is_Some (mget id before.1)) && negb (addedSince known before.1 id)
    then entry id after = (None, Some (Plain (number clientID)))
    else entry id after = entry id before
  | Some v =>
    if deletedByOther (mget id before.2) then entry id after = entry id before
    else mget id after.2 = None ∧ ∃ item, mget id after.1 = Some item ∧ itemReads item v
  end.

(** *** Items that the snapshot does not have *)

Lemma missing_other incoming known c id k : k ≠ id →
  entry k (reconcileMissing incoming clientID known c id) = entry k c ∧
  mclient k (reconcileMissing incoming clientID known c id).1 = mclient k c.1.
Proof using L.
  intros Hk. destruct c as [items tombs]. unfold reconcileMissing. destruct (prop id incoming); [done|].
  case_match; [done|]. unfold entry. cbn [fst snd].
  by rewrite mget_delete, mget_set, mclient_delete, !decide_False.
Qed.

Definition plainKeys (o : Fields) : Prop := plain (object o) = true.

Lemma prop_own id o : id ∉ inherited → prop id o = jm_get id o.2.
Proof using Type. intros Hi. unfold prop. by rewrite jget_own. Qed.

Lemma missing_this incoming known c id : id ∉ inherited →
  entry id (reconcileMissing incoming clientID known c id) =
  match jm_get id incoming.2 with
  | Some _ => entry id c
  | None => if addedSince known c.1 id then entry id c else (None, Some (Plain (number clientID)))
  end.
Proof using L.
  intros Hi. destruct c as [items tombs]. unfold reconcileMissing, addedSince. rewrite prop_own by done.
  destruct (jm_get id incoming.2); [done|]. cbn [fst].
  assert (match known with
    | Some known => negb (bool_decide (is_Some (prop id known)))
    | None => match mclient id items with Some client => negb (client =? clientID) | None => false end
    end = match known with
    | Some known => bool_decide (jm_get id known.2 = None)
    | None => match mclient id items with Some client => negb (client =? clientID) | None => false end
    end) as ->.
  { destruct known as [known|]; [|done]. rewrite prop_own by done. destruct (jm_get id known.2) as [v|].
    - rewrite (bool_decide_eq_true_2 (is_Some _)) by eauto. by rewrite bool_decide_eq_false_2.
    - rewrite (bool_decide_eq_false_2 (is_Some _)) by by intros []. by rewrite bool_decide_eq_true_2. }
  case_match; [done|]. unfold entry. cbn [fst snd]. by rewrite mget_delete, mget_set, !decide_True.
Qed.

Lemma missing_all incoming known c : (∀ id, is_Some (mget id c.1) → id ∉ inherited) →
  ∀ id, entry id (foldl (reconcileMissing incoming clientID known) c (mkeys c.1)) =
    match jm_get id incoming.2 with
    | Some _ => entry id c
    | None =>
      if bool_decide (is_Some (mget id c.1)) && negb (addedSince known c.1 id)
      then (None, Some (Plain (number clientID))) else entry id c
    end.
Proof using L.
  intros Hi id. pose proof (mkeys_nodup c.1) as Hn. set (ids := mkeys c.1) in *.
  assert (∀ ids d, id ∉ ids → entry id (foldl (reconcileMissing incoming clientID known) d ids) = entry id d ∧
    mclient id (foldl (reconcileMissing incoming clientID known) d ids).1 = mclient id d.1) as Hskip.
  { clear -L. induction ids as [|k ids IH]; intros d; [done|]. intros [Hk Hin]%not_elem_of_cons. cbn [foldl].
    destruct (IH (reconcileMissing incoming clientID known d k) Hin) as [-> ->]. by apply missing_other. }
  destruct (bool_decide (is_Some (mget id c.1))) eqn:Hlive; bools; cbn [andb].
  - assert (id ∈ ids) as Hin by by apply mkeys_get. apply list_elem_of_split in Hin as (l1 & l2 & El). rewrite El in Hn |- *.
    apply NoDup_app in Hn as (_ & H1 & H2). apply NoDup_cons in H2 as [H2 _].
    rewrite foldl_app. cbn [foldl]. destruct (Hskip l2 (reconcileMissing incoming clientID known
      (foldl (reconcileMissing incoming clientID known) c l1) id) H2) as [-> _].
    rewrite missing_this by auto. destruct (Hskip l1 c) as [-> Ec]; [intros Hl; apply (H1 id Hl); by left|].
    unfold addedSince in *. rewrite Ec. destruct (jm_get id incoming.2); [done|]. by case_match.
  - destruct (Hskip ids c) as [-> _]; [unfold ids; by rewrite mkeys_get|]. by destruct (jm_get id incoming.2).
Qed.
(** *** Items of the snapshot *)

Lemma item_other c id v k : k ≠ id → entry k (reconcileItem clientID c (id, v)) = entry k c.
Proof using L.
  intros Hk. destruct c as [items tombs]. unfold reconcileItem. destruct (asRecord (Some v)) as [o|]; [|done].
  assert (∀ o (m : M), mget k (match mget id (ensureItem id m) with
    | Some (SharedMap current) => mchild id (SharedMap (reconcileItemFields current o)) (ensureItem id m)
    | _ => ensureItem id m end) = mget k m) as Hw.
  { intros o' m. rewrite <- (ensureItem_other id k m Hk). destruct (mget id (ensureItem id m)) as [[| | |]|]; try done.
    by rewrite mget_child_ne. }
  destruct (mget id tombs); [destruct (isOf _ _); [|done]|]; unfold entry; cbn [fst snd]; rewrite Hw; [|done].
  by rewrite mget_delete, decide_False.
Qed.

Lemma item_this c id q fs : plain (JObject q fs) = true → (∀ v, mget id c.1 = Some v → readable v) →
  let c' := reconcileItem clientID c (id, JObject q fs) in
  if deletedByOther (mget id c.2) then entry id c' = entry id c
  else mget id c'.2 = None ∧ ∃ item, mget id c'.1 = Some item ∧ itemReads item (JObject q fs).
Proof using L.
  intros Hp Hr. destruct c as [items tombs]. cbn [fst snd] in *. unfold reconcileItem, deletedByOther. cbn [asRecord].
  assert (∃ m0, mget id (ensureItem id items) = Some (SharedMap m0) ∧
    ∀ k v, mget k m0 = Some v → readable v ∧ k ∉ inherited) as (m0 & E0 & H0).
  { unfold ensureItem. destruct (mget id items) as [v|] eqn:E; [|exists newMap; rewrite mget_set, decide_True by done; split; [done|]; apply new_entries].
    destruct v as [| |a|t]; try (exists newMap; rewrite mget_set, decide_True by done; split; [done|]; apply new_entries).
    exists m. split; [done|]. apply readable_map, (Hr _ eq_refl). }
  rewrite E0. set (items' := mchild id _ (ensureItem id items)).
  assert (∃ item, mget id items' = Some item ∧ itemReads item (JObject q fs)) as Hi.
  { eexists. split; [apply mget_child_eq; by rewrite E0|]. split; [by eexists|].
    apply (reconcileMap_reads None q fs m0 Hp); [|done].
    apply plain_object in Hp as (_ & _ & Hf). apply Forall_forall. intros f Hin current key Hc.
    apply reconcileValue_reads; [|done]. by apply (proj1 (Forall_forall _ _) Hf). }
  destruct (mget id tombs) as [t|] eqn:Et; [destruct (isOf clientID t); cbn [negb]|]; [|done|done].
  cbn [fst snd]. split; [by rewrite mget_delete, decide_True|done].
Qed.

(** Every item of a canvas file is an object. *)
Definition objects (o : Fields) : Prop := plain (object o) = true ∧ ∀ id v, jm_get id o.2 = Some v → isRecord v = true.

Lemma items_all incoming c : objects incoming → (∀ id v, mget id c.1 = Some v → readable v) → ∀ id,
  match jm_get id incoming.2 with
  | Some v =>
    if deletedByOther (mget id c.2) then entry id (foldl (reconcileItem clientID) c incoming.2) = entry id c
    else mget id (foldl (reconcileItem clientID) c incoming.2).2 = None ∧
      ∃ item, mget id (foldl (reconcileItem clientID) c incoming.2).1 = Some item ∧ itemReads item v
  | None => entry id (foldl (reconcileItem clientID) c incoming.2) = entry id c
  end.
Proof using L.
  intros [Hp Ho] Hr id. destruct incoming as [q fs]. cbn [snd] in *.
  assert (∀ l d, id ∉ jm_keys l → entry id (foldl (reconcileItem clientID) d l) = entry id d) as Hskip.
  { clear -L. induction l as [|[k v] l IH]; intros d; [done|]. intros [Hk Hin]%not_elem_of_cons. cbn [foldl].
    rewrite IH by done. by apply item_other. }
  destruct (jm_get id fs) as [v|] eqn:E; [|apply Hskip; rewrite jm_keys_get, E; by intros []].
  pose proof (Ho id v E) as Hrec. pose proof (plain_get q fs id v Hp E) as Hpv.
  apply plain_object in Hp as [Hw _]. pose proof (jm_get_in _ _ _ E) as Hin.
  apply list_elem_of_split in Hin as (l1 & l2 & ->). unfold jm_wf, jm_keys in Hw. cbn [snd] in Hw. rewrite map_app in Hw.
  apply NoDup_app in Hw as (_ & H1 & H2). apply NoDup_cons in H2 as [H2 _].
  rewrite foldl_app. cbn [foldl]. set (d := foldl (reconcileItem clientID) c l1).
  assert (entry id d = entry id c) as Ed by (apply Hskip; intros Hl; apply (H1 id Hl); by left).
  unfold entry in Ed. injection Ed as Ed1 Ed2. destruct v as [| | | | |p' gs|]; try done.
  pose proof (item_this d id p' gs Hpv) as Ht. rewrite Ed2 in Ht. cbn zeta in Ht.
  pose proof (Hskip l2 (reconcileItem clientID d (id, JObject p' gs)) H2) as Es. unfold entry in Es. injection Es as Es1 Es2.
  specialize (Ht ltac:(intros v; rewrite Ed1; apply Hr)).
  destruct (deletedByOther (mget id c.2)).
  - unfold entry in *. rewrite Es1, Es2. by rewrite Ht, Ed1, Ed2.
  - by rewrite Es1, Es2.
Qed.

Lemma snapshot_entries incoming known items tombs : objects incoming →
  (∀ id v, mget id items = Some v → readable v ∧ id ∉ inherited) →
  ∀ id, snapshotEntry incoming known (items, tombs) (reconcileCanvasItems incoming clientID known items tombs) id.
Proof using L.
  intros Ho Hr id. unfold reconcileCanvasItems, snapshotEntry. cbn [fst snd].
  set (c := foldl (reconcileMissing incoming clientID known) (items, tombs) (mkeys items)).
  assert (∀ id, entry id c = _) as Hc by (apply (missing_all incoming known (items, tombs)); intros k [v Hv]; by apply (Hr k v)).
  cbn [fst] in Hc. pose proof (items_all incoming c Ho) as Hi. specialize (Hi ltac:(
    intros k v Hv; specialize (Hc k); unfold entry in Hc; rewrite Hv in Hc;
    repeat case_match; injection Hc as Hc1 Hc2; try done; by apply (Hr k v))).
  specialize (Hi id). specialize (Hc id).
  destruct (jm_get id incoming.2) as [v|].
  - unfold entry in Hc. injection Hc as Hc1 Hc2. cbn [fst snd] in *. rewrite Hc2 in Hi. unfold entry in *. cbn [fst snd] in *.
    by rewrite Hc1, Hc2 in Hi.
  - destruct (_ && _); by rewrite Hi, Hc.
Qed.
(** An order of ids *)
Definition stringsOnly (l : list JsonValue) : Prop := ∃ ids, l = JString <$> ids.

Lemma order_snapshot l (o : A) : stringsOnly l → aelements (reconcileOrder o l) = Plain <$> l.
Proof using L. intros [ids ->]. rewrite reconcileOrder_elements. unfold idValues. by rewrite <- list_fmap_compose. Qed.

(** What there is can be read. *)
Definition readableItems (items : M) : Prop := ∀ id v, mget id items = Some v → readable v ∧ id ∉ inherited.

End snapshot.

(** ** A snapshot by another device *)

Module SnapshotRun.
Import Trees.
Definition client : Z := 9.
#[local] Instance types : YTypes TMap (list Tree) utf16 := treeTypes client.
#[local] Instance types_laws : YTypesLaws TMap (list Tree) utf16 := treeTypes_laws client.

Definition item (id text : string) : string * (Z * Tree) :=
  (id, (7, TreeMap [("id", (7, Leaf (JString id))); ("color", (7, Leaf (JString text)))])).
Definition mapOf (es : list (string * (Z * Tree))) : Z * Tree := (7, TreeMap es).

(** Device 7 made [a] and [b] and deleted [d]. *)
Definition shared : TMap := [("nodes", mapOf [item "a" "1"; item "b" "2"]); ("edges", mapOf []);
  ("deletedNodeIds", mapOf [("d", (7, Leaf (number 7)))]); ("deletedEdgeIds", mapOf []);
  ("nodeOrder", (7, TreeArray [Leaf (JString "a"); Leaf (JString "b")])); ("edgeOrder", (7, TreeArray []))].

Definition node (id color : string) : string * JsonValue :=
  (id, JObject ObjectPrototype [("id", JString id); ("color", JString color)]).
Definition canvas (ns : list (string * JsonValue)) : StructuredCanvas :=
  mkCanvas (literal ns) (literal []) (JString <$> jm_keys ns) [].
Definition file : StructuredCanvas := canvas [node "b" "3"; node "c" "4"; node "d" "5"].
Definition before : StructuredCanvas := canvas [node "a" "1"; node "b" "2"].

Definition parts := snd (openRoot shared).

Lemma item_readable id text : noPairs units (JString id) = true → noPairs units (JString text) = true →
  readable (seen (item id text).2.2).
Proof.
  intros H1 H2. exists (JObject ObjectPrototype [("id", JString id); ("color", JString text)]).
  split; [|split; [reflexivity|]].
  - constructor; [by repeat constructor; set_solver|]. intros k. cbn. repeat case_decide; repeat constructor.
  - cbn in *. by rewrite H1, H2.
Qed.


Definition nodeIds (root : TMap) : list string :=
  match mget "nodes" root with Some (SharedMap m) => mkeys m | _ => [] end.

(** With the base, [a] is a deletion by device 9, and without it an addition
    by device 7; [d] stays deleted, whatever the file says. *)
Example snapshots : nodeIds (reconcileCanvas shared file client (Some before)) = ["b"; "c"]%string ∧
  nodeIds (reconcileCanvas shared file client None) = ["a"; "b"; "c"]%string.
Proof. by vm_compute. Qed.
End SnapshotRun.
