(* ===== verification/CanvasText.v ===== *)
(** The text of a canvas file: what is written reads back as the same canvas,
    and writing that again changes nothing. *)
From Stdlib Require Import String Ascii.
From stdpp Require Import countable.
From S2P Require Import Prelude JsString JsMap Json JsonFacts TextDiff YTypes Reconcile Canvas CanvasSpec CanvasDiff CanvasApply.
From Stdlib Require Import QArith.Qcanon.
#[local] Open Scope string_scope.
#[local] Open Scope list_scope.
#[local] Open Scope Z_scope.

(** ** Lists of items *)

(** The items of these ids, and the ids *)
Definition itemEntries (item : string → JsonValue) (ids : list string) : list (string * JsonValue) := (λ id, (id, item id)) <$> ids.

Lemma entries_get item ids id : jm_get id (itemEntries item ids) = if decide (id ∈ ids) then Some (item id) else None.
Proof.
  induction ids as [|x ids IH]; [done|]. cbn. unfold itemEntries in IH. rewrite IH. repeat case_decide; subst; set_solver.
Qed.

Lemma entries_keys item ids : jm_keys (itemEntries item ids) = ids.
Proof. unfold jm_keys, itemEntries. rewrite <- list_fmap_compose. apply list_fmap_id. Qed.

Lemma set_new {V} k (v : V) (m : list (string * V)) : k ∉ jm_keys m → jm_set k v m = m ++ [(k, v)].
Proof.
  induction m as [|[k1 v1] m IH]; [done|]. intros [Hk Hm]%not_elem_of_cons. cbn. rewrite decide_False by done. by rewrite IH.
Qed.

(** An item under its id *)
Definition ownId (item : string → JsonValue) (id : string) : Prop :=
  ∃ p fs, item id = JObject p fs ∧ jm_get "id" fs = Some (JString id).

Lemma collect_entries item ids : NoDup ids → Forall (ownId item) ids →
  collect (item <$> ids) = (itemEntries item ids, JString <$> ids).
Proof.
  intros Hn Hf. unfold collect.
  enough (∀ done, NoDup (done ++ ids) → foldl (λ '(m, order) v,
      match asRecord (Some v) ≫= λ o, prop "id" o ≫= asString with
      | Some id => (jm_set id v m, order ++ [JString id])
      | None => (m, order)
      end) (itemEntries item done, JString <$> done) (item <$> ids) =
    (itemEntries item (done ++ ids), JString <$> (done ++ ids))) as H by exact (H [] Hn).
  clear Hn. induction Hf as [|id ids (p & fs & E & Hid) _ IH]; intros l Hn; [by rewrite app_nil_r|].
  cbn [fmap list_fmap foldl]. rewrite E. unfold prop. cbn [asRecord mbind option_bind fst snd].
  rewrite jget_own, Hid by (cbv; set_solver). cbn [mbind option_bind asString].
  rewrite set_new by (rewrite entries_keys; apply NoDup_app in Hn; set_solver).
  replace (itemEntries item l ++ [(id, JObject p fs)]) with (itemEntries item (l ++ [id])).
  - replace ((JString <$> l) ++ [JString id]) with (JString <$> (l ++ [id])) by by rewrite fmap_app.
    rewrite IH; by rewrite <- (assoc_L (++)).
  - unfold itemEntries. rewrite fmap_app. cbn. by rewrite E.
Qed.

(** *** Written in order *)

Lemma list_filter_all {B} (P : B → Prop) `{!∀ x, Decision (P x)} l : Forall P l → filter P l = l.
Proof. induction 1 as [|x l Hx _ IH]; [done|]. by rewrite filter_cons, decide_True, IH. Qed.

(** The ids of a canvas's order, then those it does not name *)
Definition itemIds (order : list JsonValue) (o : Fields) : list string :=
  filter (λ id, is_Some (jm_get id o.2)) (uniqueCanvasOrder (omap asString order) o).

Definition itemAt (o : Fields) (id : string) : JsonValue := default JNull (jm_get id o.2).

Lemma itemIds_nodup order (o : Fields) : NoDup (itemIds order o).
Proof.
  apply NoDup_filter. unfold uniqueCanvasOrder.
  fold (pickUnique (λ id, bool_decide (is_Some (prop id o))) [] (omap asString order ++ ownKeys o)).
  apply pickUnique_nodup, NoDup_nil_2.
Qed.

Lemma itemIds_elem order (o : Fields) id : id ∈ itemIds order o ↔ is_Some (jm_get id o.2).
Proof.
  unfold itemIds. rewrite list_elem_of_filter. unfold uniqueCanvasOrder.
  fold (pickUnique (λ id, bool_decide (is_Some (prop id o))) [] (omap asString order ++ ownKeys o)).
  rewrite pickUnique_elem, elem_of_app. split; [tauto|]. intros Hs. split; [done|]. right.
  split; [right; by apply jm_keys_get|]. apply bool_decide_eq_true_2. unfold prop, jget. destruct Hs as [v ->]. eauto.
Qed.

Lemma shown_items (o : Fields) (ids : list string) : (∀ id v, jm_get id o.2 = Some v → isRecord v = true) →
  omap (λ id, prop id o ≫= λ v, if isRecord v then Some v else None) ids =
  itemAt o <$> filter (λ id, is_Some (jm_get id o.2)) ids.
Proof.
  intros Ho. induction ids as [|id ids IH]; [done|].
  cbn [omap list_omap]. rewrite filter_cons, IH. unfold prop, jget. destruct (jm_get id o.2) as [v|] eqn:E; cbn [mbind option_bind].
  - pose proof (Ho id v E) as Hv. rewrite decide_True by eauto. destruct v; try done. cbn. unfold itemAt at 2. by rewrite E.
  - rewrite decide_False by by intros []. destruct (inherits o.1 id); done.
Qed.

Lemma ordered_items order (o : Fields) : (∀ id v, jm_get id o.2 = Some v → isRecord v = true) →
  ordered (Some (JArray order)) (Some (object o)) = itemAt o <$> itemIds order o.
Proof. destruct o as [q gs]. apply shown_items. Qed.

(** *** Reading back what was written *)

Section text.
Context `{J : JsonText} `{JL : !JsonTextLaws}.

Definition ownItems (o : Fields) : Prop :=
  plain (object o) = true ∧
  ∀ id v, jm_get id o.2 = Some v → ∃ p fs, v = JObject p fs ∧ jm_get "id" fs = Some (JString id).

Lemma itemsOk_own o : itemsOk o → ownItems o.
Proof using Type. intros [Hp Ho]. split; [done|]. intros id v Hv. by destruct (Ho id v Hv). Qed.

(** What a part of a canvas reads back as *)
Definition readBack (order : list JsonValue) (o : Fields) : Fields := literal (itemEntries (λ id, normal (itemAt o id)) (itemIds order o)).

Lemma readBack_get order o id : jm_get id (readBack order o).2 = normal <$> jm_get id o.2.
Proof using Type.
  unfold readBack. cbn [literal snd]. rewrite entries_get. pose proof (itemIds_elem order o id) as He. unfold itemAt.
  destruct (jm_get id o.2) as [v|]; case_decide as Hd; try done; exfalso; [apply Hd, He; eauto|]. by apply He in Hd as [].
Qed.

Lemma ownItems_normal o id : ownItems o → is_Some (jm_get id o.2) → ownId (λ id, normal (itemAt o id)) id.
Proof using Type.
  intros [_ Ho] [v Hv]. destruct (Ho id v Hv) as (p & fs & -> & Hid). unfold ownId, itemAt. rewrite Hv. cbn.
  eexists _, _. split; [done|]. by rewrite get_map_normal, Hid.
Qed.

Lemma collect_written order o : ownItems o →
  collect (normal <$> ordered (Some (JArray order)) (Some (object o))) =
  ((readBack order o).2, JString <$> itemIds order o).
Proof using Type.
  intros Ho. rewrite ordered_items by (intros id v Hv; by destruct (proj2 Ho id v Hv) as (p & fs & -> & _)).
  rewrite <- list_fmap_compose. apply (collect_entries (λ id, normal (itemAt o id))); [apply itemIds_nodup|].
  apply Forall_forall. intros id Hid%itemIds_elem. by apply ownItems_normal.
Qed.

Lemma ordered_plain order o : ownItems o → Forall (λ v, plain v = true) (ordered (Some (JArray order)) (Some (object o))).
Proof using Type.
  intros [Hp Ho]. rewrite ordered_items by (intros id v Hv; by destruct (Ho id v Hv) as (p & fs & -> & _)).
  apply Forall_fmap, Forall_forall. intros id [v Hv]%itemIds_elem. unfold itemAt. cbn. rewrite Hv. by apply (plain_get o.1 o.2 id v).
Qed.

Definition written (c : StructuredCanvas) : StructuredCanvas :=
  mkCanvas (readBack (nodeOrder c) (nodes c)) (readBack (edgeOrder c) (edges c))
    (JString <$> itemIds (nodeOrder c) (nodes c)) (JString <$> itemIds (edgeOrder c) (edges c)).

Lemma two_lists_plain l1 l2 : Forall (λ v, plain v = true) l1 → Forall (λ v, plain v = true) l2 →
  plain (JObject ObjectPrototype [("nodes", JArray l1); ("edges", JArray l2)]) = true.
Proof using Type.
  intros H1 H2. apply plain_object. split; [by apply (bool_decide_unpack (NoDup ["nodes"; "edges"]%string))|].
  split; [constructor; [|constructor; [|constructor]]; by apply (bool_decide_unpack _)|].
  constructor; [by apply plain_array|]. constructor; [by apply plain_array|constructor].
Qed.

Lemma file_plain c : ownItems (nodes c) → ownItems (edges c) → plain (fileValue (asValue c)) = true.
Proof using Type. intros Hn He. by apply two_lists_plain; apply ordered_plain. Qed.

Lemma fileValue_canvas c : fileValue (asValue c) = JObject ObjectPrototype
  [("nodes", JArray (ordered (Some (JArray (nodeOrder c))) (Some (object (nodes c)))));
   ("edges", JArray (ordered (Some (JArray (edgeOrder c))) (Some (object (edges c)))))].
Proof using Type. reflexivity. Qed.

Lemma canvasOf_lists l1 l2 : canvasOf (JObject ObjectPrototype [("nodes", JArray l1); ("edges", JArray l2)]) =
  Returns (mkCanvas (literal (collect l1).1) (literal (collect l2).1) (collect l1).2 (collect l2).2).
Proof using Type.
  transitivity (let '(nodes, nodeOrder) := collect l1 in let '(edges, edgeOrder) := collect l2 in
    Returns (E := ()) (mkCanvas (literal nodes) (literal edges) nodeOrder edgeOrder)); [reflexivity|].
  by destruct (collect l1), (collect l2).
Qed.

Lemma parse_written c : ownItems (nodes c) → ownItems (edges c) →
  parseCanvas (serializeCanvas (asValue c)) = Returns (written c).
Proof using JL.
  intros Hn He. unfold parseCanvas, serializeCanvas.
  destruct (String.eqb_spec (trim (stringify 2 (fileValue (asValue c)) ++ newline)) "") as [Hb|_].
  { by apply stringify_not_blank in Hb. }
  rewrite parse_stringify by by apply file_plain. cbn [mbind throws_bind].
  rewrite fileValue_canvas. cbn [normal map fst snd]. rewrite canvasOf_lists.
  pose proof (collect_written (nodeOrder c) (nodes c) Hn) as EN. pose proof (collect_written (edgeOrder c) (edges c) He) as EE.
  change (map normal) with (fmap (M := list) normal). by rewrite EN, EE.
Qed.

(** *** Written again *)

Lemma normal_normal v : normal (normal v) = normal v.
Proof using Type.
  induction v as [| | | |l IH|p fs IH|] using json_ind'; try done; cbn [normal]; f_equal; rewrite map_map; apply map_ext_Forall.
  - exact IH.
  - eapply Forall_impl; [exact IH|]. intros [k v] E. cbn in *. by rewrite E.
Qed.

Lemma readBack_ids order o : ownItems o → itemIds (JString <$> itemIds order o) (readBack order o) = itemIds order o.
Proof using Type.
  intros Ho. pose proof (itemIds_elem order o) as He. pose proof (itemIds_nodup order o) as Hn.
  assert (∀ id, id ∈ itemIds order o → is_Some (jm_get id (readBack order o).2)) as Hl.
  { intros id Hid. rewrite readBack_get. apply He in Hid as [v ->]. eauto. }
  unfold itemIds at 1. rewrite omap_strings. unfold uniqueCanvasOrder.
  fold (pickUnique (λ id, bool_decide (is_Some (prop id (readBack order o)))) [] (itemIds order o ++ ownKeys (readBack order o))).
  assert (ownKeys (readBack order o) = itemIds order o) as -> by apply entries_keys.
  assert (∀ id, id ∈ itemIds order o → bool_decide (is_Some (prop id (readBack order o))) = true) as Hb.
  { intros id Hid. apply bool_decide_eq_true_2. unfold prop, jget. destruct (Hl id Hid) as [v ->]. eauto. }
  rewrite pickUnique_app, (pickUnique_all _ _ (proj2 (Forall_forall _ _) Hb) [] Hn). cbn [app].
  rewrite pickUnique_known by by apply Forall_forall.
  apply list_filter_all. apply Forall_forall. exact Hl.
Qed.

Lemma written_again c : ownItems (nodes c) → ownItems (edges c) →
  fileValue (asValue (written c)) = normal (fileValue (asValue c)).
Proof using Type.
  intros Hn He. rewrite !fileValue_canvas. cbn [normal map fst snd written nodes edges nodeOrder edgeOrder].
  assert (∀ order o, ownItems o → ordered (Some (JArray (JString <$> itemIds order o))) (Some (object (readBack order o))) =
    map normal (ordered (Some (JArray order)) (Some (object o)))) as H.
  { intros order o Ho. rewrite (ordered_items order o) by (intros id v Hv; by destruct (proj2 Ho id v Hv) as (p & fs & -> & _)).
    rewrite ordered_items.
    2: { intros id v. rewrite readBack_get. destruct (jm_get id o.2) as [w|] eqn:Ew; [|done]. intros [= <-].
      by destruct (proj2 Ho id w Ew) as (p & fs & -> & _). }
    rewrite readBack_ids by done.
    change (map normal) with (fmap (M := list) normal). rewrite <- list_fmap_compose. apply list_fmap_ext.
    intros i id _. unfold compose, itemAt. rewrite readBack_get. by destruct (jm_get id o.2). }
  by rewrite !H.
Qed.

(** C21: A canvas whose items stand under their own ids, written to its file
    and read back, is the same canvas: never a failure, the same nodes and
    edges under the same ids, and orders that list each of them once; and
    writing that again gives the same text, byte for byte, so that a file and its shared canvas do not go on changing one
    another. *)
Theorem canvas_file_round_trip c : ownItems (nodes c) → ownItems (edges c) →
  ∃ c', parseCanvas (serializeCanvas (asValue c)) = Returns c' ∧
    (∀ id, jm_get id (nodes c').2 = normal <$> jm_get id (nodes c).2) ∧
    (∀ id, jm_get id (edges c').2 = normal <$> jm_get id (edges c).2) ∧
    listsItems (nodeOrder c') (nodes c') ∧ listsItems (edgeOrder c') (edges c') ∧
    serializeCanvas (asValue c') = serializeCanvas (asValue c).
Proof using JL.
  intros Hn He. exists (written c). split; [by apply parse_written|]. cbn [written nodes edges nodeOrder edgeOrder].
  assert (∀ order o, listsItems (JString <$> itemIds order o) (readBack order o)) as Hl.
  { intros order o. exists (itemIds order o). split; [done|]. split; [apply itemIds_nodup|]. intros id.
    rewrite readBack_get, fmap_is_Some. apply itemIds_elem. }
  split; [intros; apply readBack_get|]. split; [intros; apply readBack_get|]. split; [apply Hl|]. split; [apply Hl|].
  unfold serializeCanvas. by rewrite written_again, stringify_normal.
Qed.
End text.

(** ** A text for JSON values, and a file *)

Module Encoded.
#[local] Arguments String.append _ _ : simpl nomatch.

(** The value as a tree of what it holds *)
Definition Held : Type := bool + Qc + string.

Fixpoint treeOf (v : JsonValue) : gen_tree Held :=
  match v with
  | JNull | JBuiltin _ => GenNode 0 []
  | JBool b => GenLeaf (inl (inl b))
  | JNumber n => GenLeaf (inl (inr n))
  | JString s => GenLeaf (inr s)
  | JArray l => GenNode 1 (map treeOf l)
  | JObject _ fs => GenNode 2 (map (λ f, GenNode 3 [GenLeaf (inr f.1); treeOf f.2]) fs)
  end.

Fixpoint ofTree (t : gen_tree Held) : JsonValue :=
  match t with
  | GenLeaf (inl (inl b)) => JBool b
  | GenLeaf (inl (inr n)) => JNumber n
  | GenLeaf (inr s) => JString s
  | GenNode 1 l => JArray (map ofTree l)
  | GenNode 2 l => JObject ObjectPrototype
      (map (λ t, match t with GenNode _ [GenLeaf (inr k); t] => (k, ofTree t) | _ => (""%string, JNull) end) l)
  | _ => JNull
  end.

Lemma ofTree_treeOf v : plain v = true → ofTree (treeOf v) = normal v.
Proof.
  induction v as [| | | |l IH|p fs IH|] using json_ind'; intros Hp; try done; cbn [treeOf ofTree normal]; f_equal;
    rewrite map_map; apply map_ext_Forall.
  - apply plain_array in Hp. rewrite Forall_forall in *. auto.
  - apply plain_object in Hp as (_ & _ & Hp). rewrite Forall_forall in *. intros [k v] Hin. cbn. f_equal. by apply (IH (k, v)), (Hp (k, v)).
Qed.

Lemma treeOf_normal v : treeOf (normal v) = treeOf v.
Proof.
  induction v as [| | | |l IH|p fs IH|] using json_ind'; try done; cbn [treeOf normal]; f_equal; rewrite map_map; apply map_ext_Forall.
  - exact IH.
  - eapply Forall_impl; [exact IH|]. intros [k v] E. cbn in *. by rewrite E.
Qed.

(** Its number in binary, lowest digit first *)
Fixpoint digits (p : positive) : string :=
  match p with xH => "1" | xO p => String "0" (digits p) | xI p => String "I" (digits p) end.

Fixpoint ofDigits (s : string) : positive :=
  match s with
  | String "0" s => xO (ofDigits s)
  | String "I" s => xI (ofDigits s)
  | _ => xH
  end.

Lemma ofDigits_digits p s : ofDigits (digits p +:+ s) = p.
Proof. induction p as [p IH|p IH|]; cbn; by rewrite ?IH. Qed.

Definition write (v : JsonValue) : string := digits (encode (treeOf v)).
Definition read (s : string) : throws () JsonValue :=
  match decode (ofDigits s) with Some t => Returns (ofTree t) | None => Throws () end.

#[export] Instance encoded : JsonText := {| parseJson := read; stringify _ := write |}.

Lemma trimStart_rev s t : trimStart t ≠ "" → trimStart (String.rev_app s t) ≠ "".
Proof. revert t. induction s as [|a s IH]; intros t Ht; [done|]. cbn. apply IH. cbn. by destruct (isSpace a). Qed.

Lemma rev_nonempty s t : t ≠ "" → String.rev_app s t ≠ "".
Proof. revert t. induction s as [|a s IH]; intros t Ht; [done|]. cbn. by apply IH. Qed.

Lemma trim_nonempty c s : isSpace c = false → trim (String c s) ≠ "".
Proof.
  intros Hc. unfold trim. cbn [trimStart]. rewrite Hc. unfold String.rev at 2. cbn [String.rev_app].
  assert (trimStart (String.rev_app s (String c "")) ≠ "") as H by (apply trimStart_rev; cbn; by rewrite Hc).
  destruct (trimStart _) as [|a t]; [done|]. unfold String.rev. cbn [String.rev_app]. by apply rev_nonempty.
Qed.

Lemma write_start v s : ∃ c t, write v +:+ s = String c t ∧ isSpace c = false.
Proof. unfold write. destruct (encode (treeOf v)); eexists _, _; by split. Qed.

Lemma read_written v s : plain v = true → read (write v +:+ s) = Returns (normal v).
Proof. intros Hv. unfold read, write. by rewrite ofDigits_digits, decode_encode, ofTree_treeOf. Qed.

#[export] Instance encoded_laws : JsonTextLaws.
Proof.
  split; cbn.
  - intros _ v. apply read_written.
  - intros v Hv. rewrite <- (append_nil_r (write v)). by apply read_written.
  - intros _ v. split; [|rewrite <- (append_nil_r (write v))].
    + destruct (write_start v newline) as (c & t & -> & Hc). by apply trim_nonempty.
    + destruct (write_start v "") as (c & t & -> & Hc). by apply trim_nonempty.
  - intros _ v. unfold write. by rewrite treeOf_normal.
Qed.
End Encoded.

Module TextRun.
Export Encoded CanvasRun.

Lemma canvas_file_round_trip_witness : ∃ c, parseCanvas (serializeCanvas (asValue first)) = Returns c ∧
  serializeCanvas (asValue c) = serializeCanvas (asValue first) ∧
  jm_get "a" (nodes c).2 = Some (snd (node "a" "one")).
Proof.
  destruct canvases_ok as (_ & Hok & _).
  destruct (canvas_file_round_trip first) as (c & H1 & H2 & _ & _ & _ & H3); [apply itemsOk_own, Hok..|].
  exists c. split; [exact H1|]. split; [exact H3|]. by rewrite H2.
Defined.
End TextRun.
