(* ===== verification/CanvasDocument.v ===== *)
(** [src/CanvasDocument.ts]: the canvas as the content of a structured
    document.  Its [applyValue] is the snapshot of [Canvas] with the base of
    the merge, so that what peers added while a merge was under way stays. *)
From Stdlib Require Import String Ascii.
From S2P Require Import Prelude JsString JsMap Json JsonFacts TextDiff YTypes Reconcile Canvas CanvasSpec CanvasDiff CanvasApply CanvasSnapshot CanvasText.
#[local] Open Scope string_scope.
#[local] Open Scope list_scope.
#[local] Open Scope Z_scope.

Section document.
Context {M A T : Type} `{Y : YTypes M A T} `{J : JsonText}.

(** [toValue] for content at most [depth] deep, and the client of the document *)
Context (depth : nat) (clientID : Z).

Definition EMPTY_CANVAS : StructuredCanvas := mkCanvas (literal []) (literal []) [] [].

Definition value (root : M) : JsonValue := toValue depth (SharedMap root).

Definition applyValue (v : JsonValue) (base : option JsonValue) (root : M) : throws () M :=
  let incoming := default EMPTY_CANVAS (isStructuredCanvas v) in
  known ← match base with
          | None => Returns None
          | Some base => known ← parseCanvas (serializeCanvas base); Returns (Some known)
          end;
  Returns (reconcileCanvas root incoming clientID known).

Definition reconcileFromCanvasData (data : option JsonValue) (root : M) : throws () M :=
  canvas ← normalizeCanvas data;
  applyValue (asValue canvas) None root.

Definition canvasText (root : M) : string := serializeCanvas (value root).
Definition canvasData (root : M) : throws () JsonValue := parseJson (canvasText root).

Definition canvasNodeText (nodeId : string) (root : M) : option T :=
  match mget "nodes" root with
  | Some (SharedMap nodes) =>
    match mget nodeId nodes with
    | Some (SharedMap node) => match mget "text" node with Some (SharedText text) => Some text | _ => None end
    | _ => None
    end
  | _ => None
  end.

(** [canonicalizeOrders], with which [onRootChanged] begins *)
Definition canonicalizeOrders (root : M) : M * bool := canonicalizeCanvasOrders root.

(** ** The base of a merge *)

Context `{JL : !JsonTextLaws, L : !YTypesLaws M A T}.

Lemma isStructured_value (c : StructuredCanvas) : isStructuredCanvas (asValue c) = Some c.
Proof using Type. by destruct c as [[] []]. Qed.

Lemma readBack_known order o id : is_Some (jm_get id (readBack order o).2) ↔ is_Some (jm_get id o.2).
Proof using Type. rewrite readBack_get. by rewrite fmap_is_Some. Qed.

End document.

(** ** A merge that a peer's node meets *)

Module DocumentRun.
Export Encoded SnapshotRun.
#[local] Existing Instances types types_laws.

(** [a] was in the base and is merged away; [b] came meanwhile. *)
Definition merged : StructuredCanvas := canvas [node "c" "1"].
Definition base : StructuredCanvas := canvas [node "a" "1"].

End DocumentRun.
