(* ===== verification/Structured.v ===== *)
(** [src/StructuredDocument.ts]: a canvas or a base kept as a tree of shared
    types, and the file it is written to and read from.

    What a subclass adds (the root's shape, the text of the file, the live
    view of an editor binding) and what surrounds the document (the vault, the
    digests other parts remember) are the class [Platform].  The programs wait
    where the source does; what its other tasks do meanwhile are the moves. *)
From Stdlib Require Import String Ascii.
From stdpp Require Import pretty.
From S2P Require Import Prelude Effects TraceLogic Await JsString JsMap Json ConflictCopy Vault.
From S2P Require LocalState.
#[local] Open Scope Z_scope.

(** What the document does, for the record: a copy was made aside; a file's
    text was read; the root was given a value at startup or by an edit of the
    file; the file was written, over what was read of it last. *)
Inductive Effect :=
  | Preserved (destination content : string)
  | ReadFile (text : string)
  | StartupApplied (shared local base : JsonValue) (applied : StructuredMergeResult)
  | EditApplied (shared : JsonValue) (known : option string) (base : option JsonValue) (disk applied : JsonValue)
  | Wrote (over : option string) (known : option string) (unparsed : bool) (shared : JsonValue) (text : string)
  | Materialized
  | DiskNoted (text : string)
  | Acknowledged (fingerprint : string).

(** What the other tasks of the document do while one waits: edits of the root
    by peers and bindings, ends of its own other programs, timers. *)
Inductive Move (R : Type) :=
  | Edited (root : R)
  | DestroyCalled
  | StartupDisk (disk : JsonValue)            (* [onDiskChanged] before startup *)
  | Taken (applied : JsonValue) (base : option JsonValue) (text : string)
  | Noted (text : string)                     (* the file is known to hold it *)
  | Seen (text : string)                      (* the same, with a live view *)
  | Parsed (failed : bool)
  | WriteBegins (text : string)
  | WriteEnds
  | WriteRequested
  | WriteTimerFired.
Arguments Edited {R} root.
Arguments DestroyCalled {R}.
Arguments StartupDisk {R} disk.
Arguments Taken {R} applied base text.
Arguments Noted {R} text.
Arguments Seen {R} text.
Arguments Parsed {R} failed.
Arguments WriteBegins {R} text.
Arguments WriteEnds {R}.
Arguments WriteRequested {R}.
Arguments WriteTimerFired {R}.

(** [Error]: a file that does not parse, whatever a call throws, and the fuel
    of [foldDiskEdit], which runs while others keep changing the document. *)
Inductive Err := ParseError | CallFailed | OutOfFuel.

Class Platform (W R : Type) := {
  vault :: VaultApi W (Move R) Err;
  settle : W → W * list (Move R);
  (* the subclass *)
  toValue : R → JsonValue;
  transact : JsonValue → option JsonValue → R → R;     (* [applyValue] *)
  touched : R → R → bool;                              (* whether observers run *)
  parse : string → throws Err JsonValue;
  serialize : JsonValue → string;
  shouldDeferToLiveBinding : W → bool;
  liveStartupValue : W → option JsonValue;
  (* the document *)
  path : string;
  epoch : N;
  forceBootstrapConflict : bool;
  staleLocalFingerprint : option string;
  retiredBaselineText : option string;
  (* its surroundings *)
  sha256Text : string → string;
  documentEpoch : W → N;                               (* [getDocumentEpoch] *)
  acknowledgedFingerprint : W → option string;
  diskFingerprint : Call W (Move R) Err (option string);
  hasLocalChanges : W → bool;
  readOnly : W → bool;
  isPendingLocalRemoval : W → bool;
  queuedWrite : Call W (Move R) Err bool;              (* the one another task asked for *)
  foldFuel : nat }.

Section structured.
Context {W R : Type} `{!Platform W R}.

Record StructuredDocument := mkDocument {
  world : W;
  root : R;
  destroyed : bool;
  startupReady : bool;
  ready : bool;
  loadedStoredState : bool;
  writingTextToDisk : option string;
  diskKnownText : option string;
  writeRunning : bool;
  writeQueued : bool;
  writeTimer : option Z;
  startupReconciled : bool;
  startupReconciling : bool;
  baselineAtStartup : JsonValue;
  baselineTextAtStartup : string;
  diskAtStartup : option JsonValue;
  localChangedAtStartup : bool;
  startupLocalBase : JsonValue;
  diskParseFailed : bool;
  preservedStartupRemote : option string;
  retries : nat;                       (* [finishStartupReconcile] in 2 s *)
  contentRevision : Z;
  contentFingerprint : option (Z * string);
  acknowledgeTimer : bool;
  effects : list Effect }.

#[export] Instance eta_StructuredDocument : Eta StructuredDocument := λ r,
  mkDocument (world r) (root r) (destroyed r) (startupReady r) (ready r) (loadedStoredState r) (writingTextToDisk r)
    (diskKnownText r) (writeRunning r) (writeQueued r) (writeTimer r) (startupReconciled r) (startupReconciling r)
    (baselineAtStartup r) (baselineTextAtStartup r) (diskAtStartup r) (localChangedAtStartup r) (startupLocalBase r)
    (diskParseFailed r) (preservedStartupRemote r) (retries r) (contentRevision r) (contentFingerprint r)
    (acknowledgeTimer r) (effects r).

Implicit Types s : StructuredDocument.

Definition value s : JsonValue := toValue (root s).
Definition note (e : Effect) s := s <| effects ::= λ l, l ++ [e] |>.
Definition emptyObject : JsonValue := JObject ObjectPrototype [].

(** ** Steps that do not wait *)

Definition hasFile s : bool := bool_decide (is_Some (getFileByPath path (world s))).
Definition isOpen s : bool := isOpenInWorkspace (workspace (world s)) path.
Definition suppressedWhileOpen s : bool := isOpen s && shouldDeferToLiveBinding (world s).

Definition scheduleWriteToDisk (delayMs : Z) s := s <| writeTimer := Some delayMs |>.

Definition onRootChanged s : StructuredDocument :=
  if destroyed s || negb (startupReady s) then s
  else if suppressedWhileOpen s then s
  else scheduleWriteToDisk 100 s.

(** The observer of the root *)
Definition rootObserver s := onRootChanged (s <| contentRevision ::= Z.add 1 |>).

Definition edit (root' : R) s : StructuredDocument :=
  let s' := s <| root := root' |> in
  if touched (root s) root' then rootObserver s' else s'.

Definition applyValue (v : JsonValue) (base : option JsonValue) s : StructuredDocument :=
  if destroyed s then s else edit (transact v base (root s)) s.

(** [recordStoredDiskContent] is not awaited. *)
Definition noteDiskContent (text : string) s : StructuredDocument :=
  let s := s <| diskKnownText := Some text |> in
  if readOnly (world s) then s else note (DiskNoted text) s.

Definition resolveWhenReady s := s <| ready := true |>.

(** [matchesStartupDisk] *)
Definition matchesStartupDisk (v : JsonValue) s : bool :=
  negb (startupReconciled s) && match diskAtStartup s with Some disk => jsonEqual v disk | None => false end.

Record StartupLocal := mkLocal { localValue : option JsonValue; localBase : JsonValue; localChanged : bool }.

Definition startupLocal s : StartupLocal :=
  let asFile := mkLocal (diskAtStartup s) (startupLocalBase s) (localChangedAtStartup s) in
  match diskAtStartup s with
  | None => asFile
  | Some disk =>
    match liveStartupValue (world s) with
    | None => asFile
    | Some live =>
      if jsonEqual live disk then asFile
      else
        let base := if localChangedAtStartup s then startupLocalBase s else disk in
        mkLocal (Some live) base (bool_decide (serialize live ≠ serialize base))
    end
  end.

(** [parse] as an expression *)
Definition mergeWithoutSharedBaseline (disk remote : JsonValue) s : throws Err (option StructuredMergeResult) :=
  empty ← parse "";
  let baselineEmpty := String.eqb (baselineTextAtStartup s) (serialize empty) in
  if negb forceBootstrapConflict && negb baselineEmpty then Returns None
  else
    diskShape ← parse (serialize disk);
    remoteShape ← parse (serialize remote);
    if jsonContains remoteShape diskShape then Returns (Some (mkMerge remote false))
    else if (documentEpoch (world s) =? 0)%N && jsonContains diskShape remoteShape
    then Returns (Some (mkMerge disk false))
    else Returns None.

Definition startupMerge (disk remote base : JsonValue) s : throws Err StructuredMergeResult :=
  merged ← mergeWithoutSharedBaseline disk remote s;
  Returns (match merged with
           | Some merge => merge
           | None =>
             if forceBootstrapConflict then mkMerge disk (bool_decide (serialize disk ≠ serialize remote))
             else mergeStructuredStartupResult disk base remote
           end).

(** [onDiskChanged] before startup: the content the reconcile will merge *)
Definition startupDisk (disk : JsonValue) s : StructuredDocument :=
  let s := match diskAtStartup s with
           | Some earlier => if localChangedAtStartup s then s else s <| startupLocalBase := earlier |>
           | None => s
           end in
  s <| diskAtStartup := Some disk |> <| diskKnownText := Some (serialize disk) |>
    <| localChangedAtStartup := bool_decide (serialize disk ≠ serialize (startupLocalBase s)) |>.

(** [canHibernateLocally] *)
Definition canHibernateLocally s : bool :=
  negb (isOpen s) && negb (writeRunning s) && negb (writeQueued s) && bool_decide (writeTimer s = None).

Definition scheduleAcknowledgedContent s : StructuredDocument :=
  if destroyed s || negb (startupReady s) then s else s <| acknowledgeTimer := true |>.

(** [localChangesListener] *)
Definition localChangesChanged (has : bool) s := if has then s else scheduleAcknowledgedContent s.

Definition retiredBaseline s : option string :=
  if destroyed s || negb (ready s) || hasLocalChanges (world s) then None else Some (serialize (value s)).

Definition destroy s : StructuredDocument :=
  if destroyed s then s
  else resolveWhenReady (s <| destroyed := true |> <| writeTimer := None |> <| acknowledgeTimer := false |>).

Definition onMove (m : Move R) s : StructuredDocument :=
  match m with
  | Edited root => edit root s
  | DestroyCalled => destroy s
  | StartupDisk disk => if destroyed s || startupReconciled s then s else startupDisk disk s
  | Taken applied base text => (applyValue applied base s) <| diskKnownText := Some text |>
  | Noted text | Seen text => s <| diskKnownText := Some text |>
  | Parsed failed => s <| diskParseFailed := failed |>
  | WriteBegins text => s <| writeRunning := true |> <| writingTextToDisk := Some text |>
  | WriteEnds => s <| writeRunning := false |> <| writingTextToDisk := None |>
  | WriteRequested => if writeRunning s then s <| writeQueued := true |> else s
  | WriteTimerFired => s <| writeTimer := None |>
  end.

#[export] Instance structuredHost : Host StructuredDocument W (Move R) := {|
  worldOf := world;
  setWorld w s := s <| world := w |>;
  settling := settle;
  Await.onMove := onMove |}.

#[local] Existing Instance vault.
Notation M := (eff StructuredDocument Err).

Definition effect (e : Effect) : M () := update (note e).

(** A value that may be an error *)
Definition lift {A} (r : throws Err A) : M A := λ s, (s, r).

(** [if (...) return stop;] *)
Definition stopIf {A} (test : StructuredDocument → bool) (stop : A) (m : M A) : M A :=
  b ← get test;
  if b : bool then mret stop else m.

Definition fingerprint (text : string) : M string := pause ≫= λ _, mret (sha256Text text).

Definition storedContentFingerprint (text : string) : M string :=
  await (h ← fingerprint text; mret (pretty epoch ++ ":" ++ h)%string).

(** ** The disk *)

Definition readRaw : M string := text ← call (readText path); effect (ReadFile text) ≫= λ _, mret text.

Definition readParsedFromDisk : M (option JsonValue) :=
  await (
    there ← get hasFile;
    if negb there then update (λ s, s <| diskParseFailed := false |>) ≫= λ _, mret None
    else
      r ← attempt (text ← readRaw; lift (parse text));
      match r with
      | Returns parsed => update (λ s, s <| diskParseFailed := false |>) ≫= λ _, mret (Some parsed)
      | Throws _ => update (λ s, s <| diskParseFailed := true |>) ≫= λ _, mret None
      end).

(** [preserveTextConflict] of the version the root holds *)
Definition preserve (text : string) : M () :=
  destination ← preserveTextConflict path text SourceRemote;
  effect (Preserved destination text).

(** [this.diskKnownText === null ? null : this.parse(this.diskKnownText)] *)
Definition knownBase (s : StructuredDocument) : throws Err (option JsonValue) :=
  match diskKnownText s with None => Returns None | Some text => b ← parse text; Returns (Some b) end.

(** The [for (;;)] of [foldDiskEdit] *)
Fixpoint foldLoop (n : nat) (disk : JsonValue) (base : option JsonValue) (preserved : option string) : M () :=
  match n with
  | O => throw OutOfFuel
  | S n =>
    latest ← readParsedFromDisk;
    stopIf (λ s, destroyed s || match latest with
                                | Some latest => bool_decide (serialize latest ≠ serialize disk)
                                | None => true
                                end) () (
    s ← get (λ s, s);
    let sharedText := serialize (value s) in
    merge ← lift (match base with
                  | None => Returns None
                  | Some base =>
                    shared ← parse sharedText;
                    Returns (Some (mergeStructuredStartupResult disk base shared))
                  end);
    if match merge with Some merge => conflicted merge | None => false end &&
       bool_decide (Some sharedText ≠ diskKnownText s) && bool_decide (Some sharedText ≠ preserved)
    then
      preserve sharedText ≫= λ _,
      stopIf destroyed () (foldLoop n disk base (Some sharedText))
    else
      let applied := match merge with Some merge => Json.value merge | None => disk end in
      effect (EditApplied (value s) (diskKnownText s) base disk applied) ≫= λ _,
      update (λ s, noteDiskContent (serialize disk) (applyValue applied (if merge then base else None) s)))
  end.

Definition foldDiskEdit (disk : JsonValue) : M () :=
  await (base ← (s ← get (λ s, s); lift (knownBase s)); foldLoop foldFuel disk base None).

Definition onDiskChanged : M () :=
  await (
    stopIf destroyed () (
    disk ← readParsedFromDisk;
    match disk with
    | None => mret ()
    | Some disk =>
      stopIf destroyed () (
      s ← get (λ s, s);
      let serialized := serialize disk in
      if negb (startupReconciled s) then update (startupDisk disk)
      else if suppressedWhileOpen s then
        update (if bool_decide (serialized = serialize (value s)) then noteDiskContent serialized
                else λ s, s <| diskKnownText := Some serialized |>)
      else if bool_decide (Some serialized = writingTextToDisk s) then mret ()
      else if bool_decide (Some serialized = diskKnownText s) then mret ()
      else if bool_decide (serialized = serialize (value s)) then update (noteDiskContent serialized)
      else foldDiskEdit disk)
    end)).

(** ** Acknowledgements *)

Definition recordAcknowledgedContent : M () :=
  let settled s := negb (destroyed s || negb (startupReady s) || hasLocalChanges (world s)) in
  await (
    stopIf (λ s, negb (settled s)) () (
    s ← get (λ s, s);
    let revision := contentRevision s in
    let entry := match contentFingerprint s with
                 | Some (r, fp) => if r =? revision then fp else sha256Text (serialize (value s))
                 | None => sha256Text (serialize (value s))
                 end in
    update (λ s, s <| contentFingerprint := Some (revision, entry) |>) ≫= λ _,
    pause ≫= λ _,
    stopIf (λ s, negb (settled s)) () (
    now ← get contentRevision;
    if negb (now =? revision) then update scheduleAcknowledgedContent
    else effect (Acknowledged entry)))).

(** ** Writing the file *)

(** What a write that found the file does once it is written *)
Definition settleWrite (text : string) : M bool :=
  update (noteDiskContent text) ≫= λ _,
  effect Materialized ≫= λ _,
  recordAcknowledgedContent ≫= λ _,
  mret true.

(** Another edit of the file that was not handled yet *)
Definition unseenEdit (raw : string) (s : StructuredDocument) : option JsonValue :=
  match diskKnownText s with
  | Some known =>
    if diskParseFailed s then None
    else match parse raw with
         | Returns current => if String.eqb (serialize current) known then None else Some current
         | Throws _ => None
         end
  | None => None
  end.

(** The text is written over what was read last. *)
Definition writeOver (over : option string) (text : string) (write : Call W (Move R) Err ()) : M () :=
  s ← get (λ s, s);
  effect (Wrote over (diskKnownText s) (diskParseFailed s) (value s) text) ≫= λ _,
  call write.

Definition stillHolds (text : string) (s : StructuredDocument) : bool := String.eqb (serialize (value s)) text.

Definition overwrite (text : string) : M bool :=
  let open s := suppressedWhileOpen s in
  deferred ← get open;
  if deferred : bool then effect Materialized ≫= λ _, mret true
  else
    raw ← readRaw;
    stopIf destroyed false (
    if String.eqb raw text then settleWrite text
    else
      deferred ← get open;
      if deferred : bool then effect Materialized ≫= λ _, mret true
      else
        stopIf (λ s, negb (stillHolds text s)) false (
        edit ← get (unseenEdit raw);
        match edit with
        | Some current => foldDiskEdit current ≫= λ _, mret false
        | None =>
          writeOver (Some raw) text (modifyText path text) ≫= λ _,
          stopIf destroyed false (settleWrite text)
        end)).

Definition createFile (text : string) : M bool :=
  stopIf (λ s, isPendingLocalRemoval (world s)) false (
  ensureParentFolder path ≫= λ _,
  stopIf destroyed false (
  stopIf (λ s, negb (stillHolds text s)) false (
  writeOver None text (createText path text) ≫= λ _,
  stopIf destroyed false (settleWrite text)))).

(** After an error the file is read again. *)
Definition writeFailed : M bool :=
  stopIf destroyed false (
  there ← get hasFile;
  (if there : bool then
     r ← attempt (text ← readRaw; lift (parse text));
     match r with
     | Returns parsed => update (λ s, s <| diskKnownText := Some (serialize parsed) |>)
     | Throws _ => mret ()
     end
   else mret ()) ≫= λ _,
  update (scheduleWriteToDisk 2000) ≫= λ _,
  mret false).

Definition writeCurrentValue : M bool :=
  stopIf destroyed false (
  text ← get (λ s, serialize (value s));
  update (λ s, s <| writingTextToDisk := Some text |>) ≫= λ _,
  finally
    (catch (there ← get hasFile; if there : bool then overwrite text else createFile text) (λ _, writeFailed))
    (λ s, s <| writingTextToDisk := None |>)).

Definition startDiskWrite : M bool :=
  update (λ s, s <| writeRunning := true |>) ≫= λ _,
  finally (await writeCurrentValue) (λ s, s <| writeRunning := false |>).

(** A write that waits for the one that runs; one that is queued is shared. *)
Definition writeToDisk : M bool :=
  await (
    s ← get (λ s, s);
    if writeQueued s then call queuedWrite
    else if writeRunning s then
      update (λ s, s <| writeQueued := true |>) ≫= λ _,
      pause ≫= λ _,
      update (λ s, s <| writeQueued := false |>) ≫= λ _,
      startDiskWrite
    else startDiskWrite).

Definition writeTimerFires : M () :=
  update (λ s, s <| writeTimer := None |>) ≫= λ _,
  stopIf (λ s, destroyed s || negb (startupReady s) || suppressedWhileOpen s) () (writeToDisk ≫= λ _, mret ()).

(** ** Startup *)

Definition storeContainsDiskContent (text : string) : M bool :=
  await (
    s ← get (λ s, s);
    if negb (loadedStoredState s) then
      h ← fingerprint text;
      mret match acknowledgedFingerprint (world s) with Some fp => String.eqb fp h | None => false end
    else
      known ← call diskFingerprint;
      match known with
      | Some known => stored ← storedContentFingerprint text; mret (String.eqb known stored)
      | None => mret false
      end).

Definition afterPersistenceSynced : M () :=
  await (
    s ← get (λ s, s);
    baseline ← lift (match retiredBaselineText with
                     | Some text => if loadedStoredState s then Returns (value s) else parse text
                     | None => Returns (value s)
                     end);
    update (λ s, s <| baselineAtStartup := baseline |> <| baselineTextAtStartup := serialize baseline |>) ≫= λ _,
    disk ← readParsedFromDisk;
    '(stale, unchanged) ← match disk with
      | None => mret (false, false)
      | Some disk =>
        h ← fingerprint (serialize disk);
        unchanged ← storeContainsDiskContent (serialize disk);
        mret (bool_decide (staleLocalFingerprint = Some h), unchanged)
      end;
    update (λ s,
      let changed := match disk with
                     | Some disk => negb stale && negb unchanged &&
                                    negb (String.eqb (serialize disk) (baselineTextAtStartup s))
                     | None => false
                     end in
      s <| diskAtStartup := disk |> <| diskKnownText := serialize <$> disk |>
        <| localChangedAtStartup := changed |>
        <| startupLocalBase := match disk with
                               | Some disk => if changed then baselineAtStartup s else disk
                               | None => baselineAtStartup s
                               end |>)).

(** The startup merge; [true] when it is not to go on. *)
Definition applyStartup (local base : JsonValue) (merge : StructuredMergeResult) : M bool :=
  stopIf destroyed true (
  shared ← get value;
  effect (StartupApplied shared local base merge) ≫= λ _,
  update (applyValue (Json.value merge) (Some base)) ≫= λ _,
  mret false).

(** After the conflicting version was copied aside *)
Definition mergeAfterCopy (remote : JsonValue) (disk : option JsonValue) (local : JsonValue) (base : JsonValue)
    (merge : StructuredMergeResult) : M bool :=
  latestDisk ← readParsedFromDisk;
  stopIf destroyed true (
  let unchanged := match latestDisk, disk with
                   | Some latest, Some disk => bool_decide (serialize latest = serialize disk)
                   | _, _ => false
                   end in
  if negb unchanged then update (λ s, s <| diskAtStartup := latestDisk |>) ≫= λ _, mret true
  else
    s ← get (λ s, s);
    if match localValue (startupLocal s) with Some latest => negb (jsonEqual latest local) | None => true end
    then mret true
    else if String.eqb (serialize (value s)) (serialize remote) then applyStartup local base merge
    else
      merge ← lift (startupMerge local (value s) base s);
      applyStartup local base merge).

Definition mergeAtStartup : M bool :=
  s ← get (λ s, s);
  let local := startupLocal s in
  let remote := value s in
  match localValue local with
  | None => mret false
  | Some disk =>
    if localChanged local || forceBootstrapConflict then
      merge ← lift (startupMerge disk remote (localBase local) s);
      if conflicted merge then
        (if bool_decide (Some (serialize remote) = preservedStartupRemote s) then mret ()
         else
           preserve (serialize remote) ≫= λ _,
           update (λ s, s <| preservedStartupRemote := Some (serialize remote) |>)) ≫= λ _,
        mergeAfterCopy remote (diskAtStartup s) disk (localBase local) merge
      else applyStartup disk (localBase local) merge
    else mret false
  end.

Definition materializeNow : M bool :=
  s ← get (λ s, s);
  if negb (suppressedWhileOpen s) && negb (diskParseFailed s) then writeToDisk
  else if hasFile s then effect Materialized ≫= λ _, mret true
  else mret false.

(** The [try]; whether startup is complete *)
Definition tryStartup : M bool :=
  merged ← get startupReconciled;
  stop ← (if merged : bool then mret false
          else
            stop ← mergeAtStartup;
            if stop : bool then mret true
            else update (λ s, s <| startupReconciled := true |>) ≫= λ _, mret false);
  if stop : bool then mret false
  else
    materialized ← materializeNow;
    stopIf (λ s, negb materialized || destroyed s) false (
    update (λ s, s <| startupReady := true |>) ≫= λ _,
    recordAcknowledgedContent ≫= λ _,
    mret true).

Definition finishStartupReconcile : M () :=
  await (
    stopIf (λ s, startupReady s || startupReconciling s || destroyed s) () (
    update (λ s, s <| startupReconciling := true |>) ≫= λ _,
    r ← attempt tryStartup;
    update (λ s,
      let s := s <| startupReconciling := false |> in
      match r with
      | Returns true => resolveWhenReady s
      | _ => if destroyed s then s else s <| retries ::= Nat.succ |>
      end))).

(** [init], once the store has loaded: whether it held anything *)
Definition init (stored : bool) : M () :=
  update (λ s, s <| loadedStoredState := stored |>) ≫= λ _,
  r ← attempt (stopIf destroyed () afterPersistenceSynced);
  update (λ s, match r with Returns _ => s | Throws _ => resolveWhenReady s end).
End structured.
