(* ===== verification/StructuredSpec.v ===== *)
(** What a canvas or base document does to its file and to its shared content:
    an edit of the file is merged into what the document holds at that moment,
    or the document's version is copied aside; and a file is only written over
    when what was read of it is what the document knows it to hold. *)
From Stdlib Require Import String Ascii.
From S2P Require Import Prelude Effects TraceLogic Await JsString JsMap Json ConflictCopy Vault Structured.
#[local] Open Scope Z_scope.

Section spec.
Context {W R : Type} `{!Platform W R}.
Notation State := (@StructuredDocument W R).
Notation M := (eff State Err).
Implicit Types (s : State) (pre : list Effect).

(** The state the program starts in *)
Context (s0 : State).

(** ** What is promised *)

Definition reads (e : Effect) : option string := match e with ReadFile text => Some text | _ => None end.

(** What was read of the file last *)
Definition readLast pre (text : string) : Prop := last (omap reads pre) = Some text.

Definition copied pre (text : string) : Prop := ∃ destination, Preserved destination text ∈ pre.

(** A text that parses to content with this text of its own *)
Definition showsText (raw text : string) : Prop := ∃ d, parse raw = Returns d ∧ serialize d = text.

Definition justified pre (e : Effect) : Prop :=
  match e with
  | EditApplied shared known base disk applied =>
    (∃ raw, readLast pre raw ∧ showsText raw (serialize disk)) ∧
    match base with
    | None => applied = disk
    | Some base => ∃ now, parse (serialize shared) = Returns now ∧
        applied = Json.value (mergeStructuredStartupResult disk base now) ∧
        (conflicted (mergeStructuredStartupResult disk base now) = true →
         known = Some (serialize shared) ∨ copied pre (serialize shared))
    end
  | StartupApplied shared local base merge =>
    (∃ remote s, serialize remote = serialize shared ∧ startupMerge local remote base s = Returns merge) ∧
    (conflicted merge = true → (∃ text, copied pre text) ∨ is_Some (preservedStartupRemote s0))
  | Wrote over known unparsed shared text =>
    serialize shared = text ∧
    match over with
    | None => True
    | Some raw => readLast pre raw ∧
        (known = None ∨ unparsed = true ∨ (∃ e, parse raw = Throws e) ∨ ∃ k, known = Some k ∧ showsText raw k)
    end
  | _ => True
  end.

Definition harmless (e : Effect) : Prop :=
  match e with EditApplied _ _ _ _ _ | StartupApplied _ _ _ _ | Wrote _ _ _ _ _ => False | _ => True end.

Lemma harmless_structured pre e : harmless e → justified pre e.
Proof using Type. by destruct e. Qed.

#[local] Instance traced : Traced State Effect := {|
  trail := effects; TraceLogic.harmless := harmless; frame _ _ := True;
  frame_preorder := Build_PreOrder _ (λ _, I) (λ _ _ _ _ _, I) |}.

#[local] Instance judged : Judged traced := {|
  mark := length (effects s0); warranted := justified; harmless_warranted := harmless_structured |}.

(** ** Waiting *)

(** Nothing of the record changes, nor what startup copied aside. *)
Definition unrecorded s s' : Prop := effects s' = effects s ∧ preservedStartupRemote s' = preservedStartupRemote s.

Lemma calm_refl s : unrecorded s s.
Proof using Type. done. Qed.

Lemma calm_trans s1 s2 s3 : unrecorded s1 s2 → unrecorded s2 s3 → unrecorded s1 s3.
Proof using Type. intros [A1 A2] [B1 B2]. split; congruence. Qed.

Lemma calm_edit root s : unrecorded s (edit root s).
Proof using Type. unfold edit, rootObserver, onRootChanged, scheduleWriteToDisk. by repeat case_match. Qed.

Lemma calm_apply v base s : unrecorded s (applyValue v base s).
Proof using Type. unfold applyValue. case_match; [done|apply calm_edit]. Qed.

Lemma calm_startupDisk disk s : unrecorded s (startupDisk disk s).
Proof using Type. unfold startupDisk. by repeat case_match. Qed.

Lemma calm_onMove m s : unrecorded s (onMove m s).
Proof using Type.
  destruct m; simpl; try done; try (by case_match).
  - apply calm_edit.
  - unfold destroy. by case_match.
  - case_match; [done|apply calm_startupDisk].
  - eapply calm_trans; [|done]. apply calm_apply.
Qed.

#[local] Instance calm_stable s : Stable (unrecorded s).
Proof using Type. split; intros; (eapply calm_trans; [done|]); [done|apply calm_onMove]. Qed.

Definition grows s s' : Prop := ∃ l, trace s' = trace s ++ l.

Lemma trace_calm s s' : unrecorded s s' → trace s' = trace s.
Proof using Type. intros [E _]. unfold trace. simpl. by rewrite E. Qed.

Lemma ok_calm s s' : ok s → unrecorded s s' → ok s'.
Proof using Type. intros Hs [E _]. by eapply ok_same. Qed.

Lemma trace_noted e s : ok s → trace (note e s) = trace s ++ [e].
Proof using Type. intros [Hn _]. by apply trace_app. Qed.

Lemma ok_note e s : ok s → justified (trace s) e → ok (note e s).
Proof using Type. intros Hs He. by eapply ok_snoc. Qed.

(** A program that only waits *)
Lemma wp_waiting {A B} (m : M A) (f : A → M B) (E : State → Prop) (Q : B → State → Prop) s :
  (∀ s', unrecorded s s' → E s') → keeps (unrecorded s) m → (∀ a s', unrecorded s s' → wp E (f a) Q s') → wp E (m ≫= f) Q s.
Proof using Type.
  intros HE Hm Hf. apply wp_bind. specialize (Hm s (calm_refl s)). unfold wp in *.
  destruct (m s) as [s' [a|e]]; [by apply Hf|by apply HE].
Qed.

Lemma wp_await_unrecorded {A} (E : State → Prop) (m : M A) (Q : A → State → Prop) s :
  (∀ s s', E s → unrecorded s s' → E s') → (∀ a s s', Q a s → unrecorded s s' → Q a s') → wp E m Q s → wp E (await m) Q s.
Proof using Type.
  intros HE HQ. unfold wp, await. destruct (m s) as [s' [a|e]]; intros H;
    [eapply HQ|eapply HE]; (exact H || (apply (stable_pause (unrecorded s')); [apply _|apply calm_refl])).
Qed.

Lemma wp_noting {A} e (f : () → M A) (E : State → Prop) (Q : A → State → Prop) s :
  wp E (f ()) Q (note e s) → wp E (effect e ≫= f) Q s.
Proof using Type. done. Qed.

Lemma wp_stopIf {A} test (stop : A) (m : M A) (E : State → Prop) (Q : A → State → Prop) s :
  (test s = true → Q stop s) → (test s = false → wp E m Q s) → wp E (stopIf test stop m) Q s.
Proof using Type. intros H1 H2. unfold stopIf. apply wp_bind, wp_get. destruct (test s); [by apply H1|by apply H2]. Qed.

Lemma wp_lift {A} (r : throws Err A) (E : State → Prop) (Q : A → State → Prop) s :
  E s → (∀ a, r = Returns a → Q a s) → wp E (lift r) Q s.
Proof using Type. intros HE HQ. unfold wp, lift. destruct r; auto. Qed.

(** ** Reading *)

(** What a read leaves: the record has grown by it, and may end there. *)
Definition afterRead s (r : option JsonValue) s' : Prop :=
  ok s' ∧ preservedStartupRemote s' = preservedStartupRemote s ∧
  (∀ e, e ∈ trace s → e ∈ trace s') ∧
  ∀ d, r = Some d → ∃ raw, readLast (trace s') raw ∧ parse raw = Returns d.

Lemma readLast_snoc pre text : readLast (pre ++ [ReadFile text]) text.
Proof using Type. unfold readLast. rewrite omap_app. simpl. by rewrite last_snoc. Qed.

Lemma wp_weaken {A} (E E' : State → Prop) (m : M A) (Q Q' : A → State → Prop) s :
  wp E m Q s → (∀ s', E s' → E' s') → (∀ a s', Q a s' → Q' a s') → wp E' m Q' s.
Proof using Type. unfold wp. destruct (m s) as [s' [a|e]]; auto. Qed.

Lemma afterRead_none s s' : ok s → unrecorded s s' → afterRead s None s'.
Proof using Type.
  intros Hs Hc. split; [by eapply ok_calm|]. split; [apply Hc|]. by rewrite (trace_calm _ _ Hc).
Qed.

Lemma afterRead_calm s r s1 s2 : afterRead s r s1 → unrecorded s1 s2 → afterRead s r s2.
Proof using Type.
  intros (H1 & H2 & H3 & H4) Hc. split; [by eapply ok_calm|]. rewrite (trace_calm _ _ Hc).
  split; [by rewrite (proj2 Hc)|]. by split.
Qed.

Lemma wp_readRaw s : ok s →
  wp (afterRead s None) readRaw (λ raw s', afterRead s None s' ∧ readLast (trace s') raw) s.
Proof using Type.
  intros Hs. unfold readRaw. apply wp_waiting.
  - intros s' Hc. by apply afterRead_none.
  - apply keeps_call, _.
  - intros raw s' Hc. pose proof (ok_calm _ _ Hs Hc) as Hs'. apply wp_noting, wp_ret.
    rewrite trace_noted, (trace_calm _ _ Hc) by done. split; [|apply readLast_snoc].
    split; [by apply ok_note|]. split; [apply Hc|]. rewrite trace_noted, (trace_calm _ _ Hc) by done.
    split; [|done]. intros e He. apply elem_of_app. by left.
Qed.

(** A read and its parse, as an attempt *)
Lemma wp_readAndParse s : ok s →
  wp ok (attempt (text ← readRaw; lift (parse text)))
    (λ r s', afterRead s (match r with Returns d => Some d | Throws _ => None end) s') s.
Proof using Type.
  intros Hs. apply wp_attempt, wp_bind. eapply wp_weaken; [exact (wp_readRaw s Hs)|by intros s' H e|].
  intros raw s' [H Hr]. apply wp_lift; [by intros _|]. intros d Hd. destruct H as (H1 & H2 & H3 & _).
  split_and!; [done..|]. intros d' [= <-]. by exists raw.
Qed.

Lemma wp_readParsed s : ok s → wp ok readParsedFromDisk (afterRead s) s.
Proof using Type.
  intros Hs. unfold readParsedFromDisk. apply wp_await_unrecorded.
  { intros. by eapply ok_calm. }
  { intros r s1 s2. apply afterRead_calm. }
  apply wp_bind, wp_get. case_match; simpl.
  { apply wp_bind, wp_update, wp_ret. by apply afterRead_none. }
  apply wp_bind. eapply wp_weaken; [exact (wp_readAndParse s Hs)|done|].
  intros [d|e] s1 H1; apply wp_bind, wp_update, wp_ret; (eapply afterRead_calm; [exact H1|done]).
Qed.

(** ** Edits of the file *)

#[local] Ltac wp_if H := cbv zeta; match goal with |- wp _ (if ?b then _ else _) _ _ => destruct b eqn:H end.

Lemma ok_noteDisk text s : ok s → ok (noteDiskContent text s).
Proof using Type.
  intros Hs. unfold noteDiskContent. case_match; [done|]. apply ok_note; [done|]. exact I.
Qed.

Lemma wp_preserve {A} text (f : () → M A) (Q : A → State → Prop) s : ok s →
  (∀ s', ok s' → copied (trace s') text → (∀ e, e ∈ trace s → e ∈ trace s') →
     preservedStartupRemote s' = preservedStartupRemote s → wp ok (f ()) Q s') →
  wp ok (preserve text ≫= f) Q s.
Proof using Type.
  intros Hs Hf. unfold preserve. apply wp_bind, wp_waiting.
  - intros s' Hc. by eapply ok_calm.
  - apply keeps_vault_preserve, _.
  - intros destination s' Hc. pose proof (ok_calm _ _ Hs Hc) as Hs'.
    change (wp ok (f ()) Q (note (Preserved destination text) s')). apply Hf.
    + by apply ok_note.
    + exists destination. rewrite trace_noted by done. apply elem_of_app. right. by left.
    + intros e He. rewrite trace_noted, (trace_calm _ _ Hc) by done. apply elem_of_app. by left.
    + apply Hc.
Qed.

Lemma copied_grows pre pre' text : (∀ e, e ∈ pre → e ∈ pre') → copied pre text → copied pre' text.
Proof using Type. intros H [d Hd]. exists d. auto. Qed.

Lemma wp_foldLoop n disk base preserved s : ok s → (∀ t, preserved = Some t → copied (trace s) t) →
  wp ok (foldLoop n disk base preserved) (λ _, ok) s.
Proof using Type.
  revert preserved s. induction n as [|n IH]; intros preserved s Hs Hpre; [exact Hs|]. cbn [foldLoop].
  apply wp_bind. eapply wp_weaken; [exact (wp_readParsed s Hs)|done|]. intros latest s1 (H1 & _ & Hgrow & Hlast).
  apply wp_stopIf; [done|]. intros [_ Hsame]%orb_false_iff.
  destruct latest as [latest|]; [|done]. apply bool_decide_eq_false in Hsame. apply dec_stable in Hsame.
  destruct (Hlast latest eq_refl) as (raw & Hraw & Hparse).
  assert (∀ t, preserved = Some t → copied (trace s1) t) as Hpre1 by (intros; eapply copied_grows; eauto).
  clear Hpre Hgrow Hlast s Hs. apply wp_bind, wp_get, wp_bind, wp_lift; [done|]. intros merge Hmerge.
  wp_if Hc.
  { apply wp_preserve; [done|]. intros s2 H2 Hcop _ _. apply wp_stopIf; [done|]. intros _. apply IH; [done|].
    by intros t [= <-]. }
  apply wp_noting, wp_update, ok_noteDisk. eapply ok_calm; [|apply calm_apply]. apply ok_note; [done|].
  split; [exists raw; split; [done|]; by exists latest|].
  destruct base as [base|]; [|by injection Hmerge as <-].
  destruct (parse (serialize (value s1))) as [now|e] eqn:Ep; [|done]. injection Hmerge as <-.
  exists now. split_and!; [done..|]. intros Hconf. cbv beta iota in Hc. rewrite Hconf in Hc. simpl in Hc.
  apply andb_false_iff in Hc as [Hc|Hc]; apply bool_decide_eq_false, dec_stable in Hc; [by left|right].
  by apply Hpre1.
Qed.

(** A program all of whose effects are justified, in a state where all were *)
Definition fine {A} (m : M A) s : Prop := ok s → wp ok m (λ _, ok) s.

Lemma fine_await {A} (m : M A) s : fine m s → fine (await m) s.
Proof using Type. intros Hm Hs. apply wp_await_unrecorded; [intros; by eapply ok_calm..|by apply Hm]. Qed.

Lemma fine_bind {A B} (m : M A) (f : A → M B) s : fine m s → (∀ a s', fine (f a) s') → fine (m ≫= f) s.
Proof using Type. intros Hm Hf Hs. apply wp_bind. eapply wp_mono; [|by apply Hm]. intros a s' H'. by apply Hf. Qed.

Lemma fine_ret {A} (a : A) s : fine (mret a) s.
Proof using Type. intros Hs. exact Hs. Qed.

Lemma fine_stopIf {A} test (stop : A) (m : M A) s : fine m s → fine (stopIf test stop m) s.
Proof using Type. intros Hm Hs. apply wp_stopIf; [done|]. intros _. by apply Hm. Qed.

Lemma fine_effect e s : harmless e → fine (effect e) s.
Proof using Type. intros He Hs. apply ok_note; [done|]. by apply harmless_structured. Qed.

Lemma fine_update f s : unrecorded s (f s) → fine (update f) s.
Proof using Type. intros Hf Hs. by eapply ok_calm. Qed.

Lemma fine_waits {A} (m : M A) s : keeps (unrecorded s) m → fine m s.
Proof using Type.
  intros Hm Hs. eapply wp_weaken; [apply (Hm s (calm_refl s))|..].
  - intros s' Hc. exact (ok_calm _ _ Hs Hc).
  - intros a s' Hc. exact (ok_calm _ _ Hs Hc).
Qed.

Lemma fine_finally {A} (m : M A) f s : fine m s → (∀ s', unrecorded s' (f s')) → fine (finally m f) s.
Proof using Type.
  intros Hm Hf Hs. apply wp_finally. eapply wp_weaken; [by apply Hm|..].
  - intros s' H'. exact (ok_calm _ _ H' (Hf s')).
  - intros a s' H'. exact (ok_calm _ _ H' (Hf s')).
Qed.

Lemma fine_catch {A} (m : M A) h s : fine m s → (∀ e s', fine (h e) s') → fine (catch m h) s.
Proof using Type. intros Hm Hh Hs. apply wp_catch. eapply wp_weaken; [by apply Hm|intros s' H' e; by apply Hh|done]. Qed.

Lemma fine_foldDiskEdit disk s : fine (foldDiskEdit disk) s.
Proof using Type.
  apply fine_await. intros Hs. apply wp_bind, wp_bind, wp_get, wp_lift; [done|]. intros base _. by apply wp_foldLoop.
Qed.

Lemma fine_onDiskChanged s : fine onDiskChanged s.
Proof using Type.
  apply fine_await, fine_stopIf. intros Hs. apply wp_bind. eapply wp_weaken; [exact (wp_readParsed s Hs)|done|].
  intros [disk|] s1 [H1 _]; [|done]. apply wp_stopIf; [done|]. intros _. apply wp_bind, wp_get.
  wp_if E1; [by apply fine_update; [apply calm_startupDisk|]|].
  wp_if E2; [apply wp_update; case_match; [by apply ok_noteDisk|exact H1]|].
  wp_if E3; [exact H1|]. wp_if E4; [exact H1|]. wp_if E5; [by apply wp_update, ok_noteDisk|]. by apply fine_foldDiskEdit.
Qed.

(** ** Writing *)

Lemma calm_scheduleAck s : unrecorded s (scheduleAcknowledgedContent s).
Proof using Type. unfold scheduleAcknowledgedContent. by case_match. Qed.

Lemma fine_recordAcknowledged s : fine recordAcknowledgedContent s.
Proof using Type.
  apply fine_await, fine_stopIf. intros Hs. apply wp_bind, wp_get, wp_bind, wp_update.
  assert (ok (s <| contentFingerprint := Some (contentRevision s,
    match contentFingerprint s with
    | Some (r, fp) => if r =? contentRevision s then fp else sha256Text (serialize (value s))
    | None => sha256Text (serialize (value s))
    end) |>)) as Hs1 by by eapply ok_calm.
  revert Hs1. apply fine_bind; [apply fine_waits, keeps_pause, _|]. intros [] s2. apply fine_stopIf.
  intros H2. apply wp_bind, wp_get. wp_if E; [by apply fine_update; [apply calm_scheduleAck|]|]. by apply fine_effect.
Qed.

Lemma fine_settleWrite text s : fine (settleWrite text) s.
Proof using Type.
  apply fine_bind; [intros Hs; by apply wp_update, ok_noteDisk|]. intros _ s1.
  apply fine_bind; [by apply fine_effect|]. intros _ s2. apply fine_bind; [apply fine_recordAcknowledged|].
  intros _ s3. apply fine_ret.
Qed.

Lemma wp_writeOver over text write s : ok s →
  justified (trace s) (Wrote over (diskKnownText s) (diskParseFailed s) (value s) text) →
  wp ok (writeOver over text write) (λ _, ok) s.
Proof using Type.
  intros Hs Hj. apply wp_bind, wp_get, wp_noting. apply (fine_waits (call write)); [apply keeps_call, _|]. by apply ok_note.
Qed.

Lemma unseen_none raw s : unseenEdit raw s = None →
  diskKnownText s = None ∨ diskParseFailed s = true ∨ (∃ e, parse raw = Throws e) ∨
  ∃ k, diskKnownText s = Some k ∧ showsText raw k.
Proof using Type.
  unfold unseenEdit, showsText. destruct (diskKnownText s) as [k|]; [|by left].
  destruct (diskParseFailed s); [by right; left|]. destruct (parse raw) as [d|e]; [|by right; right; left; exists e].
  destruct (String.eqb_spec (serialize d) k) as [E|]; [|done]. intros _. do 3 right. exists k. split; [done|]. by exists d.
Qed.

Lemma fine_materialized s : fine (effect Materialized ≫= λ _, mret true) s.
Proof using Type. apply fine_bind; [by apply fine_effect|]. intros. apply fine_ret. Qed.

Lemma fine_overwrite text s : fine (overwrite text) s.
Proof using Type.
  intros Hs. apply wp_bind, wp_get. wp_if E1; [by apply fine_materialized|].
  apply wp_bind. eapply wp_weaken; [exact (wp_readRaw s Hs)|by intros s' []|]. intros raw s1 [(H1 & _) Hr].
  apply wp_stopIf; [done|]. intros _. wp_if E2; [by apply fine_settleWrite|].
  apply wp_bind, wp_get. wp_if E3; [by apply fine_materialized|].
  apply wp_stopIf; [done|]. intros Hh. apply wp_bind, wp_get.
  destruct (unseenEdit raw s1) as [current|] eqn:Eu.
  { apply (fine_bind _ _ _ (fine_foldDiskEdit current s1)); [intros; apply fine_ret|done]. }
  apply wp_bind. eapply wp_mono; [|apply (wp_writeOver (Some raw) text); [done|]].
  - intros [] s2 H2. apply wp_stopIf; [done|]. intros _. by apply fine_settleWrite.
  - split; [|split; [done|by apply unseen_none]]. apply negb_false_iff in Hh. by apply String.eqb_eq.
Qed.

Lemma fine_createFile text s : fine (createFile text) s.
Proof using Type.
  apply fine_stopIf, fine_bind; [apply fine_waits, keeps_parentFolder, _|]. intros _ s1.
  apply fine_stopIf. intros H1. apply wp_stopIf; [done|]. intros Hh.
  apply wp_bind. eapply wp_mono; [|apply (wp_writeOver None text); [done|]].
  - intros [] s2 H2. apply wp_stopIf; [done|]. intros _. by apply fine_settleWrite.
  - split; [|done]. apply negb_false_iff in Hh. by apply String.eqb_eq.
Qed.

Lemma fine_writeFailed s : fine writeFailed s.
Proof using Type.
  apply fine_stopIf. intros Hs. apply wp_bind, wp_get, wp_bind.
  enough (fine (if hasFile s then
      r ← attempt (text ← readRaw; lift (parse text));
      match r with
      | Returns parsed => update (λ s, s <| diskKnownText := Some (serialize parsed) |>)
      | Throws _ => mret ()
      end else mret ()) s) as H.
  { eapply wp_mono; [|by apply H]. intros [] s1 H1. by apply wp_bind, wp_update, wp_ret. }
  case_match; [|apply fine_ret]. intros _. apply wp_bind. eapply wp_weaken; [exact (wp_readAndParse s Hs)|done|].
  intros [d|e] s1 [H1 _]; [by apply fine_update|by apply fine_ret].
Qed.

Lemma fine_startDiskWrite s : fine startDiskWrite s.
Proof using Type.
  apply fine_bind; [by apply fine_update|]. intros _ s1. apply fine_finally; [|done]. apply fine_await, fine_stopIf.
  intros Hs. apply wp_bind, wp_get. revert Hs. apply fine_bind; [by apply fine_update|]. intros _ s2.
  apply fine_finally; [|done]. apply fine_catch; [|intros; apply fine_writeFailed].
  intros Hs. apply wp_bind, wp_get. case_match; [by apply fine_overwrite|by apply fine_createFile].
Qed.

Lemma fine_writeToDisk s : fine writeToDisk s.
Proof using Type.
  apply fine_await. intros Hs. apply wp_bind, wp_get. wp_if E1; [by apply (fine_waits (call _) _ (keeps_call _ _ _))|].
  wp_if E2; [|by apply fine_startDiskWrite]. revert Hs. apply fine_bind; [by apply fine_update|]. intros _ s1.
  apply fine_bind; [apply fine_waits, keeps_pause, _|]. intros _ s2.
  apply fine_bind; [by apply fine_update|]. intros _ s3. apply fine_startDiskWrite.
Qed.

Lemma fine_writeTimerFires s : fine writeTimerFires s.
Proof using Type.
  apply fine_bind; [by apply fine_update|]. intros _ s1. apply fine_stopIf, fine_bind; [apply fine_writeToDisk|].
  intros. apply fine_ret.
Qed.

(** ** Startup *)

(** A version that conflicts at startup was copied aside, now or before. *)
Definition someCopy s : Prop := (∃ text, copied (trace s) text) ∨ is_Some (preservedStartupRemote s0).

Lemma wp_applyStartup local base merge s : ok s →
  (∃ remote s', serialize remote = serialize (value s) ∧ startupMerge local remote base s' = Returns merge) →
  (conflicted merge = true → someCopy s) →
  wp ok (applyStartup local base merge) (λ _, ok) s.
Proof using Type.
  intros Hs Hm Hc. apply wp_stopIf; [done|]. intros _. apply wp_bind, wp_get, wp_noting, wp_bind, wp_update, wp_ret.
  eapply ok_calm; [|apply calm_apply]. by apply ok_note.
Qed.

Lemma wp_mergeAfterCopy remote disk local base merge s s' : ok s → someCopy s →
  startupMerge local remote base s' = Returns merge →
  wp ok (mergeAfterCopy remote disk local base merge) (λ _, ok) s.
Proof using Type.
  intros Hs Hcopy Hm. apply wp_bind. eapply wp_weaken; [exact (wp_readParsed s Hs)|done|].
  intros latest s1 (H1 & _ & Hgrow & _). apply wp_stopIf; [done|]. intros _.
  assert (someCopy s1) as Hcopy1 by (destruct Hcopy as [[t Ht]|?]; [left; exists t; by eapply copied_grows|by right]).
  wp_if E1; [by apply wp_bind, wp_update, wp_ret|]. apply wp_bind, wp_get.
  wp_if E2; [exact H1|]. wp_if E3.
  - apply wp_applyStartup; [done| |done]. exists remote, s'. split; [|done]. symmetry. by apply String.eqb_eq.
  - apply wp_bind, wp_lift; [done|]. intros again Hagain. apply wp_applyStartup; [done| |done]. by exists (value s1), s1.
Qed.

Lemma wp_mergeAtStartup s : ok s → (is_Some (preservedStartupRemote s) → someCopy s) →
  wp ok mergeAtStartup (λ _, ok) s.
Proof using Type.
  intros Hs Hp. apply wp_bind, wp_get. cbv zeta. destruct (localValue (startupLocal s)) as [disk|]; [|exact Hs].
  wp_if E1; [|exact Hs]. apply wp_bind, wp_lift; [done|]. intros merge Hm. wp_if E2.
  - apply wp_bind. case_bool_decide as Heq.
    + apply wp_ret, (wp_mergeAfterCopy _ _ _ _ _ _ s); [done| |done]. apply Hp. by rewrite <- Heq.
    + apply wp_preserve; [done|]. intros s1 H1 Hcop _ _. apply wp_update.
      apply (wp_mergeAfterCopy _ _ _ _ _ _ s); [by eapply ok_same|left; by exists (serialize (value s))|done].
  - apply wp_applyStartup; [done|by exists (value s), s|]. by rewrite E2.
Qed.

Lemma fine_materializeNow s : fine materializeNow s.
Proof using Type.
  intros Hs. apply wp_bind, wp_get. wp_if E1; [by apply fine_writeToDisk|]. wp_if E2; [by apply fine_materialized|exact Hs].
Qed.

Lemma wp_tryStartup s : ok s → (is_Some (preservedStartupRemote s) → someCopy s) → wp ok tryStartup (λ _, ok) s.
Proof using Type.
  intros Hs Hp. apply wp_bind, wp_get, wp_bind.
  assert (wp ok (if startupReconciled s then mret false else
      stop ← mergeAtStartup;
      if stop : bool then mret true else update (λ s, s <| startupReconciled := true |>) ≫= λ _, mret false)
      (λ _, ok) s) as H.
  { wp_if E; [exact Hs|]. apply wp_bind. eapply wp_mono; [|by apply wp_mergeAtStartup]. intros [] s1 H1; [exact H1|].
    by apply wp_bind, wp_update, wp_ret. }
  eapply wp_mono; [|exact H]. intros [] s1 H1; [exact H1|]. revert H1. apply fine_bind; [apply fine_materializeNow|].
  intros materialized s2. apply fine_stopIf, fine_bind; [by apply fine_update|]. intros _ s3.
  apply fine_bind; [apply fine_recordAcknowledged|]. intros. apply fine_ret.
Qed.

Lemma wp_finishStartup s : ok s → (is_Some (preservedStartupRemote s) → someCopy s) →
  wp ok finishStartupReconcile (λ _, ok) s.
Proof using Type.
  intros Hs Hp. apply wp_await_unrecorded; [intros; by eapply ok_calm..|]. apply wp_stopIf; [done|]. intros _.
  apply wp_bind, wp_update, wp_bind, wp_attempt. eapply wp_weaken; [by apply wp_tryStartup|..].
  - intros s1 H1 e. apply wp_update. cbv beta zeta iota. case_match; by eapply ok_same.
  - intros [] s1 H1; apply wp_update; [by eapply ok_same|]. cbv beta zeta iota. case_match; by eapply ok_same.
Qed.

Lemma ok_start : ok s0.
Proof using Type. split; [done|]. unfold all_warranted, trace. simpl. rewrite drop_all. by intros [] ? ?. Qed.

Lemma someCopy_start : is_Some (preservedStartupRemote s0) → someCopy s0.
Proof using Type. by right. Qed.
End spec.

(** The programs of a document that change its file or its content *)
Inductive Program := DiskChanged | FinishStartup | WriteToDisk | WriteTimer.

Section claims.
Context {W R : Type} `{!Platform W R}.
Implicit Types (s : @StructuredDocument W R).

Definition run (p : Program) s : @StructuredDocument W R :=
  match p with
  | DiskChanged => fst (onDiskChanged s)
  | FinishStartup => fst (finishStartupReconcile s)
  | WriteToDisk => fst (writeToDisk s)
  | WriteTimer => fst (writeTimerFires s)
  end.

Lemma wp_fst {A} (E : @StructuredDocument W R → Prop) (m : eff _ Err A) s : wp E m (λ _, E) s → E (fst (m s)).
Proof using Type. unfold wp. by destruct (m s) as [s' [a|e]]. Qed.


(** Startup is over, or another attempt is to come. *)
Definition startupGoesOn s : Prop :=
  startupReconciling s = false ∧ (ready s = true ∨ destroyed s = true ∨ (0 < retries s)%nat).

#[local] Instance startupGoesOn_stable : Stable startupGoesOn.
Proof using Type.
  split; [intros w s Hs; exact Hs|]. intros m s Hs.
  assert (∀ root s, startupGoesOn s → startupGoesOn (edit root s)) as He.
  { intros root s' H'. unfold edit, rootObserver, onRootChanged, scheduleWriteToDisk. repeat case_match; exact H'. }
  assert (∀ v base s, startupGoesOn s → startupGoesOn (applyValue v base s)) as Ha.
  { intros v base s' H'. unfold applyValue. case_match; [done|by apply He]. }
  destruct m; simpl; try exact Hs; try (case_match; exact Hs).
  - by apply He.
  - unfold destroy. case_match; [done|]. split; [apply Hs|]. by left.
  - case_match; [exact Hs|]. unfold startupDisk. repeat case_match; exact Hs.
  - exact (Ha applied base s Hs).
Qed.

Lemma attempt_again s : startupGoesOn (let s := s <| startupReconciling := false |> in
  if destroyed s then s else s <| retries ::= Nat.succ |>).
Proof using Type.
  cbv zeta. destruct (destroyed s) eqn:Hd; change (destroyed (s <| startupReconciling := false |>)) with (destroyed s);
    rewrite Hd; (split; [done|]); [by right; left|]. right; right. apply Nat.lt_0_succ.
Qed.

Lemma wp_await_returns {A} (m : eff _ Err A) s :
  wp (λ _, False) m (λ _, startupGoesOn) s → wp (λ _, False) (await m) (λ _, startupGoesOn) s.
Proof using Type. unfold wp, await. destruct (m s) as [s' [a|e]]; [|done]. apply stable_pause, _. Qed.

End claims.

(** ** Runs *)

(** A document of two fields, [a] and [b], whose file is [a/b]: a world with
    the file, the copies, how many writes fail, and what happens at the next
    turns. *)
Module StructuredRun.

Record Disk := mkDisk {
  file : option string;
  copies : list string;
  failures : nat;
  later : list (option string * list (Move JsonValue)) }.
#[export] Instance eta_Disk : Eta Disk := λ r, mkDisk (file r) (copies r) (failures r) (later r).

Definition turn (d : Disk) : Disk * list (Move JsonValue) :=
  match later d with
  | [] => (d, [])
  | (edit, ms) :: l =>
    (d <| later := l |> <| file := match edit with Some text => Some text | None => file d end |>, ms)
  end.

Definition still {A} (a : A) : Call Disk (Move JsonValue) Err A := λ d, (d, [], Returns a).

Definition fields (a b : string) : JsonValue := JObject ObjectPrototype [("a", JString a); ("b", JString b)]%string.
Definition place : string := "board.canvas".

#[export] Instance demoVault : VaultApi Disk (Move JsonValue) Err := {|
  tree d := match file d with Some _ => {[ place := TFile None ]} | None => ∅ end;
  workspace _ := mkWorkspace None None None;
  createFolder _ := still ();
  createBinary _ _ := still ();
  modifyBinary _ _ := still ();
  readFile _ := still [];
  deleteFile _ := still ();
  createText p text d := let '(d, ms) := turn d in (d <| copies ::= λ l, l ++ [text] |>, ms, Returns ());
  modifyText p text d :=
    let '(d, ms) := turn d in
    match failures d with
    | S n => (d <| failures := n |>, ms, Throws CallFailed)
    | O => (d <| file := Some text |>, ms, Returns ())
    end;
  readText p d := (d, [], match file d with Some text => Returns text | None => Throws CallFailed end);
  vaultNow _ := 0;
  vaultNormalize p := p;
  vaultLabel := "laptop"%string;
  vaultStamp _ := "20250101 120000"%string;
  noFreeName := CallFailed |}.

#[export] Instance demo : Platform Disk JsonValue := {|
  vault := demoVault;
  settle d := (d, []);
  toValue v := v;
  transact v _ _ := v;
  touched v w := negb (jsonEqual v w);
  parse text := match split "/"%char text with
                | [a; b] => Returns (fields a b)
                | _ => if String.eqb text "" then Returns (fields "" "") else Throws ParseError
                end;
  serialize v := match v with
                 | JObject _ [(_, JString a); (_, JString b)] => (a +:+ "/" +:+ b)%string
                 | _ => "/"%string
                 end;
  shouldDeferToLiveBinding _ := false;
  liveStartupValue _ := None;
  path := place;
  epoch := 0%N;
  forceBootstrapConflict := false;
  staleLocalFingerprint := None;
  retiredBaselineText := None;
  sha256Text text := text;
  documentEpoch _ := 0%N;
  acknowledgedFingerprint _ := None;
  diskFingerprint := still None;
  hasLocalChanges _ := false;
  readOnly _ := false;
  isPendingLocalRemoval _ := false;
  queuedWrite := still true;
  foldFuel := 10 |}.

(** A document that holds [v], on a disk, and what it knows of the file *)
Definition started (d : Disk) (v : JsonValue) (known : option string) : @StructuredDocument Disk JsonValue := {|
  world := d; root := v; destroyed := false; startupReady := true; ready := true; loadedStoredState := true;
  writingTextToDisk := None; diskKnownText := known; writeRunning := false; writeQueued := false; writeTimer := None;
  startupReconciled := true; startupReconciling := false; baselineAtStartup := fields "" "";
  baselineTextAtStartup := "o/o"; diskAtStartup := None; localChangedAtStartup := false;
  startupLocalBase := fields "o" "o"; diskParseFailed := false; preservedStartupRemote := None; retries := 0;
  contentRevision := 0; contentFingerprint := None; acknowledgeTimer := false; effects := [] |}.

Definition shown (s : @StructuredDocument Disk JsonValue) : string := serialize (value s).

(** An edit of [a] in the file meets one of [b] by a peer: both are kept. *)
Definition edited := started (mkDisk (Some "u/o"%string) [] 0 []) (fields "o" "r") (Some "o/o"%string).

Example edits_merged : shown (run DiskChanged edited) = "u/r"%string.
Proof. by vm_compute. Qed.


(** A write fails just as the user saves the file: what the file holds then is
    taken for known, the event of the save is dropped as an echo, and the
    retry writes over the user's edit. *)
Definition failing := started (mkDisk (Some "o/o"%string) [] 1 [(Some "u/o"%string, [])]) (fields "o" "n") (Some "o/o"%string).

Example edit_lost_after_failed_write :
  let s1 := run WriteToDisk failing in
  let s2 := run DiskChanged s1 in
  let s3 := run WriteTimer s2 in
  file (world s1) = Some "u/o"%string ∧ shown s2 = "o/n"%string ∧
  file (world s3) = Some "o/n"%string ∧ shown s3 = "o/n"%string ∧ copies (world s3) = [].
Proof. by vm_compute. Qed.

(** At startup a peer's version that conflicts arrives while the one before it
    is copied aside: the merge leaves it out, and no copy holds it. *)
Definition conflicting :=
  (started (mkDisk (Some "l/o"%string) [] 0 [(None, [Edited (fields "r2" "o")])]) (fields "r1" "o") (Some "l/o"%string))
  <| startupReady := false |> <| ready := false |> <| startupReconciled := false |>
  <| diskAtStartup := Some (fields "l" "o") |> <| localChangedAtStartup := true |>.

Example newer_version_lost_at_startup :
  let s := run FinishStartup conflicting in
  shown s = "l/o"%string ∧ file (world s) = Some "l/o"%string ∧ copies (world s) = ["r1/o"%string] ∧ ready s = true.
Proof. by vm_compute. Qed.


(** A file that could not be parsed at startup and is mended replaces what
    peers have written, with no copy of that. *)
Definition mended := started (mkDisk (Some "l/o"%string) [] 0 []) (fields "r" "r") None.

Example peers_lost_to_mended_file :
  shown (run DiskChanged mended) = "l/o"%string ∧ copies (world (run DiskChanged mended)) = [].
Proof. by vm_compute. Qed.
End StructuredRun.
