(* ===== verification/VaultIndex.v ===== *)
(** [src/VaultSync.ts], its state and what it does to it without waiting: the
    index of the vault's documents, the registry of the resident ones, the
    queue they connect through, what a change of the index or of the vault
    sets off, the trash.  [VaultSync] has the programs that wait.

    [BinarySync] is part of the state, and the index entries of the binaries,
    the local sync state and the world are the ones it holds, as the objects
    of the source share them.  Documents ([src/SyncedDoc.ts] and its
    subclasses) are told apart by a number; what they answer is the
    platform's. *)
From Stdlib Require Import String Ascii.
From stdpp Require Import pretty.
From S2P Require Import Prelude Effects TraceLogic Await JsString JsMap Json ConflictCopy Vault.
From S2P Require LocalState BinarySync BootstrapLog Provider.
#[local] Open Scope Z_scope.

Notation TAbstractFile := BootstrapLog.TAbstractFile.
Notation SyncStatus := Provider.SyncStatus.
Notation MaterializedKind := LocalState.MaterializedKind.
#[local] Existing Instances LocalState.MaterializedKind_eq_dec Provider.SyncStatus_eq_dec BinarySync.eta_BinarySync.

Inductive FileKind := FText | FStructured | FBinary | FIgnore.
#[export] Instance FileKind_eq_dec : EqDecision FileKind.
Proof. solve_decision. Defined.

Inductive StructuredKind := Canvas | Base.
#[export] Instance StructuredKind_eq_dec : EqDecision StructuredKind.
Proof. solve_decision. Defined.

(** ["text" | StructuredKind] *)
Inductive QueueKind := QText | QStructured (k : StructuredKind).
#[export] Instance QueueKind_eq_dec : EqDecision QueueKind.
Proof. solve_decision. Defined.

Definition materialized (k : QueueKind) : MaterializedKind :=
  match k with
  | QText => LocalState.KText
  | QStructured Canvas => LocalState.KCanvas
  | QStructured Base => LocalState.KBase
  end.

Record StructuredMeta := mkMeta { metaGuid : string; metaKind : StructuredKind }.

(** What a client writes to [structured] *)
Definition kindName (k : StructuredKind) : string := match k with Canvas => "canvas" | Base => "base" end.
Definition structuredValue (guid : string) (k : StructuredKind) : JsonValue :=
  JObject ObjectPrototype [("guid"%string, JString guid); ("kind"%string, JString (kindName k))].

Definition member (f : string) (v : JsonValue) : option JsonValue :=
  match v with JObject _ fields => snd <$> find (λ x, String.eqb x.1 f) fields | _ => None end.

(** The value as a [StructuredMeta], when it is one *)
Definition isStructuredMeta (v : JsonValue) : option StructuredMeta :=
  match member "guid" v, member "kind" v with
  | Some (JString guid), Some (JString kind) =>
    if String.eqb guid "" then None
    else if String.eqb kind "canvas" then Some (mkMeta guid Canvas)
    else if String.eqb kind "base" then Some (mkMeta guid Base)
    else None
  | _, _ => None
  end.

Inductive TrashKind := TrashDocument (k : QueueKind) | TrashBinary | TrashPluginDb.

(** Of a new entry, [deletedAt] is set when it is recorded. *)
Record TrashEntryValue := mkTrash {
  trashPath : string;
  trashKind : TrashKind;
  trashGuid : option string;
  trashHash : option string;
  trashSize : option Z;
  trashPluginId : option string;
  trashName : option string;
  deletedAt : Z }.
#[export] Instance eta_TrashEntryValue : Eta TrashEntryValue := λ r,
  mkTrash (trashPath r) (trashKind r) (trashGuid r) (trashHash r) (trashSize r) (trashPluginId r)
    (trashName r) (deletedAt r).

(** A document object, [Document], [CanvasDocument] or [BaseDocument] *)
Record SyncedDoc := mkDoc { docId : nat; docGuid : string; docKind : QueueKind }.

Record BootstrapOptions := mkOptions {
  autoConnect : bool;
  forceBootstrapConflict : bool;
  staleLocalFingerprint : option string;
  retiredBaselineOption : option string }.

Record QueueItem := mkItem {
  itemPath : string;
  itemGuid : string;
  itemKind : QueueKind;
  reconnect : bool;
  itemBaseline : option string }.
#[export] Instance eta_QueueItem : Eta QueueItem := λ r,
  mkItem (itemPath r) (itemGuid r) (itemKind r) (reconnect r) (itemBaseline r).

(** A connection slot in use: [waitsForSync] tells whether it is the next
    server sync that frees it, or the document being ready. *)
Record Slot := mkSlot { slotItem : QueueItem; slotDoc : SyncedDoc; slotGeneration : Z; waitsForSync : bool }.

(** What is published once a document is ready: [publishLocalText] and
    [publishLocalStructured], or the move of a renamed file. *)
Record Rename := mkRename {
  renamedFrom : string;
  wasTracked : bool;
  wasStructuredTracked : bool;
  binarySource : option string }.
Record Publish := mkPublish {
  pubPath : string;
  pubVersion : Z;
  pubDoc : SyncedDoc;
  pubKind : QueueKind;
  pubRename : option Rename }.

(** A remote delete to apply: path, kind and deleted identity *)
Notation Deletion := (string * QueueKind * option string)%type.

Inductive IndexOp :=
  | FilesSet (path guid : string)
  | FilesDelete (path : string)
  | StructuredSet (path : string) (v : JsonValue)
  | StructuredDelete (path : string)
  | TrashSet (id : string) (v : TrashEntryValue)
  | TrashDelete (id : string).

Inductive Err := VaultFailed | OutOfFuel | ThrownError (message : string).

(** What the object caused, and what it saw, for the specification.  [Saw...]
    are the versions a remote delete found, [None] for none; [Acknowledged]
    and [Lagging] the fingerprints it takes for safe; [Removed] tells whether
    the index lists the path. *)
Inductive Effect :=
  | SawResident (path : string) (content : option string)
  | SawDisk (path : string) (content : option string)
  | Acknowledged (path fp : string)
  | Lagging (path fp : string)
  | Preserved (path copy content : string)
  | Removed (path : string) (listed : bool)
  | Moved (from to guid : string)
  | Transacted (ops : list IndexOp)
  | Bumped (path : string)
  | Began (path : string) (version : Z)
  | Published (path : string) (version : Z) (replaces : bool)
  | Opened (path : string) (doc : SyncedDoc) (isCreator : bool) (options : BootstrapOptions)
  | Closed (doc : SyncedDoc) (clearLocalStore : bool)
  | Connect (doc : SyncedDoc)
  | EnsureConnected (doc : SyncedDoc)
  | Disconnect (doc : SyncedDoc)
  | DiskChanged (doc : SyncedDoc)
  | WhenReady (doc : SyncedDoc)
  | PresenceApplied (doc : SyncedDoc)
  | Registered (path guid : string)
  | StatusSet (status : string)
  | IndexDisconnect
  | ConfigPaused (b : bool)
  | ConfigStarted
  | NoteAttachments
  | Notice (text path : string).

(** What happens while a program waits.  From [DocumentEnsured] on these are
    the steps of the object's other programs. *)
Inductive Move :=
  | Binary (m : BinarySync.Move)
  | RemoteTransaction (ops : list IndexOp)
  | FileCreated (f : TAbstractFile)
  | FileDeleted (path : string)
  | FileRenamed (f : TAbstractFile) (from : string)
  | FileModified (f : TAbstractFile)
  | LocalNoted (op : LocalState.Op)
  | OwnWriteBegan (path : string)
  | OwnWriteReleased (path : string)
  | OwnWriteEnded
  | TextActivity
  | StatusChanged (status : SyncStatus)
  | SlotFreed (i : nat)
  | BecameReady (i : nat)
  | DeleteRetried (i : nat)
  | RenameForgotten (from to : string)
  | ItemPrioritized (path guid : option string)
  | PathEnsured (path : string)
  | EpochRebuilt (documentId : string) (rewound : bool)
  | Invalidated (documentId : string)
  | ReloadFired (path documentId : string)
  | SuspendCalled
  | ReconnectCalled
  | WokenUp
  | DestroyCalled
  | TrashRecorded (v : TrashEntryValue)
  | DocumentEnsured (path guid : string) (k : QueueKind) (isCreator : bool)
  | DocumentRemoved (path : string) (k : QueueKind) (clear : bool)
  | DocumentQueued (item : QueueItem) (front : bool)
  | QueuePumped
  | PathBumped (path : string)
  | IndexTransaction (ops : list IndexOp)
  | BinaryTrackingStopped (path : string)
  | DeleteFinished (path : string) (preserved : bool)
  | InitialSyncStep (prepared synced : bool).

(** The platform: [W] is the state of the vault, the server, the documents and
    the clock; [vaultFuel] bounds the rounds of a remote delete. *)
Class Platform (W : Type) := {
  binaryPlatform :: BinarySync.Platform W;
  vault :: VaultApi W Move Err;
  renameFile : string → string → Call W Move Err ();
  settleVault : W → W * list Move;
  (* a [TAbstractFile] and its current path; [vault.getFiles()] *)
  filePath : TAbstractFile → W → string;
  isTFile : TAbstractFile → bool;
  getFiles : W → list TAbstractFile;
  extension : string → string;
  (* settings *)
  configDir : string;
  syncCanvases : W → bool;
  syncBases : W → bool;
  syncBinaries : W → bool;
  binaryExcludeGlobs : W → string;
  syncConfigEnabled : W → bool;
  recentPaths : W → list string;
  mobileRecentResidentDocs : W → Z;
  mobileMaxResidentDocs : W → Z;
  activeVaultId : string;
  isMobile : bool;
  invalidationSupported : W → bool;
  isMatch : string → string → bool;              (* [picomatch.isMatch] *)
  (* documents, by number *)
  docContent : nat → W → string;
  docReady : nat → W → bool;
  docEpoch : nat → W → N;
  hasLocalChanges : nat → W → bool;
  docStatus : nat → W → SyncStatus;
  retiredBaseline : nat → W → option string;
  readyInTime : nat → Call W Move Err bool;      (* the race of [publishWhenReady] *)
  prepareForHibernation : nat → Call W Move Err bool;
  (* the index's own connection, the server; [verifyServer] is the gate's
     [verify] or [ensure] *)
  indexStatus : W → SyncStatus;
  verifyServer : Call W Move Err ();
  connectIndex : Call W Move Err ();
  deleteBlob : string → string → Call W Move Err ();
  deletePluginDb : string → string → Call W Move Err ();
  sqlApi : W → bool;
  sqlIsLive : string → string → Call W Move Err bool;
  sqlRestore : string → string → Call W Move Err ();
  (* [restoreEntry] of [BinarySync], whose steps are moves *)
  binaryRestoreEntry : string → string → Z → Call W Move Err bool;
  sha256Text : string → string;
  uuid : nat → string;                           (* the [n]-th [newGuid()] *)
  vaultFuel : nat }.

Section vaultIndex.
Context {W : Type} `{!Platform W}.

Record VaultSync := mkVaultSync {
  binary : @BinarySync.BinarySync W;
  files : jsmap string string;
  structured : jsmap string JsonValue;
  trash : jsmap string TrashEntryValue;
  documents : jsmap string SyncedDoc;
  structuredDocuments : jsmap string SyncedDoc;
  nextDoc : nat;                          (* document objects made so far *)
  nextGuid : nat;                         (* guids made so far *)
  destroyedDocs : gset nat;
  destroyed : bool;
  mobileSuspended : bool;
  initialSynced : bool;
  initialSyncRunning : bool;
  bootstrapPrepared : bool;
  startupFiles : jsmap string string;
  startupStructured : jsmap string StructuredMeta;
  lastTextActivityAt : Z;
  wasConnected : bool;
  docQueue : jsmap string QueueItem;
  activeDocConnections : Z;
  docConnectionGeneration : Z;
  slots : list Slot;                      (* what [whenQueueSlotFree] waits for *)
  highPriorityDrained : bool;
  backgroundSyncStarted : bool;
  prioritizedPaths : gset string;
  prioritizedGuids : gset string;
  pathVersions : gmap string Z;
  bootstrapLog : BootstrapLog.BootstrapEventLog;
  ownWrites : gmap string Z;
  ending : list string;                   (* the timers that end an own write *)
  remoteDeleteInFlight : gset string;
  remoteDeletePending : gmap string (QueueKind * option string);
  remoteDeletePreserved : gset string;
  remoteDeletesApplying : gset string;
  remoteRenamesApplying : gmap string string;
  binaryRenameSources : gmap string string;
  begunDeletes : list Deletion;           (* [void this.handleRemoteDelete(...)] *)
  deleteRetries : list Deletion;          (* timers *)
  begunCreates : list (TAbstractFile * string * Z);
  awaitedPublishes : list Publish;
  begunInitialSync : nat;
  begunBackground : bool;
  begunConnect : bool;                    (* [void this.connectIndexAfterCompatibilityCheck()] *)
  begunWake : bool;                       (* [void this.reconnectDocumentsWhenCompatible()] *)
  mobileLastUsedAt : gmap string Z;
  mobileTrimTimer : option Z;             (* its delay *)
  mobileTrimRunning : bool;
  mobileCatchUpPending : bool;
  mobileResumeInProgress : bool;
  invalidationReloads : gset string;
  invalidationReloadPending : gset string;
  runningDelete : option string;          (* the path of the delete that runs, if one does *)
  effects : list Effect }.
#[export] Instance eta_VaultSync : Eta VaultSync := λ r,
  mkVaultSync (binary r) (files r) (structured r) (trash r) (documents r) (structuredDocuments r) (nextDoc r)
    (nextGuid r) (destroyedDocs r) (destroyed r) (mobileSuspended r) (initialSynced r) (initialSyncRunning r)
    (bootstrapPrepared r) (startupFiles r) (startupStructured r) (lastTextActivityAt r) (wasConnected r)
    (docQueue r) (activeDocConnections r) (docConnectionGeneration r) (slots r) (highPriorityDrained r)
    (backgroundSyncStarted r) (prioritizedPaths r) (prioritizedGuids r) (pathVersions r) (bootstrapLog r)
    (ownWrites r) (ending r) (remoteDeleteInFlight r) (remoteDeletePending r) (remoteDeletePreserved r)
    (remoteDeletesApplying r) (remoteRenamesApplying r) (binaryRenameSources r) (begunDeletes r) (deleteRetries r)
    (begunCreates r) (awaitedPublishes r) (begunInitialSync r) (begunBackground r) (begunConnect r) (begunWake r) (mobileLastUsedAt r)
    (mobileTrimTimer r) (mobileTrimRunning r) (mobileCatchUpPending r) (mobileResumeInProgress r)
    (invalidationReloads r) (invalidationReloadPending r) (runningDelete r) (effects r).

Definition world (s : VaultSync) : W := BinarySync.world (binary s).
Definition now (s : VaultSync) : Z := vaultNow (VaultApi := vault) (world s).
Definition tree (s : VaultSync) : gmap string AbstractFile := Vault.tree (VaultApi := vault) (world s).

Definition note (e : Effect) (s : VaultSync) : VaultSync := s <| effects ::= λ l, l ++ [e] |>.

(** A synchronous call of [this.binarySync], [this.localSyncState] *)
Definition onBinary (f : @BinarySync.BinarySync W → @BinarySync.BinarySync W) (s : VaultSync) : VaultSync :=
  s <| binary ::= f |>.
Definition local (f : LocalState.LocalSyncState → LocalState.LocalSyncState) : VaultSync → VaultSync :=
  onBinary (BinarySync.local f).
Definition localState (path : string) (s : VaultSync) : option LocalState.LocalPathState :=
  BinarySync.localState path (binary s).
Definition hasLocal (path : string) (s : VaultSync) : bool := bool_decide (is_Some (localState path s)).
Definition askLocal {A} (f : LocalState.LocalSyncState → option A) (s : VaultSync) : option A :=
  BinarySync.localSyncState (binary s) ≫= f.

Definition newGuid (s : VaultSync) : VaultSync * string := (s <| nextGuid ::= S |>, uuid (nextGuid s)).

Definition localFileExists (path : string) (s : VaultSync) : bool :=
  match tree s !! path with Some (TFile _) => true | _ => false end.

(** ** Lookups *)

Definition metaAt (path : string) (s : VaultSync) : option StructuredMeta :=
  jm_get path (structured s) ≫= isStructuredMeta.

Fixpoint pathOfGuid {V} (guidOf : V → option string) (guid : string) (m : jsmap string V) : option string :=
  match m with
  | [] => None
  | (path, v) :: m => if bool_decide (guidOf v = Some guid) then Some path else pathOfGuid guidOf guid m
  end.

Definition pathForGuid (guid : string) (s : VaultSync) : option string :=
  match pathOfGuid Some guid (files s) with
  | Some path => Some path
  | None => pathOfGuid (λ v, metaGuid <$> isStructuredMeta v) guid (structured s)
  end.

Definition allDocuments (s : VaultSync) : list SyncedDoc :=
  jm_values (documents s) ++ jm_values (structuredDocuments s).

(** The registry that holds documents of this kind *)
Definition residentOf (k : QueueKind) (path : string) (s : VaultSync) : option SyncedDoc :=
  match k with QText => jm_get path (documents s) | QStructured _ => jm_get path (structuredDocuments s) end.

(** The index lists the path, with this kind of document. *)
Definition listed (k : QueueKind) (path : string) (s : VaultSync) : bool :=
  match k with QText => jm_has path (files s) | QStructured _ => jm_has path (structured s) end.

Definition documentMatchesIndex (path : string) (doc : SyncedDoc) (s : VaultSync) : bool :=
  match docKind doc with
  | QText => bool_decide (jm_get path (files s) = Some (docGuid doc))
  | QStructured _ => bool_decide (metaGuid <$> metaAt path s = Some (docGuid doc))
  end.

(** ** Which files are synced *)

(** [glob.ts] *)
Definition parseGlobs (globs : string) : list string :=
  filter (λ s, s ≠ ""%string) (map trim (split "," globs)).

Definition matchesAnyGlob (path : string) (globs : list string) : bool :=
  foldl (λ matched glob,
    let negated := startsWith "!" glob in
    let pattern := if negated then sliceFrom 1 glob else glob in
    if String.eqb pattern "" then matched
    else if isMatch path pattern then negb negated else matched) false globs.

(** [configDir.replace(/\/+$/, "")] *)
Fixpoint dropSlashes (s : string) : string :=
  match s with
  | EmptyString => EmptyString
  | String c s =>
    match dropSlashes s with
    | EmptyString => if bool_decide (c = "/"%char) then EmptyString else String c EmptyString
    | s => String c s
    end
  end.

Definition isConfigPath (path : string) : bool :=
  let dir := dropSlashes configDir in
  negb (String.eqb dir "") && startsWith (dir ++ "/") path.

Definition structuredKindForExtension (ext : string) : option StructuredKind :=
  if String.eqb ext "canvas" then Some Canvas
  else if String.eqb ext "base" then Some Base
  else None.

Definition structuredKindForPath (path : string) (s : VaultSync) : option StructuredKind :=
  match lastIndexOf "." path with
  | None => None
  | Some dot =>
    if match lastIndexOf "/" path with Some slash => bool_decide (dot < slash)%nat | None => false end then None
    else
      match structuredKindForExtension (sliceFrom (S dot) path) with
      | Some Canvas => if syncCanvases (world s) then Some Canvas else None
      | Some Base => if syncBases (world s) then Some Base else None
      | None => None
      end
  end.

Definition pathOfFile (f : TAbstractFile) (s : VaultSync) : string := filePath f (world s).
Definition extensionOf (f : TAbstractFile) (s : VaultSync) : string := extension (pathOfFile f s).

Definition isCopy (path : string) : bool := isConflictCopy (vaultNormalize (VaultApi := vault)) path.

Definition classify (f : TAbstractFile) (s : VaultSync) : FileKind :=
  let path := pathOfFile f s in
  if negb (isTFile f) then FIgnore
  else if isCopy path then FIgnore
  else if isConfigPath path then FIgnore
  else if String.eqb (extensionOf f s) "md" then FText
  else if String.eqb (extensionOf f s) "canvas" && syncCanvases (world s) then FStructured
  else if String.eqb (extensionOf f s) "base" && syncBases (world s) then FStructured
  else if negb (syncBinaries (world s)) then FIgnore
  else if matchesAnyGlob path (parseGlobs (binaryExcludeGlobs (world s))) then FIgnore
  else FBinary.

(** ** Own writes *)

Definition beginOwnWrite (path : string) (s : VaultSync) : VaultSync :=
  s <| ownWrites ::= <[path := default 0 (ownWrites s !! path) + 1]> |>.

(** The returned function, called for the first time *)
Definition releaseOwnWrite (path : string) (s : VaultSync) : VaultSync := s <| ending ::= λ l, l ++ [path] |>.

(** Its timer *)
Definition endOwnWrite (path : string) (s : VaultSync) : VaultSync :=
  let count := default 1 (ownWrites s !! path) - 1 in
  s <| ownWrites ::= if 0 <? count then <[path := count]> else delete path |>.

Definition ownWritesEnd (s : VaultSync) : VaultSync :=
  foldl (λ s path, endOwnWrite path s) (s <| ending := [] |>) (ending s).

Definition isOwnWrite (path : string) (s : VaultSync) : bool :=
  bool_decide (is_Some (ownWrites s !! path)) || bool_decide (path ∈ remoteDeletesApplying s) ||
  bool_decide (path ∈ BinarySync.writing (binary s)).

(** ** Path versions *)

Definition currentPathVersion (path : string) (s : VaultSync) : Z := default 0 (pathVersions s !! path).

Definition bumpPathVersion (path : string) (s : VaultSync) : VaultSync :=
  note (Bumped path) (s <| pathVersions ::= <[path := currentPathVersion path s + 1]> |>).

(** ** The resident documents *)

Definition scheduleMobileWorkingSetTrim (delay : Z) (s : VaultSync) : VaultSync :=
  if negb isMobile || negb (invalidationSupported (world s)) || destroyed s ||
     bool_decide (is_Some (mobileTrimTimer s))
  then s else s <| mobileTrimTimer := Some delay |>.

Definition markMobileDocumentUsed (path : string) (s : VaultSync) : VaultSync :=
  if negb isMobile then s
  else scheduleMobileWorkingSetTrim 1000 (s <| mobileLastUsedAt ::= <[path := now s]> |>).

Definition isDestroyed (doc : SyncedDoc) (s : VaultSync) : bool := bool_decide (docId doc ∈ destroyedDocs s).

(** [doc.destroy({ clearLocalStore })] *)
Definition destroyDoc (doc : SyncedDoc) (clear : bool) (s : VaultSync) : VaultSync :=
  if isDestroyed doc s then s
  else note (Closed doc clear) (s <| destroyedDocs ::= union {[docId doc]} |>).

Definition hasResidentGuid (guid : string) (s : VaultSync) : bool :=
  existsb (λ doc, String.eqb (docGuid doc) guid) (allDocuments s).

Definition removeDocument (path : string) (clear : bool) (s : VaultSync) : VaultSync :=
  let s := match jm_get path (documents s) with
           | Some doc =>
             let s := s <| documents ::= jm_delete path |> in
             destroyDoc doc (clear && negb (hasResidentGuid (docGuid doc) s)) s
           | None => s
           end in
  s <| mobileLastUsedAt ::= delete path |>.

Definition removeStructuredDocument (path : string) (clear : bool) (s : VaultSync) : VaultSync :=
  let s := match jm_get path (structuredDocuments s) with
           | Some doc =>
             let s := s <| structuredDocuments ::= jm_delete path |> in
             destroyDoc doc (clear && negb (hasResidentGuid (docGuid doc) s)) s
           | None => s
           end in
  s <| mobileLastUsedAt ::= delete path |>.

Definition removeResident (k : QueueKind) (path : string) (clear : bool) (s : VaultSync) : VaultSync :=
  match k with QText => removeDocument path clear s | QStructured _ => removeStructuredDocument path clear s end.

Definition deletedStoreDisposable (path : string) (s : VaultSync) : bool :=
  match (match jm_get path (documents s) with Some doc => Some doc | None => jm_get path (structuredDocuments s) end) with
  | Some doc => negb (hasLocalChanges (docId doc) (world s))
  | None => false
  end.

Definition bootstrapOptions (path guid : string) (auto : bool) (baseline : option string) (s : VaultSync) :
    BootstrapOptions :=
  let identityConflict := localFileExists path s &&
    default false (askLocal (λ ls, Some (LocalState.hasIdentityConflict path guid ls)) s) in
  let state := if identityConflict then localState path s else None in
  let stale :=
    match state with
    | Some st =>
      match LocalState.truthy (mjoin (LocalState.identity st)), LocalState.truthy (LocalState.fingerprint st) with
      | Some i, Some fp =>
        if default false (LocalState.candidate st) then None
        else if bool_decide (LocalState.truthy (pathForGuid i s) = None) then Some fp else None
      | _, _ => None
      end
    | None => None
    end in
  mkOptions (auto && negb (mobileSuspended s)) identityConflict stale baseline.

(** [new Document(...)], [new CanvasDocument(...)], [new BaseDocument(...)],
    put in its registry *)
Definition openDocument (path guid : string) (k : QueueKind) (isCreator auto : bool) (baseline : option string)
    (s : VaultSync) : VaultSync * SyncedDoc :=
  let doc := mkDoc (nextDoc s) guid k in
  let s := note (Opened path doc isCreator (bootstrapOptions path guid auto baseline s)) (s <| nextDoc ::= S |>) in
  let s := match k with
           | QText => s <| documents ::= jm_set path doc |>
           | QStructured _ => s <| structuredDocuments ::= jm_set path doc |>
           end in
  (scheduleMobileWorkingSetTrim 1000 (note (PresenceApplied doc) s), doc).

(** [ensureDocument], and [ensureStructuredDocument] *)
Definition ensureDocument (path guid : string) (k : QueueKind) (isCreator auto : bool) (baseline : option string)
    (s : VaultSync) : VaultSync * SyncedDoc :=
  match residentOf k path s with
  | Some existing =>
    if bool_decide (docGuid existing = guid) then (s, existing)
    else openDocument path guid k isCreator auto baseline (removeResident k path false s)
  | None => openDocument path guid k isCreator auto baseline s
  end.

Definition ensured (path guid : string) (k : QueueKind) (isCreator : bool) (s : VaultSync) : VaultSync :=
  fst (ensureDocument path guid k isCreator true None s).

Definition ensureDocumentForPath (path : string) (s : VaultSync) : VaultSync * option SyncedDoc :=
  let s := markMobileDocumentUsed path s in
  match LocalState.truthy (jm_get path (files s)) with
  | None => (s, jm_get path (documents s))
  | Some guid =>
    let '(s, doc) := ensureDocument path guid QText false false None s in
    (if mobileSuspended s then s else note (Connect doc) s, Some doc)
  end.

(** The resident document with its epoch and its [content], [canvasText()] or
    [baseData()] *)
Definition residentContent (path : string) (k : QueueKind) (s : VaultSync) : option (SyncedDoc * N * string) :=
  match residentOf k path s with
  | Some doc =>
    if bool_decide (docKind doc = k)
    then Some (doc, docEpoch (docId doc) (world s), docContent (docId doc) (world s)) else None
  | None => None
  end.

Definition registerFile (path guid : string) : VaultSync → VaultSync := note (Registered path guid).

(** ** The queue of connections *)

Definition putInQueue (item : QueueItem) (front : bool) (s : VaultSync) : VaultSync :=
  let s := if front then s <| prioritizedPaths ::= union {[itemPath item]} |> else s in
  if front then s <| docQueue ::= λ q, (itemPath item, item) :: jm_delete (itemPath item) q |>
  else s <| docQueue ::= jm_set (itemPath item) item |>.

Definition enqueueDoc (item : QueueItem) (front : bool) (s : VaultSync) : VaultSync :=
  if destroyed s then s
  else match residentOf (itemKind item) (itemPath item) s with
       | Some existing =>
         if bool_decide (docGuid existing = itemGuid item) then s
         else putInQueue item front (removeResident (itemKind item) (itemPath item) false s)
       | None => putInQueue item front s
       end.

(** Not put at the front, an item goes to the end, or replaces one after it
    was taken out. *)
Definition requeue (item : QueueItem) (front : bool) (s : VaultSync) : VaultSync :=
  putInQueue item front (s <| docQueue ::= jm_delete (itemPath item) |>).

Definition isIdle (st : SyncStatus) : bool :=
  match st with Provider.Offline | Provider.Error => true | _ => false end.

Definition enqueueReconnect (item : QueueItem) (front : bool) (s : VaultSync) : VaultSync :=
  if destroyed s then s
  else match residentOf (itemKind item) (itemPath item) s with
       | Some doc =>
         if negb (bool_decide (docGuid doc = itemGuid item)) then enqueueDoc item front s
         else if negb (docReady (docId doc) (world s)) then requeue item front s
         else if negb (isIdle (docStatus (docId doc) (world s))) then s
         else requeue (item <| reconnect := true |>) front s
       | None => enqueueDoc item front s
       end.

Definition newItem (path guid : string) (k : QueueKind) : QueueItem := mkItem path guid k false None.

Definition enqueueKnownPath (path : string) (front again : bool) (s : VaultSync) : VaultSync :=
  let enqueue item s := if again then enqueueReconnect item front s else enqueueDoc item front s in
  let s := match LocalState.truthy (jm_get path (files s)) with
           | Some guid => enqueue (newItem path guid QText) s
           | None => s
           end in
  match metaAt path s with
  | Some meta => enqueue (newItem path (metaGuid meta) (QStructured (metaKind meta))) s
  | None => s
  end.

Definition concurrency : Z := if isMobile then 1 else 2.

(** One round of the [while] of [pumpDocQueue], for the first of the queue *)
Definition connectNext (item : QueueItem) (s : VaultSync) : VaultSync :=
  let s := s <| docQueue ::= jm_delete (itemPath item) |> in
  let '(s, doc) := ensureDocument (itemPath item) (itemGuid item) (itemKind item) false false (itemBaseline item) s in
  let waits := reconnect item && negb (bool_decide (docStatus (docId doc) (world s) = Provider.Connected)) in
  let s := s <| activeDocConnections ::= Z.add 1 |> in
  note (Connect doc) (s <| slots ::= λ l, l ++ [mkSlot item doc (docConnectionGeneration s) waits] |>).

Fixpoint pump (n : nat) (s : VaultSync) : VaultSync :=
  match n, docQueue s with
  | S n, (_, item) :: _ => if activeDocConnections s <? concurrency then pump n (connectNext item s) else s
  | _, _ => s
  end.

(** Each round takes one item off the queue. *)
Definition pumpDocQueue (s : VaultSync) : VaultSync :=
  if destroyed s || mobileSuspended s then s else pump (length (docQueue s)) s.

(** The programs it starts are [reconcileBinariesAndMigrateStructured] and
    the settings sync. *)
Definition startBackgroundSyncAfterPriorityDrain (s : VaultSync) : VaultSync :=
  if negb (initialSynced s) || destroyed s || negb (highPriorityDrained s) then s
  else if backgroundSyncStarted s then s
  else
    let s := s <| backgroundSyncStarted := true |> <| begunBackground := true |> in
    if syncConfigEnabled (world s) then note ConfigStarted s else s.

(** What follows [whenQueueSlotFree]: with the slot counted as free *)
Definition slotIsFree (slot : Slot) (s : VaultSync) : VaultSync :=
  let s := s <| prioritizedPaths ::= λ p, p ∖ {[itemPath (slotItem slot)]} |>
             <| prioritizedGuids ::= λ p, p ∖ {[itemGuid (slotItem slot)]} |> in
  let s := if negb (highPriorityDrained s) && bool_decide (prioritizedPaths s = ∅)
           then startBackgroundSyncAfterPriorityDrain (s <| highPriorityDrained := true |>) else s in
  pumpDocQueue (scheduleMobileWorkingSetTrim 0 s).

Definition slotFreed (slot : Slot) (s : VaultSync) : VaultSync :=
  if bool_decide (slotGeneration slot = docConnectionGeneration s)
  then slotIsFree slot (s <| activeDocConnections := Z.max 0 (activeDocConnections s - 1) |>)
  else s.

Definition freeSlot (i : nat) (s : VaultSync) : VaultSync :=
  match slots s !! i with
  | Some slot => slotFreed slot (s <| slots ::= delete i |>)
  | None => s
  end.

(** ** Index transactions, and what observes them *)

Inductive IndexKey := FileKey (path : string) | StructuredKey (path : string).
#[export] Instance IndexKey_eq_dec : EqDecision IndexKey.
Proof. solve_decision. Defined.

Definition isFileKey (k : IndexKey) : bool := match k with FileKey _ => true | StructuredKey _ => false end.

Definition applyOp (op : IndexOp) (s : VaultSync) : VaultSync :=
  match op with
  | FilesSet path guid => s <| files ::= jm_set path guid |>
  | FilesDelete path => s <| files ::= jm_delete path |>
  | StructuredSet path v => s <| structured ::= jm_set path v |>
  | StructuredDelete path => s <| structured ::= jm_delete path |>
  | TrashSet id v => s <| trash ::= jm_set id v |>
  | TrashDelete id => s <| trash ::= jm_delete id |>
  end.

(** The key with an observer that it changes; deleting an absent key is no
    change. *)
Definition changedKey (op : IndexOp) (s : VaultSync) : option IndexKey :=
  match op with
  | FilesSet path _ => Some (FileKey path)
  | FilesDelete path => if jm_has path (files s) then Some (FileKey path) else None
  | StructuredSet path _ => Some (StructuredKey path)
  | StructuredDelete path => if jm_has path (structured s) then Some (StructuredKey path) else None
  | TrashSet _ _ | TrashDelete _ => None
  end.

Definition applyOps (ops : list IndexOp) (s : VaultSync) : VaultSync * list IndexKey :=
  foldl (λ '(s, ks) op,
    (applyOp op s, match changedKey op s with Some k => js_add k ks | None => ks end)) (s, []) ops.

(** The observers of the map changed first come first. *)
Definition observedKeys (ks : list IndexKey) : list IndexKey :=
  match ks with
  | [] => []
  | k :: _ => filter (λ k', isFileKey k' = isFileKey k) ks ++ filter (λ k', isFileKey k' ≠ isFileKey k) ks
  end.

(** The part of [handleRemoteDelete] that notes the delete; the rest is begun
    once the transaction and its caller are done. *)
Definition remoteDeleteBegins (path : string) (k : QueueKind) (deletedIdentity : option string) (s : VaultSync) :
    VaultSync :=
  if destroyed s then s
  else if bool_decide (path ∈ remoteDeleteInFlight s)
  then s <| remoteDeletePending ::= <[path := (k, deletedIdentity)]> |>
  else s <| remoteDeleteInFlight ::= union {[path]} |> <| begunDeletes ::= λ l, l ++ [(path, k, deletedIdentity)] |>.

(** An entry that was added or updated *)
Definition entryArrived (path guid : string) (k : QueueKind) (s : VaultSync) : VaultSync :=
  if BootstrapLog.removed path (bootstrapLog s) then s
  else
    let s := registerFile path guid (s <| remoteDeletePreserved ::= λ p, p ∖ {[path]} |>) in
    pumpDocQueue
      (enqueueDoc (newItem path guid k)
         (bool_decide (path ∈ prioritizedPaths s) || bool_decide (guid ∈ prioritizedGuids s) ||
          negb (localFileExists path s)) s).

(** [onFilesChanged] and [onStructuredChanged], for one key and the index
    before the transaction *)
Definition indexChanged (before : VaultSync) (s : VaultSync) (key : IndexKey) : VaultSync :=
  if destroyed s || negb (bootstrapPrepared s) then s
  else match key with
  | FileKey path =>
    match jm_get path (files s), jm_get path (files before) with
    | Some guid, _ => if String.eqb guid "" then s else entryArrived path guid QText s
    | None, Some old => remoteDeleteBegins path QText (Some old) s
    | None, None => s
    end
  | StructuredKey path =>
    match jm_get path (structured s), jm_get path (structured before) with
    | Some v, _ =>
      match isStructuredMeta v with
      | Some meta => entryArrived path (metaGuid meta) (QStructured (metaKind meta)) s
      | None => s
      end
    | None, Some old =>
      match isStructuredMeta old with
      | Some meta => remoteDeleteBegins path (QStructured (metaKind meta)) (Some (metaGuid meta)) s
      | None => remoteDeleteBegins path (QStructured Canvas) None s
      end
    | None, None => s
    end
  end.

(** A transaction; [also] is what the callback does beside the index. *)
Definition transaction (ops : list IndexOp) (also : VaultSync → VaultSync) (s : VaultSync) : VaultSync :=
  let '(s', ks) := applyOps ops s in
  foldl (indexChanged s) (also s') (observedKeys ks).

(** [indexDoc.transact] *)
Definition transactAlso (ops : list IndexOp) (also : VaultSync → VaultSync) (s : VaultSync) : VaultSync :=
  transaction ops (λ s, also (note (Transacted ops) s)) s.

Definition transact (ops : list IndexOp) : VaultSync → VaultSync := transactAlso ops id.

(** ** The trash *)

Definition trashOf (path : string) (k : TrashKind) (guid : option string) : TrashEntryValue :=
  mkTrash path k guid None None None None 0.

(** [recordTrashIn], in a transaction that then does [ops] *)
Definition trashing (entry : TrashEntryValue) (ops : list IndexOp) (s : VaultSync) : VaultSync :=
  let '(s, id) := newGuid s in
  transact (TrashSet id (entry <| deletedAt := now s |>) :: ops) s.

Definition recordTrash (entry : TrashEntryValue) (s : VaultSync) : VaultSync :=
  if destroyed s then s else trashing entry [] s.

(** [listTrash]: newest first, in a stable order *)
Fixpoint insertNewest (x : string * TrashEntryValue) (l : list (string * TrashEntryValue)) :
    list (string * TrashEntryValue) :=
  match l with
  | [] => [x]
  | y :: l' => if deletedAt y.2 <? deletedAt x.2 then x :: l else y :: insertNewest x l'
  end.

Definition listTrash (s : VaultSync) : list (string * TrashEntryValue) :=
  foldl (λ l x, insertNewest x l) [] (trash s).

Definition pathInUse (path : string) (s : VaultSync) : bool :=
  jm_has path (files s) || jm_has path (structured s) || BinarySync.hasPath path (binary s) ||
  bool_decide (is_Some (tree s !! path)).

(** ** Publishing what was made here *)

Definition sameDoc (doc : SyncedDoc) (d : option SyncedDoc) : bool := bool_decide (docId <$> d = Some (docId doc)).

Definition canPublishLocalPath (path : string) (version : Z) (doc : SyncedDoc) (s : VaultSync) : bool :=
  negb (isDestroyed doc s) && (currentPathVersion path s =? version) && localFileExists path s &&
  sameDoc doc (residentOf (docKind doc) path s) && negb (listed (docKind doc) path s).

Definition setEntry (path guid : string) (k : QueueKind) : IndexOp :=
  match k with
  | QText => FilesSet path guid
  | QStructured k => StructuredSet path (structuredValue guid k)
  end.

(** The binary a still unpublished document was renamed from *)
Definition takeBinaryRenameSource (path : string) (s : VaultSync) : VaultSync * option string :=
  (s <| binaryRenameSources ::= delete path |>, binaryRenameSources s !! path).

Definition releaseBinarySource (path : string) (source : option string) (s : VaultSync) : VaultSync :=
  match source with
  | None => s
  | Some b =>
    let s := if bool_decide (binaryRenameSources s !! path = Some b)
             then s <| binaryRenameSources ::= delete path |> else s in
    onBinary (BinarySync.releaseMovedPath b) s
  end.

Definition deletes (r : Rename) : list IndexOp :=
  (if wasTracked r then [FilesDelete (renamedFrom r)] else []) ++
  (if wasStructuredTracked r then [StructuredDelete (renamedFrom r)] else []).

(** [publish] of [handleLocalRename] *)
Definition publishMove (p : Publish) (r : Rename) (s : VaultSync) : VaultSync :=
  let guid := docGuid (pubDoc p) in
  registerFile (pubPath p) guid
    (transactAlso (deletes r ++ [setEntry (pubPath p) guid (pubKind p)])
       (releaseBinarySource (pubPath p) (binarySource r)) s).

(** [publishLocalText] and [publishLocalStructured], past their guard *)
Definition publishNew (p : Publish) (s : VaultSync) : VaultSync :=
  let guid := docGuid (pubDoc p) in
  registerFile (pubPath p) guid
    (local (LocalState.commit (pubPath p) (materialized (pubKind p)) guid)
       (transact [setEntry (pubPath p) guid (pubKind p)] s)).

Definition publish (p : Publish) (s : VaultSync) : VaultSync :=
  if destroyed s || negb (canPublishLocalPath (pubPath p) (pubVersion p) (pubDoc p) s) then s
  else
    let s := note (Published (pubPath p) (pubVersion p) (listed (docKind (pubDoc p)) (pubPath p) s)) s in
    match pubRename p with Some r => publishMove p r s | None => publishNew p s end.

(** A document that was waited for is ready. *)
Definition becameReady (i : nat) (s : VaultSync) : VaultSync :=
  match awaitedPublishes s !! i with
  | Some p => publish p (s <| awaitedPublishes ::= delete i |>)
  | None => s
  end.

(** ** Local vault events *)

(** The first steps of [handleLocalCreate] *)
Definition createBegins (f : TAbstractFile) (s : VaultSync) : VaultSync :=
  if destroyed s || negb (initialSynced s) then s
  else
    let path := pathOfFile f s in
    let s := bumpPathVersion path s in
    note (Began path (currentPathVersion path s)) s.

Definition onLocalCreate (f : TAbstractFile) (s : VaultSync) : VaultSync :=
  let path := pathOfFile f s in
  if destroyed s || isOwnWrite path s then s
  else if negb (initialSynced s)
  then (bumpPathVersion path s) <| bootstrapLog ::= BootstrapLog.create path f |>
  else
    let s := createBegins f s in
    s <| begunCreates ::= λ l, l ++ [(f, path, currentPathVersion path s)] |>.

(** What [applyLocalDeletion] does to an entry: it goes to the trash. *)
Definition trashEntry (path guid : string) (k : QueueKind) : VaultSync → VaultSync :=
  trashing (trashOf path (TrashDocument k) (Some guid))
    [match k with QText => FilesDelete path | QStructured _ => StructuredDelete path end].

Definition applyLocalDeletion (path : string) (s : VaultSync) : VaultSync :=
  let '(s, source) := takeBinaryRenameSource path s in
  let s := match LocalState.truthy source with Some b => onBinary (BinarySync.onLocalDeleted b) s | None => s end in
  let s := bumpPathVersion path (local (LocalState.remove path) s) in
  let clear := deletedStoreDisposable path s in
  if jm_has path (documents s) || jm_has path (files s) then
    let s := removeDocument path clear s in
    match jm_get path (files s) with Some guid => trashEntry path guid QText s | None => s end
  else if jm_has path (structuredDocuments s) || jm_has path (structured s) then
    let s := removeStructuredDocument path clear s in
    match metaAt path s with
    | Some meta => trashEntry path (metaGuid meta) (QStructured (metaKind meta)) s
    | None => s
    end
  else onBinary (BinarySync.onLocalDeleted path) s.

Definition onLocalDelete (path : string) (s : VaultSync) : VaultSync :=
  if destroyed s || isOwnWrite path s then s
  else if negb (initialSynced s)
  then (bumpPathVersion path s) <| bootstrapLog ::= BootstrapLog.delete path |>
  else applyLocalDeletion path s.

(** The local state of a renamed file, whose document is of kind [k] now, if
    it is one *)
Definition moveLocalState (from to : string) (kind : FileKind) (k : option QueueKind) (source : option string)
    (s : VaultSync) : VaultSync :=
  let wasBinary := bool_decide (LocalState.kind <$> localState from s = Some LocalState.KBinary) in
  match k with
  | Some k =>
    if bool_decide (is_Some source) && wasBinary then s else local (LocalState.move from to (materialized k)) s
  | None =>
    match kind with
    | FStructured => local (LocalState.remove from) s
    | _ => if wasBinary then s else local (LocalState.remove from) s
    end
  end.

Definition holdBinarySource (to : string) (k : option QueueKind) (source : option string) (s : VaultSync) : VaultSync :=
  match k, source with
  | Some _, Some b => (onBinary (BinarySync.holdMovedPath b) s) <| binaryRenameSources ::= <[to := b]> |>
  | _, _ => s
  end.

(** The file is a document under its new path; [tracked] tells that the index
    listed its old one in the same map, [guid] which document that was.  What
    is left to publish once the document is ready, if it is not tracked. *)
Definition renameToDocument (to : string) (version : Z) (k : QueueKind) (guid : option string) (tracked : bool)
    (r : Rename) (s : VaultSync) : VaultSync * option Publish :=
  let '(s, finalGuid) := match guid with Some g => (s, g) | None => newGuid s end in
  let s := match binarySource r with
           | Some _ => local (LocalState.beginCandidate to (materialized k) (Some finalGuid) None) s
           | None => s
           end in
  let '(s, doc) := ensureDocument to finalGuid k (negb tracked) true None s in
  let p := mkPublish to version doc k (Some r) in
  if tracked then (publishMove p r s, None) else (s, Some p).

(** The entries of the other map, dropped before the new document is ready *)
Definition dropOtherEntry (k : QueueKind) (guid : option string) (r : Rename) (s : VaultSync) : VaultSync :=
  match k with
  | QText =>
    if negb (wasTracked r) && wasStructuredTracked r then transact [StructuredDelete (renamedFrom r)] s else s
  | QStructured _ =>
    if negb (wasStructuredTracked r) && wasTracked r then
      match LocalState.truthy guid with
      | Some g => trashing (trashOf (renamedFrom r) (TrashDocument QText) (Some g)) [FilesDelete (renamedFrom r)] s
      | None => transact [FilesDelete (renamedFrom r)] s
      end
    else s
  end.

(** [handleLocalRename] up to its await *)
Definition localRename (f : TAbstractFile) (from : string) (s : VaultSync) : VaultSync * option Publish :=
  if destroyed s || negb (initialSynced s) || negb (isTFile f) then (s, None)
  else
    let to := pathOfFile f s in
    let s := bumpPathVersion to (bumpPathVersion from s) in
    let version := currentPathVersion to s in
    let tracked := jm_has from (files s) in
    let guid := match jm_get from (files s) with Some g => Some g | None => docGuid <$> jm_get from (documents s) end in
    let structuredTracked := jm_has from (structured s) in
    let structuredGuid := match metaAt from s with
                          | Some meta => Some (metaGuid meta)
                          | None => docGuid <$> jm_get from (structuredDocuments s)
                          end in
    let '(s, source) := takeBinaryRenameSource from s in
    let source := match source with
                  | Some b => Some b
                  | None => if negb tracked && negb structuredTracked && BinarySync.hasPath from (binary s)
                            then Some from else None
                  end in
    let s := removeStructuredDocument from false (removeDocument from false s) in
    let kind := classify f s in
    let structuredKind := if decide (kind = FStructured) then structuredKindForExtension (extensionOf f s) else None in
    let documentKind := if decide (kind = FText) then Some QText else QStructured <$> structuredKind in
    let s := moveLocalState from to kind documentKind source s in
    let s := holdBinarySource to documentKind source s in
    let r := mkRename from tracked structuredTracked source in
    let s' := if tracked || structuredTracked then transact (deletes r) s else s in
    match kind, documentKind with
    | FText, _ =>
      let '(s, p) := renameToDocument to version QText guid tracked r s in
      (dropOtherEntry QText guid r s, p)
    | FStructured, Some k =>
      let '(s, p) := renameToDocument to version k structuredGuid structuredTracked r s in
      (dropOtherEntry k guid r s, p)
    | FStructured, None => (s, None)
    | FBinary, _ => (onBinary (BinarySync.onLocalRenamed to (default from source)) s', None)
    | FIgnore, _ => (onBinary (BinarySync.onLocalDeleted (default from source)) s', None)
    end.

Definition onLocalRename (f : TAbstractFile) (from : string) (s : VaultSync) : VaultSync :=
  let to := pathOfFile f s in
  if bool_decide (remoteRenamesApplying s !! from = Some to) then s <| remoteRenamesApplying ::= delete from |>
  else if negb (initialSynced s)
  then (bumpPathVersion to (bumpPathVersion from s)) <| bootstrapLog ::= BootstrapLog.rename from to f |>
  else
    let '(s, p) := localRename f from s in
    match p with Some p => s <| awaitedPublishes ::= λ l, l ++ [p] |> | None => s end.

(** The note is the active file's, or a leaf shows it. *)
Definition isOpenMarkdown (path : string) (s : VaultSync) : bool :=
  let ws := workspace (VaultApi := vault) (world s) in
  String.eqb (extension path) "md" &&
  (bool_decide (mjoin (activeFile ws) = Some path) || existsb (showsPath path) (default [] (allLeaves ws))).

(** The resident document reads the file again. *)
Definition diskChanged (doc : SyncedDoc) (s : VaultSync) : VaultSync :=
  note (DiskChanged doc) (if mobileSuspended s then s else note (EnsureConnected doc) s).

Definition onLocalModify (f : TAbstractFile) (s : VaultSync) : VaultSync :=
  if destroyed s then s
  else
    let path := pathOfFile f s in
    let s := if isTFile f && isOpenMarkdown path s then note NoteAttachments s else s in
    if negb (initialSynced s)
    then if isOwnWrite path s then s else s <| bootstrapLog ::= BootstrapLog.modify path f |>
    else match classify f s with
    | FBinary => onBinary (BinarySync.onLocalChanged path) s
    | FStructured =>
      let s := markMobileDocumentUsed path s in
      match jm_get path (structuredDocuments s), metaAt path s with
      | Some existing, _ => diskChanged existing s
      | None, Some meta => ensured path (metaGuid meta) (QStructured (metaKind meta)) false s
      | None, None => s
      end
    | FText =>
      let s := markMobileDocumentUsed path s in
      match jm_get path (documents s), LocalState.truthy (jm_get path (files s)) with
      | Some existing, _ => diskChanged existing s
      | None, Some guid => ensured path guid QText false s
      | None, None => s
      end
    | FIgnore => s
    end.

(** ** What documents report *)

Definition noteMaterialized (path : string) (k : MaterializedKind) (i : option string) : VaultSync → VaultSync :=
  local (match LocalState.truthy i with
         | Some i => LocalState.commit path k i
         | None => LocalState.mark path k
         end).

Definition noteContentAcknowledged (path : string) (k : MaterializedKind) (i fp : string) (reconciled : bool) :
    VaultSync → VaultSync :=
  local (LocalState.markSynced path k i fp reconciled).

Definition noteDiskContent (path : string) (k : MaterializedKind) (i fp : string) (s : VaultSync) : VaultSync :=
  if destroyed s then s else local (LocalState.markDisk path k i fp) s.

Definition acknowledgedFingerprint (path i : string) (s : VaultSync) : option string :=
  if destroyed s then None else askLocal (LocalState.acknowledgedFingerprint path i) s.

Definition noteTextActivity (s : VaultSync) : VaultSync := s <| lastTextActivityAt := now s |>.

Definition isTextSyncBusy (quietMs : Z) (s : VaultSync) : bool :=
  if negb (initialSynced s) then true else now s - lastTextActivityAt s <? quietMs.

Definition isPendingLocalRemoval (path : string) (s : VaultSync) : bool :=
  BootstrapLog.removed path (bootstrapLog s).

(** ** Requests and the connection *)

Definition prioritizeItem (path guid : option string) (s : VaultSync) : VaultSync :=
  let guid := LocalState.truthy guid in
  let path := match LocalState.truthy (trim <$> path) with
              | Some p => Some p
              | None => LocalState.truthy (guid ≫= λ g, pathForGuid g s)
              end in
  let s := match guid with Some g => s <| prioritizedGuids ::= union {[g]} |> | None => s end in
  match path with
  | None => s
  | Some path => pumpDocQueue (enqueueKnownPath path true isMobile (markMobileDocumentUsed path s))
  end.

Definition vaultPrefix : string := activeVaultId ++ "__".

(** The file documents' guid of a server document id *)
Definition guidOf (documentId : string) : option string :=
  if startsWith vaultPrefix documentId then Some (sliceFrom (String.length vaultPrefix) documentId) else None.

(** One resident document of [rebuildDocumentForEpoch] *)
Definition rebuildDocument (guid : string) (rewound : bool) (s : VaultSync) (x : string * SyncedDoc) : VaultSync :=
  let '(path, doc) := x in
  if negb (String.eqb (docGuid doc) guid) then s
  else
    let baseline := if rewound || isDestroyed doc s then None else retiredBaseline (docId doc) (world s) in
    enqueueDoc (mkItem path guid (docKind doc) false baseline) true (removeResident (docKind doc) path true s).

Definition rebuildDocumentForEpoch (documentId : string) (rewound : bool) (s : VaultSync) : VaultSync :=
  if destroyed s then s
  else match guidOf documentId with
       | None => s
       | Some guid =>
         let s := foldl (rebuildDocument guid rewound) s (documents s) in
         pumpDocQueue (foldl (rebuildDocument guid rewound) s (structuredDocuments s))
       end.

Definition isResident (path : string) (s : VaultSync) : bool :=
  jm_has path (documents s) || jm_has path (structuredDocuments s).

Definition onDocumentInvalidated (documentId : string) (s : VaultSync) : VaultSync :=
  if negb isMobile || destroyed s then s
  else match LocalState.truthy (guidOf documentId) ≫= λ guid, LocalState.truthy (pathForGuid guid s) with
  | None => s
  | Some path =>
    let s := s <| mobileLastUsedAt ::= <[path := now s]> |> in
    if negb (isResident path s) && bool_decide (path ∈ invalidationReloads s)
    then s <| invalidationReloadPending ::= union {[path]} |>
    else
      let s := if isResident path s then s else s <| invalidationReloads ::= union {[path]} |> in
      pumpDocQueue (enqueueKnownPath path true true s)
  end.

(** The timer of a reload *)
Definition reloadFired (path documentId : string) (s : VaultSync) : VaultSync :=
  let pending := bool_decide (path ∈ invalidationReloadPending s) in
  let s := s <| invalidationReloads ::= λ r, r ∖ {[path]} |> <| invalidationReloadPending ::= λ r, r ∖ {[path]} |> in
  if pending && negb (destroyed s) then onDocumentInvalidated documentId s else s.

(** The working set of a device: active, open and recent paths, in order *)
Definition startupPriorityPaths (s : VaultSync) : list string :=
  let ws := workspace (VaultApi := vault) (world s) in
  let isDoc path := String.eqb (extension path) "md" ||
                    bool_decide (is_Some (structuredKindForExtension (extension path))) in
  let add l path := match path with Some p => if isDoc p then js_add p l else l | None => l end in
  let l := add [] (mjoin (activeFile ws)) in
  let l := foldl (λ l leaf, add l (leaf ≫= viewPath)) l (default [] (allLeaves ws)) in
  let recent := recentPaths (world s) in
  let limit := if isMobile then Z.to_nat (mobileRecentResidentDocs (world s)) else length recent in
  foldl (λ l p, js_add p l) l (take limit recent).

Definition queueMobileReconnects (s : VaultSync) : VaultSync :=
  let s := foldl (λ s x, let '(path, doc) := x in
             if bool_decide (jm_get path (files s) = Some (docGuid doc))
             then enqueueReconnect (newItem path (docGuid doc) QText) false s else s) s (documents s) in
  let s := foldl (λ s x, let '(path, doc) := x in
             match metaAt path s with
             | Some meta =>
               if bool_decide (metaGuid meta = docGuid doc)
               then enqueueReconnect (newItem path (metaGuid meta) (QStructured (metaKind meta))) false s else s
             | None => s
             end) s (structuredDocuments s) in
  pumpDocQueue (foldr (λ path s, enqueueKnownPath path true true s) s (startupPriorityPaths s)).

Definition notifyDisconnected (s : VaultSync) : VaultSync :=
  if wasConnected s then note (Notice "disconnected, reconnecting" "") (s <| wasConnected := false |>) else s.

(** Paused or not, of both sibling syncs *)
Definition pauseSiblings (b : bool) (s : VaultSync) : VaultSync :=
  note (ConfigPaused b) (onBinary (BinarySync.setPaused b) s).

(** A dropped connection of a phone is caught up with later. *)
Definition dropped (s : VaultSync) : VaultSync :=
  notifyDisconnected (if isMobile && initialSynced s then s <| mobileCatchUpPending := true |> else s).

Definition handleIndexStatus (status : SyncStatus) (s : VaultSync) : VaultSync :=
  if mobileSuspended s then
    match status with
    | Provider.Offline => note (StatusSet "offline") (s <| wasConnected := false |>)
    | _ => s
    end
  else match status with
  | Provider.Connected =>
    let s := note (StatusSet "connected") (s <| wasConnected := true |>) in
    let s := onBinary BinarySync.retryNow (s <| begunInitialSync ::= S |>) in
    if isMobile && mobileCatchUpPending s && negb (mobileResumeInProgress s)
    then queueMobileReconnects (pauseSiblings false (s <| mobileCatchUpPending := false |>))
    else s
  | Provider.Connecting | Provider.Handshaking => note (StatusSet "connecting") (notifyDisconnected s)
  | Provider.Error => note (StatusSet "error") (dropped s)
  | Provider.Offline => dropped s
  end.

Definition reconnectAll (s : VaultSync) : VaultSync :=
  if destroyed s || mobileSuspended s then s
  else
    let status := indexStatus (world s) in
    if isMobile && negb (bool_decide (status = Provider.Connected)) then
      if isIdle status
      then (if initialSynced s then s <| mobileCatchUpPending := true |> else s) <| begunConnect := true |>
      else s
    else
      let s := if isIdle status then s <| begunConnect := true |> else s in
      if isMobile then s else s <| begunWake := true |>.

Definition suspendForBackground (s : VaultSync) : VaultSync :=
  if negb isMobile || destroyed s || mobileSuspended s then s
  else
    let s := s <| mobileSuspended := true |> <| wasConnected := false |>
               <| docConnectionGeneration ::= Z.add 1 |> <| activeDocConnections := 0 |> in
    let s := foldl (λ s doc, note (Disconnect doc) s) (pauseSiblings true s) (allDocuments s) in
    scheduleMobileWorkingSetTrim 0 (note (StatusSet "offline") (note IndexDisconnect s)).

Definition wakeDocuments (s : VaultSync) : VaultSync :=
  if destroyed s || mobileSuspended s then s
  else pumpDocQueue (foldl (λ s doc, note (EnsureConnected doc) s) s (allDocuments s)).

Definition destroy (s : VaultSync) : VaultSync :=
  if destroyed s then s
  else
    let s := onBinary BinarySync.destroy (s <| destroyed := true |> <| mobileTrimTimer := None |>) in
    let s := foldl (λ s doc, destroyDoc doc false s) s (allDocuments s) in
    s <| documents := [] |> <| structuredDocuments := [] |>.

(** ** What happens meanwhile *)

(** A remote delete that another program of the object is done with: of any
    path but the one whose delete is running, which is in flight. *)
Definition deleteFinished (path : string) (preserved : bool) (s : VaultSync) : VaultSync :=
  if bool_decide (runningDelete s = Some path) then s else
  let s := s <| remoteDeleteInFlight ::= λ p, p ∖ {[path]} |> in
  if preserved then s <| remoteDeletePreserved ::= union {[path]} |>
  else (local (LocalState.remove path) s) <| remoteDeletePreserved ::= λ p, p ∖ {[path]} |>.

Definition retryDelete (i : nat) (s : VaultSync) : VaultSync :=
  match deleteRetries s !! i with
  | Some (path, k, identity) => remoteDeleteBegins path k identity (s <| deleteRetries ::= delete i |>)
  | None => s
  end.

(** An event of the vault; there are none after [destroy]. *)
Definition event (f : VaultSync → VaultSync) (s : VaultSync) : VaultSync := if destroyed s then s else f s.

Definition move (m : Move) (s : VaultSync) : VaultSync :=
  match m with
  | Binary m => onBinary (BinarySync.move m) s
  | RemoteTransaction ops => event (transaction ops id) s
  | FileCreated f => event (onLocalCreate f) s
  | FileDeleted path => event (onLocalDelete path) s
  | FileRenamed f from => event (onLocalRename f from) s
  | FileModified f => event (onLocalModify f) s
  | LocalNoted op => local (λ ls, LocalState.step ls op) s
  | OwnWriteBegan path => beginOwnWrite path s
  | OwnWriteReleased path => releaseOwnWrite path s
  | OwnWriteEnded => ownWritesEnd s
  | TextActivity => noteTextActivity s
  | StatusChanged status => event (handleIndexStatus status) s
  | SlotFreed i => freeSlot i s
  | BecameReady i => becameReady i s
  | DeleteRetried i => retryDelete i s
  | RenameForgotten from to =>
    if bool_decide (remoteRenamesApplying s !! from = Some to) then s <| remoteRenamesApplying ::= delete from |> else s
  | ItemPrioritized path guid => prioritizeItem path guid s
  | PathEnsured path => fst (ensureDocumentForPath path s)
  | EpochRebuilt documentId rewound => rebuildDocumentForEpoch documentId rewound s
  | Invalidated documentId => onDocumentInvalidated documentId s
  | ReloadFired path documentId => reloadFired path documentId s
  | SuspendCalled => suspendForBackground s
  | ReconnectCalled => reconnectAll s
  | WokenUp => wakeDocuments s
  | DestroyCalled => destroy s
  | TrashRecorded entry => recordTrash entry s
  | DocumentEnsured path guid k isCreator => event (ensured path guid k isCreator) s
  | DocumentRemoved path k clear => removeResident k path clear s
  | DocumentQueued item front => enqueueDoc item front s
  | QueuePumped => pumpDocQueue s
  | PathBumped path => bumpPathVersion path s
  | IndexTransaction ops => event (transact ops) s
  | BinaryTrackingStopped path => onBinary (BinarySync.stopTrackingPath path) s
  | DeleteFinished path preserved => deleteFinished path preserved s
  | InitialSyncStep prepared synced => s <| bootstrapPrepared ::= orb prepared |> <| initialSynced ::= orb synced |>
  end.

#[export] Instance vaultHost : Host VaultSync W Move := {|
  worldOf := world;
  setWorld w := onBinary (λ b, b <| BinarySync.world := w |>);
  settling := settleVault;
  onMove := move |}.

(** The constructor, and [init] once the stores have loaded: nothing of the
    index is known to be new. *)
Definition validEntries (m : jsmap string JsonValue) : jsmap string StructuredMeta :=
  omap (λ '(path, v), pair path <$> isStructuredMeta v) m.

Definition newVaultSync (w : W) (index : jsmap string string) (canvases : jsmap string JsonValue)
    (binaries : jsmap string BinarySync.BinaryMeta) (bin : jsmap string TrashEntryValue)
    (ls : LocalState.LocalSyncState) : VaultSync :=
  mkVaultSync (BinarySync.newBinarySync w binaries (Some ls)) index canvases bin [] [] 0 0 ∅ false false false false
    false [] [] 0 false [] 0 0 [] false false ∅ ∅ ∅ BootstrapLog.newLog ∅ [] ∅ ∅ ∅ ∅ ∅ ∅ [] [] [] [] 0 false false false ∅ None
    false false false ∅ ∅ None [].

Definition migrateEntry (k : MaterializedKind) (path i : string) : VaultSync → VaultSync :=
  local (LocalState.migrateLegacyIdentity path k i).

Definition loaded (epoch : Z) (s : VaultSync) : VaultSync :=
  let s := local (λ ls, fst (LocalState.adoptIndexEpoch epoch ls)) s in
  let s := foldl (λ s '(path, guid), migrateEntry LocalState.KText path guid s) s (files s) in
  let s := foldl (λ s '(path, meta),
             migrateEntry (materialized (QStructured (metaKind meta))) path (metaGuid meta) s) s
             (validEntries (structured s)) in
  let s := foldl (λ s '(path, meta),
             if bool_decide (BinarySync.bhash meta = ""%string) then s
             else migrateEntry LocalState.KBinary path (BinarySync.bhash meta) s) s
             (BinarySync.binaries (binary s)) in
  onBinary BinarySync.seedBaseline
    (s <| startupFiles := files s |> <| startupStructured := validEntries (structured s) |>).
End vaultIndex.
