(* ===== verification/VaultSync.v ===== *)
(** [src/VaultSync.ts], its programs: what a remote delete does to the local
    file and its document, what a new file or a rename here does to the index,
    the first sync of a session with the replay of what happened before it,
    the trash, a phone's working set.

    They run against the platform of [VaultIndex], which answers each awaited
    call as it likes, or throws, and tells what happened meanwhile ([Move]). *)
From Stdlib Require Import String Ascii.
From stdpp Require Import pretty.
From S2P Require Import Prelude Effects TraceLogic Await JsString JsMap Json ConflictCopy Vault VaultIndex.
From S2P Require LocalState BinarySync BootstrapLog Provider.
#[local] Open Scope Z_scope.
#[local] Existing Instances LocalState.MaterializedKind_eq_dec Provider.SyncStatus_eq_dec.

Section vaultSync.
Context {W : Type} `{!Platform W}.
Notation M := (eff (@VaultSync W) Err).

Definition effect (e : Effect) : M () := update (note e).

(** A step that does not wait, and what it answers *)
Definition act {A} (f : @VaultSync W → @VaultSync W * A) : M A := λ s, let '(s, a) := f s in (s, Returns a).

Definition fingerprint (text : string) : M string := pause ≫= λ _, mret (sha256Text text).

Definition storedContentFingerprint (epoch : N) (text : string) : M string :=
  await (h ← fingerprint text; mret (pretty epoch ++ ":" ++ h)%string).

(** ** Remote deletes *)

(** The delete does not apply any more. *)
Definition aborted (k : QueueKind) (path : string) (s : @VaultSync W) : bool := destroyed s || listed k path s.

(** [if (aborted()) return null;] *)
Definition unlessAborted {A} (k : QueueKind) (path : string) (m : M (option A)) : M (option A) :=
  stop ← get (aborted k path);
  if stop : bool then mret None else m.

(** The resident document's content, when it is not handled *)
Definition lookAtResident {A} (path : string) (k : QueueKind) (handled : gset string)
    (resident : option (SyncedDoc * N * string)) (next : option string → M (option A)) : M (option A) :=
  match resident with
  | None => next None
  | Some (_, content) =>
    fp ← fingerprint content;
    unlessAborted k path (next (if decide (fp ∈ handled) then None else Some content))
  end.

(** The store of the resident document holds this content of the file. *)
Definition isLagging (path : string) (deleted : option string) (resident : option (SyncedDoc * N * string))
    (disk : string) : M bool :=
  match resident with
  | Some (doc, epoch, _) =>
    if bool_decide (deleted = Some (docGuid doc)) then
      known ← get (askLocal (LocalState.diskFingerprintOf path (docGuid doc)));
      stored ← storedContentFingerprint epoch disk;
      mret (bool_decide (known = Some stored))
    else mret false
  | None => mret false
  end.

(** The file's content, when it is not handled *)
Definition lookAtDisk {A} (path : string) (k : QueueKind) (deleted : option string) (handled : gset string)
    (resident : option (SyncedDoc * N * string)) (next : gset string → option string → M (option A)) :
    M (option A) :=
  there ← get (localFileExists path);
  if negb there then effect (SawDisk path None) ≫= λ _, next handled None
  else
    disk ← call (readText path);
    effect (SawDisk path (Some disk)) ≫= λ _,
    unlessAborted k path (
      fp ← fingerprint disk;
      unlessAborted k path (
        if decide (fp ∈ handled) then next handled None
        else
          lagging ← isLagging path deleted resident disk;
          unlessAborted k path (
            if lagging : bool then effect (Lagging path fp) ≫= λ _, next ({[fp]} ∪ handled) None
            else next handled (Some disk)))).

(** The [for (;;)]: each round looks at both, and copies one version aside. *)
Fixpoint preserveLoop (n : nat) (path : string) (k : QueueKind) (deleted : option string) (handled : gset string)
    (copies : list string) : M (option (list string)) :=
  match n with
  | O => throw OutOfFuel
  | S n =>
    resident ← get (residentContent path k);
    effect (SawResident path (snd <$> resident)) ≫= λ _,
    let copy (handled : gset string) (content : string) :=
      fp ← fingerprint content;
      destination ← preserveTextConflict path content SourceLocal;
      effect (Preserved path destination content) ≫= λ _,
      unlessAborted k path (preserveLoop n path k deleted ({[fp]} ∪ handled) (copies ++ [destination])) in
    lookAtResident path k handled resident (λ pending,
      match pending with
      | Some content => copy handled content
      | None =>
        lookAtDisk path k deleted handled resident (λ handled pending,
          match pending with
          | Some content => copy handled content
          | None => mret (Some copies)
          end)
      end)
  end.

Definition preserveUnacknowledgedVersions (path : string) (k : QueueKind) (deleted : option string) :
    M (option (list string)) :=
  await (
    acknowledged ← get (λ s, LocalState.truthy deleted ≫= λ i,
                          LocalState.truthy (askLocal (LocalState.acknowledgedFingerprint path i) s));
    match acknowledged with
    | Some fp => effect (Acknowledged path fp) ≫= λ _, preserveLoop vaultFuel path k deleted {[fp]} []
    | None => preserveLoop vaultFuel path k deleted ∅ []
    end).

(** The index still lists [to] with this kind of document. *)
Definition targetMatches (k : QueueKind) (to : string) (s : @VaultSync W) : bool :=
  match k with
  | QText => true
  | QStructured k => bool_decide (metaKind <$> metaAt to s = Some k)
  end.

(** What a remote rename does before the file is moved *)
Definition startRename (from to : string) (k : QueueKind) (pending : option SyncedDoc) (s : @VaultSync W) : @VaultSync W :=
  let s := removeStructuredDocument from false (removeDocument from false s) in
  let s := match pending with Some _ => removeResident k to false s | None => s end in
  let s := bumpPathVersion to (bumpPathVersion from s) in
  (local (LocalState.move from to (materialized k)) s) <| remoteRenamesApplying ::= <[from := to]> |>.

Definition undoRename (from to : string) (k : QueueKind) (s : @VaultSync W) : @VaultSync W :=
  local (LocalState.move to from (materialized k)) (s <| remoteRenamesApplying ::= delete from |>).

Definition applyRemoteRename (from : string) (k : QueueKind) (guid : string) : M bool :=
  await (
    s ← get (λ s, s);
    match LocalState.truthy (pathForGuid guid s) with
    | None => mret false
    | Some to =>
      let pending := residentOf k to s in
      if bool_decide (to = from) || localFileExists to s then mret false
      else if negb (targetMatches k to s) then mret false
      else if match pending with Some doc => docReady (docId doc) (world s) | None => false end then mret false
      else
        ensureParentFolder to ≫= λ _,
        s ← get (λ s, s);
        if destroyed s || listed k from s || localFileExists to s || negb (localFileExists from s) ||
           bool_decide (pathForGuid guid s ≠ Some to)
        then mret false
        else
          update (startRename from to k pending) ≫= λ _,
          effect (Moved from to guid) ≫= λ _,
          catch (call (renameFile from to)) (λ e, update (undoRename from to k) ≫= λ _, throw e) ≫= λ _,
          dead ← get destroyed;
          if dead : bool then mret true
          else update (λ s, pumpDocQueue (enqueueDoc (newItem to guid k) true s)) ≫= λ _, mret true
    end).

Definition rematerializeReintroducedPath (path : string) (s : @VaultSync W) : @VaultSync W :=
  match LocalState.truthy (jm_get path (files s)) with
  | Some guid => enqueueDoc (newItem path guid QText) false (removeDocument path false s)
  | None =>
    match metaAt path s with
    | None => s
    | Some meta =>
      let '(s, doc) := ensureDocument path (metaGuid meta) (QStructured (metaKind meta)) false true None
                         (removeStructuredDocument path false s) in
      note (WhenReady doc) s
    end
  end.

(** [reconcileRemoteDelete] once the local versions are safe *)
Definition deleteLocalFile (path : string) (k : QueueKind) : M () :=
  s ← get (λ s, s);
  if aborted k path s then mret ()
  else
    let clear := deletedStoreDisposable path s in
    update (λ s, removeStructuredDocument path clear (removeDocument path clear s)) ≫= λ _,
    s ← get (λ s, s);
    if localFileExists path s && aborted k path s then mret ()
    else
      (if localFileExists path s then
         update (λ s, s <| remoteDeletesApplying ::= union {[path]} |>) ≫= λ _,
         effect (Removed path (listed k path s)) ≫= λ _,
         finally (call (deleteFile path)) (λ s, s <| remoteDeletesApplying ::= λ p, p ∖ {[path]} |>)
       else mret ()) ≫= λ _,
      s ← get (λ s, s);
      if destroyed s then mret ()
      else if listed k path s then update (rematerializeReintroducedPath path)
      else update (λ s, (local (LocalState.remove path) s) <| remoteDeletePreserved ::= λ p, p ∖ {[path]} |>).

(** Copies were made: the delete is noted, and said. *)
Definition notePreserved (path : string) (copies : list string) (s : @VaultSync W) : @VaultSync W :=
  match copies with
  | [] => s
  | _ => note (Notice "deleted remotely, preserved your local version" path)
           (s <| remoteDeletePreserved ::= union {[path]} |>)
  end.

Definition reconcileDelete (path : string) (k : QueueKind) (deleted : option string) : M () :=
  s ← get (λ s, s);
  if listed k path s then mret ()
  else
    let isFile := localFileExists path s in
    renamed ← match LocalState.truthy deleted with
              | Some guid =>
                if isFile && negb (bool_decide (path ∈ remoteDeletePreserved s))
                then applyRemoteRename path k guid else mret false
              | None => mret false
              end;
    if renamed : bool then mret ()
    else
      preserved ← get (λ s, bool_decide (path ∈ remoteDeletePreserved s));
      if isFile && negb preserved then
        copies ← preserveUnacknowledgedVersions path k deleted;
        match copies with
        | None => mret ()
        | Some copies => update (notePreserved path copies) ≫= λ _, deleteLocalFile path k
        end
      else deleteLocalFile path k.

(** A failure is logged, and the delete tried again. *)
Definition reconcileRemoteDelete (path : string) (k : QueueKind) (deleted : option string) : M () :=
  await (catch (reconcileDelete path k deleted)
    (λ _, update (λ s, if destroyed s then s else s <| deleteRetries ::= λ l, l ++ [(path, k, deleted)] |>))).

(** The [do ... while] *)
Fixpoint deleteLoop (n : nat) (path : string) (k : QueueKind) (deleted : option string) : M () :=
  match n with
  | O => throw OutOfFuel
  | S n =>
    update (λ s, s <| remoteDeletePending ::= delete path |>) ≫= λ _,
    reconcileRemoteDelete path k deleted ≫= λ _,
    pending ← get (λ s, remoteDeletePending s !! path);
    match pending with
    | Some (k, deleted) => deleteLoop n path k deleted
    | None => mret ()
    end
  end.

(** The [try] of [handleRemoteDelete] *)
Definition runDelete (path : string) (k : QueueKind) (deleted : option string) : M () :=
  update (λ s, s <| runningDelete := Some path |>) ≫= λ _,
  finally (deleteLoop vaultFuel path k deleted)
    (λ s, s <| remoteDeleteInFlight ::= λ p, p ∖ {[path]} |> <| runningDelete := None |>).

Definition handleRemoteDelete (path : string) (k : QueueKind) (deleted : option string) : M () :=
  s ← get (λ s, s);
  if destroyed s then mret ()
  else if bool_decide (path ∈ remoteDeleteInFlight s)
  then update (λ s, s <| remoteDeletePending ::= <[path := (k, deleted)]> |>)
  else
    update (λ s, s <| remoteDeleteInFlight ::= union {[path]} |>) ≫= λ _,
    runDelete path k deleted.

(** ** New files and renames *)

Definition publishWhenReady (p : Publish) : M () :=
  await (
    inTime ← call (readyInTime (docId (pubDoc p)));
    if inTime : bool then update (publish p)
    else update (λ s, s <| awaitedPublishes ::= λ l, l ++ [p] |>)).

Definition beginUntrackedCandidate (path : string) (k : QueueKind) (fp : string) (s : @VaultSync W) : @VaultSync W :=
  if hasLocal path s then s
  else local (LocalState.beginCandidate path (materialized k) None (Some fp)) s.

(** Nothing happened to the path since. *)
Definition stillCurrent (path : string) (version : Z) (s : @VaultSync W) : bool :=
  negb (destroyed s) && (currentPathVersion path s =? version) && localFileExists path s.

(** [false]: the handler is to stop. *)
Definition noteCandidate (path : string) (version : Z) (k : QueueKind) : M bool :=
  known ← get (hasLocal path);
  if known : bool then mret true
  else
    content ← call (readText path);
    fp ← fingerprint content;
    go ← get (stillCurrent path version);
    if negb go then mret false
    else update (beginUntrackedCandidate path k fp) ≫= λ _, mret true.

(** A document for a file that the index does not list *)
Definition newLocalDocument (path : string) (version : Z) (k : QueueKind) (s : @VaultSync W) :
    @VaultSync W * Publish :=
  let '(s, guid) := match askLocal (LocalState.candidateIdentity path (materialized k)) s with
                    | Some guid => (s, guid)
                    | None => newGuid s
                    end in
  let s := local (LocalState.beginCandidate path (materialized k) (Some guid) None) s in
  let '(s, doc) := ensureDocument path guid k true true None s in
  (s, mkPublish path version doc k None).

Definition publishNewFile (path : string) (version : Z) (k : QueueKind) : M () :=
  p ← act (newLocalDocument path version k);
  publishWhenReady p.

(** [handleLocalCreate] past its first steps ([createBegins]) *)
Definition localCreate (f : TAbstractFile) (path : string) (version : Z) : M () :=
  s ← get (λ s, s);
  if isTFile f && negb (localFileExists path s) then mret ()
  else
    let kind := classify f s in
    go ← match kind with
         | FText => noteCandidate path version QText
         | FStructured =>
           match structuredKindForExtension (extensionOf f s) with
           | Some k => noteCandidate path version (QStructured k)
           | None => mret true
           end
         | _ => mret true
         end;
    if negb go then mret ()
    else
      s ← get (λ s, s);
      match kind with
      | FBinary => update (onBinary (BinarySync.onLocalChanged path))
      | FStructured =>
        match structuredKindForExtension (extensionOf f s) with
        | None => mret ()
        | Some k =>
          if jm_has path (structured s) then
            match metaAt path s with
            | None => mret ()
            | Some meta =>
              update (λ s, ensured path (metaGuid meta) (QStructured (metaKind meta)) false
                             (registerFile path (metaGuid meta) s))
            end
          else publishNewFile path version (QStructured k)
        end
      | FText =>
        match jm_get path (files s) with
        | Some guid => update (λ s, ensured path guid QText false (registerFile path guid s))
        | None => publishNewFile path version QText
        end
      | FIgnore => mret ()
      end.

Definition handleLocalCreate (f : TAbstractFile) : M () :=
  s ← get (λ s, s);
  if destroyed s || negb (initialSynced s) then mret ()
  else
    let path := pathOfFile f s in
    update (createBegins f) ≫= λ _,
    version ← get (currentPathVersion path);
    localCreate f path version.

Definition handleLocalRename (f : TAbstractFile) (from : string) : M () :=
  p ← act (localRename f from);
  match p with Some p => publishWhenReady p | None => mret () end.

(** ** The first sync *)

(** [for ... of] with [if (this.destroyed) return] at the end of the body;
    [false] when it returned. *)
Fixpoint untilDestroyed {A} (f : A → M ()) (l : list A) : M bool :=
  match l with
  | [] => mret true
  | x :: l =>
    f x ≫= λ _,
    dead ← get destroyed;
    if dead : bool then mret false else untilDestroyed f l
  end.

Definition replayStep (step : BootstrapLog.BootstrapReplayStep) : M () :=
  catch
    match step with
    | BootstrapLog.RDelete path => update (applyLocalDeletion path)
    | BootstrapLog.RRename from f =>
      s ← get (λ s, s);
      if jm_has from (files s) || jm_has from (structured s) || BinarySync.hasPath from (binary s)
      then await (handleLocalRename f from) else await (handleLocalCreate f)
    | BootstrapLog.RCreate f => await (handleLocalCreate f)
    | BootstrapLog.RModify f => update (onLocalModify f)
    end
    (λ _, mret ()).

(** Here [destroyed] ends the loop before a step, and all of them. *)
Fixpoint replaySteps (steps : list BootstrapLog.BootstrapReplayStep) : M () :=
  match steps with
  | [] => mret ()
  | step :: steps =>
    dead ← get destroyed;
    if dead : bool then mret () else replayStep step ≫= λ _, replaySteps steps
  end.

Definition replayBootstrapVaultEvents : M () :=
  update (λ s, s <| initialSynced := true |>) ≫= λ _,
  steps ← get (λ s, BootstrapLog.plan (bootstrapLog s));
  finally (replaySteps steps) (λ s, s <| bootstrapLog := BootstrapLog.newLog |>).

Definition documentKindOf (f : TAbstractFile) (s : @VaultSync W) : option QueueKind :=
  match classify f s with
  | FText => Some QText
  | FStructured => QStructured <$> structuredKindForExtension (extensionOf f s)
  | _ => None
  end.

(** A local file without a record yet *)
Definition recordCandidate (f : TAbstractFile) : M () :=
  s ← get (λ s, s);
  match documentKindOf f s with
  | Some k =>
    if hasLocal (pathOfFile f s) s then mret ()
    else
      content ← call (readText (pathOfFile f s));
      fp ← fingerprint content;
      update (λ s, beginUntrackedCandidate (pathOfFile f s) k fp s)
  | None => mret ()
  end.

(** An entry of the last session's index that is not in this one *)
Definition resolveStartup {V} (kindOf : V → QueueKind) (guidOf : V → string) (x : string * V) : M () :=
  let '(path, v) := x in
  there ← get (listed (kindOf v) path);
  if there : bool then mret () else await (handleRemoteDelete path (kindOf v) (Some (guidOf v))).

(** A local file that was synced, and is not in the index *)
Definition resolveLocal (f : TAbstractFile) : M () :=
  s ← get (λ s, s);
  let path := pathOfFile f s in
  match localState path s with
  | None => mret ()
  | Some st =>
    match LocalState.truthy (mjoin (LocalState.identity st)), documentKindOf f s with
    | Some i, Some k =>
      if default false (LocalState.candidate st) || listed k path s then mret ()
      else await (handleRemoteDelete path k (Some i))
    | _, _ => mret ()
    end
  end.

Definition registerEntry (priority : list string) (k : QueueKind) (path guid : string) (s : @VaultSync W) :
    @VaultSync W :=
  if BootstrapLog.removed path (bootstrapLog s) then s
  else enqueueDoc (newItem path guid k) (js_mem path priority || negb (localFileExists path s))
         (registerFile path guid s).

Definition registerEntries (priority : list string) (s : @VaultSync W) : @VaultSync W :=
  let s := foldl (λ s '(path, guid), registerEntry priority QText path guid s) s (files s) in
  foldl (λ s '(path, v),
    match isStructuredMeta v with
    | Some meta => registerEntry priority (QStructured (metaKind meta)) path (metaGuid meta) s
    | None => s
    end) s (structured s).

(** The file was renamed here from a tracked path: the replay moves that. *)
Definition movesIdentity (path : string) (s : @VaultSync W) : bool :=
  match BootstrapLog.renamedFrom path (bootstrapLog s) with
  | Some from => jm_has from (files s) || jm_has from (structured s) || BinarySync.hasPath from (binary s)
  | None => false
  end.

Definition addLocalFile (priority : list string) (f : TAbstractFile) : M () :=
  s ← get (λ s, s);
  let path := pathOfFile f s in
  if negb (localFileExists path s) || isCopy path || movesIdentity path s then mret ()
  else
    match documentKindOf f s with
    | Some k =>
      update (λ s, if hasLocal path s then s
                   else local (LocalState.beginCandidate path (materialized k) None None) s) ≫= λ _,
      let known guid k := update (λ s, enqueueDoc (newItem path guid k) (js_mem path priority)
                                         (registerFile path guid s)) in
      if listed k path s then
        match k, metaAt path s with
        | QText, _ => match jm_get path (files s) with Some guid => known guid QText | None => mret () end
        | _, Some meta => known (metaGuid meta) (QStructured (metaKind meta))
        | _, None => mret ()
        end
      else publishNewFile path (currentPathVersion path s) k
    | None => mret ()
    end.

Definition passEnds (s : @VaultSync W) : @VaultSync W :=
  let s := pumpDocQueue s in
  let s := if bool_decide (prioritizedPaths s = ∅)
           then startBackgroundSyncAfterPriorityDrain (s <| highPriorityDrained := true |>) else s in
  startBackgroundSyncAfterPriorityDrain (note (Notice "connected, syncing" "") s).

Definition runInitialSyncPass : M () :=
  syncFiles ← get (λ s, filter (λ f, is_Some (documentKindOf f s)) (getFiles (world s)));
  forEach recordCandidate syncFiles ≫= λ _,
  update (λ s, s <| bootstrapPrepared := true |>) ≫= λ _,
  texts ← get startupFiles;
  go ← untilDestroyed (resolveStartup (λ _, QText) id) texts;
  if negb go then mret ()
  else
    canvases ← get startupStructured;
    go ← untilDestroyed (resolveStartup (λ meta, QStructured (metaKind meta)) metaGuid) canvases;
    if negb go then mret ()
    else
      go ← untilDestroyed resolveLocal syncFiles;
      if negb go then mret ()
      else
        priority ← get startupPriorityPaths;
        update (registerEntries priority) ≫= λ _,
        go ← untilDestroyed (addLocalFile priority) syncFiles;
        if negb go then mret () else update passEnds.

(** A failure is logged, and the sync tried again. *)
Definition runInitialSync : M () :=
  s ← get (λ s, s);
  if initialSynced s || initialSyncRunning s || destroyed s then mret ()
  else
    update (λ s, s <| initialSyncRunning := true |>) ≫= λ _,
    finally
      (catch
         (await runInitialSyncPass ≫= λ _,
          dead ← get destroyed;
          if dead : bool then mret ()
          else
            await runInitialSyncPass ≫= λ _,
            await replayBootstrapVaultEvents ≫= λ _,
            update (λ s, startBackgroundSyncAfterPriorityDrain (s <| initialSynced := true |>)))
         (λ _, update (λ s, if destroyed s then s else s <| begunInitialSync ::= S |>)))
      (λ s, s <| initialSyncRunning := false |>).

(** ** The trash *)

Definition failing {A} (message : string) : M A := throw (ThrownError message).

Definition dropTrash (id : string) : M () := update (transact [TrashDelete id]).

(** A document comes back under [path]: its content is still with the server. *)
Definition restoreDocument (path guid : string) (k : QueueKind) (s : @VaultSync W) : @VaultSync W :=
  ensured path guid k false (registerFile path guid (transact [setEntry path guid k] s)).

Definition restorePluginDb (id : string) (value : TrashEntryValue) : M () :=
  match LocalState.truthy (trashPluginId value), LocalState.truthy (trashName value) with
  | Some pluginId, Some name =>
    there ← get (λ s, sqlApi (world s));
    if negb there then failing "The SQL API is not available."
    else
      live ← call (sqlIsLive pluginId name);
      if live : bool then failing "already active"
      else call (sqlRestore pluginId name) ≫= λ _, dropTrash id
  | _, _ => failing "Trash entry is missing its database identity."
  end.

Definition restoreTrashEntry (id : string) (target : option string) : M () :=
  s ← get (λ s, s);
  if destroyed s then mret ()
  else match jm_get id (trash s) with
  | None => failing "This trash entry no longer exists."
  | Some value =>
    let path := default (trashPath value) (LocalState.truthy (trim <$> target)) in
    match trashKind value with
    | TrashPluginDb => restorePluginDb id value
    | TrashBinary =>
      if pathInUse path s then failing "already exists"
      else match LocalState.truthy (trashHash value) with
      | None => failing "Trash entry is missing its attachment data."
      | Some hash =>
        there ← call (binaryRestoreEntry path hash (default 0 (trashSize value)));
        if negb there
        then dropTrash id ≫= λ _, failing "removed by storage cleanup"
        else dropTrash id
      end
    | TrashDocument k =>
      if pathInUse path s then failing "already exists"
      else match LocalState.truthy (trashGuid value) with
      | None => failing "Trash entry is missing its document id."
      | Some guid => update (restoreDocument path guid k) ≫= λ _, dropTrash id
      end
    end
  end.

(** A failure of the server is logged. *)
Definition permanentlyDeleteTrashEntry (id : string) : M () :=
  s ← get (λ s, s);
  if destroyed s then mret ()
  else match jm_get id (trash s) with
  | None => mret ()
  | Some value =>
    match trashKind value, LocalState.truthy (trashHash value), LocalState.truthy (trashPluginId value),
          LocalState.truthy (trashName value) with
    | TrashBinary, Some hash, _, _ =>
      if BinarySync.hasHash hash (binary s) then mret () else catch (call (deleteBlob hash id)) (λ _, mret ())
    | TrashPluginDb, _, Some pluginId, Some name => catch (call (deletePluginDb pluginId name)) (λ _, mret ())
    | _, _, _, _ => mret ()
    end ≫= λ _,
    dropTrash id
  end.

(** ** The connection, and a phone's working set *)

(** The server is verified before the index connects. *)
Definition connectIndexAfterCompatibilityCheck : M () :=
  await (catch
    (call verifyServer ≫= λ _,
     s ← get (λ s, s);
     if destroyed s || mobileSuspended s then mret ()
     else update (scheduleMobileWorkingSetTrim 0) ≫= λ _, call connectIndex)
    (λ _, update (λ s, if destroyed s then s else note (StatusSet "offline") (note IndexDisconnect s)))).

Definition reconnectDocumentsWhenCompatible : M () :=
  ready ← attempt (call verifyServer);
  match ready with Throws _ => mret () | Returns _ => update wakeDocuments end.

Definition resumeFromBackground : M () :=
  s ← get (λ s, s);
  if destroyed s then mret ()
  else if negb isMobile then update reconnectAll
  else
    update (λ s, s <| mobileSuspended := false |>) ≫= λ _,
    generation ← get docConnectionGeneration;
    update (λ s, s <| mobileResumeInProgress := true |>) ≫= λ _,
    finally
      (s ← get (λ s, s);
       if bool_decide (indexStatus (world s) = Provider.Connected) then mret ()
       else connectIndexAfterCompatibilityCheck)
      (λ s, s <| mobileResumeInProgress := false |>) ≫= λ _,
    s ← get (λ s, s);
    if destroyed s || mobileSuspended s || bool_decide (generation ≠ docConnectionGeneration s) then mret ()
    else if negb (bool_decide (indexStatus (world s) = Provider.Connected))
    then update (λ s, s <| mobileCatchUpPending := true |>)
    else update (λ s, queueMobileReconnects ((pauseSiblings false s) <| mobileCatchUpPending := false |>)).

(** By last use, oldest first; the order is stable *)
Fixpoint insertByUse (used : string → Z) (x : string * SyncedDoc) (l : list (string * SyncedDoc)) :
    list (string * SyncedDoc) :=
  match l with
  | [] => [x]
  | y :: l' => if used x.1 <? used y.1 then x :: l else y :: insertByUse used x l'
  end.

Definition trimCandidates (retained : list string) (s : @VaultSync W) : list (string * SyncedDoc) :=
  let entries := documents s ++ structuredDocuments s in
  foldl (λ l x, insertByUse (λ p, default 0 (mobileLastUsedAt s !! p)) x l) []
    (filter (λ x, x.1 ∉ retained) entries).

(** The document is taken out of the registry that holds it, and destroyed;
    [false] when none does. *)
Definition evict (path : string) (doc : SyncedDoc) (s : @VaultSync W) : @VaultSync W * bool :=
  if sameDoc doc (jm_get path (documents s))
  then (destroyDoc doc false (s <| documents ::= jm_delete path |>), true)
  else if sameDoc doc (jm_get path (structuredDocuments s))
  then (destroyDoc doc false (s <| structuredDocuments ::= jm_delete path |>), true)
  else (s, false).

(** The loop, with the residents left, and whether to try again *)
Fixpoint trimLoop (target residents : Z) (retry : bool) (l : list (string * SyncedDoc)) : M (Z * bool) :=
  match l with
  | [] => mret (residents, retry)
  | (path, doc) :: l =>
    if residents <=? target then mret (residents, retry)
    else
      s ← get (λ s, s);
      if negb (documentMatchesIndex path doc s) then trimLoop target residents retry l
      else
        flushed ← call (prepareForHibernation (docId doc));
        if negb flushed then trimLoop target residents true l
        else
          s ← get (λ s, s);
          if destroyed s || js_mem path (startupPriorityPaths s) || negb (documentMatchesIndex path doc s)
          then trimLoop target residents retry l
          else
            gone ← act (evict path doc);
            trimLoop target (if gone : bool then residents - 1 else residents) retry l
  end.

Definition trimMobileWorkingSet : M () :=
  s ← get (λ s, s);
  if negb isMobile || negb (invalidationSupported (world s)) || destroyed s then mret ()
  else if mobileTrimRunning s then update (scheduleMobileWorkingSetTrim 1000)
  else
    update (λ s, s <| mobileTrimRunning := true |>) ≫= λ _,
    let retained := startupPriorityPaths s in
    let entries := documents s ++ structuredDocuments s in
    let kept := zlength (filter (λ x, x.1 ∈ retained) entries) in
    let target := Z.max (mobileMaxResidentDocs (world s)) kept in
    left ← finally (trimLoop target (zlength entries) false (trimCandidates retained s))
             (λ s, s <| mobileTrimRunning := false |>);
    let '(residents, retry) := left in
    if retry || (target <? residents) then update (scheduleMobileWorkingSetTrim 1000) else mret ().

(** ** Runs: the programs the object begins, one after the other *)

Inductive Task :=
  | RemoteDelete (path : string) (k : QueueKind) (deleted : option string)
  | LocalCreate (f : TAbstractFile) (path : string) (version : Z)
  | InitialSync
  | RestoreTrash (id : string) (target : option string)
  | PurgeTrash (id : string)
  | ConnectIndex
  | WakeDocuments
  | Resume
  | Trim.

(** Those begun by an event are taken off their list. *)
Definition runTask (t : Task) : M () :=
  match t with
  | RemoteDelete path k deleted =>
    update (λ s, s <| begunDeletes ::= filter (λ d, d ≠ (path, k, deleted)) |>) ≫= λ _,
    runDelete path k deleted
  | LocalCreate f path version =>
    update (λ s, s <| begunCreates ::= filter (λ c, c ≠ (f, path, version)) |>) ≫= λ _,
    localCreate f path version
  | InitialSync => update (λ s, s <| begunInitialSync := O |>) ≫= λ _, runInitialSync
  | RestoreTrash id target => restoreTrashEntry id target
  | PurgeTrash id => permanentlyDeleteTrashEntry id
  | ConnectIndex => update (λ s, s <| begunConnect := false |>) ≫= λ _, connectIndexAfterCompatibilityCheck
  | WakeDocuments => update (λ s, s <| begunWake := false |>) ≫= λ _, reconnectDocumentsWhenCompatible
  | Resume => resumeFromBackground
  | Trim => update (λ s, s <| mobileTrimTimer := None |>) ≫= λ _, trimMobileWorkingSet
  end.

(** Programs, and what happens between them *)
Definition runStep (s : @VaultSync W) (x : Task + Move) : @VaultSync W :=
  match x with inl t => fst (runTask t s) | inr m => move m s end.

Definition run (s : @VaultSync W) (xs : list (Task + Move)) : @VaultSync W := foldl runStep s xs.
End vaultSync.
