(* ===== verification/VaultDemo.v ===== *)
(** A small vault for the examples of the vault's index: a folder of text
    files, documents with fixed contents, and a script of what happens at the
    next turns. *)
From Stdlib Require Import String Ascii.
From S2P Require Import Prelude Effects TraceLogic Await JsString JsMap Json Vault VaultIndex VaultSync.
From S2P Require LocalState BinarySync BootstrapLog Provider.
#[local] Open Scope Z_scope.

(** [failures]: how many deletions of a file fail before one succeeds.  A turn
    of the script: what is written to the disk, and what the vault sync is
    told. *)
Record Disk := mkDisk {
  texts : gmap string string;
  contents : gmap nat string;
  names : list string;
  failures : nat;
  later : list (list (string * string) * list Move) }.
#[export] Instance eta_Disk : Eta Disk := λ r,
  mkDisk (texts r) (contents r) (names r) (failures r) (later r).

(** One turn *)
Definition turn (d : Disk) : Disk * list Move :=
  match later d with
  | [] => (d, [])
  | (edits, ms) :: l => (d <| texts ::= λ t, list_to_map edits ∪ t |> <| later := l |>, ms)
  end.

Definition answer {Err A} (d : Disk) (r : throws Err A) : Disk * list Move * throws Err A :=
  let '(d, ms) := turn d in (d, ms, r).

Definition still {Err A} (d : Disk) (a : A) : Disk * list BinarySync.Move * throws Err A := (d, [], Returns a).

Definition treeOf (d : Disk) : gmap string AbstractFile := (λ _, TFile None) <$> texts d.

Definition noWorkspace : Workspace := mkWorkspace None None None.

#[export] Instance demoBinaryVault : VaultApi Disk BinarySync.Move BinarySync.Err := {|
  Vault.tree := treeOf;
  workspace _ := noWorkspace;
  createFolder _ d := still d ();
  createBinary _ _ d := still d ();
  modifyBinary _ _ d := still d ();
  readFile _ d := still d [];
  deleteFile _ d := still d ();
  createText _ _ d := still d ();
  modifyText _ _ d := still d ();
  readText _ d := still d ""%string;
  vaultNow _ := 0;
  vaultNormalize p := p;
  vaultLabel := "laptop"%string;
  vaultStamp _ := "20250101 120000"%string;
  noFreeName := BinarySync.OutOfFuel |}.

#[export] Instance demoBinary : BinarySync.Platform Disk := {|
  BinarySync.getBlob _ _ d := still d [];
  BinarySync.blobExists _ _ _ d := still d true;
  BinarySync.putBlob _ _ _ d := still d ();
  BinarySync.askConflict _ _ d := still d BinarySync.KeepRemote;
  BinarySync.settle d := (d, []);
  BinarySync.textBusy _ := false;
  BinarySync.pendingRemoval _ _ := false;
  BinarySync.shouldTrack _ := true;
  BinarySync.sha256 _ := "digest"%string;
  BinarySync.fuel := 10 |}.

#[export] Instance demoVault : VaultApi Disk Move Err := {|
  Vault.tree := treeOf;
  workspace _ := noWorkspace;
  createFolder _ d := answer d (Returns ());
  createBinary _ _ d := answer d (Returns ());
  modifyBinary _ _ d := answer d (Returns ());
  readFile _ d := answer d (Returns []);
  deleteFile p d :=
    match failures d with
    | O => answer (d <| texts ::= delete p |>) (Returns ())
    | S n => answer (d <| failures := n |>) (Throws VaultFailed)
    end;
  createText p t d := answer (d <| texts ::= <[p := t]> |>) (Returns ());
  modifyText p t d := answer (d <| texts ::= <[p := t]> |>) (Returns ());
  readText p d := answer d (match texts d !! p with Some t => Returns t | None => Throws VaultFailed end);
  vaultNow _ := 0;
  vaultNormalize p := p;
  vaultLabel := "laptop"%string;
  vaultStamp _ := "20250101 120000"%string;
  noFreeName := VaultFailed |}.

Definition extensionAt (p : string) : string :=
  match lastIndexOf "." p with Some dot => sliceFrom (S dot) p | None => "" end%string.

(** Documents are ready, and whole with the server. *)
Definition hashing (digest : string → string) : Platform Disk := {|
  renameFile from to d :=
    answer (d <| texts ::= λ t, match t !! from with Some c => <[to := c]> (delete from t) | None => t end |>)
      (Returns ());
  settleVault := turn;
  filePath f d := default ""%string (names d !! f);
  isTFile _ := true;
  getFiles d := seq 0 (length (names d));
  extension := extensionAt;
  configDir := ".obsidian"%string;
  syncCanvases _ := true;
  syncBases _ := true;
  syncBinaries _ := true;
  binaryExcludeGlobs _ := ""%string;
  syncConfigEnabled _ := false;
  recentPaths _ := [];
  mobileRecentResidentDocs _ := 0;
  mobileMaxResidentDocs _ := 10;
  activeVaultId := "vault"%string;
  isMobile := false;
  invalidationSupported _ := false;
  isMatch _ _ := false;
  docContent i d := default ""%string (contents d !! i);
  docReady _ _ := true;
  docEpoch _ _ := 0%N;
  hasLocalChanges _ _ := false;
  docStatus _ _ := Provider.Connected;
  retiredBaseline _ _ := None;
  readyInTime _ d := answer d (Returns true);
  prepareForHibernation _ d := answer d (Returns true);
  indexStatus _ := Provider.Connected;
  verifyServer d := answer d (Returns ());
  connectIndex d := answer d (Returns ());
  deleteBlob _ _ d := answer d (Returns ());
  deletePluginDb _ _ d := answer d (Returns ());
  sqlApi _ := false;
  sqlIsLive _ _ d := answer d (Returns false);
  sqlRestore _ _ d := answer d (Returns ());
  binaryRestoreEntry _ _ _ d := answer d (Returns true);
  sha256Text := digest;
  uuid n := String (ascii_of_nat (97 + n)) EmptyString;
  vaultFuel := 5 |}.

(** A hash is the text. *)
#[export] Instance demo : Platform Disk := hashing (λ t, t).

Definition note_md : string := "note.md".
Definition old_md : string := "old.md".

(** A device with these files, one per number, and this index, past its first
    sync *)
Definition device (d : Disk) (index : jsmap string string) (ls : LocalState.LocalSyncState) : @VaultSync Disk :=
  (newVaultSync d index [] [] [] ls) <| initialSynced := true |> <| bootstrapPrepared := true |>.

Definition emptyLocal : LocalState.LocalSyncState := LocalState.mkLocal ∅ None 0.
