(* ===== verification/VaultSteps.v ===== *)
(** What the operations of [VaultIndex] and the programs of [VaultSync] come
    down to: a few kinds of step on the parts of the state that the invariants
    are about.  A document is opened where none is, or taken out of its
    registry and destroyed; a slot is taken or freed; a path's version goes up
    by one; an entry is published at the path's current version, where there
    is none.  Nothing else touches these parts. *)
From Stdlib Require Import String Ascii.
From S2P Require Import Prelude Effects TraceLogic Await JsMap Json Vault VaultIndex.
From S2P Require LocalState BinarySync BootstrapLog Provider.
#[local] Open Scope Z_scope.

(** ** The kinds of effects *)

(** What versions and publications are about *)
Definition neutral (e : Effect) : Prop :=
  match e with Bumped _ | Began _ _ | Published _ _ _ => False | _ => True end.

(** What only a remote delete causes *)
Definition ofDelete (e : Effect) : Prop :=
  match e with
  | SawResident _ _ | SawDisk _ _ | Acknowledged _ _ | Lagging _ _ | Preserved _ _ _ | Removed _ _ | Moved _ _ _ => True
  | _ => False
  end.

Definition outward (e : Effect) : Prop := neutral e ∧ ¬ ofDelete e.

Section steps.
Context {W : Type} `{!Platform W}.
Notation State := (@VaultSync W).
Implicit Types (s : State) (e : Effect).

(** The parts of the state the steps are about *)
Record Core := mkCore {
  coreEffects : list Effect;
  coreVersions : gmap string Z;
  coreDocuments : jsmap string SyncedDoc;
  coreStructured : jsmap string SyncedDoc;
  coreNext : nat;
  coreDestroyed : gset nat;
  coreActive : Z;
  coreGeneration : Z;
  coreSlots : list Slot;
  corePreserved : gset string;
  coreRunning : option string }.

Definition core s : Core :=
  mkCore (effects s) (pathVersions s) (documents s) (structuredDocuments s) (nextDoc s) (destroyedDocs s)
    (activeDocConnections s) (docConnectionGeneration s) (slots s) (remoteDeletePreserved s) (runningDelete s).

(** The registry of a kind of document without what it has at [path] *)
Definition unlist (k : QueueKind) (path : string) s : State :=
  match k with
  | QText => s <| documents ::= jm_delete path |>
  | QStructured _ => s <| structuredDocuments ::= jm_delete path |>
  end.

Definition enlist (k : QueueKind) (path : string) (doc : SyncedDoc) s : State :=
  match k with
  | QText => s <| documents ::= jm_set path doc |>
  | QStructured _ => s <| structuredDocuments ::= jm_set path doc |>
  end.

(** The steps of a remote delete are among them. *)
Definition deletes (H : Effect → Prop) : Prop := ∀ e, ofDelete e → H e.

(** Steps whose effects, beside those of the versions, are [H]'s *)
Inductive evolves (H : Effect → Prop) : State → State → Prop :=
  | ev_refl s : evolves H s s
  | ev_trans s1 s2 s3 : evolves H s1 s2 → evolves H s2 s3 → evolves H s1 s3
  | ev_silent s s' : core s' = core s → evolves H s s'
  | ev_note e s : H e → evolves H s (note e s)
  | ev_bump path s : evolves H s (bumpPathVersion path s)
  | ev_began path s : evolves H s (note (Began path (currentPathVersion path s)) s)
  | ev_published path s : evolves H s (note (Published path (currentPathVersion path s) false) s)
  | ev_open k path guid s :
      residentOf k path s = None →
      evolves H s (enlist k path (mkDoc (nextDoc s) guid k) (s <| nextDoc ::= S |>))
  | ev_close k path doc s :
      residentOf k path s = Some doc →
      evolves H s ((unlist k path s) <| destroyedDocs ::= union {[docId doc]} |>)
  | ev_closeAll s :
      evolves H s (s <| destroyedDocs ::= union (list_to_set (docId <$> allDocuments s)) |>
                     <| documents := [] |> <| structuredDocuments := [] |>)
  | ev_take item doc waits s :
      activeDocConnections s < concurrency →
      evolves H s (s <| activeDocConnections ::= Z.add 1 |>
                     <| slots ::= λ l, l ++ [mkSlot item doc (docConnectionGeneration s) waits] |>)
  | ev_free i slot s :
      slots s !! i = Some slot →
      evolves H s (if bool_decide (slotGeneration slot = docConnectionGeneration s)
                   then s <| slots ::= delete i |> <| activeDocConnections := Z.max 0 (activeDocConnections s - 1) |>
                   else s <| slots ::= delete i |>)
  | ev_suspend s :
      evolves H s (s <| docConnectionGeneration ::= Z.add 1 |> <| activeDocConnections := 0 |>)
  | ev_forget path s : evolves H s (s <| remoteDeletePreserved ::= λ p, p ∖ {[path]} |>)
  | ev_keep path s :
      runningDelete s ≠ Some path ∨ deletes H → evolves H s (s <| remoteDeletePreserved ::= union {[path]} |>)
  | ev_running r s : deletes H → evolves H s (s <| runningDelete := r |>).

Lemma evolves_mono (H H' : Effect → Prop) s s' : (∀ e, H e → H' e) → evolves H s s' → evolves H' s s'.
Proof using Type.
  intros HH. induction 1;
    [apply ev_refl|eapply ev_trans; eauto|by apply ev_silent|apply ev_note; auto|apply ev_bump|apply ev_began
    |apply ev_published|by apply ev_open|by apply ev_close|apply ev_closeAll|by apply ev_take|by apply ev_free
    |apply ev_suspend|apply ev_forget|apply ev_keep; unfold deletes in *; naive_solver
    |apply ev_running; unfold deletes in *; auto].
Qed.

(** ** Operations that evolve *)

(** Whatever led to the state it starts from *)
Class Evolving (f : State → State) : Prop := evolving s s' : evolves outward s s' → evolves outward s (f s').
Class EvolvingTo {A} (f : State → State * A) : Prop :=
  evolving_to s s' : evolves outward s s' → evolves outward s (fst (f s')).

Lemma evolving_step f : (∀ s, evolves outward s (f s)) → Evolving f.
Proof using Type. intros Hf s s' Hs. by eapply ev_trans. Qed.

Lemma evolving_eq {A} (f : State → State * A) s s' s'' a :
  EvolvingTo f → f s' = (s'', a) → evolves outward s s' → evolves outward s s''.
Proof using Type. intros Hf E Hs. specialize (Hf s s' Hs). by rewrite E in Hf. Qed.

Lemma evolving_set s s' s'' : core s'' = core s' → evolves outward s s' → evolves outward s s''.
Proof using Type. intros E Hs. eapply ev_trans; [done|by apply ev_silent]. Qed.

Lemma evolving_silent f s s' : (∀ x, core (f x) = core x) → evolves outward s s' → evolves outward s (f s').
Proof using Type. intros E. by apply evolving_set. Qed.

(** What is named is known by what it came from only. *)
Lemma evolving_let s s1 (b : State → State) :
  evolves outward s s1 → (∀ s', evolves outward s s' → evolves outward s (b s')) → evolves outward s (b s1).
Proof using Type. auto. Qed.

Lemma evolving_let_any {A} s (a : A) (b : A → State) : (∀ a, evolves outward s (b a)) → evolves outward s (b a).
Proof using Type. auto. Qed.

Lemma evolving_foldl {A} (f : State → A → State) l s s' :
  (∀ x, Evolving (λ s, f s x)) → evolves outward s s' → evolves outward s (foldl f s' l).
Proof using Type. intros Hf. revert s'. induction l as [|x l IH]; intros s' Hs; [done|]. apply IH, (Hf x), Hs. Qed.

Lemma evolving_foldr {A} (f : A → State → State) l s s' :
  (∀ x, Evolving (f x)) → evolves outward s s' → evolves outward s (foldr f s' l).
Proof using Type. intros Hf Hs. induction l as [|x l IH]; [done|]. by apply (Hf x). Qed.

#[export] Instance evolving_note e : outward e → Evolving (note e).
Proof using Type. intros He. apply evolving_step. intros s. by apply ev_note. Qed.

#[export] Instance evolving_onBinary f : Evolving (onBinary f).
Proof using Type. intros s s' Hs. by apply (evolving_set _ s'). Qed.

#[export] Instance evolving_local f : Evolving (local f).
Proof using Type. apply evolving_onBinary. Qed.

#[export] Instance evolving_id : Evolving id.
Proof using Type. by intros s s' Hs. Qed.

#[export] Instance evolving_bump path : Evolving (bumpPathVersion path).
Proof using Type. apply evolving_step, ev_bump. Qed.

#[export] Instance evolving_forget path : Evolving (field_set remoteDeletePreserved (λ p, p ∖ {[path]})).
Proof using Type. apply evolving_step, ev_forget. Qed.

#[export] Instance evolving_newGuid : EvolvingTo newGuid.
Proof using Type. intros s s' Hs. by apply (evolving_set _ s'). Qed.
End steps.
Arguments Evolving {W _} f.
Arguments EvolvingTo {W _ A} f.

#[export] Hint Extern 1 (outward _) => (split; [exact I|exact id]) : typeclass_instances.

(** Takes the outermost operation off, and splits on what it depends on. *)
Ltac split_on x :=
  let y := fresh "y" in let E := fresh "E" in
  set (y := x); assert (x = y) as E by reflexivity; clearbody y; destruct y.

Ltac evolve_step :=
  match goal with
  | H : evolves _ ?s ?x |- evolves _ ?s ?x => exact H
  | |- evolves _ ?s ?s => apply ev_refl
  | |- evolves _ ?s (let x := ?e in @?b x) =>
    lazymatch type of e with
    | VaultSync => apply (evolving_let s e b); [|intros ? ?; cbv beta]
    | _ → _ => change (evolves outward s (b e)); cbv beta
    | _ => apply (evolving_let_any s e b); intros ?; cbv beta
    end
  | |- evolves _ _ (@field_set _ _ ?p ?i ?g ?x) =>
    apply (evolving_silent (@field_set _ _ p i g)); [intros ?; reflexivity|]
  | |- evolves _ _ (foldl _ _ _) => apply evolving_foldl; [intros ?|]
  | |- evolves _ _ (foldr _ _ _) => apply evolving_foldr; [intros ?|]
  | |- evolves _ _ (match ?x with _ => _ end) => split_on x
  | E : ?f ?x = (?y, _) |- evolves _ ?s ?y => apply (evolving_eq f _ x y _ _ E)
  | |- evolves _ _ (fst (_, _)) => cbn [fst]
  | |- evolves _ ?s (fst (let x := ?e in @?b x)) =>
    lazymatch type of e with
    | VaultSync => apply (evolving_let s e (λ x, fst (b x))); [|intros ? ?; cbv beta]
    | _ => apply (evolving_let_any s e (λ x, fst (b x))); intros ?; cbv beta
    end
  | |- evolves _ _ (fst (match ?x with _ => _ end)) => split_on x
  | |- evolves _ _ (fst (?f ?x)) => apply (evolving_to (f := f))
  | |- evolves _ _ (?f ?x) => apply (evolving (f := f))
  | |- Evolving _ => first [solve [apply _] | intros ? ? ?; simpl]
  end.
Ltac evolve := repeat evolve_step.

(** For an operation by its definition, whose names are kept ([unfold] would
    put in what they stand for). *)
Tactic Notation "evolve_by" reference(f) :=
  let s := fresh "s" in let Hs := fresh "Hs" in intros ? s Hs; cbv delta [f]; cbv beta; evolve.

Section operations.
Context {W : Type} `{!Platform W}.
Notation State := (@VaultSync W).
Implicit Types (s : State).

#[export] Instance evolving_beginOwnWrite path : Evolving (beginOwnWrite path).
Proof using Type. evolve_by beginOwnWrite. Qed.

#[export] Instance evolving_releaseOwnWrite path : Evolving (releaseOwnWrite path).
Proof using Type. evolve_by releaseOwnWrite. Qed.

#[export] Instance evolving_endOwnWrite path : Evolving (endOwnWrite path).
Proof using Type. evolve_by endOwnWrite. Qed.

#[export] Instance evolving_ownWritesEnd : Evolving ownWritesEnd.
Proof using Type. evolve_by ownWritesEnd. Qed.

#[export] Instance evolving_scheduleTrim d : Evolving (scheduleMobileWorkingSetTrim d).
Proof using Type. evolve_by scheduleMobileWorkingSetTrim. Qed.

#[export] Instance evolving_markUsed path : Evolving (markMobileDocumentUsed path).
Proof using Type. evolve_by markMobileDocumentUsed. Qed.

(** ** The registry *)

(** Taking a document out of its registry, which destroys it *)
Lemma evolves_close s0 s k path doc clear :
  evolves outward s0 s → docId <$> residentOf k path s = Some (docId doc) →
  evolves outward s0 (destroyDoc doc clear (unlist k path s)).
Proof using Type.
  intros Hs Hr. destruct (residentOf k path s) as [doc'|] eqn:Hr'; simpl in Hr; [injection Hr as Hr|done]. assert (evolves outward s0 ((unlist k path s) <| destroyedDocs ::= union {[docId doc]} |>)) as Hc.
  { rewrite <- Hr. eapply ev_trans; [done|by apply ev_close]. }
  unfold destroyDoc, isDestroyed. case_match eqn:E; [|by evolve].
  eapply evolving_set; [|exact Hc]. bools. destruct k; unfold core; simpl in *; f_equal; set_solver.
Qed.

#[export] Instance evolving_removeDocument path clear : Evolving (removeDocument path clear).
Proof using Type.
  intros s0 s Hs. unfold removeDocument. evolve. apply (evolves_close s0 s QText); [done|]. simpl. by rewrite E.
Qed.

#[export] Instance evolving_removeStructured path clear : Evolving (removeStructuredDocument path clear).
Proof using Type.
  intros s0 s Hs. unfold removeStructuredDocument. evolve. apply (evolves_close s0 s (QStructured Base)); [done|]. simpl. by rewrite E.
Qed.

#[export] Instance evolving_removeResident k path clear : Evolving (removeResident k path clear).
Proof using Type. evolve_by removeResident. Qed.

Lemma residentOf_removed k path clear s : residentOf k path (removeResident k path clear s) = None.
Proof using Type.
  destruct k; simpl; unfold removeDocument, removeStructuredDocument, destroyDoc; repeat case_match; simpl;
    try done; apply jm_get_delete_eq.
Qed.

Lemma evolves_openDocument s0 s path guid k creator auto baseline :
  evolves outward s0 s → residentOf k path s = None →
  evolves outward s0 (fst (openDocument path guid k creator auto baseline s)).
Proof using Type.
  intros Hs Hr. unfold openDocument. simpl.
  assert (evolves outward s0 (enlist k path (mkDoc (nextDoc s) guid k) (s <| nextDoc ::= S |>))) as Ho.
  { eapply ev_trans; [done|by apply ev_open]. }
  apply (evolving (f := scheduleMobileWorkingSetTrim _)), (evolving (f := note _)).
  set (e := Opened _ _ _ _). assert (evolves outward s0 (note e (enlist k path (mkDoc (nextDoc s) guid k) (s <| nextDoc ::= S |>)))) as Hn.
  { by apply (evolving (f := note _)). }
  eapply evolving_set; [|exact Hn]. by destruct k.
Qed.

#[export] Instance evolving_ensureDocument path guid k creator auto baseline :
  EvolvingTo (ensureDocument path guid k creator auto baseline).
Proof using Type.
  intros s0 s Hs. unfold ensureDocument. case_match; [case_match; [done|]|].
  - apply evolves_openDocument; [by evolve|apply residentOf_removed].
  - by apply evolves_openDocument.
Qed.

#[export] Instance evolving_ensured path guid k creator : Evolving (ensured path guid k creator).
Proof using Type. evolve_by ensured. Qed.

#[export] Instance evolving_ensureForPath path : EvolvingTo (ensureDocumentForPath path).
Proof using Type.
  intros s0 s Hs. unfold ensureDocumentForPath. cbv zeta.
  assert (evolves outward s0 (markMobileDocumentUsed path s)) as Hm by evolve.
  case_match; [|done]. case_match eqn:E. simpl. evolve.
Qed.

#[export] Instance evolving_registerFile path guid : Evolving (registerFile path guid).
Proof using Type. evolve_by registerFile. Qed.

(** ** The queue *)

#[export] Instance evolving_putInQueue item front : Evolving (putInQueue item front).
Proof using Type. evolve_by putInQueue. Qed.

#[export] Instance evolving_enqueueDoc item front : Evolving (enqueueDoc item front).
Proof using Type. evolve_by enqueueDoc. Qed.

#[export] Instance evolving_requeue item front : Evolving (requeue item front).
Proof using Type. evolve_by requeue. Qed.

#[export] Instance evolving_enqueueReconnect item front : Evolving (enqueueReconnect item front).
Proof using Type. evolve_by enqueueReconnect. Qed.

#[export] Instance evolving_enqueueKnownPath path front again : Evolving (enqueueKnownPath path front again).
Proof using Type. evolve_by enqueueKnownPath. Qed.

(** Opening a document takes no slot. *)
Lemma active_removeResident k path clear s :
  activeDocConnections (removeResident k path clear s) = activeDocConnections s.
Proof using Type.
  destruct k; simpl; unfold removeDocument, removeStructuredDocument, destroyDoc; by repeat case_match.
Qed.

Lemma active_ensureDocument path guid k creator auto baseline s :
  activeDocConnections (fst (ensureDocument path guid k creator auto baseline s)) = activeDocConnections s.
Proof using Type.
  assert (∀ s', activeDocConnections (fst (openDocument path guid k creator auto baseline s')) =
                activeDocConnections s') as Ho.
  { intros s'. unfold openDocument, scheduleMobileWorkingSetTrim. simpl. case_match; by destruct k. }
  unfold ensureDocument. destruct (residentOf k path s); [case_match; [done|]|];
    by rewrite Ho, ?active_removeResident.
Qed.

Lemma evolves_connectNext s0 s item : activeDocConnections s < concurrency →
  evolves outward s0 s → evolves outward s0 (connectNext item s).
Proof using Type.
  intros Ha Hs. unfold connectNext. cbv zeta.
  set (s1 := s <| docQueue ::= _ |>). assert (evolves outward s0 s1) as H1 by (unfold s1; evolve).
  pose proof (active_ensureDocument (itemPath item) (itemGuid item) (itemKind item) false false (itemBaseline item) s1).
  destruct (ensureDocument _ _ _ _ _ _ s1) as [s2 doc] eqn:E. simpl in *.
  apply (evolving (f := note _)). eapply ev_trans; [exact (evolving_eq _ s0 s1 s2 doc _ E H1)|].
  apply ev_take. unfold s1 in *; simpl in *; lia.
Qed.

#[export] Instance evolving_pump n : Evolving (pump n).
Proof using Type.
  intros s0 s Hs. revert s Hs. induction n as [|n IH]; intros s Hs; [done|]. simpl.
  destruct (docQueue s) as [|[path item] q]; [done|]. case_match eqn:E; [|done].
  apply IH, evolves_connectNext; [by bools|done].
Qed.

#[export] Instance evolving_pumpDocQueue : Evolving pumpDocQueue.
Proof using Type. evolve_by pumpDocQueue. Qed.

#[export] Instance evolving_startBackground : Evolving startBackgroundSyncAfterPriorityDrain.
Proof using Type. evolve_by startBackgroundSyncAfterPriorityDrain. Qed.

#[export] Instance evolving_slotIsFree slot : Evolving (slotIsFree slot).
Proof using Type. evolve_by slotIsFree. Qed.

#[export] Instance evolving_freeSlot i : Evolving (freeSlot i).
Proof using Type.
  intros s0 s Hs. unfold freeSlot, slotFreed. destruct (slots s !! i) as [slot|] eqn:E; [|done].
  pose proof (ev_trans _ _ _ _ Hs (ev_free outward i slot s E)) as Hf.
  destruct (decide (slotGeneration slot = docConnectionGeneration s)) as [Hg|Hg].
  - rewrite bool_decide_eq_true_2 in Hf by done. rewrite bool_decide_eq_true_2 by done. by apply evolving.
  - rewrite bool_decide_eq_false_2 in Hf by done. by rewrite bool_decide_eq_false_2 by done.
Qed.

(** ** Index transactions *)

Lemma core_applyOp op s : core (applyOp op s) = core s.
Proof using Type. by destruct op. Qed.

#[export] Instance evolving_applyOps ops : EvolvingTo (applyOps ops).
Proof using Type.
  intros s0 s Hs. unfold applyOps. generalize (@nil IndexKey) as ks. revert s Hs.
  induction ops as [|op ops IH]; intros s Hs ks; [done|]. simpl. apply IH. by apply (evolving_set _ s), Hs; apply core_applyOp.
Qed.

#[export] Instance evolving_remoteDeleteBegins path k i : Evolving (remoteDeleteBegins path k i).
Proof using Type. evolve_by remoteDeleteBegins. Qed.

#[export] Instance evolving_entryArrived path guid k : Evolving (entryArrived path guid k).
Proof using Type. evolve_by entryArrived. Qed.

#[export] Instance evolving_indexChanged before key : Evolving (λ s, indexChanged before s key).
Proof using Type. evolve_by indexChanged. Qed.

#[export] Instance evolving_transaction ops also : Evolving also → Evolving (transaction ops also).
Proof using Type. intros Ha s0 s Hs. unfold transaction. evolve. Qed.

#[export] Instance evolving_transactAlso ops also : Evolving also → Evolving (transactAlso ops also).
Proof using Type.
  intros Ha s0 s Hs. unfold transactAlso. apply evolving_transaction; [|done]. intros s1 s2 Hs2. evolve.
Qed.

#[export] Instance evolving_transact ops : Evolving (transact ops).
Proof using Type. unfold transact. apply _. Qed.

#[export] Instance evolving_trashing entry ops : Evolving (trashing entry ops).
Proof using Type. evolve_by trashing. Qed.

#[export] Instance evolving_recordTrash entry : Evolving (recordTrash entry).
Proof using Type. evolve_by recordTrash. Qed.

(** ** Publishing, and the events of the vault *)

#[export] Instance evolving_releaseSource path source : Evolving (releaseBinarySource path source).
Proof using Type. evolve_by releaseBinarySource. Qed.

#[export] Instance evolving_publishMove p r : Evolving (publishMove p r).
Proof using Type. evolve_by publishMove. Qed.

#[export] Instance evolving_publishNew p : Evolving (publishNew p).
Proof using Type. evolve_by publishNew. Qed.

#[export] Instance evolving_publish p : Evolving (publish p).
Proof using Type.
  intros s0 s Hs. unfold publish. case_match eqn:Hg; [done|].
  unfold canPublishLocalPath in Hg. bools. 
  assert (evolves outward s0 (note (Published (pubPath p) (pubVersion p)
            (listed (docKind (pubDoc p)) (pubPath p) s)) s)) as Hp.
  { eapply ev_trans; [done|]. 
    replace (listed _ _ _) with false by done. replace (pubVersion p) with (currentPathVersion (pubPath p) s) by lia.
    apply ev_published. }
  cbv zeta. case_match; by apply evolving.
Qed.

#[export] Instance evolving_becameReady i : Evolving (becameReady i).
Proof using Type. evolve_by becameReady. Qed.

#[export] Instance evolving_createBegins f : Evolving (createBegins f).
Proof using Type.
  intros s0 s Hs. unfold createBegins. evolve. eapply ev_trans; [|apply ev_began]. evolve.
Qed.

#[export] Instance evolving_onLocalCreate f : Evolving (onLocalCreate f).
Proof using Type. evolve_by onLocalCreate. Qed.

#[export] Instance evolving_trashEntry path guid k : Evolving (trashEntry path guid k).
Proof using Type. evolve_by trashEntry. Qed.

#[export] Instance evolving_takeSource path : EvolvingTo (takeBinaryRenameSource path).
Proof using Type. evolve_by takeBinaryRenameSource. Qed.

#[export] Instance evolving_applyLocalDeletion path : Evolving (applyLocalDeletion path).
Proof using Type. evolve_by applyLocalDeletion. Qed.

#[export] Instance evolving_onLocalDelete path : Evolving (onLocalDelete path).
Proof using Type. evolve_by onLocalDelete. Qed.

#[export] Instance evolving_moveLocalState from to kind k source : Evolving (moveLocalState from to kind k source).
Proof using Type. evolve_by moveLocalState. Qed.

#[export] Instance evolving_holdSource to k source : Evolving (holdBinarySource to k source).
Proof using Type. evolve_by holdBinarySource. Qed.

#[export] Instance evolving_renameToDocument to version k guid tracked r :
  EvolvingTo (renameToDocument to version k guid tracked r).
Proof using Type.
  intros s0 s Hs. unfold renameToDocument.
  assert (∃ s1 g, match guid with Some g => (s, g) | None => newGuid s end = (s1, g) ∧ evolves outward s0 s1)
    as (s1 & g & -> & H1).
  { destruct guid; [by eexists _, _|]. by eexists _, _; split; [apply surjective_pairing|apply evolving_to]. }
  cbv zeta. set (s2 := match binarySource r with Some _ => _ | None => _ end).
  assert (evolves outward s0 s2) as H2 by (unfold s2; evolve).
  destruct (ensureDocument _ _ _ _ _ _ s2) as [s3 doc] eqn:E. case_match; evolve.
Qed.

#[export] Instance evolving_dropOther k guid r : Evolving (dropOtherEntry k guid r).
Proof using Type. evolve_by dropOtherEntry. Qed.

#[export] Instance evolving_localRename f from : EvolvingTo (localRename f from).
Proof using Type. evolve_by localRename. Qed.

#[export] Instance evolving_onLocalRename f from : Evolving (onLocalRename f from).
Proof using Type. evolve_by onLocalRename. Qed.

#[export] Instance evolving_diskChanged doc : Evolving (diskChanged doc).
Proof using Type. evolve_by diskChanged. Qed.

#[export] Instance evolving_onLocalModify f : Evolving (onLocalModify f).
Proof using Type. evolve_by onLocalModify. Qed.

(** ** Requests and the connection *)

#[export] Instance evolving_textActivity : Evolving noteTextActivity.
Proof using Type. evolve_by noteTextActivity. Qed.

#[export] Instance evolving_prioritizeItem path guid : Evolving (prioritizeItem path guid).
Proof using Type. evolve_by prioritizeItem. Qed.

#[export] Instance evolving_rebuildDocument guid rewound x : Evolving (λ s, rebuildDocument guid rewound s x).
Proof using Type. evolve_by rebuildDocument. Qed.

#[export] Instance evolving_rebuildForEpoch documentId rewound : Evolving (rebuildDocumentForEpoch documentId rewound).
Proof using Type. evolve_by rebuildDocumentForEpoch. Qed.

#[export] Instance evolving_onInvalidated documentId : Evolving (onDocumentInvalidated documentId).
Proof using Type. evolve_by onDocumentInvalidated. Qed.

#[export] Instance evolving_reloadFired path documentId : Evolving (reloadFired path documentId).
Proof using Type. evolve_by reloadFired. Qed.

#[export] Instance evolving_queueReconnects : Evolving queueMobileReconnects.
Proof using Type. evolve_by queueMobileReconnects. Qed.

#[export] Instance evolving_notifyDisconnected : Evolving notifyDisconnected.
Proof using Type. evolve_by notifyDisconnected. Qed.

#[export] Instance evolving_pauseSiblings b : Evolving (pauseSiblings b).
Proof using Type. evolve_by pauseSiblings. Qed.

#[export] Instance evolving_dropped : Evolving dropped.
Proof using Type. evolve_by dropped. Qed.

#[export] Instance evolving_indexStatus status : Evolving (handleIndexStatus status).
Proof using Type. evolve_by handleIndexStatus. Qed.

#[export] Instance evolving_reconnectAll : Evolving reconnectAll.
Proof using Type. evolve_by reconnectAll. Qed.

#[export] Instance evolving_wakeDocuments : Evolving wakeDocuments.
Proof using Type. evolve_by wakeDocuments. Qed.

#[export] Instance evolving_deleteFinished path preserved : Evolving (deleteFinished path preserved).
Proof using Type.
  intros s0 s Hs. unfold deleteFinished. case_bool_decide as Hr; [done|]. cbv zeta. destruct preserved; [|evolve].
  eapply ev_trans; [|apply ev_keep; by left]. evolve.
Qed.

#[export] Instance evolving_retryDelete i : Evolving (retryDelete i).
Proof using Type. evolve_by retryDelete. Qed.

#[export] Instance evolving_event f : Evolving f → Evolving (event f).
Proof using Type. intros Hf s0 s Hs. unfold event. evolve. Qed.

#[export] Instance evolving_suspend : Evolving suspendForBackground.
Proof using Type.
  evolve_by suspendForBackground. eapply ev_trans; [|apply ev_suspend]. evolve.
Qed.

Lemma evolves_notes s0 s es : evolves outward s0 s → Forall outward es →
  evolves outward s0 (s <| effects ::= λ l, l ++ es |>).
Proof using Type.
  intros Hs. induction es as [|e es IH] using rev_ind; intros He.
  - eapply evolving_set; [|exact Hs]. unfold core. simpl. by rewrite app_nil_r.
  - apply Forall_app in He as [Hes He]. rewrite Forall_singleton in He.
    eapply evolving_set; [|apply (evolving_note e He), IH, Hes].
    unfold core. simpl. by rewrite <- (assoc_L (++)).
Qed.

Lemma core_destroyDocs l s : ∃ es, Forall outward es ∧
  core (foldl (λ s doc, destroyDoc doc false s) s l) =
  core (s <| destroyedDocs ::= union (list_to_set (docId <$> l)) |> <| effects ::= λ k, k ++ es |>).
Proof using Type.
  revert s. induction l as [|doc l IH]; intros s; simpl.
  - exists []. split; [done|]. unfold core. simpl. rewrite app_nil_r. f_equal. set_solver.
  - destruct (IH (destroyDoc doc false s)) as (es & He & E). unfold destroyDoc, isDestroyed in *. case_bool_decide.
    + exists es. split; [done|]. rewrite E. unfold core. simpl. f_equal. set_solver.
    + exists (Closed doc false :: es). split; [by constructor; [split; [done|exact id]|]|].
      rewrite E. unfold core. simpl. rewrite <- (assoc_L (++)). f_equal. set_solver.
Qed.

#[export] Instance evolving_destroy : Evolving destroy.
Proof using Type.
  intros s0 s Hs. cbv delta [destroy]. cbv beta. evolve_step; [done|].
  evolve_step; [by evolve|]. destruct (core_destroyDocs (allDocuments s') s') as (es & He & Ec).
  pose proof (ev_trans _ _ _ _ H (ev_closeAll outward s')) as Hc.
  eapply evolving_set; [|exact (evolves_notes _ _ es Hc He)].
  unfold core in *. simpl in *. by injection Ec as -> -> _ _ -> -> -> -> -> -> ->.
Qed.

(** ** Everything that happens meanwhile *)

#[export] Instance evolving_move m : Evolving (move m).
Proof using Type. intros s0 s Hs. destruct m; cbv delta [move]; cbv beta iota; evolve. Qed.

#[export] Instance evolves_stable s : Stable (evolves outward s).
Proof using Type. split; intros; [by apply (evolving (f := onBinary _))|by apply (evolving (f := move m))]. Qed.
End operations.
