(* ===== verification/VaultRuns.v ===== *)
(** What holds of the vault's index in every run, whatever the platform
    answers and whatever happens between and during its programs: a new entry
    is published only for the state of the path it was made for, no document
    is lost, the slots in use are counted exactly. *)
From Stdlib Require Import String Ascii.
From S2P Require Import Prelude Effects TraceLogic Await JsMap Json ConflictCopy Vault VaultIndex VaultSync VaultDemo VaultSteps.
From S2P Require LocalState BinarySync BootstrapLog Provider.
#[local] Open Scope Z_scope.

(** ** Programs evolve *)

Section programs.
Context {W : Type} `{!Platform W}.
Notation State := (@VaultSync W).
Notation M := (eff State Err).
Implicit Types (s : State).

Lemma neutral_of_outward e : outward e → neutral e.
Proof using Type. by intros []. Qed.

#[export] Instance neutral_stable s : Stable (evolves neutral s).
Proof using Type.
  split; intros; (eapply ev_trans; [done|]); apply (evolves_mono outward); try exact neutral_of_outward.
  - apply (evolving (f := onBinary _)), ev_refl.
  - apply (evolving (f := move m)), ev_refl.
Qed.

Context (s0 : State).
Abbreviation I := (evolves neutral s0).

Lemma evolves_with f s : Evolving f → I s → I (f s).
Proof using Type.
  intros Hf Hs. eapply ev_trans; [exact Hs|]. eapply evolves_mono; [exact neutral_of_outward|]. apply Hf, ev_refl.
Qed.

Lemma keeps_evolving f : Evolving f → keeps I (update f : M ()).
Proof using Type. intros Hf. apply keeps_update. intros s. by apply evolves_with. Qed.

Lemma keeps_vault_effect e : neutral e → keeps I (effect e : M ()).
Proof using Type. intros He. apply keeps_update. intros s Hs. eapply ev_trans; [exact Hs|by apply ev_note]. Qed.

Lemma keeps_act {A} (f : State → State * A) : EvolvingTo f → keeps I (act f).
Proof using Type.
  intros Hf s Hs. unfold act, wp. pose proof (Hf s s (ev_refl _ s)) as H. destruct (f s) as [s' a]. simpl in H.
  eapply ev_trans; [exact Hs|]. by eapply evolves_mono; [exact neutral_of_outward|].
Qed.

Lemma keeps_ending {A} (m : M A) f : keeps I m → Evolving f → keeps I (finally m f).
Proof using Type. intros Hm Hf s Hs. apply (keeps_finally I I); [done| |done]. intros s'. by apply evolves_with. Qed.
End programs.

(** Goes through a program; [known] has what is known of those it calls. *)
Create HintDb vault_keeps.
Ltac keeps_step :=
  match goal with
  | |- keeps _ (_ ≫= _) => apply keeps_bind; [|intros ?]
  | |- keeps _ (mret _) => apply keeps_ret
  | |- keeps _ (get _) => apply keeps_get
  | |- keeps _ (throw _) => apply keeps_throw
  | |- keeps _ (call _) => apply keeps_call, _
  | |- keeps _ pause => apply keeps_pause, _
  | |- keeps _ (await _) => apply keeps_await; [apply _|]
  | |- keeps _ (catch _ _) => apply keeps_catch; [|intros ?]
  | |- keeps _ (attempt _) => apply keeps_attempt
  | |- keeps _ (forEach _ _) => apply keeps_forEach; intros ?
  | |- keeps _ (effect _) => apply keeps_vault_effect; exact I
  | |- keeps _ (act _) => apply keeps_act, _
  | |- keeps _ (finally _ _) => apply keeps_ending
  | |- keeps _ (update _) => solve [auto with vault_keeps nocore]
  | |- keeps _ (update _) => apply keeps_evolving
  | |- keeps _ (unlessAborted _ _ _) => unfold unlessAborted
  | H : context [keeps _ _] |- keeps _ _ => apply H
  | |- keeps _ (match ?x with _ => _ end) => destruct x
  | |- keeps _ _ => solve [auto with vault_keeps nocore]
  | |- Evolving _ => first [solve [apply _] | intros ? ? ?; evolve]
  end.
Ltac keeping := repeat keeps_step.

(** Programs that only ask and wait keep whatever the moves keep. *)
Section waiting.
Context {W : Type} `{!Platform W} (I : @VaultSync W → Prop) `{!Stable I}.

Lemma keeps_fingerprint text : keeps I (fingerprint text).
Proof using Stable0. unfold fingerprint. keeping. Qed.
#[local] Hint Resolve keeps_fingerprint : vault_keeps.

Lemma keeps_stored epoch text : keeps I (storedContentFingerprint epoch text).
Proof using Stable0. unfold storedContentFingerprint. keeping. Qed.
#[local] Hint Resolve keeps_stored : vault_keeps.

End waiting.
#[export] Hint Resolve keeps_fingerprint keeps_stored keeps_parentFolder keeps_vault_preserve : vault_keeps.
#[export] Hint Extern 0 (Stable _) => apply _ : vault_keeps.

Section programs.
Context {W : Type} `{!Platform W} (s0 : @VaultSync W).
Notation State := (@VaultSync W).
Notation M := (eff State Err).
Abbreviation I := (evolves neutral s0).

Lemma keeps_lookAtResident {A} path k handled resident (next : option string → M (option A)) :
  (∀ pending, keeps I (next pending)) → keeps I (lookAtResident path k handled resident next).
Proof using Type. intros Hn. unfold lookAtResident. keeping. Qed.

Lemma keeps_lookAtDisk {A} path k deleted handled resident (next : gset string → option string → M (option A)) :
  (∀ handled pending, keeps I (next handled pending)) →
  keeps I (lookAtDisk path k deleted handled resident next).
Proof using Type. intros Hn. unfold lookAtDisk, isLagging. keeping. Qed.

Lemma keeps_preserveLoop n path k deleted handled copies : keeps I (preserveLoop n path k deleted handled copies).
Proof using Type.
  revert handled copies. induction n as [|n IH]; intros handled copies; cbn [preserveLoop]; keeping.
  apply keeps_lookAtResident. intros pending. keeping. apply keeps_lookAtDisk. intros. keeping.
Qed.
#[local] Hint Resolve keeps_preserveLoop : vault_keeps.

#[export] Instance evolving_startRename from to k pending : Evolving (startRename from to k pending).
Proof using Type. evolve_by startRename. Qed.

#[export] Instance evolving_undoRename from to k : Evolving (undoRename from to k).
Proof using Type. evolve_by undoRename. Qed.

#[export] Instance evolving_rematerialize path : Evolving (rematerializeReintroducedPath path).
Proof using Type. evolve_by rematerializeReintroducedPath. Qed.

Lemma neutral_deletes : deletes neutral.
Proof using Type. by intros []. Qed.

Lemma keeps_notePreserved path copies : keeps I (update (notePreserved path copies) : M ()).
Proof using Type.
  apply keeps_update. intros s Hs. unfold notePreserved. case_match; [done|].
  eapply ev_trans; [|by apply ev_note]. eapply ev_trans; [exact Hs|]. apply ev_keep. right. exact neutral_deletes.
Qed.
#[local] Hint Resolve keeps_notePreserved : vault_keeps.

Lemma evolves_running r s : I s → I (s <| runningDelete := r |>).
Proof using Type. intros Hs. eapply ev_trans; [exact Hs|]. apply ev_running, neutral_deletes. Qed.

Lemma keeps_reconcileRemoteDelete path k deleted : keeps I (reconcileRemoteDelete path k deleted).
Proof using Type.
  unfold reconcileRemoteDelete, reconcileDelete, deleteLocalFile, preserveUnacknowledgedVersions, applyRemoteRename.
  keeping.
Qed.
#[local] Hint Resolve keeps_reconcileRemoteDelete : vault_keeps.

Lemma keeps_runDelete path k deleted : keeps I (runDelete path k deleted).
Proof using Type.
  unfold runDelete. assert (∀ n k deleted, keeps I (deleteLoop n path k deleted)) as Hl.
  { intros n. induction n as [|n IH]; intros k' d; cbn [deleteLoop]; keeping. }
  apply keeps_bind; [apply keeps_update; intros s; apply evolves_running|]. intros [] s Hs.
  apply (keeps_finally I I); [by apply Hl| |done]. intros s' Hs'. apply evolves_running.
  by apply (evolves_with s0 (λ s, s <| remoteDeleteInFlight ::= λ p, p ∖ {[path]} |>)); [intros ? ? ?; evolve|].
Qed.
#[local] Hint Resolve keeps_runDelete : vault_keeps.

Lemma keeps_handleRemoteDelete path k deleted : keeps I (handleRemoteDelete path k deleted).
Proof using Type. unfold handleRemoteDelete. keeping. Qed.
#[local] Hint Resolve keeps_handleRemoteDelete : vault_keeps.

#[local] Instance evolving_beginUntracked path k fp : Evolving (beginUntrackedCandidate path k fp).
Proof using Type. evolve_by beginUntrackedCandidate. Qed.

#[local] Instance evolving_newLocal path version k : EvolvingTo (newLocalDocument path version k).
Proof using Type.
  intros s1 s Hs. unfold newLocalDocument.
  assert (∃ s2 g, match askLocal (LocalState.candidateIdentity path (materialized k)) s with
                  | Some g => (s, g) | None => newGuid s end = (s2, g) ∧ evolves outward s1 s2)
    as (s2 & g & -> & H2).
  { case_match; [by eexists _, _|]. by eexists _, _; split; [apply surjective_pairing|apply evolving_to]. }
  cbv zeta. set (s3 := local _ s2). assert (evolves outward s1 s3) as H3 by (unfold s3; evolve).
  destruct (ensureDocument _ _ _ _ _ _ s3) as [s4 doc] eqn:E. evolve.
Qed.

Lemma keeps_publishWhenReady p : keeps I (publishWhenReady p).
Proof using Type. unfold publishWhenReady. keeping. Qed.
#[local] Hint Resolve keeps_publishWhenReady : vault_keeps.

Lemma keeps_publishNewFile path version k : keeps I (publishNewFile path version k).
Proof using Type. unfold publishNewFile. keeping. Qed.
#[local] Hint Resolve keeps_publishNewFile : vault_keeps.

Lemma keeps_noteCandidate path version k : keeps I (noteCandidate path version k).
Proof using Type. unfold noteCandidate. keeping. Qed.
#[local] Hint Resolve keeps_noteCandidate : vault_keeps.

Lemma keeps_localCreate f path version : keeps I (localCreate f path version).
Proof using Type. unfold localCreate. keeping. Qed.
#[local] Hint Resolve keeps_localCreate : vault_keeps.

Lemma keeps_replay : keeps I replayBootstrapVaultEvents.
Proof using Type.
  assert (∀ steps, keeps I (replaySteps steps)) as Hr.
  { induction steps as [|step steps IH]; cbn [replaySteps]; unfold replayStep, handleLocalCreate, handleLocalRename;
      keeping. }
  unfold replayBootstrapVaultEvents. keeping.
Qed.
#[local] Hint Resolve keeps_replay : vault_keeps.

Lemma keeps_untilDestroyed {A} (f : A → M ()) l : (∀ x, keeps I (f x)) → keeps I (untilDestroyed f l).
Proof using Type. intros Hf. induction l as [|x l IH]; cbn [untilDestroyed]; keeping. Qed.

#[local] Instance evolving_registerEntry priority k path guid : Evolving (registerEntry priority k path guid).
Proof using Type. evolve_by registerEntry. Qed.

#[local] Instance evolving_registerEntries priority : Evolving (registerEntries priority).
Proof using Type. evolve_by registerEntries. Qed.

#[local] Instance evolving_passEnds : Evolving passEnds.
Proof using Type. evolve_by passEnds. Qed.

Lemma keeps_pass : keeps I runInitialSyncPass.
Proof using Type.
  unfold runInitialSyncPass, recordCandidate. keeping; apply keeps_untilDestroyed; intros x;
    unfold resolveStartup, resolveLocal, addLocalFile; keeping.
Qed.
#[local] Hint Resolve keeps_pass : vault_keeps.

Lemma keeps_restore id target : keeps I (restoreTrashEntry id target).
Proof using Type.
  unfold restoreTrashEntry, restorePluginDb, dropTrash, failing, restoreDocument. keeping.
Qed.
#[local] Hint Resolve keeps_restore : vault_keeps.

Lemma keeps_purge id : keeps I (permanentlyDeleteTrashEntry id).
Proof using Type. unfold permanentlyDeleteTrashEntry, dropTrash. keeping. Qed.
#[local] Hint Resolve keeps_purge : vault_keeps.

Lemma keeps_connectIndex : keeps I connectIndexAfterCompatibilityCheck.
Proof using Type. unfold connectIndexAfterCompatibilityCheck. keeping. Qed.
#[local] Hint Resolve keeps_connectIndex : vault_keeps.

Lemma keeps_resume : keeps I resumeFromBackground.
Proof using Type. unfold resumeFromBackground. keeping. Qed.
#[local] Hint Resolve keeps_resume : vault_keeps.

#[local] Instance evolving_evict path doc : EvolvingTo (evict path doc).
Proof using Type.
  intros s1 s Hs. unfold evict, sameDoc. case_bool_decide as Hd; cbn [fst].
  { by apply (evolves_close s1 s QText). }
  case_bool_decide as Hc; cbn [fst]; [|done]. by apply (evolves_close s1 s (QStructured Base)).
Qed.

Lemma keeps_trim : keeps I trimMobileWorkingSet.
Proof using Type.
  assert (∀ target l residents retry, keeps I (trimLoop target residents retry l)) as Hl.
  { intros target l. induction l as [|[path doc] l IH]; intros residents retry; cbn [trimLoop]; keeping. }
  unfold trimMobileWorkingSet. keeping.
Qed.
#[local] Hint Resolve keeps_trim : vault_keeps.

Lemma keeps_initialSync : keeps I runInitialSync.
Proof using Type. unfold runInitialSync. keeping. Qed.
#[local] Hint Resolve keeps_initialSync : vault_keeps.

Lemma keeps_vault_task t : keeps I (runTask t).
Proof using Type.
  destruct t; cbn [runTask]; unfold reconnectDocumentsWhenCompatible; keeping.
Qed.
End programs.

Lemma run_evolves {W} `{!Platform W} (s0 s : @VaultSync W) xs : evolves neutral s0 s → evolves neutral s0 (run s xs).
Proof.
  unfold run. revert s. induction xs as [|x xs IH]; intros s Hs; [done|]. simpl. apply IH.
  destruct x as [t|m]; simpl; [|apply (evolves_with s0 (move m)); [apply _|done]].
  pose proof (keeps_vault_task s0 t s Hs) as Ht. unfold wp in Ht. by destruct (runTask t s) as [s' [a|e]].
Qed.

(** ** Path versions *)

Section versions.
Context {W : Type} `{!Platform W}.
Notation State := (@VaultSync W).
Implicit Types (s : State) (pre : list Effect).

(** What happened to a path *)
Definition isBump (path : string) (e : Effect) : bool :=
  match e with Bumped p => String.eqb p path | _ => false end.

Definition bumps (path : string) (l : list Effect) : Z := zlength (filter (λ e, isBump path e = true) l).

(** At the version the path had, and where the index listed nothing *)
Definition timely pre (e : Effect) : Prop :=
  match e with
  | Began path version => version = bumps path pre
  | Published path version replaces => version = bumps path pre ∧ replaces = false
  | _ => True
  end.

Definition versions_ok s : Prop :=
  (∀ path, currentPathVersion path s = bumps path (effects s)) ∧
  (∀ pre e post, effects s = pre ++ e :: post → timely pre e).

Lemma bumps_app path l k : bumps path (l ++ k) = bumps path l + bumps path k.
Proof using Type. unfold bumps. rewrite filter_app. autorewrite with zlen. done. Qed.

Lemma bumps_nonneg path l : 0 ≤ bumps path l.
Proof using Type. apply zlength_nonneg. Qed.

Lemma bumps_one path e : bumps path [e] = if isBump path e then 1 else 0.
Proof using Type. unfold bumps. rewrite filter_cons, filter_nil. by destruct (isBump path e). Qed.

Lemma bumps_none path l : bumps path l = 0 → Bumped path ∉ l.
Proof using Type.
  intros Hl Hin. apply list_elem_of_split in Hin as (l1 & l2 & ->).
  change (Bumped path :: l2) with ([Bumped path] ++ l2) in Hl.
  rewrite !bumps_app, bumps_one in Hl. simpl in Hl. rewrite String.eqb_refl in Hl.
  pose proof (bumps_nonneg path l1). pose proof (bumps_nonneg path l2). lia.
Qed.

(** One more effect, with what it does to the versions *)
Lemma versions_note s s' e : versions_ok s → effects s' = effects s ++ [e] → timely (effects s) e →
  (∀ path, currentPathVersion path s' = currentPathVersion path s + (if isBump path e then 1 else 0)) →
  versions_ok s'.
Proof using Type.
  intros [Hv Ht] E He Hs. split.
  - intros path. by rewrite E, bumps_app, bumps_one, Hs, Hv.
  - intros pre e' post Hp. rewrite E in Hp. destruct post as [|x post _] using rev_ind.
    + apply app_inj_tail in Hp as [<- <-]. done.
    + rewrite app_comm_cons, (assoc_L (++)) in Hp. apply app_inj_tail in Hp as [Hp _]. by eapply Ht.
Qed.

Lemma versions_same s s' : versions_ok s → effects s' = effects s → pathVersions s' = pathVersions s → versions_ok s'.
Proof using Type. unfold versions_ok, currentPathVersion. intros H -> ->. done. Qed.

Lemma versions_evolve s s' : evolves neutral s s' → versions_ok s → versions_ok s'.
Proof using Type.
  induction 1 as [| |s s' E|e s He|path s|path s|path s| | | | | | | | |]; intros Hs; auto;
    try (by apply (versions_same s)).
  - unfold core in E. injection E as E1 E2. by apply (versions_same s).
  - apply (versions_note s _ e); [done|done|by destruct e|]. intros p. destruct e; simpl; try (by rewrite Z.add_0_r). done.
  - apply (versions_note s _ (Bumped path)); [done..|]. intros p. unfold currentPathVersion. simpl.
    destruct (String.eqb_spec path p) as [->|Hp]; [by rewrite lookup_insert_eq|rewrite lookup_insert_ne by done].
    by rewrite Z.add_0_r.
  - apply (versions_note s _ (Began path (currentPathVersion path s))); [done|done|by apply Hs|].
    intros p. simpl. by rewrite Z.add_0_r.
  - apply (versions_note s _ (Published path (currentPathVersion path s) false)); [done|done| |].
    + split; [by apply Hs|done].
    + intros p. simpl. by rewrite Z.add_0_r.
  - apply (versions_same s); [done|by destruct k..].
  - apply (versions_same s); [done|by destruct k..].
  - apply (versions_same s); [done|by case_match..].
Qed.
End versions.

(** ** The registries *)

Section registry.
Context {W : Type} `{!Platform W}.
Notation State := (@VaultSync W).
Implicit Types (s : State).

Lemma values_set {V} path (v : V) (m : jsmap string V) :
  jm_get path m = None → jm_values (jm_set path v m) = jm_values m ++ [v].
Proof using Type.
  unfold jm_values. induction m as [|[p w] m IH]; simpl; [done|]. case_decide; [done|]. intros Hn. simpl. by rewrite IH.
Qed.

Lemma values_delete {V} path (v : V) (m : jsmap string V) :
  jm_wf m → jm_get path m = Some v → jm_values m ≡ₚ v :: jm_values (jm_delete path m).
Proof using Type.
  unfold jm_wf, jm_values. induction m as [|[p w] m IH]; simpl; [done|]. intros [Hp Hm]%NoDup_cons Hg.
  case_decide as Hd; [|simpl; rewrite (IH Hm Hg); apply Permutation_swap]. injection Hg as ->. subst p.
  enough (jm_delete path m = m) as -> by done. clear IH Hm.
  induction m as [|[q u] m IH]; simpl in *; [done|]. rewrite not_elem_of_cons in Hp. destruct Hp as [Hq Hp].
  rewrite decide_False by done. by rewrite IH.
Qed.

(** The numbers of the resident documents, and of those destroyed *)
Definition residentIds s : list nat := docId <$> allDocuments s.
Definition accounted s : list nat := residentIds s ++ elements (destroyedDocs s).

(** Every document ever opened is in one registry, once, or destroyed. *)
Definition registry_ok s : Prop :=
  jm_wf (documents s) ∧ jm_wf (structuredDocuments s) ∧ accounted s ≡ₚ seq 0 (nextDoc s).

Lemma registry_same s s' : registry_ok s →
  documents s' = documents s → structuredDocuments s' = structuredDocuments s → nextDoc s' = nextDoc s →
  destroyedDocs s' = destroyedDocs s → registry_ok s'.
Proof using Type. unfold registry_ok, accounted, residentIds, allDocuments. intros H -> -> -> ->. done. Qed.

Lemma accounted_nodup s : registry_ok s → NoDup (accounted s).
Proof using Type. intros (_ & _ & H). rewrite H. apply NoDup_seq. Qed.

Lemma resident_alive s id : registry_ok s → id ∈ residentIds s → id ∉ destroyedDocs s.
Proof using Type.
  intros Hok Hid Hd. apply accounted_nodup in Hok. unfold accounted in Hok. apply NoDup_app in Hok as (_ & H & _).
  apply (H id Hid). by apply elem_of_elements.
Qed.

Lemma registry_open s k path guid : registry_ok s → residentOf k path s = None →
  registry_ok (enlist k path (mkDoc (nextDoc s) guid k) (s <| nextDoc ::= S |>)).
Proof using Type.
  intros (Hd & Hs & Ha) Hr. unfold registry_ok, accounted, residentIds, allDocuments in *.
  destruct k; cbn -[seq jm_values] in *; (split; [by auto with js|]); (split; [by auto with js|]);
    rewrite values_set, seq_S, <- Ha by done; rewrite !fmap_app; simpl; solve_Permutation.
Qed.

Lemma resident_listed s k path doc : residentOf k path s = Some doc → docId doc ∈ residentIds s.
Proof using Type.
  intros Hr. unfold residentIds, allDocuments, jm_values. apply list_elem_of_fmap. exists doc. split; [done|].
  apply elem_of_app. destruct k; [left|right]; apply list_elem_of_fmap; exists (path, doc); (split; [done|]);
    by apply jm_get_in.
Qed.

Lemma registry_close s k path doc : registry_ok s → residentOf k path s = Some doc →
  registry_ok ((unlist k path s) <| destroyedDocs ::= union {[docId doc]} |>).
Proof using Type.
  intros Hok Hr. pose proof (resident_alive s _ Hok (resident_listed _ _ _ _ Hr)) as Hn.
  destruct Hok as (Hd & Hs & Ha). unfold registry_ok, accounted, residentIds, allDocuments in *.
  destruct k; cbn -[jm_values] in *; (split; [by auto with js|]); (split; [by auto with js|]);
    rewrite elements_union_singleton by done; rewrite <- Ha;
    [rewrite (values_delete path doc (documents s)) by done
    |rewrite (values_delete path doc (structuredDocuments s)) by done];
    rewrite !fmap_app, ?fmap_cons; simpl; solve_Permutation.
Qed.

Lemma registry_closeAll s : registry_ok s →
  registry_ok (s <| destroyedDocs ::= union (list_to_set (docId <$> allDocuments s)) |>
                 <| documents := [] |> <| structuredDocuments := [] |>).
Proof using Type.
  intros Hok. pose proof (accounted_nodup s Hok) as Hn. destruct Hok as (_ & _ & Ha). unfold accounted in *.
  split; [by auto with js|]. split; [by auto with js|]. cbn [nextDoc field_set]. rewrite <- Ha.
  apply NoDup_app in Hn as (Hr & Hdis & _).
  change (elements (list_to_set (residentIds s) ∪ destroyedDocs s) ≡ₚ residentIds s ++ elements (destroyedDocs s)).
  rewrite elements_disj_union by (intros id; rewrite elem_of_list_to_set; intros Hi Hj; apply (Hdis id Hi); by apply elem_of_elements).
  by rewrite elements_list_to_set.
Qed.

Lemma registry_evolve s s' : evolves neutral s s' → registry_ok s → registry_ok s'.
Proof using Type.
  induction 1 as [| |s s' E|e s He|path s|path s|path s|k path guid s Hr|k path doc s Hr|s| | | | | |]; intros Hs; auto;
    try (by apply (registry_same s)).
  - unfold core in E. injection E as _ _ E1 E2 E3 E4. by apply (registry_same s).
  - by apply registry_open.
  - by apply (registry_close s k path doc).
  - by apply registry_closeAll.
  - apply (registry_same s); [done|by case_match..].
Qed.
End registry.

(** ** The slots *)

Section slots.
Context {W : Type} `{!Platform W}.
Notation State := (@VaultSync W).
Implicit Types (s : State).

(** The slots in use since connections were last dropped *)
Definition inUse s : list Slot := filter (λ slot, slotGeneration slot = docConnectionGeneration s) (slots s).

Definition slots_ok s : Prop :=
  activeDocConnections s = zlength (inUse s) ∧ zlength (inUse s) ≤ concurrency ∧
  Forall (λ slot, slotGeneration slot ≤ docConnectionGeneration s) (slots s).

Lemma slots_same s s' : slots_ok s → activeDocConnections s' = activeDocConnections s →
  docConnectionGeneration s' = docConnectionGeneration s → slots s' = slots s → slots_ok s'.
Proof using Type. unfold slots_ok, inUse. intros H -> -> ->. done. Qed.

Lemma concurrency_pos : 0 < concurrency.
Proof using Type. unfold concurrency. by case_match. Qed.

Lemma slots_evolve s s' : evolves neutral s s' → slots_ok s → slots_ok s'.
Proof using Type.
  induction 1 as [| |s s' E|e s He|path s|path s|path s|k path guid s Hr|k path doc s Hr|s|item doc waits s Ha
    |i slot s Hi|s| | |]; intros Hs; auto; try (by apply (slots_same s)).
  - unfold core in E. injection E as _ _ _ _ _ _ E1 E2 E3 _ _. by apply (slots_same s).
  - apply (slots_same s); [done|by destruct k..].
  - apply (slots_same s); [done|by destruct k..].
  - destruct Hs as (H1 & H2 & H3). unfold slots_ok, inUse in *. simpl.
    rewrite filter_app, filter_cons, filter_nil, decide_True by done. autorewrite with zlen.
    split; [lia|]. split; [lia|]. apply Forall_app. split; [done|]. by constructor; [simpl; lia|].
  - destruct Hs as (H1 & H2 & H3).
    assert (slots s ≡ₚ slot :: delete i (slots s)) as Hp by by apply delete_Permutation.
    assert (Forall (λ x, slotGeneration x ≤ docConnectionGeneration s) (delete i (slots s))) as Hf.
    { rewrite Hp in H3. by inversion H3. }
    unfold slots_ok, inUse in *.
    assert (zlength (filter (λ x, slotGeneration x = docConnectionGeneration s) (slots s)) =
            (if decide (slotGeneration slot = docConnectionGeneration s) then 1 else 0) +
            zlength (filter (λ x, slotGeneration x = docConnectionGeneration s) (delete i (slots s)))) as Hz.
    { unfold zlength. rewrite Hp at 1. rewrite filter_cons. case_decide; simpl; lia. }
    pose proof (zlength_nonneg (filter (λ x, slotGeneration x = docConnectionGeneration s) (delete i (slots s)))).
    case_bool_decide; [rewrite decide_True in Hz by done|rewrite decide_False in Hz by done]; simpl;
      repeat split; try done; lia.
  - destruct Hs as (H1 & H2 & H3). unfold slots_ok, inUse in *. simpl.
    assert (filter (λ x, slotGeneration x = 1 + docConnectionGeneration s) (slots s) = []) as ->.
    { clear H1 H2. induction H3 as [|slot l Hl H3 IH]; [done|]. rewrite filter_cons, decide_False by lia. done. }
    repeat split; [pose proof concurrency_pos; unfold zlength; simpl; lia|].
    eapply Forall_impl; [exact H3|]. simpl. lia.
Qed.
End slots.

(** ** The claims *)

Section claims.
Context {W : Type} `{!Platform W}.
Notation State := (@VaultSync W).
Implicit Types (s : State).

(** Nothing has happened yet. *)
Definition fresh s : Prop := core s = mkCore [] ∅ [] [] 0 ∅ 0 0 [] ∅ None.

#[local] Instance evolving_loaded epoch : Evolving (loaded epoch).
Proof using Type. evolve_by loaded. Qed.

Lemma loaded_fresh epoch w index canvases binaries bin ls :
  fresh (loaded epoch (newVaultSync w index canvases binaries bin ls)).
Proof using Type.
  unfold fresh, loaded. set (s0 := newVaultSync w index canvases binaries bin ls).
  assert (∀ {A} (f : State → A → State) l s, (∀ s x, core (f s x) = core s) → core (foldl f s l) = core s) as Hf.
  { intros A f l. induction l as [|x l IH]; intros s Hs; [done|]. simpl. by rewrite IH, Hs. }
  transitivity (core s0); [|done]. cbv zeta. unfold onBinary. 
  match goal with |- core (field_set _ _ (field_set _ _ (field_set _ _ ?x))) = _ => transitivity (core x); [done|] end.
  rewrite !Hf; [done|..]; intros s [p x]; by repeat case_match.
Qed.

(** C5: A new file's entry is only published while its path is as it was when
    the program that publishes it began: no event of the path has come since,
    and the index lists nothing there. *)
Theorem stale_create_not_published s xs pre path version replaces post :
  fresh s → effects (run s xs) = pre ++ Published path version replaces :: post →
  replaces = false ∧ version = bumps path pre ∧
  ∀ a b, pre = a ++ Began path version :: b → Bumped path ∉ b.
Proof using Type.
  intros Hs Hr. assert (versions_ok (run s xs)) as [_ Hok].
  { apply (versions_evolve s); [apply run_evolves, ev_refl|]. injection Hs as Hs Hv _ _ _ _ _ _ _.
    unfold versions_ok, currentPathVersion. rewrite Hs, Hv. split; [done|].
    intros [|? ?] e' post' E; discriminate E. }
  destruct (Hok _ _ _ Hr) as [Hv ->]. split_and!; [done..|]. intros a b ->.
  apply bumps_none. rewrite bumps_app in Hv. change (Began path version :: b) with ([Began path version] ++ b) in Hv.
  rewrite bumps_app, bumps_one in Hv. simpl in Hv.
  rewrite <- (assoc_L (++)) in Hr. pose proof (Hok _ _ _ Hr) as Hb. simpl in Hb. lia.
Qed.

(** C6: No document is lost: in every run each document object ever opened is
    in one of the registries, once, or was destroyed, and never both. *)
Theorem documents_accounted_for s xs : fresh s → accounted (run s xs) ≡ₚ seq 0 (nextDoc (run s xs)).
Proof using Type.
  intros Hs. apply (registry_evolve s); [apply run_evolves, ev_refl|]. injection Hs as _ _ E1 E2 E3 E4 _ _ _.
  unfold registry_ok, accounted, residentIds, allDocuments. rewrite E1, E2, E3, E4. split; [by auto with js|].
  split; [by auto with js|]. by rewrite elements_empty.
Qed.

(** C27: The connections counted as active are exactly those of slots not freed
    yet since connections were last dropped, never more than the device is
    allowed. *)
Theorem connections_bounded s xs : fresh s →
  let s' := run s xs in
  activeDocConnections s' = zlength (inUse s') ∧ activeDocConnections s' ≤ concurrency.
Proof using Type.
  intros Hs. assert (slots_ok (run s xs)) as (H1 & H2 & _); [|by rewrite <- H1 in H2].
  apply (slots_evolve s); [apply run_evolves, ev_refl|]. injection Hs as _ _ _ _ _ _ E1 E2 E3.
  unfold slots_ok, inUse. rewrite E1, E2, E3. pose proof concurrency_pos. rewrite filter_nil.
  split; [done|]. split; [unfold zlength; simpl; lia|done].
Qed.
End claims.

(** ** A run *)

Module VaultRun.
(** A new note is read, and its entry published once its document is ready;
    nothing is when it is deleted meanwhile. *)
Definition startWith (later : list (list (string * string) * list Move)) : @VaultSync Disk :=
  device (mkDisk {[note_md := "text"%string; old_md := "other"%string]} ∅ [note_md; old_md] 0 later) [] emptyLocal.
Definition start : @VaultSync Disk := startWith [].

Definition published (s : @VaultSync Disk) : list string :=
  omap (λ e, match e with Published path _ _ => Some path | _ => None end) (effects s).

Definition run1 : list (Task + Move) := [inr (FileCreated 0%nat); inl (LocalCreate 0%nat note_md 1)].

Definition opened : list Effect :=
  [Opened note_md (mkDoc 0 "a" QText) true (mkOptions true false None None); PresenceApplied (mkDoc 0 "a" QText)].

Definition afterwards : list Effect :=
  [Transacted [FilesSet note_md "a"]; Registered note_md "a"; Registered note_md "a"].

Lemma stale_create_not_published_witness : Bumped note_md ∉ opened.
Proof.
  assert (fresh start) as Hf by reflexivity.
  assert (effects (run start run1) =
    ([Bumped note_md; Began note_md 1] ++ opened) ++ Published note_md 1 false :: afterwards) as Hr
    by (vm_compute; reflexivity).
  destruct (stale_create_not_published _ _ _ _ _ _ _ Hf Hr) as (_ & _ & H).
  exact (H [Bumped note_md] opened eq_refl).
Defined.

(** The file is deleted while it is read: nothing is published. *)
Example deleted_meanwhile :
  published (run start run1) = [note_md] ∧ published (run (startWith [([], [FileDeleted note_md])]) run1) = [].
Proof. vm_compute. done. Qed.

Lemma documents_accounted_for_witness :
  nextDoc (run start run1) = 1%nat ∧ accounted (run start run1) ≡ₚ seq 0 (nextDoc (run start run1)).
Proof.
  split; [vm_compute; reflexivity|]. apply (documents_accounted_for start run1). reflexivity.
Defined.

Lemma connections_bounded_witness :
  let s' := run start [inr (RemoteTransaction [FilesSet old_md "b"])] in
  activeDocConnections s' = 1 ∧ activeDocConnections s' ≤ concurrency.
Proof.
  split; [vm_compute; reflexivity|].
  apply (connections_bounded start [inr (RemoteTransaction [FilesSet old_md "b"])]). reflexivity.
Defined.
End VaultRun.
