(* ===== verification/VaultDelete.v ===== *)
(** What a remote delete promises ([handleRemoteDelete] of
    [src/VaultSync.ts]): it removes the local file only while the index lists
    nothing at the path, and only when what was last seen of it, in the open
    document and on the disk, is with the server, or was copied aside.  The
    search for versions to copy aside ends. *)
From Stdlib Require Import String.
From S2P Require Import Prelude Effects TraceLogic Await JsMap Json ConflictCopy Vault VaultIndex VaultSync VaultDemo VaultSteps VaultRuns.
From S2P Require LocalState BinarySync BootstrapLog Provider.
#[local] Open Scope Z_scope.

Section delete.
Context {W : Type} `{!Platform W}.
Notation State := (@VaultSync W).
Notation M := (eff State Err).
Implicit Types (s : State) (pre : list Effect).

(** ** What is promised *)

Definition residentSeen (path : string) (e : Effect) : option (option string) :=
  match e with SawResident p c => if decide (p = path) then Some c else None | _ => None end.

Definition diskSeen (path : string) (e : Effect) : option (option string) :=
  match e with SawDisk p c => if decide (p = path) then Some c else None | _ => None end.

(** Content of this digest is with the server, or in the store of the open
    document, or was copied aside. *)
Definition safeDigest (path : string) pre (fp : string) : Prop :=
  Acknowledged path fp ∈ pre ∨ Lagging path fp ∈ pre ∨
  ∃ copy content, Preserved path copy content ∈ pre ∧ sha256Text (W := W) content = fp.

Definition safeContent (path : string) pre (content : option string) : Prop :=
  ∀ c, content = Some c → safeDigest path pre (sha256Text (W := W) c).

(** What was last seen of the path is safe. *)
Definition covered (path : string) pre : Prop := ∃ resident disk,
  last (omap (residentSeen path) pre) = Some resident ∧ last (omap (diskSeen path) pre) = Some disk ∧
  safeContent path pre resident ∧ safeContent path pre disk.

(** What a delete of [path] begun in [s0] may remove *)
Definition removable (s0 : State) (path : string) pre (p : string) (replaced : bool) : Prop :=
  p = path ∧ replaced = false ∧ (path ∈ remoteDeletePreserved s0 ∨ covered path pre).

(** ** The logic *)

Context (s0 : State) (path : string).

Definition removal_warranted pre e : Prop :=
  match e with Removed p replaced => removable s0 path pre p replaced | _ => True end.

(** Neither removes the file nor looks at it *)
Definition unseeing e : Prop :=
  match e with SawResident _ _ | SawDisk _ _ | Removed _ _ => False | _ => True end.

Lemma unseeing_warranted pre e : unseeing e → removal_warranted pre e.
Proof using Type. by destruct e. Qed.

#[local] Instance delete_traced : Traced State Effect := {|
  trail := effects; harmless := unseeing; frame _ _ := True;
  frame_preorder := Build_PreOrder _ (λ _, I) (λ _ _ _ _ _, I) |}.

#[local] Instance delete_judged : Judged delete_traced := {|
  mark := length (effects s0); warranted := removal_warranted; harmless_warranted := unseeing_warranted |}.

Lemma outward_unseeing e : outward e → unseeing e.
Proof using Type. unfold outward. by destruct e; simpl; intros []; auto. Qed.

(** What others do neither looks at the file for the delete, nor notes the
    path as preserved. *)
Definition meanwhile s s' : Prop :=
  quiet s s' ∧ runningDelete s' = runningDelete s ∧
  (runningDelete s = Some path → path ∈ remoteDeletePreserved s' → path ∈ remoteDeletePreserved s).

Lemma meanwhile_refl s : meanwhile s s.
Proof using Type. split; [apply quiet_refl|by split]. Qed.

Lemma meanwhile_trans s1 s2 s3 : meanwhile s1 s2 → meanwhile s2 s3 → meanwhile s1 s3.
Proof using Type.
  intros (Q1 & R1 & P1) (Q2 & R2 & P2). split; [by eapply quiet_trans|]. split; [by rewrite R2|].
  intros Hr Hp. apply P1; [done|]. apply P2; [by rewrite R1|done].
Qed.

Lemma not_deletes : ¬ deletes outward.
Proof using Type. intros H. by destruct (H (SawDisk "" None) I) as [_ []]. Qed.

Lemma meanwhile_note e s : unseeing e → meanwhile s (note e s).
Proof using Type. intros He. split; [by apply (quiet_snoc _ _ e)|by split]. Qed.

(** The parts that matter are as they were. *)
Lemma meanwhile_same s s' : effects s' = effects s → runningDelete s' = runningDelete s →
  (path ∈ remoteDeletePreserved s' → path ∈ remoteDeletePreserved s) → meanwhile s s'.
Proof using Type. intros E R P. split; [by apply quiet_same|by split]. Qed.

Lemma meanwhile_evolves s s' : evolves outward s s' → meanwhile s s'.
Proof using Type.
  induction 1 as [| |s s' E|e s He|p s|p s|p s|k p guid s Hr|k p doc s Hr|s|item doc waits s Ha
    |i slot s Hi|s|p s|p s Hp|r s Hr].
  - apply meanwhile_refl.
  - by eapply meanwhile_trans.
  - unfold core in E. injection E as E _ _ _ _ _ _ _ _ Ep Er. apply meanwhile_same; [done..|by rewrite Ep].
  - by apply meanwhile_note, outward_unseeing.
  - by apply (meanwhile_trans _ (note (Bumped p) s)); [apply meanwhile_note|apply meanwhile_same].
  - by apply meanwhile_note.
  - by apply meanwhile_note.
  - by apply meanwhile_same; destruct k.
  - by apply meanwhile_same; destruct k.
  - by apply meanwhile_same.
  - by apply meanwhile_same.
  - by apply meanwhile_same; case_match.
  - by apply meanwhile_same.
  - apply meanwhile_same; [done..|]. simpl. set_solver.
  - split; [by apply quiet_same|]. split; [done|]. simpl. intros Hs. destruct Hp as [Hp|[]%not_deletes]. set_solver.
  - by apply not_deletes in Hr.
Qed.

#[local] Instance meanwhile_stable s : Stable (meanwhile s).
Proof using Type.
  split; intros; (eapply meanwhile_trans; [done|]); apply meanwhile_evolves;
    [apply (evolving (f := onBinary _))|apply (evolving (f := move m))]; apply ev_refl.
Qed.

(** ** What is known of the path stays so. *)

Lemma trace_quiet s s' : ok s → quiet s s' → ∃ l, trace s' = trace s ++ l ∧ Forall unseeing l.
Proof using Type. intros [Hn _] (_ & l & E & Hl). exists l. split; [by apply trace_app|done]. Qed.

Lemma safeDigest_app pre l fp : safeDigest path pre fp → safeDigest path (pre ++ l) fp.
Proof using Type. unfold safeDigest. setoid_rewrite elem_of_app. naive_solver. Qed.

Lemma safeContent_app pre l c : safeContent path pre c → safeContent path (pre ++ l) c.
Proof using Type. intros H x Hx. by apply safeDigest_app, H. Qed.

Lemma unseen {A} (f : Effect → option A) pre l :
  (∀ e, unseeing e → f e = None) → Forall unseeing l → last (omap f (pre ++ l)) = last (omap f pre).
Proof using Type.
  intros Hf Hl. rewrite omap_app. enough (omap f l = []) as -> by by rewrite app_nil_r.
  induction Hl as [|e l He _ IH]; [done|]. simpl. by rewrite Hf.
Qed.

Lemma residentSeen_unseen pre l : Forall unseeing l →
  last (omap (residentSeen path) (pre ++ l)) = last (omap (residentSeen path) pre).
Proof using Type. apply unseen. by intros []. Qed.

Lemma diskSeen_unseen pre l : Forall unseeing l →
  last (omap (diskSeen path) (pre ++ l)) = last (omap (diskSeen path) pre).
Proof using Type. apply unseen. by intros []. Qed.

Lemma covered_app pre l : Forall (λ e, residentSeen path e = None ∧ diskSeen path e = None) l →
  covered path pre → covered path (pre ++ l).
Proof using Type.
  intros Hl (r & d & Hr & Hd & Sr & Sd). exists r, d.
  assert (omap (residentSeen path) l = [] ∧ omap (diskSeen path) l = []) as [E1 E2].
  { induction Hl as [|e l [He1 He2] _ [IH1 IH2]]; [done|]. simpl. rewrite He1, He2. by split. }
  rewrite !omap_app, E1, E2, !app_nil_r. split_and!; [done..|by apply safeContent_app|by apply safeContent_app].
Qed.

Lemma covered_quiet s s' : ok s → quiet s s' → covered path (trace s) → covered path (trace s').
Proof using Type.
  intros Hs Hq. destruct (trace_quiet s s' Hs Hq) as (l & -> & Hl). apply covered_app.
  eapply Forall_impl; [exact Hl|]. by intros [].
Qed.

(** ** Copying aside *)

Definition ready s : Prop := ok s ∧ runningDelete s = Some path ∧ path ∉ remoteDeletePreserved s.

Lemma ready_calm s s' : ready s → meanwhile s s' → ready s'.
Proof using Type.
  intros (Ho & Hr & Hp) (Hq & R & P). split; [by eapply ok_quiet|]. rewrite R. naive_solver.
Qed.

Definition knows (handled : gset string) s : Prop := ∀ fp, fp ∈ handled → safeDigest path (trace s) fp.

Definition sawLast (resident : option string) s : Prop := last (omap (residentSeen path) (trace s)) = Some resident.
Definition sawDiskLast (disk : option string) s : Prop := last (omap (diskSeen path) (trace s)) = Some disk.

(** What a round knows: the digests it may skip, what it saw of the document,
    and of the disk once it looked *)
Definition view (handled : gset string) (resident : option string) (disk : option (option string)) s : Prop :=
  ready s ∧ knows handled s ∧ sawLast resident s ∧ ∀ d, disk = Some d → sawDiskLast d s.

Lemma view_calm handled r d s s' : view handled r d s → meanwhile s s' → view handled r d s'.
Proof using Type.
  intros (Hs & Hk & Hl & Hd) Hc. destruct (trace_quiet s s' (proj1 Hs) (proj1 Hc)) as (l & E & Hu).
  split; [by eapply ready_calm|]. unfold knows, sawLast, sawDiskLast. rewrite E, residentSeen_unseen, diskSeen_unseen by done.
  split; [|by split]. intros fp Hf. by apply safeDigest_app, Hk.
Qed.

Lemma trace_note e s : ok s → trace (note e s) = trace s ++ [e].
Proof using Type. intros [Hn _]. by apply trace_app. Qed.

Lemma ready_note e s : ready s → removal_warranted (trace s) e → ready (note e s).
Proof using Type. intros (Ho & Hr & Hp) He. split; [|done]. by eapply ok_snoc. Qed.

Lemma view_start c handled s : ready s → knows handled s → view handled c None (note (SawResident path c) s).
Proof using Type.
  intros Hs Hk. split; [by apply ready_note|]. unfold knows, sawLast. rewrite trace_note, omap_app by apply Hs. split_and!.
  - intros fp Hf. by apply safeDigest_app, Hk.
  - simpl. by rewrite decide_True, last_snoc.
  - done.
Qed.

Lemma view_disk c handled r s : view handled r None s → view handled r (Some c) (note (SawDisk path c) s).
Proof using Type.
  intros (Hs & Hk & Hl & _). split; [by apply ready_note|].
  unfold knows, sawLast, sawDiskLast in *. rewrite trace_note, !omap_app by apply Hs. split_and!.
  - intros fp Hf. by apply safeDigest_app, Hk.
  - simpl. by rewrite app_nil_r.
  - intros d [= <-]. simpl. by rewrite decide_True, last_snoc.
Qed.

(** One more digest is safe. *)
Lemma view_safe e fp handled r d s : unseeing e → safeDigest path [e] fp → view handled r d s →
  view ({[fp]} ∪ handled) r d (note e s).
Proof using Type.
  intros He Hfp Hv. pose proof (view_calm _ _ _ _ _ Hv (meanwhile_note e s He)) as (Hs & Hk & Hl & Hd).
  split; [done|]. split; [|done]. intros x [->%elem_of_singleton|Hx]%elem_of_union; [|by apply Hk].
  rewrite trace_note by apply Hv. unfold safeDigest in *. setoid_rewrite elem_of_app. naive_solver.
Qed.

Definition digested (handled : gset string) (content : option string) : Prop :=
  ∀ c, content = Some c → sha256Text (W := W) c ∈ handled.

Lemma view_content handled r d s c : view handled r d s → digested handled c → safeContent path (trace s) c.
Proof using Type. intros (_ & Hk & _) Hc x Hx. by apply Hk, Hc. Qed.

(** A program that only waits *)
Lemma wp_waits {A B} (m : M A) (f : A → M B) (Q : B → State → Prop) s :
  ready s → keeps (meanwhile s) m → (∀ a s', ready s' → meanwhile s s' → wp ready (f a) Q s') → wp ready (m ≫= f) Q s.
Proof using Type.
  intros Hs Hm Hf. apply wp_bind. specialize (Hm s (meanwhile_refl s)). unfold wp in *.
  destruct (m s) as [s' [a|e]]; [|by eapply ready_calm]. apply Hf; [by eapply ready_calm|done].
Qed.

Lemma wp_unlessAborted {A} k (m : M (option A)) (Q : option A → State → Prop) s :
  (ready s → Q None s) → ready s → wp ready m Q s → wp ready (unlessAborted k path m) Q s.
Proof using Type. intros HN Hs Hm. unfold unlessAborted. apply wp_bind, wp_get. case_match; [by apply HN|done]. Qed.

Lemma wp_await_calm {A} (P : State → Prop) (m : M A) (Q : A → State → Prop) s :
  (∀ s s', P s → meanwhile s s' → P s') → (∀ a s s', Q a s → meanwhile s s' → Q a s') → wp P m Q s → wp P (await m) Q s.
Proof using Type.
  intros HP HQ. unfold wp, await. destruct (m s) as [s' [a|e]]; intros H;
    [eapply HQ|eapply HP]; (exact H || (apply (stable_pause (meanwhile s')); [apply _|apply meanwhile_refl])).
Qed.

Lemma keeps_isLagging I `{!Stable I} deleted resident disk : keeps I (isLagging path deleted resident disk).
Proof using Type. unfold isLagging. keeping. Qed.

Lemma wp_fingerprint {B} content (f : string → M B) (Q : B → State → Prop) s :
  ready s → (∀ s', ready s' → meanwhile s s' → wp ready (f (sha256Text content)) Q s') →
  wp ready (fingerprint content ≫= f) Q s.
Proof using Type.
  intros Hs Hf. apply wp_bind. unfold fingerprint. apply wp_waits; [done|apply keeps_pause, _|]. intros [] s' H' Hc.
  by apply wp_ret, Hf.
Qed.

Lemma wp_effect {A} e (f : () → M A) (Q : A → State → Prop) s :
  wp ready (f ()) Q (note e s) → wp ready (effect e ≫= f) Q s.
Proof using Type. done. Qed.

Section looking.
Context {A : Type} (k : QueueKind) (Q : option A → State → Prop) (stopped : ∀ s, ready s → Q None s).

Lemma wp_lookAtResident handled resident (next : option string → M (option A)) s :
  view handled (snd <$> resident) None s →
  (∀ pending s', view handled (snd <$> resident) None s' →
     (pending = None → digested handled (snd <$> resident)) → wp ready (next pending) Q s') →
  wp ready (lookAtResident path k handled resident next) Q s.
Proof using stopped.
  intros Hv Hn. unfold lookAtResident. destruct resident as [[[doc epoch] content]|]; [|by apply Hn].
  apply wp_fingerprint; [apply Hv|]. intros s1 H1 Hc. pose proof (view_calm _ _ _ _ _ Hv Hc) as Hv1.
  apply wp_unlessAborted; [apply stopped|done|]. apply Hn; [done|].
  case_decide; [|done]. intros _. by intros c [= <-].
Qed.

Lemma wp_lookAtDisk deleted handled resident (next : gset string → option string → M (option A)) r s :
  view handled r None s →
  (∀ handled' pending disk s', view handled' r (Some disk) s' → handled ⊆ handled' →
     (pending = None → digested handled' disk) → wp ready (next handled' pending) Q s') →
  wp ready (lookAtDisk path k deleted handled resident next) Q s.
Proof using stopped.
  intros Hv Hn. unfold lookAtDisk. apply wp_bind, wp_get. case_match; simpl.
  { apply wp_effect. eapply Hn; [by apply view_disk|done|]. done. }
  apply wp_waits; [apply Hv|apply keeps_call, _|]. intros disk s1 H1 Hc1. apply wp_effect.
  pose proof (view_disk (Some disk) _ _ _ (view_calm _ _ _ _ _ Hv Hc1)) as Hv1.
  apply wp_unlessAborted; [apply stopped|apply Hv1|]. apply wp_fingerprint; [apply Hv1|]. intros s2 H2 Hc2.
  pose proof (view_calm _ _ _ _ _ Hv1 Hc2) as Hv2.
  apply wp_unlessAborted; [apply stopped|done|]. case_decide as Hin.
  { eapply Hn; [done..|]. intros _. by intros c [= <-]. }
  apply wp_waits; [done|apply keeps_isLagging, _|]. intros lagging s3 H3 Hc3.
  pose proof (view_calm _ _ _ _ _ Hv2 Hc3) as Hv3.
  apply wp_unlessAborted; [apply stopped|done|]. destruct lagging; [|by eapply Hn].
  apply wp_effect. assert (view ({[sha256Text disk]} ∪ handled) r (Some (Some disk))
                      (note (Lagging path (sha256Text disk)) s3)) as Hv4.
  { apply view_safe; [done| |done]. right. left. by left. }
  eapply Hn; [exact Hv4|set_solver|]. intros _ c [= <-]. set_solver.
Qed.
End looking.

Definition copied {A} (r : option A) s : Prop := ready s ∧ (is_Some r → covered path (trace s)).

Lemma copied_stopped {A} s : ready s → copied (@None A) s.
Proof using Type. intros Hs. split; [done|]. by intros [? [=]]. Qed.

Lemma copied_calm {A} (r : option A) s s' : copied r s → meanwhile s s' → copied r s'.
Proof using Type.
  intros [Hs Hr] Hc. split; [by eapply ready_calm|]. intros H. eapply covered_quiet; [apply Hs|apply Hc|auto].
Qed.

Lemma wp_preserveLoop n k deleted handled copies s :
  ready s → knows handled s → wp ready (preserveLoop n path k deleted handled copies) copied s.
Proof using Type.
  revert handled copies s. induction n as [|n IH]; intros handled copies s Hs Hk; [exact Hs|]. cbn [preserveLoop].
  apply wp_bind, wp_get, wp_effect. set (resident := residentContent path k s).
  pose proof (view_start (snd <$> resident) handled s Hs Hk) as Hv.
  assert (∀ handled' content d s', view handled' (snd <$> resident) d s' →
    wp ready (fp ← fingerprint content;
      destination ← preserveTextConflict path content SourceLocal;
      effect (Preserved path destination content) ≫= λ _,
      unlessAborted k path (preserveLoop n path k deleted ({[fp]} ∪ handled') (copies ++ [destination]))) copied s')
    as Hcopy.
  { intros handled' content d s1 Hv1. apply wp_fingerprint; [apply Hv1|]. intros s2 H2 Hc2.
    apply wp_waits; [done|apply keeps_vault_preserve, _|]. intros destination s3 H3 Hc3. apply wp_effect.
    pose proof (view_calm _ _ _ _ _ (view_calm _ _ _ _ _ Hv1 Hc2) Hc3) as Hv3.
    assert (view ({[sha256Text content]} ∪ handled') (snd <$> resident) d
              (note (Preserved path destination content) s3)) as (H4 & Hk4 & _).
    { apply view_safe; [done| |done]. right. right. eexists _, _. by split; [left|]. }
    apply wp_unlessAborted; [apply copied_stopped|done|]. by apply IH. }
  apply wp_lookAtResident; [apply copied_stopped|done|]. intros [content|] s1 Hv1 Hr1; [by eapply Hcopy|].
  eapply wp_lookAtDisk; [apply copied_stopped|done|]. intros handled' [content|] disk s2 Hv2 Hsub Hd2; [by eapply Hcopy|].
  apply wp_ret. split; [apply Hv2|]. intros _. exists (snd <$> resident), disk.
  pose proof Hv2 as (_ & _ & Hl & Hd). split_and!; [exact Hl|by apply Hd|..]; apply (view_content _ _ _ _ _ Hv2); [|by apply Hd2].
  intros c Hc. by apply Hsub, Hr1.
Qed.

Lemma wp_preserveUnacknowledged k deleted s :
  ready s → wp ready (preserveUnacknowledgedVersions path k deleted) copied s.
Proof using Type.
  intros Hs. apply wp_await_calm; [exact ready_calm|exact (@copied_calm (list string))|].
  apply wp_bind, wp_get. destruct (LocalState.truthy deleted ≫= _) as [fp|].
  - apply wp_effect. apply wp_preserveLoop; [by apply ready_note|]. intros x ->%elem_of_singleton.
    rewrite trace_note by apply Hs. left. apply elem_of_app. right. by left.
  - apply wp_preserveLoop; [done|]. intros x []%elem_of_empty.
Qed.

(** ** Removing *)

Definition allowed s : Prop := path ∈ remoteDeletePreserved s0 ∨ covered path (trace s).

(** What a path is noted as preserved for, it may be removed for. *)
Definition noted s : Prop :=
  ok s ∧ runningDelete s = Some path ∧ (path ∈ remoteDeletePreserved s → allowed s).

Lemma allowed_calm s s' : ok s → allowed s → meanwhile s s' → allowed s'.
Proof using Type. intros Hs [Ha|Ha] [Hq _]; [by left|]. right. by eapply covered_quiet. Qed.

Lemma noted_calm s s' : noted s → meanwhile s s' → noted s'.
Proof using Type.
  intros (Hs & Hr & Ha) Hc. pose proof Hc as (Hq & R & P). split; [by eapply ok_quiet|]. rewrite R. split; [done|].
  intros Hp. eapply allowed_calm; [done| |done]. auto.
Qed.

Lemma noted_ready s : ready s → noted s.
Proof using Type. intros (Hs & Hr & Hp). split; [done|]. split; [done|]. by intros ?%Hp. Qed.

Lemma meanwhile_evolving f s : Evolving f → meanwhile s (f s).
Proof using Type. intros Hf. apply meanwhile_evolves, Hf, ev_refl. Qed.

Lemma exists_removed p clear s : localFileExists p (removeStructuredDocument p clear (removeDocument p clear s)) =
  localFileExists p s.
Proof using Type.
  unfold removeStructuredDocument, removeDocument, destroyDoc. by repeat case_match.
Qed.

Lemma wp_quiet_update f s : noted s → Evolving f → wp noted (update f : M ()) (λ _, noted) s.
Proof using Type. intros Hs Hf. apply wp_update. eapply noted_calm; [done|]. by apply meanwhile_evolving. Qed.

Lemma wp_removeFile s : noted s → allowed s →
  wp noted (update (λ s, s <| remoteDeletesApplying ::= union {[path]} |>) ≫= λ _,
            effect (Removed path false) ≫= λ _,
            finally (call (deleteFile path)) (λ s, s <| remoteDeletesApplying ::= λ p, p ∖ {[path]} |>))
    (λ _, noted) s.
Proof using Type.
  intros Hs Ha. apply wp_bind, wp_update. set (s1 := s <| remoteDeletesApplying ::= _ |>).
  assert (meanwhile s s1) as Hc by by apply meanwhile_same.
  pose proof (noted_calm _ _ Hs Hc) as H1. pose proof (allowed_calm _ _ (proj1 Hs) Ha Hc) as Ha1. clearbody s1.
  apply wp_bind, wp_update. set (e := Removed path false). assert (noted (note e s1)) as H2.
  { destruct H1 as (Ho & Hr & _). assert (ok (note e s1)) as Ho' by by apply (ok_snoc s1 _ e).
    split; [done|]. split; [done|]. intros _. destruct Ha1 as [Ha1|Ha1]; [by left|]. right.
    rewrite trace_note by done. apply covered_app; [by constructor|done]. }
  apply wp_finally. assert (keeps (meanwhile (note e s1)) (call (deleteFile path) : M ())) as Hk by apply keeps_call, _.
  specialize (Hk _ (meanwhile_refl _)). unfold wp in *. destruct (call _ _) as [s2 [[]|x]];
    (apply (noted_calm s2); [by eapply noted_calm|by apply meanwhile_same]).
Qed.

Lemma wp_deleteLocalFile k s :
  noted s → (localFileExists path s = true → allowed s) →
  wp noted (deleteLocalFile path k) (λ _, noted) s.
Proof using Type.
  intros Hs Ha. unfold deleteLocalFile. apply wp_bind, wp_get. case_match eqn:Hab; [done|]. cbv zeta.
  apply wp_bind, wp_update. set (clear := deletedStoreDisposable path s).
  pose proof (exists_removed path clear s) as He.
  assert (meanwhile s (removeStructuredDocument path clear (removeDocument path clear s))) as Hc.
  { apply (meanwhile_trans _ (removeDocument path clear s)); by apply meanwhile_evolving, _. }
  set (s1 := removeStructuredDocument _ _ _) in *. clearbody s1. pose proof (noted_calm _ _ Hs Hc) as H1.
  apply wp_bind, wp_get. case_match eqn:Hag; [done|]. apply wp_bind.
  assert (∀ s, noted s → wp noted (s ← get (λ s, s);
      if destroyed s then mret ()
      else if listed k path s then update (rematerializeReintroducedPath path)
      else update (λ s, (local (LocalState.remove path) s) <| remoteDeletePreserved ::= λ p, p ∖ {[path]} |>) : M ())
      (λ _, noted) s) as Htail.
  { intros s2 H2. apply wp_bind, wp_get. case_match; [done|]. case_match; apply wp_quiet_update; try done; [apply _|].
    intros ? ? ?. evolve. }
  destruct (localFileExists path s1) eqn:Hex; [|by apply wp_ret, Htail].
  simpl in Hag. unfold aborted in Hag. bools. replace (listed k path s1) with false by done.
  apply (wp_mono _ _ (λ _, noted)); [intros [] s2; apply Htail|]. apply wp_removeFile; [done|].
  eapply allowed_calm; [apply Hs|apply Ha; by rewrite <- He|done].
Qed.

(** ** The whole delete *)

Lemma keeps_calm_update s1 f : Evolving f → keeps (meanwhile s1) (update f : M ()).
Proof using Type. intros Hf. apply keeps_update. intros s Hs. eapply meanwhile_trans; [exact Hs|]. by apply meanwhile_evolving. Qed.

Lemma keeps_calm_effect s1 e : unseeing e → keeps (meanwhile s1) (effect e : M ()).
Proof using Type. intros He. apply keeps_update. intros s Hs. eapply meanwhile_trans; [exact Hs|]. by apply meanwhile_note. Qed.

Lemma keeps_applyRemoteRename s1 k guid : keeps (meanwhile s1) (applyRemoteRename path k guid).
Proof using Type.
  unfold applyRemoteRename. 
  repeat match goal with
  | |- keeps _ (update _) => apply keeps_calm_update; first [apply _ | intros ? ? ?; evolve]
  | |- keeps _ (effect _) => by apply keeps_calm_effect
  | |- _ => keeps_step
  end.
Qed.

Lemma wp_noted_waits {A B} (m : M A) (f : A → M B) (Q : B → State → Prop) s :
  noted s → keeps (meanwhile s) m → (∀ a s', noted s' → meanwhile s s' → wp noted (f a) Q s') → wp noted (m ≫= f) Q s.
Proof using Type.
  intros Hs Hm Hf. apply wp_bind. specialize (Hm s (meanwhile_refl s)). unfold wp in *.
  destruct (m s) as [s' [a|e]]; [|by eapply noted_calm]. apply Hf; [by eapply noted_calm|done].
Qed.

(** The copies made, the path is noted, if there were any. *)
Lemma noted_preserved copies s : copied (Some copies) s →
  noted (notePreserved path copies s) ∧ allowed (notePreserved path copies s).
Proof using Type.
  intros [Hs Hc]. specialize (Hc (mk_is_Some _ _ eq_refl)). pose proof (noted_ready s Hs) as Hn.
  unfold notePreserved. destruct copies as [|c copies]; [by split; [|right]|].
  set (e := Notice _ path). set (s1 := s <| remoteDeletePreserved ::= _ |>).
  assert (quiet s (note e s1)) as Hq by by apply (quiet_snoc _ _ e).
  assert (allowed (note e s1)) as Ha by (right; by eapply (covered_quiet s); [apply Hs|..]).
  split; [|done]. split; [eapply ok_quiet; [apply Hs|done]|]. split; [apply Hs|done].
Qed.

Lemma wp_reconcileDelete k deleted s :
  noted s → wp noted (reconcileDelete path k deleted) (λ _, noted) s.
Proof using Type.
  intros Hs. unfold reconcileDelete. apply wp_bind, wp_get. case_match; [done|]. cbv zeta.
  set (file := localFileExists path s).
  assert (∀ s, noted s → (file = false → localFileExists path s = false) →
    wp noted (preserved ← get (λ s, bool_decide (path ∈ remoteDeletePreserved s));
      if file && negb preserved then
        copies ← preserveUnacknowledgedVersions path k deleted;
        match copies with
        | None => mret ()
        | Some copies => update (notePreserved path copies) ≫= λ _, deleteLocalFile path k
        end
      else deleteLocalFile path k : M ()) (λ _, noted) s) as Hrest.
  { intros s1 H1 Hf. apply wp_bind, wp_get. case_bool_decide as Hp.
    { rewrite andb_false_r. apply wp_deleteLocalFile; [done|]. intros _. by apply H1. }
    destruct file; simpl; [|apply wp_deleteLocalFile; [done|]; intros Hx; by rewrite Hf in Hx].
    assert (ready s1) as Hr by by split; [apply H1|split; [apply H1|]].
    apply wp_bind. pose proof (wp_preserveUnacknowledged k deleted s1 Hr) as Hw. unfold wp in Hw |- *.
    destruct (preserveUnacknowledgedVersions path k deleted s1) as [s2 [copies|e]]; [|by apply noted_ready].
    destruct copies as [copies|]; [|by apply noted_ready, Hw].
    destruct (noted_preserved copies s2 Hw) as [Hn Ha]. by apply wp_deleteLocalFile. }
  destruct (LocalState.truthy deleted) as [guid|]; [|by apply Hrest].
  destruct (file && _) eqn:Hren; [|by apply Hrest].
  apply wp_noted_waits; [done|apply keeps_applyRemoteRename|]. intros [] s1 H1 _; [done|]. apply Hrest; [done|].
  intros Hf. by rewrite Hf in Hren.
Qed.

Lemma wp_reconcileRemoteDelete k deleted s :
  noted s → wp noted (reconcileRemoteDelete path k deleted) (λ _, noted) s.
Proof using Type.
  intros Hs. unfold reconcileRemoteDelete. apply wp_await_calm; [exact noted_calm|intros _; exact noted_calm|].
  apply wp_catch. pose proof (wp_reconcileDelete k deleted s Hs) as Hw. unfold wp in *.
  destruct (reconcileDelete path k deleted s) as [s1 [[]|e]]; [done|]. intros _. 
  eapply noted_calm; [exact Hw|]. case_match; [apply meanwhile_refl|by apply meanwhile_same].
Qed.

Lemma wp_deleteLoop n k deleted s : noted s → wp noted (deleteLoop n path k deleted) (λ _, noted) s.
Proof using Type.
  revert k deleted s. induction n as [|n IH]; intros k deleted s Hs; [done|]. cbn [deleteLoop].
  apply wp_bind, wp_update, wp_bind. eapply wp_mono; [|apply wp_reconcileRemoteDelete].
  - intros [] s1 H1. apply wp_bind, wp_get. case_match; [|done]. case_match. by apply IH.
  - eapply noted_calm; [exact Hs|by apply meanwhile_same].
Qed.

Lemma runDelete_warranted k deleted : ok (fst (runDelete path k deleted s0)).
Proof using Type.
  set (s1 := s0 <| runningDelete := Some path |>). assert (noted s1) as Hn.
  { split; [|split; [done|intros Hp; by left]]. split; [done|]. intros pre e post E. exfalso.
    unfold trace in E. rewrite drop_ge in E by done. by destruct pre. }
  pose proof (wp_deleteLoop vaultFuel k deleted s1 Hn) as Hw. unfold runDelete, finally, wp, mbind, eff_bind, update in *.
  fold s1. by destruct (deleteLoop vaultFuel path k deleted s1) as [s2 [[]|e]]; apply Hw.
Qed.
End delete.

(** ** The rounds end *)

Section rounds.
Context {W : Type} `{!Platform W}.
Notation State := (@VaultSync W).
Notation M := (eff State Err).
Implicit Types (s : State).

(** Programs that begin alike, and go on alike with whatever came of it *)
Lemma bind_ext {A B} (m : M A) (f g : A → M B) s :
  (∀ a s', m s = (s', Returns a) → f a s' = g a s') → (m ≫= f) s = (m ≫= g) s.
Proof using Type. unfold mbind, eff_bind. destruct (m s) as [s' [a|e]]; auto. Qed.

Lemma unlessAborted_ext {A} k path (m m' : M (option A)) s :
  m s = m' s → unlessAborted k path m s = unlessAborted k path m' s.
Proof using Type. intros E. apply bind_ext. intros b s' [= <- <-]. by case_match. Qed.

(** The digests of all the file and the document ever hold *)
Context (digests : gset string).
Hypothesis read_digests : ∀ p w t, snd (readText (VaultApi := vault) p w) = Returns t → sha256Text (W := W) t ∈ digests.
Hypothesis doc_digests : ∀ i w, sha256Text (W := W) (docContent i w) ∈ digests.

(** A version that no round has seen yet *)
Definition unhandled (handled : gset string) (pending : option string) : Prop :=
  ∀ c, pending = Some c → sha256Text (W := W) c ∈ digests ∖ handled.

Lemma residentContent_digest path k s doc epoch c :
  residentContent path k s = Some (doc, epoch, c) → sha256Text (W := W) c ∈ digests.
Proof using doc_digests. unfold residentContent. intros H. repeat case_match; try done. injection H as <- <- <-. apply doc_digests. Qed.

Lemma fingerprint_returns c (s s' : State) fp : fingerprint c s = (s', Returns fp) → fp = sha256Text c.
Proof using Type. unfold fingerprint, mbind, eff_bind. destruct (pause s) as [? [?|?]]; by inversion 1. Qed.

Lemma lookAtResident_ext {A} path k handled resident (f g : option string → M (option A)) s :
  (∀ doc epoch c, resident = Some (doc, epoch, c) → sha256Text (W := W) c ∈ digests) →
  (∀ pending s', unhandled handled pending → f pending s' = g pending s') →
  lookAtResident path k handled resident f s = lookAtResident path k handled resident g s.
Proof using Type.
  clear read_digests doc_digests. intros Hd Hfg.
  unfold lookAtResident. destruct resident as [[[doc epoch] c]|]; [|by apply Hfg].
  apply bind_ext. intros fp s1 ->%fingerprint_returns.
  apply unlessAborted_ext, Hfg. case_decide; [done|]. intros ? [= <-]. specialize (Hd _ _ _ eq_refl). set_solver.
Qed.

Lemma lookAtDisk_ext {A} path k deleted handled resident (f g : gset string → option string → M (option A)) s :
  (∀ handled' pending s', handled ⊆ handled' → unhandled handled' pending → f handled' pending s' = g handled' pending s') →
  lookAtDisk path k deleted handled resident f s = lookAtDisk path k deleted handled resident g s.
Proof using read_digests.
  clear doc_digests. intros Hfg. unfold lookAtDisk. apply bind_ext. intros there s1 _. case_match.
  { apply bind_ext. intros _ s2 _. by apply Hfg. }
  apply bind_ext. intros disk s2 E. assert (sha256Text (W := W) disk ∈ digests) as Hd.
  { unfold call in E. destruct (readText path (worldOf s1)) as [[w ms] r] eqn:Er. injection E as _ ->.
    apply (read_digests path (worldOf s1)). by rewrite Er. }
  clear read_digests. apply bind_ext. intros _ s3 _. apply unlessAborted_ext, bind_ext. intros fp s4 ->%fingerprint_returns.
  apply unlessAborted_ext. case_decide as Hin; [by apply Hfg|].
  apply bind_ext. intros lagging s5 _. apply unlessAborted_ext. destruct lagging.
  - apply bind_ext. intros _ s6 _. apply Hfg; [set_solver|done].
  - apply Hfg; [done|]. intros c [= <-]. set_solver.
Qed.

(** Every round but the last copies a version that no round saw before it. *)
Lemma preserveLoop_rounds path k deleted n n' handled copies s :
  (size (digests ∖ handled) < n)%nat → (size (digests ∖ handled) < n')%nat →
  preserveLoop n path k deleted handled copies s = preserveLoop n' path k deleted handled copies s.
Proof using read_digests doc_digests.
  revert n' handled copies s. induction n as [|n IH]; intros [|n'] handled copies s Hn Hn'; try lia.
  cbn [preserveLoop]. apply bind_ext. intros resident s1 [= <- <-]. apply bind_ext. intros _ s2 _.
  assert (∀ handled' c s, handled ⊆ handled' → sha256Text (W := W) c ∈ digests ∖ handled' →
    (fp ← fingerprint c;
     destination ← preserveTextConflict path c SourceLocal;
     effect (Preserved path destination c) ≫= λ _,
     unlessAborted k path (preserveLoop n path k deleted ({[fp]} ∪ handled') (copies ++ [destination]))) s =
    (fp ← fingerprint c;
     destination ← preserveTextConflict path c SourceLocal;
     effect (Preserved path destination c) ≫= λ _,
     unlessAborted k path (preserveLoop n' path k deleted ({[fp]} ∪ handled') (copies ++ [destination]))) s) as Hcopy.
  { clear read_digests doc_digests. intros handled' c s3 Hsub Hc. apply bind_ext. intros fp s4 ->%fingerprint_returns.
    apply bind_ext. intros destination s5 _. apply bind_ext. intros _ s6 _. apply unlessAborted_ext.
    assert (size (digests ∖ ({[sha256Text c]} ∪ handled')) < size (digests ∖ handled))%nat by (apply subset_size; set_solver).
    apply IH; lia. }
  apply lookAtResident_ext; [by intros ? ? ?; apply residentContent_digest|].
  intros [c|] s3 Hc; [apply Hcopy; [done|by apply Hc]|].
  apply lookAtDisk_ext. intros handled' [c|] s4 Hsub Hc'; [|done]. apply Hcopy; [done|by apply Hc'].
Qed.

(** C26: The search for versions to copy aside ends by itself: when the file
    and the document only ever hold content of finitely many digests, it is
    over within one round more than there are digests it does not know to be
    safe, and allowing it more rounds changes nothing. *)
Theorem preserving_ends path k deleted handled copies s n :
  (size (digests ∖ handled) < n)%nat →
  preserveLoop n path k deleted handled copies s =
  preserveLoop (S (size (digests ∖ handled))) path k deleted handled copies s.
Proof using read_digests doc_digests. intros Hn. apply preserveLoop_rounds; [done|lia]. Qed.
End rounds.

(** ** The claims *)

Section claims.
Context {W : Type} `{!Platform W}.
Notation State := (@VaultSync W).
Implicit Types (s : State).

Lemma evolves_effects (H : Effect → Prop) s s' : evolves H s s' → ∃ l, effects s' = effects s ++ l.
Proof using Type.
  induction 1 as [s|s1 s2 s3 _ [l1 E1] _ [l2 E2]|s s' E|e s He|p s|p s|p s|k p guid s Hr|k p doc s Hr|s|item doc waits s Ha
    |i slot s Hi|s|p s|p s Hp|r s Hr]; try (exists []; by rewrite app_nil_r); try (eexists; reflexivity).
  - exists (l1 ++ l2). by rewrite E2, E1, (assoc_L (++)).
  - exists []. unfold core in E. injection E as E. by rewrite E, app_nil_r.
  - exists []. rewrite app_nil_r. by destruct k.
  - exists []. rewrite app_nil_r. by destruct k.
  - exists []. rewrite app_nil_r. by case_match.
Qed.

(** C4: A remote delete removes the local file only while the index lists
    nothing at its path.  By then, unless an earlier attempt at the same
    delete has copied the file's versions aside already, it has looked at the
    open document and at the file, and what it last saw of each is content the
    server has acknowledged for the deleted identity, or that the store of
    the document holds, or that it has copied aside. *)
Theorem remote_delete_safe path k deleted s :
  ∃ l, effects (fst (runTask (RemoteDelete path k deleted) s)) = effects s ++ l ∧
  ∀ pre p replaced post, l = pre ++ Removed p replaced :: post → removable s path pre p replaced.
Proof using Type.
  destruct (evolves_effects neutral s (fst (runTask (RemoteDelete path k deleted) s))) as [l E].
  { pose proof (keeps_vault_task s (RemoteDelete path k deleted) s (ev_refl _ s)) as H. unfold wp in H.
    by destruct (runTask _ s) as [s' [a|e]]. }
  exists l. split; [done|]. cbn [runTask] in E. unfold mbind, eff_bind, update in E.
  set (s1 := s <| begunDeletes ::= _ |>) in E. destruct (runDelete_warranted s1 path k deleted) as [_ Hw].
  intros pre p replaced post ->. apply (Hw pre (Removed p replaced) post). unfold trace. simpl.
  by rewrite E, drop_app_length.
Qed.
End claims.

(** ** A small vault *)

Module DeleteRun.
(** The note was acknowledged as "synced"; the disk has what is given. *)
Definition known : LocalState.LocalSyncState :=
  LocalState.markSynced note_md LocalState.KText "guid" "synced" true emptyLocal.

Definition vaultWith (text : string) (failing : nat) (later : list (list (string * string) * list Move)) : @VaultSync Disk :=
  device (mkDisk {[note_md := text]} ∅ [note_md] failing later) [(note_md, "guid"%string)] known.

(** Another device deletes the note; what this one does then *)
Definition gone : Move := RemoteTransaction [FilesDelete note_md].
Definition deletion : Task := RemoteDelete note_md QText (Some "guid"%string).
Definition afterwards (s : @VaultSync Disk) : @VaultSync Disk := run s [inr gone; inl deletion].

Definition left (s : @VaultSync Disk) : list (string * string) := map_to_list (texts (world s)).
Definition copy_md : string := "note (conflicted copy laptop 20250101 120000).md".

(** An acknowledged note is removed, an edited one is copied aside first. *)
Example removed_or_copied :
  left (afterwards (vaultWith "synced" 0 [])) = [] ∧
  left (afterwards (vaultWith "edited" 0 [])) = [(copy_md, "edited"%string)].
Proof. by vm_compute. Qed.

Definition start : @VaultSync Disk := move gone (vaultWith "edited" 0 []).

Lemma remote_delete_safe_witness :
  let seen := [SawResident note_md None; SawDisk note_md (Some "edited"%string)] in
  covered (W := Disk) note_md
    (Acknowledged note_md "synced" :: seen ++ Preserved note_md copy_md "edited" :: seen ++
     [Notice "deleted remotely, preserved your local version" note_md]).
Proof.
  destruct (remote_delete_safe note_md QText (Some "guid"%string) start) as (l & E & H).
  vm_compute in E. subst l.
  destruct (H [_; _; _; _; _; _; _] note_md false [] eq_refl) as (_ & _ & [Hp|Hc]); [|exact Hc].
  exfalso. revert Hp. apply not_elem_of_empty.
Defined.

(** The deletion of the file fails once, and an edit comes before the retry,
    which does not look at the file again: the edit is removed uncopied. *)
Example retry_removes_newer_edit :
  let s := afterwards (vaultWith "edited" 1 (replicate 7 ([], []) ++ [([(note_md, "newer"%string)], [])])) in
  left s = [(note_md, "newer"%string); (copy_md, "edited"%string)] ∧
  left (run s [inr (DeleteRetried 0); inl deletion]) = [(copy_md, "edited"%string)].
Proof. by vm_compute. Qed.

(** A hash with two values *)
Definition parity (t : string) : string := if String.eqb t "synced" then "s" else "e".

Lemma preserving_ends_witness :
  let _ := hashing parity in
  preserveLoop 9 note_md QText None {["s"%string]} [] (vaultWith "edited" 0 []) =
  preserveLoop 2 note_md QText None {["s"%string]} [] (vaultWith "edited" 0 []).
Proof.
  assert (∀ t, parity t ∈ ({["s"%string; "e"%string]} : gset string)) as Hp.
  { intros t. unfold parity. case_match; set_solver. }
  pose proof (@preserving_ends Disk (hashing parity) {["s"%string; "e"%string]} (λ p w t _, Hp t) (λ i w, Hp _)
    note_md QText None {["s"%string]} [] (vaultWith "edited" 0 []) 9) as H.
  assert (size (({["s"%string; "e"%string]} : gset string) ∖ {["s"%string]}) = 1%nat) as E by (vm_compute; reflexivity).
  rewrite E in H. apply H. lia.
Defined.
End DeleteRun.
