(* ===== verification/ConfigSync.v ===== *)
(** [src/ConfigSync.ts]: settings sync.  The files of the configuration folder
    are kept in step with the entries [configFiles] of the shared index and
    the blobs these name.

    The vault's adapter, the blob server, the hash, UTF-8 and JSON text are
    parameters.  Every awaited call of the answers as it likes, or
    throws, and tells what happened meanwhile ([Move]): other clients change
    the index, the user pauses or closes the vault, timers fire, other passes
    ask for a reconciliation.  Reconciliations of other paths touch other
    entries only and are left out; those of one path never overlap, being
    chained, and wait in [queued].  A whole pass that is asked for waits in
    [passes]. *)
From Stdlib Require Import String Ascii.
From S2P Require Import Prelude Effects TraceLogic Await JsString JsMap Json Lineage ConfigCategories ConflictCopy.
From S2P Require LocalState.
#[local] Open Scope Z_scope.

Notation bytes := (list Byte.byte).
Notation LocalSyncState := LocalState.LocalSyncState.
Notation KConfig := LocalState.KConfig.
#[local] Existing Instance LocalState.MaterializedKind_eq_dec.

(** An index entry: its version, as [lineage.ts] reads it, size and time. *)
Record ConfigMeta := mkMeta { version : VersionedEntry; size : Z; mtime : Z }.
Definition mhash (m : ConfigMeta) : string := hash (version m).
Definition mprev (m : ConfigMeta) : option (option string) := prev (version m).

Inductive ConfigReconcileAction :=
  ANone | AUpload | ADownload | ADeleteLocal | ADeleteRemote | AMerge.
#[export] Instance ConfigReconcileAction_eq_dec : EqDecision ConfigReconcileAction.
Proof. solve_decision. Defined.

(** [replacedHash] and [ownBase] may be left out. *)
Record DecideOpts := mkOpts {
  initialPullOpt : bool;
  canMerge : bool;
  replacedHash : option (option string);
  ownBase : option bool }.

Definition decideConfigReconcile (local remote : option ConfigMeta) (base : option string)
    (opts : DecideOpts) : ConfigReconcileAction :=
  if bool_decide (mhash <$> local = mhash <$> remote) then ANone
  else match local, remote with
  | Some l, None =>
    if bool_decide (base = None) then AUpload
    else if bool_decide (base = Some (mhash l)) then ADeleteLocal
    else AUpload
  | None, Some r =>
    if bool_decide (base = Some (mhash r)) && negb (initialPullOpt opts) then ADeleteRemote
    else ADownload
  | Some l, Some r =>
    let conflict :=
      if canMerge opts then AMerge
      else if mtime r <=? mtime l then AUpload else ADownload in
    match base with
    | None => ADownload
    | Some b =>
      if bool_decide (b = mhash r) then AUpload
      else if bool_decide (b = mhash l) then
        if descendsFrom (version r) b then ADownload
        else if bool_decide (replacedHash opts = Some (Some (mhash r))) then AUpload
        else if bool_decide (ownBase opts = Some false) then ADownload
        else if bool_decide (mprev r = None) then ADownload
        else conflict
      else conflict
    end
  | None, None => ANone
  end.

Definition isPlainObject (v : JsonValue) : bool :=
  match v with JObject _ _ => true | _ => false end.

(** [{ ...remote, ...local }]: the result inherits from [Object]. *)
Definition spread (remote local : JsonValue) : JsonValue :=
  JObject ObjectPrototype
    (foldl (λ m x, jm_set x.1 x.2 m) (foldl (λ m x, jm_set x.1 x.2 m) [] (fieldsOf remote)) (fieldsOf local)).

Definition POLL_MS : Z := 15000.
Definition RETRY_MS : Z := 2000.
Definition RELOAD_NOTICE_DEBOUNCE_MS : Z := 2000.
Definition HASH_REVALIDATE_MS : Z := 5 * 60000.

Record HashCacheEntry := mkCache { csize : Z; cmtime : Z; chash : string; checkedAt : Z }.

Inductive Pass := InitialPass | ReconcilePass | RetryPass | PollPass.

(** What a reconciliation caused, and what it saw, for the specification:
    [Observed] is the file [localInfo] answered, [Published] and [Unpublished]
    carry the entry that was replaced.  [Wrote] and [Removed] are recorded when
    the call is made, the rest when it has succeeded. *)
Inductive Effect :=
  | Observed (path : string) (info : option ConfigMeta)
  | Read (path : string) (content : bytes)
  | Fetched (h : string) (content : bytes)
  | Uploaded (h : string)
  | Wrote (path : string) (content : bytes)
  | Removed (path : string)
  | Preserved (path copy : string) (content : bytes)
  | Published (path : string) (replaced : option ConfigMeta) (meta : ConfigMeta)
  | Unpublished (path : string) (replaced : option ConfigMeta)
  | Notice (text : string).

(** What happens while a call is awaited *)
Inductive Move :=
  | IndexSet (path : string) (meta : ConfigMeta)
  | IndexDelete (path : string)
  | PausedSet (b : bool)
  | DestroyCalled
  | StartCalled (categories : list ConfigCategoryId)
  | Requested (path : string)
  | WritingReleased
  | RetryFired (path : string)
  | PollFired
  | ReloadFired.

Inductive Err := AlreadyExists | OtherError | OutOfFuel.

Abbreviation Call W A := (Call W Move Err A).

(** The platform: [W] is the state of the disk, the server and the clock.
    [fuel] is how many rounds the search for a free copy name gets, and how
    deep the walk over the folder goes. *)
Class Platform (W : Type) := {
  exists_ : string → Call W bool;
  stat : string → Call W (option (Z * Z));                  (* size, mtime *)
  readBinary : string → Call W bytes;
  writeBinary : string → bytes → Call W ();
  remove_ : string → Call W ();
  mkdir : string → Call W ();
  list_ : string → Call W (list string * list string);      (* files, folders *)
  getBlob : option string → string → Call W bytes;
  blobExists : string → string → Call W bool;
  putBlob : string → string → bytes → Call W ();
  settle : W → W * list Move;                               (* an [await] that asks nothing *)
  now : W → Z;
  sha256 : bytes → string;
  encode : string → bytes;
  decode : bytes → string;
  parseJson : string → option JsonValue;
  stringify : JsonValue → string;
  normalizePath : string → string;
  clientLabel : string;
  stamp : Z → string;
  configRoot : string;
  fuel : nat }.

Section configSync.
Context {W : Type} `{!Platform W}.

Record ConfigSync := mkConfigSync {
  world : W;
  configFiles : jsmap string ConfigMeta;
  localSyncState : option LocalSyncState;
  enabledCategories : list ConfigCategoryId;
  lastSyncedHash : gmap string string;
  hashCache : gmap string HashCacheEntry;
  queued : list string;
  writing : gset string;
  releasing : list string;      (* the timers that end a [writing] *)
  pendingDownloads : gmap string string;
  retryTimers : gset string;
  pollTimer : bool;
  started : bool;
  paused : bool;
  pauseGeneration : Z;
  destroyed : bool;
  initialPull : bool;
  initialPullComplete : bool;
  reloadNoticeTimer : bool;
  observing : bool;             (* [configFiles.observe] and the focus listener *)
  passes : list Pass;
  effects : list Effect }.
#[export] Instance eta_ConfigSync : Eta ConfigSync := λ r,
  mkConfigSync (world r) (configFiles r) (localSyncState r) (enabledCategories r)
    (lastSyncedHash r) (hashCache r) (queued r) (writing r) (releasing r) (pendingDownloads r)
    (retryTimers r) (pollTimer r) (started r) (paused r) (pauseGeneration r) (destroyed r)
    (initialPull r) (initialPullComplete r) (reloadNoticeTimer r) (observing r) (passes r) (effects r).

Notation M := (eff ConfigSync Err).

Definition effect (e : Effect) : M () := update (λ s, s <| effects ::= λ l, l ++ [e] |>).

(** ** Which paths *)

Definition hardExcludeDir : string := (configRoot ++ "/plugins/realtime")%string.

Definition isHardExcluded (path : string) : bool :=
  String.eqb path hardExcludeDir || startsWith (hardExcludeDir ++ "/") path ||
  bool_decide ("node_modules"%string ∈ split "/"%char path).

Definition syncableCategory (path : string) (s : ConfigSync) : option ConfigCategoryId :=
  if isHardExcluded path || isConflictCopy normalizePath path then None
  else match categoryForVaultPath path configRoot with
       | Some category => if bool_decide (category ∈ enabledCategories s) then Some category else None
       | None => None
       end.

Definition canApply (generation : Z) (s : ConfigSync) : bool :=
  negb (destroyed s) && negb (paused s) && (pauseGeneration s =? generation).

(** ** What runs without waiting *)

(** [void this.reconcile(path)] *)
Definition reconcile (path : string) (s : ConfigSync) : ConfigSync :=
  match syncableCategory path s with
  | None => s
  | Some _ => if bool_decide (path ∈ writing s) then s else s <| queued ::= λ l, l ++ [path] |>
  end.

Definition onConfigFilesChanged (path : string) (s : ConfigSync) : ConfigSync :=
  if negb (observing s) || destroyed s || negb (started s) || paused s then s
  else if isHardExcluded path then s else reconcile path s.

Definition indexSet (path : string) (meta : ConfigMeta) (s : ConfigSync) : ConfigSync :=
  onConfigFilesChanged path (s <| configFiles ::= jm_set path meta |>).

(** Deleting a key that is not there is no change. *)
Definition indexDelete (path : string) (s : ConfigSync) : ConfigSync :=
  if jm_has path (configFiles s) then onConfigFilesChanged path (s <| configFiles ::= jm_delete path |>) else s.

Definition scheduleRetry (path : string) (s : ConfigSync) : ConfigSync :=
  if destroyed s || bool_decide (path ∈ retryTimers s) then s
  else s <| retryTimers ::= λ t, {[path]} ∪ t |>.

Definition noteDownloaded (path : string) (s : ConfigSync) : ConfigSync :=
  match syncableCategory path s with
  | Some category => if categoryRequiresReload category then s <| reloadNoticeTimer := true |> else s
  | None => s
  end.

Definition schedulePoll (s : ConfigSync) : ConfigSync :=
  if destroyed s || paused s || pollTimer s then s else s <| pollTimer := true |>.

(** [void this.runInitialPull()], up to its first [await] *)
Definition requestInitialPull (s : ConfigSync) : ConfigSync :=
  if paused s then s else s <| initialPull := true |> <| passes ::= λ l, l ++ [InitialPass] |>.

Definition start (categories : list ConfigCategoryId) (s : ConfigSync) : ConfigSync :=
  if destroyed s then s
  else
    let s := s <| enabledCategories := categories |> in
    if started s then requestInitialPull s
    else schedulePoll (requestInitialPull (s <| started := true |>)).

Definition setPaused (b : bool) (s : ConfigSync) : ConfigSync :=
  if destroyed s || bool_decide (paused s = b) then s
  else
    let s := s <| paused := b |> <| pauseGeneration ::= Z.add 1 |> in
    if b && pollTimer s then s <| pollTimer := false |>
    else if negb b && started s then
      schedulePoll (if initialPullComplete s then s <| passes ::= λ l, l ++ [ReconcilePass] |>
                    else requestInitialPull s)
    else s.

Definition destroy (s : ConfigSync) : ConfigSync :=
  if destroyed s then s
  else s <| destroyed := true |> <| started := false |> <| observing := false |>
         <| pollTimer := false |> <| reloadNoticeTimer := false |> <| retryTimers := ∅ |>.

Definition move (m : Move) (s : ConfigSync) : ConfigSync :=
  match m with
  | IndexSet path meta => indexSet path meta s
  | IndexDelete path => indexDelete path s
  | PausedSet b => setPaused b s
  | DestroyCalled => destroy s
  | StartCalled categories => start categories s
  | Requested path => reconcile path s
  | WritingReleased => s <| writing ::= λ w, w ∖ list_to_set (releasing s) |> <| releasing := [] |>
  | RetryFired path =>
    if bool_decide (path ∈ retryTimers s)
    then reconcile path (s <| retryTimers ::= λ t, t ∖ {[path]} |>) else s
  | PollFired =>
    if pollTimer s then s <| pollTimer := false |> <| passes ::= λ l, l ++ [PollPass] |> else s
  | ReloadFired =>
    if reloadNoticeTimer s
    then s <| reloadNoticeTimer := false |>
           <| effects ::= λ l, l ++ [Notice "synced Obsidian settings changed"] |>
    else s
  end.

#[export] Instance configHost : Host ConfigSync W Move := {|
  worldOf := world;
  setWorld w s := s <| world := w |>;
  settling := settle;
  onMove := move |}.

Definition sha256Hex (content : bytes) : M string := pause ≫= λ _, mret (sha256 content).

Definition read (path : string) : M bytes :=
  content ← call (readBinary path);
  effect (Read path content) ≫= λ _, mret content.

Definition fetch (path : option string) (h : string) : M bytes :=
  content ← call (getBlob path h);
  effect (Fetched h content) ≫= λ _, mret content.

(** The part of [localInfo] that reads the file *)
Definition hashFile (path : string) (st : option (Z * Z)) (time : Z) : M (option (option ConfigMeta)) :=
  content ← read path;
  h ← sha256Hex content;
  let mt := match st with Some (_, mt) => mt | None => time end in
  update (λ s,
    match st with
    | Some (sz, _) =>
      if sz =? zlength content
      then s <| hashCache ::= <[path := mkCache sz mt h time]> |>
      else s <| hashCache ::= delete path |>
    | None => s <| hashCache ::= delete path |>
    end) ≫= λ _,
  mret (Some (Some (mkMeta (mkVersion h None None) (zlength content) mt))).

(** [this.localInfo]: [None] when the file cannot be read, [Some None] when
    there is none. *)
Definition localInfoNow (path : string) : M (option (option ConfigMeta)) :=
  catch
    (present ← call (exists_ path);
     if negb present
     then update (λ s, s <| hashCache ::= delete path |>) ≫= λ _, mret (Some None)
     else
       st ← call (stat path);
       time ← get (λ s, now (world s));
       cached ← get (λ s, hashCache s !! path);
       match st, cached with
       | Some (sz, mt), Some c =>
         if (csize c =? sz) && (cmtime c =? mt) && (time - checkedAt c <? HASH_REVALIDATE_MS)
         then mret (Some (Some (mkMeta (mkVersion (chash c) None None) (csize c) (cmtime c))))
         else hashFile path st time
       | _, _ => hashFile path st time
       end)
    (λ _, mret None).

Definition localInfo (path : string) : M (option (option ConfigMeta)) :=
  info ← await (localInfoNow path);
  effect (Observed path (mjoin info)) ≫= λ _, mret info.

(** [(this.configFiles.get(path)?.hash ?? null)] *)
Definition remoteHashOf (path : string) (s : ConfigSync) : option string :=
  mhash <$> jm_get path (configFiles s).

Definition configStateMatches (path : string) (localHash : string) (remoteHash : option string) : M bool :=
  await (current ← localInfo path;
         get (λ s, negb (destroyed s) && bool_decide (mhash <$> mjoin current = Some localHash) &&
                   bool_decide (remoteHashOf path s = remoteHash))).

(** [if (!this.canApply(generation)) { void this.reconcile(path); return stop; }] *)
Definition guarded {A} (generation : Z) (path : string) (stop : A) (k : M A) : M A :=
  ok ← get (canApply generation);
  if ok : bool then k else update (reconcile path) ≫= λ _, mret stop.

(** The same, but only asking again while not destroyed *)
Definition guardedLive {A} (generation : Z) (path : string) (stop : A) (k : M A) : M A :=
  ok ← get (canApply generation);
  if ok : bool then k
  else update (λ s, if destroyed s then s else reconcile path s) ≫= λ _, mret stop.

(** [setTimeout(() => this.writing.delete(path), 0)], at the end of a
    [try] that began with [this.writing.add(path)] *)
Definition whileWriting {A} (path : string) (m : M A) : M A :=
  update (λ s, s <| writing ::= λ w, {[path]} ∪ w |>) ≫= λ _,
  finally m (λ s, s <| releasing ::= λ l, l ++ [path] |>).

Definition local (f : LocalSyncState → LocalSyncState) (s : ConfigSync) : ConfigSync :=
  s <| localSyncState ::= fmap f |>.

Definition localState (path : string) (s : ConfigSync) : option LocalState.LocalPathState :=
  localSyncState s ≫= LocalState.get path.

(** ** Recovery copies *)

Fixpoint preserveLoop (path : string) (source : ConflictSource) (time : Z) (n : nat) (copy : N) : M string :=
  let destination := candidatePath normalizePath clientLabel stamp path source time copy in
  taken ← call (exists_ destination);
  if negb taken then mret destination
  else match n with
       | O => throw OutOfFuel
       | S n => preserveLoop path source time n (copy + 1)
       end.

Definition preserveAdapterConflict (path : string) (content : bytes) (source : ConflictSource) : M string :=
  await (time ← get (λ s, now (world s));
         destination ← preserveLoop path source time fuel 1;
         call (writeBinary destination content) ≫= λ _,
         effect (Preserved path destination content) ≫= λ _,
         mret destination).

(** ** Publishing *)

Definition publish (path : string) (replaced : option ConfigMeta) (meta : ConfigMeta)
    (expected : option string) (s : ConfigSync) : ConfigSync :=
  let s := indexSet path meta (s <| effects ::= λ l, l ++ [Published path replaced meta] |>) in
  local (LocalState.markPublished path KConfig (mhash meta) expected)
    (s <| lastSyncedHash ::= <[path := mhash meta]> |>).

Definition uploadBytes (path : string) (content : bytes) (meta : option ConfigMeta)
    (expectedRemoteHash : option string) (generation : Z) : M () :=
  h ← sha256Hex content;
  guardedLive generation path () (
    time ← get (λ s, now (world s));
    let m := match meta with
             | Some m => if bool_decide (h = mhash m) then m else mkMeta (mkVersion h None None) (zlength content) time
             | None => mkMeta (mkVersion h None None) (zlength content) time
             end in
    there ← call (blobExists path (mhash m));
    let finish :=
      guardedLive generation path () (
        currentLocal ← localInfo path;
        s ← get (λ s, s);
        let replaced := jm_get path (configFiles s) in
        if negb (canApply generation s) || bool_decide (mhash <$> mjoin currentLocal ≠ Some (mhash m)) ||
           bool_decide (mhash <$> replaced ≠ expectedRemoteHash)
        then update (reconcile path)
        else
          let lineage := match lineageAfter (version <$> replaced) with
                         | [] => None
                         | l => Some (JArray (map JString l))
                         end in
          update (publish path replaced
            (mkMeta (mkVersion (mhash m) (Some expectedRemoteHash) lineage) (size m) (mtime m))
            expectedRemoteHash)) in
    if there : bool
    then effect (Uploaded (mhash m)) ≫= λ _, finish
    else guardedLive generation path () (
           call (putBlob path (mhash m) content) ≫= λ _,
           effect (Uploaded (mhash m)) ≫= λ _, finish)).

Definition upload (path : string) (meta : ConfigMeta) (expectedRemoteHash : option string)
    (generation : Z) : M () :=
  content ← read path;
  guardedLive generation path () (await (uploadBytes path content (Some meta) expectedRemoteHash generation)).

Definition publishDelete (path : string) (generation : Z) : M () :=
  guardedLive generation path () (
    update (λ s,
      let s := s <| effects ::= λ l, l ++ [Unpublished path (jm_get path (configFiles s))] |> in
      local (LocalState.remove path) (indexDelete path s <| lastSyncedHash ::= delete path |>))).

(** ** Downloading *)

(** Every prefix of the path's folders that is missing is made. *)
Fixpoint ensureFolders (current : string) (parts : list string) : M () :=
  match parts with
  | [] => mret ()
  | part :: parts =>
    let current := if bool_decide (current = ""%string) then part else (current ++ "/" ++ part)%string in
    present ← call (exists_ current);
    (if present : bool then mret ()
     else catch (call (mkdir current))
            (λ e, match e with AlreadyExists => mret () | _ => throw e end)) ≫= λ _,
    ensureFolders current parts
  end.

Definition ensureParentFolders (path : string) : M () :=
  await (ensureFolders "" (removelast (split "/"%char path))).

(** [expectedLocalHash] may be left out. *)
Definition materializeDownload (path : string) (meta : ConfigMeta) (content : bytes)
    (expectedLocalHash : option (option string)) (generation : Z) : M bool :=
  guardedLive generation path false (
    currentLocal ← localInfo path;
    s ← get (λ s, s);
    if negb (canApply generation s) || bool_decide (remoteHashOf path s ≠ Some (mhash meta)) ||
       match expectedLocalHash with
       | Some e => bool_decide (mhash <$> mjoin currentLocal ≠ e)
       | None => false
       end
    then update (reconcile path) ≫= λ _, mret false
    else whileWriting path (
      ensureParentFolders path ≫= λ _,
      guarded generation path false (
        effect (Wrote path content) ≫= λ _,
        call (writeBinary path content) ≫= λ _,
        update (λ s, noteDownloaded path
          (local (LocalState.markSynced path KConfig (mhash meta) (mhash meta) true)
             (s <| hashCache ::= delete path |> <| lastSyncedHash ::= <[path := mhash meta]> |>)
             <| pendingDownloads ::= delete path |>)) ≫= λ _,
        mret true))).

Definition download (path : string) (meta : ConfigMeta) (expectedLocalHash : option (option string))
    (generation : Z) : M bool :=
  got ← attempt (fetch (Some path) (mhash meta));
  match got with
  | Throws _ =>
    dead ← get destroyed;
    if dead : bool then mret false
    else update (λ s, scheduleRetry path (s <| pendingDownloads ::= <[path := mhash meta]> |>)) ≫= λ _,
         mret false
  | Returns content => await (materializeDownload path meta content expectedLocalHash generation)
  end.

Definition deleteLocal (path : string) (generation : Z) : M () :=
  ok ← get (canApply generation);
  if negb ok then mret ()
  else whileWriting path (
    present ← call (exists_ path);
    let forget := update (λ s, noteDownloaded path
      (local (LocalState.remove path) (s <| lastSyncedHash ::= delete path |>))) in
    if present : bool
    then guarded generation path () (
           effect (Removed path) ≫= λ _,
           call (remove_ path) ≫= λ _,
           update (λ s, s <| hashCache ::= delete path |>) ≫= λ _, forget)
    else forget).

(** ** Merging *)

Definition mergeJsonSettings (remoteText localText : string) : option string :=
  match parseJson remoteText, parseJson localText with
  | Some remote, Some local =>
    if negb (isPlainObject remote) || negb (isPlainObject local) then None
    else Some (stringify (spread remote local))
  | _, _ => None
  end.

Definition mergeJsonSettingsThreeWay (baseText remoteText localText : string) : option (string * bool) :=
  match parseJson baseText, parseJson remoteText, parseJson localText with
  | Some base, Some remote, Some local =>
    if negb (isPlainObject base) || negb (isPlainObject remote) || negb (isPlainObject local) then None
    else
      let merged := mergeStructuredStartupResult local base remote in
      Some (stringify (value merged), conflicted merged)
  | _, _, _ => None
  end.

Definition writeMergedAndUpload (path merged : string) (remoteHash : string) (generation : Z) : M () :=
  let buffer := encode merged in
  go ← whileWriting path (
    guarded generation path false (
      effect (Wrote path buffer) ≫= λ _,
      call (writeBinary path buffer) ≫= λ _,
      update (λ s, s <| hashCache ::= delete path |>) ≫= λ _,
      mret true));
  ok ← get (canApply generation);
  if negb go || negb ok then mret ()
  else await (uploadBytes path buffer None (Some remoteHash) generation).

(** [if (!(await this.configStateMatches(...))) { void this.reconcile(path); return stop; }] *)
Definition ifStateMatches {A} (path localHash : string) (remoteHash : option string) (stop : A) (k : M A) : M A :=
  same ← configStateMatches path localHash remoteHash;
  if same : bool then k else update (reconcile path) ≫= λ _, mret stop.

(** [if (!this.canApply(generation)) return;] *)
Definition onlyIfCanApply (generation : Z) (k : M ()) : M () :=
  ok ← get (canApply generation); if ok : bool then k else mret ().

(** The two sides do not merge, or only with the local keys on top: one of
    them is preserved. *)
Definition mergeOrPreserve (path : string) (loc remote : ConfigMeta) (generation : Z)
    (remoteBytes localBytes : bytes) : M () :=
  match mergeJsonSettings (decode remoteBytes) (decode localBytes) with
  | None =>
    if mtime remote <=? mtime loc
    then onlyIfCanApply generation (
      preserveAdapterConflict path remoteBytes SourceRemote ≫= λ _,
      ifStateMatches path (mhash loc) (Some (mhash remote)) () (
        await (uploadBytes path localBytes (Some loc) (Some (mhash remote)) generation)))
    else onlyIfCanApply generation (
      preserveAdapterConflict path localBytes SourceLocal ≫= λ _,
      ifStateMatches path (mhash loc) (Some (mhash remote)) () (
        await (download path remote (Some (Some (mhash loc))) generation) ≫= λ _, mret ()))
  | Some merged => onlyIfCanApply generation (
      preserveAdapterConflict path remoteBytes SourceRemote ≫= λ _,
      effect (Notice "merged settings and preserved the conflicting remote version") ≫= λ _,
      ifStateMatches path (mhash loc) (Some (mhash remote)) () (
        await (writeMergedAndUpload path merged (mhash remote) generation)))
  end.

(** [ancestorHash] may be left out, or null. *)
Definition mergeConflict (path : string) (loc remote : ConfigMeta) (generation : Z)
    (ancestorHash : option (option string)) : M () :=
  got ← attempt (fetch (Some path) (mhash remote));
  match got with
  | Throws _ => update (λ s, if destroyed s then s else scheduleRetry path s)
  | Returns remoteBytes =>
    localBytes ← read path;
    guardedLive generation path () (
      ifStateMatches path (mhash loc) (Some (mhash remote)) () (
        baseHash ← get (λ s, match ancestorHash with
                             | None => lastSyncedHash s !! path
                             | Some h => h
                             end);
        match LocalState.truthy baseHash with
        | None => mergeOrPreserve path loc remote generation remoteBytes localBytes
        | Some h =>
          baseBytes ← attempt (fetch None h);
          guardedLive generation path () (
            match (match baseBytes with
                   | Returns b => mergeJsonSettingsThreeWay (decode b) (decode remoteBytes) (decode localBytes)
                   | Throws _ => None
                   end) with
            | Some (text, false) =>
              ifStateMatches path (mhash loc) (Some (mhash remote)) () (
                await (writeMergedAndUpload path text (mhash remote) generation))
            | _ => mergeOrPreserve path loc remote generation remoteBytes localBytes
            end)
        end))
  end.

(** ** One reconciliation *)

(** The local file has no accepted identity and differs from the remote one:
    the remote one is kept, the local one preserved. *)
Definition reconcileCandidate (path : string) (loc remote : ConfigMeta) (generation : Z) : M bool :=
  localBytes ← read path;
  got ← attempt (fetch (Some path) (mhash remote));
  match got with
  | Throws _ =>
    update (λ s, if destroyed s then s else scheduleRetry path s) ≫= λ _, mret false
  | Returns remoteBytes =>
    guarded generation path false (
      preserveAdapterConflict path localBytes SourceLocal ≫= λ _,
      effect (Notice "kept the remote settings and preserved this device's unrelated file") ≫= λ _,
      ifStateMatches path (mhash loc) (Some (mhash remote)) false (
        written ← await (materializeDownload path remote remoteBytes (Some (Some (mhash loc))) generation);
        get (λ s, written && canApply generation s)))
  end.

(** Deleted remotely, edited here *)
Definition reconcileEditedDeletion (path : string) (loc : ConfigMeta) (generation : Z) : M bool :=
  localBytes ← read path;
  guarded generation path false (
    preserveAdapterConflict path localBytes SourceLocal ≫= λ _,
    effect (Notice "deleted remotely; preserved this device's edited settings") ≫= λ _,
    ifStateMatches path (mhash loc) None false (
      await (deleteLocal path generation) ≫= λ _,
      get (canApply generation))).

(** [localState.publishedFrom], when it is about the baseline *)
Definition ownPublishParent (state : option LocalState.LocalPathState) (base : option string) :
    option (option string) :=
  match state with
  | Some st =>
    if bool_decide (LocalState.kind st = KConfig) && bool_decide (LocalState.identity st = Some base)
    then LocalState.publishedFrom st else None
  | None => None
  end.

Definition decideOpts (path : string) (state : option LocalState.LocalPathState) (base : option string)
    (s : ConfigSync) : DecideOpts :=
  mkOpts (initialPull s || bool_decide (is_Some (pendingDownloads s !! path)))
    (endsWith ".json" path)
    (match state with
     | Some st => if bool_decide (LocalState.kind st = KConfig) then LocalState.replacedIdentity st else None
     | None => None
     end)
    (match localSyncState s with
     | Some _ => Some (bool_decide (is_Some (ownPublishParent state base)))
     | None => None
     end).

Definition applyNone (path : string) (remote : option ConfigMeta) (s : ConfigSync) : ConfigSync :=
  let s := s <| pendingDownloads ::= delete path |> in
  match LocalState.truthy (mhash <$> remote) with
  | Some h => local (LocalState.markSynced path KConfig h h false) (s <| lastSyncedHash ::= <[path := h]> |>)
  | None => s <| lastSyncedHash ::= delete path |>
  end.

Definition applyAction (path : string) (loc remote : option ConfigMeta) (base : option string)
    (state : option LocalState.LocalPathState) (generation : Z) (own : option bool)
    (action : ConfigReconcileAction) : M bool :=
  match action, loc, remote with
  | ANone, _, _ => update (applyNone path remote) ≫= λ _, mret true
  | AUpload, Some l, _ =>
    await (upload path l (mhash <$> remote) generation) ≫= λ _, get (canApply generation)
  | ADownload, _, Some r =>
    written ← await (download path r (Some (mhash <$> loc)) generation);
    if negb written then mret false else get (canApply generation)
  | ADeleteLocal, _, _ => await (deleteLocal path generation) ≫= λ _, get (canApply generation)
  | ADeleteRemote, _, _ => publishDelete path generation ≫= λ _, get (canApply generation)
  | AMerge, Some l, Some r =>
    let ancestor :=
      if bool_decide (base = Some (mhash l))
      then if default false own then ownPublishParent state base else mprev r
      else None in
    await (mergeConflict path l r generation ancestor) ≫= λ _, get (canApply generation)
  | _, _, _ => get (canApply generation)
  end.

Definition isCandidate (state : option LocalState.LocalPathState) : bool :=
  match state with
  | Some st => bool_decide (LocalState.kind st = KConfig) && default false (LocalState.candidate st)
  | None => false
  end.

(** [reconcileNow] after it has looked at the local file *)
Definition reconcileSeen (path : string) (loc : option ConfigMeta) (generation : Z) : M bool :=
  update (λ s,
    match loc, localSyncState s with
    | Some l, Some ls =>
      if LocalState.has path ls then s
      else local (LocalState.beginCandidate path KConfig (Some (mhash l)) (Some (mhash l))) s
    | _, _ => s
    end) ≫= λ _,
  remote ← get (λ s, jm_get path (configFiles s));
  update (λ s, if bool_decide (pendingDownloads s !! path = mhash <$> remote) then s
               else s <| pendingDownloads ::= delete path |>) ≫= λ _,
  base ← get (λ s, lastSyncedHash s !! path);
  state ← get (localState path);
  let decided :=
    opts ← get (decideOpts path state base);
    applyAction path loc remote base state generation (ownBase opts)
      (decideConfigReconcile loc remote base opts) in
  match loc, remote with
  | Some l, Some r =>
    if bool_decide (mhash l ≠ mhash r) && isCandidate state
    then reconcileCandidate path l r generation
    else decided
  | Some l, None =>
    if bool_decide (is_Some base) && bool_decide (base ≠ Some (mhash l))
    then reconcileEditedDeletion path l generation
    else decided
  | _, _ => decided
  end.

Definition reconcileNow (path : string) : M bool :=
  stop ← get (λ s, destroyed s || paused s);
  if stop : bool then mret false
  else
    generation ← get pauseGeneration;
    info ← localInfo path;
    ok ← get (canApply generation);
    match info with
    | Some loc => if ok : bool then reconcileSeen path loc generation else mret false
    | None => mret false
    end.

(** One link of a path's chain: a failure is logged, and answers false. *)
Definition reconcileTask (path : string) : M bool := catch (reconcileNow path) (λ _, mret false).

(** ** Passes over all paths *)

Definition seedIndexEntry (s : ConfigSync) (x : string * ConfigMeta) : ConfigSync :=
  let '(path, meta) := x in
  if bool_decide (mhash meta = ""%string) then s
  else match localSyncState s with
  | None => s <| lastSyncedHash ::= <[path := mhash meta]> |>
  | Some _ =>
    let s := local (LocalState.migrateLegacyIdentity path KConfig (mhash meta)) s in
    match localState path s with
    | Some st =>
      if bool_decide (LocalState.kind st = KConfig) && negb (default false (LocalState.candidate st)) &&
         bool_decide (LocalState.identity st = Some (Some (mhash meta)))
      then s <| lastSyncedHash ::= <[path := mhash meta]> |> else s
    | None => s
    end
  end.

Definition seedLocalEntry (s : ConfigSync) (x : string * LocalState.LocalPathState) : ConfigSync :=
  let '(path, st) := x in
  if bool_decide (LocalState.kind st = KConfig) && negb (default false (LocalState.candidate st))
  then match LocalState.truthy (mjoin (LocalState.identity st)) with
       | Some i => s <| lastSyncedHash ::= <[path := i]> |>
       | None => s
       end
  else s.

Definition seedBaseline (s : ConfigSync) : ConfigSync :=
  let s := foldl seedIndexEntry s (configFiles s) in
  match localSyncState s with
  | Some ls => foldl seedLocalEntry s (map_to_list (LocalState.entries ls))
  | None => s
  end.

(** The files below a folder, [None] when a folder cannot be listed *)
Fixpoint walk (n : nat) (folder : string) : M (option (list string)) :=
  match n with
  | O => throw OutOfFuel
  | S n =>
    listed ← attempt (call (list_ folder));
    match listed with
    | Throws _ => mret None
    | Returns (files, folders) =>
      (fix children (paths : list string) (folders : list string) : M (option (list string)) :=
         match folders with
         | [] => mret (Some paths)
         | child :: folders =>
           enabled ← get (λ s, negb (isHardExcluded child) &&
             match categoryForVaultPath (child ++ "/")%string configRoot with
             | Some category => bool_decide (category ∈ enabledCategories s)
             | None => false
             end);
           if negb enabled then children paths folders
           else below ← await (walk n child);
                match below with
                | Some more => children (paths ++ more) folders
                | None => mret None
                end
         end) files folders
    end
  end.

Definition localConfigPaths : M (option (list string)) :=
  paths ← await (walk fuel configRoot);
  get (λ s, filter (λ path, is_Some (syncableCategory path s)) <$> paths).

(** [await this.reconcile(path)]: the links already in the path's chain first *)
Definition reconcileAwaited (path : string) : M bool :=
  s ← get (λ s, s);
  match syncableCategory path s with
  | None => pause ≫= λ _, mret true
  | Some _ =>
    if bool_decide (path ∈ writing s) then pause ≫= λ _, mret true
    else
      update (λ s, s <| queued ::= filter (λ p, p ≠ path) |>) ≫= λ _,
      forEach (λ p, reconcileTask p ≫= λ _, mret ()) (filter (λ p, p = path) (queued s)) ≫= λ _,
      await (reconcileTask path)
  end.

Fixpoint reconcileEach (complete : bool) (paths : list string) : M bool :=
  match paths with
  | [] => mret complete
  | path :: paths =>
    ok ← reconcileAwaited path;
    dead ← get destroyed;
    if dead : bool then mret false else reconcileEach (ok && complete) paths
  end.

Definition reconcileAll : M bool :=
  s ← get (λ s, s);
  if destroyed s || negb (started s) || paused s then mret false
  else
    let indexed := foldl (λ ps p, if isHardExcluded p then ps else js_add p ps) [] (jm_keys (configFiles s)) in
    localPaths ← await localConfigPaths;
    match localPaths with
    | None => mret false
    | Some ps => reconcileEach true (foldl (λ ps p, js_add p ps) indexed ps)
    end.

Definition runInitialPull : M () :=
  stop ← get paused;
  if stop : bool then mret ()
  else
    update (λ s, s <| initialPull := true |>) ≫= λ _,
    finally
      (complete ← await reconcileAll;
       update (λ s, if complete && negb (paused s) && negb (destroyed s)
                    then s <| initialPullComplete := true |> else s))
      (λ s, s <| initialPull := negb (initialPullComplete s) |>).

Definition retryInitialPullOrReconcile : M () :=
  done ← get initialPullComplete;
  if done : bool then await reconcileAll ≫= λ _, mret () else await runInitialPull.

Definition runPass (p : Pass) : M () :=
  match p with
  | InitialPass => runInitialPull
  | ReconcilePass => reconcileAll ≫= λ _, mret ()
  | RetryPass => retryInitialPullOrReconcile
  | PollPass => finally retryInitialPullOrReconcile schedulePoll
  end.
End configSync.
