(* ===== verification/ConfigSyncSpec.v ===== *)
(** What settings sync promises: a reconciliation replaces or removes the
    local file only when that file was seen to be as last synced, or is kept
    in a recovery copy or in a merge, and replaces or removes the index entry
    only as the successor of exactly the version it looked at. *)
From Stdlib Require Import String Ascii.
From S2P Require Import Prelude Effects TraceLogic Await JsString JsMap Json Lineage ConfigCategories ConflictCopy ConfigSync.
From S2P Require LocalState.
#[local] Open Scope Z_scope.

Section spec.
Context {W : Type} `{!Platform W}.
Notation State := (@ConfigSync W).
Implicit Types (s : State) (e : Effect) (pre : list Effect).

(** The reconciliation of [path] that starts in [s0] *)
Context (s0 : State) (path : string).
Notation base := (lastSyncedHash s0 !! path).

(** ** What is promised *)

(** This device has accepted a version of the path, or keeps no record. *)
Definition accepted : Prop :=
  localSyncState s0 = None ∨ ∃ st, localState path s0 = Some st ∧ isCandidate (Some st) = false.

(** [content] merges the file as read with the remote version as fetched. *)
Definition merges pre (content : bytes) : Prop :=
  ∃ loc h rem text, Read path loc ∈ pre ∧ Fetched h rem ∈ pre ∧ content = encode text ∧
    ((∃ hb b, Fetched hb b ∈ pre ∧
        mergeJsonSettingsThreeWay (decode b) (decode rem) (decode loc) = Some (text, false)) ∨
     (∃ copy, Preserved path copy rem ∈ pre ∧ mergeJsonSettings (decode rem) (decode loc) = Some text)).

Definition preserved pre : Prop :=
  ∃ copy loc, Read path loc ∈ pre ∧ Preserved path copy loc ∈ pre.

(** Why the file seen may be replaced *)
Definition replaceable pre (content : bytes) : Prop :=
  (∃ info, Observed path info ∈ pre ∧
     (info = None ∨ mhash <$> info = base ∨ (base = None ∧ accepted) ∨
      (endsWith ".json" path = false ∧ ∃ l r, info = Some l ∧ Fetched (mhash r) content ∈ pre ∧ mtime l < mtime r))) ∨
  preserved pre ∨ merges pre content.

Definition justified pre e : Prop :=
  match e with
  | Wrote p content => p = path ∧ replaceable pre content
  | Removed p => p = path ∧
      ((∃ l, Observed path (Some l) ∈ pre ∧ base = Some (mhash l)) ∨ preserved pre)
  | Published p replaced meta => p = path ∧
      version meta = versionAfter (version <$> replaced) (mhash meta) ∧
      Uploaded (mhash meta) ∈ pre ∧
      ∃ l, Observed path (Some l) ∈ pre ∧ mhash l = mhash meta
  | Unpublished p replaced => p = path ∧
      Observed path None ∈ pre ∧ ∃ r, replaced = Some r ∧ base = Some (mhash r)
  | _ => True
  end.

(** ** The trace since [s0] *)

(** The four that change a file or the index are to be justified. *)
Definition harmless e : Prop :=
  match e with Wrote _ _ | Removed _ | Published _ _ _ | Unpublished _ _ => False | _ => True end.

Lemma harmless_justified pre e : harmless e → justified pre e.
Proof using Type. by destruct e. Qed.

(** Steps without any leave the baselines and the local records alone. *)
Definition frame s s' : Prop :=
  lastSyncedHash s' = lastSyncedHash s ∧ localSyncState s' = localSyncState s.

Lemma frame_preorder : PreOrder frame.
Proof using Type. split; [done|]. intros s1 s2 s3 [B1 L1] [B2 L2]. split; congruence. Qed.

#[local] Instance traced : Traced State Effect := {|
  trail := effects; TraceLogic.harmless := harmless; TraceLogic.frame := frame;
  TraceLogic.frame_preorder := frame_preorder |}.

#[local] Instance judged : Judged traced := {|
  mark := length (effects s0); warranted := justified; harmless_warranted := harmless_justified |}.

Abbreviation safe := (@safe State Err Effect traced judged _).

Lemma quiet_effect e s : harmless e → quiet s (s <| effects ::= λ l, l ++ [e] |>).
Proof using Type. intros H. by apply (quiet_snoc _ _ e). Qed.

(** ** Steps without waiting are quiet *)

Lemma quiet_stays s : quiet s s.
Proof using Type. apply quiet_refl. Qed.
#[local] Hint Resolve quiet_stays : core.

Lemma quiet_reconcile p s : quiet s (reconcile p s).
Proof using Type. unfold reconcile. repeat case_match; try done; by apply quiet_same. Qed.

Lemma quiet_indexChanged p s : quiet s (onConfigFilesChanged p s).
Proof using Type. unfold onConfigFilesChanged. repeat case_match; try done. apply quiet_reconcile. Qed.

Lemma quiet_scheduleRetry p s : quiet s (scheduleRetry p s).
Proof using Type. unfold scheduleRetry. case_match; [done|by apply quiet_same]. Qed.

Lemma quiet_noteDownloaded p s : quiet s (noteDownloaded p s).
Proof using Type. unfold noteDownloaded. repeat case_match; try done; by apply quiet_same. Qed.

Lemma quiet_setPaused b s : quiet s (setPaused b s).
Proof using Type.
  unfold setPaused, schedulePoll, requestInitialPull. repeat case_match; try done; by apply quiet_same.
Qed.

Lemma quiet_start c s : quiet s (start c s).
Proof using Type.
  unfold start, schedulePoll, requestInitialPull. repeat case_match; try done; by apply quiet_same.
Qed.

Lemma quiet_move m s : quiet s (move m s).
Proof using Type.
  destruct m; simpl.
  - eapply quiet_trans; [|apply quiet_indexChanged]. by apply quiet_same.
  - unfold indexDelete. case_match; [|done]. eapply quiet_trans; [|apply quiet_indexChanged]. by apply quiet_same.
  - apply quiet_setPaused.
  - unfold destroy. case_match; [done|by apply quiet_same].
  - apply quiet_start.
  - apply quiet_reconcile.
  - by apply quiet_same.
  - case_match; [|done]. eapply quiet_trans; [|apply quiet_reconcile]. by apply quiet_same.
  - case_match; [by apply quiet_same|done].
  - case_match; [|done]. split_and!; [done..|]. eexists. split; [done|]. by repeat constructor.
Qed.

#[local] Instance quiet_host : QuietHost configHost traced.
Proof using Type. split; [by intros; apply quiet_same|exact quiet_move]. Qed.

(** ** Programs that cause nothing to justify *)

Lemma quietly_effect e s : harmless e → ok s →
  quietly (effect e) (λ _ s', ok s' ∧ known e s') s.
Proof using Type.
  intros He Hs. apply quietly_update; [by apply quiet_effect|].
  split; [eapply ok_quiet; [done|by apply quiet_effect]|]. by eapply (known_new e s).
Qed.

(** ** What the helpers let one know *)

Lemma quietly_read p s : ok s → quietly (read p) (λ c s', ok s' ∧ known (Read p c) s') s.
Proof using Type.
  intros Hs. eapply quietly_bind; [apply quietly_call|]. intros c s1 Hq _.
  eapply quietly_bind; [apply quietly_effect; [done|by eapply ok_quiet]|]. intros [] s2 _ H. by apply quietly_ret.
Qed.

Lemma quietly_fetch p h s : ok s → quietly (fetch p h) (λ c s', ok s' ∧ known (Fetched h c) s') s.
Proof using Type.
  intros Hs. eapply quietly_bind; [apply quietly_call|]. intros c s1 Hq _.
  eapply quietly_bind; [apply quietly_effect; [done|by eapply ok_quiet]|]. intros [] s2 _ H. by apply quietly_ret.
Qed.

Lemma quietly_sha256Hex c s : quietly (sha256Hex c) (λ _ _, True) s.
Proof using Type. eapply quietly_bind; [apply quietly_pause|]. intros. by apply quietly_ret. Qed.

Lemma quietly_localInfoNow p s : ok s → quietly (localInfoNow p) (λ _ _, True) s.
Proof using Type.
  intros Hs. eapply quietly_catch; [|intros; by apply quietly_ret].
  eapply quietly_bind; [apply quietly_call|]. intros present s1 Hq1 _.
  assert (ok s1) as Hs1 by by eapply ok_quiet.
  destruct present; simpl.
  - eapply quietly_bind; [apply quietly_call|]. intros st s2 Hq2 _.
    assert (∀ time, quietly (hashFile p st time) (λ _ _, True) s2) as Hhash.
    { intros time. unfold hashFile. eapply quietly_bind; [apply quietly_read; by eapply ok_quiet|].
      intros c s3 Hq3 _. eapply quietly_bind; [apply quietly_sha256Hex|].
      intros h s4 Hq4 _. eapply (quietly_bind _ _ (λ _ _, True)).
      - apply quietly_update; [|done]. repeat case_match; by apply quiet_same.
      - intros. by apply quietly_ret. }
    eapply (quietly_bind _ _ (λ _ s', s' = s2)); [by apply quietly_get|]. intros time ? _ ->.
    eapply (quietly_bind _ _ (λ _ s', s' = s2)); [by apply quietly_get|]. intros cached ? _ ->.
    repeat case_match; try apply Hhash. by apply quietly_ret.
  - eapply (quietly_bind _ _ (λ _ _, True)); [by apply quietly_update; [apply quiet_same|]|].
    intros. by apply quietly_ret.
Qed.

Lemma quietly_localInfo p s : ok s →
  quietly (localInfo p) (λ info s', ok s' ∧ known (Observed p (mjoin info)) s') s.
Proof using Type.
  intros Hs. eapply (quietly_bind _ _ (λ _ _, True)).
  { apply quietly_await; [by apply quietly_localInfoNow|done]. }
  intros info s1 Hq1 _. eapply quietly_bind.
  { apply (quietly_effect (Observed p (mjoin info))); [done|by eapply ok_quiet]. }
  intros [] s2 _ H. by apply quietly_ret.
Qed.

Lemma quietly_configStateMatches p lh rh s : ok s →
  quietly (configStateMatches p lh rh) (λ _ s', ok s') s.
Proof using Type.
  intros Hs. apply quietly_await.
  - eapply quietly_bind; [by apply quietly_localInfo|]. intros info s1 _ [H _]. by apply quietly_get.
  - intros. by eapply ok_quiet.
Qed.

Lemma quietly_preserveLoop p src time n copy s : quietly (preserveLoop p src time n copy) (λ _ _, True) s.
Proof using Type.
  revert copy s. induction n as [|n IH]; intros copy s; simpl;
    (eapply quietly_bind; [apply quietly_call|]; intros [] s1 _ _; simpl; [|by apply quietly_ret]).
  - apply quietly_throw.
  - apply IH.
Qed.

Lemma quietly_preserve p content src s : ok s →
  quietly (preserveAdapterConflict p content src)
    (λ copy s', ok s' ∧ known (Preserved p copy content) s') s.
Proof using Type.
  intros Hs. apply quietly_await.
  - eapply (quietly_bind _ _ (λ _ s', s' = s)); [by apply quietly_get|]. intros time ? _ ->.
    eapply quietly_bind; [apply quietly_preserveLoop|]. intros copy s1 Hq1 _.
    eapply quietly_bind; [apply quietly_call|]. intros [] s2 Hq2 _.
    eapply quietly_bind.
    { apply (quietly_effect (Preserved p copy content)); [done|]. eapply ok_quiet; [|done]. by eapply ok_quiet. }
    intros [] s3 _ H. by apply quietly_ret.
  - intros copy s' s'' [H1 H2] Hq. split; [by eapply ok_quiet|by eapply known_quiet].
Qed.

Lemma quietly_ensureParentFolders p s : quietly (ensureParentFolders p) (λ _ _, True) s.
Proof using Type.
  apply quietly_await; [|done]. generalize (removelast (split "/"%char p)), ""%string. intros parts.
  revert s. induction parts as [|part parts IH]; intros s cur; [by apply quietly_ret|]. cbn [ensureFolders].
  eapply quietly_bind; [apply quietly_call|]. intros present s1 _ _.
  eapply (quietly_bind _ _ (λ _ _, True)); [|intros; apply IH].
  destruct present; [by apply quietly_ret|]. eapply quietly_catch; [apply quietly_call|].
  intros [] s2 _; [by apply quietly_ret|apply quietly_throw..].
Qed.

(** ** Programs whose effects are all justified *)

Lemma quiet_reconcileLive p s : quiet s (if destroyed s then s else reconcile p s).
Proof using Type. case_match; [done|apply quiet_reconcile]. Qed.

Lemma safe_guarded {A} g p (stop : A) k s : ok s → safe k s → safe (guarded g p stop k) s.
Proof using Type.
  intros Hs Hk. apply safe_look. destruct (canApply g s); [done|].
  eapply safe_stop; [done|apply quiet_reconcile].
Qed.

Lemma safe_guardedLive {A} g p (stop : A) k s : ok s → safe k s → safe (guardedLive g p stop k) s.
Proof using Type.
  intros Hs Hk. apply safe_look. destruct (canApply g s); [done|].
  eapply (safe_stop (λ s, if destroyed s then s else reconcile p s)); [done|apply quiet_reconcileLive].
Qed.

Lemma safe_onlyIfCanApply g k s : ok s → safe k s → safe (onlyIfCanApply g k) s.
Proof using Type. intros Hs Hk. apply safe_look. by destruct (canApply g s). Qed.

Lemma safe_whileWriting {A} p (m : eff State Err A) s :
  ok s → (∀ s', ok s' → quiet s s' → safe m s') → safe (whileWriting p m) s.
Proof using Type.
  intros Hs Hm. unfold whileWriting.
  eapply (safe_quiet _ _ (λ _ _, True)); [done|by apply quietly_update; [apply quiet_same|]|].
  intros [] s1 Hs1 Hq _. apply wp_finally. unfold safe, wp in Hm. specialize (Hm s1 Hs1 Hq). unfold wp.
  destruct (m s1) as [s2 [a|err]]; by apply (ok_same s2).
Qed.

Lemma safe_ifStateMatches {A} p lh rh (stop : A) k s :
  ok s → (∀ s', ok s' → quiet s s' → safe k s') → safe (ifStateMatches p lh rh stop k) s.
Proof using Type.
  intros Hs Hk. eapply safe_quiet; [done|by apply quietly_configStateMatches|].
  intros same s1 _ Hq Hs1. destruct same; [by apply Hk|]. eapply safe_stop; [done|apply quiet_reconcile].
Qed.

(** A call made for an effect that is justified *)
Lemma safe_effect {B} e (f : () → eff State Err B) s :
  ok s → justified (trace s) e →
  (∀ s', ok s' → safe (f ()) s') → safe (effect e ≫= f) s.
Proof using Type.
  intros Hs He Hf. apply wp_bind. unfold effect. apply wp_update. apply Hf.
  by apply (ok_snoc s _ e).
Qed.

(** ** The operations *)

Lemma effects_reconcile p s : effects (reconcile p s) = effects s.
Proof using Type. unfold reconcile. by repeat case_match. Qed.

Lemma effects_indexChanged p s : effects (onConfigFilesChanged p s) = effects s.
Proof using Type. unfold onConfigFilesChanged. repeat case_match; try done. apply effects_reconcile. Qed.

Lemma effects_noteDownloaded p s : effects (noteDownloaded p s) = effects s.
Proof using Type. unfold noteDownloaded. by repeat case_match. Qed.

Lemma ok_publish replaced meta expected s :
  ok s → justified (trace s) (Published path replaced meta) → ok (publish path replaced meta expected s).
Proof using Type.
  intros Hs Hj. eapply (ok_snoc s _ _ Hs); [|exact Hj].
  unfold publish, indexSet, local. simpl. by rewrite effects_indexChanged.
Qed.

Lemma safe_uploadBytes content meta expected g s : ok s → safe (uploadBytes path content meta expected g) s.
Proof using Type.
  intros Hs. unfold uploadBytes. eapply safe_quiet; [done|apply quietly_sha256Hex|].
  intros h s1 Hs1 _ _. apply safe_guardedLive; [done|]. apply safe_look.
  match goal with |- context [blobExists path (mhash ?m)] => generalize m; intros m' end.
  assert (∀ s', ok s' → known (Uploaded (mhash m')) s' → safe (guardedLive g path () (
        currentLocal ← localInfo path;
        s ← get (λ s, s);
        let replaced := jm_get path (configFiles s) in
        if negb (canApply g s) || bool_decide (mhash <$> mjoin currentLocal ≠ Some (mhash m')) ||
           bool_decide (mhash <$> replaced ≠ expected)
        then update (reconcile path)
        else
          let lineage := match lineageAfter (version <$> replaced) with
                         | [] => None
                         | l => Some (JArray (map JString l))
                         end in
          update (publish path replaced
            (mkMeta (mkVersion (mhash m') (Some expected) lineage) (size m') (mtime m'))
            expected))) s') as Hfinish.
  { intros s2 Hs2 Hk. apply safe_guardedLive; [done|].
    eapply safe_quiet; [done|by apply quietly_localInfo|]. intros info s3 _ Hq [Hs3 Ho].
    apply safe_look. cbv zeta. destruct (_ || _ || _) eqn:Eb.
    - eapply safe_update_quiet; [done|apply quiet_reconcile].
    - apply orb_false_iff in Eb as [[_ El]%orb_false_iff Er].
      apply bool_decide_eq_false, dec_stable in El, Er.
      unfold safe. apply wp_update. apply ok_publish; [done|]. split_and!; [done|..].
      + unfold versionAfter. simpl. f_equal. f_equal. rewrite <- Er.
        by destruct (jm_get path (configFiles s3)).
      + by eapply (known_quiet _ s2).
      + destruct (mjoin info) as [l|]; [|done]. exists l. split; [exact Ho|]. injection El as El. exact El. }
  eapply safe_quiet; [done|apply quietly_call|]. intros there s2 Hs2 _ _. destruct there.
  - eapply safe_quiet; [done|by apply (quietly_effect (Uploaded (mhash m')))|]. intros [] s3 Hs3 _ [_ Hk].
    by apply Hfinish.
  - apply safe_guardedLive; [done|]. eapply safe_quiet; [done|apply quietly_call|]. intros [] s3 Hs3 _ _.
    eapply safe_quiet; [done|by apply (quietly_effect (Uploaded (mhash m')))|]. intros [] s4 Hs4 _ [_ Hk].
    by apply Hfinish.
Qed.

Lemma safe_upload meta expected g s : ok s → safe (upload path meta expected g) s.
Proof using Type.
  intros Hs. eapply safe_quiet; [done|by apply quietly_read|]. intros c s1 _ _ [Hs1 _].
  apply safe_guardedLive; [done|]. apply safe_await. by apply safe_uploadBytes.
Qed.

(** The remote version may be written when [replaceable] says so, given that
    the file is seen as expected once more. *)
Lemma safe_materialize meta content expected g s :
  ok s →
  (∀ s' info, ok s' → quiet s s' → known (Observed path info) s' → mhash <$> info = expected →
     replaceable (trace s') content) →
  safe (materializeDownload path meta content (Some expected) g) s.
Proof using Type.
  intros Hs Hr. apply safe_guardedLive; [done|].
  eapply safe_quiet; [done|by apply quietly_localInfo|]. intros info s1 _ Hq1 [Hs1 Ho].
  apply safe_look. destruct (_ || _ || _) eqn:Eb.
  { eapply safe_stop; [done|apply quiet_reconcile]. }
  apply orb_false_iff in Eb as [_ Ee]. apply bool_decide_eq_false, dec_stable in Ee.
  apply safe_whileWriting; [done|]. intros s2 Hs2 Hq2.
  eapply safe_quiet; [done|apply quietly_ensureParentFolders|]. intros [] s3 Hs3 Hq3 _.
  apply safe_guarded; [done|]. apply safe_effect; [done|..].
  - split; [done|]. apply (Hr s3 (mjoin info)); [done| | |done].
    + apply (quiet_trans _ s2); [by apply (quiet_trans _ s1)|done].
    + eapply (known_quiet _ s2); [done..|]. by eapply (known_quiet _ s1).
  - intros s4 Hs4. eapply safe_quiet; [done|apply quietly_call|]. intros [] s5 Hs5 _ _.
    apply safe_bind; [|intros; by apply safe_ret]. unfold safe. apply wp_update.
    apply (ok_same s5); [done|]. apply effects_noteDownloaded.
Qed.

Lemma safe_deleteLocal g s :
  ok s → (∀ s', ok s' → quiet s s' → justified (trace s') (Removed path)) → safe (deleteLocal path g) s.
Proof using Type.
  intros Hs Hr. apply safe_look. destruct (negb _); [done|].
  apply safe_whileWriting; [done|]. intros s1 Hs1 Hq1.
  eapply safe_quiet; [done|apply quietly_call|]. intros present s2 Hs2 Hq2 _.
  assert (∀ s', ok s' → safe (update (λ s, noteDownloaded path
      (local (LocalState.remove path) (s <| lastSyncedHash ::= delete path |>)))) s') as Hforget.
  { intros s' Hs'. unfold safe. apply wp_update. apply (ok_same s'); [done|]. apply effects_noteDownloaded. }
  destruct present; [|by apply Hforget].
  apply safe_guarded; [done|]. apply safe_effect; [done|apply Hr; [done|by eapply quiet_trans]|].
  intros s3 Hs3. eapply safe_quiet; [done|apply quietly_call|]. intros [] s4 Hs4 _ _.
  apply safe_bind; [by eapply safe_update_quiet; [|apply quiet_same]|]. intros [] s5 Hs5. by apply Hforget.
Qed.

(** ** Merging *)

Lemma merges_quiet s s' content : ok s → quiet s s' → merges (trace s) content → merges (trace s') content.
Proof using Type.
  intros Hs Hq (loc & h & rem & text & H1 & H2 & H3 & H4).
  assert (∀ e, e ∈ trace s → e ∈ trace s') as Hk by (intros; by eapply (known_quiet _ s)).
  exists loc, h, rem, text. split_and!; auto.
  destruct H4 as [(hb & b & H4 & H5)|(copy & H4 & H5)]; [left|right]; eauto.
Qed.

Lemma safe_writeMerged text rh g s :
  ok s → merges (trace s) (encode text) → safe (writeMergedAndUpload path text rh g) s.
Proof using Type.
  intros Hs Hm. apply safe_bind.
  - apply safe_whileWriting; [done|]. intros s1 Hs1 Hq1. apply safe_guarded; [done|].
    apply safe_effect; [done|split; [done|by right; right; apply (merges_quiet s)]|].
    intros s2 Hs2. eapply safe_quiet; [done|apply quietly_call|]. intros [] s3 Hs3 _ _.
    apply safe_bind; [by eapply safe_update_quiet; [|apply quiet_same]|]. intros. by apply safe_ret.
  - intros go s1 Hs1. apply safe_look. destruct (_ || _); [done|]. apply safe_await. by apply safe_uploadBytes.
Qed.

Lemma safe_fetchFailed g (stop : bool) s : ok s →
  safe (update (λ s, if destroyed s then s else scheduleRetry g s) ≫= λ _, mret stop) s.
Proof using Type.
  intros Hs. eapply (safe_stop (λ s, if destroyed s then s else scheduleRetry g s)); [done|].
  case_match; [done|apply quiet_scheduleRetry].
Qed.

(** A download that is given why the file may be replaced *)
Lemma safe_download meta expected g s :
  ok s →
  (∀ s' info content, ok s' → quiet s s' → known (Observed path info) s' → mhash <$> info = expected →
     known (Fetched (mhash meta) content) s' → replaceable (trace s') content) →
  safe (download path meta (Some expected) g) s.
Proof using Type.
  intros Hs Hr. eapply safe_quiet; [done|by apply quietly_attempt, quietly_fetch|].
  intros [content|err] s1 _ Hq1 H1.
  - destruct H1 as [Hs1 Hf]. apply safe_await, safe_materialize; [done|].
    intros s2 info Hs2 Hq2 Ho He. apply (Hr s2 info); [done|by apply (quiet_trans _ s1)|done..|].
    by eapply (known_quiet _ s1).
  - assert (ok s1) as Hs1 by by eapply ok_quiet. apply safe_look. destruct (destroyed s1); [done|].
    eapply (safe_stop (λ s, scheduleRetry path (s <| pendingDownloads ::= <[path := mhash meta]> |>))); [done|].
    eapply quiet_trans; [|apply quiet_scheduleRetry]. by apply quiet_same.
Qed.

Lemma safe_mergeOrPreserve loc remote h g rb lb s :
  ok s → known (Read path lb) s → known (Fetched h rb) s →
  safe (mergeOrPreserve path loc remote g rb lb) s.
Proof using Type.
  intros Hs Hl Hr. unfold mergeOrPreserve.
  destruct (mergeJsonSettings (decode rb) (decode lb)) as [merged|] eqn:Em;
    [|case_match]; (apply safe_onlyIfCanApply; [done|]);
    (eapply safe_quiet; [done|by apply quietly_preserve|]); intros copy s1 _ Hq1 [Hs1 Hp].
  - eapply safe_quiet; [done|by apply quietly_effect|]. intros [] s2 _ Hq2 [Hs2 _].
    apply safe_ifStateMatches; [done|]. intros s3 Hs3 Hq3. apply safe_await, safe_writeMerged; [done|].
    assert (quiet s1 s3) as Hq13 by (by apply (quiet_trans _ s2)).
    assert (quiet s s3) as Hq03 by (by apply (quiet_trans _ s1)).
    exists lb, h, rb, merged. split_and!; [by eapply (known_quiet _ s)..|done|].
    right. exists copy. split; [by eapply (known_quiet _ s1)|done].
  - apply safe_ifStateMatches; [done|]. intros s2 Hs2 _. apply safe_await. by apply safe_uploadBytes.
  - apply safe_ifStateMatches; [done|]. intros s2 Hs2 Hq2.
    apply safe_bind; [|intros; by apply safe_ret]. apply safe_await, safe_download; [done|].
    intros s3 info content Hs3 Hq3 _ _ _. right. left. exists copy, lb.
    assert (quiet s1 s3) as Hq13 by (by apply (quiet_trans _ s2)).
    split; [|by eapply (known_quiet _ s1)]. apply (known_quiet _ s); [done|by apply (quiet_trans _ s1)|done].
Qed.

Lemma safe_mergeConflict loc remote g ancestor s :
  ok s → safe (mergeConflict path loc remote g ancestor) s.
Proof using Type.
  intros Hs. eapply safe_quiet; [done|by apply quietly_attempt, quietly_fetch|].
  intros [rb|err] s1 Hs1' Hq1 H1.
  2: { eapply safe_update_quiet; [done|]. case_match; [done|apply quiet_scheduleRetry]. }
  destruct H1 as [Hs1 Hr]. eapply safe_quiet; [done|by apply quietly_read|]. intros lb s2 _ Hq2 [Hs2 Hl].
  eapply (known_quiet _ _ s2) in Hr; [|done..]. apply safe_guardedLive; [done|].
  apply safe_ifStateMatches; [done|]. intros s3 Hs3 Hq3.
  eapply (known_quiet _ _ s3) in Hr, Hl; [|done..]. apply safe_look.
  destruct (LocalState.truthy _) as [hb|]; [|by eapply safe_mergeOrPreserve].
  eapply safe_quiet; [done|by apply quietly_attempt, quietly_fetch|]. intros got s4 Hs4 Hq4 H4.
  eapply (known_quiet _ _ s4) in Hr, Hl; [|done..]. apply safe_guardedLive; [done|].
  destruct got as [bb|err]; [|by eapply safe_mergeOrPreserve].
  destruct (mergeJsonSettingsThreeWay _ _ _) as [[text [|]]|] eqn:Em;
    [by eapply safe_mergeOrPreserve| |by eapply safe_mergeOrPreserve].
  apply safe_ifStateMatches; [done|]. intros s5 Hs5 Hq5. apply safe_await, safe_writeMerged; [done|].
  apply (merges_quiet s4); [done..|]. destruct H4 as [_ Hb].
  exists lb, (mhash remote), rb, text. split_and!; [done..|]. left. eauto.
Qed.

(** ** One reconciliation *)

Lemma safe_candidate loc remote g s : ok s → safe (reconcileCandidate path loc remote g) s.
Proof using Type.
  intros Hs. eapply safe_quiet; [done|by apply quietly_read|]. intros lb s1 _ _ [Hs1 Hl].
  eapply safe_quiet; [done|by apply quietly_attempt, quietly_fetch|]. intros [rb|err] s2 Hs2 Hq2 _.
  2: { by apply safe_fetchFailed. }
  eapply (known_quiet _ _ s2) in Hl; [|done..]. apply safe_guarded; [done|].
  eapply safe_quiet; [done|by apply quietly_preserve|]. intros copy s3 _ Hq3 [Hs3 Hp].
  eapply (known_quiet _ _ s3) in Hl; [|done..].
  eapply safe_quiet; [done|by apply quietly_effect|]. intros [] s4 _ Hq4 [Hs4 _].
  eapply (known_quiet _ _ s4) in Hl, Hp; [|done..].
  apply safe_ifStateMatches; [done|]. intros s5 Hs5 Hq5.
  apply safe_bind; [|intros; by apply safe_get]. apply safe_await, safe_materialize; [done|].
  intros s6 info Hs6 Hq6 _ _. right. left. exists copy, lb.
  split; (eapply (known_quiet _ s4); [done|by apply (quiet_trans _ s5)|done]).
Qed.

Lemma safe_editedDeletion loc g s : ok s → safe (reconcileEditedDeletion path loc g) s.
Proof using Type.
  intros Hs. eapply safe_quiet; [done|by apply quietly_read|]. intros lb s1 _ _ [Hs1 Hl].
  apply safe_guarded; [done|].
  eapply safe_quiet; [done|by apply quietly_preserve|]. intros copy s2 _ Hq2 [Hs2 Hp].
  eapply (known_quiet _ _ s2) in Hl; [|done..].
  eapply safe_quiet; [done|by apply quietly_effect|]. intros [] s3 _ Hq3 [Hs3 _].
  eapply (known_quiet _ _ s3) in Hl, Hp; [|done..].
  apply safe_ifStateMatches; [done|]. intros s4 Hs4 Hq4.
  apply safe_bind; [|intros; by apply safe_get]. apply safe_await, safe_deleteLocal; [done|].
  intros s5 Hs5 Hq5. split; [done|]. right. exists copy, lb.
  split; (eapply (known_quiet _ s3); [done|by apply (quiet_trans _ s4)|done]).
Qed.

(** When the decision is to take the remote version, the local file may go. *)
Lemma decide_download l r b opts :
  decideConfigReconcile (Some l) (Some r) b opts = ADownload →
  b = None ∨ b = Some (mhash l) ∨ (canMerge opts = false ∧ mtime l < mtime r).
Proof using Type.
  unfold decideConfigReconcile. case_match; [done|]. destruct b as [b|]; [|by left].
  case_match; [done|].
  destruct (bool_decide (b = mhash l)) eqn:E; [apply bool_decide_eq_true in E; right; left; by subst|].
  destruct (canMerge opts) eqn:Ec; [done|]. destruct (mtime r <=? mtime l) eqn:Em; [done|].
  intros _. right. right. split; [done|]. by apply Z.leb_gt.
Qed.

Lemma decide_deleteRemote loc r b opts :
  decideConfigReconcile loc r b opts = ADeleteRemote →
  loc = None ∧ ∃ m, r = Some m ∧ b = Some (mhash m) ∧ initialPullOpt opts = false.
Proof using Type.
  unfold decideConfigReconcile. case_match; [done|]. destruct loc as [l|], r as [m|]; try done.
  - destruct b as [b|]; [|done]. repeat (case_match; try done).
  - repeat (case_match; try done).
  - destruct (bool_decide (b = Some (mhash m))) eqn:E; [|done]. simpl.
    destruct (initialPullOpt opts) eqn:Ei; [done|]. intros _.
    apply bool_decide_eq_true in E. split; [done|]. exists m. done.
Qed.

Lemma decide_deleteLocal loc r b opts :
  decideConfigReconcile loc r b opts = ADeleteLocal →
  ∃ l, loc = Some l ∧ r = None ∧ b = Some (mhash l).
Proof using Type.
  unfold decideConfigReconcile. case_match; [done|]. destruct loc as [l|], r as [m|]; try done.
  - destruct b as [b|]; [|done]. repeat (case_match; try done).
  - destruct (bool_decide (b = None)); [done|].
    destruct (bool_decide (b = Some (mhash l))) eqn:E; [|done]. apply bool_decide_eq_true in E. eauto.
  - repeat (case_match; try done).
Qed.

Lemma safe_publishDelete g r s :
  ok s → known (Observed path None) s → jm_get path (configFiles s) = Some r → base = Some (mhash r) →
  safe (publishDelete path g) s.
Proof using Type.
  intros Hs Ho Hr Hb. apply safe_guardedLive; [done|]. unfold safe. apply wp_update. cbv zeta.
  set (e := Unpublished path (jm_get path (configFiles s))).
  apply (ok_snoc s _ e); [done| |].
  - unfold local. simpl. unfold indexDelete. case_match; [|done]. by rewrite effects_indexChanged.
  - unfold e. rewrite Hr. split_and!; [done|exact Ho|]. by exists r.
Qed.

(** Every action on what was seen: [state] is the local record after the
    file was noted. *)
Lemma safe_applyAction loc state g own opts s :
  ok s → known (Observed path loc) s →
  canMerge opts = endsWith ".json" path →
  (is_Some loc → is_Some (jm_get path (configFiles s)) →
     mhash <$> loc ≠ mhash <$> jm_get path (configFiles s) → base = None → accepted) →
  safe (applyAction path loc (jm_get path (configFiles s)) base state g own
    (decideConfigReconcile loc (jm_get path (configFiles s)) base opts)) s.
Proof using Type.
  intros Hs Ho Hmerge Hacc. set (remote := jm_get path (configFiles s)) in *.
  assert (∀ s', ok s' → safe (get (canApply g)) s') as Hcan by done.
  destruct (decideConfigReconcile loc remote base opts) eqn:Ed; unfold applyAction.
  - apply safe_bind; [|intros; by apply safe_ret]. unfold safe. apply wp_update.
    apply (ok_same s); [done|]. unfold applyNone. by case_match.
  - destruct loc as [l|]; [|by apply Hcan]. apply safe_bind; [|auto]. by apply safe_await, safe_upload.
  - destruct remote as [r|] eqn:Er; [|by destruct loc].
    assert (safe (written ← await (download path r (Some (mhash <$> loc)) g);
      if negb written then mret false else get (canApply g)) s) as Hdown; [|by destruct loc].
    apply safe_bind; [|intros [] ? ?; [by apply Hcan|by apply safe_ret]].
    apply safe_await, safe_download; [done|]. intros s1 info content Hs1 Hq1 Hi He Hf.
    eapply (known_quiet _ _ s1) in Ho; [|done..]. left. destruct loc as [l|].
    + destruct (decide_download l r base opts Ed) as [Hb|[Hb|[Hc Hm]]].
      * exists info. split; [exact Hi|]. right. right. left. split; [done|]. apply Hacc; [done..| |done].
        intros E. unfold decideConfigReconcile in Ed. by rewrite bool_decide_true in Ed.
      * exists info. split; [exact Hi|]. right. left. rewrite He, Hb. done.
      * exists (Some l). split; [exact Ho|]. right. right. right. split; [congruence|].
        exists l, r. by split_and!.
    + exists info. split; [exact Hi|]. left. by destruct info.
  - assert (safe (await (deleteLocal path g) ≫= λ _, get (canApply g)) s) as Hdel; [|by destruct loc, remote].
    apply safe_bind; [|auto]. apply safe_await, safe_deleteLocal; [done|]. intros s1 Hs1 Hq1.
    apply decide_deleteLocal in Ed as (l & -> & _ & Hb). split; [done|]. left. exists l.
    split; [by eapply (known_quiet _ s)|done].
  - assert (safe (publishDelete path g ≫= λ _, get (canApply g)) s) as Hpub; [|by destruct loc, remote].
    apply decide_deleteRemote in Ed as (-> & r & Er & Hb & _).
    apply safe_bind; [|auto]. by apply (safe_publishDelete g r).
  - destruct loc as [l|], remote as [r|]; try by apply Hcan.
    apply safe_bind; [|auto]. by apply safe_await, safe_mergeConflict.
Qed.

Lemma beginCandidate_new p i fp ls :
  LocalState.has p ls = false →
  isCandidate (LocalState.get p (LocalState.beginCandidate p KConfig (Some i) fp ls)) = true.
Proof using Type.
  unfold LocalState.has. intros Hn%bool_decide_eq_false.
  assert (LocalState.paths ls !! p = None) as E by (destruct (LocalState.paths ls !! p); naive_solver).
  assert (LocalState.get p ls = None) as E' by (unfold LocalState.get; by rewrite E).
  unfold LocalState.beginCandidate. rewrite E'. simpl.
  unfold LocalState.get, LocalState.set_. simpl. by rewrite lookup_insert_eq.
Qed.

(** The record of the local file that [reconcileSeen] makes first *)
Definition noted (loc : option ConfigMeta) s : State :=
  match loc, localSyncState s with
  | Some l, Some ls =>
    if LocalState.has path ls then s
    else local (LocalState.beginCandidate path KConfig (Some (mhash l)) (Some (mhash l))) s
  | _, _ => s
  end.

Lemma noted_same loc s : effects (noted loc s) = effects s ∧ lastSyncedHash (noted loc s) = lastSyncedHash s ∧
  configFiles (noted loc s) = configFiles s.
Proof using Type. unfold noted. by repeat case_match. Qed.

Lemma noted_accepted loc s :
  localSyncState s = localSyncState s0 → is_Some loc →
  isCandidate (localState path (noted loc s)) = false → accepted.
Proof using Type.
  intros Hl [l ->] Hc. unfold accepted, noted, localState in *. rewrite <- Hl.
  destruct (localSyncState s) as [ls|] eqn:El; [|by left]. right. simpl.
  destruct (LocalState.has path ls) eqn:Eh.
  - rewrite El in Hc. simpl in Hc. unfold LocalState.has in Eh. apply bool_decide_eq_true in Eh as [v Hv].
    exists (LocalState.asState v). unfold LocalState.get in *. rewrite Hv in *. done.
  - unfold local in Hc. simpl in Hc. rewrite El in Hc. simpl in Hc. by rewrite beginCandidate_new in Hc.
Qed.

Lemma safe_reconcileSeen loc g s :
  ok s → quiet s0 s → known (Observed path loc) s → safe (reconcileSeen path loc g) s.
Proof using Type.
  intros Hs [[Hbase Hlocal] _] Ho. apply (wp_bind ok (update (noted loc))). apply wp_update.
  destruct (noted_same loc s) as (He & Hb & _).
  pose proof (noted_accepted loc s Hlocal) as Hacc. set (s1 := noted loc s) in *.
  assert (ok s1) as Hs1 by by apply (ok_same s).
  apply safe_look. set (remote := jm_get path (configFiles s1)).
  apply wp_bind, wp_update.
  set (s2 := if bool_decide (pendingDownloads s1 !! path = mhash <$> remote) then s1
             else s1 <| pendingDownloads ::= delete path |>).
  assert (effects s2 = effects s1 ∧ lastSyncedHash s2 = lastSyncedHash s1 ∧
    jm_get path (configFiles s2) = remote ∧ localState path s2 = localState path s1) as (He2 & Hb2 & Hr2 & Hl2).
  { unfold s2. by case_match. }
  assert (ok s2) as Hs2 by by apply (ok_same s1).
  assert (known (Observed path loc) s2) as Ho2.
  { unfold known, trace. simpl. by rewrite He2, He. }
  do 2 apply safe_look. rewrite Hb2, Hb, Hbase, Hl2. clearbody s2 remote. subst remote.
  set (state := localState path s1) in *.
  assert (isCandidate state = false ∨ mhash <$> loc = mhash <$> jm_get path (configFiles s2) ∨
      loc = None ∨ jm_get path (configFiles s2) = None →
    safe (opts ← get (decideOpts path state base);
      applyAction path loc (jm_get path (configFiles s2)) base state g (ownBase opts)
        (decideConfigReconcile loc (jm_get path (configFiles s2)) base opts)) s2) as Hdecided.
  { intros H. apply safe_look. apply safe_applyAction; [done..|].
    intros [l ->] [r Hr] Hne _. apply Hacc; [done|]. rewrite Hr in *. naive_solver. }
  destruct loc as [l|], (jm_get path (configFiles s2)) as [r|] eqn:Er; [| |apply Hdecided; auto..].
  - destruct (_ && _) eqn:Ec; [by apply safe_candidate|]. apply Hdecided.
    apply andb_false_iff in Ec as [Ec%bool_decide_eq_false|Ec]; [|by left].
    apply dec_stable in Ec. right. left. simpl. congruence.
  - destruct (_ && _); [by apply safe_editedDeletion|]. apply Hdecided; auto.
Qed.

Lemma safe_reconcileNow : safe (reconcileNow path) s0.
Proof using Type.
  assert (ok s0) as Hs0.
  { split; [done|]. intros pre e post. unfold trace. simpl. rewrite drop_all. by destruct pre. }
  apply safe_look. destruct (_ || _); [done|]. apply safe_look.
  eapply safe_quiet; [done|by apply quietly_localInfo|]. intros info s1 _ Hq1 [Hs1 Ho].
  apply safe_look. destruct info as [loc|]; [|done]. destruct (canApply _ s1); [|done].
  by apply safe_reconcileSeen.
Qed.
End spec.

(** C3: Whatever the platform answers and whatever happens while a
    reconciliation of [path] waits, every effect it has is justified by what
    came before it.  It writes the local file only after it saw the file
    absent, or as last synced, or accepted but without a baseline, or older
    than a remote version of a file that is not JSON; or after it kept the
    file, as read, in a recovery copy; or with a merge of the file as read
    with the remote version, conflicting keys keeping the local value and the
    remote version then being kept in a copy.  It removes the local file only
    when it saw it as last synced, or kept it.  It publishes only content that
    the server holds and that it saw on disk, as the version that follows
    exactly the entry it replaces, so that readers know it descends from that
    entry; and it removes an entry only at the baseline version, having seen
    the file absent.  All of this concerns this path only. *)
Theorem config_sync_justified {W : Type} `{!Platform W} (s0 : @ConfigSync W) (path : string) pre e post :
  effects (fst (reconcileTask path s0)) = effects s0 ++ pre ++ e :: post → justified s0 path pre e.
Proof.
  intros E. pose proof (safe_reconcileNow s0 path) as H. unfold safe, wp in H. unfold reconcileTask, catch in E.
  destruct (reconcileNow path s0) as [s [b|err]]; simpl in *; destruct H as [_ H];
    apply (H pre e post); unfold trace; simpl; rewrite E; by rewrite drop_app_length.
Qed.

Module ConfigRun.
(** A disk and a blob store that answer at once and are left alone; the hash
    of a file names its first byte. *)
Record Disk := mkDisk { files : gmap string bytes; blobs : gmap string bytes }.

Definition toyHash (b : bytes) : string :=
  match b with [] => "empty" | c :: _ => String (ascii_of_byte c) EmptyString end%string.

Definition answer {A} (d : Disk) (a : A) : Disk * list Move * throws Err A := (d, [], Returns a).

#[local] Instance demo : Platform Disk := {|
  exists_ p d := answer d (bool_decide (is_Some (files d !! p)));
  stat p d := answer d ((λ b : bytes, (zlength b, 0)) <$> files d !! p);
  readBinary p d := match files d !! p with Some b => answer d b | None => (d, [], Throws OtherError) end;
  writeBinary p b d := answer (mkDisk (<[p := b]> (files d)) (blobs d)) ();
  remove_ p d := answer (mkDisk (delete p (files d)) (blobs d)) ();
  mkdir p d := answer d ();
  list_ p d := answer d ([], []);
  getBlob p h d := match blobs d !! h with Some b => answer d b | None => (d, [], Throws OtherError) end;
  blobExists p h d := answer d (bool_decide (is_Some (blobs d !! h)));
  putBlob p h b d := answer (mkDisk (files d) (<[h := b]> (blobs d))) ();
  settle d := (d, []);
  now d := 0;
  sha256 := toyHash;
  encode s := [];
  decode b := ""%string;
  parseJson s := None;
  stringify v := ""%string;
  normalizePath p := p;
  clientLabel := "laptop"%string;
  stamp t := "20250101 120000"%string;
  configRoot := ".obsidian"%string;
  fuel := 10 |}.

Definition css : string := ".obsidian/snippets/a.css".
Definition fileA : bytes := [Byte.x61].
Definition fileB : bytes := [Byte.x62].
Definition fileC : bytes := [Byte.x63].

Definition meta (h : string) (b : bytes) : ConfigMeta := mkMeta (mkVersion h None None) (zlength b) 0.

Definition accepted_a : LocalSyncState :=
  LocalState.markSynced css KConfig "a" "a" false (LocalState.legacy ∅ None).

Definition device (disk : gmap string bytes) (index : jsmap string ConfigMeta) (last : gmap string string) :
    @ConfigSync Disk :=
  mkConfigSync (mkDisk disk (<["b"%string := fileB]> ∅)) index (Some accepted_a) [ThemesAndSnippets] last ∅
    [] ∅ [] ∅ ∅ true true false 0 false false true false true [] [].

(** The file is as last synced and the index has a newer version. *)
Definition updated : @ConfigSync Disk :=
  device {[css := fileA]} [(css, meta "b" fileB)] {[css := "a"%string]}.

Lemma config_sync_justified_witness :
  justified updated css
    [Read css fileA; Observed css (Some (meta "a" fileA)); Fetched "b" fileB; Observed css (Some (meta "a" fileA))]
    (Wrote css fileB).
Proof. apply (config_sync_justified updated css _ _ []). vm_compute. reflexivity. Defined.

(** The file and its index entry are both gone: the baseline goes, but the
    local record still counts as accepted.  A new local file is then replaced
    by another device's without a recovery copy. *)
Definition bothDeleted : @ConfigSync Disk := device ∅ [] {[css := "a"%string]}.

Definition recreated : @ConfigSync Disk :=
  (fst (reconcileTask css bothDeleted))
    <| world := mkDisk {[css := fileC]} {["b"%string := fileB]} |>
    <| configFiles := [(css, meta "b" fileB)] |> <| effects := [] |>.

Example forgotten_baseline :
  effects (fst (reconcileTask css recreated)) =
    [Read css fileC; Observed css (Some (meta "c" fileC)); Fetched "b" fileB;
     Observed css (Some (meta "c" fileC)); Wrote css fileB].
Proof. vm_compute. reflexivity. Qed.
End ConfigRun.
