(* ===== verification/NoteStream.v ===== *)
(** [packages/sdk/src/stream.ts]: streaming text into a note.

    A string stands for its UTF-8 encoding, so its length is its size.  The
    WebSocket is the platform's: [sent] lists the frames written to it, and
    its events, with the frames of the server already parsed ([None] when a
    message is not JSON, or null), are steps.  A call that waits for a wakeup is
    in [wakeups], in the order the calls began to wait; once woken it is in
    [woken], and goes on in a step of its own. *)
From Stdlib Require Import String.
From S2P Require Import Prelude.
#[local] Open Scope Z_scope.

Definition MAX_STREAM_BYTES : Z := 2 * 1024 * 1024.
Definition HIGH_WATER_BYTES : Z := 256 * 1024.

Inductive StreamFailure :=
  | StreamError (code message : string)
  | PlainError (message : string).

Record StreamResult := mkResult { auditId : option string; inserted : Z }.

Inductive ServerFrame :=
  | FStarted (guid : option string) (position : option Z)
  | FAck (applied : option Z)
  | FDone (audit : option string) (count : option Z)
  | FError (code message : option string)
  | FOther.   (* any other type *)

Inductive ClientFrame := CStart (path : string) | CText (text : string) | CEnd.

(** The loops of [write] and [end] that wait *)
Inductive Waiter := WWrite (text : string) (size : Z) | WEnd.

Inductive Outcome :=
  | Wrote (text : string)          (* [write] returned *)
  | Ended (result : StreamResult)  (* [end] returned *)
  | Failed (e : StreamFailure).    (* the call threw *)

Inductive Phase := Opening | OpenFailed (e : StreamFailure) | Streaming.

Record NoteStream := mkStream {
  phase : Phase;
  guid : string;
  position : Z;
  sentBytes : Z;
  ackedBytes : Z;
  ended : bool;
  fatal : option StreamFailure;
  result : option StreamResult;
  closed : bool;
  wakeups : list (nat * Waiter);
  woken : list (nat * Waiter);
  sent : list ClientFrame;
  closeCalled : bool;
  outcomes : list (nat * Outcome);
  calls : nat }.   (* how many calls of [write] and [end] were made *)
#[export] Instance eta_NoteStream : Eta NoteStream := λ r,
  mkStream (phase r) (guid r) (position r) (sentBytes r) (ackedBytes r) (ended r) (fatal r)
    (result r) (closed r) (wakeups r) (woken r) (sent r) (closeCalled r) (outcomes r) (calls r).

(** [new NoteStream] on a socket that is connecting *)
Definition connecting : NoteStream :=
  mkStream Opening "" 0 0 0 false None None false [] [] [] false [] 0.

Definition settleCall (id : nat) (o : Outcome) (s : NoteStream) : NoteStream :=
  s <| outcomes ::= λ l, l ++ [(id, o)] |>.

Definition sendFrame (f : ClientFrame) (s : NoteStream) : NoteStream := s <| sent ::= λ l, l ++ [f] |>.

Definition waitForWake (id : nat) (w : Waiter) (s : NoteStream) : NoteStream :=
  s <| wakeups ::= λ l, l ++ [(id, w)] |>.

Definition wake (s : NoteStream) : NoteStream :=
  s <| woken ::= λ l, l ++ wakeups s |> <| wakeups := [] |>.

Definition midStream : StreamFailure := PlainError "WebSocket closed mid-stream".
Definition alreadyEnded : StreamFailure := PlainError "stream already ended".

(** [write] after its loop *)
Definition writeTail (id : nat) (text : string) (size : Z) (s : NoteStream) : NoteStream :=
  match fatal s with
  | Some e => settleCall id (Failed e) s
  | None =>
    if closed s then settleCall id (Failed midStream) s
    else settleCall id (Wrote text) (sendFrame (CText text) s <| sentBytes ::= Z.add size |>)
  end.

(** The [while] loop of [write], up to its next [await] *)
Definition writeLoop (id : nat) (text : string) (size : Z) (s : NoteStream) : NoteStream :=
  if HIGH_WATER_BYTES <=? sentBytes s - ackedBytes s then
    match fatal s with
    | Some e => settleCall id (Failed e) s
    | None =>
      if closed s then settleCall id (Failed midStream) s
      else waitForWake id (WWrite text size) s
    end
  else writeTail id text size s.

Definition write (text : string) (s : NoteStream) : NoteStream :=
  let id := calls s in
  let s := s <| calls ::= S |> in
  if ended s then settleCall id (Failed alreadyEnded) s
  else match fatal s with
  | Some e => settleCall id (Failed e) s
  | None =>
    if bool_decide (text = ""%string) then settleCall id (Wrote text) s
    else
      let size := Z.of_nat (String.length text) in
      if MAX_STREAM_BYTES <? sentBytes s + size
      then settleCall id (Failed (StreamError "too_large" "write would exceed the session limit")) s
      else writeLoop id text size s
  end.

(** [end] after its loop *)
Definition endTail (id : nat) (s : NoteStream) : NoteStream :=
  let s := s <| closeCalled := true |> in
  match result s with
  | Some r => settleCall id (Ended r) s
  | None =>
    settleCall id (Failed match fatal s with
                          | Some e => e
                          | None => PlainError "WebSocket closed before done frame"
                          end) s
  end.

Definition endLoop (id : nat) (s : NoteStream) : NoteStream :=
  if bool_decide (result s = None) && negb (closed s) then waitForWake id WEnd s else endTail id s.

Definition end_ (s : NoteStream) : NoteStream :=
  let id := calls s in
  let s := s <| calls ::= S |> in
  if ended s then settleCall id (Failed alreadyEnded) s
  else
    let s := s <| ended := true |> in
    let s := if bool_decide (result s = None) && negb (closed s) then sendFrame CEnd s else s in
    endLoop id s.

Definition abort (s : NoteStream) : NoteStream := s <| ended := true |> <| closeCalled := true |>.

(** A woken call goes on. *)
Definition resume (s : NoteStream) : NoteStream :=
  match woken s with
  | [] => s
  | (id, w) :: rest =>
    let s := s <| woken := rest |> in
    match w with WWrite text size => writeLoop id text size s | WEnd => endLoop id s end
  end.

Definition failureOf (code message : option string) : StreamFailure :=
  StreamError (default "error"%string code) (default "stream error"%string message).

(** The listeners of [open], and after it those of [listen] *)
Definition openFails (e : StreamFailure) (s : NoteStream) : NoteStream :=
  s <| phase := OpenFailed e |> <| closeCalled := true |>.

Definition onMessage (frame : option ServerFrame) (s : NoteStream) : NoteStream :=
  match frame, phase s with
  | None, _ | _, OpenFailed _ => s
  | Some (FStarted g p), Opening =>
    s <| phase := Streaming |> <| guid := default ""%string g |> <| position := default 0 p |>
  | Some (FError code message), Opening => openFails (failureOf code message) s
  | Some _, Opening => s
  | Some f, Streaming =>
    wake (match f with
          | FAck applied => s <| ackedBytes ::= Z.add (default 0 applied) |>
          | FDone audit count => s <| result := Some (mkResult audit (default 0 count)) |> <| fatal := None |>
          | FError code message => s <| fatal := Some (failureOf code message) |>
          | FStarted _ _ | FOther => s
          end)
  end.

Definition onOpen (path : string) (s : NoteStream) : NoteStream := sendFrame (CStart path) s.

Definition onClose (s : NoteStream) : NoteStream :=
  match phase s with
  | Opening => openFails (PlainError "WebSocket closed before start") s
  | OpenFailed _ => s
  | Streaming => wake (s <| closed := true |>)
  end.

Definition onError (s : NoteStream) : NoteStream :=
  match phase s with
  | Opening => openFails (PlainError "WebSocket connection failed") s
  | OpenFailed _ => s
  | Streaming =>
    wake (match fatal s with
          | Some _ => s
          | None => s <| fatal := Some (PlainError "WebSocket error") |>
          end)
  end.

(** ** Runs *)

Inductive Event :=
  | Write (text : string) | End | Abort | Resume
  | WsOpen (path : string) | WsMessage (frame : option ServerFrame) | WsClose | WsError.

(** The methods exist once [open] has returned. *)
Definition whenStreaming (f : NoteStream → NoteStream) (s : NoteStream) : NoteStream :=
  match phase s with Streaming => f s | _ => s end.

Definition step (s : NoteStream) (e : Event) : NoteStream :=
  match e with
  | Write text => whenStreaming (write text) s
  | End => whenStreaming end_ s
  | Abort => whenStreaming abort s
  | Resume => resume s
  | WsOpen path => onOpen path s
  | WsMessage frame => onMessage frame s
  | WsClose => onClose s
  | WsError => onError s
  end.

Definition run (events : list Event) : NoteStream := foldl step connecting events.

(** ** Invariant *)

Definition pendingCalls (s : NoteStream) : list (nat * Waiter) := wakeups s ++ woken s.

Definition texts (l : list ClientFrame) : list string :=
  omap (λ f, match f with CText t => Some t | _ => None end) l.

(** The texts of the calls of [write] that returned; an empty one sends
    nothing. *)
Definition written (l : list (nat * Outcome)) : list string :=
  omap (λ o, match o.2 with Wrote (String c t) => Some (String c t) | _ => None end) l.

Definition totalBytes (l : list string) : Z := foldr (λ t n, Z.of_nat (String.length t) + n) 0 l.

(** A call waits only for what can still come. *)
Definition waits (s : NoteStream) (w : Waiter) : Prop :=
  closed s = false ∧
  match w with
  | WWrite _ _ => fatal s = None ∧ HIGH_WATER_BYTES ≤ sentBytes s - ackedBytes s
  | WEnd => result s = None
  end.

Definition sized (w : Waiter) : Prop :=
  match w with WWrite t n => t ≠ ""%string ∧ n = Z.of_nat (String.length t) | WEnd => True end.

Definition doneFrame (frames : list (option ServerFrame)) (r : StreamResult) : Prop :=
  ∃ audit count, Some (FDone audit count) ∈ frames ∧ r = mkResult audit (default 0 count).

Record inv (frames : list (option ServerFrame)) (s : NoteStream) : Prop := {
  i_phase : phase s = Streaming ∨ calls s = O;
  i_calls : map fst (pendingCalls s) ++ map fst (outcomes s) ≡ₚ seq 0 (calls s);
  i_waits : ∀ id w, (id, w) ∈ wakeups s → waits s w;
  i_sized : ∀ id w, (id, w) ∈ pendingCalls s → sized w;
  i_sent : texts (sent s) = written (outcomes s);
  i_bytes : sentBytes s = totalBytes (texts (sent s));
  i_result : ∀ r, result s = Some r → doneFrame frames r;
  i_ended : ∀ id r, (id, Ended r) ∈ outcomes s → doneFrame frames r }.

Lemma totalBytes_app l k : totalBytes (l ++ k) = totalBytes l + totalBytes k.
Proof. induction l as [|t l IH]; simpl; lia. Qed.

Lemma totalBytes_nonneg l : 0 ≤ totalBytes l.
Proof. induction l as [|t l IH]; simpl; lia. Qed.

Lemma texts_app l k : texts (l ++ k) = texts l ++ texts k.
Proof. apply omap_app. Qed.

Lemma written_app l k : written (l ++ k) = written l ++ written k.
Proof. apply omap_app. Qed.

(** What a call of number [id] may rely on: it is the one call the rest of the
    state does not account for. *)
Definition inv_but (frames : list (option ServerFrame)) (id : nat) (s : NoteStream) : Prop :=
  phase s = Streaming ∧
  id :: map fst (pendingCalls s) ++ map fst (outcomes s) ≡ₚ seq 0 (calls s) ∧
  (∀ id w, (id, w) ∈ wakeups s → waits s w) ∧
  (∀ id w, (id, w) ∈ pendingCalls s → sized w) ∧
  texts (sent s) = written (outcomes s) ∧
  sentBytes s = totalBytes (texts (sent s)) ∧
  (∀ r, result s = Some r → doneFrame frames r) ∧
  (∀ id r, (id, Ended r) ∈ outcomes s → doneFrame frames r).

(** Settling a call, with what it may have sent *)
Lemma inv_settle frames id o s sentTexts :
  inv_but frames id s →
  written [(id, o)] = texts sentTexts →
  (∀ r, o = Ended r → result s = Some r) →
  inv frames (settleCall id o (s <| sent ::= λ l, l ++ sentTexts |>
    <| sentBytes ::= Z.add (totalBytes (texts sentTexts)) |>)).
Proof.
  intros (Hp & Hc & Hw & Hz & Ht & Hb & Hr & He) Ho Hres.
  split; simpl; try done.
  - by left.
  - unfold pendingCalls in *. simpl. 
    etrans; [|exact Hc]. rewrite (map_app fst (outcomes s)), app_assoc. symmetry. apply Permutation_cons_append.
  - intros id' w Hin. destruct (Hw id' w Hin) as [H1 H2]. split; [done|]. destruct w; simpl in *; [|done].
    pose proof (totalBytes_nonneg (texts sentTexts)). intuition lia.
  - by rewrite texts_app, written_app, Ht, Ho.
  - rewrite texts_app, totalBytes_app. lia.
  - intros id' r. rewrite elem_of_app, list_elem_of_singleton. intros [H|[= -> <-]]; [by eapply He|].
    by apply Hr, Hres.
Qed.

Lemma inv_settle_plain frames id o s :
  inv_but frames id s → written [(id, o)] = [] → (∀ r, o = Ended r → result s = Some r) →
  inv frames (settleCall id o s).
Proof.
  intros H Ho Hr. pose proof (inv_settle frames id o s [] H Ho Hr) as Hi.
  destruct s. unfold settleCall in *. cbn in Hi. by rewrite app_nil_r in Hi.
Qed.

Lemma inv_wait frames id w s :
  inv_but frames id s → waits s w → sized w → inv frames (waitForWake id w s).
Proof.
  intros (Hp & Hc & Hw & Hz & Ht & Hb & Hr & He) Hwt Hs. split; simpl; try done.
  - by left.
  - unfold pendingCalls in *. simpl. rewrite <- Hc, !map_app, <- !(assoc_L (++)). simpl. by rewrite <- Permutation_middle.
  - intros id' w'. rewrite elem_of_app, list_elem_of_singleton. intros [H|[= -> ->]]; [by eapply Hw|done].
  - intros id' w'. unfold pendingCalls in *. simpl. rewrite !elem_of_app, list_elem_of_singleton.
    intros [[H|[= -> ->]]|H]; [|done|]; eapply (Hz id'), elem_of_app; eauto.
Qed.

(** ** Every step keeps it *)

Lemma inv_writeLoop frames id text size s :
  inv_but frames id s → text ≠ ""%string → size = Z.of_nat (String.length text) →
  inv frames (writeLoop id text size s).
Proof.
  intros H Ht Hs. unfold writeLoop, writeTail.
  destruct (HIGH_WATER_BYTES <=? sentBytes s - ackedBytes s) eqn:Eh; destruct (fatal s) as [e|] eqn:Ef;
    try (by apply inv_settle_plain); destruct (closed s) eqn:Ec; try (by apply inv_settle_plain).
  - apply inv_wait; [done|split_and!; try done; bools; lia|done].
  - assert (written [(id, Wrote text)] = texts [CText text]) as Hw by (by destruct text).
    pose proof (inv_settle frames id (Wrote text) s [CText text] H Hw) as Hi.
    destruct s. unfold settleCall, sendFrame in *. cbn in *. subst size.
    replace (Z.of_nat (String.length text) + sentBytes0) with (Z.of_nat (String.length text) + 0 + sentBytes0) by lia.
    by apply Hi.
Qed.

Lemma inv_endLoop frames id s : inv_but frames id s → inv frames (endLoop id s).
Proof.
  intros H. unfold endLoop, endTail. destruct (bool_decide (result s = None) && negb (closed s)) eqn:Eb.
  - apply andb_true_iff in Eb as [Er%bool_decide_eq_true Ec%negb_true_iff]. by apply inv_wait.
  - assert (inv_but frames id (s <| closeCalled := true |>)) as H' by done. simpl.
    destruct (result s) as [r|] eqn:Er; rewrite <- ?Er; (apply inv_settle_plain; [done|done|intros r' E; simpl; congruence]).
Qed.

(** A new call, before it does anything *)
Lemma inv_new frames s : inv frames s → phase s = Streaming → inv_but frames (calls s) (s <| calls ::= S |>).
Proof.
  intros [_ Hc Hw Hz Ht Hb Hr He] Hp. split_and!; try done.
  change (calls (s <| calls ::= S |>)) with (S (calls s)). rewrite seq_S, <- Hc.
  by rewrite <- Permutation_cons_append.
Qed.

Lemma inv_write frames text s : inv frames s → phase s = Streaming → inv frames (write text s).
Proof.
  intros H Hp. pose proof (inv_new frames s H Hp) as Hn. unfold write. cbv zeta.
  set (s1 := s <| calls ::= S |>) in *. clearbody s1. destruct (ended s1); [by apply inv_settle_plain|]. destruct (fatal s1); [by apply inv_settle_plain|].
  case_bool_decide as Et; [subst; by apply inv_settle_plain|].
  destruct (MAX_STREAM_BYTES <? _); [by apply inv_settle_plain|]. by apply inv_writeLoop.
Qed.

Lemma inv_end frames s : inv frames s → phase s = Streaming → inv frames (end_ s).
Proof.
  intros H Hp. pose proof (inv_new frames s H Hp) as Hn. unfold end_. cbv zeta.
  set (s1 := s <| calls ::= S |>) in *. clearbody s1. destruct (ended s1); [by apply inv_settle_plain|]. apply inv_endLoop.
  destruct Hn as (H1 & H2 & H3 & H4 & H5 & H6 & H7 & H8).
  case_match; [|done]. split_and!; try done; simpl; by rewrite texts_app, app_nil_r.
Qed.

Lemma inv_resume frames s : inv frames s → inv frames (resume s).
Proof.
  intros H. unfold resume. destruct (woken s) as [|[id w] rest] eqn:Ew; [done|].
  destruct H as [Hp Hc Hw Hz Ht Hb Hr He].
  assert (phase s = Streaming) as Hph.
  { destruct Hp as [|E]; [done|]. rewrite E in Hc. unfold pendingCalls in Hc. rewrite Ew in Hc.
    apply Permutation_length in Hc. rewrite length_app, length_map, length_app in Hc. simpl in Hc. lia. }
  assert (sized w) as Hsz by (apply (Hz id); unfold pendingCalls; rewrite Ew; set_solver).
  assert (inv_but frames id (s <| woken := rest |>)) as Hn.
  { split_and!; try done.
    - change (calls (s <| woken := rest |>)) with (calls s). rewrite <- Hc. unfold pendingCalls. simpl.
      rewrite Ew, !map_app. simpl. rewrite <- !(assoc_L (++)). simpl. by rewrite <- Permutation_middle.
    - intros id' w' Hin. apply (Hz id'). unfold pendingCalls in *. simpl in *. rewrite Ew. set_solver. }
  destruct w as [text size|]; [by apply inv_writeLoop; destruct Hsz|by apply inv_endLoop].
Qed.

(** Waking everyone after a change to the connection's state *)
Lemma inv_wake frames s s' :
  inv frames s → phase s' = phase s → calls s' = calls s → wakeups s' = wakeups s → woken s' = woken s →
  outcomes s' = outcomes s → sent s' = sent s → sentBytes s' = sentBytes s →
  (∀ r, result s' = Some r → doneFrame frames r) → inv frames (wake s').
Proof.
  intros [Hp Hc Hw Hz Ht Hb Hr He] E1 E2 E3 E4 E5 E6 E7 Hr'.
  assert (pendingCalls (wake s') ≡ₚ pendingCalls s) as Hpend.
  { unfold pendingCalls, wake. simpl. rewrite E3, E4. by rewrite (comm (++)). }
  split; unfold wake; simpl; rewrite ?E1, ?E2, ?E5, ?E6, ?E7; try done.
  - fold (wake s'). by rewrite Hpend.
  - by intros id w ?%elem_of_nil.
  - fold (wake s'). intros id w. rewrite Hpend. apply Hz.
Qed.

Lemma doneFrame_app frames f r : doneFrame frames r → doneFrame (frames ++ [f]) r.
Proof. intros (a & c & H & ->). exists a, c. split; [|done]. apply elem_of_app. by left. Qed.

Lemma inv_more frames f s : inv frames s → inv (frames ++ [f]) s.
Proof.
  intros []. split; try done; intros; apply doneFrame_app; eauto.
Qed.

Lemma inv_message frames f s : inv frames s → inv (frames ++ [f]) (onMessage f s).
Proof.
  intros H%(inv_more _ f). unfold onMessage. destruct f as [f|]; [|done].
  assert (∀ s', phase s = Opening → calls s' = calls s → pendingCalls s' = pendingCalls s → wakeups s' = wakeups s →
    outcomes s' = outcomes s → sent s' = sent s → sentBytes s' = sentBytes s → result s' = result s →
    inv (frames ++ [Some f]) s') as Hopen.
  { intros s' Hph E2 E3 E4 E5 E6 E7 E8. destruct H as [[Hp|Hp] Hc Hw Hz Ht Hb Hr He]; [congruence|].
    assert (wakeups s = []) as En.
    { apply Permutation_length in Hc. rewrite Hp, length_app, length_map in Hc. unfold pendingCalls in Hc.
      rewrite length_app in Hc. apply length_zero_iff_nil. simpl in Hc. lia. }
    split; rewrite ?E2, ?E3, ?E4, ?E5, ?E6, ?E7, ?E8; try done; [by right|].
    rewrite En. by intros ? ? ?%elem_of_nil. }
  destruct (phase s) eqn:Eph.
  - destruct f; try done; by apply Hopen.
  - by destruct f.
  - destruct f; apply (inv_wake _ s); try done; try apply (i_result _ _ H).
    intros r [= <-]. exists audit, count. split; [|done]. apply elem_of_app. right. by left.
Qed.

Definition frameOf (e : Event) : list (option ServerFrame) :=
  match e with WsMessage f => [f] | _ => [] end.

Lemma inv_phase_change frames s ph c :
  inv frames s → phase s = Opening → inv frames (s <| phase := ph |> <| closeCalled := c |>).
Proof.
  intros [[Hp|Hp] ? ? ? ? ? ? ?] E; [congruence|]. split; try done. by right.
Qed.

Lemma inv_step frames s e : inv frames s → inv (frames ++ frameOf e) (step s e).
Proof.
  intros H. destruct e; simpl frameOf; rewrite ?app_nil_r; simpl step.
  - unfold whenStreaming. destruct (phase s) eqn:E; try done. by apply inv_write.
  - unfold whenStreaming. destruct (phase s) eqn:E; try done. by apply inv_end.
  - unfold whenStreaming. destruct (phase s) eqn:E; try done. by destruct H.
  - by apply inv_resume.
  - destruct H. split; try done; simpl; by rewrite texts_app, app_nil_r.
  - by apply inv_message.
  - unfold onClose. destruct (phase s) eqn:E; [by apply inv_phase_change|done|].
    apply (inv_wake _ s); try done. apply (i_result _ _ H).
  - unfold onError. destruct (phase s) eqn:E; [by apply inv_phase_change|done|].
    destruct (fatal s); apply (inv_wake _ s); try done; apply (i_result _ _ H).
Qed.

Definition framesOf (events : list Event) : list (option ServerFrame) := events ≫= frameOf.

Lemma stream_run_inv events : inv (framesOf events) (run events).
Proof.
  unfold run, framesOf. induction events as [|e events IH] using rev_ind.
  - split; try done; [by right|set_solver..].
  - rewrite foldl_snoc, bind_app. simpl. rewrite app_nil_r. by apply inv_step.
Qed.

(** ** A closed stream settles every call *)

Lemma resume_closed s : closed s = true → wakeups s = [] →
  closed (resume s) = true ∧ wakeups (resume s) = [] ∧ calls (resume s) = calls s ∧
  length (woken (resume s)) = pred (length (woken s)).
Proof.
  intros Hc Hw. unfold resume. destruct (woken s) as [|[id w] rest] eqn:Ew; [by rewrite Ew|].
  destruct w as [text size|].
  - unfold writeLoop, writeTail. simpl. rewrite Hc. by repeat case_match.
  - unfold endLoop, endTail. simpl. rewrite Hc, andb_false_r. simpl. by case_match.
Qed.

Lemma resumes_closed n s : closed s = true → wakeups s = [] → length (woken s) = n →
  pendingCalls (Nat.iter n resume s) = [] ∧ calls (Nat.iter n resume s) = calls s.
Proof.
  intros Hc Hw Hl.
  assert (∀ k, let s' := Nat.iter k resume s in closed s' = true ∧ wakeups s' = [] ∧ calls s' = calls s ∧
    length (woken s') = (n - k)%nat) as H.
  { induction k as [|k (H1 & H2 & H3 & H4)]; simpl; [split_and!; [done..|lia]|].
    destruct (resume_closed _ H1 H2) as (K1 & K2 & K3 & K4). split_and!; [done|done|congruence|].
    rewrite K4, H4. lia. }
  destruct (H n) as (_ & H2 & H3 & H4). split; [|done]. unfold pendingCalls. rewrite H2.
  apply length_zero_iff_nil. simpl. lia.
Qed.

Lemma inv_resumes frames n s : inv frames s → inv frames (Nat.iter n resume s).
Proof. intros H. induction n as [|n IH]; simpl; [done|by apply inv_resume]. Qed.

(** C18: In every run of a stream each call of [write] or [end] is pending or
    has exactly one outcome.  A [write] only waits while the unacknowledged
    window is full on a socket that is open and has reported no error, and an
    [end] only while neither the server's done frame nor the close has come.
    The texts sent are those of the calls of [write] that returned, in their
    order, and are counted exactly; a result of [end] is that of a done frame
    the server sent; and when the socket closes, every pending call ends
    once each was given its turn. *)
Theorem stream_calls_settle events :
  let s := run events in
  map fst (pendingCalls s) ++ map fst (outcomes s) ≡ₚ seq 0 (calls s) ∧
  (∀ id w, (id, w) ∈ wakeups s → waits s w) ∧
  texts (sent s) = written (outcomes s) ∧ sentBytes s = totalBytes (texts (sent s)) ∧
  (∀ id r, (id, Ended r) ∈ outcomes s → doneFrame (framesOf events) r) ∧
  (phase s = Streaming →
     let s' := Nat.iter (length (pendingCalls s)) resume (onClose s) in
     pendingCalls s' = [] ∧ map fst (outcomes s') ≡ₚ seq 0 (calls s)).
Proof.
  intros s. pose proof (stream_run_inv events) as H. fold s in H. clearbody s.
  split_and!; try apply H. intros Hp s'.
  pose proof (inv_resumes _ (length (pendingCalls s)) _ (inv_step _ _ WsClose H)) as H'.
  destruct (resumes_closed (length (pendingCalls s)) (onClose s)) as [E1 E2].
  { unfold onClose. by rewrite Hp. }
  { unfold onClose. by rewrite Hp. }
  { unfold onClose, pendingCalls. rewrite Hp. simpl. rewrite !length_app. lia. }
  split; [exact E1|]. pose proof (i_calls _ _ H') as Hc. simpl step in Hc. rewrite E1, E2 in Hc.
  unfold onClose in Hc at 2. by rewrite Hp in Hc.
Qed.

Module StreamRun.
(** A result that came before the socket closed, and a [write] cut off *)
Definition finished : list Event :=
  [WsOpen "a.md"; WsMessage (Some (FStarted (Some "g"%string) None)); Write "hello"; End;
   WsMessage (Some (FDone (Some "audit"%string) (Some 5)))].

Lemma stream_calls_settle_witness :
  phase (run finished) = Streaming ∧
  pendingCalls (Nat.iter (length (pendingCalls (run finished))) resume (onClose (run finished))) = [].
Proof.
  split; [reflexivity|]. destruct (stream_calls_settle finished) as (_ & _ & _ & _ & _ & H).
  destruct (H eq_refl) as [Hp _]. exact Hp.
Defined.

Example finished_outcomes :
  outcomes (resume (run finished)) =
    [(0%nat, Wrote "hello"); (1%nat, Ended (mkResult (Some "audit"%string) 5))].
Proof. reflexivity. Qed.

Example failed_start :
  phase (run [WsOpen "a.md"; WsMessage (Some (FError (Some "not_found"%string) None))]) =
    OpenFailed (StreamError "not_found" "stream error").
Proof. reflexivity. Qed.
End StreamRun.
